(* ===== verification/_CoqProject ===== *)
-Q . S2P
Prelude.v
Time.v
Reconnect.v
Sync.v
Envelope.v
Platform.v
ProtocolErrors.v
Keepalive.v
UnitTests.v
Engine.v
Resources.v
Client.v
ClientInv.v
ClientDemo.v
History.v
ClientSafety.v
ClientLogic.v
ClientQuiescence.v
ClientAnswers.v
ClientReplies.v
Ordering.v
Termination.v
Cancellation.v
ClientExec.v
Lifecycle.v
Shutdown.v
Escalation.v
Races.v
Transport.v
System.v
Delivery.v
Websocket.v
Connect.v
Embassy.v
Reassembly.v
Wire.v
Endpoints.v
FakeTransport.v
EmbassyConnect.v
Runtime.v
ActionTables.v
Actions.v
Board.v
Example.v
