(* ===== verification/Prelude.v ===== *)
(** * A verification of ocpp-client

    ocpp-client is the charge point side of OCPP, the protocol between charge points and
    their management system (the CSMS).  One engine, [Client<E>], serves the three
    protocol versions: it sends CALLs and matches the CALLRESULTs and CALLERRORs that come
    back, dispatches the peer's CALLs and SENDs to registered handlers, pings the peer,
    and redials a connection that is lost.  Transports, executors, timers and redialling
    are traits; the crate brings a WebSocket transport on tokio, and a satellite crate one
    on embassy-net.

    ** How the parts interact

    A [Client] is a bundle of shared tables.  [from_transport_with_config] spawns two
    tasks, the read loop and the keepalive loop; [on], [on_notification], [on_ping] and
    [on_reconnect] spawn one more each.  [call] and [send_ping] insert a waiter into a
    table, write to the transport's write half and wait; the read loop receives events,
    completes those waiters or queues the peer's CALL for its handler, and on the end of a
    connection redials with a backoff.  [disconnect] sets a sticky flag and wakes both
    loops.

    ** The files

    - Prelude.v: results, machine integers, bytes, tables of shared cells, tactics, hints.
    - Time.v: [core::time::Duration], with its arithmetic specified in nanoseconds.
    - Reconnect.v: src/src/reconnect.rs, the backoff policy and its jitter.
    - Sync.v: src/src/sync.rs, one-shots, notifications, channels, broadcast registries
      over a latching signal (class [SignalModel]); the concurrent use of a channel by
      senders, a closer and its consumer as a step relation.
    - Envelope.v: src/src/envelope.rs; JSON values and their text (class [SerdeJson]).
    - Platform.v: identifiers (class [UuidModel]), and concrete instances of the classes.
    - ProtocolErrors.v: src/src/error.rs and the error.rs of the three versions; the
      [ProtocolError] trait is a class with the laws the engine is verified against, and
      each version is an instance of both.
    - Keepalive.v: src/src/keepalive.rs and the [KeepaliveState] of client.rs.
    - UnitTests.v: the unit tests inside reconnect.rs and keepalive.rs, as functions of the
      random numbers drawn.
    - Engine.v: async programs over a shared state (below).
    - Resources.v: a second judgement on programs, [owns]: a program holds a resource (an
      element of a commutative monoid, class [Ghost]) that its steps exchange with the
      shared state, and what all tasks of a pool hold together is accounted for; products
      of such monoids, and things that only one task can hold.
    - Client.v: src/src/client.rs, with the traits of action.rs, transport.rs and
      runtime.rs; one program per method, background task and frame handler.
    - ClientInv.v: the client's invariant and the rely/guarantee proof that every step of
      every method and task keeps it.
    - ClientDemo.v: concrete clients for the witnesses.
    - History.v: what one program of a pool has itself done, as a list of deeds, and the
      judgement [follows] that speaks of it.
    - ClientSafety.v: what holds under every interleaving.
    - ClientLogic.v: what a judgement on programs must prove of the client's basic
      operations to hold of every method, task and user ([core_logic], and with the
      wake-up and the closed flag [client_logic]).
    - ClientQuiescence.v, ClientAnswers.v: two instances of it with [owns].  The slots a
      task has filled in the tables of requests and pings are its resource in the first;
      in the second, the identifiers of the CALLs it has taken and not yet answered.
    - ClientReplies.v: a third instance, with [safe]: the queues of the handlers hold only
      CALLs that were received, each in the channel of its own action, so that every
      answer is what a handler of that action made of that request.  What handlers may
      answer is a parameter ([Contract]).
    - Ordering.v: another with [owns]: the right to read a handler's queue has one owner,
      and what it has taken is answered before it takes the next.
    - Termination.v: [ends_in], a judgement on programs that bounds their own steps and
      excludes that they wait for the peer alone; the client's operations meet it; and
      [lasts] and [goes_on], for programs that do not end so soon.
    - Cancellation.v: what is left of a task that is dropped, in which schedules a drop is a
      step of its own.
    - ClientExec.v: requests, frames and handlers, branch by branch.
    - Lifecycle.v: shutdown, pings, redialling, keepalive, branch by branch.
    - Shutdown.v: how the read loop ends from any of its points once the client is shut
      down, beside arbitrary other tasks.
    - Escalation.v: what the keepalive task itself has done, beside arbitrary other tasks.
    - Races.v: two concrete interleavings in which the client does less than documented.
    - Transport.v: what a transport carries from one end to the other, and the contracts of
      its halves, as classes: [recv] may be dropped, and calls on the write half do not
      disturb it.
    - System.v: two clients, each with its tasks and users, over a link that may lose,
      delay, repeat and reorder events but not invent any; one step of the system is one
      step of one task at one end.
    - Websocket.v: src/src/transport/websocket.rs, an instance of these contracts.
    - Connect.v: src/src/connect.rs, the handshake request, the negotiation of a version,
      the configuration of the client and its redialler (class [NetStack]).
    - Embassy.v: the two halves of the transport of src/crates/ocpp-transport-embassy-net,
      on the codec they share, and the handshake's response, an instance of the same
      contracts (classes [FrameCodec] and [SharedCodec]).
    - Reassembly.v: its [recv] against a reference that assembles messages from what the
      decoder and the socket report, errors included.
    - Wire.v: the engine on top of any halves that meet the contracts, the read half polled
      by the read loop and dropped by wake-ups while its inputs arrive and calls on the
      write half start; and with the two above.
    - Endpoints.v: two clients, each over a WebSocket adapter whose socket yields the
      messages the other one wrote: an instance of System.v.
    - FakeTransport.v: src/tests/common/mod.rs, the in-memory transport and the scripted
      peer, a third instance of the contract, and tests that use them.
    - EmbassyConnect.v: its [connect], with what an attempt leaks, and its reconnector.
    - Runtime.v: src/src/runtime.rs, the executors and timers of tokio and of embassy; what
      the trait demands of an executor is a class.
    - ActionTables.v, Actions.v: the action declarations of the three versions and what
      their macros generate, the [customData] parameter of 2.0.1 and 2.1 included.
    - Board.v: src/crates/ocpp-board-stm32h723-nucleo/src/main.rs, the firmware that uses
      all of this: its random generator, its clock tree, its first connection, and the
      board that runs the client and the heartbeats until a dial finds no socket left.
    - Example.v: src/examples/connect.rs, a whole charge point that uses the crate.

    ** How the code is modelled

    An [async fn] is a program ([Engine.prog]): locked sections and atomic accesses are
    atomic steps on the shared state, awaited futures are steps that are taken once they
    are ready, and other tasks run in between.  What a transport, a timer, a reconnector
    or the identifier generator answers is an input, the choice of a step.  A lock that
    is held across a call on the write half makes that call one step, at the moment the
    transport answers.  [Engine.run_pool] interleaves any number of tasks under a
    schedule, [Engine.run_among] does so around one observed program, and [Engine.run]
    runs one program alone.  Shared cells ([Arc]) are handles into growing lists, so
    aliasing between a table and a task is explicit.  The [log] of a client records what
    was exchanged with the outside, and no program reads it.  A handler's [recv] is ready
    when its channel has a value or is closed and drained; Sync.v proves of the channel's
    own loop that it wakes up in exactly those cases.

    An infinite loop is a [Fixpoint] on fuel ending in [OutOfFuel].  Its runs are the
    finite prefixes of the loop's runs: the theorems about interleavings hold for every
    amount of fuel and every schedule, hence at every moment of the loop.  The theorems
    that say that something ends or is answered give the run that does so, with a fuel
    that suffices ([call_completes], [redial_backs_off],
    [replaced_handler_drains_and_ends]); those that say it of every run have more fuel than
    the program has taken steps or turns, so that it has not run out
    ([shutdown_ends_read_loop], [heartbeats_go_on]).  Turns of the two background loops are
    definitions of their own ([connection_turn], [keepalive_turn]).

    ** What the theorems show

    - End to end, between two clients over such a link and under every interleaving of both
      ends: a call returns [Ok x] only if the handler at the other end may yield [Ok x] for
      that very request, its protocol errors are the handler's, and of a successful ping the
      peer received the very token and answered it ([call_is_a_call_of_the_handler],
      [ping_reaches_the_peer]); WebSocket adapters are such a link, and a reliable one,
      whatever else their sockets yield ([websockets_are_a_link]); and for every action, request and computing handler there
      is a run in which the call returns that handler's outcome ([call_completes]).
    - Answers, under every interleaving and for arbitrary handlers: every CALLRESULT and
      CALLERROR is the encoding of what a handler of the CALL's action yielded for its
      payload, or one of the two refusals; the example charge point is an application.
    - Correlation and bookkeeping, under every interleaving: the invariant of the shared
      tables, that a call returns exactly what a frame with its identifier said, that it
      leaves nothing pending, that a ping succeeds only on the pong of the token it has
      itself sent, that [wait_for] leaves no registration behind, and that at most one dial
      completes after a shutdown.
    - Order, under every interleaving: the answers of a handler go out in the order in
      which its CALLs came in ([answers_follow_the_order_of_calls]).
    - Termination: an operation of a client takes a bounded number of steps of its own
      under every schedule, and can always take the next one with some answer of the
      transport, the timer or the generator ([operations_return]); the read loop of a
      client that was shut down ends within six steps of its own, and six for each event
      still delivered, wherever it is ([shutdown_ends_read_loop]).
    - From the bytes up: over the embassy transport the engine receives the answers of the
      reference assembly of what arrived, errors included and whatever is written
      meanwhile, over WebSockets the events the peer's write half carried, however its
      [recv] is dropped ([bytes_reach_the_engine], [messages_reach_the_engine]).
    - Keepalive: a redial is forced after exactly the allowed misses on a client run
      alone, and under every interleaving never without them
      ([keepalive_escalates], [redial_forced_only_after_misses]).
    - Accounting, under every interleaving and for arbitrary users: no CALL is answered
      more often than the peer made it, a client whose tasks all wait for something to do
      has no request and no ping outstanding, and every frame handed to a transport is an
      envelope of one of the four message types.
    - Cancellation: a dropped call leaves its entry behind, whatever happens later
      ([abandoned_call_stays_pending]).  What holds under every interleaving holds with
      tasks dropped, because a task that is never scheduled again does what a dropped one
      does ([run_dropping_steps]).
    - Round trips: a request reaches the handler and its answer the caller unchanged, and
      a notification its handler; the errors of each version survive the wire.
    - Branches: what each operation does when the transport fails, the timer fires, the
      peer misbehaves, or the client is closed.
    - Liveness of the channel, refinement of an abstract queue, draining of a replaced
      handler, cancel-safety of both read halves, reassembly of fragmented messages with
      control frames between the pieces.
    - Runtimes and firmware: which clients each executor can carry, the precision of the
      timers, the handshake's hand-over to the stream byte for byte, a heartbeat task that
      no failure ends until the board is out of sockets, and a bound on how often the
      firmware can dial.
    - Arithmetic: the iterative backoff equals its closed form, jitter stays in bounds and
      never overflows, intervals and tokens at their width.
    - Configuration: negotiation, redialling like the first connection, credentials sent
      verbatim and kept out of logs, the action tables.
    - Divergences: a doubled error description, an entry that a dropped call leaves behind, a
      connection left open by a shutdown that races a dial, a CALL lost while its handler is replaced, frames cut off by partial
      writes, a socket leaked by every dial and a task pool sized one too small on embassy,
      and a firmware that cannot dial a fifth time.

    ** What is not modelled

    Logging; the set-up of pins and drivers in the firmware; the benchmarks, and the
    integration tests but ten: the others repeat these for further actions and versions,
    or measure wall-clock time, sockets and TLS; the
    bodies of third-party crates, which are class parameters with the laws
    the code relies on: [serde_json], [uuid], [embassy-sync]'s signal, [url], [http],
    [base64], [tokio-tungstenite], [embedded-websocket], [embassy-net], the hardware
    random generator, and the message types of [ocpp-types].  Of the [embedded-websocket]
    codec, which both embassy halves lock in turn, the code relies on encoding not to
    change what is decoded afterwards, but for which of two close frames is reported: that
    is the law of [SharedCodec].  The [Clone] of a client or a
    primitive is the sharing of its handle, and [Chan::is_same] the equality of handles;
    neither is a definition of its own.

    The link of System.v is an assumption about the transports, which Endpoints.v
    discharges for the WebSocket adapters.  It cannot be discharged for the embassy
    transport, whose partial writes cut frames off (Embassy.v).  That a call returns the
    handler's outcome under every fair schedule is not stated: [call_completes] gives a
    run, [operations_return] excludes that a call waits for ever, and
    [client_at_rest_has_nothing_pending] that one is forgotten. *)

From Stdlib Require Import Strings.Byte.
From stdpp Require Import base gmap list strings numbers pretty relations.

(** ** Results

    Rust's [Result<T, E>]. *)

Inductive result (T E : Type) : Type :=
| Ok (value : T)
| Err (error : E).
Arguments Ok {T E} _.
Arguments Err {T E} _.

Definition result_map {T U E} (f : T → U) (r : result T E) : result U E :=
  match r with Ok t => Ok (f t) | Err e => Err e end.

Definition map_err {T E F} (f : E → F) (r : result T E) : result T F :=
  match r with Ok t => Ok t | Err e => Err (f e) end.

Definition result_bind {T U E} (r : result T E) (f : T → result U E) : result U E :=
  match r with Ok t => f t | Err e => Err e end.

Definition is_ok {T E} (r : result T E) : bool :=
  match r with Ok _ => true | Err _ => false end.

Declare Scope ocpp_scope.
Delimit Scope ocpp_scope with ocpp.

(** Rust's [?] operator. *)
Notation "'try!' x ':=' r 'in' k" := (result_bind r (λ x, k))
  (at level 10, x name, r at level 100, k at level 200) : ocpp_scope.

#[global] Instance result_eq_dec {T E} `{EqDecision T} `{EqDecision E} :
  EqDecision (result T E).
Proof. solve_decision. Defined.

(** ** Machine integers

    An unsigned [w]-bit integer is a [Z] kept in [[0, 2^w)]; the operations the
    sources use on them write their overflow behaviour out. *)

Definition u32_max : Z := 4294967295.
Definition u64_max : Z := 18446744073709551615.

Definition is_u32 (z : Z) : Prop := (0 ≤ z ≤ u32_max)%Z.
Definition is_u64 (z : Z) : Prop := (0 ≤ z ≤ u64_max)%Z.

Definition u32_saturating_add (a b : Z) : Z := Z.min (a + b) u32_max.
Definition u64_wrapping_add (a b : Z) : Z := ((a + b) mod (u64_max + 1))%Z.
Definition u64_checked_add (a b : Z) : option Z :=
  if decide (a + b ≤ u64_max)%Z then Some (a + b)%Z else None.
Definition u64_checked_mul (a b : Z) : option Z :=
  if decide (a * b ≤ u64_max)%Z then Some (a * b)%Z else None.

(** [x as u32] and [x as u64] of a wider unsigned value keep the low bits. *)
Definition as_u32 (z : Z) : Z := (z mod (u32_max + 1))%Z.
Definition as_u64 (z : Z) : Z := (z mod (u64_max + 1))%Z.

(** ** Automation *)

Create HintDb ocpp.
Create Rewrite HintDb ocpp.

(** Case analysis on the scrutinee of a match in the goal or in a hypothesis,
    followed by the simplifications every case needs. *)
Ltac split_match :=
  repeat (case_match; simplify_eq/=); try done; try (by naive_solver).

(** Unfold the integer-width predicates for [lia]. *)
Ltac width_lia :=
  unfold is_u32, is_u64, u32_saturating_add, u64_wrapping_add, as_u32, as_u64,
    u32_max, u64_max in *; lia.

Lemma u32_saturating_add_range a b : is_u32 a → (0 ≤ b)%Z → is_u32 (u32_saturating_add a b).
Proof. width_lia. Qed.

Lemma u32_saturating_add_le a b : is_u32 a → (0 ≤ b)%Z → (a ≤ u32_saturating_add a b)%Z.
Proof. width_lia. Qed.

Lemma u64_wrapping_add_range a b : is_u64 (u64_wrapping_add a b).
Proof.
  unfold is_u64, u64_wrapping_add.
  pose proof (Z.mod_pos_bound (a + b) (u64_max + 1) ltac:(done)). lia.
Qed.

Lemma as_u32_range z : is_u32 (as_u32 z).
Proof.
  unfold is_u32, as_u32. pose proof (Z.mod_pos_bound z (u32_max + 1) ltac:(done)). lia.
Qed.

Lemma as_u64_le z : (0 ≤ z)%Z → (0 ≤ as_u64 z ≤ z)%Z.
Proof.
  intros Hz. unfold as_u64. split.
  - apply Z.mod_pos_bound. done.
  - by apply Z.mod_le.
Qed.

Lemma as_u64_small z : is_u64 z → as_u64 z = z.
Proof. unfold is_u64, as_u64. intros. apply Z.mod_small. lia. Qed.

#[export] Hint Resolve u32_saturating_add_range u64_wrapping_add_range as_u32_range : ocpp.

(** ** Bytes

    A [u8] is a [byte]; a [Vec<u8>] is a list of them. *)

Abbreviation byte := Corelib.Init.Byte.byte.

Definition byte_to_Z (b : byte) : Z := Z.of_N (Byte.to_N b).

Definition Z_to_byte (z : Z) : byte :=
  match Byte.of_N (Z.to_N (z mod 256)) with
  | Some b => b
  | None => Corelib.Init.Byte.x00
  end.

(** [to_be_bytes] of an [n]-byte integer, most significant byte first, and the
    value [from_be_bytes] reads back. *)
Fixpoint be_bytes (n : nat) (z : Z) : list byte :=
  match n with
  | O => []
  | S n' => be_bytes n' (z / 256) ++ [Z_to_byte z]
  end.

Definition be_value (bs : list byte) : Z :=
  foldl (λ acc b, acc * 256 + byte_to_Z b)%Z 0%Z bs.

Lemma byte_to_Z_range b : (0 ≤ byte_to_Z b < 256)%Z.
Proof. unfold byte_to_Z. pose proof (Byte.to_N_bounded b). lia. Qed.

Lemma byte_to_Z_to_byte z : byte_to_Z (Z_to_byte z) = (z mod 256)%Z.
Proof.
  unfold byte_to_Z, Z_to_byte.
  pose proof (Z.mod_pos_bound z 256 ltac:(done)) as Hz.
  case_match eqn:Hb.
  - apply Byte.to_of_N in Hb. lia.
  - apply Byte.of_N_None_iff in Hb. lia.
Qed.

Lemma Z_to_byte_to_Z b q : Z_to_byte (q * 256 + byte_to_Z b) = b.
Proof.
  pose proof (byte_to_Z_range b) as Hb. unfold Z_to_byte.
  replace ((q * 256 + byte_to_Z b) mod 256)%Z with (byte_to_Z b).
  - unfold byte_to_Z. by rewrite N2Z.id, Byte.of_to_N.
  - rewrite Z.add_comm, Z.mod_add by done. by rewrite Z.mod_small.
Qed.

Lemma be_value_snoc bs b : be_value (bs ++ [b]) = (be_value bs * 256 + byte_to_Z b)%Z.
Proof. unfold be_value. by rewrite foldl_app. Qed.

Lemma length_be_bytes n z : length (be_bytes n z) = n.
Proof. revert z. induction n; intros z; simpl; [done|]. rewrite length_app, IHn. simpl. lia. Qed.

Lemma be_value_be_bytes n z : be_value (be_bytes n z) = (z mod 256 ^ Z.of_nat n)%Z.
Proof.
  revert z. induction n as [|n IH]; intros z; simpl be_bytes.
  - by rewrite Z.mod_1_r.
  - rewrite be_value_snoc, IH, byte_to_Z_to_byte.
    rewrite Nat2Z.inj_succ, Z.pow_succ_r by lia.
    rewrite (Z.rem_mul_r z 256 (256 ^ Z.of_nat n)) by lia. lia.
Qed.

Lemma be_bytes_be_value bs : be_bytes (length bs) (be_value bs) = bs.
Proof.
  induction bs as [|b bs IH] using rev_ind; [done|].
  rewrite length_app, Nat.add_comm, be_value_snoc. simpl.
  pose proof (byte_to_Z_range b).
  rewrite Z.div_add_l, Z.div_small, Z.add_0_r, IH by lia.
  by rewrite Z_to_byte_to_Z.
Qed.

Lemma be_value_range bs : (0 ≤ be_value bs < 256 ^ Z.of_nat (length bs))%Z.
Proof.
  rewrite <-(be_bytes_be_value bs) at 1 2. rewrite be_value_be_bytes.
  apply Z.mod_pos_bound. lia.
Qed.

(** ** Association of list cells with shared handles

    The sources share a value between a map and a task by cloning an [Arc].  The
    allocations are modelled as a growing list (the heap of that type of cell), a
    handle as an index into it. *)

Definition update_at {A} (i : nat) (f : A → A) (l : list A) : list A :=
  match l !! i with Some a => <[i := f a]> l | None => l end.

Lemma length_update_at {A} i (f : A → A) l : length (update_at i f l) = length l.
Proof. unfold update_at. case_match; [apply length_insert|done]. Qed.

Lemma lookup_update_at_eq {A} i (f : A → A) l : update_at i f l !! i = f <$> l !! i.
Proof.
  unfold update_at. destruct (l !! i) as [a|] eqn:Hi; simpl; [|done].
  apply list_lookup_insert_eq. by eapply lookup_lt_Some.
Qed.

Lemma lookup_update_at_ne {A} i j (f : A → A) l : i ≠ j → update_at i f l !! j = l !! j.
Proof. intros. unfold update_at. case_match; [by apply list_lookup_insert_ne|done]. Qed.

Lemma lookup_snoc_old {A} (l : list A) x i : i < length l → (l ++ [x]) !! i = l !! i.
Proof. apply lookup_app_l. Qed.

Lemma lookup_snoc_new {A} (l : list A) x : (l ++ [x]) !! length l = Some x.
Proof. by rewrite lookup_app_r, Nat.sub_diag. Qed.

Lemma lookup_snoc_Some_iff {A} (l : list A) x i y :
  (l ++ [x]) !! i = Some y ↔ l !! i = Some y ∨ (i = length l ∧ y = x).
Proof.
  destruct (decide (i < length l)).
  - rewrite lookup_app_l by done. split; [by left|]. intros [?|[-> _]]; [done|lia].
  - rewrite lookup_app_r by lia. rewrite (lookup_ge_None_2 l i) by lia.
    destruct (decide (i = length l)) as [->|].
    + rewrite Nat.sub_diag. simpl. naive_solver.
    + rewrite list_lookup_singleton. case_match; [lia|]. naive_solver.
Qed.

Lemma filter_agree {A} (P Q : A → Prop) `{!∀ x, Decision (P x), !∀ x, Decision (Q x)} (l : list A) :
  (∀ x, x ∈ l → P x ↔ Q x) → filter P l = filter Q l.
Proof.
  induction l as [|x l IH]; intros Hl; [done|]. rewrite !filter_cons, IH by set_solver.
  pose proof (Hl x ltac:(by left)). repeat case_decide; naive_solver.
Qed.

(** A map from keys to shared cells.  [keys] remembers under which key each cell was
    allocated; no operation reads it. *)
Record Table (K V : Type) `{Countable K} := mkTable {
  entries : gmap K nat;
  cells : list V;
  keys : list K;
}.
Arguments mkTable {K V _ _} _ _ _.
Arguments entries {K V _ _} _.
Arguments cells {K V _ _} _.
Arguments keys {K V _ _} _.

Section Tables.
Context {K V : Type} `{Countable K}.
Implicit Types t : Table K V.

Definition table_empty : Table K V := mkTable ∅ [] [].

(** Allocate a cell holding [v] and bind [k] to it: the handle, and the new table. *)
Definition table_insert (k : K) (v : V) (t : Table K V) : nat * Table K V :=
  (length (cells t),
   mkTable (<[k := length (cells t)]> (entries t)) (cells t ++ [v]) (keys t ++ [k])).

Definition table_remove (k : K) (t : Table K V) : Table K V :=
  mkTable (delete k (entries t)) (cells t) (keys t).

Definition table_clear (t : Table K V) : Table K V := mkTable ∅ (cells t) (keys t).

(** Change the cell behind a handle. *)
Definition table_update (h : nat) (f : V → V) (t : Table K V) : Table K V :=
  mkTable (entries t) (update_at h f (cells t)) (keys t).

(** The value a key is bound to. *)
Definition table_lookup (k : K) (t : Table K V) : option V :=
  match entries t !! k with Some h => cells t !! h | None => None end.

(** Every bound handle is that of a cell allocated under its key, every cell satisfies
    [Q] with its key, and the bound ones satisfy [P]. *)
Record table_wf (P Q : K → V → Prop) (t : Table K V) : Prop := {
  wf_bound : ∀ k h, entries t !! k = Some h → ∃ v, cells t !! h = Some v ∧ P k v;
  wf_keys : ∀ k h, entries t !! k = Some h → keys t !! h = Some k;
  wf_cells : ∀ k h v, keys t !! h = Some k → cells t !! h = Some v → Q k v;
  wf_length : length (keys t) = length (cells t);
}.

(** No two keys share a cell. *)
Lemma table_wf_inj P Q t k k' h :
  table_wf P Q t → entries t !! k = Some h → entries t !! k' = Some h → k = k'.
Proof. intros Hwf Hk Hk'. apply (wf_keys _ _ _ Hwf) in Hk, Hk'. congruence. Qed.

Lemma table_wf_empty P Q : table_wf P Q table_empty.
Proof. split; simpl; intros; simplify_map_eq; done. Qed.

Lemma table_wf_insert P Q k v t :
  table_wf P Q t → P k v → Q k v → table_wf P Q (table_insert k v t).2.
Proof.
  intros [Hb Hk Hc Hl] Hv HQ. split; simpl.
  - intros k' h. rewrite lookup_insert. case_decide; subst.
    + intros [= <-]. exists v. by rewrite lookup_snoc_new.
    + intros He. destruct (Hb _ _ He) as (w & Hw & ?). exists w. split; [|done].
      rewrite lookup_snoc_old; [done|]. by eapply lookup_lt_Some.
  - intros k' h. rewrite lookup_insert, lookup_snoc_Some_iff. case_decide; subst; [|naive_solver].
    intros [= <-]. auto.
  - intros k' h v'. rewrite !lookup_snoc_Some_iff.
    intros [Hk1|[-> ->]] [Hc1|[Heq ->]]; [by eapply Hc| | |done].
    + apply lookup_lt_Some in Hk1. lia.
    + apply lookup_lt_Some in Hc1. lia.
  - rewrite !length_app. simpl. lia.
Qed.

Lemma table_wf_remove P Q k t : table_wf P Q t → table_wf P Q (table_remove k t).
Proof.
  intros [Hb Hk Hc Hl]. split; simpl; [..|done|done].
  - intros k' h [? ?]%lookup_delete_Some. eauto.
  - intros k' h [? ?]%lookup_delete_Some. eauto.
Qed.

Lemma table_wf_clear P Q t : table_wf P Q t → table_wf P Q (table_clear t).
Proof. intros [Hb Hk Hc Hl]. split; simpl; [..|done|done]; intros k h; by rewrite lookup_empty. Qed.

Lemma table_wf_update P Q h f t :
  (∀ k v, entries t !! k = Some h → cells t !! h = Some v → P k v → P k (f v)) →
  (∀ k v, keys t !! h = Some k → cells t !! h = Some v → Q k v → Q k (f v)) →
  table_wf P Q t → table_wf P Q (table_update h f t).
Proof.
  intros HP HQ [Hb Hk Hc Hl]. split; simpl; [|done| |by rewrite length_update_at].
  - intros k h' He. destruct (Hb _ _ He) as (v & Hv & ?).
    destruct (decide (h = h')) as [->|].
    + exists (f v). rewrite lookup_update_at_eq, Hv. eauto.
    + exists v. by rewrite lookup_update_at_ne.
  - intros k h' v Hk'. destruct (decide (h = h')) as [->|].
    + rewrite lookup_update_at_eq. intros (v' & Hv' & ->)%fmap_Some. eauto.
    + rewrite lookup_update_at_ne by done. eauto.
Qed.

(** A cell no key is bound to is free of [P]. *)
Lemma table_wf_update_unbound P Q h f t :
  (∀ k, entries t !! k ≠ Some h) →
  (∀ k v, keys t !! h = Some k → cells t !! h = Some v → Q k v → Q k (f v)) →
  table_wf P Q t → table_wf P Q (table_update h f t).
Proof. intros Hne. apply table_wf_update. intros k v Hk. by destruct (Hne k). Qed.

(** A later table: cells are only added, and a handle that is not bound to a key any
    more is never bound to it again. *)
Definition table_evolves t t' : Prop :=
  length (cells t) ≤ length (cells t') ∧
  ∀ k h, h < length (cells t) → entries t' !! k = Some h → entries t !! k = Some h.

#[export] Instance table_evolves_preorder : PreOrder table_evolves.
Proof.
  split; [by split|]. intros t1 t2 t3 [Hl12 He12] [Hl23 He23]. split; [lia|].
  intros k h Hh He. apply He12, He23; [done|lia|done].
Qed.

Lemma table_evolves_insert k v t : table_evolves t (table_insert k v t).2.
Proof.
  split; simpl; [rewrite length_app; lia|]. intros k' h Hh. rewrite lookup_insert.
  case_decide; [intros [= ?]; lia|done].
Qed.

Lemma table_evolves_remove k t : table_evolves t (table_remove k t).
Proof. split; simpl; [done|]. intros k' h _ [? ?]%lookup_delete_Some. done. Qed.

Lemma table_evolves_update h f t : table_evolves t (table_update h f t).
Proof. split; simpl; [by rewrite length_update_at|done]. Qed.

(** What holds of all cells may be weakened. *)
Lemma table_wf_impl P Q Q' t :
  (∀ k v, Q k v → Q' k v) → table_wf P Q t → table_wf P Q' t.
Proof. intros HQ [Hb Hk Hc Hl]. split; eauto. Qed.

End Tables.

(** ** Strings *)

Lemma string_app_assoc (a b c : string) : a +:+ (b +:+ c) = (a +:+ b) +:+ c.
Proof. induction a as [|x a IH]; [done|]. simpl. unfold String.append. by f_equal. Qed.

(** ** Invariants of step relations *)

Lemma rtc_invariant {A} (R : relation A) (P : A → Prop) x y :
  (∀ a b, R a b → P a → P b) → P x → rtc R x y → P y.
Proof. intros Hstep Hx. induction 1; eauto. Qed.

Lemma rtc_preorder {A} (R : relation A) x y : PreOrder R → rtc R x y → R x y.
Proof. intros HR. induction 1 as [x|x y z Hxy _ IH]; [reflexivity|by transitivity y]. Qed.

#[export] Hint Rewrite @length_update_at @lookup_update_at_eq @lookup_snoc_new : ocpp.
