(* ===== verification/Time.v ===== *)
(** * Time

    [core::time::Duration], as far as the sources use it: seconds and
    nanoseconds kept apart, the arithmetic of the standard library written out
    on the two fields, and lemmas that relate each operation to the duration's
    length in nanoseconds. *)

From S2P Require Import Prelude.
From stdpp Require Import base numbers.

Local Open Scope Z_scope.

Definition NANOS_PER_SEC : Z := 1000000000.

Record Duration := mkDuration { secs : Z; nanos : Z }.

#[global] Instance Duration_eq_dec : EqDecision Duration.
Proof. solve_decision. Defined.

Definition valid_duration (d : Duration) : Prop :=
  is_u64 (secs d) ∧ 0 ≤ nanos d < NANOS_PER_SEC.

Definition ZERO : Duration := mkDuration 0 0.

Definition from_secs (s : Z) : Duration := mkDuration s 0.
Definition from_millis (ms : Z) : Duration :=
  mkDuration (ms / 1000) (ms mod 1000 * 1000000).
Definition from_nanos (n : Z) : Duration :=
  mkDuration (n / NANOS_PER_SEC) (n mod NANOS_PER_SEC).

Definition as_nanos (d : Duration) : Z := secs d * NANOS_PER_SEC + nanos d.
Definition as_millis (d : Duration) : Z := secs d * 1000 + nanos d / 1000000.
Definition as_micros (d : Duration) : Z := secs d * 1000000 + nanos d / 1000.

Definition is_zero (d : Duration) : bool := (secs d =? 0) && (nanos d =? 0).

(** The derived [Ord]: lexicographic on the fields. *)
Definition duration_ltb (a b : Duration) : bool :=
  (secs a <? secs b) || ((secs a =? secs b) && (nanos a <? nanos b)).

Definition checked_add (a b : Duration) : option Duration :=
  match u64_checked_add (secs a) (secs b) with
  | Some s =>
      let n := nanos a + nanos b in
      if NANOS_PER_SEC <=? n
      then match u64_checked_add s 1 with
           | Some s' => Some (mkDuration s' (n - NANOS_PER_SEC))
           | None => None
           end
      else Some (mkDuration s n)
  | None => None
  end.

Definition checked_mul (d : Duration) (rhs : Z) : option Duration :=
  let total_nanos := nanos d * rhs in
  let extra_secs := total_nanos / NANOS_PER_SEC in
  let n := total_nanos mod NANOS_PER_SEC in
  match u64_checked_mul (secs d) rhs with
  | Some s => match u64_checked_add s extra_secs with
              | Some s' => Some (mkDuration s' n)
              | None => None
              end
  | None => None
  end.

(** [Duration / u32], for a divisor that is not zero. *)
Definition duration_div (d : Duration) (rhs : Z) : Duration :=
  let s := secs d / rhs in
  let extra_secs := secs d mod rhs in
  let n := nanos d / rhs in
  let extra_nanos := nanos d mod rhs in
  mkDuration s (n + (extra_secs * NANOS_PER_SEC + extra_nanos) / rhs).

(** ** The length in nanoseconds determines everything *)

Lemma as_nanos_range d : valid_duration d → 0 ≤ as_nanos d < (u64_max + 1) * NANOS_PER_SEC.
Proof. unfold valid_duration, as_nanos, is_u64, NANOS_PER_SEC. nia. Qed.

Lemma as_nanos_inj a b :
  valid_duration a → valid_duration b → as_nanos a = as_nanos b → a = b.
Proof.
  destruct a as [sa na], b as [sb nb].
  unfold valid_duration, as_nanos, NANOS_PER_SEC; simpl. intros [_ Ha] [_ Hb] Heq.
  assert (sa = sb) by lia. f_equal; lia.
Qed.

Lemma duration_ltb_spec a b :
  valid_duration a → valid_duration b → duration_ltb a b = (as_nanos a <? as_nanos b).
Proof.
  destruct a as [sa na], b as [sb nb].
  unfold valid_duration, duration_ltb, as_nanos, NANOS_PER_SEC; simpl. intros [_ Ha] [_ Hb].
  apply eq_bool_prop_intro. rewrite !Is_true_true, orb_true_iff, andb_true_iff.
  rewrite !Z.ltb_lt, Z.eqb_eq. lia.
Qed.

Lemma is_zero_spec d : valid_duration d → is_zero d = (as_nanos d =? 0).
Proof.
  destruct d as [s n]. unfold valid_duration, is_zero, as_nanos, is_u64, NANOS_PER_SEC; simpl.
  intros [? ?]. apply eq_bool_prop_intro. rewrite !Is_true_true, andb_true_iff, !Z.eqb_eq. lia.
Qed.

Lemma from_secs_valid s : is_u64 s → valid_duration (from_secs s).
Proof. unfold valid_duration, NANOS_PER_SEC; simpl. split; [done|lia]. Qed.

Lemma from_millis_valid ms : is_u64 ms → valid_duration (from_millis ms).
Proof.
  unfold valid_duration, is_u64, u64_max, from_millis, NANOS_PER_SEC; simpl. intros.
  Z.to_euclidean_division_equations; lia.
Qed.

Lemma as_millis_from_millis ms : as_millis (from_millis ms) = ms.
Proof.
  unfold as_millis, from_millis; simpl. rewrite Z.div_mul by done.
  pose proof (Z.div_mod ms 1000). lia.
Qed.

Lemma as_nanos_from_millis ms : as_nanos (from_millis ms) = ms * 1000000.
Proof.
  unfold as_nanos, from_millis, NANOS_PER_SEC; simpl. pose proof (Z.div_mod ms 1000). lia.
Qed.

Lemma as_millis_spec d : valid_duration d → as_millis d = as_nanos d / 1000000.
Proof.
  destruct d as [s n]. unfold valid_duration, as_millis, as_nanos, NANOS_PER_SEC; simpl.
  intros [_ ?]. replace (s * 1000000000 + n) with (s * 1000 * 1000000 + n) by lia.
  by rewrite Z.div_add_l.
Qed.

Lemma as_nanos_from_nanos n : as_nanos (from_nanos n) = n.
Proof.
  unfold as_nanos, from_nanos, NANOS_PER_SEC; simpl. pose proof (Z.div_mod n 1000000000). lia.
Qed.

Lemma from_nanos_valid n : is_u64 n → valid_duration (from_nanos n).
Proof.
  unfold valid_duration, is_u64, u64_max, from_nanos, NANOS_PER_SEC; simpl. intros.
  Z.to_euclidean_division_equations; lia.
Qed.

Lemma checked_mul_spec d m :
  valid_duration d → 0 ≤ m →
  match checked_mul d m with
  | Some d' => valid_duration d' ∧ as_nanos d' = as_nanos d * m
  | None => (u64_max + 1) * NANOS_PER_SEC ≤ as_nanos d * m
  end.
Proof.
  destruct d as [s n]. intros [Hs Hn] Hm. unfold is_u64 in Hs; simpl in *.
  unfold checked_mul, u64_checked_mul, u64_checked_add, valid_duration, is_u64, as_nanos; simpl.
  pose proof (Z.div_mod (n * m) NANOS_PER_SEC ltac:(done)) as Hdiv.
  pose proof (Z.mod_pos_bound (n * m) NANOS_PER_SEC ltac:(done)) as Hmod.
  assert (0 ≤ n * m / NANOS_PER_SEC) by (apply Z.div_pos; [nia|done]).
  set (q := n * m / NANOS_PER_SEC) in *. set (r := (n * m) mod NANOS_PER_SEC) in *.
  unfold NANOS_PER_SEC in *.
  repeat case_decide; simpl; [split; [split; nia|nia]|nia|nia].
Qed.

Lemma duration_div_spec d m :
  valid_duration d → 0 < m →
  as_nanos (duration_div d m) = as_nanos d / m.
Proof.
  destruct d as [s n]. intros [Hs Hn] Hm. simpl in *.
  unfold duration_div, as_nanos; simpl.
  set (K := NANOS_PER_SEC).
  pose proof (Z.div_mod s m ltac:(lia)) as Hs'.
  pose proof (Z.div_mod n m ltac:(lia)) as Hn'.
  rewrite Hs' at 3. rewrite Hn' at 3.
  replace ((m * (s / m) + s mod m) * K + (m * (n / m) + n mod m))
    with ((s / m * K + n / m) * m + (s mod m * K + n mod m)) by ring.
  rewrite Z.div_add_l by lia. lia.
Qed.

Lemma duration_div_valid d m : valid_duration d → 0 < m → valid_duration (duration_div d m).
Proof.
  intros Hd Hm. pose proof (duration_div_spec d m Hd Hm) as Heq.
  destruct d as [s n], Hd as [Hs Hn]. simpl in *.
  unfold duration_div, valid_duration, is_u64 in *; simpl in *.
  pose proof (Z.mod_pos_bound s m Hm). pose proof (Z.mod_pos_bound n m Hm).
  pose proof (Z.div_mod n m ltac:(lia)).
  pose proof (Z.div_pos s m). pose proof (Z.div_le_upper_bound s m u64_max).
  pose proof (Z.div_pos n m).
  set (e := s mod m * NANOS_PER_SEC + n mod m) in *.
  pose proof (Z.div_mod e m ltac:(lia)). pose proof (Z.mod_pos_bound e m Hm).
  assert (0 ≤ e) by (unfold e, NANOS_PER_SEC; nia).
  pose proof (Z.div_pos e m).
  assert (m * (n / m + e / m) < m * NANOS_PER_SEC) by (unfold e, NANOS_PER_SEC in *; nia).
  repeat split; try nia.
Qed.

Lemma checked_add_spec a b :
  valid_duration a → valid_duration b →
  as_nanos a + as_nanos b < (u64_max + 1) * NANOS_PER_SEC →
  ∃ c, checked_add a b = Some c ∧ valid_duration c ∧ as_nanos c = as_nanos a + as_nanos b.
Proof.
  destruct a as [sa na], b as [sb nb].
  unfold valid_duration, as_nanos, checked_add, u64_checked_add, is_u64, NANOS_PER_SEC; simpl.
  intros [? ?] [? ?] ?. rewrite decide_True by lia.
  destruct (Z.leb_spec 1000000000 (na + nb)).
  - rewrite decide_True by lia. eexists. split; [done|]. simpl. lia.
  - eexists. split; [done|]. simpl. lia.
Qed.

#[export] Hint Resolve from_secs_valid from_millis_valid from_nanos_valid duration_div_valid : ocpp.
