(* ===== verification/Reconnect.v ===== *)
(** * Reconnect policy

    [src/src/reconnect.rs]: the bounded exponential backoff between reconnect
    attempts, its jitter, and the behaviour switch of [ConnectOptions]. *)

From S2P Require Import Prelude Time.
From stdpp Require Import base numbers.

Local Open Scope Z_scope.

Record ReconnectPolicy := mkReconnectPolicy {
  initial_delay : Duration;
  max_delay : Duration;
  multiplier : Z;
  jitter : bool;
}.

Definition ReconnectPolicy_default : ReconnectPolicy :=
  {| initial_delay := from_secs 1; max_delay := from_secs 60; multiplier := 2; jitter := true |}.

(** The [for _ in 0..attempt] loop of [delay_for], with its early return. *)
Fixpoint delay_loop (p : ReconnectPolicy) (iterations : nat) (delay : Duration) : Duration :=
  match iterations with
  | O => delay
  | S n =>
      match checked_mul delay (multiplier p) with
      | Some d => if duration_ltb d (max_delay p) then delay_loop p n d else max_delay p
      | None => max_delay p
      end
  end.

Definition delay_for (p : ReconnectPolicy) (attempt : Z) : Duration :=
  delay_loop p (Z.to_nat attempt) (initial_delay p).

(** [random] is the [u128] behind the throwaway [Uuid::new_v4()].  The last
    addition panics on overflow, hence the [option]. *)
Definition jittered_delay_for (p : ReconnectPolicy) (attempt : Z) (random : Z) : option Duration :=
  let delay := delay_for p attempt in
  if negb (jitter p) then Some delay
  else
    let half := duration_div delay 2 in
    let fraction := as_u32 random in
    let extra := (as_nanos half * fraction) / u32_max in
    checked_add half (from_nanos (as_u64 extra)).

Inductive ReconnectBehavior :=
| ReconnectEnabled (policy : ReconnectPolicy)
| ReconnectDisabled.

Definition ReconnectBehavior_default : ReconnectBehavior :=
  ReconnectEnabled ReconnectPolicy_default.

(** ** Lemmas *)

(** What the field types of the struct guarantee. *)
Definition valid_policy (p : ReconnectPolicy) : Prop :=
  valid_duration (initial_delay p) ∧ valid_duration (max_delay p) ∧ is_u32 (multiplier p).

(** The reference definition the backoff is compared with: geometric growth, in
    nanoseconds, cut off at the maximum. *)
Definition reference_backoff (p : ReconnectPolicy) (n : nat) : Z :=
  Z.min (as_nanos (initial_delay p) * multiplier p ^ Z.of_nat n) (as_nanos (max_delay p)).

Lemma delay_loop_succ p n d :
  delay_loop p (S n) d =
    match checked_mul d (multiplier p) with
    | Some d => if duration_ltb d (max_delay p) then delay_loop p n d else max_delay p
    | None => max_delay p
    end.
Proof. done. Qed.

Lemma delay_loop_valid p n d :
  valid_policy p → valid_duration d → valid_duration (delay_loop p n d).
Proof.
  intros (? & ? & Hm). revert d. induction n as [|n IH]; intros d Hd; simpl; [done|].
  pose proof (checked_mul_spec d (multiplier p) Hd ltac:(apply Hm)) as Hmul.
  repeat case_match; naive_solver.
Qed.

Lemma delay_for_valid p attempt : valid_policy p → valid_duration (delay_for p attempt).
Proof. intros Hp. apply delay_loop_valid; [done|apply Hp]. Qed.

(** After at least one iteration the cap is always respected. *)
Lemma delay_loop_capped p n d :
  valid_policy p → valid_duration d →
  as_nanos (delay_loop p (S n) d) ≤ as_nanos (max_delay p).
Proof.
  intros Hp. revert d. induction n as [|n IH]; intros d Hd;
    pose proof (checked_mul_spec d (multiplier p) Hd ltac:(apply Hp)) as Hmul;
    rewrite delay_loop_succ;
    destruct (checked_mul d (multiplier p)) as [d'|]; try done;
    destruct (duration_ltb d' (max_delay p)) eqn:Hlt; try done.
  - rewrite duration_ltb_spec, Z.ltb_lt in Hlt by (apply Hmul || apply Hp). simpl; lia.
  - apply IH, Hmul.
Qed.

Lemma geometric_stays_above m x y n :
  0 ≤ y → 1 ≤ m → y ≤ x → y ≤ x * m ^ Z.of_nat n.
Proof.
  intros Hy Hm Hx. assert (0 < m ^ Z.of_nat n) by (apply Z.pow_pos_nonneg; lia). nia.
Qed.

Lemma delay_loop_geometric p n d :
  valid_policy p → valid_duration d → as_nanos d ≤ as_nanos (max_delay p) →
  as_nanos (delay_loop p n d) =
    Z.min (as_nanos d * multiplier p ^ Z.of_nat n) (as_nanos (max_delay p)).
Proof.
  intros Hp. pose proof Hp as (Hi & Hx & Hm). revert d.
  induction n as [|n IH]; intros d Hd Hle.
  - simpl delay_loop. simpl Z.of_nat. lia.
  - rewrite delay_loop_succ.
    pose proof (checked_mul_spec d (multiplier p) Hd ltac:(apply Hm)) as Hmul.
    pose proof (as_nanos_range _ Hd) as Hd0. pose proof (as_nanos_range _ Hx) as Hx0.
    assert (Hpow : as_nanos d * multiplier p ^ Z.of_nat (S n)
                   = as_nanos d * multiplier p * multiplier p ^ Z.of_nat n)
      by (rewrite Nat2Z.inj_succ, Z.pow_succ_r by lia; ring).
    rewrite Hpow.
    assert (Habove : as_nanos (max_delay p) ≤ as_nanos d * multiplier p →
                     as_nanos (max_delay p) =
                     Z.min (as_nanos d * multiplier p * multiplier p ^ Z.of_nat n)
                           (as_nanos (max_delay p))).
    { intros Hge. destruct (decide (multiplier p = 0)) as [H0|].
      - rewrite H0 in *. lia.
      - symmetry. apply Z.min_r, geometric_stays_above; [lia|destruct Hm; lia|done]. }
    destruct (checked_mul d (multiplier p)) as [d'|]; [|apply Habove; lia].
    destruct Hmul as [Hv Heq].
    destruct (duration_ltb d' (max_delay p)) eqn:Hlt;
      rewrite duration_ltb_spec in Hlt by done.
    + apply Z.ltb_lt in Hlt. rewrite IH by (done || lia). by rewrite Heq.
    + apply Z.ltb_ge in Hlt. apply Habove. lia.
Qed.

Lemma jitter_extra_bounds half fraction :
  0 ≤ half → is_u32 fraction → 0 ≤ as_u64 (half * fraction / u32_max) ≤ half.
Proof.
  intros Hh Hf.
  assert (0 ≤ half * fraction / u32_max ≤ half) as Hq.
  { split; [apply Z.div_pos; [unfold is_u32 in *; nia|done]|].
    apply Z.div_le_upper_bound; [done|]. unfold is_u32 in *. nia. }
  pose proof (as_u64_le (half * fraction / u32_max)). lia.
Qed.

Lemma jittered_delay_range p attempt random :
  valid_policy p →
  as_nanos (duration_div (delay_for p attempt) 2) * as_u32 random < 2 ^ 128 ∧
  ∃ d, jittered_delay_for p attempt random = Some d ∧ valid_duration d ∧
       as_nanos (delay_for p attempt) / 2 ≤ as_nanos d ≤ as_nanos (delay_for p attempt).
Proof.
  intros Hp. pose proof (delay_for_valid p attempt Hp) as Hd.
  pose proof (as_nanos_range _ Hd) as Hr.
  pose proof (duration_div_spec _ 2 Hd ltac:(done)) as Hhalf.
  pose proof (duration_div_valid _ 2 Hd ltac:(done)) as Hhv.
  unfold jittered_delay_for. set (delay := delay_for p attempt) in *.
  set (half := duration_div delay 2) in *.
  assert (0 ≤ as_nanos half) by (apply as_nanos_range; done).
  pose proof (as_u32_range random) as Hf.
  assert (as_nanos half ≤ as_nanos delay / 2) by lia.
  assert (2 * (as_nanos delay / 2) ≤ as_nanos delay) by (apply Z.mul_div_le; done).
  split.
  { unfold is_u32, u32_max, u64_max, NANOS_PER_SEC in *. nia. }
  destruct (jitter p); simpl.
  - pose proof (jitter_extra_bounds _ _ ltac:(eassumption) Hf) as Hx.
    set (extra := as_u64 _) in *.
    assert (is_u64 extra).
    { unfold extra, as_u64, is_u64.
      pose proof (Z.mod_pos_bound (as_nanos half * as_u32 random / u32_max) (u64_max + 1) ltac:(done)).
      lia. }
    destruct (checked_add_spec half (from_nanos extra)) as (c & -> & Hc & Heq);
      [done|by apply from_nanos_valid|rewrite as_nanos_from_nanos; lia|].
    rewrite as_nanos_from_nanos in Heq. exists c. split_and!; [done|done|lia|lia].
  - exists delay. split_and!; [done|done|lia|lia].
Qed.

(** ** Properties *)

(** C27: the iterative backoff of [delay_for], with its overflow checks and its
    early return, computes the reference backoff [min(initial * multiplier^n, max)]
    whenever the policy's initial delay does not exceed its cap. *)
Theorem delay_for_is_capped_geometric p attempt :
  valid_policy p → as_nanos (initial_delay p) ≤ as_nanos (max_delay p) →
  as_nanos (delay_for p attempt) = reference_backoff p (Z.to_nat attempt).
Proof. intros Hp Hle. apply delay_loop_geometric; [done|apply Hp|done]. Qed.

Lemma delay_for_is_capped_geometric_witness :
  as_nanos (delay_for ReconnectPolicy_default 3) = reference_backoff ReconnectPolicy_default 3.
Proof.
  apply (delay_for_is_capped_geometric ReconnectPolicy_default 3).
  - repeat split; vm_compute; congruence.
  - vm_compute; congruence.
Defined.

(** C28: a jittered delay is always defined (neither the [u128] product nor the
    final [Duration] addition overflows) and lies in [[delay / 2, delay]], for
    every policy, every attempt and every value of the random UUID. *)
Theorem jittered_delay_bounds p attempt random :
  valid_policy p →
  as_nanos (duration_div (delay_for p attempt) 2) * as_u32 random < 2 ^ 128 ∧
  ∃ d, jittered_delay_for p attempt random = Some d ∧ valid_duration d ∧
       as_nanos (delay_for p attempt) / 2 ≤ as_nanos d ≤ as_nanos (delay_for p attempt).
Proof. apply jittered_delay_range. Qed.

Lemma jittered_delay_bounds_witness :
  ∃ d, jittered_delay_for ReconnectPolicy_default 4 (2 ^ 127 + 12345) = Some d ∧
       as_nanos (from_secs 8) ≤ as_nanos d ≤ as_nanos (from_secs 16).
Proof.
  destruct (jittered_delay_bounds ReconnectPolicy_default 4 (2 ^ 127 + 12345))
    as [_ (d & Hd & _ & Hb)].
  - repeat split; vm_compute; congruence.
  - exists d. split; [exact Hd|exact Hb].
Defined.
