(* ===== verification/Sync.v ===== *)
(** * Synchronization primitives

    [src/src/sync.rs]: [OneShot], [Notify], [Chan] and [BroadcastRegistry], built on
    [embassy_sync]'s [Signal] and [Mutex].

    [Signal] belongs to another crate and is a parameter: the class [SignalModel]
    lists the operations the sources call and the documented behaviour they rely
    on.  A [SharedMutex] makes the section it guards one atomic operation, so a
    locked section is one function on the guarded value.  Values shared through an
    [Arc] live in a list of cells and are named by their index ([Table]). *)

From S2P Require Import Prelude.
From stdpp Require Import base gmap list relations.

(** ** [embassy_sync::signal::Signal]

    A single-slot, latching signal.  [signal_try_take] is one poll of
    [Signal::wait]: it returns the latched value and resets the slot. *)

Class SignalModel := {
  Signal : Type → Type;
  signal_new : ∀ {T}, Signal T;
  signal_signal : ∀ {T}, T → Signal T → Signal T;
  signal_try_take : ∀ {T}, Signal T → option (T * Signal T);
  take_signal_new T : signal_try_take (T := T) signal_new = None;
  take_signal_signal T (v : T) s : signal_try_take (signal_signal v s) = Some (v, signal_new);
  take_signal_resets T (v : T) s s' : signal_try_take s = Some (v, s') → s' = signal_new;
}.

(** Whether a [wait] on the signal would complete now. *)
Definition signalled `{SignalModel} {T} (s : Signal T) : bool :=
  match signal_try_take s with Some _ => true | None => false end.

(** The class is inhabited: a slot is an [option]. *)
Definition slot_signal : SignalModel.
Proof.
  refine {| Signal := option; signal_new T := None; signal_signal T v _ := Some v;
            signal_try_take T s := match s with Some v => Some (v, None) | None => None end |}.
  - done.
  - done.
  - intros T v [w|] s'; naive_solver.
Defined.

Section Primitives.
Context `{SignalModel}.

(** ** [OneShot] and [Notify]

    Both are an [Arc] around a signal; cloning shares the cell. *)

Definition OneShot (T : Type) : Type := Signal T.
Definition oneshot_new {T} : OneShot T := signal_new.
Definition oneshot_send {T} (value : T) (o : OneShot T) : OneShot T := signal_signal value o.
Definition oneshot_poll_wait {T} (o : OneShot T) : option (T * OneShot T) := signal_try_take o.

Definition Notify : Type := Signal unit.
Definition notify_new : Notify := signal_new.
Definition notify_notify (n : Notify) : Notify := signal_signal () n.
Definition notify_poll_wait (n : Notify) : option (unit * Notify) := signal_try_take n.

(** ** [Chan] *)

Record Chan (T : Type) := mkChan {
  queue : list T;
  signal : Signal unit;
  chan_closed : bool;
}.
Arguments mkChan {T} _ _ _.
Arguments queue {T} _.
Arguments signal {T} _.
Arguments chan_closed {T} _.

Definition chan_new {T} : Chan T := mkChan [] signal_new false.

(** [send]: the value is queued under the lock, then the receiver is signalled. *)
Definition chan_push {T} (value : T) (c : Chan T) : Chan T :=
  mkChan (queue c ++ [value]) (signal c) (chan_closed c).

Definition chan_wake {T} (c : Chan T) : Chan T :=
  mkChan (queue c) (signal_signal () (signal c)) (chan_closed c).

Definition chan_send {T} (value : T) (c : Chan T) : Chan T := chan_wake (chan_push value c).

(** [close]: the flag is stored, then the receiver is signalled. *)
Definition chan_set_closed {T} (c : Chan T) : Chan T :=
  mkChan (queue c) (signal c) true.

Definition chan_close {T} (c : Chan T) : Chan T := chan_wake (chan_set_closed c).

(** The locked section of one iteration of [recv]: [None] means that the iteration
    goes on to wait for the signal. *)
Definition chan_check {T} (c : Chan T) : option (option T * Chan T) :=
  match queue c with
  | value :: rest => Some (Some value, mkChan rest (signal c) (chan_closed c))
  | [] => if chan_closed c then Some (None, c) else None
  end.

(** The wait that ends an iteration: it completes once the signal is set. *)
Definition chan_await {T} (c : Chan T) : option (Chan T) :=
  match signal_try_take (signal c) with
  | Some (_, s) => Some (mkChan (queue c) s (chan_closed c))
  | None => None
  end.

(** One poll of the whole [recv] future: iterations until one returns or finds the
    signal unset.  Two are enough, because a taken signal is reset. *)
Definition chan_poll_recv {T} (c : Chan T) : option (option T) * Chan T :=
  match chan_check c with
  | Some (v, c') => (Some v, c')
  | None =>
      match chan_await c with
      | None => (None, c)
      | Some c' =>
          match chan_check c' with
          | Some (v, c'') => (Some v, c'')
          | None => (None, c')
          end
      end
  end.

(** ** [BroadcastRegistry] *)

Definition BroadcastRegistry : Type := list (Signal unit).
Definition registry_new : BroadcastRegistry := [].

(** [subscribe] returns the new subscriber's handle, its position. *)
Definition subscribe (r : BroadcastRegistry) : nat * BroadcastRegistry :=
  (length r, r ++ [signal_new]).

Definition notify_all (r : BroadcastRegistry) : BroadcastRegistry :=
  (λ s, signal_signal () s) <$> r.

End Primitives.

Arguments mkChan {_ T} _ _ _.
Arguments queue {_ T} _.
Arguments signal {_ T} _.
Arguments chan_closed {_ T} _.

(** ** The channel as a concurrent system

    Any number of producers push and wake, the channel may be closed, and one
    consumer runs [recv] in a loop.  [wakes] counts the senders and closers that
    have done their first half (queueing the value, storing the flag) but have not
    signalled yet; [sent] and [delivered] record the history. *)

Inductive consumer := Checking | Waiting | Finished.

Section ChanSystem.
Context `{SignalModel} {T : Type}.

Record chan_sys := mkChanSys {
  sys_chan : Chan T;
  sys_consumer : consumer;
  sys_wakes : nat;
  sys_sent : list T;
  sys_delivered : list T;
}.

Definition chan_sys_init : chan_sys := mkChanSys chan_new Checking 0 [] [].

(** The steps that complete operations already begun. *)
Inductive internal_step : chan_sys → chan_sys → Prop :=
| step_wake c pc n sent got :
    internal_step (mkChanSys c pc (S n) sent got) (mkChanSys (chan_wake c) pc n sent got)
| step_check_value c c' v n sent got :
    chan_check c = Some (Some v, c') →
    internal_step (mkChanSys c Checking n sent got) (mkChanSys c' Checking n sent (got ++ [v]))
| step_check_closed c c' n sent got :
    chan_check c = Some (None, c') →
    internal_step (mkChanSys c Checking n sent got) (mkChanSys c' Finished n sent got)
| step_check_empty c n sent got :
    chan_check c = None →
    internal_step (mkChanSys c Checking n sent got) (mkChanSys c Waiting n sent got)
| step_woken c c' n sent got :
    chan_await c = Some c' →
    internal_step (mkChanSys c Waiting n sent got) (mkChanSys c' Checking n sent got).

Inductive chan_step : chan_sys → chan_sys → Prop :=
| step_push c pc n sent got v :
    chan_step (mkChanSys c pc n sent got)
              (mkChanSys (chan_push v c) pc (S n) (sent ++ [v]) got)
| step_close c pc n sent got :
    chan_step (mkChanSys c pc n sent got)
              (mkChanSys (chan_set_closed c) pc (S n) sent got)
| step_internal s s' : internal_step s s' → chan_step s s'.

Definition chan_reachable (s : chan_sys) : Prop := rtc chan_step chan_sys_init s.

(** The abstract channel: a queue, a flag, and a consumer that takes the head, or
    ends once the channel is closed and drained. *)
Record abstract_chan := mkAbstractChan {
  a_queue : list T; a_closed : bool; a_ended : bool; a_delivered : list T }.

Inductive abstract_step : abstract_chan → abstract_chan → Prop :=
| abstract_send q cl en got v :
    abstract_step (mkAbstractChan q cl en got) (mkAbstractChan (q ++ [v]) cl en got)
| abstract_close q cl en got :
    abstract_step (mkAbstractChan q cl en got) (mkAbstractChan q true en got)
| abstract_recv v q cl got :
    abstract_step (mkAbstractChan (v :: q) cl false got) (mkAbstractChan q cl false (got ++ [v]))
| abstract_end got :
    abstract_step (mkAbstractChan [] true false got) (mkAbstractChan [] true true got).

Definition abstraction (s : chan_sys) : abstract_chan :=
  mkAbstractChan (queue (sys_chan s)) (chan_closed (sys_chan s))
    (match sys_consumer s with Finished => true | _ => false end) (sys_delivered s).

(** *** Invariants *)

(** No lost wakeup: a consumer that waits although there is something to report
    finds the signal set, or a sender is about to set it. *)
Definition wakeup_inv (s : chan_sys) : Prop :=
  sys_consumer s = Waiting →
  queue (sys_chan s) ≠ [] ∨ chan_closed (sys_chan s) = true →
  signalled (signal (sys_chan s)) = true ∨ 0 < sys_wakes s.

Definition fifo_inv (s : chan_sys) : Prop :=
  sys_sent s = sys_delivered s ++ queue (sys_chan s).

Lemma signalled_signal {A} (v : A) s : signalled (signal_signal v s) = true.
Proof. unfold signalled. by rewrite take_signal_signal. Qed.

Lemma signalled_new {A} : signalled (signal_new (T := A)) = false.
Proof. unfold signalled. by rewrite take_signal_new. Qed.

Lemma chan_check_value (c : Chan T) v c' :
  chan_check c = Some (Some v, c') →
  queue c = v :: queue c' ∧ chan_closed c' = chan_closed c.
Proof. unfold chan_check. split_match. Qed.

Lemma chan_check_end (c c' : Chan T) :
  chan_check c = Some (None, c') → c' = c ∧ queue c = [] ∧ chan_closed c = true.
Proof. unfold chan_check. split_match. Qed.

Lemma chan_check_none (c : Chan T) :
  chan_check c = None ↔ queue c = [] ∧ chan_closed c = false.
Proof. unfold chan_check. repeat case_match; naive_solver. Qed.

Lemma chan_await_same (c c' : Chan T) :
  chan_await c = Some c' → queue c' = queue c ∧ chan_closed c' = chan_closed c.
Proof. unfold chan_await. split_match. Qed.

Lemma chan_await_signalled (c : Chan T) :
  signalled (signal c) = true → ∃ c', chan_await c = Some c'.
Proof. unfold signalled, chan_await. repeat case_match; naive_solver. Qed.

Lemma wakeup_inv_step s s' : chan_step s s' → wakeup_inv s → wakeup_inv s'.
Proof.
  unfold wakeup_inv.
  destruct 1 as [| |s s' Hs]; [simpl; auto with lia..|].
  destruct Hs as [| | |c n sent got Hc|]; simpl; try done.
  - intros _ _ _. left. apply signalled_signal.
  - apply chan_check_none in Hc as [Hq Hc]. intros _ _ [?|?]; congruence.
Qed.

Lemma fifo_inv_step s s' : chan_step s s' → fifo_inv s → fifo_inv s'.
Proof.
  unfold fifo_inv.
  destruct 1 as [c pc n sent got v| |s s' Hs]; simpl; [intros ->; by rewrite (app_assoc)|done|].
  destruct Hs as [|c c' v n sent got Hc|c c' n sent got Hc| |c c' n sent got Hc]; simpl; try done.
  - apply chan_check_value in Hc as [Hq _]. rewrite Hq. intros ->. by rewrite <-(app_assoc).
  - apply chan_check_end in Hc as [Hc _]. by subst.
  - apply chan_await_same in Hc as [Hq _]. by rewrite Hq.
Qed.

Lemma wakeup_inv_reachable s : chan_reachable s → wakeup_inv s.
Proof. apply rtc_invariant; [apply wakeup_inv_step|done]. Qed.

Lemma fifo_inv_reachable s : chan_reachable s → fifo_inv s.
Proof. apply rtc_invariant; [apply fifo_inv_step|done]. Qed.

(** Draining a producer's pending wake-ups only sets the signal. *)
Lemma drain_wakes c pc n sent got :
  ∃ c', rtc internal_step (mkChanSys c pc n sent got) (mkChanSys c' pc 0 sent got) ∧
        queue c' = queue c ∧ chan_closed c' = chan_closed c ∧
        (signalled (signal c) = true ∨ 0 < n → signalled (signal c') = true).
Proof.
  revert c. induction n as [|n IH]; intros c.
  - exists c. split_and!; [constructor|done|done|]. intros [?|?]; [done|lia].
  - destruct (IH (chan_wake c)) as (c' & Hrtc & Hq & Hc & Hs).
    exists c'. split_and!; [by eapply rtc_l; [constructor|]|done|done|].
    intros _. apply Hs. left. apply signalled_signal.
Qed.

Lemma checking_delivers c v rest n sent got :
  queue c = v :: rest →
  internal_step (mkChanSys c Checking n sent got)
    (mkChanSys (mkChan rest (signal c) (chan_closed c)) Checking n sent (got ++ [v])).
Proof. intros Hq. apply step_check_value. unfold chan_check. by rewrite Hq. Qed.

Lemma checking_ends c n sent got :
  queue c = [] → chan_closed c = true →
  internal_step (mkChanSys c Checking n sent got) (mkChanSys c Finished n sent got).
Proof. intros Hq Hc. apply step_check_closed. unfold chan_check. by rewrite Hq, Hc. Qed.

(** A consumer with something to report gets to the check with the queue intact. *)
Lemma consumer_wakes s :
  wakeup_inv s → sys_consumer s ≠ Finished →
  queue (sys_chan s) ≠ [] ∨ chan_closed (sys_chan s) = true →
  ∃ c' n', rtc internal_step s (mkChanSys c' Checking n' (sys_sent s) (sys_delivered s)) ∧
           queue c' = queue (sys_chan s) ∧ chan_closed c' = chan_closed (sys_chan s).
Proof.
  destruct s as [c pc n sent got]. unfold wakeup_inv; simpl. intros Hinv Hpc Hready.
  destruct pc; [by exists c, n; split_and!; [constructor| |]| |done].
  destruct (drain_wakes c Waiting n sent got) as (c' & Hrtc & Hq & Hc & Hs).
  destruct (chan_await_signalled c') as [c'' Hw]; [apply Hs, Hinv; done|].
  pose proof (chan_await_same _ _ Hw) as [Hq' Hc'].
  exists c'', 0. split_and!; [|congruence..].
  eapply rtc_r; [exact Hrtc|by constructor].
Qed.

(** Every step of the implementation is a step of the abstract channel or invisible
    to it. *)
Lemma chan_step_simulated s s' :
  chan_step s s' →
  abstraction s' = abstraction s ∨ abstract_step (abstraction s) (abstraction s').
Proof.
  destruct 1 as [c pc n sent got v|c pc n sent got|s s' Hs];
    [right; constructor|right; constructor|].
  destruct Hs as [|c c' v n sent got Hc|c c' n sent got Hc|c n sent got Hc|c c' n sent got Hc].
  - by left.
  - apply chan_check_value in Hc as [Hq Hc]. right.
    unfold abstraction; simpl. rewrite Hq, Hc. constructor.
  - apply chan_check_end in Hc as (-> & Hq & Hc). right.
    unfold abstraction; simpl. rewrite Hq, Hc. constructor.
  - by left.
  - left. apply chan_await_same in Hc as [Hq Hc]. unfold abstraction; simpl. by rewrite Hq, Hc.
Qed.

End ChanSystem.

Arguments chan_sys {_} _.
Arguments abstract_chan _ : clear implicits.

(** ** Properties *)

(** C20: [Chan] never loses a wakeup.  In every state reachable by any interleaving of
    senders, closers and one consumer, a consumer that has not returned [None] and
    has a queued value receives the oldest one by completing operations already
    begun, with no further [send]; and if the channel is closed and drained, [recv]
    returns [None] the same way. *)
Theorem chan_recv_progress `{SignalModel} {T} (s : chan_sys T) :
  chan_reachable s → sys_consumer s ≠ Finished →
  (∀ v rest, queue (sys_chan s) = v :: rest →
     ∃ s', rtc internal_step s s' ∧ sys_delivered s' = sys_delivered s ++ [v] ∧
           queue (sys_chan s') = rest) ∧
  (queue (sys_chan s) = [] → chan_closed (sys_chan s) = true →
     ∃ s', rtc internal_step s s' ∧ sys_consumer s' = Finished ∧
           sys_delivered s' = sys_delivered s).
Proof.
  intros Hr Hpc. pose proof (wakeup_inv_reachable s Hr) as Hinv. split.
  - intros v rest Hq.
    destruct (consumer_wakes s Hinv Hpc) as (c' & n' & Hrtc & Hq' & _); [by left; rewrite Hq|].
    rewrite Hq in Hq'. eexists. split_and!.
    + eapply rtc_r; [exact Hrtc|]. by apply checking_delivers.
    + done.
    + done.
  - intros Hq Hc.
    destruct (consumer_wakes s Hinv Hpc) as (c' & n' & Hrtc & Hq' & Hc'); [by right|].
    eexists. split_and!.
    + eapply rtc_r; [exact Hrtc|]. apply checking_ends; congruence.
    + done.
    + done.
Qed.

Lemma chan_recv_progress_witness :
  ∃ s' : @chan_sys slot_signal nat, sys_delivered s' = [7].
Proof.
  set (s := mkChanSys (H := slot_signal) (chan_push 7 chan_new) Waiting 1 [7] []).
  destruct (@chan_recv_progress slot_signal nat s) as [Hv _].
  - eapply rtc_l; [apply step_internal, step_check_empty; reflexivity|].
    eapply rtc_l; [apply (step_push (H := slot_signal) chan_new Waiting 0 [] [] 7)|].
    apply rtc_refl.
  - discriminate.
  - destruct (Hv 7 [] eq_refl) as (s' & _ & Hd & _). exists s'. exact Hd.
Defined.

(** C21: [Chan] refines an abstract channel.  Along every interleaving the
    implementation's states map to states an abstract channel (a queue, a flag, a
    consumer taking the head or ending once closed and drained) reaches from its
    empty state, and what was sent is exactly what was delivered followed by what is
    still queued, in order. *)
Theorem chan_refines_abstract_channel `{SignalModel} {T} (s : chan_sys T) :
  chan_reachable s →
  rtc abstract_step (mkAbstractChan [] false false []) (abstraction s) ∧
  sys_sent s = sys_delivered s ++ queue (sys_chan s).
Proof.
  intros Hr. split; [|by apply fifo_inv_reachable].
  revert Hr.
  apply (rtc_invariant chan_step (λ s, rtc abstract_step (mkAbstractChan [] false false [])
    (abstraction s))); [|constructor].
  intros a b Hstep Ha. destruct (chan_step_simulated a b Hstep) as [->|?]; [done|].
  by eapply rtc_r.
Qed.

Lemma chan_refines_abstract_channel_witness :
  ∃ s : @chan_sys slot_signal nat, sys_delivered s = [7] ∧ sys_sent s = sys_delivered s ++ [].
Proof.
  set (s := mkChanSys (H := slot_signal) chan_new Checking 1 [7] [7]).
  exists s. split; [reflexivity|].
  refine (proj2 (@chan_refines_abstract_channel slot_signal nat s _)).
  eapply rtc_l; [apply (step_push (H := slot_signal) chan_new Checking 0 [] [] 7)|].
  eapply rtc_l; [apply step_internal, step_check_value; reflexivity|]. apply rtc_refl.
Defined.
