(* ===== verification/Envelope.v ===== *)
(** * JSON values and the OCPP-J wire envelopes

    [src/src/envelope.rs]: the four message arrays of OCPP-J and their message type
    ids.  [serde_json] is another crate.  Its [Value] is the data type the sources
    match on; its text parser and printer are parameters, the class [SerdeJson],
    with the part of their behaviour the client relies on. *)

From S2P Require Import Prelude.
From stdpp Require Import base strings list countable.

(** ** [serde_json::Value] *)

Inductive Number :=
| PosInt (n : Z)
| NegInt (n : Z)
| Float (bits : Z).

Unset Elimination Schemes.
Inductive Value :=
| VNull
| VBool (b : bool)
| VNumber (n : Number)
| VString (s : string)
| VArray (items : list Value)
| VObject (fields : list (string * Value)).
Set Elimination Schemes.

(** Induction on values, with the hypothesis for every element and field. *)
Lemma Value_ind (P : Value → Prop) :
  P VNull → (∀ b, P (VBool b)) → (∀ n, P (VNumber n)) → (∀ s, P (VString s)) →
  (∀ items, Forall P items → P (VArray items)) →
  (∀ fields, Forall (λ kv, P kv.2) fields → P (VObject fields)) →
  ∀ v, P v.
Proof.
  intros Hnull Hbool Hnum Hstr Harr Hobj.
  fix IH 1. intros [|b|n|s|items|fields]; [exact Hnull|apply Hbool|apply Hnum|apply Hstr| |].
  - apply Harr. induction items; constructor; [apply IH|done].
  - apply Hobj. induction fields as [|[k v] fields IHf]; constructor; [apply IH|done].
Qed.

(** [Number::as_u64]. *)
Definition as_u64_opt (n : Number) : option Z :=
  match n with PosInt z => Some z | _ => None end.

(** Nesting depth of arrays and objects. *)
Fixpoint value_depth (v : Value) : nat :=
  match v with
  | VArray items => S (foldr (λ v n, max (value_depth v) n) 0 items)
  | VObject fields => S (foldr (λ kv n, max (value_depth kv.2) n) 0 fields)
  | _ => 0
  end.

Definition number_exact (n : Number) : bool :=
  match n with
  | PosInt z => bool_decide (0 ≤ z ≤ u64_max)%Z
  | NegInt z => bool_decide (-9223372036854775808 ≤ z < 0)%Z
  | Float _ => false
  end.

(** Keys of an object in the order of a [BTreeMap<String, _>], each once. *)
Fixpoint keys_increasing (keys : list string) : bool :=
  match keys with
  | k1 :: ((k2 :: _) as rest) =>
      match String.compare k1 k2 with Lt => keys_increasing rest | _ => false end
  | _ => true
  end.

(** Values whose text determines them: no floating point number, integers in the
    range of their representation, objects as the map type stores them. *)
Fixpoint wire_exact (v : Value) : bool :=
  match v with
  | VNumber n => number_exact n
  | VArray items => forallb wire_exact items
  | VObject fields =>
      keys_increasing (fields.*1) && forallb (λ kv, wire_exact kv.2) fields
  | _ => true
  end.

(** [serde_json]'s parser refuses text nested deeper than this. *)
Definition RECURSION_LIMIT : nat := 127.

(** ** [serde_json::from_str] and [serde_json::to_string] *)

Class SerdeJson := {
  JsonError : Type;
  from_str : string → result Value JsonError;
  to_string : Value → result string JsonError;
  to_string_total v : ∃ text, to_string v = Ok text;
  from_str_to_string v text :
    wire_exact v = true → value_depth v ≤ RECURSION_LIMIT →
    to_string v = Ok text → from_str text = Ok v;
  (** An array's text, where it parses, is read back element by element. *)
  from_str_array items text v :
    to_string (VArray items) = Ok text → from_str text = Ok v →
    ∃ items', v = VArray items' ∧ Forall2 (λ x x', wire_exact x = true → x' = x) items items';
}.

(** ** The envelopes *)

Record RawCall := mkRawCall { call_type : Z; call_id : string; call_action : string; call_payload : Value }.
Record RawResult := mkRawResult { result_type : Z; result_id : string; result_payload : Value }.
Record RawError := mkRawError {
  error_type : Z; error_id : string; error_code : string; error_description : string;
  error_details : Value }.
Record RawSend := mkRawSend { send_type : Z; send_id : string; send_action : string; send_payload : Value }.

Definition MESSAGE_TYPE_CALL : Z := 2.
Definition MESSAGE_TYPE_RESULT : Z := 3.
Definition MESSAGE_TYPE_ERROR : Z := 4.
Definition MESSAGE_TYPE_SEND : Z := 6.

(** [#[derive(Serialize)]] on a tuple struct writes the array of its fields;
    [#[derive(Deserialize)]] reads back an array of exactly that length, a [u64]
    field from a non-negative integer, a [String] field from a string, a [Value]
    field from anything. *)
Definition ser_RawCall (c : RawCall) : Value :=
  VArray [VNumber (PosInt (call_type c)); VString (call_id c); VString (call_action c); call_payload c].
Definition de_RawCall (v : Value) : option RawCall :=
  match v with
  | VArray [VNumber (PosInt t); VString i; VString a; p] => Some (mkRawCall t i a p)
  | _ => None
  end.

Definition ser_RawResult (r : RawResult) : Value :=
  VArray [VNumber (PosInt (result_type r)); VString (result_id r); result_payload r].
Definition de_RawResult (v : Value) : option RawResult :=
  match v with
  | VArray [VNumber (PosInt t); VString i; p] => Some (mkRawResult t i p)
  | _ => None
  end.

Definition ser_RawError (e : RawError) : Value :=
  VArray [VNumber (PosInt (error_type e)); VString (error_id e); VString (error_code e);
          VString (error_description e); error_details e].
Definition de_RawError (v : Value) : option RawError :=
  match v with
  | VArray [VNumber (PosInt t); VString i; VString c; VString d; x] => Some (mkRawError t i c d x)
  | _ => None
  end.

Definition ser_RawSend (s : RawSend) : Value :=
  VArray [VNumber (PosInt (send_type s)); VString (send_id s); VString (send_action s); send_payload s].
Definition de_RawSend (v : Value) : option RawSend :=
  match v with
  | VArray [VNumber (PosInt t); VString i; VString a; p] => Some (mkRawSend t i a p)
  | _ => None
  end.

Section Text.
Context `{SerdeJson}.

(** [serde_json::from_str::<T>] for an envelope type: parse, then read the fields. *)
Definition from_str_as {T} (de : Value → option T) (text : string) : option T :=
  match from_str text with
  | Ok v => de v
  | Err _ => None
  end.

(** An envelope around a payload one level below the parser's limit survives the
    trip through text. *)
Lemma from_str_as_to_string {T} (de : Value → option T) v text :
  wire_exact v = true → value_depth v ≤ RECURSION_LIMIT → to_string v = Ok text →
  from_str_as de text = de v.
Proof. intros. unfold from_str_as. by rewrite (from_str_to_string v). Qed.

(** The message type and the identifier of a frame. *)
Definition frame_head (text : string) : option (Z * string) :=
  match from_str text with
  | Ok (VArray (VNumber (PosInt t) :: VString id :: _)) => Some (t, id)
  | _ => None
  end.

(** The text of an envelope is read with its own type, identifier and exact fields. *)
Lemma envelope_read t id rest text v :
  (0 ≤ t ≤ u64_max)%Z → to_string (VArray (VNumber (PosInt t) :: VString id :: rest)) = Ok text →
  from_str text = Ok v →
  ∃ rest', v = VArray (VNumber (PosInt t) :: VString id :: rest') ∧
    Forall2 (λ x x', wire_exact x = true → x' = x) rest rest'.
Proof.
  intros Ht Htext Hv. destruct (from_str_array _ _ _ Htext Hv) as (items & -> & HF).
  apply Forall2_cons_inv_l in HF as (x1 & items1 & H1 & HF & ->).
  apply Forall2_cons_inv_l in HF as (x2 & items2 & H2 & HF & ->).
  exists items2. rewrite H1, H2; [done|done|]. simpl. by apply bool_decide_eq_true.
Qed.

Lemma frame_head_text t id rest text t' id' :
  (0 ≤ t ≤ u64_max)%Z → to_string (VArray (VNumber (PosInt t) :: VString id :: rest)) = Ok text →
  frame_head text = Some (t', id') → t' = t ∧ id' = id.
Proof.
  intros Ht Htext. unfold frame_head. destruct (from_str text) as [v|] eqn:Hv; [|done].
  destruct (envelope_read _ _ _ _ _ Ht Htext Hv) as (rest' & -> & _). naive_solver.
Qed.

End Text.

(** ** Lemmas on the codecs *)

Lemma de_ser_RawCall c : de_RawCall (ser_RawCall c) = Some c.
Proof. by destruct c. Qed.
Lemma de_ser_RawResult r : de_RawResult (ser_RawResult r) = Some r.
Proof. by destruct r. Qed.
Lemma de_ser_RawError e : de_RawError (ser_RawError e) = Some e.
Proof. by destruct e. Qed.
Lemma de_ser_RawSend s : de_RawSend (ser_RawSend s) = Some s.
Proof. by destruct s. Qed.

Lemma de_RawCall_inv v c : de_RawCall v = Some c → v = ser_RawCall c.
Proof. unfold de_RawCall, ser_RawCall. intros. split_match. Qed.
Lemma de_RawResult_inv v r : de_RawResult v = Some r → v = ser_RawResult r.
Proof. unfold de_RawResult, ser_RawResult. intros. split_match. Qed.
Lemma de_RawError_inv v e : de_RawError v = Some e → v = ser_RawError e.
Proof. unfold de_RawError, ser_RawError. intros. split_match. Qed.
Lemma de_RawSend_inv v s : de_RawSend v = Some s → v = ser_RawSend s.
Proof. unfold de_RawSend, ser_RawSend. intros. split_match. Qed.

#[export] Hint Rewrite de_ser_RawCall de_ser_RawResult de_ser_RawError de_ser_RawSend : ocpp.
