(* ===== verification/Platform.v ===== *)
(** * Identifiers, and concrete platforms

    The [uuid] crate is a parameter (class [UuidModel]).  The second half of the file
    inhabits every class of parameters, so that the theorems proved about them can be
    applied: values are printed as text through stdpp's [encode], identifiers are
    natural numbers. *)

From S2P Require Import Prelude Sync Envelope.
From Stdlib Require Import Ascii.
From stdpp Require Import base strings list countable numbers.

(** ** [uuid::Uuid]

    [new_v4] draws any identifier; it is an input of the model.  The others are
    deterministic. *)

Class UuidModel := {
  Uuid : Type;
  #[global] Uuid_eq_dec :: EqDecision Uuid;
  #[global] Uuid_countable :: Countable Uuid;
  uuid_to_string : Uuid → string;
  uuid_parse_str : string → option Uuid;
  uuid_as_u128 : Uuid → Z;
  uuid_parse_to_string u : uuid_parse_str (uuid_to_string u) = Some u;
}.

(** ** Concrete instances *)

Fixpoint pos_to_text (p : positive) : string :=
  match p with
  | xH => EmptyString
  | xO p => String "0"%char (pos_to_text p)
  | xI p => String "1"%char (pos_to_text p)
  end.

Fixpoint text_to_pos (s : string) : positive :=
  match s with
  | EmptyString => xH
  | String c s => if Ascii.eqb c "1"%char then xI (text_to_pos s) else xO (text_to_pos s)
  end.

Lemma text_to_pos_to_text p : text_to_pos (pos_to_text p) = p.
Proof. induction p; simpl; by f_equal. Qed.

Abbreviation leaf := (bool + (Z * Z) + string)%type.

Fixpoint value_to_tree (v : Value) : gen_tree leaf :=
  match v with
  | VNull => GenNode 0 []
  | VBool b => GenLeaf (inl (inl b))
  | VNumber (PosInt z) => GenLeaf (inl (inr (0, z)%Z))
  | VNumber (NegInt z) => GenLeaf (inl (inr (1, z)%Z))
  | VNumber (Float z) => GenLeaf (inl (inr (2, z)%Z))
  | VString s => GenLeaf (inr s)
  | VArray items => GenNode 1 (value_to_tree <$> items)
  | VObject fields => GenNode 2 ((λ kv, GenNode 3 [GenLeaf (inr kv.1); value_to_tree kv.2]) <$> fields)
  end.

Fixpoint tree_to_value (t : gen_tree leaf) : Value :=
  match t with
  | GenLeaf (inl (inl b)) => VBool b
  | GenLeaf (inl (inr (k, z))) =>
      VNumber (if decide (k = 0)%Z then PosInt z else if decide (k = 1)%Z then NegInt z else Float z)
  | GenLeaf (inr s) => VString s
  | GenNode 1 ts => VArray (tree_to_value <$> ts)
  | GenNode 2 ts =>
      VObject ((λ t, match t with
                     | GenNode _ [GenLeaf (inr k); t'] => (k, tree_to_value t')
                     | _ => (EmptyString, VNull)
                     end) <$> ts)
  | GenNode _ _ => VNull
  end.

Lemma tree_to_value_to_tree v : tree_to_value (value_to_tree v) = v.
Proof.
  induction v as [| |[]| |items IH|fields IH] using Value_ind; simpl; try done.
  - f_equal. rewrite <-list_fmap_compose. induction IH; simpl; [done|]. by f_equal.
  - f_equal. rewrite <-list_fmap_compose. induction IH as [|[k v]]; simpl in *; [done|].
    f_equal; [by f_equal|done].
Qed.

Definition tree_json : SerdeJson.
Proof.
  refine {| JsonError := unit;
            from_str s := match decode (text_to_pos s) with
                          | Some t => Ok (tree_to_value t) | None => Err () end;
            to_string v := Ok (pos_to_text (encode (value_to_tree v))) |}.
  - eauto.
  - intros v text _ _ [= <-]. rewrite text_to_pos_to_text, decode_encode.
    by rewrite tree_to_value_to_tree.
  - intros items text v Ht. injection Ht as <-. rewrite text_to_pos_to_text, decode_encode.
    intros [= <-]. exists items. split; [apply (tree_to_value_to_tree (VArray items))|]. by apply Forall_Forall2_diag, Forall_true.
Defined.

Definition number_uuid : UuidModel.
Proof.
  refine {| Uuid := N; uuid_to_string n := pos_to_text (N.succ_pos n);
            uuid_parse_str s := Some (Pos.pred_N (text_to_pos s)); uuid_as_u128 n := Z.of_N n |}.
  intros u. by rewrite text_to_pos_to_text, N.pos_pred_succ.
Defined.
