(* ===== verification/ProtocolErrors.v ===== *)
(** * Errors

    [src/src/error.rs] and the three [error.rs] files of the protocol versions: the
    [ProtocolError] interface between a version and the client engine, its three
    implementations, the client's own error type, and the conversion of a schema
    violation into a CALLERROR. *)

From S2P Require Import Prelude Envelope.
From stdpp Require Import base strings list pretty.

Local Open Scope string_scope.

(** ** The interface

    What a version provides to the engine, and the laws the engine's theorems are
    proved against. *)

Class ProtocolError (E : Type) := {
  code : E → string;
  description : E → string;
  details : E → Value;
  not_implemented : string → E;
  from_wire : string → string → Value → E;
}.

Class ProtocolErrorLaws (E : Type) `{ProtocolError E} : Prop := {
  from_wire_code e : from_wire (code e) (description e) (details e) = e;
  description_from_wire c d x : description (from_wire c d x) = d;
  details_from_wire c d x : details (from_wire c d x) = x;
  code_not_implemented a : code (not_implemented a) = "NotImplemented";
  description_not_implemented a :
    description (not_implemented a) = "Action '" ++ a ++ "' is not implemented";
}.

(** ** [ClientError] *)

Inductive ClientError (E JErr TErr : Type) :=
| Protocol (e : E)
| Timeout
| Decode (e : JErr)
| Transport (e : TErr)
| Closed.
Arguments Protocol {E JErr TErr} _.
Arguments Timeout {E JErr TErr}.
Arguments Decode {E JErr TErr} _.
Arguments Transport {E JErr TErr} _.
Arguments Closed {E JErr TErr}.

(** [Display for ClientError]; the two foreign error types bring their own text. *)
Definition client_error_display {E JErr TErr} `{ProtocolError E}
    (show_json : JErr → string) (show_transport : TErr → string)
    (e : ClientError E JErr TErr) : string :=
  match e with
  | Protocol e => "protocol error: " ++ code e ++ " (" ++ description e ++ ")"
  | Timeout => "request timed out"
  | Decode e => "failed to decode payload: " ++ show_json e
  | Transport e => "transport error: " ++ show_transport e
  | Closed => "connection closed"
  end.

(** ** Schema violations

    [ValidationError] belongs to [ocpp-types]; the record holds what its accessors
    return and the text of its [Display]. *)

Inductive ConstraintClass := Property | Occurrence.

Inductive PathSegment :=
| Field (name : string)
| Index (index : N).

Record ValidationError := mkValidationError {
  constraint_class : ConstraintClass;
  path : list PathSegment;
  path_truncated : bool;
  validation_display : string;
}.

(** The loop over [path().iter().enumerate()]. *)
Fixpoint render_segments (truncated : bool) (position : nat) (acc : string)
    (segments : list PathSegment) : string :=
  match segments with
  | [] => acc
  | Field name :: rest =>
      let acc := if bool_decide (0 < position) || truncated then acc ++ "." else acc in
      render_segments truncated (S position) (acc ++ name) rest
  | Index i :: rest =>
      render_segments truncated (S position) (acc ++ "[" ++ pretty i ++ "]") rest
  end.

Definition render_path (error : ValidationError) : string :=
  let start := if path_truncated error then "..." else "" in
  let start :=
    if match path error with [] => true | _ => false end && negb (path_truncated error)
    then start ++ "<payload>" else start in
  render_segments (path_truncated error) 0 start (path error).

Definition validation_error_parts (error : ValidationError) : string * Value :=
  (validation_display error, VObject [("path", VString (render_path error))]).

(** ** OCPP 1.6 *)

Module V1_6.

Inductive RpcErrorCode_1_6 :=
| NotImplemented
| NotSupported
| InternalError
| RpcProtocolError
| SecurityError
| FormationViolation
| PropertyConstraintViolation
| OccurenceConstraintViolation
| TypeConstraintViolation
| GenericError.

Record OCPP1_6Error := mkOCPP1_6Error {
  OCPP1_6Error_code : RpcErrorCode_1_6; OCPP1_6Error_description : string; OCPP1_6Error_details : Value }.

Definition wire_code_1_6 (c : RpcErrorCode_1_6) : string :=
  match c with
  | NotImplemented => "NotImplemented"
  | NotSupported => "NotSupported"
  | InternalError => "InternalError"
  | RpcProtocolError => "ProtocolError"
  | SecurityError => "SecurityError"
  | FormationViolation => "FormationViolation"
  | PropertyConstraintViolation => "PropertyConstraintViolation"
  | OccurenceConstraintViolation => "OccurenceConstraintViolation"
  | TypeConstraintViolation => "TypeConstraintViolation"
  | GenericError => "GenericError"
  end.

Definition from_wire_1_6 (code description : string) (details : Value) : OCPP1_6Error :=
  let c :=
    if String.eqb code "NotImplemented" then NotImplemented else
    if String.eqb code "NotSupported" then NotSupported else
    if String.eqb code "InternalError" then InternalError else
    if String.eqb code "ProtocolError" then RpcProtocolError else
    if String.eqb code "SecurityError" then SecurityError else
    if String.eqb code "FormationViolation" then FormationViolation else
    if String.eqb code "PropertyConstraintViolation" then PropertyConstraintViolation else
    if String.eqb code "OccurenceConstraintViolation" then OccurenceConstraintViolation else
    if String.eqb code "TypeConstraintViolation" then TypeConstraintViolation else
    GenericError in
  mkOCPP1_6Error c description details.

Definition not_implemented_1_6 (action : string) : OCPP1_6Error :=
  mkOCPP1_6Error NotImplemented ("Action '" ++ action ++ "' is not implemented") (VObject []).

#[global] Instance ProtocolError_1_6 : ProtocolError OCPP1_6Error := {|
  code e := wire_code_1_6 (OCPP1_6Error_code e);
  description := OCPP1_6Error_description;
  details := OCPP1_6Error_details;
  not_implemented := not_implemented_1_6;
  from_wire := from_wire_1_6;
|}.

Definition from_validation_error_1_6 (error : ValidationError) : OCPP1_6Error :=
  let c := match constraint_class error with
           | Property => PropertyConstraintViolation
           | Occurrence => OccurenceConstraintViolation
           end in
  let '(d, x) := validation_error_parts error in
  mkOCPP1_6Error c d x.

Definition display_1_6 (e : OCPP1_6Error) : string := code e ++ ": " ++ description e.

#[global] Instance RpcErrorCode_1_6_eq_dec : EqDecision RpcErrorCode_1_6.
Proof. solve_decision. Defined.

#[global] Instance ProtocolErrorLaws_1_6 : ProtocolErrorLaws OCPP1_6Error.
Proof. split; [intros [[] d x]; reflexivity|done..]. Qed.

End V1_6.

(** ** OCPP 2.0.1 *)

Module V2_0_1.

Inductive RpcErrorCode_2_0_1 :=
| FormatViolation
| GenericError
| InternalError
| MessageTypeNotSupported
| NotImplemented
| NotSupported
| OccurrenceConstraintViolation
| PropertyConstraintViolation
| RpcProtocolError
| RpcFrameworkError
| SecurityError
| TypeConstraintViolation.

Record OCPP2_0_1Error := mkOCPP2_0_1Error {
  OCPP2_0_1Error_code : RpcErrorCode_2_0_1; OCPP2_0_1Error_description : string; OCPP2_0_1Error_details : Value }.

Definition wire_code_2_0_1 (c : RpcErrorCode_2_0_1) : string :=
  match c with
  | FormatViolation => "FormatViolation"
  | GenericError => "GenericError"
  | InternalError => "InternalError"
  | MessageTypeNotSupported => "MessageTypeNotSupported"
  | NotImplemented => "NotImplemented"
  | NotSupported => "NotSupported"
  | OccurrenceConstraintViolation => "OccurrenceConstraintViolation"
  | PropertyConstraintViolation => "PropertyConstraintViolation"
  | RpcProtocolError => "ProtocolError"
  | RpcFrameworkError => "RpcFrameworkError"
  | SecurityError => "SecurityError"
  | TypeConstraintViolation => "TypeConstraintViolation"
  end.

Definition from_wire_2_0_1 (code description : string) (details : Value) : OCPP2_0_1Error :=
  let c :=
    if String.eqb code "FormatViolation" then FormatViolation else
    if String.eqb code "InternalError" then InternalError else
    if String.eqb code "MessageTypeNotSupported" then MessageTypeNotSupported else
    if String.eqb code "NotImplemented" then NotImplemented else
    if String.eqb code "NotSupported" then NotSupported else
    if String.eqb code "OccurrenceConstraintViolation" then OccurrenceConstraintViolation else
    if String.eqb code "PropertyConstraintViolation" then PropertyConstraintViolation else
    if String.eqb code "ProtocolError" then RpcProtocolError else
    if String.eqb code "RpcFrameworkError" then RpcFrameworkError else
    if String.eqb code "SecurityError" then SecurityError else
    if String.eqb code "TypeConstraintViolation" then TypeConstraintViolation else
    GenericError in
  mkOCPP2_0_1Error c description details.

Definition not_implemented_2_0_1 (action : string) : OCPP2_0_1Error :=
  mkOCPP2_0_1Error NotImplemented ("Action '" ++ action ++ "' is not implemented") (VObject []).

#[global] Instance ProtocolError_2_0_1 : ProtocolError OCPP2_0_1Error := {|
  code e := wire_code_2_0_1 (OCPP2_0_1Error_code e);
  description := OCPP2_0_1Error_description;
  details := OCPP2_0_1Error_details;
  not_implemented := not_implemented_2_0_1;
  from_wire := from_wire_2_0_1;
|}.

Definition from_validation_error_2_0_1 (error : ValidationError) : OCPP2_0_1Error :=
  let c := match constraint_class error with
           | Property => PropertyConstraintViolation
           | Occurrence => OccurrenceConstraintViolation
           end in
  let '(d, x) := validation_error_parts error in
  mkOCPP2_0_1Error c d x.

Definition display_2_0_1 (e : OCPP2_0_1Error) : string := code e ++ ": " ++ description e.

#[global] Instance RpcErrorCode_2_0_1_eq_dec : EqDecision RpcErrorCode_2_0_1.
Proof. solve_decision. Defined.

#[global] Instance ProtocolErrorLaws_2_0_1 : ProtocolErrorLaws OCPP2_0_1Error.
Proof. split; [intros [[] d x]; reflexivity|done..]. Qed.

End V2_0_1.

(** ** OCPP 2.1 *)

Module V2_1.

Inductive RpcErrorCode_2_1 :=
| FormatViolation
| GenericError
| InternalError
| MessageTypeNotSupported
| NotImplemented
| NotSupported
| OccurrenceConstraintViolation
| PropertyConstraintViolation
| RpcProtocolError
| RpcFrameworkError
| SecurityError
| TypeConstraintViolation.

Record OCPP2_1Error := mkOCPP2_1Error {
  OCPP2_1Error_code : RpcErrorCode_2_1; OCPP2_1Error_description : string; OCPP2_1Error_details : Value }.

Definition wire_code_2_1 (c : RpcErrorCode_2_1) : string :=
  match c with
  | FormatViolation => "FormatViolation"
  | GenericError => "GenericError"
  | InternalError => "InternalError"
  | MessageTypeNotSupported => "MessageTypeNotSupported"
  | NotImplemented => "NotImplemented"
  | NotSupported => "NotSupported"
  | OccurrenceConstraintViolation => "OccurrenceConstraintViolation"
  | PropertyConstraintViolation => "PropertyConstraintViolation"
  | RpcProtocolError => "ProtocolError"
  | RpcFrameworkError => "RpcFrameworkError"
  | SecurityError => "SecurityError"
  | TypeConstraintViolation => "TypeConstraintViolation"
  end.

Definition from_wire_2_1 (code description : string) (details : Value) : OCPP2_1Error :=
  let c :=
    if String.eqb code "FormatViolation" then FormatViolation else
    if String.eqb code "InternalError" then InternalError else
    if String.eqb code "MessageTypeNotSupported" then MessageTypeNotSupported else
    if String.eqb code "NotImplemented" then NotImplemented else
    if String.eqb code "NotSupported" then NotSupported else
    if String.eqb code "OccurrenceConstraintViolation" then OccurrenceConstraintViolation else
    if String.eqb code "PropertyConstraintViolation" then PropertyConstraintViolation else
    if String.eqb code "ProtocolError" then RpcProtocolError else
    if String.eqb code "RpcFrameworkError" then RpcFrameworkError else
    if String.eqb code "SecurityError" then SecurityError else
    if String.eqb code "TypeConstraintViolation" then TypeConstraintViolation else
    GenericError in
  mkOCPP2_1Error c description details.

Definition not_implemented_2_1 (action : string) : OCPP2_1Error :=
  mkOCPP2_1Error NotImplemented ("Action '" ++ action ++ "' is not implemented") (VObject []).

#[global] Instance ProtocolError_2_1 : ProtocolError OCPP2_1Error := {|
  code e := wire_code_2_1 (OCPP2_1Error_code e);
  description := OCPP2_1Error_description;
  details := OCPP2_1Error_details;
  not_implemented := not_implemented_2_1;
  from_wire := from_wire_2_1;
|}.

Definition from_validation_error_2_1 (error : ValidationError) : OCPP2_1Error :=
  let c := match constraint_class error with
           | Property => PropertyConstraintViolation
           | Occurrence => OccurrenceConstraintViolation
           end in
  let '(d, x) := validation_error_parts error in
  mkOCPP2_1Error c d x.

Definition display_2_1 (e : OCPP2_1Error) : string := code e ++ ": " ++ description e.

#[global] Instance RpcErrorCode_2_1_eq_dec : EqDecision RpcErrorCode_2_1.
Proof. solve_decision. Defined.

#[global] Instance ProtocolErrorLaws_2_1 : ProtocolErrorLaws OCPP2_1Error.
Proof. split; [intros [[] d x]; reflexivity|done..]. Qed.

End V2_1.

(** ** Properties *)

(** What it takes for errors to survive the wire: what one side writes the other
    reads back, and an arbitrary CALLERROR keeps its description, its details, and its
    code unless that is unknown. *)
Definition wire_faithful (E : Type) `{ProtocolError E} : Prop :=
  (∀ e : E, from_wire (code e) (description e) (details e) = e) ∧
  (∀ c d x, let e : E := from_wire c d x in
     (code e = c ∨ code e = "GenericError") ∧ description e = d ∧ details e = x).

Ltac eqb_cases :=
  repeat match goal with
         | |- context [String.eqb ?a ?b] => destruct (String.eqb_spec a b); subst; simpl; auto
         end.

(** C31: in each of the three versions a CALLERROR written by one side is read back by
    the other as the same error, and a received CALLERROR keeps its description and
    details, and its code too unless the version does not know it, in which case it is
    read as [GenericError]. *)
Theorem protocol_errors_cross_the_wire :
  wire_faithful V1_6.OCPP1_6Error ∧ wire_faithful V2_0_1.OCPP2_0_1Error ∧
  wire_faithful V2_1.OCPP2_1Error.
Proof.
  split_and!; (split; [apply from_wire_code|]); intros c d x; simpl;
    (split; [|done]); unfold V1_6.from_wire_1_6, V2_0_1.from_wire_2_0_1, V2_1.from_wire_2_1;
    simpl; eqb_cases.
Qed.

(** What answering a schema violation takes: the code of its class, its text, the path on
    its own, and an error the other side reads back. *)
Definition answers_violation {E : Type} `{ProtocolError E} (occurrence : string) (error : ValidationError)
    (e : E) : Prop :=
  code e = match constraint_class error with
           | Property => "PropertyConstraintViolation" | Occurrence => occurrence end ∧
  description e = validation_display error ∧
  details e = VObject [("path", VString (render_path error))] ∧
  from_wire (code e) (description e) (details e) = e.

(** Schema violations are answered with each version's own code.  The three versions
    share the description and the path in the details; the code names the class of the
    constraint, which 1.6 spells "Occurence" and 2.0.1 and 2.1 "Occurrence"; and the peer
    reads the error back as it was sent. *)
Lemma validation_errors_cross_the_wire error :
  answers_violation "OccurenceConstraintViolation" error (V1_6.from_validation_error_1_6 error) ∧
  answers_violation "OccurrenceConstraintViolation" error (V2_0_1.from_validation_error_2_0_1 error) ∧
  answers_violation "OccurrenceConstraintViolation" error (V2_1.from_validation_error_2_1 error).
Proof.
  unfold answers_violation. split_and!; try apply from_wire_code; try done;
    by destruct error as [[] ? ? ?].
Qed.
