(* ===== verification/Keepalive.v ===== *)
(** * Keepalive configuration

    [src/src/keepalive.rs], and the [KeepaliveState] of [src/src/client.rs]: the ping
    policy, its switch, and the interval a CSMS can read and write at runtime. *)

From S2P Require Import Prelude Time Sync.
From stdpp Require Import base numbers.

Local Open Scope Z_scope.

Record KeepalivePolicy := mkKeepalivePolicy {
  ka_interval : Duration;
  ka_timeout : option Duration;
  max_missed : Z;
}.

Definition KeepalivePolicy_default : KeepalivePolicy :=
  {| ka_interval := from_secs 60; ka_timeout := None; max_missed := 2 |}.

Definition every (interval : Duration) : KeepalivePolicy :=
  {| ka_interval := interval; ka_timeout := ka_timeout KeepalivePolicy_default;
     max_missed := max_missed KeepalivePolicy_default |}.

Definition misses_allowed (p : KeepalivePolicy) : Z := Z.max (max_missed p) 1.

Inductive KeepaliveBehavior :=
| KeepaliveEnabled (policy : KeepalivePolicy)
| KeepaliveDisabled.

Definition KeepaliveBehavior_default : KeepaliveBehavior := KeepaliveDisabled.

Definition initial_interval (b : KeepaliveBehavior) : option Duration :=
  match b with
  | KeepaliveEnabled policy =>
      if negb (is_zero (ka_interval policy)) then Some (ka_interval policy) else None
  | KeepaliveDisabled => None
  end.

Definition policy_of (b : KeepaliveBehavior) : KeepalivePolicy :=
  match b with
  | KeepaliveEnabled policy => policy
  | KeepaliveDisabled => KeepalivePolicy_default
  end.

(** [.map(|d| d.as_millis().min(u32::MAX as u128) as u32).unwrap_or(0)]. *)
Definition interval_to_millis (interval : option Duration) : Z :=
  match interval with
  | Some d => as_u32 (Z.min (as_millis d) u32_max)
  | None => 0
  end.

Section State.
Context `{SignalModel}.

Record KeepaliveState := mkKeepaliveState {
  interval_millis : Z;
  changed : Notify;
  policy : KeepalivePolicy;
}.

Definition keepalive_state_new (b : KeepaliveBehavior) : KeepaliveState :=
  {| interval_millis := interval_to_millis (initial_interval b);
     changed := notify_new; policy := policy_of b |}.

Definition interval (s : KeepaliveState) : option Duration :=
  if interval_millis s =? 0 then None else Some (from_millis (interval_millis s)).

Definition set_interval (i : option Duration) (s : KeepaliveState) : KeepaliveState :=
  {| interval_millis := interval_to_millis i; changed := notify_notify (changed s);
     policy := policy s |}.

(** [Client::set_ping_interval] on the state it changes: a zero duration is filtered
    out first. *)
Definition set_ping_interval_state (i : option Duration) (s : KeepaliveState) : KeepaliveState :=
  set_interval (match i with Some d => if is_zero d then None else Some d | None => None end) s.

(** Written by [disconnect] to wake the keepalive task. *)
Definition notify_changed (s : KeepaliveState) : KeepaliveState :=
  {| interval_millis := interval_millis s; changed := notify_notify (changed s);
     policy := policy s |}.

Lemma interval_to_millis_range i : is_u32 (interval_to_millis i).
Proof. destruct i; simpl; [apply as_u32_range|]. width_lia. Qed.

Lemma interval_to_millis_Some d :
  valid_duration d → interval_to_millis (Some d) = Z.min (as_millis d) u32_max.
Proof.
  intros Hd. simpl. unfold as_u32. apply Z.mod_small.
  rewrite as_millis_spec by done. pose proof (as_nanos_range d Hd).
  pose proof (Z.div_pos (as_nanos d) 1000000). width_lia.
Qed.

Lemma is_zero_as_millis d : valid_duration d → is_zero d = true → as_millis d = 0.
Proof.
  intros Hd. rewrite is_zero_spec, as_millis_spec by done. rewrite Z.eqb_eq. by intros ->.
Qed.

End State.

#[export] Hint Resolve interval_to_millis_range : ocpp.

(** ** Properties *)

(** The interval reported after [set_ping_interval] is the one written, cut to
    whole milliseconds and to [u32::MAX] of them; keepalive reads as off exactly when
    nothing was written or less than one millisecond was; and every write wakes the
    keepalive task. *)
Lemma ping_interval_readback `{SignalModel} (i : option Duration) (s : KeepaliveState) :
  (∀ d, i = Some d → valid_duration d) →
  let s' := set_ping_interval_state i s in
  interval s' =
    match i with
    | Some d => if as_nanos d <? 1000000 then None
                else Some (from_millis (Z.min (as_nanos d / 1000000) u32_max))
    | None => None
    end ∧
  is_u32 (interval_millis s') ∧ signalled (changed s') = true ∧ policy s' = policy s.
Proof.
  intros Hv s'. split_and!; [|apply interval_to_millis_range|apply signalled_signal|done].
  unfold s', set_ping_interval_state, set_interval, interval; simpl.
  destruct i as [d|]; [|done]. specialize (Hv d eq_refl).
  pose proof (as_millis_spec d Hv) as Hms. pose proof (as_nanos_range d Hv) as Hr.
  pose proof (is_zero_as_millis d Hv) as Hz.
  assert (Hsmall : (as_nanos d <? 1000000) = (as_nanos d / 1000000 =? 0)).
  { destruct (Z.ltb_spec (as_nanos d) 1000000);
      destruct (Z.eqb_spec (as_nanos d / 1000000) 0) as [E|E]; try done; exfalso.
    - apply E, Z.div_small. lia.
    - apply Z.div_small_iff in E; lia. }
  rewrite Hsmall. destruct (is_zero d).
  - rewrite <-Hms, Hz by done. done.
  - rewrite interval_to_millis_Some, Hms by done.
    destruct (Z.eqb_spec (as_nanos d / 1000000) 0) as [->|E]; [done|].
    pose proof (Z.div_pos (as_nanos d) 1000000).
    destruct (Z.eqb_spec (Z.min (as_nanos d / 1000000) u32_max) 0); [width_lia|done].
Qed.

