(* ===== verification/UnitTests.v ===== *)
(** * The unit tests of the crate

    The tests written inside [src/src/reconnect.rs] and [src/src/keepalive.rs], as
    functions of the model and of the random numbers drawn: they pass, and the two that
    sample the jitter pass whatever is drawn, or for which draws they do not. *)

From S2P Require Import Prelude Time Reconnect Keepalive.
From stdpp Require Import base numbers list.

Local Open Scope Z_scope.

(** [assert_eq!]. *)
Definition same {A} `{EqDecision A} (a b : A) : bool := bool_decide (a = b).

#[local] Instance KeepalivePolicy_eq_dec : EqDecision KeepalivePolicy.
Proof. solve_decision. Defined.

(** ** [reconnect.rs] *)

Definition delay_doubles_and_caps : bool :=
  let policy := mkReconnectPolicy (from_secs 1) (from_secs 10) 2 false in
  same (delay_for policy 0) (from_secs 1) && same (delay_for policy 1) (from_secs 2) &&
  same (delay_for policy 2) (from_secs 4) && same (delay_for policy 3) (from_secs 8) &&
  same (delay_for policy 4) (from_secs 10) && same (delay_for policy 10) (from_secs 10).

(** [random attempt] is what the jitter of that attempt draws. *)
Definition jitter_off_is_exact (random : Z → Z) : bool :=
  let policy := mkReconnectPolicy (from_secs 4) (max_delay ReconnectPolicy_default)
                  (multiplier ReconnectPolicy_default) false in
  forallb (λ attempt, same (jittered_delay_for policy attempt (random attempt)) (Some (delay_for policy attempt)))
    (seqZ 0 6).

(** [jittered >= full / 2 && jittered <= full]; a panic fails the test. *)
Definition within_half (full : Duration) (jittered : option Duration) : bool :=
  match jittered with
  | Some d => negb (duration_ltb d (duration_div full 2)) && negb (duration_ltb full d)
  | None => false
  end.

Definition jitter_stays_within_half_the_delay_and_the_full_delay (random : Z → Z → Z) : bool :=
  let policy := mkReconnectPolicy (from_secs 8) (from_secs 64) 2 true in
  forallb (λ attempt,
    let full := delay_for policy attempt in
    forallb (λ i, within_half full (jittered_delay_for policy attempt (random attempt i))) (seqZ 0 200))
    (seqZ 0 6).

Definition jitter_actually_varies (first_random : Z) (random : Z → Z) : bool :=
  let policy := ReconnectPolicy_default in
  let first := jittered_delay_for policy 3 first_random in
  existsb (λ i, negb (same (jittered_delay_for policy 3 (random i)) first)) (seqZ 0 50).

Definition a_zero_delay_survives_jittering (random : Z) : bool :=
  let policy := mkReconnectPolicy ZERO ZERO 2 true in
  same (jittered_delay_for policy 0 random) (Some ZERO).

(** ** [keepalive.rs] *)

Definition zero_interval_reads_as_disabled : bool :=
  same (initial_interval (KeepaliveEnabled (every ZERO))) None.

Definition disabled_still_carries_a_policy_for_later_enabling : bool :=
  same (policy_of KeepaliveDisabled) KeepalivePolicy_default && same (initial_interval KeepaliveDisabled) None.

Definition zero_misses_allowed_normalizes_to_one : bool :=
  let policy := mkKeepalivePolicy (ka_interval KeepalivePolicy_default) (ka_timeout KeepalivePolicy_default) 0 in
  same (misses_allowed policy) 1.

Definition default_tolerates_one_miss_before_redialling : bool :=
  same (misses_allowed KeepalivePolicy_default) 2 && same (ka_interval KeepalivePolicy_default) (from_secs 60).

(** ** They pass *)

Example deterministic_tests_pass :
  delay_doubles_and_caps && zero_interval_reads_as_disabled &&
  disabled_still_carries_a_policy_for_later_enabling && zero_misses_allowed_normalizes_to_one &&
  default_tolerates_one_miss_before_redialling = true.
Proof. reflexivity. Qed.

Lemma jitter_off_passes random : jitter_off_is_exact random = true.
Proof. apply forallb_forall. intros attempt _. by apply bool_decide_eq_true. Qed.

Lemma within_half_passes p attempt random :
  valid_policy p → within_half (delay_for p attempt) (jittered_delay_for p attempt random) = true.
Proof.
  intros Hp. destruct (jittered_delay_range p attempt random Hp) as (_ & d & -> & Hd & Hr).
  pose proof (delay_for_valid p attempt Hp) as Hf. unfold within_half.
  rewrite !duration_ltb_spec by (try apply duration_div_valid; done).
  rewrite duration_div_spec by done. apply andb_true_iff. rewrite !negb_true_iff, !Z.ltb_ge. lia.
Qed.

(** The sampled test passes whatever is drawn. *)
Lemma jitter_range_passes random : jitter_stays_within_half_the_delay_and_the_full_delay random = true.
Proof.
  apply forallb_forall. intros attempt _. apply forallb_forall. intros i _.
  apply within_half_passes. repeat split; done.
Qed.

Lemma zero_delay_passes random : a_zero_delay_survives_jittering random = true.
Proof. reflexivity. Qed.

(** The last test depends on its draws: it fails exactly when all fifty-one delays
    coincide, as they do when the same number is drawn each time. *)
Lemma jitter_varies_unless_all_equal first_random random :
  jitter_actually_varies first_random random = false ↔
  ∀ i, 0 ≤ i < 50 →
    jittered_delay_for ReconnectPolicy_default 3 (random i)
      = jittered_delay_for ReconnectPolicy_default 3 first_random.
Proof.
  unfold jitter_actually_varies. rewrite <-not_true_iff_false, existsb_exists. split.
  - intros Hn i Hi. apply dec_stable. intros Hne. apply Hn. exists i. split.
    + apply list_elem_of_In, elem_of_seqZ. lia.
    + by apply negb_true_iff, bool_decide_eq_false.
  - intros Hall (i & Hi & Hne). apply list_elem_of_In, elem_of_seqZ in Hi.
    apply negb_true_iff, bool_decide_eq_false in Hne. apply Hne, Hall. lia.
Qed.

Example jitter_varies : jitter_actually_varies 0 (λ i, i * 2 ^ 26) = true.
Proof. reflexivity. Qed.
