(* ===== verification/Engine.v ===== *)
(** * Async programs over a shared state

    An [async fn] is translated to a term of [prog]: a sequence of atomic operations
    on the shared state (a locked section, an atomic load or store) and of awaited
    futures, with everything other tasks do interleaved between them.  A future is
    either internal (it completes when the shared state says so, such as a signal) or
    external (a transport, a timer, a random identifier), whose results are inputs of
    the model, called choices.  An infinite loop of the source is a [Fixpoint] on fuel
    that ends in [OutOfFuel]: its runs are exactly the finite prefixes of the loop's,
    so a property proved for every amount of fuel holds of the loop at every moment.

    The file gives programs two semantics, a deterministic run of one program and the
    interleaving of a pool of tasks, and a rely/guarantee judgement [safe] with its
    soundness for the pool.

    [with_timeout] and [with_cancel] are the two helpers of [src/src/runtime.rs]. *)

From S2P Require Import Prelude Time.
From stdpp Require Import base list relations.

(** External futures: polled with a choice, one is ready with a value and an effect on
    the state, or pending. *)
Class Externals (St Choice : Type) (Ext : Type → Type) :=
  poll_ext : ∀ {B : Type}, Ext B → Choice → St → option (B * St).

(** Why a task waits on the shared state: for something to do, or for the answer to
    something it has sent.  The kind has no effect on a run; it tells a task at rest
    from one with something outstanding. *)
Inductive wait_kind := Background | Answer.

Section Programs.
Context {St Choice : Type} {Ext : Type → Type} `{Externals St Choice Ext}.

Inductive fut (B : Type) : Type :=
| FTake (kind : wait_kind) (take : St → option (B * St))
| FExt (e : Ext B).
Arguments FTake {B} _ _.
Arguments FExt {B} _.

Inductive prog (A : Type) : Type :=
| Ret (a : A)
| Atomic {B : Type} (f : St → B * St) (k : B → prog A)
| Await {B : Type} (f : fut B) (k : B → prog A)
| Select {B C : Type} (f : fut B) (g : fut C) (k : B + C → prog A)
| Spawn (p : prog unit) (k : prog A)
| OutOfFuel.
Arguments Ret {A} _.
Arguments Atomic {A B} _ _.
Arguments Await {A B} _ _.
Arguments Select {A B C} _ _ _.
Arguments Spawn {A} _ _.
Arguments OutOfFuel {A}.

Fixpoint bind {A B : Type} (p : prog A) (k : A → prog B) : prog B :=
  match p with
  | Ret a => k a
  | Atomic f k' => Atomic f (λ b, bind (k' b) k)
  | Await f k' => Await f (λ b, bind (k' b) k)
  | Select f g k' => Select f g (λ b, bind (k' b) k)
  | Spawn p k' => Spawn p (bind k' k)
  | OutOfFuel => OutOfFuel
  end.

(** One poll of a future. *)
Definition poll {B : Type} (f : fut B) (c : Choice) (s : St) : option (B * St) :=
  match f with
  | FTake _ take => take s
  | FExt e => poll_ext e c s
  end.

(** One poll of a race: the first future is polled first and wins if it is ready. *)
Definition poll_select {B C : Type} (f : fut B) (g : fut C) (c : Choice) (s : St) :
    option ((B + C) * St) :=
  match poll f c s with
  | Some (b, s') => Some (inl b, s')
  | None =>
      match poll g c s with
      | Some (x, s') => Some (inr x, s')
      | None => None
      end
  end.

(** ** Small steps and the pool *)

(** One step of a task: the rest of it, the new state, and the tasks it spawned.
    [None] if the task has ended, is out of fuel, or is pending. *)
Definition step {A : Type} (c : Choice) (p : prog A) (s : St) : option (prog A * St * list (prog unit)) :=
  match p with
  | Ret _ => None
  | Atomic f k => let '(b, s') := f s in Some (k b, s', [])
  | Await f k =>
      match poll f c s with Some (b, s') => Some (k b, s', []) | None => None end
  | Select f g k =>
      match poll_select f g c s with Some (b, s') => Some (k b, s', []) | None => None end
  | Spawn p k => Some (k, s, [p])
  | OutOfFuel => None
  end.

(** A pool steps by one of its tasks stepping; spawned tasks join at the end. *)
Definition pool_step (i : nat) (c : Choice) (ts : list (prog unit)) (s : St) :
    option (list (prog unit) * St) :=
  match ts !! i with
  | Some p =>
      match step c p s with
      | Some (p', s', new) => Some (<[i := p']> ts ++ new, s')
      | None => None
      end
  | None => None
  end.

(** A schedule names, step by step, the task that runs and the choice it sees. *)
Fixpoint run_pool (schedule : list (nat * Choice)) (ts : list (prog unit)) (s : St) :
    option (list (prog unit) * St) :=
  match schedule with
  | [] => Some (ts, s)
  | (i, c) :: rest =>
      match pool_step i c ts s with
      | Some (ts', s') => run_pool rest ts' s'
      | None => None
      end
  end.

(** ** One program on its own

    [run p choices s] runs [p] with nothing interleaved, each awaited future consuming
    one choice, and returns the result, the final state, the spawned tasks and the
    choices left over. *)
Fixpoint run {A : Type} (p : prog A) (choices : list Choice) (s : St) :
    option (A * St * list (prog unit) * list Choice) :=
  match p with
  | Ret a => Some (a, s, [], choices)
  | Atomic f k => let '(b, s') := f s in run (k b) choices s'
  | Await f k =>
      match choices with
      | [] => None
      | c :: rest =>
          match poll f c s with Some (b, s') => run (k b) rest s' | None => None end
      end
  | Select f g k =>
      match choices with
      | [] => None
      | c :: rest =>
          match poll_select f g c s with Some (b, s') => run (k b) rest s' | None => None end
      end
  | Spawn p k =>
      match run k choices s with
      | Some (a, s', new, rest) => Some (a, s', p :: new, rest)
      | None => None
      end
  | OutOfFuel => None
  end.

(** ** Rely/guarantee *)

Record spec := mkSpec {
  allow : Choice → Prop;     (** the choices the environment may make *)
  rely : St → St → Prop;     (** what other tasks may do between two steps *)
  guar : St → St → Prop;     (** what each step of this program does *)
}.

(** [safe σ p Q s]: from [s], under [σ], every step of [p] meets the guarantee, and
    when [p] returns [a] the state satisfies [Q a] (and keeps satisfying it while the
    others run). *)
Fixpoint safe {A : Type} (σ : spec) (p : prog A) (Q : A → St → Prop) (s : St) {struct p} : Prop :=
  match p with
  | Ret a => ∀ s1, rely σ s s1 → Q a s1
  | Atomic f k =>
      ∀ s1, rely σ s s1 → guar σ s1 (f s1).2 ∧ safe σ (k (f s1).1) Q (f s1).2
  | Await f k =>
      ∀ s1 c b s2, rely σ s s1 → allow σ c → poll f c s1 = Some (b, s2) →
        guar σ s1 s2 ∧ safe σ (k b) Q s2
  | Select f g k =>
      ∀ s1 c b s2, rely σ s s1 → allow σ c → poll_select f g c s1 = Some (b, s2) →
        guar σ s1 s2 ∧ safe σ (k b) Q s2
  | Spawn p k =>
      ∀ s1, rely σ s s1 → safe σ p (λ _ _, True) s1 ∧ safe σ k Q s1
  | OutOfFuel => True
  end.

(** Every value [p] can return satisfies [Q], whatever the state and the others do. *)
Fixpoint yields {A : Type} (p : prog A) (Q : A → Prop) : Prop :=
  match p with
  | Ret a => Q a
  | Atomic _ k => ∀ b, yields (k b) Q
  | Await _ k => ∀ b, yields (k b) Q
  | Select _ _ k => ∀ b, yields (k b) Q
  | Spawn _ k => yields k Q
  | OutOfFuel => True
  end.

End Programs.

Arguments FTake {St Ext B} _ _.
Arguments FExt {St Ext B} _.
Arguments Ret {St Ext A} _.
Arguments Atomic {St Ext A B} _ _.
Arguments Await {St Ext A B} _ _.
Arguments Select {St Ext A B C} _ _ _.
Arguments Spawn {St Ext A} _ _.
Arguments OutOfFuel {St Ext A}.
Arguments mkSpec {St Choice} _ _ _.
Arguments allow {St Choice} _ _.
Arguments rely {St Choice} _ _ _.
Arguments guar {St Choice} _ _ _.

Declare Scope prog_scope.
Delimit Scope prog_scope with prog.
Notation "'let!' x ':=' p 'in' q" := (bind p (λ x, q%prog))
  (at level 10, x name, p at level 100, q at level 200) : prog_scope.
Notation "'do!' p 'in' q" := (bind p (λ _, q%prog))
  (at level 10, p at level 100, q at level 200) : prog_scope.

(** ** Lemmas *)

Section Safety.
Context {St Choice : Type} {Ext : Type → Type} `{Externals St Choice Ext}.
Implicit Types σ τ : @spec St Choice.

Lemma safe_mono {A : Type} σ (p : prog A) (Q Q' : A → St → Prop) s :
  (∀ a s, Q a s → Q' a s) → safe σ p Q s → safe σ p Q' s.
Proof.
  revert Q Q' s.
  induction p as [A a|A B f k IH|A B f k IH|A B C f g k IH|A p _ k IH|A];
    intros Q Q' s HQ; simpl; eauto.
  - intros Hs s1 Hr. destruct (Hs s1 Hr). eauto.
  - intros Hs s1 c b s2 Hr Hc Hp. destruct (Hs s1 c b s2 Hr Hc Hp). eauto.
  - intros Hs s1 c b s2 Hr Hc Hp. destruct (Hs s1 c b s2 Hr Hc Hp). eauto.
  - intros Hs s1 Hr. destruct (Hs s1 Hr). eauto.
Qed.

(** A judgement holds under any environment that does less, for any observer that
    asks for less. *)
Lemma safe_weaken {A : Type} σ τ (p : prog A) (Q : A → St → Prop) s :
  (∀ c, allow τ c → allow σ c) → (∀ s s', rely τ s s' → rely σ s s') →
  (∀ s s', guar σ s s' → guar τ s s') → safe σ p Q s → safe τ p Q s.
Proof.
  intros Ha Hr Hg. revert Q s.
  induction p as [A a|A B f k IH|A B f k IH|A B C f g k IH|A p IHp k IH|A];
    intros Q s; simpl; eauto.
  - intros Hs s1 Hr1. destruct (Hs s1 (Hr _ _ Hr1)). eauto.
  - intros Hs s1 c b s2 Hr1 Hc Hp. destruct (Hs s1 c b s2 (Hr _ _ Hr1) (Ha _ Hc) Hp). eauto.
  - intros Hs s1 c b s2 Hr1 Hc Hp. destruct (Hs s1 c b s2 (Hr _ _ Hr1) (Ha _ Hc) Hp). eauto.
  - intros Hs s1 Hr1. destruct (Hs s1 (Hr _ _ Hr1)). eauto.
Qed.

(** A judgement stays true while the other tasks run. *)
Lemma safe_stable {A : Type} σ (p : prog A) (Q : A → St → Prop) s s' :
  Transitive (rely σ) → rely σ s s' → safe σ p Q s → safe σ p Q s'.
Proof. intros Ht Hr. destruct p; simpl; eauto. Qed.

Lemma safe_bind {A B : Type} σ (p : prog A) (k : A → prog B) (R : A → St → Prop) (Q : B → St → Prop) s :
  Reflexive (rely σ) → safe σ p R s → (∀ a s, R a s → safe σ (k a) Q s) →
  safe σ (bind p k) Q s.
Proof.
  intros Hrefl. revert k R s.
  induction p as [A a|A C f k' IH|A C f k' IH|A C D f g k' IH|A p _ k' IH|A];
    intros k R s Hp Hk; revert Hp; simpl; eauto.
  - intros Hs s1 Hr. destruct (Hs s1 Hr). eauto.
  - intros Hs s1 c b s2 Hr Hc Hp. destruct (Hs s1 c b s2 Hr Hc Hp). eauto.
  - intros Hs s1 c b s2 Hr Hc Hp. destruct (Hs s1 c b s2 Hr Hc Hp). eauto.
  - intros Hs s1 Hr. destruct (Hs s1 Hr). eauto.
Qed.

(** Sequencing where the first part is only known to keep the guarantee: the rest
    starts in a state the rely relates to the first one. *)
Lemma safe_then {A B : Type} σ (p : prog A) (k : A → prog B) (Q : B → St → Prop) s :
  PreOrder (rely σ) → (∀ s s', guar σ s s' → rely σ s s') →
  safe σ p (λ _ _, True) s → (∀ a s', rely σ s s' → safe σ (k a) Q s') →
  safe σ (bind p k) Q s.
Proof.
  intros [Hrefl Htrans] Hgr.
  assert (∀ a b c d, rely σ a b → guar σ b c → rely σ c d → rely σ a d) as H3 by eauto.
  revert k s.
  induction p as [A a|A C f k' IH|A C f k' IH|A C D f g k' IH|A p _ k' IH|A];
    intros k s Hp Hk; revert Hp; simpl; eauto.
  - intros Hs s1 Hr. destruct (Hs s1 Hr) as [Hg ?]. split; [done|].
    apply IH; [done|]. intros a s' Hr'. by eapply Hk, H3.
  - intros Hs s1 c b s2 Hr Hc Hp. destruct (Hs s1 c b s2 Hr Hc Hp) as [Hg ?]. split; [done|].
    apply IH; [done|]. intros a s' Hr'. by eapply Hk, H3.
  - intros Hs s1 c b s2 Hr Hc Hp. destruct (Hs s1 c b s2 Hr Hc Hp) as [Hg ?]. split; [done|].
    apply IH; [done|]. intros a s' Hr'. by eapply Hk, H3.
  - intros Hs s1 Hr. destruct (Hs s1 Hr) as [? ?]. split; [done|].
    apply IH; [done|]. intros a s' Hr'. apply Hk. by etrans.
Qed.

(** What every step of everyone preserves holds at the end. *)
Lemma safe_invariant {A : Type} σ (p : prog A) (J : St → Prop) s :
  (∀ s s', rely σ s s' → J s → J s') → (∀ s s', guar σ s s' → J s → J s') →
  J s → safe σ p (λ _ _, True) s → safe σ p (λ _, J) s.
Proof.
  intros Hr Hg. revert s.
  induction p as [A a|A B f k IH|A B f k IH|A B C f g k IH|A p _ k IH|A]; simpl; intros s HJ; eauto.
  - intros Hs s1 Hr1. destruct (Hs s1 Hr1). eauto.
  - intros Hs s1 c b s2 Hr1 Hc Hp. destruct (Hs s1 c b s2 Hr1 Hc Hp). eauto.
  - intros Hs s1 c b s2 Hr1 Hc Hp. destruct (Hs s1 c b s2 Hr1 Hc Hp). eauto.
  - intros Hs s1 Hr1. destruct (Hs s1 Hr1). eauto.
Qed.

Lemma safe_yields {A : Type} σ (p : prog A) (Q : A → St → Prop) (R : A → Prop) s :
  yields p R → safe σ p Q s → safe σ p (λ a s, Q a s ∧ R a) s.
Proof.
  revert Q R s. induction p as [A a|A B f k IH|A B f k IH|A B C f g k IH|A p _ k IH|A];
    intros Q R s Hy; simpl in *; eauto.
  - intros Hs s1 Hr. destruct (Hs s1 Hr). eauto.
  - intros Hs s1 c b s2 Hr Hc Hp. destruct (Hs s1 c b s2 Hr Hc Hp). eauto.
  - intros Hs s1 c b s2 Hr Hc Hp. destruct (Hs s1 c b s2 Hr Hc Hp). eauto.
  - intros Hs s1 Hr. destruct (Hs s1 Hr). eauto.
Qed.

Lemma yields_true {A : Type} (p : prog (St := St) (Ext := Ext) A) : yields p (λ _, True).
Proof. induction p; simpl; auto. Qed.

Lemma yields_bind {A B : Type} (p : prog (St := St) (Ext := Ext) A) (k : A → prog B) (R : A → Prop) (Q : B → Prop) :
  yields p R → (∀ a, R a → yields (k a) Q) → yields (bind p k) Q.
Proof.
  revert k R. induction p as [A a|A C f k' IH|A C f k' IH|A C D f g k' IH|A p _ k' IH|A];
    intros k R Hp Hk; simpl in *; eauto.
Qed.

(** One step of a safe program meets the guarantee and leaves a safe program. *)
Lemma step_safe {A : Type} σ (p : prog A) (Q : A → St → Prop) c s p' s' new :
  Reflexive (rely σ) → safe σ p Q s → allow σ c → step c p s = Some (p', s', new) →
  (guar σ s s' ∨ s = s') ∧ safe σ p' Q s' ∧ Forall (λ t, safe σ t (λ _ _, True) s') new.
Proof.
  intros Hrefl Hs Hc Hstep. destruct p as [a|B f k|B f k|B C f g k|p k|]; simpl in *; try done.
  - destruct (Hs s (Hrefl s)) as [? ?]. destruct (f s) as [b s1] eqn:Hf. simplify_eq/=. auto.
  - destruct (poll f c s) as [[b s1]|] eqn:Hp; simplify_eq/=.
    destruct (Hs s c b s' (Hrefl s) Hc Hp). auto.
  - destruct (poll_select f g c s) as [[b s1]|] eqn:Hp; simplify_eq/=.
    destruct (Hs s c b s' (Hrefl s) Hc Hp). auto.
  - simplify_eq/=. destruct (Hs s' (Hrefl s')). auto.
Qed.

Definition pool_safe σ (ts : list (prog unit)) (s : St) : Prop :=
  Forall (λ t, safe σ t (λ _ _, True) s) ts.

Lemma pool_safe_stable σ ts s s' :
  Transitive (rely σ) → rely σ s s' → pool_safe σ ts s → pool_safe σ ts s'.
Proof. intros Ht Hr Hts. eapply Forall_impl; [exact Hts|]. intros t. by apply safe_stable. Qed.

Lemma pool_step_safe σ i c ts s ts' s' :
  PreOrder (rely σ) → (∀ s s', guar σ s s' → rely σ s s') →
  pool_safe σ ts s → allow σ c → pool_step i c ts s = Some (ts', s') →
  pool_safe σ ts' s' ∧ (guar σ s s' ∨ s = s').
Proof.
  intros [Hrefl Htrans] Hgr Hts Hc Hstep. unfold pool_step in Hstep.
  destruct (ts !! i) as [p|] eqn:Hi; [|done].
  destruct (step c p s) as [[[p' s1] new]|] eqn:Hp; simplify_eq/=.
  pose proof (proj1 (Forall_lookup _ _) Hts i p Hi) as Hsafe.
  destruct (step_safe _ _ _ _ _ _ _ _ Hrefl Hsafe Hc Hp) as (Hg & Hp' & Hnew).
  split; [|done]. apply Forall_app. split; [|done].
  apply Forall_insert; [|done].
  apply (pool_safe_stable σ ts s s'); [done| |done].
  destruct Hg as [Hg| ->]; [by apply Hgr|apply Hrefl].
Qed.

(** Every state an interleaving reaches is reached by steps that meet the guarantee. *)
Lemma run_pool_safe σ schedule ts s ts' s' :
  PreOrder (rely σ) → (∀ s s', guar σ s s' → rely σ s s') →
  pool_safe σ ts s → Forall (λ x, allow σ x.2) schedule →
  run_pool schedule ts s = Some (ts', s') → pool_safe σ ts' s' ∧ rtc (guar σ) s s'.
Proof.
  intros Hpre Hgr. revert ts s. induction schedule as [|[i c] rest IH]; simpl; intros ts s Hts Hall Hrun.
  - simplify_eq. split; [done|constructor].
  - apply Forall_cons in Hall as [Hc Hall]; simpl in Hc.
    destruct (pool_step i c ts s) as [[ts1 s1]|] eqn:Hstep; [|done].
    destruct (pool_step_safe σ i c ts s ts1 s1) as [Hts1 Hg]; try done.
    destruct (IH ts1 s1 Hts1 Hall Hrun) as [? Hrtc]. split; [done|].
    destruct Hg as [Hg| ->]; [by eapply rtc_l|done].
Qed.

(** ** A program observed among others

    The observed program [p] runs beside a pool; a schedule entry names the pool task
    that steps, or [None] for [p].  Tasks the pool spawns join it; [p] itself is one
    that spawns none, such as a request, a ping or the read loop. *)
Fixpoint run_among {A : Type} (schedule : list (option nat * Choice)) (p : prog A)
    (ts : list (prog unit)) (s : St) : option (prog A * list (prog unit) * St) :=
  match schedule with
  | [] => Some (p, ts, s)
  | (None, c) :: rest =>
      match step c p s with
      | Some (p', s', []) => run_among rest p' ts s'
      | _ => None
      end
  | (Some i, c) :: rest =>
      match pool_step i c ts s with
      | Some (ts', s') => run_among rest p ts' s'
      | None => None
      end
  end.

Lemma run_among_both {A : Type} σ τ (Q : A → St → Prop) schedule p ts s p' ts' s' :
  PreOrder (rely σ) → PreOrder (rely τ) →
  (∀ s s', guar τ s s' → rely σ s s') → (∀ s s', guar σ s s' → rely τ s s') →
  (∀ s s', guar τ s s' → rely τ s s') →
  safe σ p Q s → pool_safe τ ts s →
  Forall (λ x, match x.1 with None => allow σ x.2 | Some _ => allow τ x.2 end) schedule →
  run_among schedule p ts s = Some (p', ts', s') → safe σ p' Q s' ∧ pool_safe τ ts' s'.
Proof.
  intros [Hr1 Ht1] Hpre Hts Hst Htt. revert p ts s.
  induction schedule as [|[[i|] c] rest IH]; simpl; intros p ts s Hp Hpool Hall Hrun;
    [by simplify_eq|apply Forall_cons in Hall as [Hc Hall]; simpl in Hc..].
  - destruct (pool_step i c ts s) as [[ts1 s1]|] eqn:Hstep; [|done].
    destruct (pool_step_safe τ i c ts s ts1 s1) as [Hpool1 Hg]; try done.
    apply (IH p ts1 s1); try done. apply (safe_stable σ p Q s s1); try done.
    destruct Hg as [Hg| ->]; [by apply Hts|apply Hr1].
  - destruct (step c p s) as [[[p1 s1] []]|] eqn:Hstep; try done.
    destruct (step_safe _ _ _ _ _ _ _ _ Hr1 Hp Hc Hstep) as (Hg & Hp1 & _).
    apply (IH p1 ts s1); try done. destruct Hpre as [Hr2 Ht2].
    apply (pool_safe_stable τ ts s s1); try done.
    destruct Hg as [Hg| ->]; [by apply Hst|apply Hr2].
Qed.

Lemma run_among_safe {A : Type} σ τ (Q : A → St → Prop) schedule p ts s p' ts' s' :
  PreOrder (rely σ) → PreOrder (rely τ) →
  (∀ s s', guar τ s s' → rely σ s s') → (∀ s s', guar σ s s' → rely τ s s') →
  (∀ s s', guar τ s s' → rely τ s s') →
  safe σ p Q s → pool_safe τ ts s →
  Forall (λ x, match x.1 with None => allow σ x.2 | Some _ => allow τ x.2 end) schedule →
  run_among schedule p ts s = Some (p', ts', s') → safe σ p' Q s'.
Proof. intros. by eapply run_among_both. Qed.

Lemma run_among_cons {A : Type} x schedule (p : prog A) ts s :
  run_among (x :: schedule) p ts s =
    match run_among [x] p ts s with
    | Some (p', ts', s') => run_among schedule p' ts' s'
    | None => None
    end.
Proof.
  destruct x as [[i|] c]; simpl; [by destruct (pool_step i c ts s) as [[]|]|].
  by destruct (step c p s) as [[[] []]|].
Qed.

(** Every state on the way is reached by steps that meet one of the guarantees. *)
Lemma run_among_steps {A : Type} σ τ (Q : A → St → Prop) schedule p ts s p' ts' s' :
  PreOrder (rely σ) → PreOrder (rely τ) →
  (∀ s s', guar τ s s' → rely σ s s') → (∀ s s', guar σ s s' → rely τ s s') →
  (∀ s s', guar τ s s' → rely τ s s') →
  safe σ p Q s → pool_safe τ ts s →
  Forall (λ x, match x.1 with None => allow σ x.2 | Some _ => allow τ x.2 end) schedule →
  run_among schedule p ts s = Some (p', ts', s') → rtc (λ s s', guar σ s s' ∨ guar τ s s') s s'.
Proof.
  intros [Hr1 Ht1] Hpre Hts Hst Htt. revert p ts s.
  induction schedule as [|[[i|] c] rest IH]; simpl; intros p ts s Hp Hpool Hall Hrun;
    [by simplify_eq|apply Forall_cons in Hall as [Hc Hall]; simpl in Hc..].
  - destruct (pool_step i c ts s) as [[ts1 s1]|] eqn:Hstep; [|done].
    destruct (pool_step_safe τ i c ts s ts1 s1) as [Hpool1 Hg]; try done.
    assert (safe σ p Q s1).
    { apply (safe_stable σ p Q s s1); try done. destruct Hg as [Hg| ->]; [by apply Hts|apply Hr1]. }
    destruct Hg as [Hg| ->]; [eapply rtc_l; [by right|]|]; by eapply IH.
  - destruct (step c p s) as [[[p1 s1] []]|] eqn:Hstep; try done.
    destruct (step_safe _ _ _ _ _ _ _ _ Hr1 Hp Hc Hstep) as (Hg & Hp1 & _).
    assert (pool_safe τ ts s1).
    { destruct Hpre as [Hr2 Ht2]. apply (pool_safe_stable τ ts s s1); try done.
      destruct Hg as [Hg| ->]; [by apply Hst|apply Hr2]. }
    destruct Hg as [Hg| ->]; [eapply rtc_l; [by left|]|]; by eapply IH.
Qed.

(** ** Programs all of whose steps meet a relation, from any state *)

Fixpoint steps_in {A : Type} (ok : Choice → Prop) (G : St → St → Prop) (p : prog A) : Prop :=
  match p with
  | Ret _ => True
  | Atomic f k => ∀ s, G s (f s).2 ∧ steps_in ok G (k (f s).1)
  | Await f k => ∀ s c b s', ok c → poll f c s = Some (b, s') → G s s' ∧ steps_in ok G (k b)
  | Select f g k =>
      ∀ s c b s', ok c → poll_select f g c s = Some (b, s') → G s s' ∧ steps_in ok G (k b)
  | Spawn p k => steps_in ok G p ∧ steps_in ok G k
  | OutOfFuel => True
  end.

Lemma steps_in_bind {A B : Type} ok G (p : prog A) (k : A → prog B) :
  steps_in ok G p → (∀ a, steps_in ok G (k a)) → steps_in ok G (bind p k).
Proof.
  revert k. induction p as [A a|A C f k' IH|A C f k' IH|A C D f g k' IH|A p _ k' IH|A];
    simpl; intros k Hp Hk; auto.
  - intros s. destruct (Hp s). auto.
  - intros s c b s' Hc Hpoll. destruct (Hp s c b s' Hc Hpoll). auto.
  - intros s c b s' Hc Hpoll. destruct (Hp s c b s' Hc Hpoll). auto.
  - destruct Hp. auto.
Qed.

Lemma steps_in_safe {A : Type} σ ok G (p : prog A) s :
  (∀ c, allow σ c → ok c) → (∀ s s', G s s' → guar σ s s') →
  steps_in ok G p → safe σ p (λ _ _, True) s.
Proof.
  intros Hok HG. revert s.
  induction p as [A a|A B f k IH|A B f k IH|A B C f g k IH|A p IHp k IH|A];
    simpl; intros s Hp; auto.
  - intros s1 _. destruct (Hp s1). auto.
  - intros s1 c b s2 _ Hc Hpoll. destruct (Hp s1 c b s2 (Hok c Hc) Hpoll). auto.
  - intros s1 c b s2 _ Hc Hpoll. destruct (Hp s1 c b s2 (Hok c Hc) Hpoll). auto.
  - intros s1 _. destruct Hp. auto.
Qed.

(** The two judgements combine. *)
Lemma safe_steps_in {A : Type} σ ok G (p : prog A) (Q : A → St → Prop) s :
  (∀ c, allow σ c → ok c) → steps_in ok G p → safe σ p Q s →
  safe (mkSpec (allow σ) (rely σ) (λ s s', guar σ s s' ∧ G s s')) p Q s.
Proof.
  intros Hok. revert Q s.
  induction p as [A a|A B f k IH|A B f k IH|A B C f g k IH|A p IHp k IH|A];
    simpl; intros Q s Hp Hs; auto.
  - intros s1 Hr. destruct (Hp s1), (Hs s1 Hr). auto.
  - intros s1 c b s2 Hr Hc Hpoll. destruct (Hp s1 c b s2 (Hok c Hc) Hpoll), (Hs s1 c b s2 Hr Hc Hpoll). auto.
  - intros s1 c b s2 Hr Hc Hpoll. destruct (Hp s1 c b s2 (Hok c Hc) Hpoll), (Hs s1 c b s2 Hr Hc Hpoll). auto.
  - intros s1 Hr. destruct Hp, (Hs s1 Hr). auto.
Qed.

(** Every state an interleaving of such programs reaches is reached by steps in [G]. *)
Lemma run_pool_steps_in ok G schedule ts s ts' s' :
  Forall (steps_in ok G) ts → Forall (λ x, ok x.2) schedule →
  run_pool schedule ts s = Some (ts', s') → rtc G s s'.
Proof.
  intros Hts Hall Hrun.
  apply (run_pool_safe (mkSpec ok (λ _ _, True) G) schedule ts s ts' s'); try done.
  eapply Forall_impl; [exact Hts|]. intros t Ht. by apply (steps_in_safe _ ok G).
Qed.

(** A run on its own is a run with an environment that does nothing. *)
Lemma run_safe {A : Type} σ (p : prog A) (Q : A → St → Prop) choices s a s' new rest :
  Reflexive (rely σ) → safe σ p Q s → Forall (allow σ) choices →
  run p choices s = Some (a, s', new, rest) → Q a s'.
Proof.
  intros Hrefl. revert Q a choices s new rest.
  induction p as [A a'|A B f k IH|A B f k IH|A B C f g k IH|A p _ k IH|A];
    simpl; intros Q a choices s new rest Hs Hall Hrun; try done.
  - simplify_eq. apply Hs, Hrefl.
  - destruct (Hs s (Hrefl s)) as [_ Hk]. rewrite (surjective_pairing (f s)) in Hrun.
    by eapply IH.
  - destruct choices as [|c cs]; [done|]. apply Forall_cons in Hall as [Hc Hall].
    destruct (poll f c s) as [[b s1]|] eqn:Hp; [|done].
    destruct (Hs s c b s1 (Hrefl s) Hc Hp) as [_ Hk]. by eapply IH.
  - destruct choices as [|c cs]; [done|]. apply Forall_cons in Hall as [Hc Hall].
    destruct (poll_select f g c s) as [[b s1]|] eqn:Hp; [|done].
    destruct (Hs s c b s1 (Hrefl s) Hc Hp) as [_ Hk]. by eapply IH.
  - destruct (run k choices s) as [[[[a1 s1] new1] rest1]|] eqn:Hk; simplify_eq/=.
    destruct (Hs s (Hrefl s)) as [_ Hsk]. by eapply IH.
Qed.

(** A run relates its ends by what every step does. *)
Lemma run_steps_in {A : Type} G (p : prog A) choices s a s' new rest :
  PreOrder G → steps_in (λ _, True) G p → run p choices s = Some (a, s', new, rest) → G s s'.
Proof.
  intros [Hrefl Htrans] Hp Hrun.
  apply (run_safe (mkSpec (λ _, True) eq G) p (λ _ s', G s s') choices s a s' new rest); try done.
  - assert (Hs : safe (mkSpec (λ _, True) eq G) p (λ _ _, True) s) by (by eapply steps_in_safe).
    revert Hs. apply safe_invariant; simpl.
    + by intros s1 s2 <-.
    + intros s1 s2 HG H1. by transitivity s1.
    + apply Hrefl.
  - apply Forall_forall. by intros c.
Qed.

(** Choices a run does not consume are left over. *)
Lemma run_more {A : Type} (p : prog A) choices more s a s' new rest :
  run p choices s = Some (a, s', new, rest) →
  run p (choices ++ more) s = Some (a, s', new, rest ++ more).
Proof.
  revert a choices s new rest.
  induction p as [A a'|A B f k IH|A B f k IH|A B C f g k IH|A p _ k IH|A];
    simpl; intros a choices s new rest Hrun; try done.
  - by simplify_eq.
  - destruct (f s) as [b s1]. by apply IH.
  - destruct choices as [|c cs]; [done|]. simpl.
    destruct (poll f c s) as [[b s1]|]; [by apply IH|done].
  - destruct choices as [|c cs]; [done|]. simpl.
    destruct (poll_select f g c s) as [[b s1]|]; [by apply IH|done].
  - destruct (run k choices s) as [[[[a1 s1] new1] rest1]|] eqn:Hk; simplify_eq/=.
    by rewrite (IH _ _ _ _ _ Hk).
Qed.

(** The run of a sequence is the run of its first part followed by that of the rest. *)
Lemma run_bind {A B : Type} (p : prog A) (k : A → prog B) choices s :
  run (bind p k) choices s =
    match run p choices s with
    | Some (a, s', new, rest) =>
        match run (k a) rest s' with
        | Some (b, s'', new', rest') => Some (b, s'', new ++ new', rest')
        | None => None
        end
    | None => None
    end.
Proof.
  revert k choices s.
  induction p as [A a|A C f k' IH|A C f k' IH|A C D f g k' IH|A p _ k' IH|A];
    intros k choices s; simpl; try done.
  - by destruct (run (k a) choices s) as [[[[]]]|].
  - by destruct (f s).
  - destruct choices; [done|]. by destruct (poll f c s) as [[]|].
  - destruct choices; [done|]. by destruct (poll_select f g c s) as [[]|].
  - rewrite IH. destruct (run k' choices s) as [[[[a s1] new] rest]|]; [|done].
    by destruct (run (k a) rest s1) as [[[[]]]|].
Qed.

Lemma run_pool_app schedule more ts s :
  run_pool (schedule ++ more) ts s =
    match run_pool schedule ts s with Some (ts', s') => run_pool more ts' s' | None => None end.
Proof.
  revert ts s. induction schedule as [|[i c] schedule IH]; intros ts s; simpl; [done|].
  by destruct (pool_step i c ts s) as [[ts' s']|].
Qed.

(** ** From a run to a schedule

    A program runs inside a context as it would alone, so what [run] says of a part is
    what a pool does while it schedules the task of that part. *)

Definition context {A B : Type} (K : prog A → prog B) : Prop :=
  ∀ c p s p' s' new, step c p s = Some (p', s', new) → step c (K p) s = Some (K p', s', new).

Lemma context_id {A : Type} : context (λ p : prog A, p).
Proof. by intros c p s. Qed.

Lemma context_bind {A B C : Type} (K : prog A → prog B) (k : B → prog C) :
  context K → context (λ p, bind (K p) k).
Proof.
  intros HK c p s p' s' new Hstep. specialize (HK _ _ _ _ _ _ Hstep).
  destruct (K p) as [a|D f k'|D f k'|D F f g k'|q k'|]; simpl in *; try done.
  - destruct (f s) as [b s1]. by injection HK as <- <- <-.
  - destruct (poll f c s) as [[b s1]|]; [|done]. by injection HK as <- <- <-.
  - destruct (poll_select f g c s) as [[b s1]|]; [|done]. by injection HK as <- <- <-.
  - by injection HK as <- <- <-.
Qed.

(** Each step of the schedule sees a choice of the run, or [idle] where nothing is
    awaited. *)
Definition follows (idle : Choice) (choices : list Choice) (i : nat) : list (nat * Choice) → Prop :=
  Forall (λ x, x.1 = i ∧ (x.2 = idle ∨ x.2 ∈ choices)).

Lemma pool_step_context {A : Type} (K : prog A → prog unit) c p s p' s' new i ts :
  context K → step c p s = Some (p', s', new) → ts !! i = Some (K p) →
  pool_step i c ts s = Some (<[i := K p']> ts ++ new, s').
Proof. intros HK Hstep Hi. unfold pool_step. by rewrite Hi, (HK _ _ _ _ _ _ Hstep). Qed.

Lemma schedule_cons {A : Type} idle (K : prog A → prog unit) p p' c choices choices' s s1 s' i ts X new :
  context K → step c p s = Some (p', s1, []) → ts !! i = Some (K p) →
  c = idle ∨ c ∈ choices' → choices ⊆ choices' →
  (∃ schedule, follows idle choices i schedule ∧
     run_pool schedule (<[i := K p']> ts) s1 = Some (<[i := X]> (<[i := K p']> ts) ++ new, s')) →
  ∃ schedule, follows idle choices' i schedule ∧ run_pool schedule ts s = Some (<[i := X]> ts ++ new, s').
Proof.
  intros HK Hstep Hi Hc Hsub (schedule & Hf & Hs). exists ((i, c) :: schedule). split.
  - constructor; [done|]. eapply Forall_impl; [exact Hf|]. intros x [? [?|?]]; auto.
  - simpl. rewrite (pool_step_context _ _ _ _ _ _ _ _ _ HK Hstep Hi), app_nil_r, Hs.
    by rewrite list_insert_insert_eq.
Qed.

Lemma run_to_pool {A : Type} idle (K : prog A → prog unit) (p : prog A) choices s a s' new i ts :
  context K → run p choices s = Some (a, s', new, []) → ts !! i = Some (K p) →
  ∃ schedule, follows idle choices i schedule ∧
    run_pool schedule ts s = Some (<[i := K (Ret a)]> ts ++ new, s').
Proof.
  intros HK. revert K HK choices s new ts.
  induction p as [A a'|A B f k IH|A B f k IH|A B C f g k IH|A p _ k IH|A];
    intros K HK choices s new ts Hrun Hi; simpl in Hrun;
    try (assert (Hnext : ∀ q, <[i := q]> ts !! i = Some q)
           by (intros q; apply list_lookup_insert_eq; by eapply lookup_lt_Some)).
  - simplify_eq. exists []. split; [by constructor|]. simpl. by rewrite list_insert_id, app_nil_r.
  - rewrite (surjective_pairing (f s)) in Hrun.
    eapply (schedule_cons idle K _ (k (f s).1) idle choices); [done| |done|by left|done|by eapply IH].
    simpl. by destruct (f s).
  - destruct choices as [|c rest]; [done|]. destruct (poll f c s) as [[b s1]|] eqn:Hp; [|done].
    eapply (schedule_cons idle K _ (k b) c rest); [done| |done|right; by left|set_solver|by eapply IH].
    simpl. by rewrite Hp.
  - destruct choices as [|c rest]; [done|]. destruct (poll_select f g c s) as [[b s1]|] eqn:Hp; [|done].
    eapply (schedule_cons idle K _ (k b) c rest); [done| |done|right; by left|set_solver|by eapply IH].
    simpl. by rewrite Hp.
  - destruct (run k choices s) as [[[[a1 s1] new1] rest]|] eqn:Hk; [|done]. injection Hrun as -> -> <- ->.
    assert (Hlen : i < length ts) by by eapply lookup_lt_Some.
    destruct (IH a K HK _ _ _ (<[i := K k]> ts ++ [p]) Hk) as (schedule & Hf & Hs).
    { by rewrite lookup_app_l by by rewrite length_insert. }
    exists ((i, idle) :: schedule). split; [by constructor; [split; [|left]|]|]. simpl.
    rewrite (pool_step_context K idle (Spawn p k) s k s [p] i ts HK eq_refl Hi), Hs.
    by rewrite insert_app_l, list_insert_insert_eq, <-app_assoc by by rewrite length_insert.
  - done.
Qed.

End Safety.
