(* ===== verification/Resources.v ===== *)
(** * Ownership for interleaved programs

    A judgement for claims that add up what all tasks of a pool hold: who still waits
    for an answer, who still owes one.  A task owns an element of a commutative monoid
    (class [Ghost]); an invariant relates the shared state to the composition of what
    all tasks own.  A step may change what its task owns as long as the invariant is
    kept whatever the other tasks own, so that the invariant holds along every
    interleaving ([pool_owns_run]).  A task that ends or waits in the background must
    own something that is allowed at rest.

    The file is generic; ClientLogic.v applies it to the client. *)

From S2P Require Import Prelude Engine.
From stdpp Require Import base gmap gmultiset list.

Class Ghost (M : Type) := {
  gempty : M;
  gcomp : M → M → M;
  #[global] gcomp_assoc :: Assoc (=) gcomp;
  #[global] gcomp_comm :: Comm (=) gcomp;
  #[global] gempty_left :: LeftId (=) gempty gcomp;
}.
Infix "⋅" := gcomp (at level 50, left associativity).

#[export] Instance gset_ghost `{Countable K} : Ghost (gset K) := {| gempty := ∅; gcomp := (∪) |}.

(** What at most one task may own. *)
Inductive excl (A : Type) := Free | Own (a : A) | Clash.
Arguments Free {A}.
Arguments Own {A} _.
Arguments Clash {A}.

#[export] Instance excl_ghost {A} : Ghost (excl A).
Proof.
  refine {| gempty := Free;
            gcomp x y := match x, y with Free, y => y | x, Free => x | _, _ => Clash end |}.
  - by intros [] [] [].
  - by intros [] [].
  - by intros [].
Defined.

#[export] Instance prod_ghost `{Ghost A, Ghost B} : Ghost (A * B).
Proof.
  refine {| gempty := (gempty, gempty); gcomp x y := (gcomp x.1 y.1, gcomp x.2 y.2) |}.
  - intros [] [] []. simpl. by rewrite !(assoc gcomp).
  - intros [] []. simpl. by rewrite (comm gcomp a), (comm gcomp b).
  - intros []. simpl. by rewrite !(left_id gempty gcomp).
Defined.

#[export] Instance gmultiset_ghost `{Countable K} : Ghost (gmultiset K) :=
  {| gempty := ∅; gcomp := (⊎) |}.

(** All of a list. *)
Definition gsum {M} `{Ghost M} (ms : list M) : M := foldr gcomp gempty ms.

Section Sums.
Context `{Ghost M}.
Implicit Types (m : M) (ms : list M).

#[global] Instance gempty_right : RightId (=) gempty gcomp.
Proof. intros m. by rewrite (comm gcomp), (left_id gempty gcomp). Qed.

Lemma gsum_app ms ms' : gsum (ms ++ ms') = gsum ms ⋅ gsum ms'.
Proof.
  induction ms as [|m ms IH]; simpl; [by rewrite (left_id gempty gcomp)|].
  by rewrite IH, (assoc gcomp).
Qed.

(** What one task owns, and what the others own. *)
Lemma gsum_lookup ms i m :
  ms !! i = Some m → ∃ F, gsum ms = m ⋅ F ∧ ∀ m', gsum (<[i := m']> ms) = m' ⋅ F.
Proof.
  intros Hi. exists (gsum (take i ms) ⋅ gsum (drop (S i) ms)).
  assert (Hin : ∀ m', gsum (take i ms ++ m' :: drop (S i) ms) =
            m' ⋅ (gsum (take i ms) ⋅ gsum (drop (S i) ms))).
  { intros m'. rewrite gsum_app. simpl. by rewrite !(assoc gcomp), (comm gcomp _ m'). }
  split.
  - by rewrite <-(take_drop_middle ms i m) at 1.
  - intros m'. rewrite insert_take_drop by (by eapply lookup_lt_Some). apply Hin.
Qed.
End Sums.

Section Ownership.
Context {St Choice : Type} {Ext : Type → Type} `{Externals St Choice Ext} {M : Type} `{Ghost M}.

Record discipline := mkDiscipline {
  inv : St → M → Prop;      (** the state against everything that is owned *)
  at_rest : M → Prop;       (** what a task may own while it has nothing to do *)
}.

Definition resting {B : Type} (f : fut (St := St) (Ext := Ext) B) : bool :=
  match f with FTake Answer _ => false | _ => true end.

(** A task that has ended or waits in the background: on the shared state, or, where
    it races two futures, on the outside. *)
Definition parked {A : Type} (p : prog (St := St) (Ext := Ext) A) : bool :=
  match p with
  | Ret _ | Await (FTake Background _) _ => true
  | Select f _ _ => resting f
  | _ => false
  end.

(** [owns π p m Q]: [p], owning [m], keeps the invariant of [π] at every step, and owns
    something that satisfies [Q] when it returns. *)
Fixpoint owns {A : Type} (π : discipline) (p : prog (St := St) (Ext := Ext) A) (m : M)
    (Q : A → M → Prop) {struct p} : Prop :=
  match p with
  | Ret a => Q a m
  | Atomic f k =>
      ∀ s F, inv π s (m ⋅ F) → ∃ m', inv π (f s).2 (m' ⋅ F) ∧ owns π (k (f s).1) m' Q
  | Await f k =>
      (match f with FTake Background _ => at_rest π m | _ => True end) ∧
      ∀ s c b s' F, poll f c s = Some (b, s') → inv π s (m ⋅ F) →
        ∃ m', inv π s' (m' ⋅ F) ∧ owns π (k b) m' Q
  | Select f g k =>
      (resting f = true → at_rest π m) ∧
      ∀ s c b s' F, poll_select f g c s = Some (b, s') → inv π s (m ⋅ F) →
        ∃ m', inv π s' (m' ⋅ F) ∧ owns π (k b) m' Q
  | Spawn p k =>
      ∃ m1 m2, m = m1 ⋅ m2 ∧ owns π p m1 (λ _, at_rest π) ∧ owns π k m2 Q
  | OutOfFuel => True
  end.

Implicit Types π : discipline.

Lemma owns_mono {A : Type} π (p : prog A) m (Q Q' : A → M → Prop) :
  (∀ a m, Q a m → Q' a m) → owns π p m Q → owns π p m Q'.
Proof.
  revert m Q Q'. induction p as [A a|A B f k IH|A B f k IH|A B C f g k IH|A p _ k IH|A];
    intros m Q Q' HQ; simpl; eauto.
  - intros Hp s F Hi. destruct (Hp s F Hi) as (m' & ? & ?). eauto.
  - intros [? Hp]. split; [done|]. intros s c b s' F Hpo Hi.
    destruct (Hp s c b s' F Hpo Hi) as (m' & ? & ?). eauto.
  - intros [? Hp]. split; [done|]. intros s c b s' F Hpo Hi.
    destruct (Hp s c b s' F Hpo Hi) as (m' & ? & ?). eauto.
  - intros (m1 & m2 & ? & ? & ?). exists m1, m2. eauto.
Qed.

Lemma owns_bind {A B : Type} π (p : prog A) (k : A → prog B) m (R : A → M → Prop) (Q : B → M → Prop) :
  owns π p m R → (∀ a m', R a m' → owns π (k a) m' Q) → owns π (bind p k) m Q.
Proof.
  revert m k R. induction p as [A a|A C f k' IH|A C f k' IH|A C D f g k' IH|A p _ k' IH|A];
    intros m k R Hp Hk; revert Hp; simpl; eauto.
  - intros Hp s F Hi. destruct (Hp s F Hi) as (m' & ? & ?). eauto.
  - intros [? Hp]. split; [done|]. intros s c b s' F Hpo Hi.
    destruct (Hp s c b s' F Hpo Hi) as (m' & ? & ?). eauto.
  - intros [? Hp]. split; [done|]. intros s c b s' F Hpo Hi.
    destruct (Hp s c b s' F Hpo Hi) as (m' & ? & ?). eauto.
  - intros (m1 & m2 & ? & ? & ?). exists m1, m2. eauto.
Qed.

(** A task that is given nothing. *)
Lemma owns_spawn {A : Type} π (p : prog unit) (k : prog A) m Q :
  owns π p gempty (λ _, at_rest π) → owns π k m Q → owns π (Spawn p k) m Q.
Proof. intros Hp Hk. exists gempty, m. by rewrite (left_id gempty gcomp). Qed.

(** Steps that keep the invariant whoever owns what leave ownership alone. *)
Lemma owns_steps_in {A : Type} π G (p : prog A) m :
  (∀ s s' m, G s s' → inv π s m → inv π s' m) → at_rest π gempty → at_rest π m →
  steps_in (λ _, True) G p → owns π p m (λ _ m', m' = m).
Proof.
  intros HG Hr. revert m.
  induction p as [A a|A B f k IH|A B f k IH|A B C f g k IH|A p IHp k IH|A];
    simpl; intros m Hm Hp; try done.
  - intros s F Hi. destruct (Hp s). eauto.
  - split; [by destruct f as [[]|]|]. intros s c b s' F Hpo Hi. destruct (Hp s c b s' I Hpo). eauto.
  - split; [done|]. intros s c b s' F Hpo Hi. destruct (Hp s c b s' I Hpo). eauto.
  - destruct Hp as [Hp ?]. apply owns_spawn; [|eauto].
    eapply owns_mono; [|by eapply IHp]. by intros ? ? ->.
Qed.

(** Waiting for the outside is possible while owning something. *)
Lemma owns_await_ext {B : Type} π (e : Ext B) m :
  (∀ c s b s' F, poll_ext e c s = Some (b, s') → inv π s F → inv π s' F) →
  owns π (Await (FExt e) Ret) m (λ _ m', m' = m).
Proof. intros He. split; [done|]. intros s c b s' F Hp Hi. exists m. split; [|done]. by eapply He. Qed.

(** Where anything is allowed at rest, a task may own more than its steps need. *)
Lemma owns_frame {A : Type} π (p : prog A) m R (Q : A → M → Prop) :
  (∀ m, at_rest π m) → owns π p m Q →
  owns π p (m ⋅ R) (λ a m', ∃ m0, m' = m0 ⋅ R ∧ Q a m0).
Proof.
  intros Hr. revert m Q.
  induction p as [A a|A B f k IH|A B f k IH|A B C f g k IH|A p _ k IH|A];
    intros m Q; simpl; try by eauto.
  - intros Hp s F Hi. rewrite <-(assoc gcomp) in Hi.
    destruct (Hp _ _ Hi) as (m' & Hi' & ?). rewrite (assoc gcomp) in Hi'. eauto.
  - intros [_ Hp]. split; [destruct f as [[]|]; eauto|]. intros s c b s' F Hpo Hi.
    rewrite <-(assoc gcomp) in Hi. destruct (Hp _ _ _ _ _ Hpo Hi) as (m' & Hi' & ?).
    rewrite (assoc gcomp) in Hi'. eauto.
  - intros [_ Hp]. split; [eauto|]. intros s c b s' F Hpo Hi.
    rewrite <-(assoc gcomp) in Hi. destruct (Hp _ _ _ _ _ Hpo Hi) as (m' & Hi' & ?).
    rewrite (assoc gcomp) in Hi'. eauto.
  - intros (m1 & m2 & -> & ? & ?). exists m1, (m2 ⋅ R). rewrite (assoc gcomp). eauto.
Qed.

(** ** Pools *)

Definition task_owns π (p : prog unit) (m : M) : Prop := owns π p m (λ _, at_rest π).

Definition pool_owns π (ts : list (prog unit)) (s : St) : Prop :=
  ∃ ms, Forall2 (task_owns π) ts ms ∧ inv π s (gsum ms).

Lemma gsum_empties (ts : list (prog (St := St) (Ext := Ext) unit)) :
  gsum ((λ _, gempty) <$> ts : list M) = gempty.
Proof. induction ts; simpl; [done|]. by rewrite (left_id gempty gcomp). Qed.

Lemma step_owns π (p : prog unit) m c s p' s' new F :
  task_owns π p m → step c p s = Some (p', s', new) → inv π s (m ⋅ F) →
  ∃ m' ms, inv π s' (m' ⋅ gsum ms ⋅ F) ∧ task_owns π p' m' ∧ Forall2 (task_owns π) new ms.
Proof.
  unfold task_owns. destruct p as [a|B f k|B f k|B C f g k|p k|]; simpl; intros Ho Hs Hi; try done.
  - destruct (Ho s F Hi) as (m' & ? & ?). destruct (f s) as [b s1]. simplify_eq/=.
    exists m', []. simpl. by rewrite (right_id gempty gcomp).
  - destruct Ho as [_ Ho]. destruct (poll f c s) as [[b s1]|] eqn:Hp; simplify_eq/=.
    destruct (Ho _ _ _ _ _ Hp Hi) as (m' & ? & ?). exists m', []. simpl. by rewrite (right_id gempty gcomp).
  - destruct Ho as [_ Ho]. destruct (poll_select f g c s) as [[b s1]|] eqn:Hp; simplify_eq/=.
    destruct (Ho _ _ _ _ _ Hp Hi) as (m' & ? & ?). exists m', []. simpl. by rewrite (right_id gempty gcomp).
  - destruct Ho as (m1 & m2 & -> & ? & ?). simplify_eq/=. exists m2, [m1]. simpl.
    rewrite (right_id gempty gcomp), (comm gcomp m2). auto.
Qed.

Lemma pool_owns_step π i c ts s ts' s' :
  pool_owns π ts s → pool_step i c ts s = Some (ts', s') → pool_owns π ts' s'.
Proof.
  intros (ms & Hms & Hi) Hs. unfold pool_step in Hs.
  destruct (ts !! i) as [p|] eqn:Hp; [|done].
  destruct (step c p s) as [[[p' s1] new]|] eqn:Hstep; simplify_eq/=.
  destruct (Forall2_lookup_l _ _ _ _ _ Hms Hp) as (m & Hm & Ho).
  destruct (gsum_lookup _ _ _ Hm) as (F & HF & HF'). rewrite HF in Hi.
  destruct (step_owns _ _ _ _ _ _ _ _ _ Ho Hstep Hi) as (m' & msn & Hi' & Ho' & Hnew).
  exists (<[i := m']> ms ++ msn). split; [by apply Forall2_app; [apply Forall2_insert|]|].
  by rewrite gsum_app, HF', <-(assoc gcomp), (comm gcomp F), (assoc gcomp).
Qed.

Lemma pool_owns_run π schedule ts s ts' s' :
  pool_owns π ts s → run_pool schedule ts s = Some (ts', s') → pool_owns π ts' s'.
Proof.
  revert ts s. induction schedule as [|[i c] rest IH]; simpl; intros ts s Ho Hr; [by simplify_eq|].
  destruct (pool_step i c ts s) as [[ts1 s1]|] eqn:Hs; [|done].
  apply (IH ts1 s1); [by eapply pool_owns_step|done].
Qed.

(** Where nothing may be owned at rest, a pool at rest owns nothing. *)
Lemma pool_parked π ts s :
  (∀ m, at_rest π m → m = gempty) → pool_owns π ts s → forallb parked ts = true → inv π s gempty.
Proof.
  intros Hr (ms & Hms & Hi) Hp. enough (gsum ms = gempty) as <- by done.
  clear Hi. induction Hms as [|p m ts ms Ho _ IH]; simpl; [done|].
  apply andb_prop in Hp as [Hp Hts]. rewrite (IH Hts), (right_id gempty gcomp). apply Hr.
  unfold task_owns in Ho. destruct p as [| |? [[]|]| | |]; simpl in *; try done; naive_solver.
Qed.

(** A pool that starts with nothing owned. *)
Lemma pool_owns_start π ts s :
  Forall (λ t, task_owns π t gempty) ts → inv π s gempty → pool_owns π ts s.
Proof.
  intros Hts Hi. exists ((λ _, gempty) <$> ts). split; [by apply Forall2_fmap_r, Forall_Forall2_diag|].
  by rewrite gsum_empties.
Qed.

End Ownership.

Arguments mkDiscipline {St M} _ _.
Arguments inv {St M} _ _ _.
Arguments at_rest {St M} _ _.
