(* ===== verification/Client.v ===== *)
(** * The client engine

    [src/src/client.rs] with the traits of [src/src/action.rs] and
    [src/src/transport.rs]: the state shared by all clones of a [Client], and one
    program per method and background task.  The transport, the timer, the reconnector
    and the identifier generator answer through choices; every use of the transport's
    write half, every event received, every completed delay and every dial, and the
    moment the client is shut down are recorded in [log], which no program reads. *)

From S2P Require Import Prelude Time Sync Envelope Platform ProtocolErrors Reconnect Keepalive Engine.
From stdpp Require Import base gmap strings list pretty.

Local Open Scope string_scope.

(** ** Transport interface *)

Inductive TransportEvent :=
| Frame (frame : string)
| Ping (payload : list byte)
| Pong (payload : list byte).

(** The calls of [TransportSink]. *)
Inductive SinkOp :=
| SinkSend (frame : string)
| SinkPing (payload : list byte)
| SinkPong (payload : list byte)
| SinkClose.

Inductive LogEntry :=
| LSink (conn : nat) (op : SinkOp) (ok : bool)
| LRecv (event : TransportEvent)
| LDelay (d : Duration)
| LDial (ok : bool)
| LClosed.

Inductive LoopExit := Eof | Forced | Shutdown.

(** [runtime::Elapsed] and [runtime::Cancelled]. *)
Inductive Elapsed_t := Elapsed.
Inductive Cancelled_t := Cancelled.

Section Client.
Context {SM : SignalModel} {UM : UuidModel} {SJ : SerdeJson} {E : Type} {PE : ProtocolError E} {TErr : Type}.

(** ** Actions *)

(** The [Action] trait: the wire name, the types, and the [serde] conversions the
    types bring with them. *)
Record Action := mkAction {
  NAME : string;
  Request : Type;
  Response : Type;
  ser_request : Request → result Value JsonError;
  de_request : Value → result Request JsonError;
  ser_response : Response → result Value JsonError;
  de_response : Value → result Response JsonError;
}.

(** The [SendAction] trait. *)
Record SendAction := mkSendAction {
  SEND_NAME : string;
  Payload : Type;
  ser_payload : Payload → result Value JsonError;
  de_payload : Value → result Payload JsonError;
}.

(** ** State *)

Record PongState := mkPongState {
  next_token : Z;
  waiters : Table Z (OneShot unit);
}.

(** The fields of [Client] that are shared and change.  A transport's write half is
    named by the connection it belongs to. *)
Record Client := mkClient {
  sink : nat;
  pending_responses : Table Uuid (OneShot (result Value E));
  request_senders : Table string (Chan (string * Value));
  notification_senders : Table string (Chan Value);
  pong_waiters : PongState;
  ping_registry : BroadcastRegistry;
  reconnect_registry : BroadcastRegistry;
  keepalive : KeepaliveState;
  force_reconnect_signal : Notify;
  closed : bool;
  log : list LogEntry;
}.

Definition set_sink v (s : Client) := mkClient v (pending_responses s) (request_senders s)
  (notification_senders s) (pong_waiters s) (ping_registry s) (reconnect_registry s)
  (keepalive s) (force_reconnect_signal s) (closed s) (log s).
Definition set_pending v (s : Client) := mkClient (sink s) v (request_senders s)
  (notification_senders s) (pong_waiters s) (ping_registry s) (reconnect_registry s)
  (keepalive s) (force_reconnect_signal s) (closed s) (log s).
Definition set_requests v (s : Client) := mkClient (sink s) (pending_responses s) v
  (notification_senders s) (pong_waiters s) (ping_registry s) (reconnect_registry s)
  (keepalive s) (force_reconnect_signal s) (closed s) (log s).
Definition set_notifications v (s : Client) := mkClient (sink s) (pending_responses s)
  (request_senders s) v (pong_waiters s) (ping_registry s) (reconnect_registry s)
  (keepalive s) (force_reconnect_signal s) (closed s) (log s).
Definition set_pongs v (s : Client) := mkClient (sink s) (pending_responses s)
  (request_senders s) (notification_senders s) v (ping_registry s) (reconnect_registry s)
  (keepalive s) (force_reconnect_signal s) (closed s) (log s).
Definition set_ping_registry v (s : Client) := mkClient (sink s) (pending_responses s)
  (request_senders s) (notification_senders s) (pong_waiters s) v (reconnect_registry s)
  (keepalive s) (force_reconnect_signal s) (closed s) (log s).
Definition set_reconnect_registry v (s : Client) := mkClient (sink s) (pending_responses s)
  (request_senders s) (notification_senders s) (pong_waiters s) (ping_registry s) v
  (keepalive s) (force_reconnect_signal s) (closed s) (log s).
Definition set_keepalive v (s : Client) := mkClient (sink s) (pending_responses s)
  (request_senders s) (notification_senders s) (pong_waiters s) (ping_registry s)
  (reconnect_registry s) v (force_reconnect_signal s) (closed s) (log s).
Definition set_force v (s : Client) := mkClient (sink s) (pending_responses s)
  (request_senders s) (notification_senders s) (pong_waiters s) (ping_registry s)
  (reconnect_registry s) (keepalive s) v (closed s) (log s).
Definition set_closed v (s : Client) := mkClient (sink s) (pending_responses s)
  (request_senders s) (notification_senders s) (pong_waiters s) (ping_registry s)
  (reconnect_registry s) (keepalive s) (force_reconnect_signal s) v (log s).
Definition add_log e (s : Client) := mkClient (sink s) (pending_responses s)
  (request_senders s) (notification_senders s) (pong_waiters s) (ping_registry s)
  (reconnect_registry s) (keepalive s) (force_reconnect_signal s) (closed s) (log s ++ [e]).

(** ** External futures *)

Inductive Ext : Type → Type :=
| NewV4 : Ext Uuid
| Sink (op : SinkOp) : Ext (result unit TErr)
| Recv (conn : nat) : Ext (result (option TransportEvent) TErr)
| Delay (d : Duration) : Ext unit
| Dial : Ext (result nat TErr).

Inductive Choice :=
| CUuid (u : Uuid)
| CSink (r : result unit TErr)
| CRecv (r : result (option TransportEvent) TErr)
| CTimer
| CDial (r : result nat TErr).

(** A call on the write half locks it, acts on the transport installed at that moment,
    and reports what the transport reported. *)
#[global] Instance client_externals : Externals Client Choice Ext := λ B e c s,
  match e in Ext B return option (B * Client) with
  | NewV4 => match c with CUuid u => Some (u, s) | _ => None end
  | Sink op =>
      match c with CSink r => Some (r, add_log (LSink (sink s) op (is_ok r)) s) | _ => None end
  | Recv _ =>
      match c with
      | CRecv r => Some (r, match r with Ok (Some event) => add_log (LRecv event) s | _ => s end)
      | _ => None
      end
  | Delay d => match c with CTimer => Some (tt, add_log (LDelay d) s) | _ => None end
  | Dial => match c with CDial r => Some (r, add_log (LDial (is_ok r)) s) | _ => None end
  end.

Abbreviation cprog A := (prog (St := Client) (Ext := Ext) A).
Abbreviation cfut A := (fut (St := Client) (Ext := Ext) A).

Local Open Scope prog_scope.

Definition atomic {B} (f : Client → B * Client) : cprog B := Atomic f Ret.
Definition modify (f : Client → Client) : cprog unit := Atomic (λ s, (tt, f s)) Ret.
Definition await {B} (f : cfut B) : cprog B := Await f Ret.

(** A panic ends its task. *)
Definition panic {A} : cprog A := OutOfFuel.

(** ** [src/src/runtime.rs] *)

Definition with_cancel {B C} (fut : cfut B) (cancel : cfut C) : cprog (result B Cancelled_t) :=
  Select fut cancel (λ r, match r with inl b => Ret (Ok b) | inr _ => Ret (Err Cancelled) end).

Definition with_timeout {B} (duration : Duration) (fut : cfut B) : cprog (result B Elapsed_t) :=
  Select fut (FExt (Delay duration))
    (λ r, match r with inl b => Ret (Ok b) | inr _ => Ret (Err Elapsed) end).

(** ** Futures on the shared state *)

Definition oneshot_fut {K V} `{Countable K} (get : Client → Table K (OneShot V))
    (set : Table K (OneShot V) → Client → Client) (h : nat) : cfut V :=
  FTake Answer (λ s,
    match cells (get s) !! h with
    | Some o =>
        match oneshot_poll_wait o with
        | Some (v, o') => Some (v, set (table_update h (λ _, o') (get s)) s)
        | None => None
        end
    | None => None
    end).

Definition response_wait (h : nat) : cfut (result Value E) :=
  oneshot_fut pending_responses set_pending h.

Definition pong_wait (h : nat) : cfut unit :=
  oneshot_fut (λ s, waiters (pong_waiters s))
    (λ t s, set_pongs (mkPongState (next_token (pong_waiters s)) t) s) h.

Definition force_wait : cfut unit :=
  FTake Background (λ s, match notify_poll_wait (force_reconnect_signal s) with
              | Some (u, n) => Some (u, set_force n s)
              | None => None
              end).

Definition changed_wait : cfut unit :=
  FTake Background (λ s, match notify_poll_wait (changed (keepalive s)) with
              | Some (u, n) =>
                  Some (u, set_keepalive (mkKeepaliveState (interval_millis (keepalive s)) n
                                            (policy (keepalive s))) s)
              | None => None
              end).

(** [Chan::recv] as a future: it is ready once its channel has a value or is closed
    and drained. *)
Definition chan_fut {T} (get : Client → Table string (Chan T))
    (set : Table string (Chan T) → Client → Client) (h : nat) : cfut (option T) :=
  FTake Background (λ s,
    match cells (get s) !! h with
    | Some c =>
        match chan_check c with
        | Some (v, c') => Some (v, set (table_update h (λ _, c') (get s)) s)
        | None => None
        end
    | None => None
    end).

Definition request_recv (h : nat) : cfut (option (string * Value)) :=
  chan_fut request_senders set_requests h.
Definition notification_recv (h : nat) : cfut (option Value) :=
  chan_fut notification_senders set_notifications h.

Definition registry_wait (get : Client → BroadcastRegistry)
    (set : BroadcastRegistry → Client → Client) (i : nat) : cfut unit :=
  FTake Background (λ s,
    match get s !! i with
    | Some sg =>
        match signal_try_take sg with
        | Some (u, sg') => Some (u, set (<[i := sg']> (get s)) s)
        | None => None
        end
    | None => None
    end).

(** ** Small operations *)

Definition is_closed : cprog bool := atomic (λ s, (closed s, s)).

Definition new_v4 : cprog Uuid := await (FExt NewV4).

(** [self.sink.lock().await] followed by one call on it. *)
Definition sink_call (op : SinkOp) : cprog (result unit TErr) := await (FExt (Sink op)).

(** A new [OneShot] stored under [message_id]; it is private until the entry exists. *)
Definition insert_pending (message_id : Uuid) : cprog nat :=
  atomic (λ s,
    let '(h, t) := table_insert message_id oneshot_new (pending_responses s) in
    (h, set_pending t s)).

Definition forget_pending (message_id : Uuid) : cprog unit :=
  modify (λ s, set_pending (table_remove message_id (pending_responses s)) s).

(** [lock.remove(&id)] and, if there was an entry, [sender.send(outcome)]. *)
Definition settle_pending (id : Uuid) (outcome : result Value E) (s : Client) : Client :=
  match entries (pending_responses s) !! id with
  | Some h =>
      set_pending (table_update h (oneshot_send outcome) (table_remove id (pending_responses s))) s
  | None => s
  end.

Definition resolve_pending (id : Uuid) (outcome : result Value E) : cprog unit :=
  modify (settle_pending id outcome).

(** ** [do_send_request], [call] *)

Definition do_send_request {P R} (to_value : P → result Value JsonError)
    (from_value : Value → result R JsonError) (timeout : Duration) (request : P) (action : string) :
    cprog (result R (ClientError E JsonError TErr)) :=
  let! c := is_closed in
  if c then Ret (Err Closed)
  else
    let! message_id := new_v4 in
    match to_value request with
    | Err e => Ret (Err (Decode e))
    | Ok payload =>
        let call := mkRawCall MESSAGE_TYPE_CALL (uuid_to_string message_id) action payload in
        match to_string (ser_RawCall call) with
        | Err e => Ret (Err (Decode e))
        | Ok frame =>
            let! waiter := insert_pending message_id in
            let! sent := sink_call (SinkSend frame) in
            match sent with
            | Err err =>
                do! forget_pending message_id in
                Ret (Err (Transport err))
            | Ok _ =>
                let! r := with_timeout timeout (response_wait waiter) in
                match r with
                | Err Elapsed =>
                    do! forget_pending message_id in
                    Ret (Err Timeout)
                | Ok (Ok value) => Ret (map_err Decode (from_value value))
                | Ok (Err e) => Ret (Err (Protocol e))
                end
            end
        end
    end.

Definition call (timeout : Duration) (A : Action) (request : Request A) :
    cprog (result (Response A) (ClientError E JsonError TErr)) :=
  do_send_request (ser_request A) (de_response A) timeout request (NAME A).

(** ** [do_send_response] *)

(** The frame a handler's outcome is answered with; [None] if it cannot be encoded. *)
Definition response_frame {R} (to_value : R → result Value JsonError) (response : result R E)
    (message_id : string) : option string :=
  match response with
  | Ok r =>
      match to_value r with
      | Ok value =>
          match to_string (ser_RawResult (mkRawResult MESSAGE_TYPE_RESULT message_id value)) with
          | Ok frame => Some frame
          | Err _ => None
          end
      | Err _ => None
      end
  | Err e =>
      match to_string (ser_RawError (mkRawError MESSAGE_TYPE_ERROR message_id (code e)
                                       (description e) (details e))) with
      | Ok frame => Some frame
      | Err _ => None
      end
  end.

Definition do_send_response {R} (to_value : R → result Value JsonError) (response : result R E)
    (message_id : string) : cprog unit :=
  match response_frame to_value response message_id with
  | Some frame => do! sink_call (SinkSend frame) in Ret tt
  | None => Ret tt
  end.

(** ** [on], [wait_for] *)

(** A new channel registered under [name], under the lock; the channel it replaces is
    closed. *)
Definition register_chan {T} (name : string) (t : Table string (Chan T)) :
    nat * Table string (Chan T) :=
  let previous := entries t !! name in
  let '(h, t') := table_insert name chan_new t in
  match previous with
  | Some p => (h, table_update p chan_close t')
  | None => (h, t')
  end.

Definition register_request (name : string) : cprog nat :=
  atomic (λ s, let '(h, t) := register_chan name (request_senders s) in (h, set_requests t s)).

Definition register_notification (name : string) : cprog nat :=
  atomic (λ s,
    let '(h, t) := register_chan name (notification_senders s) in (h, set_notifications t s)).

(** The body of the handler task's loop, for one received CALL. *)
Definition handle_call (A : Action) (callback : Request A → cprog (result (Response A) E))
    (message_id : string) (payload : Value) : cprog unit :=
  match de_request A payload with
  | Ok request =>
      let! response := callback request in
      do_send_response (ser_response A) response message_id
  | Err _ =>
      let error := not_implemented ("Failed to parse payload for " ++ NAME A) in
      do_send_response (ser_response A) (Err error) message_id
  end.

(** [while let Some(..) = chan.recv().await]. *)
Fixpoint handler_loop (fuel : nat) (A : Action)
    (callback : Request A → cprog (result (Response A) E)) (chan : nat) : cprog unit :=
  match fuel with
  | O => OutOfFuel
  | S fuel =>
      let! item := await (request_recv chan) in
      match item with
      | Some (message_id, payload) =>
          do! handle_call A callback message_id payload in
          handler_loop fuel A callback chan
      | None => Ret tt
      end
  end.

Definition on (fuel : nat) (A : Action)
    (callback : Request A → cprog (result (Response A) E)) : cprog unit :=
  let! chan := register_request (NAME A) in
  Spawn (handler_loop fuel A callback chan) (Ret tt).

(** [wait_for]'s last step: the registration is removed only if it is still ours. *)
Definition deregister_own (name : string) (chan : nat) : cprog unit :=
  modify (λ s,
    match entries (request_senders s) !! name with
    | Some current =>
        if decide (current = chan)
        then set_requests (table_remove name (request_senders s)) s else s
    | None => s
    end).

Definition wait_for (timeout : Duration) (A : Action)
    (callback : Request A → cprog (result (Response A) E)) :
    cprog (result (Request A) (ClientError E JsonError TErr)) :=
  let! chan := register_request (NAME A) in
  let! r := with_timeout timeout (request_recv chan) in
  let! outcome :=
    match r with
    | Ok (Some (message_id, payload)) =>
        match de_request A payload with
        | Ok for_callback =>
            let! response := callback for_callback in
            do! do_send_response (ser_response A) response message_id in
            Ret (map_err Decode (de_request A payload))
        | Err err => Ret (Err (Decode err))
        end
    | Ok None => Ret (Err Closed)
    | Err Elapsed => Ret (Err Timeout)
    end in
  do! deregister_own (NAME A) chan in
  Ret outcome.

(** ** [send_notification], [on_notification] *)

Definition send_notification (A : SendAction) (payload : Payload A) :
    cprog (result unit (ClientError E JsonError TErr)) :=
  let! c := is_closed in
  if c then Ret (Err Closed)
  else
    let! message_id := new_v4 in
    match ser_payload A payload with
    | Err e => Ret (Err (Decode e))
    | Ok payload =>
        let send := mkRawSend MESSAGE_TYPE_SEND (uuid_to_string message_id) (SEND_NAME A) payload in
        match to_string (ser_RawSend send) with
        | Err e => Ret (Err (Decode e))
        | Ok frame =>
            let! r := sink_call (SinkSend frame) in
            Ret (map_err Transport r)
        end
    end.

Fixpoint notification_loop (fuel : nat) (A : SendAction) (callback : Payload A → cprog unit)
    (chan : nat) : cprog unit :=
  match fuel with
  | O => OutOfFuel
  | S fuel =>
      let! item := await (notification_recv chan) in
      match item with
      | Some payload =>
          do! match de_payload A payload with
              | Ok payload => callback payload
              | Err _ => Ret tt
              end in
          notification_loop fuel A callback chan
      | None => Ret tt
      end
  end.

Definition on_notification (fuel : nat) (A : SendAction) (callback : Payload A → cprog unit) :
    cprog unit :=
  let! chan := register_notification (SEND_NAME A) in
  Spawn (notification_loop fuel A callback chan) (Ret tt).

(** ** Pings *)

Definition token_bytes (token : Z) : list byte := be_bytes 8 token.

(** Under one lock: take the next token, advance the counter, store the waiter. *)
Definition insert_ping_state (s : Client) : (Z * nat) * Client :=
  let p := pong_waiters s in
  let token := next_token p in
  let '(h, t) := table_insert token oneshot_new (waiters p) in
  ((token, h), set_pongs (mkPongState (u64_wrapping_add token 1) t) s).

Definition insert_ping : cprog (Z * nat) := atomic insert_ping_state.

Definition forget_ping (token : Z) : cprog unit :=
  modify (λ s,
    let p := pong_waiters s in
    set_pongs (mkPongState (next_token p) (table_remove token (waiters p))) s).

Definition send_ping_with_timeout (timeout : Duration) :
    cprog (result unit (ClientError E JsonError TErr)) :=
  let! c := is_closed in
  if c then Ret (Err Closed)
  else
    let! registered := insert_ping in
    let token := registered.1 in
    let waiter := registered.2 in
    let! sent := sink_call (SinkPing (token_bytes token)) in
    match sent with
    | Err err =>
        do! forget_ping token in
        Ret (Err (Transport err))
    | Ok _ =>
        let! r := with_timeout timeout (pong_wait waiter) in
        match r with
        | Ok _ => Ret (Ok tt)
        | Err Elapsed =>
            do! forget_ping token in
            Ret (Err Timeout)
        end
    end.

Definition send_ping (timeout : Duration) : cprog (result unit (ClientError E JsonError TErr)) :=
  send_ping_with_timeout timeout.

Definition pending_request_count (s : Client) : nat := size (entries (pending_responses s)).
Definition pending_ping_count (s : Client) : nat := size (entries (waiters (pong_waiters s))).

(** ** Keepalive interval, forced reconnect, subscriptions *)

Definition ping_interval : cprog (option Duration) := atomic (λ s, (interval (keepalive s), s)).

Definition set_ping_interval (i : option Duration) : cprog unit :=
  modify (λ s, set_keepalive (set_ping_interval_state i (keepalive s)) s).

Definition force_reconnect : cprog unit :=
  let! c := is_closed in
  if c then Ret tt
  else modify (λ s, set_force (notify_notify (force_reconnect_signal s)) s).

Fixpoint subscriber_loop (fuel : nat) (wait : cfut unit) (callback : cprog unit) : cprog unit :=
  match fuel with
  | O => OutOfFuel
  | S fuel =>
      do! await wait in
      do! callback in
      subscriber_loop fuel wait callback
  end.

Definition on_ping (fuel : nat) (callback : cprog unit) : cprog unit :=
  let! i := atomic (λ s, let '(i, r) := subscribe (ping_registry s) in (i, set_ping_registry r s)) in
  Spawn (subscriber_loop fuel (registry_wait ping_registry set_ping_registry i) callback) (Ret tt).

Definition on_reconnect (fuel : nat) (callback : cprog unit) : cprog unit :=
  let! i := atomic (λ s,
    let '(i, r) := subscribe (reconnect_registry s) in (i, set_reconnect_registry r s)) in
  Spawn (subscriber_loop fuel (registry_wait reconnect_registry set_reconnect_registry i) callback)
    (Ret tt).

(** ** [disconnect] *)

Definition disconnect : cprog (result unit (ClientError E JsonError TErr)) :=
  let! was_closed := atomic (λ s,
    (closed s, if closed s then s else add_log LClosed (set_closed true s))) in
  if was_closed then Ret (Ok tt)
  else
    do! modify (λ s, set_force (notify_notify (force_reconnect_signal s)) s) in
    do! modify (λ s, set_keepalive (notify_changed (keepalive s)) s) in
    let! r := sink_call SinkClose in
    Ret (map_err Transport r).

(** ** [keepalive_loop] *)

(** One turn of the loop: [None] if the task returns, otherwise the number of
    consecutive misses carried to the next turn. *)
Definition keepalive_turn (allowed : Z) (ping_timeout : Duration) (missed : Z) : cprog (option Z) :=
  let! c := is_closed in
  if c then Ret None
  else
    let! i := ping_interval in
    match i with
    | None =>
        do! await changed_wait in
        Ret (Some 0%Z)
    | Some interval =>
        let! r := with_timeout interval changed_wait in
        match r with
        | Ok _ => Ret (Some 0%Z)
        | Err Elapsed =>
            let! c := is_closed in
            if c then Ret None
            else
              let! i := ping_interval in
              match i with
              | None => Ret (Some missed)
              | Some _ =>
                  let! p := send_ping_with_timeout ping_timeout in
                  match p with
                  | Ok _ => Ret (Some 0%Z)
                  | Err _ =>
                      let missed := u32_saturating_add missed 1 in
                      if bool_decide (allowed ≤ missed)%Z then
                        do! force_reconnect in
                        Ret (Some 0%Z)
                      else Ret (Some missed)
                  end
              end
        end
    end.

Fixpoint keepalive_loop (fuel : nat) (allowed : Z) (ping_timeout : Duration) (missed : Z) :
    cprog unit :=
  match fuel with
  | O => OutOfFuel
  | S fuel =>
      let! next := keepalive_turn allowed ping_timeout missed in
      match next with
      | None => Ret tt
      | Some missed => keepalive_loop fuel allowed ping_timeout missed
      end
  end.

(** ** [handle_frame] *)

(** [sender.send(..)]: the value is queued under the channel's lock, then its receiver
    is signalled. *)
Definition request_send (chan : nat) (item : string * Value) : cprog unit :=
  do! modify (λ s, set_requests (table_update chan (chan_push item) (request_senders s)) s) in
  modify (λ s, set_requests (table_update chan chan_wake (request_senders s)) s).

Definition notification_send (chan : nat) (item : Value) : cprog unit :=
  do! modify (λ s, set_notifications (table_update chan (chan_push item) (notification_senders s)) s) in
  modify (λ s, set_notifications (table_update chan chan_wake (notification_senders s)) s).

Definition handle_CALL (frame : string) : cprog unit :=
  match from_str_as de_RawCall frame with
  | None => Ret tt
  | Some call =>
      let action := call_action call in
      let! sender := atomic (λ s, (entries (request_senders s) !! action, s)) in
      match sender with
      | Some sender => request_send sender (call_id call, call_payload call)
      | None =>
          let error : E := not_implemented ("Action '" ++ action ++ "' is not implemented") in
          let payload := mkRawError MESSAGE_TYPE_ERROR (call_id call) (code error)
                           (description error) (details error) in
          match to_string (ser_RawError payload) with
          | Ok frame => do! sink_call (SinkSend frame) in Ret tt
          | Err _ => Ret tt
          end
      end
  end.

Definition handle_RESULT (frame : string) : cprog unit :=
  match from_str_as de_RawResult frame with
  | None => Ret tt
  | Some result =>
      match uuid_parse_str (result_id result) with
      | None => Ret tt
      | Some id => resolve_pending id (Ok (result_payload result))
      end
  end.

Definition handle_ERROR (frame : string) : cprog unit :=
  match from_str_as de_RawError frame with
  | None => Ret tt
  | Some error =>
      match uuid_parse_str (error_id error) with
      | None => Ret tt
      | Some id =>
          resolve_pending id
            (Err (from_wire (error_code error) (error_description error) (error_details error)))
      end
  end.

Definition handle_SEND (frame : string) : cprog unit :=
  match from_str_as de_RawSend frame with
  | None => Ret tt
  | Some send =>
      let! sender := atomic (λ s, (entries (notification_senders s) !! send_action send, s)) in
      match sender with
      | Some sender => notification_send sender (send_payload send)
      | None => Ret tt
      end
  end.

Definition handle_frame (frame : string) : cprog unit :=
  match from_str frame with
  | Ok (VArray (VNumber n :: _)) =>
      match as_u64_opt n with
      | None => Ret tt
      | Some message_type =>
          if (message_type =? MESSAGE_TYPE_CALL)%Z then handle_CALL frame
          else if (message_type =? MESSAGE_TYPE_RESULT)%Z then handle_RESULT frame
          else if (message_type =? MESSAGE_TYPE_ERROR)%Z then handle_ERROR frame
          else if (message_type =? MESSAGE_TYPE_SEND)%Z then handle_SEND frame
          else Ret tt
      end
  | _ => Ret tt
  end.

(** ** The read loop *)

(** [<[u8; 8]>::try_from(payload).map(u64::from_be_bytes).ok()]. *)
Definition token_of (payload : list byte) : option Z :=
  if decide (length payload = 8) then Some (be_value payload) else None.

(** [lock.waiters.remove(&token)] and, if there was an entry, [waiter.send(())]. *)
Definition settle_pong (payload : list byte) (s : Client) : Client :=
  let p := pong_waiters s in
  match token_of payload with
  | Some token =>
      match entries (waiters p) !! token with
      | Some h =>
          set_pongs (mkPongState (next_token p)
            (table_update h (oneshot_send tt) (table_remove token (waiters p)))) s
      | None => s
      end
  | None => s
  end.

Definition resolve_pong (payload : list byte) : cprog unit := modify (settle_pong payload).

Definition handle_event (event : TransportEvent) : cprog unit :=
  match event with
  | Frame frame => handle_frame frame
  | Ping payload =>
      do! modify (λ s, set_ping_registry (notify_all (ping_registry s)) s) in
      do! sink_call (SinkPong payload) in
      Ret tt
  | Pong payload => resolve_pong payload
  end.

(** The inner loop: read one connection until it ends; the reason and the attempt
    counter come back. *)
Fixpoint read_connection (fuel : nat) (honor_force_reconnect : bool) (stream : nat) (attempt : Z) :
    cprog (LoopExit * Z) :=
  match fuel with
  | O => OutOfFuel
  | S fuel =>
      let! r := with_cancel (FExt (Recv stream)) force_wait in
      match r with
      | Err Cancelled =>
          let! c := is_closed in
          if c then Ret (Shutdown, attempt)
          else if honor_force_reconnect then Ret (Forced, attempt)
          else read_connection fuel honor_force_reconnect stream attempt
      | Ok (Ok (Some event)) =>
          do! handle_event event in
          read_connection fuel honor_force_reconnect stream 0
      | Ok (Ok None) => Ret (Eof, attempt)
      | Ok (Err _) => Ret (Eof, attempt)
      end
  end.

(** A jittered delay draws an identifier only when the policy asks for jitter. *)
Definition next_delay (p : ReconnectPolicy) (attempt : Z) : cprog Duration :=
  let! random := (if jitter p then (let! u := new_v4 in Ret (uuid_as_u128 u)) else Ret 0%Z) in
  match jittered_delay_for p attempt random with
  | Some d => Ret d
  | None => panic
  end.

(** The backoff loop: [None] stands for [break 'connection], otherwise the new
    connection and the attempt counter. *)
Fixpoint redial_loop (fuel : nat) (p : ReconnectPolicy) (attempt : Z) : cprog (option (nat * Z)) :=
  match fuel with
  | O => OutOfFuel
  | S fuel =>
      let! delay := next_delay p attempt in
      let attempt := u32_saturating_add attempt 1 in
      let! r := with_cancel (FExt (Delay delay)) force_wait in
      let! abandoned := match r with Err Cancelled => is_closed | Ok _ => Ret false end in
      if abandoned then Ret None
      else
        let! c := is_closed in
        if c then Ret None
        else
          let! d := await (FExt Dial) in
          match d with
          | Ok conn =>
              do! modify (set_sink conn) in
              do! modify (λ s, set_reconnect_registry (notify_all (reconnect_registry s)) s) in
              Ret (Some (conn, attempt))
          | Err _ => redial_loop fuel p attempt
          end
  end.

Definition clear_pongs : cprog unit :=
  modify (λ s, set_pongs (mkPongState (next_token (pong_waiters s))
                            (table_clear (waiters (pong_waiters s)))) s).

(** One turn of the ['connection] loop: read a connection to its end, then redial.
    [None] stands for [break 'connection]. *)
Definition connection_turn (fuel : nat) (timeout : Duration) (reconnector : bool)
    (p : ReconnectPolicy) (stream : nat) (attempt : Z) : cprog (option (nat * Z)) :=
  let! exit := read_connection fuel reconnector stream attempt in
  let reason := exit.1 in
  let attempt := exit.2 in
  let! stop := match reason with Shutdown => Ret true | _ => is_closed end in
  if stop then (do! clear_pongs in Ret None)
  else if negb reconnector then Ret None
  else
    do! match reason with
        | Forced => do! with_timeout timeout (FExt (Sink SinkClose)) in Ret tt
        | _ => Ret tt
        end in
    do! clear_pongs in
    redial_loop fuel p attempt.

Fixpoint read_loop (fuel : nat) (timeout : Duration) (reconnector : bool) (p : ReconnectPolicy)
    (stream : nat) (attempt : Z) : cprog unit :=
  match fuel with
  | O => OutOfFuel
  | S fuel =>
      let! next := connection_turn fuel timeout reconnector p stream attempt in
      match next with
      | None => Ret tt
      | Some (stream, attempt) => read_loop fuel timeout reconnector p stream attempt
      end
  end.

(** ** Construction *)

(** [ClientConfig]; the reconnector itself answers through [Dial], so only whether
    there is one remains. *)
Record ClientConfig := mkClientConfig {
  config_timeout : Duration;
  config_reconnector : bool;
  config_reconnect_policy : ReconnectPolicy;
  config_keepalive : KeepaliveBehavior;
}.

Definition ClientConfig_new (timeout : Duration) : ClientConfig :=
  mkClientConfig timeout false ReconnectPolicy_default KeepaliveDisabled.

Definition with_reconnect (p : ReconnectPolicy) (c : ClientConfig) : ClientConfig :=
  mkClientConfig (config_timeout c) true p (config_keepalive c).

Definition with_keepalive (k : KeepaliveBehavior) (c : ClientConfig) : ClientConfig :=
  mkClientConfig (config_timeout c) (config_reconnector c) (config_reconnect_policy c) k.

Definition client_new (keepalive : KeepaliveBehavior) (conn : nat) : Client :=
  mkClient conn table_empty table_empty table_empty (mkPongState 0 table_empty)
    registry_new registry_new (keepalive_state_new keepalive) notify_new false [].

(** The keepalive task with the constants it computes on entry. *)
Definition keepalive_task (fuel : nat) (timeout : Duration) (k : KeepalivePolicy) : cprog unit :=
  keepalive_loop fuel (misses_allowed k) (default timeout (ka_timeout k)) 0.

(** The client over connection [conn] and the two tasks it spawns. *)
Definition from_transport_with_config (fuel : nat) (conn : nat) (config : ClientConfig) :
    Client * list (cprog unit) :=
  let s := client_new (config_keepalive config) conn in
  (s, [read_loop fuel (config_timeout config) (config_reconnector config)
         (config_reconnect_policy config) conn 0;
       keepalive_task fuel (config_timeout config) (policy (keepalive s))]).

Definition from_transport (fuel : nat) (conn : nat) (timeout : Duration) :
    Client * list (cprog unit) :=
  from_transport_with_config fuel conn (ClientConfig_new timeout).

Definition from_transport_with_reconnect (fuel : nat) (conn : nat) (timeout : Duration)
    (reconnector : bool) (p : ReconnectPolicy) : Client * list (cprog unit) :=
  from_transport_with_config fuel conn
    (mkClientConfig timeout reconnector p (config_keepalive (ClientConfig_new timeout))).

End Client.
