(* ===== verification/ClientInv.v ===== *)
(** * The client's invariant

    Programs that use a client are those built from its public methods ([api]).  The
    file shows that every step of every such program, and of the client's two
    background tasks, preserves the well-formedness of the shared tables, whatever the
    interleaving. *)

From S2P Require Import Prelude Time Sync Envelope Platform ProtocolErrors Reconnect Keepalive Engine Client.
From stdpp Require Import base gmap strings list.

Section Invariant.
Context {SM : SignalModel} {UM : UuidModel} {SJ : SerdeJson} {E : Type} {PE : ProtocolError E} {TErr : Type}.

Abbreviation St := (Client (E := E)).
Abbreviation Ch := (Choice (TErr := TErr)).
Abbreviation program A := (prog (St := St) (Ext := Ext (TErr := TErr)) A).

(** ** Programs that use the client

    Any composition of its public methods and of delays, whose handlers satisfy [ok]; a
    loop of the user's is one on fuel. *)

Abbreviation handlers := (∀ A : Action, (Request A → program (result (Response A) E)) → Prop).

Inductive api_with (ok : handlers) : ∀ A : Type, program A → Prop :=
| api_ret A (a : A) : api_with ok A (Ret a)
| api_bind A B (p : program A) (k : A → program B) :
    api_with ok A p → (∀ a, api_with ok B (k a)) → api_with ok B (bind p k)
| api_call timeout A request : api_with ok _ (call timeout A request)
| api_on fuel A callback :
    ok A callback → (∀ r, api_with ok _ (callback r)) → api_with ok _ (on fuel A callback)
| api_wait_for timeout A callback :
    ok A callback → (∀ r, api_with ok _ (callback r)) → api_with ok _ (wait_for timeout A callback)
| api_send_notification A payload : api_with ok _ (send_notification A payload)
| api_on_notification fuel A callback :
    (∀ r, api_with ok _ (callback r)) → api_with ok _ (on_notification fuel A callback)
| api_send_ping timeout : api_with ok _ (send_ping timeout)
| api_ping_interval : api_with ok _ ping_interval
| api_set_ping_interval i : api_with ok _ (set_ping_interval i)
| api_force_reconnect : api_with ok _ force_reconnect
| api_on_ping fuel callback : api_with ok _ callback → api_with ok _ (on_ping fuel callback)
| api_on_reconnect fuel callback : api_with ok _ callback → api_with ok _ (on_reconnect fuel callback)
| api_disconnect : api_with ok _ disconnect
| api_is_closed : api_with ok _ is_closed
| api_delay d : api_with ok _ (await (FExt (Delay d)))
| api_spawn A p (k : program A) : api_with ok unit p → api_with ok A k → api_with ok A (Spawn p k)
| api_fuel A : api_with ok A OutOfFuel.

(** Handlers without a restriction. *)
Definition any_handler : handlers := λ _ _, True.
Definition api : ∀ A : Type, program A → Prop := api_with any_handler.

Lemma api_with_impl (ok ok' : handlers) A (p : program A) :
  (∀ B callback, ok B callback → ok' B callback) → api_with ok A p → api_with ok' A p.
Proof. intros Hok. induction 1; by constructor; auto. Qed.

Lemma users_api (ok : handlers) (users : list (program unit)) :
  Forall (api_with ok unit) users → Forall (api unit) users.
Proof. intros Hu. eapply Forall_impl; [exact Hu|]. intros p. by apply api_with_impl. Qed.

(** ** What justifies a completed wait *)

(** [frame] is a CALLRESULT or a CALLERROR for [id] with the given outcome. *)
Inductive answers (frame : string) (id : Uuid) : result Value E → Prop :=
| answers_result text payload :
    from_str frame = Ok (VArray [VNumber (PosInt MESSAGE_TYPE_RESULT); VString text; payload]) →
    uuid_parse_str text = Some id → answers frame id (Ok payload)
| answers_error text c d x :
    from_str frame =
      Ok (VArray [VNumber (PosInt MESSAGE_TYPE_ERROR); VString text; VString c; VString d; x]) →
    uuid_parse_str text = Some id → answers frame id (Err (from_wire c d x)).

Definition answered (l : list LogEntry) (id : Uuid) (outcome : result Value E) : Prop :=
  ∃ frame, LRecv (Frame frame) ∈ l ∧ answers frame id outcome.

(** ** Well-formed states *)

Definition unset {T} (o : OneShot T) : Prop := oneshot_poll_wait o = None.

(** A waiter that holds a value holds one the peer sent for its key. *)
Definition response_cell (l : list LogEntry) (id : Uuid) (o : OneShot (result Value E)) : Prop :=
  ∀ v o', oneshot_poll_wait o = Some (v, o') → answered l id v.
Definition pong_cell (l : list LogEntry) (token : Z) (o : OneShot unit) : Prop :=
  is_u64 token ∧ (unset o ∨ LRecv (Pong (token_bytes token)) ∈ l).

Abbreviation pending_wf l := (table_wf (λ _ o, unset o) (response_cell l)).
Abbreviation chans_wf := (table_wf (λ _ c, chan_closed c = false) (λ _ _, True)).
Abbreviation pongs_wf l := (table_wf (λ _ o, unset o) (pong_cell l)).

Record client_wf (s : St) : Prop := {
  (** A pending request has a waiter of its own, not yet answered; a waiter that was
      answered holds what a CALLRESULT or CALLERROR frame with its identifier said. *)
  wf_pending : pending_wf (log s) (pending_responses s);
  (** A registered handler has a channel of its own, which is open. *)
  wf_requests : chans_wf (request_senders s);
  wf_notifications : chans_wf (notification_senders s);
  (** The same for pings: their tokens fit eight bytes, and a completed one saw a pong
      with exactly its token. *)
  wf_pongs : pongs_wf (log s) (waiters (pong_waiters s));
  wf_token : is_u64 (next_token (pong_waiters s));
  wf_interval : is_u32 (interval_millis (keepalive s));
  wf_closed : closed s = true ↔ LClosed ∈ log s;
}.

(** What a step may change that nothing ever undoes. *)
Record monotone (s s' : St) : Prop := {
  mono_closed : closed s = true → closed s' = true;
  mono_log : log s `prefix_of` log s';
  mono_policy : policy (keepalive s') = policy (keepalive s);
}.

(** The entry of [id] in the pending table is left alone, or removed once an answer with
    that identifier has been received. *)
Definition spares (id : Uuid) (s s' : St) : Prop :=
  entries (pending_responses s') !! id = entries (pending_responses s) !! id ∨
  (entries (pending_responses s') !! id = None ∧ ∃ outcome, answered (log s') id outcome).

(** ** Table operations of the engine *)

Lemma unset_new {T} : unset (oneshot_new (T := T)).
Proof. apply take_signal_new. Qed.

Lemma response_cell_unset l id o : unset o → response_cell l id o.
Proof. unfold unset. intros Ho v o' Hv. congruence. Qed.

Lemma response_cell_send l id v o : answered l id v → response_cell l id (oneshot_send v o).
Proof. intros Ha v' o'. unfold oneshot_poll_wait, oneshot_send. rewrite take_signal_signal. by intros [= <- <-]. Qed.

Lemma answered_app l l' id v : answered l id v → answered (l ++ l') id v.
Proof. intros (frame & ? & ?). exists frame. split; [set_solver|done]. Qed.

Lemma response_cell_app l l' id o : response_cell l id o → response_cell (l ++ l') id o.
Proof. intros Hc v o' Ho. by eapply answered_app, Hc. Qed.

Lemma pong_cell_app l l' token o : pong_cell l token o → pong_cell (l ++ l') token o.
Proof. intros [? [?|?]]; split; auto. right. set_solver. Qed.

Lemma table_resolve_wf {K V} `{Countable K} (P Q : K → V → Prop) k h f (t : Table K V) :
  entries t !! k = Some h → (∀ v, Q k v → Q k (f v)) → table_wf P Q t →
  table_wf P Q (table_update h f (table_remove k t)).
Proof.
  intros Hk Hf Hwf. apply table_wf_update_unbound; [|simpl|by apply table_wf_remove].
  - intros k'; simpl. intros [? ?]%lookup_delete_Some. by destruct (table_wf_inj _ _ t k k' h Hwf).
  - intros k' v Hk' _. apply (wf_keys _ _ _ Hwf) in Hk. assert (k' = k) as -> by congruence. auto.
Qed.

Lemma register_chan_wf {T} name (t : Table string (Chan T)) :
  chans_wf t → chans_wf (register_chan name t).2.
Proof.
  intros Hwf. unfold register_chan.
  pose proof (table_wf_insert _ _ name chan_new t Hwf eq_refl I) as Hins.
  simpl in *. destruct (entries t !! name) as [h|] eqn:Hn; simpl; [|done].
  apply table_wf_update_unbound; [|done..]. intros k; simpl. rewrite lookup_insert.
  destruct (wf_bound _ _ _ Hwf _ _ Hn) as (c & Hc & _). apply lookup_lt_Some in Hc.
  case_decide; [intros [= ?]; lia|]. intros Hk. by destruct (table_wf_inj _ _ t name k h Hwf).
Qed.

Lemma register_chan_binds {T} name (t t' : Table string (Chan T)) h :
  register_chan name t = (h, t') →
  h = length (cells t) ∧ entries t' = <[name := h]> (entries t) ∧ length (cells t') = S h.
Proof.
  unfold register_chan. simpl. destruct (entries t !! name); intros [= <- <-]; simpl;
    autorewrite with ocpp; rewrite length_app, Nat.add_1_r; done.
Qed.

Lemma register_chan_evolves {T} name (t : Table string (Chan T)) :
  table_evolves t (register_chan name t).2.
Proof.
  unfold register_chan. simpl. pose proof (table_evolves_insert name chan_new t).
  destruct (entries t !! name); [|done]. etrans; [done|apply table_evolves_update].
Qed.

Lemma table_update_same_flag {T} (h : nat) (f : Chan T → Chan T) (t : Table string (Chan T)) :
  (∀ c, chan_closed (f c) = chan_closed c) → chans_wf t → chans_wf (table_update h f t).
Proof. intros Hf. apply table_wf_update; [|done]. intros k c _ _. by rewrite Hf. Qed.

(** ** The guarantee *)

(** The identifiers in [mine] are those other tasks never draw; [dials] says whether
    the task may dial. *)
Context (mine : Uuid → Prop) (dials : Prop).

Definition may_log (e : LogEntry) : Prop := match e with LDial _ => dials | _ => True end.

(** What every step of every task does: it preserves well-formedness, undoes nothing,
    never adds a pending entry for an identifier in [mine], and never registers a
    handler's channel a second time. *)
Record client_guar (s s' : St) : Prop := {
  guar_wf : client_wf s → client_wf s';
  guar_monotone : monotone s s';
  guar_keys : keys (pending_responses s) `prefix_of` keys (pending_responses s') ∧
    keys (waiters (pong_waiters s)) `prefix_of` keys (waiters (pong_waiters s'));
  guar_adds : ∃ l, log s' = log s ++ l ∧ Forall may_log l;
  guar_spares : ∀ id, mine id → spares id s s';
  guar_handlers : table_evolves (request_senders s) (request_senders s');
}.

(** The choices of a task that never draws an identifier in [mine]. *)
Definition not_mine (c : Ch) : Prop :=
  match c with CUuid u => ¬ mine u | _ => True end.

(** ** Each primitive step keeps the guarantee *)

Lemma adds_nothing (s s' : St) : log s' = log s → ∃ l, log s' = log s ++ l ∧ Forall may_log l.
Proof. intros ->. exists []. by rewrite app_nil_r. Qed.

#[local] Ltac mono := split; simpl; auto using prefix_app_r.
#[local] Ltac guar :=
  intros; split; [intros []; split; simpl; auto|mono|split; simpl; auto|by apply adds_nothing
                 |intros ? ?; by left|try reflexivity; auto].

Lemma guar_refl s : client_guar s s.
Proof. guar. Qed.

Lemma guar_log e s : may_log e → e ≠ LClosed → client_guar s (add_log e s).
Proof.
  intros He Hne. split; [|mono|by split|exists [e]; by auto|intros ? ?; by left|reflexivity].
  intros []. split; simpl; auto.
  - eapply table_wf_impl; [|done]. intros k v. apply response_cell_app.
  - eapply table_wf_impl; [|done]. intros k v. apply pong_cell_app.
  - rewrite elem_of_app, list_elem_of_singleton. naive_solver.
Qed.

Lemma guar_sink v s : client_guar s (set_sink v s).
Proof. guar. Qed.

Lemma guar_pending t s :
  (pending_wf (log s) (pending_responses s) → pending_wf (log s) t) →
  keys (pending_responses s) `prefix_of` keys t →
  (∀ id, mine id → spares id s (set_pending t s)) →
  client_guar s (set_pending t s).
Proof.
  intros Ht Hk Hs. split; [intros []; split; simpl; auto|mono|split; simpl; auto| |done|reflexivity].
  by apply adds_nothing.
Qed.

Lemma spares_remove id k s :
  k ≠ id ∨ (∃ outcome, answered (log s) id outcome) →
  spares id s (set_pending (table_remove k (pending_responses s)) s).
Proof. unfold spares. simpl. rewrite lookup_delete. case_decide; naive_solver. Qed.

Lemma guar_requests t s :
  (chans_wf (request_senders s) → chans_wf t) → table_evolves (request_senders s) t →
  client_guar s (set_requests t s).
Proof. guar. Qed.

Lemma guar_notifications t s :
  (chans_wf (notification_senders s) → chans_wf t) → client_guar s (set_notifications t s).
Proof. guar. Qed.

Lemma guar_pongs p s :
  (is_u64 (next_token (pong_waiters s)) → is_u64 (next_token p)) →
  (is_u64 (next_token (pong_waiters s)) →
   pongs_wf (log s) (waiters (pong_waiters s)) → pongs_wf (log s) (waiters p)) →
  keys (waiters (pong_waiters s)) `prefix_of` keys (waiters p) →
  client_guar s (set_pongs p s).
Proof. guar. Qed.

Lemma guar_ping_registry r s : client_guar s (set_ping_registry r s).
Proof. guar. Qed.

Lemma guar_reconnect_registry r s : client_guar s (set_reconnect_registry r s).
Proof. guar. Qed.

Lemma guar_keepalive k s :
  (is_u32 (interval_millis (keepalive s)) → is_u32 (interval_millis k)) →
  policy k = policy (keepalive s) →
  client_guar s (set_keepalive k s).
Proof. guar. Qed.

Lemma guar_force n s : client_guar s (set_force n s).
Proof. guar. Qed.

Lemma guar_close s : client_guar s (add_log LClosed (set_closed true s)).
Proof.
  split; [|mono|by split|exists [LClosed]; by repeat constructor|intros ? ?; by left|reflexivity].
  intros []. split; simpl; auto.
  - eapply table_wf_impl; [|done]. intros k v. apply response_cell_app.
  - eapply table_wf_impl; [|done]. intros k v. apply pong_cell_app.
  - split; [set_solver|done].
Qed.

(** ** Futures *)

Abbreviation keeps p := (steps_in not_mine client_guar p).

Definition fut_keeps {B} (f : fut (St := St) (Ext := Ext (TErr := TErr)) B) : Prop :=
  ∀ s c b s', poll f c s = Some (b, s') → client_guar s s'.

Lemma keeps_await {B} f : fut_keeps f → keeps (await (B := B) f).
Proof. intros Hf s c b s' _ Hp. split; [by eapply Hf|done]. Qed.

Lemma poll_select_keeps {B C} (f : fut B) (g : fut C) s c b s' :
  fut_keeps f → fut_keeps g → poll_select f g c s = Some (b, s') → client_guar s s'.
Proof.
  intros Hf Hg. unfold poll_select.
  destruct (poll f c s) as [[x s1]|] eqn:Hp; [intros [= _ <-]; by eapply Hf|].
  destruct (poll g c s) as [[x s1]|] eqn:Hp'; [intros [= _ <-]; by eapply Hg|done].
Qed.

Lemma keeps_with_cancel {B C} (f : fut B) (g : fut C) :
  fut_keeps f → fut_keeps g → keeps (with_cancel f g).
Proof.
  intros Hf Hg s c b s' _ Hp. split; [by eapply (poll_select_keeps f g)|]. by destruct b.
Qed.

(** The guarantee of an external future: only the reconnector dials. *)
Definition ext_ok {B} (e : Ext (TErr := TErr) B) : Prop :=
  match e with Dial => dials | _ => True end.

Lemma ext_keeps {B} (e : Ext B) : ext_ok e → fut_keeps (FExt e).
Proof.
  intros He s c b s'. destruct e, c; simpl; intros Hp; try discriminate Hp;
    injection Hp as <- <-; try (by apply guar_log); [apply guar_refl|].
  destruct r as [[ev|]|]; [by apply guar_log|apply guar_refl..].
Qed.

Lemma sink_keeps op : fut_keeps (FExt (Sink op)).
Proof. by apply ext_keeps. Qed.

Lemma recv_keeps conn : fut_keeps (FExt (Recv conn)).
Proof. by apply ext_keeps. Qed.

Lemma delay_keeps d : fut_keeps (FExt (Delay d)).
Proof. by apply ext_keeps. Qed.

Lemma dial_keeps : dials → fut_keeps (FExt Dial).
Proof. intros. by apply ext_keeps. Qed.

Lemma keeps_with_timeout {B} d (f : fut B) : fut_keeps f → keeps (with_timeout d f).
Proof.
  intros Hf s c b s' _ Hp. split; [by eapply (poll_select_keeps f), Hp; [|apply delay_keeps]|].
  by destruct b.
Qed.

Lemma response_wait_keeps h : fut_keeps (response_wait h).
Proof.
  intros s c b s'. simpl. destruct (cells (pending_responses s) !! h) as [o|]; [|done].
  destruct (oneshot_poll_wait o) as [[v o']|] eqn:Ho; [|done]. intros [= <- <-].
  apply take_signal_resets in Ho as ->.
  apply guar_pending; [|done|by left]. apply table_wf_update; intros; [apply unset_new|].
  apply response_cell_unset, unset_new.
Qed.

Lemma pong_wait_keeps h : fut_keeps (pong_wait h).
Proof.
  intros s c b s'. simpl. destruct (cells (waiters (pong_waiters s)) !! h) as [o|]; [|done].
  destruct (oneshot_poll_wait o) as [[v o']|] eqn:Ho; [|done]. intros [= <- <-].
  apply take_signal_resets in Ho as ->. apply guar_pongs; [done| |done]. intros _.
  apply table_wf_update; intros k v'; [intros; apply unset_new|].
  intros _ _ [? _]. split; [done|left; apply unset_new].
Qed.

Lemma force_wait_keeps : fut_keeps force_wait.
Proof.
  intros s c b s'. simpl. destruct (notify_poll_wait _) as [[u n]|]; [|done].
  intros [= <- <-]. apply guar_force.
Qed.

Lemma changed_wait_keeps : fut_keeps changed_wait.
Proof.
  intros s c b s'. simpl. destruct (notify_poll_wait _) as [[u n]|]; [|done].
  intros [= <- <-]. by apply guar_keepalive.
Qed.

Lemma chan_check_flag {T} (c c' : Chan T) v :
  chan_check c = Some (v, c') → chan_closed c' = chan_closed c.
Proof.
  destruct v; intros Hc; [by apply chan_check_value in Hc as []|].
  by apply chan_check_end in Hc as [-> _].
Qed.

Lemma chan_take_wf {T} h (c c' : Chan T) v (t : Table string (Chan T)) :
  cells t !! h = Some c → chan_check c = Some (v, c') →
  chans_wf t → chans_wf (table_update h (λ _, c') t).
Proof.
  intros Hh Hc. apply table_wf_update; [|done]. intros k c1 _ Hc1 Ho. simplify_eq.
  by rewrite (chan_check_flag _ _ _ Hc).
Qed.

Lemma request_recv_keeps h : fut_keeps (request_recv h).
Proof.
  intros s c b s'. simpl. destruct (cells (request_senders s) !! h) as [ch|] eqn:Hh; [|done].
  destruct (chan_check ch) as [[v c']|] eqn:Hc; [|done]. intros [= <- <-].
  apply guar_requests; [by apply (chan_take_wf h ch c' v)|apply table_evolves_update].
Qed.

Lemma notification_recv_keeps h : fut_keeps (notification_recv h).
Proof.
  intros s c b s'. simpl. destruct (cells (notification_senders s) !! h) as [ch|] eqn:Hh; [|done].
  destruct (chan_check ch) as [[v c']|] eqn:Hc; [|done]. intros [= <- <-].
  by apply guar_notifications, (chan_take_wf h ch c' v).
Qed.

Lemma registry_wait_keeps i :
  fut_keeps (registry_wait ping_registry set_ping_registry i) ∧
  fut_keeps (registry_wait reconnect_registry set_reconnect_registry i).
Proof.
  split; intros s c b s'; simpl; (destruct (_ !! i) as [sg|]; [|done]);
    (destruct (signal_try_take sg) as [[u sg']|]; [|done]); intros [= <- <-];
    auto using guar_ping_registry, guar_reconnect_registry.
Qed.

(** ** Programs *)

Lemma keeps_modify f : (∀ s, client_guar s (f s)) → keeps (modify f).
Proof. intros Hf s. split; [apply Hf|done]. Qed.

Lemma keeps_atomic {B} (f : St → B * St) : (∀ s, client_guar s (f s).2) → keeps (atomic f).
Proof. intros Hf s. split; [apply Hf|done]. Qed.

Lemma keeps_is_closed : keeps is_closed.
Proof. apply keeps_atomic. intros. apply guar_refl. Qed.


Lemma keeps_insert_pending id : ¬ mine id → keeps (insert_pending id).
Proof.
  intros Hid. apply keeps_atomic. intros s. simpl. apply guar_pending.
  - intros Hwf. apply (table_wf_insert _ _ id oneshot_new _ Hwf unset_new).
    apply response_cell_unset, unset_new.
  - by apply prefix_app_r.
  - intros id' Hid'. left. simpl. apply lookup_insert_ne. by intros ->.
Qed.

(** An identifier a task draws is not one of those reserved for others. *)
Lemma keeps_new_v4 {A} (k : Uuid → program A) :
  (∀ u, ¬ mine u → keeps (k u)) → keeps (bind new_v4 k).
Proof.
  intros Hk s c u s' Hc Hp. destruct c as [u'| | | |]; try discriminate Hp.
  injection Hp as -> ->. split; [apply guar_refl|by apply Hk].
Qed.

Lemma keeps_forget_pending id : ¬ mine id → keeps (forget_pending id).
Proof.
  intros Hid. apply keeps_modify. intros s. apply guar_pending; [apply table_wf_remove|done|].
  intros id' Hid'. apply spares_remove. left. by intros ->.
Qed.

Lemma guar_settle_pending id outcome s :
  answered (log s) id outcome → client_guar s (settle_pending id outcome s).
Proof.
  intros Ha. unfold settle_pending.
  destruct (entries (pending_responses s) !! id) as [h|] eqn:Hh; [|apply guar_refl].
  apply guar_pending; [|done|intros id' _; apply (spares_remove id' id); destruct (decide (id = id')) as [<-|]; eauto].
  apply table_resolve_wf; [done|]. intros o _. by apply response_cell_send.
Qed.

Lemma keeps_register_request name : keeps (register_request name).
Proof.
  apply keeps_atomic. intros s.
  pose proof (register_chan_wf name (request_senders s)) as Hwf.
  pose proof (register_chan_evolves name (request_senders s)) as Hev.
  destruct (register_chan name (request_senders s)) as [h t]. by apply guar_requests.
Qed.

Lemma keeps_register_notification name : keeps (register_notification name).
Proof.
  apply keeps_atomic. intros s.
  pose proof (register_chan_wf name (notification_senders s)) as Hwf.
  destruct (register_chan name (notification_senders s)) as [h t]. by apply guar_notifications.
Qed.

Lemma keeps_request_send h item : keeps (request_send h item).
Proof.
  apply steps_in_bind; [|intros _]; apply keeps_modify; intros s;
    (apply guar_requests; [by apply table_update_same_flag|apply table_evolves_update]).
Qed.

Lemma keeps_notification_send h item : keeps (notification_send h item).
Proof.
  apply steps_in_bind; [|intros _]; apply keeps_modify; intros s;
    by apply guar_notifications, table_update_same_flag.
Qed.

Lemma keeps_deregister_own name h : keeps (deregister_own name h).
Proof.
  apply keeps_modify. intros s.
  destruct (entries (request_senders s) !! name); [|apply guar_refl].
  case_decide; [|apply guar_refl]. 
  apply guar_requests; [apply table_wf_remove|apply table_evolves_remove].
Qed.

Lemma keeps_insert_ping : keeps insert_ping.
Proof.
  apply keeps_atomic. intros s. simpl. apply guar_pongs; simpl; [| |by apply prefix_app_r].
  - intros _. apply u64_wrapping_add_range.
  - intros Ht Hwf. apply (table_wf_insert _ _ _ oneshot_new _ Hwf unset_new).
    split; [done|left; apply unset_new].
Qed.

Lemma keeps_forget_ping token : keeps (forget_ping token).
Proof.
  apply keeps_modify. intros s. apply guar_pongs; [done| |done]. intros _. apply table_wf_remove.
Qed.

Lemma token_of_bytes payload token : token_of payload = Some token → payload = token_bytes token.
Proof.
  unfold token_of, token_bytes. case_decide as Hl; [|done]. intros [= <-].
  by rewrite <-(be_bytes_be_value payload), Hl at 1.
Qed.

Lemma guar_settle_pong payload s :
  LRecv (Pong payload) ∈ log s → client_guar s (settle_pong payload s).
Proof.
  intros Hl. unfold settle_pong. destruct (token_of payload) as [token|] eqn:Ht; [|apply guar_refl].
  apply token_of_bytes in Ht as ->.
  destruct (entries (waiters (pong_waiters s)) !! token) as [h|] eqn:Hh; [|apply guar_refl].
  apply guar_pongs; [done| |done]. intros _. apply table_resolve_wf; [done|].
  intros o [? _]. split; auto.
Qed.

Lemma keeps_clear_pongs : keeps clear_pongs.
Proof.
  apply keeps_modify. intros s. apply guar_pongs; [done| |done]. intros _. apply table_wf_clear.
Qed.

Lemma keeps_notify_force :
  keeps (modify (λ s : St, set_force (notify_notify (force_reconnect_signal s)) s)).
Proof. apply keeps_modify. intros. apply guar_force. Qed.

Lemma keeps_ping_interval : keeps ping_interval.
Proof. apply keeps_atomic. intros. apply guar_refl. Qed.

Lemma keeps_set_ping_interval i : keeps (set_ping_interval i).
Proof.
  apply keeps_modify. intros s. apply guar_keepalive; [|done].
  intros _. apply interval_to_millis_range.
Qed.

Create HintDb keeps.
#[local] Hint Resolve keeps_is_closed keeps_insert_pending keeps_forget_pending
  keeps_register_request keeps_register_notification keeps_request_send
  keeps_notification_send keeps_deregister_own keeps_insert_ping keeps_forget_ping
  keeps_clear_pongs keeps_notify_force keeps_ping_interval
  keeps_set_ping_interval keeps_with_timeout keeps_with_cancel keeps_await sink_keeps recv_keeps delay_keeps dial_keeps
  response_wait_keeps pong_wait_keeps force_wait_keeps changed_wait_keeps request_recv_keeps
  notification_recv_keeps : keeps.

(** Walk through a program: sequences, branches on results, primitive steps. *)
#[local] Ltac walk :=
  repeat (match goal with
          | |- steps_in _ _ (bind new_v4 _) => apply keeps_new_v4; intros ? ?
          | |- steps_in _ _ (bind _ _) => apply steps_in_bind; [|intros ?]
          | |- steps_in _ _ (Spawn _ _) => split
          | |- steps_in _ _ (Ret _) => done
          | |- steps_in _ _ OutOfFuel => done
          | |- steps_in _ _ (match ?x with _ => _ end) => destruct x
          | |- steps_in _ _ (if ?x then _ else _) => destruct x
          end || (progress eauto with keeps)).

Lemma keeps_call timeout A request : keeps (call timeout A request).
Proof. unfold call, do_send_request, sink_call. walk. Qed.

Lemma keeps_do_send_response {R} to_value (r : result R E) id :
  keeps (do_send_response to_value r id).
Proof. unfold do_send_response, sink_call. walk. Qed.
#[local] Hint Resolve keeps_do_send_response : keeps.

Lemma keeps_handle_call A callback id payload :
  (∀ r, keeps (callback r)) → keeps (handle_call A callback id payload).
Proof. intros Hcb. unfold handle_call. walk. Qed.
#[local] Hint Resolve keeps_handle_call : keeps.

Lemma keeps_handler_loop fuel A callback h :
  (∀ r, keeps (callback r)) → keeps (handler_loop fuel A callback h).
Proof. intros Hcb. induction fuel as [|fuel IH]; cbn [handler_loop]; walk. Qed.
#[local] Hint Resolve keeps_handler_loop : keeps.

Lemma keeps_on fuel A callback : (∀ r, keeps (callback r)) → keeps (on fuel A callback).
Proof. intros Hcb. unfold on. walk. Qed.

(** What [wait_for] does with what it received. *)
Lemma keeps_wait_outcome (A : Action) (callback : Request A → program (result (Response A) E)) r :
  (∀ r, keeps (callback r)) →
  keeps (match r with
         | Ok (Some (message_id, payload)) =>
             match de_request A payload with
             | Ok for_callback =>
                 bind (callback for_callback) (λ response,
                   bind (do_send_response (ser_response A) response message_id) (λ _,
                     Ret (map_err Decode (de_request A payload))))
             | Err err => Ret (Err (Decode err))
             end
         | Ok None => Ret (Err Closed)
         | Err Elapsed => Ret (Err (Timeout : ClientError E JsonError TErr))
         end).
Proof. intros Hcb. walk. Qed.

Lemma keeps_wait_for timeout A callback :
  (∀ r, keeps (callback r)) → keeps (wait_for timeout A callback).
Proof. intros Hcb. unfold wait_for. walk. Qed.

Lemma keeps_send_notification A payload : keeps (send_notification A payload).
Proof. unfold send_notification, sink_call. walk. Qed.

Lemma keeps_on_notification fuel A callback :
  (∀ r, keeps (callback r)) → keeps (on_notification fuel A callback).
Proof.
  intros Hcb. unfold on_notification. walk.
  generalize a. induction fuel as [|fuel IH]; cbn [notification_loop]; intros h; walk.
Qed.

Lemma keeps_send_ping timeout : keeps (send_ping_with_timeout timeout).
Proof. unfold send_ping_with_timeout, sink_call. walk. Qed.
#[local] Hint Resolve keeps_send_ping : keeps.

Lemma keeps_force_reconnect : keeps force_reconnect.
Proof. unfold force_reconnect. walk. Qed.
#[local] Hint Resolve keeps_force_reconnect : keeps.

Lemma keeps_subscriber_loop fuel wait callback :
  fut_keeps wait → keeps callback → keeps (subscriber_loop fuel wait callback).
Proof. intros Hw Hcb. induction fuel as [|fuel IH]; cbn [subscriber_loop]; walk. Qed.

Lemma keeps_on_ping fuel callback : keeps callback → keeps (on_ping fuel callback).
Proof.
  intros Hcb. unfold on_ping. apply steps_in_bind.
  - apply keeps_atomic. intros s. apply guar_ping_registry.
  - intros i. split; [|done]. apply keeps_subscriber_loop; [|done]. apply registry_wait_keeps.
Qed.

Lemma keeps_on_reconnect fuel callback : keeps callback → keeps (on_reconnect fuel callback).
Proof.
  intros Hcb. unfold on_reconnect. apply steps_in_bind.
  - apply keeps_atomic. intros s. apply guar_reconnect_registry.
  - intros i. split; [|done]. apply keeps_subscriber_loop; [|done]. apply registry_wait_keeps.
Qed.

Lemma keeps_disconnect : keeps disconnect.
Proof.
  unfold disconnect, sink_call. apply steps_in_bind.
  { apply keeps_atomic. intros s. simpl. destruct (closed s); [apply guar_refl|apply guar_close]. }
  intros was. walk. apply keeps_modify. intros s. by apply guar_keepalive.
Qed.

Lemma keeps_keepalive_turn allowed t missed : keeps (keepalive_turn allowed t missed).
Proof. unfold keepalive_turn. walk. Qed.
#[local] Hint Resolve keeps_keepalive_turn : keeps.

Lemma keeps_keepalive_loop fuel allowed t missed : keeps (keepalive_loop fuel allowed t missed).
Proof. revert missed. induction fuel as [|fuel IH]; intros missed; cbn [keepalive_loop]; walk. Qed.

Lemma keeps_handle_CALL frame : keeps (handle_CALL frame).
Proof. unfold handle_CALL, sink_call. walk; apply keeps_atomic; intros; apply guar_refl. Qed.

Lemma keeps_handle_SEND frame : keeps (handle_SEND frame).
Proof. unfold handle_SEND. walk; apply keeps_atomic; intros; apply guar_refl. Qed.

Lemma keeps_api ok A (p : program A) : api_with ok A p → keeps p.
Proof.
  induction 1; eauto using keeps_call, keeps_on, keeps_wait_for, keeps_send_notification,
    keeps_on_notification, keeps_send_ping, keeps_ping_interval, keeps_set_ping_interval,
    keeps_force_reconnect, keeps_on_ping, keeps_on_reconnect, keeps_disconnect, keeps_is_closed,
    keeps_await, delay_keeps, steps_in_bind.
  all: done.
Qed.

(** ** The read loop

    Its guarantee rests on what it has read so far, so it is proved with [safe]. *)

(** All it relies on is that nothing erases the log. *)
Definition grows (s s' : St) : Prop := log s `prefix_of` log s'.

#[export] Instance grows_preorder : PreOrder grows.
Proof. unfold grows. split; [by intros s|]. intros s1 s2 s3 ? ?. by etrans. Qed.

Lemma guar_grows s s' : client_guar s s' → grows s s'.
Proof. intros [_ [_ Hl _] _ _ _]. exact Hl. Qed.

Definition task_spec : spec (St := St) (Choice := Ch) := mkSpec not_mine grows client_guar.

Abbreviation safely p s := (safe task_spec p (λ _ _, True) s).

Lemma keeps_safely {A} (p : program A) s : keeps p → safely p s.
Proof. by apply steps_in_safe. Qed.

Lemma safely_then {A B} (p : program A) (k : A → program B) s :
  safely p s → (∀ a s', grows s s' → safely (k a) s') → safely (bind p k) s.
Proof. apply safe_then; [apply grows_preorder|apply guar_grows]. Qed.

Lemma safely_modify f s :
  (∀ s', grows s s' → client_guar s' (f s')) → safely (modify f) s.
Proof. intros Hf s1 Hr. split; [by apply Hf|by intros ? ?]. Qed.

Lemma log_grows e s s' : grows s s' → e ∈ log s → e ∈ log s'.
Proof. intros [l Hl]. rewrite Hl. set_solver. Qed.

Lemma from_str_as_inv {T} (de : Value → option T) frame x :
  from_str_as de frame = Some x → ∃ v, from_str frame = Ok v ∧ de v = Some x.
Proof. unfold from_str_as. destruct (from_str frame) as [v|]; [by eauto|done]. Qed.

(** The message type of a frame is its first field. *)
Definition frame_type (frame : string) (t : Z) : Prop :=
  ∃ items, from_str frame = Ok (VArray (VNumber (PosInt t) :: items)).

Lemma safely_handle_RESULT frame s :
  frame_type frame MESSAGE_TYPE_RESULT → LRecv (Frame frame) ∈ log s →
  safely (handle_RESULT frame) s.
Proof.
  intros [items Hty] Hl. unfold handle_RESULT.
  destruct (from_str_as _ frame) as [r|] eqn:Hf; [|by apply keeps_safely].
  apply from_str_as_inv in Hf as (v & Hv & ->%de_RawResult_inv).
  destruct (uuid_parse_str _) as [id|] eqn:Hid; [|by apply keeps_safely].
  apply safely_modify. intros s' Hg. apply guar_settle_pending. exists frame.
  split; [by eapply log_grows|]. eapply answers_result; [|exact Hid].
  rewrite Hv in Hty |- *. injection Hty as Hty _. unfold ser_RawResult. by rewrite Hty.
Qed.

Lemma safely_handle_ERROR frame s :
  frame_type frame MESSAGE_TYPE_ERROR → LRecv (Frame frame) ∈ log s →
  safely (handle_ERROR frame) s.
Proof.
  intros [items Hty] Hl. unfold handle_ERROR.
  destruct (from_str_as _ frame) as [r|] eqn:Hf; [|by apply keeps_safely].
  apply from_str_as_inv in Hf as (v & Hv & ->%de_RawError_inv).
  destruct (uuid_parse_str _) as [id|] eqn:Hid; [|by apply keeps_safely].
  apply safely_modify. intros s' Hg. apply guar_settle_pending. exists frame.
  split; [by eapply log_grows|]. eapply answers_error; [|exact Hid].
  rewrite Hv in Hty |- *. injection Hty as Hty _. unfold ser_RawError. by rewrite Hty.
Qed.

Lemma safely_handle_frame frame s : LRecv (Frame frame) ∈ log s → safely (handle_frame frame) s.
Proof.
  intros Hl. unfold handle_frame.
  destruct (from_str frame) as [v|e] eqn:Hv; [|by apply keeps_safely].
  destruct v as [| | | |[|[| |n| | |] items]|]; try by apply keeps_safely.
  destruct n as [t| |]; try by apply keeps_safely. simpl.
  destruct (Z.eqb_spec t MESSAGE_TYPE_CALL); [apply keeps_safely, keeps_handle_CALL|].
  destruct (Z.eqb_spec t MESSAGE_TYPE_RESULT) as [->|];
    [apply safely_handle_RESULT; [by exists items|done]|].
  destruct (Z.eqb_spec t MESSAGE_TYPE_ERROR) as [->|];
    [apply safely_handle_ERROR; [by exists items|done]|].
  destruct (Z.eqb_spec t MESSAGE_TYPE_SEND); [apply keeps_safely, keeps_handle_SEND|by apply keeps_safely].
Qed.

Lemma safely_handle_event event s : LRecv event ∈ log s → safely (handle_event event) s.
Proof.
  intros Hl. destruct event as [frame|payload|payload]; unfold handle_event.
  - by apply safely_handle_frame.
  - apply keeps_safely. unfold sink_call. walk. apply keeps_modify. intros. apply guar_ping_registry.
  - apply safely_modify. intros s' Hg. apply guar_settle_pong. by eapply log_grows.
Qed.

(** Reading an event leaves it in the log. *)
Lemma recv_event conn c (s s' : St) (event : TransportEvent) :
  poll_select (FExt (Recv (TErr := TErr) conn)) force_wait c s =
    Some (inl (Ok (Some event)), s') → LRecv event ∈ log s'.
Proof.
  unfold poll_select. destruct c as [| |r| |]; cbn;
    try (destruct (notify_poll_wait _) as [[]|]; discriminate).
  intros [= -> <-]. simpl. set_solver.
Qed.

Lemma safely_read_connection fuel honor stream attempt s :
  safely (read_connection fuel honor stream attempt) s.
Proof.
  revert attempt s. induction fuel as [|fuel IH]; intros attempt s; cbn [read_connection]; [done|].
  intros s1 c b s2 Hr Hc Hp. split.
  { eapply poll_select_keeps; [apply recv_keeps|apply force_wait_keeps|exact Hp]. }
  destruct b as [[[event|]|]|[]]; cbn [bind].
  - apply safely_then; [|auto]. apply safely_handle_event. by eapply recv_event.
  - by apply keeps_safely.
  - by apply keeps_safely.
  - apply safely_then; [apply keeps_safely, keeps_is_closed|]. intros c' s' _.
    destruct c'; [by apply keeps_safely|]. destruct honor; [by apply keeps_safely|auto].
Qed.

Lemma keeps_next_delay p attempt : keeps (next_delay p attempt).
Proof. unfold next_delay, panic. walk. Qed.
#[local] Hint Resolve keeps_next_delay : keeps.

(** Swapping in a new connection and telling the subscribers. *)
Lemma keeps_install {A} conn (a : A) :
  keeps (bind (modify (set_sink conn)) (λ _,
    bind (modify (λ s, set_reconnect_registry (notify_all (reconnect_registry s)) s)) (λ _, Ret a))).
Proof.
  walk; apply keeps_modify; intros s; [apply guar_sink|apply guar_reconnect_registry].
Qed.
#[local] Hint Resolve keeps_install : keeps.

Lemma keeps_redial_loop fuel p attempt : dials → keeps (redial_loop fuel p attempt).
Proof.
  intros Hd. revert attempt. induction fuel as [|fuel IH]; intros attempt; cbn [redial_loop]; walk.
  - apply keeps_modify. intros s. apply guar_sink.
  - apply keeps_modify. intros s. apply guar_reconnect_registry.
Qed.

Lemma keeps_courtesy_close timeout reason :
  keeps (match reason with
         | Forced => bind (with_timeout timeout (FExt (Sink SinkClose))) (λ _, Ret tt)
         | _ => Ret tt
         end).
Proof. walk. Qed.

Lemma keeps_end_loop {A} (a : A) : keeps (bind clear_pongs (λ _, Ret a)).
Proof. walk. Qed.
#[local] Hint Resolve keeps_courtesy_close keeps_end_loop : keeps.

Lemma safely_connection_turn fuel timeout reconnector p stream attempt s :
  dials → safely (connection_turn fuel timeout reconnector p stream attempt) s.
Proof.
  intros Hd. unfold connection_turn.
  apply safely_then; [apply safely_read_connection|]. intros [reason attempt'] s1 _.
  apply keeps_safely. cbn [fst snd]. walk. by apply keeps_redial_loop.
Qed.

Lemma safely_read_loop fuel timeout reconnector p stream attempt s :
  dials → safely (read_loop fuel timeout reconnector p stream attempt) s.
Proof.
  intros Hd. revert stream attempt s.
  induction fuel as [|fuel IH]; intros stream attempt s; cbn [read_loop]; [done|].
  apply safely_then; [by apply safely_connection_turn|].
  intros [[stream' attempt']|] s' _; [apply IH|by apply keeps_safely].
Qed.

End Invariant.

#[export] Instance client_guar_preorder {SM : SignalModel} {UM : UuidModel} {SJ : SerdeJson}
  {E : Type} {PE : ProtocolError E} mine dials : PreOrder (client_guar (E := E) mine dials).
Proof.
  split; [intros s; apply guar_refl|].
  intros s1 s2 s3 [w1 [] [] (l1 & Hl1 & ?) sp1 ?] [w2 [] [] (l2 & Hl2 & ?) sp2 ?]. split; auto.
  - split; [auto|by etrans|congruence].
  - split; by etrans.
  - exists (l1 ++ l2). rewrite Hl2, Hl1, app_assoc. split; [done|by apply Forall_app].
  - intros id Hid. unfold spares in *. destruct (sp2 id Hid) as [Hb|Hb]; [|by right].
    rewrite Hb. destruct (sp1 id Hid) as [Ha|[Ha [v Hv]]]; [by left|right]. split; [done|].
    exists v. rewrite Hl2. by apply answered_app.
  - by etrans.
Qed.
