(* ===== verification/ClientDemo.v ===== *)
(** * Concrete clients

    A client of OCPP 1.6 over the concrete platforms of [Platform.v], an action whose
    request and response are arbitrary JSON, and a schedule in which it calls the peer:
    the inputs at which the theorems about clients are instantiated. *)

From S2P Require Import Prelude Time Sync Envelope Platform ProtocolErrors Reconnect Keepalive Engine Client ClientInv.
From stdpp Require Import base gmap strings list.

#[export] Existing Instances slot_signal number_uuid tree_json.

Abbreviation DemoSt := (Client (E := V1_6.OCPP1_6Error)).
Abbreviation demo_program A := (prog (St := DemoSt) (Ext := Ext (TErr := unit)) A).
Abbreviation demo_choice := (Choice (TErr := unit)).

Definition demo_action : Action := {|
  NAME := "Heartbeat"%string; Request := Value; Response := Value;
  ser_request := Ok; de_request := Ok; ser_response := Ok; de_response := Ok |}.

Definition demo_text (v : Value) : string :=
  match to_string v with Ok text => text | Err _ => EmptyString end.

Definition demo_config : ClientConfig :=
  with_reconnect ReconnectPolicy_default (ClientConfig_new (from_secs 30)).

Abbreviation demo_client :=
  (from_transport_with_config (E := V1_6.OCPP1_6Error) (TErr := unit) 3 0 demo_config).

Definition demo_users : list (demo_program unit) := [bind disconnect (λ _, Ret tt)].

Lemma demo_users_api : Forall (api unit) demo_users.
Proof. constructor; [|constructor]. apply (api_bind _ _ _ disconnect); [apply api_disconnect|intros; apply api_ret]. Defined.

(** Whether an observed program has returned, or a pool has run. *)
Definition returned {A} (o : option (demo_program A * list (demo_program unit) * DemoSt)) : bool :=
  match o with Some (Ret _, _, _) => true | _ => false end.
Definition ran {A} (o : option A) : bool := match o with Some _ => true | None => false end.

Lemma returned_elim {A} (P : A → DemoSt → Prop) o :
  returned o = true → (∀ r ts s, o = Some (Ret r, ts, s) → P r s) →
  match o with Some (Ret r, _, s) => P r s | _ => False end.
Proof. destruct o as [[[[] ?] ?]|]; simpl; try done. eauto. Defined.

Lemma ran_elim {A} (P : A → Prop) (o : option A) :
  ran o = true → (∀ x, o = Some x → P x) → match o with Some x => P x | None => False end.
Proof. destruct o; simpl; [eauto|done]. Defined.

Lemma ran_to_elim {A} (P : A → Prop) (test : A → bool) (o : option A) :
  match o with Some x => test x | None => false end = true →
  (∀ x, o = Some x → test x = true → P x) → match o with Some x => P x | None => False end.
Proof. destruct o; simpl; [eauto|done]. Defined.

Definition demo_response : string :=
  demo_text (ser_RawResult (mkRawResult MESSAGE_TYPE_RESULT (uuid_to_string 7%N) VNull)).

(** The call is sent, the read loop receives and dispatches the response, a user
    disconnects, the call returns. *)
Definition demo_schedule : list (option nat * demo_choice) :=
  [(None, CTimer); (None, CUuid 7%N); (None, CTimer); (None, CSink (Ok tt));
   (Some 0, CRecv (Ok (Some (Frame demo_response)))); (Some 2, CTimer); (Some 0, CTimer);
   (None, CTimer)].

Abbreviation demo_call_run :=
  (run_among demo_schedule (call (TErr := unit) (from_secs 30) demo_action VNull)
     (demo_client.2 ++ demo_users) demo_client.1).

