(* ===== verification/History.v ===== *)
(** * What a task has done itself

    The log of a client says what all its tasks together have exchanged with the outside.
    The history of one task, or of one observed program, lists what its own steps did:
    what they left in the log, and which side of a race won.  [follows] is a judgement on
    programs that speaks of that history, under a rely on what the others do. *)

From S2P Require Import Prelude Time Sync Envelope Platform Engine Client.
From stdpp Require Import base gmap strings list.

(** ** Histories *)

Section Histories.
Context {St Choice : Type} {Ext : Type → Type} `{Externals St Choice Ext}.
Context {Entry : Type} (obs : St → St → list Entry).

Inductive deed := Did (e : Entry) | Won (first : bool).

(** What a step of [p] did. *)
Definition did {A : Type} (c : Choice) (p : prog (St := St) (Ext := Ext) A) (s : St) : list deed :=
  match p with
  | Select f g _ =>
      match poll_select f g c s with
      | Some (b, s') => Won (match b with inl _ => true | inr _ => false end) :: (Did <$> obs s s')
      | None => []
      end
  | _ => match step c p s with Some (_, s', _) => Did <$> obs s s' | None => [] end
  end.

(** What task [i] of a pool did. *)
Fixpoint history (i : nat) (schedule : list (nat * Choice)) (ts : list (prog (St := St) (Ext := Ext) unit)) (s : St) :
    list deed :=
  match schedule with
  | [] => []
  | (j, c) :: rest =>
      match pool_step j c ts s with
      | Some (ts', s') =>
          (if decide (j = i) then match ts !! i with Some p => did c p s | None => [] end else []) ++
          history i rest ts' s'
      | None => []
      end
  end.

(** [follows p Q h s]: from [s], with the history [h] behind it and others doing [R]
    between its steps, every step of [p] meets [G] of the history before it, and a
    returned value satisfies [Q]. *)
Context (R : St → St → Prop) (G : list deed → St → St → Prop).

Fixpoint follows {A : Type} (p : prog (St := St) (Ext := Ext) A) (Q : A → list deed → St → Prop) (h : list deed) (s : St)
    {struct p} : Prop :=
  match p with
  | Ret a => ∀ s1, R s s1 → Q a h s1
  | Atomic f k => ∀ s1, R s s1 →
      G h s1 (f s1).2 ∧ follows (k (f s1).1) Q (h ++ (Did <$> obs s1 (f s1).2)) (f s1).2
  | Await f k => ∀ s1 c b s2, R s s1 → poll f c s1 = Some (b, s2) →
      G h s1 s2 ∧ follows (k b) Q (h ++ (Did <$> obs s1 s2)) s2
  | Select f g k => ∀ s1 c b s2, R s s1 → poll_select f g c s1 = Some (b, s2) →
      G h s1 s2 ∧
      follows (k b) Q (h ++ Won (match b with inl _ => true | inr _ => false end) :: (Did <$> obs s1 s2)) s2
  | Spawn p k => False
  | OutOfFuel => True
  end.

Lemma follows_bind {A B : Type} (p : prog A) (k : A → prog B) P Q h s :
  Reflexive R → follows p P h s → (∀ a h s, P a h s → follows (k a) Q h s) → follows (bind p k) Q h s.
Proof.
  intros Hrefl. revert h s. induction p as [A a|A C f k' IH|A C f k' IH|A C D f g k' IH|A p _ k' IH|A];
    intros h s Hp Hk; simpl in *; try done.
  - by apply Hk, Hp.
  - intros s1 Hr. destruct (Hp s1 Hr). eauto.
  - intros s1 c b s2 Hr Hc. destruct (Hp s1 c b s2 Hr Hc). eauto.
  - intros s1 c b s2 Hr Hc. destruct (Hp s1 c b s2 Hr Hc). eauto.
Qed.

Lemma follows_stable {A : Type} (p : prog A) Q h s s' :
  Transitive R → R s s' → follows p Q h s → follows p Q h s'.
Proof. intros Ht Hr. destruct p; simpl; eauto. Qed.

Lemma step_follows {A : Type} (p : prog A) Q h c s p' s' new :
  Reflexive R → follows p Q h s → step c p s = Some (p', s', new) →
  G h s s' ∧ new = [] ∧ follows p' Q (h ++ did c p s) s'.
Proof.
  intros Hrefl. destruct p as [a|B f k|B f k|B C f g k|p k|]; simpl; try done.
  - intros Hp. destruct (Hp s (Hrefl s)). destruct (f s). by intros [= <- <- <-].
  - intros Hp. destruct (poll f c s) as [[b s1]|] eqn:Hc; [|done]. intros [= <- <- <-].
    by destruct (Hp s c b s1 (Hrefl s) Hc).
  - intros Hp. destruct (poll_select f g c s) as [[b s1]|] eqn:Hc; [|done]. intros [= <- <- <-].
    by destruct (Hp s c b s1 (Hrefl s) Hc).
Qed.

(** In a pool whose every step the rely allows. *)
Lemma run_pool_follows σ Q i p h schedule ts s ts' s' :
  PreOrder R → PreOrder (rely σ) → (∀ s s', guar σ s s' → rely σ s s') → (∀ s s', guar σ s s' → R s s') →
  pool_safe σ ts s → Forall (λ x, allow σ x.2) schedule →
  ts !! i = Some p → follows p Q h s → run_pool schedule ts s = Some (ts', s') →
  ∃ p', ts' !! i = Some p' ∧ follows p' Q (h ++ history i schedule ts s) s'.
Proof.
  intros [Hrefl Htrans] Hpre Hgr HgR. revert p h ts s. induction schedule as [|[j c] rest IH]; intros p h ts s Hts Hall Hi Hp;
    cbn [run_pool history].
  { intros [= <- <-]. exists p. by rewrite app_nil_r. }
  apply Forall_cons in Hall as [Hc Hall].
  destruct (pool_step j c ts s) as [[ts1 s1]|] eqn:Hstep; [|done]. intros Hrun.
  destruct (pool_step_safe σ j c ts s ts1 s1) as [Hts1 Hg]; try done.
  rewrite app_assoc. pose proof Hstep as Hs. unfold pool_step in Hs. destruct (ts !! j) as [q|] eqn:Hj; [|done].
  destruct (step c q s) as [[[q' s2] new]|] eqn:Hq; [|done]. injection Hs as <- ->.
  assert (Hlt : i < length ts) by by eapply lookup_lt_Some.
  destruct (decide (j = i)) as [->|Hne].
  - rewrite Hi. assert (q = p) as -> by congruence.
    destruct (step_follows p Q h c s q' s1 new Hrefl Hp Hq) as (_ & _ & Hq').
    eapply IH; [done|done| |exact Hq'|exact Hrun].
    rewrite lookup_app_l by by rewrite length_insert. by apply list_lookup_insert_eq.
  - rewrite app_nil_r. eapply IH; [done|done| | |exact Hrun].
    + rewrite lookup_app_l by by rewrite length_insert. rewrite list_lookup_insert_ne; [exact Hi|done].
    + apply (follows_stable p Q h s s1 Htrans); [|done]. destruct Hg as [Hg| ->]; [by apply HgR|apply Hrefl].
Qed.

(** What the program observed among others did. *)
Fixpoint among_history {A : Type} (schedule : list (option nat * Choice)) (p : prog (St := St) (Ext := Ext) A)
    (ts : list (prog (St := St) (Ext := Ext) unit)) (s : St) : list deed :=
  match schedule with
  | [] => []
  | (None, c) :: rest =>
      match step c p s with
      | Some (p', s', []) => did c p s ++ among_history rest p' ts s'
      | _ => []
      end
  | (Some i, c) :: rest =>
      match pool_step i c ts s with
      | Some (ts', s') => among_history rest p ts' s'
      | None => []
      end
  end.

(** Observed among tasks whose every step the rely allows, and the other way round. *)
Lemma run_among_follows {A : Type} σ Q h schedule (p p' : prog A) ts s ts' s' :
  PreOrder R → PreOrder (rely σ) → (∀ s s', guar σ s s' → rely σ s s') → (∀ s s', guar σ s s' → R s s') →
  (∀ h s s', G h s s' → rely σ s s') →
  pool_safe σ ts s → Forall (λ x, match x.1 with Some _ => allow σ x.2 | None => True end) schedule →
  follows p Q h s → run_among schedule p ts s = Some (p', ts', s') →
  follows p' Q (h ++ among_history schedule p ts s) s' ∧ pool_safe σ ts' s'.
Proof.
  intros [Hrefl Htrans] Hpre Hgr HgR HG. revert h p ts s.
  induction schedule as [|[[i|] c] rest IH]; intros h p ts s Hts Hall Hp; cbn [run_among among_history];
    [intros [= <- <- <-]; by rewrite app_nil_r|apply Forall_cons in Hall as [Hc Hall]; simpl in Hc..].
  - destruct (pool_step i c ts s) as [[ts1 s1]|] eqn:Hstep; [|done]. intros Hrun.
    destruct (pool_step_safe σ i c ts s ts1 s1) as [Hts1 Hg]; try done.
    eapply IH; [done|done| |exact Hrun].
    apply (follows_stable p Q h s s1 Htrans); [|done]. destruct Hg as [Hg| ->]; [by apply HgR|apply Hrefl].
  - destruct (step c p s) as [[[p1 s1] []]|] eqn:Hstep; try done. intros Hrun.
    destruct (step_follows p Q h c s p1 s1 [] Hrefl Hp Hstep) as (Hg & _ & Hp1).
    rewrite app_assoc. eapply IH; [|done|exact Hp1|exact Hrun].
    destruct Hpre as [_ Ht]. eapply pool_safe_stable; [exact Ht|by eapply HG|exact Hts].
Qed.

End Histories.

Arguments Did {Entry} _.
Arguments Won {Entry} _.

(** What is known of every step of a program may be added. *)
Lemma follows_steps_in {St Choice : Type} {Ext : Type → Type} `{Externals St Choice Ext} {Entry : Type}
    (obs : St → St → list Entry) R G {A : Type} ok (G0 : St → St → Prop) (p : prog (St := St) (Ext := Ext) A) Q h s :
  (∀ c, ok c) → steps_in ok G0 p → follows obs R G p Q h s →
  follows obs R (λ h s s', G h s s' ∧ G0 s s') p Q h s.
Proof.
  intros Hok. revert h s. induction p as [A a|A C f k IH|A C f k IH|A C D f g k IH|A p _ k IH|A];
    intros h s Hi Hp; simpl in *; try done.
  - intros s1 Hr. destruct (Hi s1), (Hp s1 Hr). auto.
  - intros s1 c b s2 Hr Hc. destruct (Hi s1 c b s2 (Hok c) Hc), (Hp s1 c b s2 Hr Hc). auto.
  - intros s1 c b s2 Hr Hc. destruct (Hi s1 c b s2 (Hok c) Hc), (Hp s1 c b s2 Hr Hc). auto.
Qed.

(** ** Histories of a client's programs *)

Section Logged.
Context {SM : SignalModel} {UM : UuidModel} {E : Type}.

Abbreviation St := (Client (E := E)).
Abbreviation deeds := (list (deed (Entry := LogEntry))).

(** What a step adds to the log. *)
Definition logged (s s' : St) : list LogEntry := drop (length (log s)) (log s').

(** Steps that leave nothing in the log, and those that leave one entry. *)
Lemma logged_same (s s' : St) : log s' = log s → Did (Entry := LogEntry) <$> logged s s' = [].
Proof. unfold logged. intros ->. by rewrite drop_all. Qed.
Lemma logged_add e (s : St) : Did (Entry := LogEntry) <$> logged s (add_log e s) = [Did e].
Proof. unfold logged. simpl. by rewrite drop_app_length. Qed.

End Logged.
