(* ===== verification/ClientSafety.v ===== *)
(** * What holds of a client under every interleaving

    The client's background tasks run beside any number of tasks built from its public
    methods; the theorems quantify over every schedule of them and over everything the
    transport, the timer, the reconnector and the peer may do. *)

From S2P Require Import Prelude Time Sync Envelope Platform ProtocolErrors Reconnect Keepalive Engine Client ClientInv ClientDemo History.
From stdpp Require Import base gmap strings list relations.

Section Safety.
Context {SM : SignalModel} {UM : UuidModel} {SJ : SerdeJson} {E : Type} {PE : ProtocolError E} {TErr : Type}.

Abbreviation St := (Client (E := E)).
Abbreviation Ch := (Choice (TErr := TErr)).
Abbreviation program A := (prog (St := St) (Ext := Ext (TErr := TErr)) A).

(** ** Initial states and tasks *)

Lemma client_new_wf k conn : client_wf (client_new (E := E) k conn).
Proof.
  split; simpl; auto using table_wf_empty; [by split|apply interval_to_millis_range|].
  split; [done|]. by intros ?%not_elem_of_nil.
Qed.

Lemma all_allowed {I} (schedule : list (I * Ch)) :
  Forall (λ x, not_mine (λ _, False) x.2) schedule.
Proof. apply Forall_forall. intros [i []] _; simpl; auto. Qed.

Lemma client_guar_weaken (mine mine' : Uuid → Prop) (d d' : Prop) s s' :
  (∀ u, mine' u → mine u) → (d → d') →
  client_guar (E := E) mine d s s' → client_guar mine' d' s s'.
Proof.
  intros Hm Hd [? ? ? (l & Hl & Hall) Hsp]. split; auto. exists l. split; [done|].
  eapply Forall_impl; [exact Hall|]. intros []; simpl; auto.
Qed.

Lemma user_tasks_safe mine d (users : list (program unit)) s :
  Forall (api unit) users → pool_safe (task_spec (TErr := TErr) mine d) users s.
Proof.
  intros Hu. eapply Forall_impl; [exact Hu|]. intros p Hp. by eapply keeps_safely, keeps_api.
Qed.

Lemma client_tasks_safe mine fuel conn config users s :
  Forall (api unit) users →
  pool_safe (task_spec (TErr := TErr) mine True)
    ((from_transport_with_config (E := E) fuel conn config).2 ++ users) s.
Proof.
  intros Hu. apply Forall_app. split; [|by apply user_tasks_safe].
  repeat constructor; [by apply safely_read_loop|apply keeps_safely, keeps_keepalive_loop].
Qed.

Lemma client_reachable fuel conn config (users : list (program unit)) schedule ts s :
  Forall (api unit) users →
  run_pool schedule ((from_transport_with_config fuel conn config).2 ++ users)
    (from_transport_with_config (E := E) (TErr := TErr) fuel conn config).1 = Some (ts, s) →
  client_wf s ∧ monotone (from_transport_with_config (E := E) (TErr := TErr) fuel conn config).1 s.
Proof.
  intros Hu Hrun.
  assert (Hrtc : rtc (client_guar (λ _, False) True) (client_new (config_keepalive config) conn) s).
  { eapply (run_pool_safe (task_spec (λ _, False) True)); [..|exact Hrun].
    - apply grows_preorder.
    - apply guar_grows.
    - by apply client_tasks_safe.
    - apply all_allowed. }
  apply rtc_preorder in Hrtc; [|apply client_guar_preorder].
  split; [apply Hrtc, client_new_wf|apply Hrtc].
Qed.

(** C6: at every moment of a client's life, whatever its background tasks, its users
    and the peer do, the shared tables are well formed: every pending request has its
    own unanswered waiter, every registered handler an open channel of its own, every
    outstanding ping its own unanswered waiter and a token that fits eight bytes; a
    waiter only ever holds what a frame for its own identifier said, a completed ping
    saw a pong with its own token; the keepalive interval fits its 32 bits; and nothing
    undoes a [disconnect], rewrites what was exchanged, or changes the keepalive
    policy. *)
Theorem client_invariant fuel conn config (users : list (program unit)) schedule ts s :
  Forall (api unit) users →
  run_pool schedule ((from_transport_with_config fuel conn config).2 ++ users)
    (from_transport_with_config (E := E) (TErr := TErr) fuel conn config).1 = Some (ts, s) →
  client_wf s ∧ monotone (from_transport_with_config (E := E) (TErr := TErr) fuel conn config).1 s.
Proof. apply client_reachable. Qed.

(** ** What a request may rely on, and what explains its outcome *)

Section Request.
Context {P R : Type} (to_value : P → result Value JsonError) (from_value : Value → result R JsonError).
Context (timeout : Duration) (request : P) (action : string) (id : Uuid).

(** The other tasks never draw [id]. *)
Abbreviation others := (client_guar (E := E) (λ u, u = id) True).

(** The CALL went out. *)
Definition call_sent (l : list LogEntry) : Prop :=
  ∃ conn payload frame,
    to_value request = Ok payload ∧
    to_string (ser_RawCall (mkRawCall MESSAGE_TYPE_CALL (uuid_to_string id) action payload)) = Ok frame ∧
    LSink conn (SinkSend frame) true ∈ l.

(** What each outcome says about the exchange with the peer. *)
Definition explained (l : list LogEntry) (r : result R (ClientError E JsonError TErr)) : Prop :=
  match r with
  | Ok x => call_sent l ∧ ∃ payload, answered l id (Ok payload) ∧ from_value payload = Ok x
  | Err (Protocol e) => call_sent l ∧ answered l id (Err e)
  | Err Timeout => call_sent l
  | Err (Transport _) => ∃ conn frame, LSink conn (SinkSend frame) false ∈ l
  | Err Closed => LClosed ∈ l
  | Err (Decode e) =>
      to_value request = Err e ∨
      (∃ payload, to_value request = Ok payload ∧
         to_string (ser_RawCall (mkRawCall MESSAGE_TYPE_CALL (uuid_to_string id) action payload)) = Err e) ∨
      (call_sent l ∧ ∃ payload, answered l id (Ok payload) ∧ from_value payload = Err e)
  end.

Lemma call_sent_app l l' : call_sent l → call_sent (l ++ l').
Proof. intros (conn & payload & frame & ? & ? & ?). exists conn, payload, frame. set_solver. Qed.

Lemma explained_app l l' r : explained l r → explained (l ++ l') r.
Proof.
  destruct r as [x|[e| |e|err|]]; simpl.
  - intros (? & payload & ? & ?). split; [by apply call_sent_app|]. exists payload.
    split; [by apply answered_app|done].
  - intros [? ?]. split; [by apply call_sent_app|by apply answered_app].
  - apply call_sent_app.
  - intros [?|[?|(? & payload & ? & ?)]]; [by left|by right; left|right; right].
    split; [by apply call_sent_app|]. exists payload. split; [by apply answered_app|done].
  - intros (conn & frame & ?). exists conn, frame. set_solver.
  - set_solver.
Qed.

(** The request has no entry; or its entry, if it still has one, is its own waiter. *)
Definition no_entry (s : St) : Prop := client_wf s ∧ entries (pending_responses s) !! id = None.
Definition own_entry (h : nat) (s : St) : Prop :=
  client_wf s ∧ keys (pending_responses s) !! h = Some id ∧
  (entries (pending_responses s) !! id = Some h ∨ entries (pending_responses s) !! id = None).

Lemma no_entry_stable s s' : others s s' → no_entry s → no_entry s'.
Proof. intros [Hw _ _ _ Hsp] [? ?]. destruct (Hsp id eq_refl) as [Hs|[Hs _]]; (split; [auto|congruence]). Qed.

Lemma own_entry_stable h s s' : others s s' → own_entry h s → own_entry h s'.
Proof.
  intros [Hw _ [Hk _] _ Hsp] (? & Hkey & ?). split; [auto|].
  split; [by eapply prefix_lookup_Some|].
  destruct (Hsp id eq_refl) as [Hs|[Hs _]]; rewrite Hs; auto.
Qed.

Lemma sent_stable s s' : others s s' → call_sent (log s) → call_sent (log s').
Proof. intros [_ _ _ (l & Hl & _) _ _]. rewrite Hl. apply call_sent_app. Qed.

(** A waiter that was answered is no longer in the table, and a frame explains it. *)
Lemma own_entry_answered h c s r s' :
  own_entry h s → poll (response_wait (TErr := TErr) h) c s = Some (r, s') →
  no_entry s' ∧ answered (log s') id r ∧ log s' = log s.
Proof.
  intros (Hwf & Hkey & Hid) Hp.
  assert (Hwf' : client_wf s') by (by apply (response_wait_keeps (λ _, False) True h _ _ _ _ Hp)).
  simpl in Hp. destruct (cells (pending_responses s) !! h) as [o|] eqn:Ho; [|done].
  destruct (oneshot_poll_wait o) as [[v o']|] eqn:Hv; simplify_eq/=.
  split; [split; [done|]|split; [by eapply (wf_cells _ _ _ (wf_pending _ Hwf))|done]].
  destruct Hid as [Hid|]; [|done]. simpl.
  destruct (wf_bound _ _ _ (wf_pending _ Hwf) _ _ Hid) as (o1 & Ho1 & Hu). unfold unset in Hu. congruence.
Qed.

(** ** The request, step by step *)

Definition request_spec : spec (St := St) (Choice := Ch) :=
  mkSpec (λ c, match c with CUuid u => u = id | _ => True end) others (λ _ _, True).

Definition settled (r : result R (ClientError E JsonError TErr)) (s : St) : Prop :=
  no_entry s ∧ explained (log s) r.

Abbreviation settles p := (safe request_spec p settled).

Lemma settles_ret r s : no_entry s → explained (log s) r → settles (Ret r) s.
Proof.
  intros Hs He s1 Hr. split; [by eapply no_entry_stable|].
  destruct Hr as [_ _ _ (l & Hl & _) _ _]. rewrite Hl. by apply explained_app.
Qed.

Lemma settles_forget h r s :
  own_entry h s → explained (log s) r → settles (bind (forget_pending id) (λ _, Ret r)) s.
Proof.
  intros Hs He s1 Hr. split; [done|].
  destruct (own_entry_stable _ _ _ Hr Hs) as [Hwf _]. apply settles_ret.
  - split; [|simpl; apply lookup_delete_eq].
    by apply (keeps_forget_pending (TErr := TErr) (λ _, False) True id (λ H, H) s1).
  - destruct Hr as [_ _ _ (l & Hl & _) _ _]. simpl. rewrite Hl. by apply explained_app.
Qed.

Lemma settles_response h s k :
  own_entry h s → call_sent (log s) →
  (∀ s, own_entry h s → call_sent (log s) → settles (k (Err Elapsed)) s) →
  (∀ r s, no_entry s → call_sent (log s) → answered (log s) id r → settles (k (Ok r)) s) →
  settles (bind (with_timeout timeout (response_wait h)) k) s.
Proof.
  intros Hs Hsent Ht Ha s1 c b s2 Hr Hc Hp. split; [done|].
  pose proof (own_entry_stable _ _ _ Hr Hs) as Hs1. pose proof (sent_stable _ _ Hr Hsent) as Hsent1.
  unfold poll_select in Hp.
  destruct (poll (response_wait h) c s1) as [[v s']|] eqn:Hw.
  - injection Hp as <- <-. destruct (own_entry_answered _ _ _ _ _ Hs1 Hw) as (? & ? & Hl).
    apply Ha; [done|by rewrite Hl|done].
  - destruct c; try discriminate Hp. injection Hp as <- <-.
    destruct Hs1 as [Hwf ?]. apply Ht; [|by apply call_sent_app].
    split; [|done]. by apply (guar_log (λ _, False) True).
Qed.

Lemma settles_request s :
  no_entry s → settles (do_send_request to_value from_value timeout request action) s.
Proof.
  intros Hs s1 Hr1. split; [done|]. pose proof (no_entry_stable _ _ Hr1 Hs) as Hs1. simpl.
  destruct (closed s1) eqn:Hcl; [apply settles_ret; [done|by apply (wf_closed _ (proj1 Hs1))]|].
  intros s2 c b s3 Hr2 Hc Hp. split; [done|]. pose proof (no_entry_stable _ _ Hr2 Hs1) as Hs2.
  destruct c as [u| | | |]; try discriminate Hp. injection Hp as -> ->. simpl in Hc. subst b.
  destruct (to_value request) as [payload|e] eqn:Hv; [|apply settles_ret; [done|by left]].
  destruct (to_string _) as [frame|e] eqn:Hf; [|apply settles_ret; [done|right; left; by eauto]].
  intros s4 Hr4. split; [done|]. destruct (no_entry_stable _ _ Hr4 Hs2) as [Hwf Hid].
  assert (Hown : own_entry (length (cells (pending_responses s4)))
    (set_pending (table_insert id oneshot_new (pending_responses s4)).2 s4)).
  { split; [by apply (keeps_insert_pending (TErr := TErr) (λ _, False) True id (λ H, H) s4)|]. simpl.
    split; [|left; apply lookup_insert_eq].
    rewrite <-(wf_length _ _ _ (wf_pending _ Hwf)). apply lookup_snoc_new. }
  intros s5 c' b s6 Hr5 _ Hp. split; [done|]. destruct c' as [|r| | |]; try discriminate Hp.
  injection Hp as <- <-. pose proof (own_entry_stable _ _ _ Hr5 Hown) as (Hwf5 & Hown5).
  assert (Hown6 : own_entry (length (cells (pending_responses s4)))
    (add_log (LSink (sink s5) (SinkSend frame) (is_ok r)) s5)).
  { split; [|done]. by apply (guar_log (λ _, False) True). }
  destruct r as [[]|err]; cbn [bind is_ok];
    [|eapply settles_forget; [done|]; exists (sink s5), frame; set_solver].
  apply settles_response; [done| | |].
  - exists (sink s5), payload, frame. set_solver.
  - intros s' Hs' ?. by eapply settles_forget.
  - intros [v|e] s' Hs' ? ?; [|by apply settles_ret].
    cbn [bind map_err]. destruct (from_value v) eqn:Hd; (apply settles_ret; [done|]); simpl; eauto 6.
Qed.

End Request.

(** The observed request draws [id], and nobody else does. *)
Definition draws_only (id : Uuid) (x : option nat * Ch) : Prop :=
  match x with
  | (None, CUuid u) => u = id
  | (Some _, CUuid u) => u ≠ id
  | _ => True
  end.

Abbreviation call_spec id :=
  (mkSpec (allow (request_spec id)) (rely (request_spec id))
     (λ s s', guar (request_spec id) s s' ∧ client_guar (E := E) (λ _, False) True s s')).

(** A [call] among a client's tasks and its other users, at any moment. *)
Lemma call_among fuel conn config users id timeout A request schedule p ts s :
  Forall (api unit) users → Forall (draws_only id) schedule →
  run_among schedule (call timeout A request)
    ((from_transport_with_config fuel conn config).2 ++ users)
    (from_transport_with_config (E := E) (TErr := TErr) fuel conn config).1 = Some (p, ts, s) →
  safe (call_spec id) p (settled (ser_request A) (de_response A) request (NAME A) id) s ∧
  pool_safe (task_spec (λ u, u = id) True) ts s.
Proof.
  intros Hu Hsched Hrun.
  assert (Hstart : no_entry id (client_new (E := E) (config_keepalive config) conn)).
  { split; [apply client_new_wf|apply lookup_empty]. }
  pose proof (safe_steps_in _ (not_mine (λ _, False)) (client_guar (λ _, False) True) _ _ _
    (λ c _, ltac:(destruct c; simpl; auto)) (keeps_call _ _ timeout A request)
    (settles_request (ser_request A) (de_response A) timeout request (NAME A) id _ Hstart))
    as Hcall.
  eapply (run_among_both _ (task_spec (λ u, u = id) True)); [..|exact Hcall| | |exact Hrun].
  - apply client_guar_preorder.
  - apply grows_preorder.
  - done.
  - intros s1 s2 [_ Hg]. by eapply guar_grows.
  - apply guar_grows.
  - by apply client_tasks_safe.
  - eapply Forall_impl; [exact Hsched|]. intros [[i|] []]; simpl; auto.
Qed.

(** ... and when it returns. *)
Lemma call_settled fuel conn config users id timeout A request schedule r ts s :
  Forall (api unit) users → Forall (draws_only id) schedule →
  run_among schedule (call timeout A request)
    ((from_transport_with_config fuel conn config).2 ++ users)
    (from_transport_with_config (E := E) (TErr := TErr) fuel conn config).1 = Some (Ret r, ts, s) →
  settled (ser_request A) (de_response A) request (NAME A) id r s.
Proof.
  intros Hu Hsched Hrun. destruct (call_among _ _ _ _ _ _ _ _ _ _ _ _ Hu Hsched Hrun) as [Hcall _].
  apply (Hcall s). simpl. reflexivity.
Qed.

(** C5: no request leaks.  A [call] runs at any moment of a client's life, among the
    client's own tasks and any number of other users, under any schedule in which its
    message identifier is not drawn twice; whatever it returns (a response, a protocol
    error, a decoding error, a transport error, a timeout, or that the client is
    closed), its entry in the table of pending requests is gone when it returns. *)
Theorem call_leaves_nothing_pending fuel conn config users id timeout A request schedule r ts s :
  Forall (api unit) users → Forall (draws_only id) schedule →
  run_among schedule (call timeout A request)
    ((from_transport_with_config fuel conn config).2 ++ users)
    (from_transport_with_config (E := E) (TErr := TErr) fuel conn config).1 = Some (Ret r, ts, s) →
  entries (pending_responses s) !! id = None.
Proof. intros Hu Hs Hrun. by apply (call_settled _ _ _ _ _ _ _ _ _ _ _ _ Hu Hs Hrun). Qed.

(** C3: a [call] returns what the peer answered to it, and nothing else.  Under the
    same interleavings: a response is the decoded payload of a CALLRESULT frame that was
    received with this call's own message identifier, a protocol error is what a
    CALLERROR frame with that identifier carried, in both cases and for a timeout the
    CALL frame was accepted by the transport; a transport error means a write failed,
    [Closed] that the client was shut down, a decoding error that the request could not
    be encoded or the matching response not decoded. *)
Theorem call_outcome_explained fuel conn config users id timeout A request schedule r ts s :
  Forall (api unit) users → Forall (draws_only id) schedule →
  run_among schedule (call timeout A request)
    ((from_transport_with_config fuel conn config).2 ++ users)
    (from_transport_with_config (E := E) (TErr := TErr) fuel conn config).1 = Some (Ret r, ts, s) →
  explained (ser_request A) (de_response A) request (NAME A) id (log s) r.
Proof. intros Hu Hs Hrun. by apply (call_settled _ _ _ _ _ _ _ _ _ _ _ _ Hu Hs Hrun). Qed.

(** ** Pings *)

Abbreviation deeds := (list (deed (Entry := LogEntry))).

Abbreviation anyone := (client_guar (E := E) (λ _, False) True).

(** What an outcome says about the ping's own history [own], and about the log of the
    client: the token is the one this very ping has written. *)
Definition ping_explained (timeout : Duration) (own : deeds) (l : list LogEntry)
    (r : result unit (ClientError E JsonError TErr)) : Prop :=
  match r with
  | Ok _ => ∃ conn token, is_u64 token ∧
      own = [Did (LSink conn (SinkPing (token_bytes token)) true); Won true] ∧
      LSink conn (SinkPing (token_bytes token)) true ∈ l ∧ LRecv (Pong (token_bytes token)) ∈ l
  | Err Timeout => ∃ conn token, is_u64 token ∧
      own = [Did (LSink conn (SinkPing (token_bytes token)) true); Won false; Did (LDelay timeout)]
  | Err (Transport _) => ∃ conn token, is_u64 token ∧
      own = [Did (LSink conn (SinkPing (token_bytes token)) false)]
  | Err Closed => own = [] ∧ LClosed ∈ l
  | Err (Decode _) | Err (Protocol _) => False
  end.

Lemma ping_explained_app timeout own l l' r : ping_explained timeout own l r → ping_explained timeout own (l ++ l') r.
Proof.
  destruct r as [[]|[e| |e|err|]]; simpl; try done; [|set_solver].
  intros (conn & token & ? & ? & ? & ?). exists conn, token. set_solver.
Qed.

Lemma anyone_log s s' : anyone s s' → ∃ l, log s' = log s ++ l.
Proof. intros [_ _ _ (l & -> & _) _ _]. by exists l. Qed.

(** The ping beside others that keep the client's guarantee. *)
Abbreviation pings timeout p own s :=
  (follows (Ext := Ext (TErr := TErr)) logged anyone (λ _ _ _, True) p
     (λ r0 own0 s0, ping_explained timeout own0 (log s0) r0) own s).

Lemma pings_ret timeout r own s : ping_explained timeout own (log s) r → pings timeout (Ret r) own s.
Proof.
  intros He s1 Hr. destruct (anyone_log _ _ Hr) as [l ->]. by apply ping_explained_app.
Qed.

Lemma pings_forget timeout token r own s :
  ping_explained timeout own (log s) r → pings timeout (bind (forget_ping token) (λ _, Ret r)) own s.
Proof.
  intros He s1 Hr. split; [done|]. rewrite logged_same by done. rewrite app_nil_r. apply pings_ret. simpl.
  destruct (anyone_log _ _ Hr) as [l ->]. by apply ping_explained_app.
Qed.

(** The ping's waiter: its token never changes. *)
Definition own_ping (h : nat) (token : Z) (s : St) : Prop :=
  client_wf s ∧ keys (waiters (pong_waiters s)) !! h = Some token.

Lemma own_ping_stable h token s s' : anyone s s' → own_ping h token s → own_ping h token s'.
Proof. intros [Hw _ [_ Hk] _ _] [? ?]. split; [auto|by eapply prefix_lookup_Some]. Qed.

Lemma own_ping_answered h token c s u s' :
  own_ping h token s → poll (pong_wait (TErr := TErr) h) c s = Some (u, s') →
  LRecv (Pong (token_bytes token)) ∈ log s' ∧ log s' = log s.
Proof.
  intros [Hwf Hkey] Hp. simpl in Hp.
  destruct (cells (waiters (pong_waiters s)) !! h) as [o|] eqn:Ho; [|done].
  destruct (oneshot_poll_wait o) as [[v o']|] eqn:Hv; simplify_eq/=. split; [|done].
  destruct (wf_cells _ _ _ (wf_pongs _ Hwf) _ _ _ Hkey Ho) as [_ [Hu|]]; [|done].
  unfold unset in Hu. congruence.
Qed.

Lemma pings_wait h token timeout conn s :
  is_u64 token → own_ping h token s → LSink conn (SinkPing (token_bytes token)) true ∈ log s →
  pings timeout
    (bind (with_timeout timeout (pong_wait h)) (λ r,
       match r with
       | Ok _ => Ret (Ok tt)
       | Err Elapsed => bind (forget_ping token) (λ _, Ret (Err Timeout))
       end)) [Did (LSink conn (SinkPing (token_bytes token)) true)] s.
Proof.
  intros Ht Hs Hsent s1 c b s2 Hr Hp. split; [done|].
  pose proof (own_ping_stable _ _ _ _ Hr Hs) as Hs1. destruct (anyone_log _ _ Hr) as [l Hl].
  unfold poll_select in Hp. destruct (poll (pong_wait h) c s1) as [[v s']|] eqn:Hw.
  - injection Hp as <- <-. destruct (own_ping_answered _ _ _ _ _ _ Hs1 Hw) as [? Hl'].
    rewrite logged_same by done. apply pings_ret. exists conn, token. rewrite Hl', Hl in *. set_solver.
  - destruct c; try discriminate Hp. injection Hp as <- <-. rewrite logged_add.
    apply pings_forget. by exists conn, token.
Qed.

Lemma pings_send timeout s : client_wf s → pings timeout (send_ping_with_timeout timeout) [] s.
Proof.
  intros Hs s1 Hr1. split; [done|]. assert (Hs1 : client_wf s1) by (by apply Hr1).
  rewrite logged_same by done. simpl fst. simpl snd.
  destruct (closed s1) eqn:Hcl; [apply pings_ret; split; [done|by apply (wf_closed _ Hs1)]|].
  intros s2 Hr2. split; [done|]. assert (Hs2 : client_wf s2) by (by apply Hr2).
  pose proof (wf_token _ Hs2) as Htok. rewrite logged_same by done.
  assert (Hown : own_ping (length (cells (waiters (pong_waiters s2)))) (next_token (pong_waiters s2))
    (insert_ping_state s2).2).
  { split; [by apply (keeps_insert_ping (TErr := TErr) (λ _, False) True s2)|]. simpl.
    rewrite <-(wf_length _ _ _ (wf_pongs _ Hs2)). apply lookup_snoc_new. }
  intros s3 c b s4 Hr3 Hp. split; [done|]. destruct c as [|r| | |]; try discriminate Hp.
  injection Hp as <- <-. destruct (own_ping_stable _ _ _ _ Hr3 Hown) as [Hwf3 Hkey3].
  rewrite logged_add. destruct r as [[]|err]; cbn [bind is_ok].
  - apply (pings_wait _ _ _ (sink s3)); [done| |simpl; set_solver]. split; [|done].
    by apply (guar_log (λ _, False) True).
  - apply pings_forget. exists (sink s3), (next_token (pong_waiters s2)). by split.
Qed.

(** A program observed among a client's tasks, relying only on what they all keep. *)
Lemma settled_among {A} (p : program A) allowed G Q schedule ts s r ts' s' :
  (∀ c, not_mine (λ _, False) c → allowed c) → (∀ s s', G s s' → anyone s s') →
  safe (mkSpec allowed anyone G) p Q s → pool_safe (task_spec (TErr := TErr) (λ _, False) True) ts s →
  run_among schedule p ts s = Some (Ret r, ts', s') → Q r s'.
Proof.
  intros Hall HG Hp Hts Hrun.
  eapply (run_among_safe _ (task_spec (λ _, False) True)) in Hp; [..|exact Hrun].
  - apply (Hp s'). simpl. reflexivity.
  - apply client_guar_preorder.
  - apply grows_preorder.
  - done.
  - intros s1 s2 Hg. by eapply guar_grows, HG.
  - apply guar_grows.
  - done.
  - apply Forall_forall. intros [[i|] c] _; simpl; [by destruct c; simpl; auto|].
    apply Hall. by destruct c; simpl; auto.
Qed.

Abbreviation ping_history fuel conn config users timeout schedule :=
  (among_history logged schedule (send_ping timeout : program (result unit (ClientError E JsonError TErr)))
     ((from_transport_with_config fuel conn config).2 ++ users)
     (from_transport_with_config (E := E) (TErr := TErr) fuel conn config).1).

Lemma ping_among fuel conn config users timeout schedule r ts s :
  Forall (api unit) users →
  run_among schedule (send_ping timeout)
    ((from_transport_with_config fuel conn config).2 ++ users)
    (from_transport_with_config (E := E) (TErr := TErr) fuel conn config).1 = Some (Ret r, ts, s) →
  ping_explained timeout (ping_history fuel conn config users timeout schedule) (log s) r.
Proof.
  intros Hu Hrun.
  pose proof (pings_send timeout _ (client_new_wf (config_keepalive config) conn)) as Hping.
  apply (follows_steps_in _ _ _ (not_mine (λ _, False)) anyone) in Hping;
    [|intros []; simpl; auto|apply keeps_send_ping].
  eapply (run_among_follows _ _ _ (task_spec (λ _, False) True)) in Hrun; [| | | | | | | |exact Hping].
  - apply Hrun. apply client_guar_preorder.
  - apply client_guar_preorder.
  - apply grows_preorder.
  - apply guar_grows.
  - done.
  - intros h s1 s2 [_ Hg]. by eapply guar_grows.
  - by apply client_tasks_safe.
  - apply Forall_forall. intros [[i|] []]; simpl; auto.
Qed.

(** C19: a successful ping is exact.  Under every interleaving, beside the keepalive
    task's pings and those of any users: [send_ping] succeeds only if it has itself
    written one ping, with a token of 64 bits, then found its own waiter completed, and
    a pong echoing that very token, byte for byte, was received; pongs with the tokens of
    other pings are not enough.  It times out only after its ping went out
    and its own timer fired, reports a transport error only if its own write failed, and
    [Closed] only after a shutdown, having written nothing. *)
Theorem ping_outcome_explained fuel conn config users timeout schedule r ts s :
  Forall (api unit) users →
  run_among schedule (send_ping timeout)
    ((from_transport_with_config fuel conn config).2 ++ users)
    (from_transport_with_config (E := E) (TErr := TErr) fuel conn config).1 = Some (Ret r, ts, s) →
  ping_explained timeout (ping_history fuel conn config users timeout schedule) (log s) r.
Proof. apply ping_among. Qed.

(** ** Temporary registrations *)

Section WaitFor.
Context (name : string) (h : nat).

(** The channel [h] was registered for [name], and is still bound to it or to nothing. *)
Definition own_chan (s : St) : Prop :=
  client_wf s ∧ h < length (cells (request_senders s)) ∧
  ∀ k, entries (request_senders s) !! k = Some h → k = name.

(** Nobody can reach it any more. *)
Definition unregistered (s : St) : Prop :=
  h < length (cells (request_senders s)) ∧ ∀ k, entries (request_senders s) !! k ≠ Some h.

Definition wait_spec : spec (St := St) (Choice := Ch) :=
  mkSpec (not_mine (λ _, False)) anyone anyone.

Lemma own_chan_stable s s' : anyone s s' → own_chan s → own_chan s'.
Proof.
  intros [Hwf _ _ _ _ [Hl He]] (? & ? & Hk). split; [auto|]. split; [lia|]. eauto.
Qed.

Lemma unregistered_stable s s' : anyone s s' → unregistered s → unregistered s'.
Proof. intros [_ _ _ _ _ [Hl He]] [? Hk]. split; [lia|]. intros k Hh. eapply Hk, He; done. Qed.

Lemma owning_then {A B} (p : program A) (k : A → program B) Q s :
  steps_in (not_mine (λ _, False)) anyone p → own_chan s →
  (∀ a s', own_chan s' → safe wait_spec (k a) Q s') → safe wait_spec (bind p k) Q s.
Proof.
  intros Hp Hs Hk. apply safe_then; [apply client_guar_preorder|done| |].
  - by apply (steps_in_safe _ (not_mine (λ _, False)) anyone).
  - intros a s' Hr. apply Hk. by eapply own_chan_stable.
Qed.

Lemma deregister_own_safe {A} (a : A) s :
  own_chan s →
  safe wait_spec (bind (deregister_own name h) (λ _, Ret a)) (λ _, unregistered) s.
Proof.
  intros Hs s1 Hr. split; [by apply (keeps_deregister_own (TErr := TErr) (λ _, False) True name h s1)|].
  destruct (own_chan_stable _ _ Hr Hs) as (Hwf & Hl & Hk). intros s2 Hr2.
  apply (unregistered_stable _ _ Hr2). simpl.
  destruct (entries (request_senders s1) !! name) as [h'|] eqn:Hn.
  - case_decide; subst; simpl.
    + split; simpl; [done|]. intros k [? Hh]%lookup_delete_Some. by apply Hk in Hh.
    + split; [done|]. intros k Hh. pose proof (Hk _ Hh) as ->. congruence.
  - split; [done|]. intros k Hh. pose proof (Hk _ Hh) as ->. congruence.
Qed.

End WaitFor.

(** The state right after the registration. *)
Lemma register_own name s h t :
  client_wf s → register_chan name (request_senders s) = (h, t) →
  h = length (cells (request_senders s)) ∧ anyone s (set_requests t s) ∧ own_chan name h (set_requests t s).
Proof.
  intros Hwf Hreg. pose proof (keeps_register_request (TErr := TErr) (λ _, False) True name s) as [Hg _].
  simpl in Hg. rewrite Hreg in Hg. destruct (register_chan_binds _ _ _ _ Hreg) as (Hh & He & Hl).
  split; [done|]. split; [done|]. split; [by apply Hg|]. simpl. split; [lia|].
  intros k. rewrite He, lookup_insert. case_decide; [done|].
  intros (v & Hv & _)%(wf_bound _ _ _ (wf_requests _ Hwf)). apply lookup_lt_Some in Hv. lia.
Qed.

(** C30: [wait_for] always takes its registration back.  It registers at any moment of
    a client's life and then runs among the client's tasks and other users, who may
    send it requests, register handlers of their own for the same action, or shut the
    client down; however it ends (a request answered, a payload that does not parse, a
    registration superseded by another, a timeout), the channel it registered is bound
    to no action when it returns, so that no later CALL is queued for nobody. *)
Theorem wait_for_deregisters fuel conn config users before ts s0 timeout A
    (callback : Request A → program (result (Response A) E)) c schedule r ts' s :
  Forall (api unit) users → (∀ request, api _ (callback request)) →
  run_pool before ((from_transport_with_config fuel conn config).2 ++ users)
    (from_transport_with_config (E := E) (TErr := TErr) fuel conn config).1 = Some (ts, s0) →
  run_among ((None, c) :: schedule) (wait_for timeout A callback) ts s0 = Some (Ret r, ts', s) →
  let chan := length (cells (request_senders s0)) in
  ∀ action, entries (request_senders s) !! action ≠ Some chan.
Proof.
  intros Hu Hcb Hbefore Hrun.
  destruct (run_pool_safe (task_spec (λ _, False) True) before
    ((from_transport_with_config fuel conn config).2 ++ users) _ ts s0 grows_preorder (guar_grows _ _)
    (client_tasks_safe (λ _, False) fuel conn config users _ Hu) (all_allowed before) Hbefore)
    as [Hts Hrtc].
  apply rtc_preorder in Hrtc; [|apply client_guar_preorder].
  assert (Hwf : client_wf s0) by apply Hrtc, client_new_wf.
  revert Hrun. cbn [run_among wait_for bind register_request atomic step].
  destruct (register_chan (NAME A) (request_senders s0)) as [h t] eqn:Hreg.
  destruct (register_own _ _ _ _ Hwf Hreg) as (<- & Hg & Hown). intros Hrun.
  assert (Hs : unregistered h s); [|apply Hs].
  eapply (settled_among _ _ _ (λ _, unregistered h)); [| | | |exact Hrun]; [done..| |].
  - apply (owning_then (NAME A) h); [by apply keeps_with_timeout, request_recv_keeps|done|].
    intros x s1 Hs1. apply (owning_then (NAME A) h); [|done|].
    + apply keeps_wait_outcome. intros request. eapply keeps_api, Hcb.
    + intros o s2. apply deregister_own_safe.
  - eapply pool_safe_stable; [apply grows_preorder| |exact Hts]. by eapply guar_grows.
Qed.

(** ** Shutdown and dialling *)

Definition is_dial (e : LogEntry) : bool := match e with LDial _ => true | _ => false end.

Definition count_dials (l : list LogEntry) : nat := length (List.filter is_dial l).

(** How many dials completed after the client was shut down. *)
Fixpoint dials_after_close (l : list LogEntry) : nat :=
  match l with
  | [] => 0
  | LClosed :: l => count_dials l
  | _ :: l => dials_after_close l
  end.

Lemma count_dials_app l l' : count_dials (l ++ l') = count_dials l + count_dials l'.
Proof. unfold count_dials. by rewrite List.filter_app, length_app. Qed.

Lemma count_dials_none l : Forall (may_log False) l → count_dials l = 0.
Proof. induction 1 as [|[] l]; simpl in *; auto; done. Qed.

Lemma dials_after_close_app l l' :
  dials_after_close (l ++ l') ≤ dials_after_close l + count_dials l' ∧
  (LClosed ∉ l → dials_after_close l = 0).
Proof.
  induction l as [|e l [IH1 IH2]]; simpl.
  - split; [|done]. induction l' as [|[] l' IH]; simpl; unfold count_dials in *; simpl; lia.
  - destruct e; simpl; (split; [|intros Hn; try (apply IH2; set_solver)]); try done;
      [rewrite count_dials_app; lia|set_solver].
Qed.

(** At most one dial completed after the shutdown; none did. *)
Definition dials_bounded (s : St) : Prop := client_wf s ∧ dials_after_close (log s) ≤ 1.
Definition dials_none (s : St) : Prop := client_wf s ∧ dials_after_close (log s) = 0.

Abbreviation no_dial := (client_guar (E := E) (λ _, False) False).

Lemma no_dial_bound n s s' :
  no_dial s s' → dials_after_close (log s) ≤ n → dials_after_close (log s') ≤ n.
Proof.
  intros [_ _ _ (l & -> & Hl) _ _] Hn. apply count_dials_none in Hl.
  pose proof (dials_after_close_app (log s) l) as [? _]. lia.
Qed.

Lemma no_dial_bounded s s' : no_dial s s' → dials_bounded s → dials_bounded s'.
Proof. intros Hg [? ?]. split; [by apply Hg|by eapply no_dial_bound]. Qed.

Lemma no_dial_none s s' : no_dial s s' → dials_none s → dials_none s'.
Proof.
  intros Hg [? ?]. split; [by apply Hg|].
  pose proof (no_dial_bound 0 _ _ Hg). lia.
Qed.

Definition loop_spec : spec (St := St) (Choice := Ch) :=
  mkSpec (λ _, True) no_dial (λ s s', grows s s' ∧ (dials_bounded s → dials_bounded s')).

Abbreviation bounded p s := (safe loop_spec p (λ _, dials_bounded) s).

(** A part of the loop that does not dial. *)
Lemma bounded_quiet {A} (p : program A) s :
  dials_bounded s → safe (task_spec (λ _, False) False) p (λ _ _, True) s → bounded p s.
Proof.
  intros Hs Hp. apply (safe_weaken _ loop_spec) in Hp.
  - revert Hp. apply safe_invariant; [apply no_dial_bounded|by intros ? ? []|done].
  - intros c _. destruct c; simpl; auto.
  - apply guar_grows.
  - intros s1 s2 Hg. split; [exact (guar_grows _ _ _ _ Hg)|exact (no_dial_bounded _ _ Hg)].
Qed.

Lemma bounded_keeps {A} (p : program A) s :
  dials_bounded s → steps_in (not_mine (λ _, False)) no_dial p → bounded p s.
Proof. intros Hs Hp. by apply bounded_quiet, keeps_safely. Qed.

Lemma bounded_bind {A B} (p : program A) (k : A → program B) s :
  bounded p s → (∀ a s, dials_bounded s → bounded (k a) s) → bounded (bind p k) s.
Proof. intros Hp Hk. eapply safe_bind; [intros s'; apply guar_refl|exact Hp|done]. Qed.

(** The dial itself: the loop has just seen the client open. *)
Lemma bounded_dial {A} (k : result nat TErr → program A) s :
  dials_none s → (∀ r s, dials_bounded s → bounded (k r) s) →
  bounded (bind (await (FExt Dial)) k) s.
Proof.
  intros Hs Hk s1 c r s2 Hr _ Hp. destruct c as [| | | |d]; try discriminate Hp.
  injection Hp as <- <-. destruct (no_dial_none _ _ Hr Hs) as [Hwf1 Hn1].
  assert (dials_bounded (add_log (LDial (is_ok d)) s1)).
  { split; [by apply (guar_log (λ _, False) True)|]. simpl.
    pose proof (dials_after_close_app (log s1) [LDial (is_ok d)]) as [Hle _].
    unfold count_dials in Hle. simpl in Hle. lia. }
  split; [split; [by apply prefix_app_r|done]|by apply Hk].
Qed.

Lemma bounded_redial fuel p attempt s :
  dials_bounded s → bounded (redial_loop fuel p attempt) s.
Proof.
  revert attempt s. induction fuel as [|fuel IH]; intros attempt s Hs; cbn [redial_loop]; [done|].
  apply bounded_bind; [by apply bounded_keeps, keeps_next_delay|]. clear s Hs. intros delay s Hs.
  apply bounded_bind.
  { apply bounded_keeps; [done|]. apply keeps_with_cancel; [apply delay_keeps|apply force_wait_keeps]. }
  clear s Hs. intros r s Hs. apply bounded_bind.
  { apply bounded_keeps; [done|]. destruct r as [|[]]; [done|apply keeps_is_closed]. }
  clear s Hs. intros abandoned s Hs. destruct abandoned; [by apply bounded_keeps|].
  intros s1 Hr1. pose proof (no_dial_bounded _ _ Hr1 Hs) as [Hwf1 Hb1]. split; [done|]. cbn [fst snd].
  destruct (closed s1) eqn:Hc; [by apply bounded_keeps|].
  apply bounded_dial.
  - split; [done|]. apply (dials_after_close_app (log s1) []).
    intros Hin. apply (wf_closed _ Hwf1) in Hin. congruence.
  - clear s Hs s1 Hr1 Hwf1 Hb1 Hc. intros [conn|err] s Hs; [|by apply IH].
    apply bounded_keeps; [done|]. apply keeps_install.
Qed.

Lemma bounded_turn fuel timeout reconnector p stream attempt s :
  dials_bounded s → bounded (connection_turn fuel timeout reconnector p stream attempt) s.
Proof.
  intros Hs. apply bounded_bind; [by apply bounded_quiet, safely_read_connection|].
  clear s Hs. intros [reason attempt'] s Hs. cbn [fst snd]. apply bounded_bind.
  { apply bounded_keeps; [done|]. destruct reason; [apply keeps_is_closed|apply keeps_is_closed|done]. }
  clear s Hs. intros stop s Hs. destruct stop; [by apply bounded_keeps, keeps_end_loop|].
  destruct (negb reconnector); [by apply bounded_keeps|].
  apply bounded_bind; [by apply bounded_keeps, keeps_courtesy_close|]. clear s Hs. intros _ s Hs.
  apply bounded_bind; [by apply bounded_keeps, keeps_clear_pongs|]. clear s Hs. intros _ s Hs.
  by apply bounded_redial.
Qed.

Lemma bounded_read_loop fuel timeout reconnector p stream attempt s :
  dials_bounded s → bounded (read_loop fuel timeout reconnector p stream attempt) s.
Proof.
  revert stream attempt s.
  induction fuel as [|fuel IH]; intros stream attempt s Hs; cbn [read_loop]; [done|].
  apply bounded_bind; [by apply bounded_turn|]. clear s Hs. intros [[stream' attempt']|] s Hs.
  - by apply IH.
  - by apply bounded_keeps.
Qed.

(** C18: a shutdown is not undone by the reconnector.  Under every interleaving of the
    read loop, the keepalive task and any users, at most one dial completes after
    [disconnect] has set the closed flag: the one that was already under way. *)
Theorem disconnect_stops_dialling fuel conn config users loop rest schedule p ts s :
  (from_transport_with_config (E := E) (TErr := TErr) fuel conn config).2 = loop :: rest →
  Forall (api unit) users →
  run_among schedule loop (rest ++ users)
    (from_transport_with_config (E := E) (TErr := TErr) fuel conn config).1 = Some (p, ts, s) →
  dials_after_close (log s) ≤ 1.
Proof.
  intros [= <- <-] Hu Hrun.
  assert (Hstart : dials_bounded (client_new (config_keepalive config) conn)).
  { split; [apply client_new_wf|simpl; lia]. }
  eapply (run_among_steps loop_spec (task_spec (λ _, False) False)) in Hrun.
  - eapply (rtc_invariant _ dials_bounded) in Hrun; [apply Hrun| |exact Hstart].
    intros s1 s2 [[_ H]|Hg]; [apply H|exact (no_dial_bounded _ _ Hg)].
  - apply client_guar_preorder.
  - apply grows_preorder.
  - done.
  - by intros s1 s2 [].
  - apply guar_grows.
  - by apply bounded_read_loop.
  - apply Forall_app. split; [|by apply user_tasks_safe].
    repeat constructor. apply keeps_safely, keeps_keepalive_loop.
  - apply Forall_forall. intros [[i|] []]; simpl; auto.
Qed.

End Safety.

(** ** Witnesses *)

Definition demo_explained (s : DemoSt)
    (r : result Value (ClientError V1_6.OCPP1_6Error JsonError unit)) : Prop :=
  explained (E := V1_6.OCPP1_6Error) Ok Ok VNull "Heartbeat" 7%N (log s) r.

Lemma demo_schedule_draws : Forall (draws_only 7%N) demo_schedule.
Proof. repeat constructor. Defined.

Lemma client_invariant_witness :
  match run_pool [(2, CTimer : demo_choice); (0, CRecv (Ok (Some (Ping []))))]
          (demo_client.2 ++ demo_users) demo_client.1 with
  | Some x => client_wf x.2
  | None => False
  end.
Proof.
  apply (ran_elim (λ x, client_wf x.2)); [vm_compute; reflexivity|]. intros [ts s] Hrun.
  exact (proj1 (client_invariant 3 0 demo_config demo_users _ ts s demo_users_api Hrun)).
Defined.

Lemma call_leaves_nothing_pending_witness :
  match demo_call_run with
  | Some (Ret _, _, s) => entries (pending_responses s) !! 7%N = None
  | _ => False
  end.
Proof.
  apply (returned_elim (λ _ s, entries (pending_responses s) !! 7%N = None)); [vm_compute; reflexivity|].
  intros r ts s Hrun.
  exact (call_leaves_nothing_pending 3 0 demo_config demo_users 7%N (from_secs 30) demo_action VNull
           demo_schedule r ts s demo_users_api demo_schedule_draws Hrun).
Defined.

Lemma call_outcome_explained_witness :
  match demo_call_run with
  | Some (Ret r, _, s) => demo_explained s r
  | _ => False
  end.
Proof.
  apply (returned_elim (λ r s, demo_explained s r));
    [vm_compute; reflexivity|]. intros r ts s Hrun.
  exact (call_outcome_explained 3 0 demo_config demo_users 7%N (from_secs 30) demo_action VNull
           demo_schedule r ts s demo_users_api demo_schedule_draws Hrun).
Defined.

(** The ping goes out, its pong comes back. *)
(** Two pings are out, the observed one with token 1 after a user's with token 0; the
    pong of the other arrives first and completes nothing here. *)
Definition pinging_users : list (demo_program unit) := [bind (send_ping (from_secs 30)) (λ _, Ret tt)].

Lemma pinging_users_api : Forall (api unit) pinging_users.
Proof. constructor; [|constructor]. apply (api_bind _ _ _ (send_ping _)); [apply api_send_ping|intros; apply api_ret]. Defined.

Definition two_pings : list (option nat * demo_choice) :=
  [(Some 2, CTimer); (Some 2, CTimer); (Some 2, CSink (Ok tt)); (None, CTimer); (None, CTimer); (None, CSink (Ok tt));
   (Some 0, CRecv (Ok (Some (Pong (token_bytes 0))))); (Some 0, CTimer);
   (Some 0, CRecv (Ok (Some (Pong (token_bytes 1))))); (Some 0, CTimer); (None, CTimer)].

Lemma ping_outcome_explained_witness :
  match run_among two_pings (send_ping (from_secs 30)) (demo_client.2 ++ pinging_users) demo_client.1 with
  | Some (Ret r, _, s) => ping_explained (E := V1_6.OCPP1_6Error) (TErr := unit) (from_secs 30)
      [Did (LSink 0 (SinkPing (token_bytes 1)) true); Won true] (log s) r
  | _ => False
  end.
Proof.
  apply (returned_elim (λ r s, ping_explained (E := V1_6.OCPP1_6Error) (TErr := unit) (from_secs 30)
    [Did (LSink 0 (SinkPing (token_bytes 1)) true); Won true] (log s) r)); [vm_compute; reflexivity|].
  intros r ts s Hrun.
  exact (ping_outcome_explained 3 0 demo_config pinging_users (from_secs 30) two_pings r ts s pinging_users_api Hrun).
Defined.

(** The connection ends; the client is shut down while the reconnector is dialling. *)
Lemma disconnect_stops_dialling_witness :
  match run_among [(None, CRecv (Ok None)); (None, CTimer); (None, CTimer); (None, CUuid 5%N);
                   (None, CTimer); (None, CTimer); (Some 1, CTimer); (None, CDial (Ok 1))]
          (read_loop 3 (from_secs 30) true ReconnectPolicy_default 0 0)
          ([keepalive_task 3 (from_secs 30) KeepalivePolicy_default] ++ demo_users) demo_client.1 with
  | Some x => dials_after_close (log x.2) ≤ 1
  | None => False
  end.
Proof.
  apply (ran_elim (λ x, dials_after_close (log x.2) ≤ 1)); [vm_compute; reflexivity|].
  intros [[p ts] s] Hrun.
  exact (disconnect_stops_dialling 3 0 demo_config demo_users _ _ _ p ts s eq_refl demo_users_api Hrun).
Defined.

(** A request for the action arrives while [wait_for] waits, and is answered. *)
Definition demo_request : string :=
  demo_text (ser_RawCall (mkRawCall MESSAGE_TYPE_CALL (uuid_to_string 7%N) "Heartbeat" VNull)).

Definition demo_wait_schedule : list (option nat * demo_choice) :=
  (None, CTimer) :: [(Some 0, CRecv (Ok (Some (Frame demo_request)))); (Some 0, CTimer);
    (Some 0, CTimer); (Some 0, CTimer); (None, CTimer); (None, CSink (Ok tt)); (None, CTimer)].

Lemma wait_for_deregisters_witness :
  match run_among demo_wait_schedule (wait_for (from_secs 30) demo_action (λ r, Ret (Ok r)))
          (demo_client.2 ++ demo_users) demo_client.1 with
  | Some (Ret _, _, s) => ∀ action, entries (request_senders s) !! action ≠ Some 0
  | _ => False
  end.
Proof.
  apply (returned_elim (λ _ s, ∀ action, entries (request_senders s) !! action ≠ Some 0));
    [vm_compute; reflexivity|]. intros r ts s Hrun.
  exact (wait_for_deregisters 3 0 demo_config demo_users [] (demo_client.2 ++ demo_users) demo_client.1
           (from_secs 30) demo_action (λ r, Ret (Ok r)) CTimer _ r ts s demo_users_api
           (λ r, api_ret _ _ (Ok r)) eq_refl Hrun).
Defined.
