(* ===== verification/ClientLogic.v ===== *)
(** * Reasoning about every program of a client at once

    A judgement on programs that is closed under sequencing and spawning, that holds of
    every program whose steps stay in some relation, and that has been proved for the
    few operations that matter to it, holds of everything a user can do with a client
    and of the client's own tasks.  [core_logic] and [client_logic] list what has to be
    proved, the lemmas below draw the conclusion once and for all; ClientQuiescence.v,
    ClientAnswers.v, ClientReplies.v, Ordering.v, Wire.v, Shutdown.v and Board.v use it. *)

From S2P Require Import Prelude Time Sync Envelope Platform ProtocolErrors Reconnect Keepalive Engine Client ClientInv.
From stdpp Require Import base gmap strings list.

Section Logic.
Context {SM : SignalModel} {UM : UuidModel} {SJ : SerdeJson} {E : Type} {PE : ProtocolError E} {TErr : Type}.

Abbreviation St := (Client (E := E)).
Abbreviation program A := (prog (St := St) (Ext := Ext (TErr := TErr)) A).

(** What the operations without a rule of their own leave in the log. *)
Definition harmless (e : LogEntry) : Prop :=
  match e with
  | LSink _ (SinkSend frame) _ =>
      ∃ id action payload, to_string (ser_RawSend (mkRawSend MESSAGE_TYPE_SEND id action payload)) = Ok frame
  | LSink _ (SinkPong _) _ | LRecv _ => False
  | _ => True
  end.

(** ** Requests and pings

    Where a relation contains what they do to the shared state, all their steps are in
    it. *)

Lemma call_steps (G : St → St → Prop) timeout A request :
  (∀ s, G s s) → (∀ t s, G s (set_pending t s)) → (∀ d s, G s (add_log (LDelay d) s)) →
  (∀ conn id action payload frame written s,
     to_string (ser_RawCall (mkRawCall MESSAGE_TYPE_CALL id action payload)) = Ok frame →
     G s (add_log (LSink conn (SinkSend frame) written) s)) →
  steps_in (λ _ : Choice (TErr := TErr), True) G (call timeout A request).
Proof.
  intros Hr Hp Hd Hs s. split; [apply Hr|]. simpl. destruct (closed s); [done|].
  intros s0 c id s1 _ Hu. destruct c; simpl in Hu; try discriminate Hu. injection Hu as <- <-. split; [apply Hr|].
  destruct (ser_request A request) as [payload|]; [|done]. cbv beta iota zeta.
  destruct (to_string _) as [frame|] eqn:Hf; [|done].
  intros s2. split; [apply Hp|]. intros s3 c r s4 _ Hk. destruct c; simpl in Hk; try discriminate Hk.
  injection Hk as <- <-. split; [by eapply Hs|]. destruct r0 as [[]|err]; [|split; [apply Hp|done]].
  intros s5 c v s6 _ Hw. unfold poll_select in Hw.
  destruct (poll (response_wait _) c s5) as [[o s']|] eqn:Ho.
  - injection Hw as <- <-. simpl in Ho. destruct (cells (pending_responses s5) !! _); [|discriminate Ho].
    destruct (oneshot_poll_wait _) as [[]|]; [|discriminate Ho]. injection Ho as <- <-.
    split; [apply Hp|]. by destruct r.
  - destruct c; simpl in Hw; try discriminate Hw. injection Hw as <- <-. split; [apply Hd|].
    intros s7. split; [apply Hp|done].
Qed.

Lemma ping_steps (G : St → St → Prop) timeout :
  (∀ s, G s s) → (∀ p s, G s (set_pongs p s)) → (∀ d s, G s (add_log (LDelay d) s)) →
  (∀ conn payload written s, G s (add_log (LSink conn (SinkPing payload) written) s)) →
  steps_in (λ _ : Choice (TErr := TErr), True) G (send_ping_with_timeout timeout).
Proof.
  intros Hr Hp Hd Hs s. split; [apply Hr|]. simpl. destruct (closed s); [done|].
  intros s2. split; [apply Hp|]. intros s3 c r s4 _ Hk. destruct c; simpl in Hk; try discriminate Hk.
  injection Hk as <- <-. split; [apply Hs|]. destruct r0 as [[]|err]; [|split; [apply Hp|done]].
  intros s5 c v s6 _ Hw. unfold poll_select in Hw.
  destruct (poll (pong_wait _) c s5) as [[o s']|] eqn:Ho.
  - injection Hw as <- <-. simpl in Ho. destruct (cells (waiters (pong_waiters s5)) !! _); [|discriminate Ho].
    destruct (oneshot_poll_wait _) as [[]|]; [|discriminate Ho]. injection Ho as <- <-. by split.
  - destruct c; simpl in Hw; try discriminate Hw. injection Hw as <- <-. split; [apply Hd|].
    intros s7. split; [apply Hp|done].
Qed.

(** Which choices the environment makes, and what is known of handlers. *)
Context (allowed : Choice (TErr := TErr) → Prop).
Context (ok : ∀ A : Action, (Request A → program (result (Response A) E)) → Prop).

Record core_logic (G : St → St → Prop) (J : ∀ A : Type, program A → Prop) : Prop := {
  (** Closure. *)
  logic_steps A (p : program A) : steps_in allowed G p → J A p;
  logic_bind A B (p : program A) (k : A → program B) : J A p → (∀ a, J B (k a)) → J B (bind p k);
  logic_spawn A (p : program unit) (k : program A) : J unit p → J A k → J A (Spawn p k);
  (** Elementary changes of the shared state. *)
  step_refl s : G s s;
  step_log e s : harmless e → G s (add_log e s);
  step_sink v s : G s (set_sink v s);
  step_notifications t s : G s (set_notifications t s);
  step_ping_registry r s : G s (set_ping_registry r s);
  step_reconnect_registry r s : G s (set_reconnect_registry r s);
  step_keepalive k s : G s (set_keepalive k s);
  step_clear s : G s (set_pongs (mkPongState (next_token (pong_waiters s))
                                   (table_clear (waiters (pong_waiters s)))) s);
  (** Operations with a rule of their own. *)
  logic_call timeout A request : J _ (call timeout A request);
  logic_send_ping timeout : J _ (send_ping_with_timeout timeout);
  logic_on fuel A callback : ok A callback → (∀ r, J _ (callback r)) → J _ (on fuel A callback);
  logic_wait_for timeout A callback :
    ok A callback → (∀ r, J _ (callback r)) → J _ (wait_for timeout A callback);
}.

(** The read loop's wake-up may be raised by anybody, is taken by the read loop alone, and
    [disconnect] closes: what is left to prove for all of these. *)
Record client_logic (G : St → St → Prop) (J : ∀ A : Type, program A → Prop) : Prop := {
  logic_core : core_logic G J;
  step_force n s : G s (set_force n s);
  step_close s : G s (add_log LClosed (set_closed true s));
}.

Context (G : St → St → Prop) (J : ∀ A : Type, program A → Prop).

(** [on] where it does not matter which channel a handler's task reads. *)
Lemma on_by_loop fuel A callback :
  (∀ name s, G s (set_requests (register_chan name (request_senders s)).2 s)) →
  (∀ B (p : program B), steps_in allowed G p → J B p) →
  (∀ B C (p : program B) (k : B → program C), J B p → (∀ b, J C (k b)) → J C (bind p k)) →
  (∀ B (p : program unit) (k : program B), J unit p → J B k → J B (Spawn p k)) →
  (∀ h, J _ (handler_loop fuel A callback h)) → J _ (on fuel A callback).
Proof.
  intros HG Hs Hb Hsp Hl. apply Hb.
  - apply Hs. intros s. split; [|done]. pose proof (HG (NAME A) s). by destruct (register_chan _ _).
  - intros h. apply Hsp; [apply Hl|]. by apply Hs.
Qed.

Context (K : core_logic G J).

Abbreviation stays p := (steps_in allowed G p).

Definition fut_stays {B} (f : fut (St := St) (Ext := Ext (TErr := TErr)) B) : Prop :=
  ∀ s c b s', poll f c s = Some (b, s') → G s s'.

Lemma stays_modify f : (∀ s, G s (f s)) → stays (modify f).
Proof. intros Hf s. split; [apply Hf|done]. Qed.

Lemma stays_atomic {B} (f : St → B * St) : (∀ s, G s (f s).2) → stays (atomic f).
Proof. intros Hf s. split; [apply Hf|done]. Qed.

Lemma stays_await {B} f : fut_stays f → stays (await (B := B) f).
Proof. intros Hf s c b s' _ Hp. split; [by eapply Hf|done]. Qed.

Lemma stays_select {B C X} (f : fut B) (g : fut C) (k : B + C → program X) :
  fut_stays f → fut_stays g → (∀ b, ∃ x, k b = Ret x) → stays (Select f g k).
Proof.
  intros Hf Hg Hk s c b s' _ Hp. split; [|by destruct (Hk b) as [x ->]]. unfold poll_select in Hp.
  destruct (poll f c s) as [[x s1]|] eqn:Hpf; [injection Hp as _ <-; by eapply Hf|].
  destruct (poll g c s) as [[x s1]|] eqn:Hpg; [injection Hp as _ <-; by eapply Hg|done].
Qed.

Lemma stays_with_cancel {B C} (f : fut B) (g : fut C) :
  fut_stays f → fut_stays g → stays (with_cancel f g).
Proof. intros Hf Hg. apply stays_select; [done..|]. intros []; eauto. Qed.

Lemma delay_stays d : fut_stays (FExt (Delay d)).
Proof.
  intros s c b s'. destruct c; simpl; intros Hp; try discriminate Hp. injection Hp as _ <-.
  by apply (step_log _ _ K).
Qed.

Lemma stays_with_timeout {B} d (f : fut B) : fut_stays f → stays (with_timeout d f).
Proof. intros Hf. apply stays_select; [done|apply delay_stays|]. intros []; eauto. Qed.

Lemma sink_stays op :
  (∀ conn ok, harmless (LSink conn op ok)) → fut_stays (FExt (Sink op)).
Proof.
  intros Hop s c b s'. destruct c; simpl; intros Hp; try discriminate Hp. injection Hp as _ <-.
  apply (step_log _ _ K), Hop.
Qed.

Lemma dial_stays : fut_stays (FExt Dial).
Proof.
  intros s c b s'. destruct c; simpl; intros Hp; try discriminate Hp. injection Hp as _ <-.
  by apply (step_log _ _ K).
Qed.

Lemma new_v4_stays : fut_stays (FExt NewV4).
Proof.
  intros s c b s'. destruct c; simpl; intros Hp; try discriminate Hp. injection Hp as _ <-.
  apply (step_refl _ _ K).
Qed.

Lemma changed_wait_stays : fut_stays changed_wait.
Proof.
  intros s c b s'. simpl. destruct (notify_poll_wait _) as [[u n]|]; [|done].
  intros [= <- <-]. apply (step_keepalive _ _ K).
Qed.

Lemma notification_recv_stays h : fut_stays (notification_recv h).
Proof.
  intros s c b s'. simpl. destruct (cells (notification_senders s) !! h) as [ch|]; [|done].
  destruct (chan_check ch) as [[v c']|]; [|done]. intros [= <- <-]. apply (step_notifications _ _ K).
Qed.

Lemma registry_wait_stays i :
  fut_stays (registry_wait ping_registry set_ping_registry i) ∧
  fut_stays (registry_wait reconnect_registry set_reconnect_registry i).
Proof.
  split; intros s c b s'; simpl; (destruct (_ !! i) as [sg|]; [|done]);
    (destruct (signal_try_take sg) as [[u sg']|]; [|done]); intros [= <- <-];
    [apply (step_ping_registry _ _ K)|apply (step_reconnect_registry _ _ K)].
Qed.

(** ** Programs *)

Create HintDb logic.
#[local] Hint Resolve stays_modify stays_atomic stays_await stays_with_cancel stays_with_timeout
  delay_stays dial_stays new_v4_stays changed_wait_stays notification_recv_stays : logic.
#[local] Hint Extern 1 (G _ _) =>
  first [apply (step_refl _ _ K) | apply (step_sink _ _ K) | apply (step_notifications _ _ K)
        |apply (step_ping_registry _ _ K) | apply (step_reconnect_registry _ _ K)
        |apply (step_keepalive _ _ K) | apply (step_clear _ _ K)] : logic.
#[local] Hint Extern 2 (J _ _) => apply (logic_steps _ _ K) : logic.

Lemma logic_ret {A} (a : A) : J A (Ret a).
Proof. by apply (logic_steps _ _ K). Qed.

Lemma logic_fuel {A} : J A OutOfFuel.
Proof. by apply (logic_steps _ _ K). Qed.

Lemma logic_is_closed : J _ is_closed.
Proof. apply (logic_steps _ _ K), stays_atomic. intros. apply (step_refl _ _ K). Qed.

Lemma logic_new_v4 : J _ new_v4.
Proof. eauto with logic. Qed.

Lemma logic_ping_interval : J _ ping_interval.
Proof. apply (logic_steps _ _ K), stays_atomic. intros. apply (step_refl _ _ K). Qed.

Lemma logic_modify f : (∀ s, G s (f s)) → J _ (modify f).
Proof. eauto with logic. Qed.

Lemma logic_sink op : (∀ conn ok, harmless (LSink conn op ok)) → J _ (sink_call op).
Proof. intros. by apply (logic_steps _ _ K), stays_await, sink_stays. Qed.

#[local] Hint Resolve logic_ret logic_fuel logic_is_closed logic_new_v4 logic_ping_interval
  logic_modify logic_sink : logic.

(** Sequences, branches and primitive operations. *)
#[local] Ltac derive :=
  repeat (match goal with
          | |- J _ (bind _ _) => apply (logic_bind _ _ K); [|intros ?]
          | |- J _ (match ?x with _ => _ end) => destruct x eqn:?
          | |- J _ (if ?x then _ else _) => destruct x
          end || (progress eauto with logic)).

Lemma logic_send_notification A payload : J _ (send_notification A payload).
Proof.
  unfold send_notification. derive. apply logic_sink. intros conn written. simpl. eauto.
Qed.

Lemma logic_notification_loop fuel A callback h :
  (∀ r, J _ (callback r)) → J _ (notification_loop fuel A callback h).
Proof. intros Hcb. induction fuel as [|fuel IH]; cbn [notification_loop]; derive. Qed.

Lemma logic_on_notification fuel A callback :
  (∀ r, J _ (callback r)) → J _ (on_notification fuel A callback).
Proof.
  intros Hcb. apply (logic_bind _ _ K).
  - apply (logic_steps _ _ K), stays_atomic. intros s.
    destruct (register_chan _ _). apply (step_notifications _ _ K).
  - intros h. apply (logic_spawn _ _ K); [by apply logic_notification_loop|apply logic_ret].
Qed.

#[local] Hint Extern 1 (J _ (send_ping_with_timeout _)) => apply (logic_send_ping _ _ K) : logic.

Lemma logic_subscriber_loop fuel wait callback :
  fut_stays wait → J _ callback → J _ (subscriber_loop fuel wait callback).
Proof. intros Hw Hcb. induction fuel as [|fuel IH]; cbn [subscriber_loop]; derive. Qed.

Lemma logic_on_ping fuel callback : J _ callback → J _ (on_ping fuel callback).
Proof.
  intros Hcb. apply (logic_bind _ _ K).
  - apply (logic_steps _ _ K), stays_atomic. intros s. apply (step_ping_registry _ _ K).
  - intros i. apply (logic_spawn _ _ K); [|apply logic_ret].
    apply logic_subscriber_loop; [apply registry_wait_stays|done].
Qed.

Lemma logic_on_reconnect fuel callback : J _ callback → J _ (on_reconnect fuel callback).
Proof.
  intros Hcb. apply (logic_bind _ _ K).
  - apply (logic_steps _ _ K), stays_atomic. intros s. apply (step_reconnect_registry _ _ K).
  - intros i. apply (logic_spawn _ _ K); [|apply logic_ret].
    apply logic_subscriber_loop; [apply registry_wait_stays|done].
Qed.

(** *** The wake-up *)
Section Waking.
Context (Wake : ∀ s, G s (set_force (notify_notify (force_reconnect_signal s)) s)).

Lemma logic_wake : J _ (modify (λ s, set_force (notify_notify (force_reconnect_signal s)) s)).
Proof. by apply logic_modify. Qed.
#[local] Hint Resolve logic_wake : logic.

Lemma logic_force_reconnect : J _ force_reconnect.
Proof. unfold force_reconnect. derive. Qed.
#[local] Hint Resolve logic_force_reconnect : logic.

Lemma core_keepalive_loop fuel misses t missed : J _ (keepalive_loop fuel misses t missed).
Proof.
  revert missed. induction fuel as [|fuel IH]; intros missed; cbn [keepalive_loop]; [apply logic_fuel|].
  apply (logic_bind _ _ K); [|intros []; derive]. unfold keepalive_turn. derive.
Qed.

Context (Close : ∀ s, G s (add_log LClosed (set_closed true s))).

Lemma logic_disconnect : J _ disconnect.
Proof.
  apply (logic_bind _ _ K).
  - apply (logic_steps _ _ K), stays_atomic. intros s. simpl.
    destruct (closed s); [apply (step_refl _ _ K)|apply Close].
  - intros was. destruct was; [apply logic_ret|]. derive. by apply logic_sink.
Qed.

(** Everything a user can do. *)
Lemma core_api A (p : program A) : api_with ok A p → J A p.
Proof.
  induction 1; first [by apply (logic_bind _ _ K) | apply (logic_call _ _ K)
                     |by apply (logic_wait_for _ _ K) | by apply (logic_on _ _ K)
                     |by apply (logic_spawn _ _ K) | apply (logic_send_ping _ _ K)
                     |by eauto using logic_ret, logic_send_notification,
                        logic_on_notification, logic_ping_interval, logic_force_reconnect,
                        logic_on_ping, logic_on_reconnect, logic_disconnect, logic_is_closed
                     |by apply (logic_steps _ _ K), stays_await, delay_stays
                     |apply logic_fuel
                     |apply logic_modify; intros s; apply (step_keepalive _ _ K)].
Qed.

End Waking.

(** *** The read loop *)
Section Reading.
Context (Take : ∀ n s, G s (set_force n s)).

Lemma force_wait_stays : fut_stays force_wait.
Proof.
  intros s c b s'. simpl. destruct (notify_poll_wait _) as [[u n]|]; [|done].
  intros [= <- <-]. apply Take.
Qed.

#[local] Hint Resolve force_wait_stays : logic.

Lemma core_redial_loop fuel p attempt : J _ (redial_loop fuel p attempt).
Proof.
  revert attempt. induction fuel as [|fuel IH]; intros attempt; cbn [redial_loop]; [apply logic_fuel|].
  apply (logic_bind _ _ K); [unfold next_delay, panic; derive|]. intros d. derive.
Qed.

(** What follows the reading of a connection. *)
Lemma core_connection_end fuel timeout reconnector p stream attempt :
  ∃ k, connection_turn fuel timeout reconnector p stream attempt =
         bind (read_connection fuel reconnector stream attempt) k ∧ ∀ exit, J _ (k exit).
Proof.
  eexists. split; [reflexivity|]. intros exit. cbv beta. unfold clear_pongs.
  derive; [|apply core_redial_loop].
  apply (logic_steps _ _ K), stays_with_timeout. by apply sink_stays.
Qed.

(** The reading of a connection is what a judgement may treat differently. *)
Context (R : ∀ fuel honor stream attempt, J _ (read_connection fuel honor stream attempt)).

Lemma core_read_loop fuel timeout reconnector p stream attempt :
  J _ (read_loop fuel timeout reconnector p stream attempt).
Proof.
  revert stream attempt. induction fuel as [|fuel IH]; intros stream attempt; cbn [read_loop];
    [apply logic_fuel|].
  apply (logic_bind _ _ K); [|intros []; derive].
  destruct (core_connection_end fuel timeout reconnector p stream attempt) as (k & -> & Hk).
  by apply (logic_bind _ _ K).
Qed.

End Reading.

End Logic.

(** ** All of a client's tasks *)

Section Client.
Context {SM : SignalModel} {UM : UuidModel} {SJ : SerdeJson} {E : Type} {PE : ProtocolError E} {TErr : Type}.

Abbreviation St := (Client (E := E)).
Abbreviation program A := (prog (St := St) (Ext := Ext (TErr := TErr)) A).

Context (allowed : Choice (TErr := TErr) → Prop).
Context (ok : ∀ A : Action, (Request A → program (result (Response A) E)) → Prop).
Context (G : St → St → Prop) (J : ∀ A : Type, program A → Prop).
Context (L : client_logic allowed ok G J).

Let K := logic_core _ _ _ _ L.

Lemma logic_api A (p : program A) : api_with ok A p → J A p.
Proof. apply (core_api _ _ _ _ K); intros; [apply (step_force _ _ _ _ L)|apply (step_close _ _ _ _ L)]. Qed.

Lemma logic_keepalive_loop fuel misses t missed : J _ (keepalive_loop fuel misses t missed).
Proof. apply (core_keepalive_loop _ _ _ _ K). intros. apply (step_force _ _ _ _ L). Qed.

Lemma logic_connection_end fuel timeout reconnector p stream attempt :
  ∃ k, connection_turn fuel timeout reconnector p stream attempt =
         bind (read_connection fuel reconnector stream attempt) k ∧ ∀ exit, J _ (k exit).
Proof. apply (core_connection_end _ _ _ _ K). intros. apply (step_force _ _ _ _ L). Qed.

Context (R : ∀ fuel honor stream attempt, J _ (read_connection fuel honor stream attempt)).

(** A client's own tasks beside any number of users. *)
Lemma logic_tasks fuel conn config (users : list (program unit)) :
  Forall (api_with ok unit) users →
  Forall (J unit) ((from_transport_with_config fuel conn config).2 ++ users).
Proof.
  intros Hu. apply Forall_app. split.
  - repeat constructor; [|apply logic_keepalive_loop].
    apply (core_read_loop _ _ _ _ K); [intros; apply (step_force _ _ _ _ L)|done].
  - eapply Forall_impl; [exact Hu|]. intros p. apply logic_api.
Qed.

End Client.

(** ** Relations that only look at the closed flag and the wake-up

    Every change of the shared state but those of the read loop, [force_reconnect] and
    [disconnect] leaves both alone. *)
Section Flags.
Context {SM : SignalModel} {UM : UuidModel} {SJ : SerdeJson} {E : Type} {PE : ProtocolError E} {TErr : Type}.

Abbreviation St := (Client (E := E)).
Abbreviation program A := (prog (St := St) (Ext := Ext (TErr := TErr)) A).

Context (G : St → St → Prop).
Hypothesis flags : ∀ s s', closed s' = closed s → force_reconnect_signal s' = force_reconnect_signal s → G s s'.

Abbreviation stays p := (steps_in (λ _ : Choice (TErr := TErr), True) G p).

Lemma flags_modify f :
  (∀ s, closed (f s) = closed s ∧ force_reconnect_signal (f s) = force_reconnect_signal s) → stays (modify f).
Proof. intros Hf s. split; [|done]. destruct (Hf s). by apply flags. Qed.

Lemma flags_sink op : stays (sink_call op).
Proof.
  intros s c b s' _ Hp. split; [|done]. destruct c; simpl in Hp; try discriminate Hp.
  injection Hp as _ <-. by apply flags.
Qed.

Lemma flags_respond {R} to_value (r : result R E) id : stays (do_send_response to_value r id).
Proof.
  unfold do_send_response. destruct (response_frame to_value r id); [|done].
  apply steps_in_bind; [apply flags_sink|done].
Qed.

Lemma flags_request_recv h s c b s' : poll (request_recv (E := E) (TErr := TErr) h) c s = Some (b, s') → G s s'.
Proof.
  simpl. destruct (cells (request_senders s) !! h) as [ch|]; [|done].
  destruct (chan_check ch) as [[v c']|]; [|done]. intros [= <- <-]. by apply flags.
Qed.

Lemma flags_handler_loop fuel A (callback : Request A → program (result (Response A) E)) h :
  (∀ r, stays (callback r)) → stays (handler_loop fuel A callback h).
Proof.
  intros Hcb. induction fuel as [|fuel IH]; cbn [handler_loop]; [done|].
  intros s c b s' _ Hp. split; [by eapply flags_request_recv|]. destruct b as [[id payload]|]; [|done].
  cbn [bind]. apply steps_in_bind; [|done]. unfold handle_call.
  destruct (de_request A payload); [|apply flags_respond].
  apply steps_in_bind; [apply Hcb|]. intros. apply flags_respond.
Qed.

Lemma flags_wait_for timeout A (callback : Request A → program (result (Response A) E)) :
  (∀ r, stays (callback r)) → stays (wait_for timeout A callback).
Proof.
  intros Hcb. apply steps_in_bind; [intros s; split; [by destruct (register_chan _ _); apply flags|done]|]. intros h.
  apply steps_in_bind; [|intros r; apply steps_in_bind].
  - intros s c b s' _ Hp. split; [|by destruct b]. unfold poll_select in Hp.
    destruct (poll (request_recv h) c s) as [[v s1]|] eqn:Hr; [injection Hp as <- <-; by eapply flags_request_recv|].
    destruct c; simpl in Hp; try discriminate Hp. injection Hp as <- <-. by apply flags.
  - destruct r as [[[id payload]|]|[]]; [|done..]. destruct (de_request A payload); [|done].
    apply steps_in_bind; [apply Hcb|]. intros. apply steps_in_bind; [apply flags_respond|done].
  - intros o. apply steps_in_bind; [|done]. apply flags_modify. intros s.
    destruct (entries _ !! _); [by case_decide|done].
Qed.

Lemma flags_handle_event event : stays (handle_event event).
Proof.
  destruct event as [frame|payload|payload]; cbn [handle_event].
  - unfold handle_frame. destruct (from_str frame) as [[| | | |[|[] items]|]|]; try done.
    destruct (as_u64_opt n) as [t|]; [|done].
    destruct (t =? MESSAGE_TYPE_CALL)%Z; [|destruct (t =? MESSAGE_TYPE_RESULT)%Z;
      [|destruct (t =? MESSAGE_TYPE_ERROR)%Z; [|destruct (t =? MESSAGE_TYPE_SEND)%Z; [|done]]]].
    + unfold handle_CALL. destruct (from_str_as _ frame) as [rc|]; [|done].
      intros s. split; [by apply flags|]. cbn [fst bind]. destruct (entries _ !! _) as [h|].
      * apply steps_in_bind; intros; by apply flags_modify.
      * destruct (to_string _); [|done]. apply steps_in_bind; [apply flags_sink|done].
    + unfold handle_RESULT. destruct (from_str_as _ frame); [|done]. destruct (uuid_parse_str _); [|done].
      apply flags_modify. intros s. unfold settle_pending. by destruct (entries _ !! _).
    + unfold handle_ERROR. destruct (from_str_as _ frame); [|done]. destruct (uuid_parse_str _); [|done].
      apply flags_modify. intros s. unfold settle_pending. by destruct (entries _ !! _).
    + unfold handle_SEND. destruct (from_str_as _ frame); [|done]. intros s. split; [by apply flags|]. cbn [fst bind].
      destruct (entries _ !! _); [|done]. apply steps_in_bind; intros; by apply flags_modify.
  - apply steps_in_bind; [by apply flags_modify|]. intros _. apply steps_in_bind; [apply flags_sink|done].
  - apply flags_modify. intros s. unfold settle_pong. destruct (token_of payload); [|done].
    by destruct (entries _ !! _).
Qed.

(** Taking the wake-up included. *)
Lemma flags_read_connection fuel honor stream attempt :
  (∀ n s, G s (set_force n s)) → stays (read_connection fuel honor stream attempt).
Proof.
  intros Take. revert attempt. induction fuel as [|fuel IH]; intros attempt; cbn [read_connection]; [done|].
  intros s c b s' _ Hp. unfold poll_select in Hp.
  destruct (poll (FExt (Recv stream)) c s) as [[v s1]|] eqn:Hr.
  - injection Hp as <- <-. destruct c; try discriminate Hr. injection Hr as <- <-.
    split; [by apply flags; destruct r as [[event|]|]|].
    destruct r as [[event|]|]; cbn [bind]; [|done..]. apply steps_in_bind; [apply flags_handle_event|]. intros; apply IH.
  - simpl in Hp. destruct (notify_poll_wait _) as [[]|]; [|done]. injection Hp as <- <-. split; [apply Take|].
    cbn [bind]. intros s2. split; [by apply flags|]. cbn [fst bind]. destruct (closed s2); [done|]. by destruct honor.
Qed.

Lemma flags_logic : core_logic (λ _, True) any_handler G (λ A p, stays p).
Proof.
  split; eauto using steps_in_bind, flags_wait_for; try (intros; by apply flags); try done.
  - intros timeout A request. apply call_steps; intros; by apply flags.
  - intros timeout. apply ping_steps; intros; by apply flags.
  - intros fuel A callback _ Hcb. apply (on_by_loop (λ _, True) G); auto using steps_in_bind, flags_handler_loop.
    by split.
Qed.

End Flags.
