(* ===== verification/ClientQuiescence.v ===== *)
(** * Nothing stays pending

    A request or a ping in flight has an entry in a table of the client.  Here every
    entry is owned by the task that waits for its answer ([Resources.owns]): a task may
    not end, nor wait for something else to do, while an entry of its own is left.  So
    once every task has come to rest, both tables are empty. *)

From S2P Require Import Prelude Time Sync Envelope Platform ProtocolErrors Reconnect Keepalive Engine Resources Client ClientInv ClientLogic ClientDemo.
From stdpp Require Import base gmap strings list.

Section Quiescence.
Context {SM : SignalModel} {UM : UuidModel} {SJ : SerdeJson} {E : Type} {PE : ProtocolError E} {TErr : Type}.

Abbreviation St := (Client (E := E)).
Abbreviation program A := (prog (St := St) (Ext := Ext (TErr := TErr)) A).
Abbreviation pongs s := (waiters (pong_waiters s)).

(** An entry: the key it is stored under and its waiter. *)
Abbreviation slot := ((Uuid * nat) + (Z * nat))%type.

(** Entries of a table have a waiter of their own, not yet answered. *)
Abbreviation waiting_wf t := (table_wf (λ _ o, unset o) (λ _ _, True) t).

Record outstanding_inv (s : St) (O : gset slot) : Prop := {
  out_requests : waiting_wf (pending_responses s);
  out_pings : waiting_wf (pongs s);
  out_request k h : entries (pending_responses s) !! k = Some h → inl (k, h) ∈ O;
  out_ping k h : entries (pongs s) !! k = Some h → inr (k, h) ∈ O;
}.

Definition outstanding : discipline (St := St) (M := gset slot) :=
  mkDiscipline outstanding_inv (λ O, O = ∅).

(** ** Steps that add no entry *)

Definition shrinks {K V} `{Countable K} (t t' : Table K (OneShot V)) : Prop :=
  (waiting_wf t → waiting_wf t') ∧ entries t' ⊆ entries t.

Definition adds_none (s s' : St) : Prop :=
  shrinks (pending_responses s) (pending_responses s') ∧ shrinks (pongs s) (pongs s').

#[local] Instance shrinks_refl {K V} `{Countable K} : Reflexive (shrinks (K := K) (V := V)).
Proof. by split. Qed.

Lemma adds_none_inv s s' O : adds_none s s' → outstanding_inv s O → outstanding_inv s' O.
Proof.
  intros [[Hw1 He1] [Hw2 He2]] [Hr Hp Hre Hpe]. split; auto; intros k h Hk.
  - apply Hre. by eapply lookup_weaken.
  - apply Hpe. by eapply lookup_weaken.
Qed.

Lemma shrinks_remove {K V} `{Countable K} k (t : Table K (OneShot V)) : shrinks t (table_remove k t).
Proof. split; [apply table_wf_remove|apply delete_subseteq]. Qed.

Lemma shrinks_clear {K V} `{Countable K} (t : Table K (OneShot V)) : shrinks t (table_clear t).
Proof. split; [apply table_wf_clear|apply map_empty_subseteq]. Qed.

(** A waiter is answered after its entry is removed. *)
Lemma shrinks_resolve {K V} `{Countable K} k h v (t : Table K (OneShot V)) :
  entries t !! k = Some h → shrinks t (table_update h (oneshot_send v) (table_remove k t)).
Proof.
  intros Hk. split; [|apply delete_subseteq]. by apply table_resolve_wf.
Qed.

Lemma settle_pending_adds id outcome (s : St) : adds_none s (settle_pending id outcome s).
Proof.
  unfold settle_pending. destruct (entries _ !! id) as [h|] eqn:Hh; [|by split].
  split; [by apply shrinks_resolve|reflexivity].
Qed.

Lemma settle_pong_adds payload (s : St) : adds_none s (settle_pong payload s).
Proof.
  unfold settle_pong. destruct (token_of payload) as [token|]; [|by split].
  destruct (entries _ !! token) as [h|] eqn:Hh; [|by split].
  split; [reflexivity|by apply shrinks_resolve].
Qed.

Lemma ext_adds {B} (e : Ext (TErr := TErr) B) c (s s' : St) b :
  poll_ext e c s = Some (b, s') → adds_none s s'.
Proof.
  destruct e, c; simpl; intros Hp; try discriminate Hp; injection Hp as <- <-; try by split.
  by destruct r as [[|]|].
Qed.

(** ** Owning entries *)

Lemma owns_steps {A} (p : program A) :
  steps_in (λ _ : Choice (TErr := TErr), True) adds_none p → owns outstanding p ∅ (λ _ O, O = ∅).
Proof. apply (owns_steps_in outstanding); [apply adds_none_inv|done..]. Qed.

Lemma owns_sink op O : owns outstanding (sink_call (E := E) (TErr := TErr) op) O (λ _ O', O' = O).
Proof.
  apply (owns_await_ext outstanding). intros c s b s' F Hp. by apply adds_none_inv, (ext_adds _ _ _ _ _ Hp).
Qed.

Lemma owns_insert_pending id :
  owns outstanding (insert_pending (E := E) (TErr := TErr) id) ∅ (λ h O, O = {[inl (id, h)]}).
Proof.
  intros s F [Hr Hp Hre Hpe]. exists {[inl (id, length (cells (pending_responses s)))]}.
  split; [|done]. split; simpl; [by apply (table_wf_insert _ _ id oneshot_new), I; [|apply unset_new]|done| |].
  - intros k h. rewrite lookup_insert. case_decide; [intros [= <-]; set_solver|].
    intros Hk. apply Hre in Hk. set_solver.
  - intros k h Hk. apply Hpe in Hk. set_solver.
Qed.

Lemma owns_insert_ping :
  owns outstanding (insert_ping (E := E) (TErr := TErr)) ∅ (λ r O, O = {[inr r]}).
Proof.
  intros s F [Hr Hp Hre Hpe].
  exists {[inr (next_token (pong_waiters s), length (cells (pongs s)))]}.
  split; [|done].
  split; simpl; [done|by apply (table_wf_insert _ _ _ oneshot_new), I; [|apply unset_new]| |].
  - intros k h Hk. apply Hre in Hk. set_solver.
  - intros k h. rewrite lookup_insert. case_decide; [intros [= <-]; set_solver|].
    intros Hk. apply Hpe in Hk. set_solver.
Qed.

Lemma owns_forget_pending id h :
  owns outstanding (forget_pending (E := E) (TErr := TErr) id) {[inl (id, h)]} (λ _ O, O = ∅).
Proof.
  intros s F [Hr Hp Hre Hpe]. exists ∅. split; [|done].
  split; simpl; [by apply table_wf_remove|done| |].
  - intros k h' [? Hk]%lookup_delete_Some. apply Hre in Hk. set_solver.
  - intros k h' Hk. apply Hpe in Hk. set_solver.
Qed.

Lemma owns_forget_ping r :
  owns outstanding (forget_ping (E := E) (TErr := TErr) r.1) {[inr r]} (λ _ O, O = ∅).
Proof.
  intros s F [Hr Hp Hre Hpe]. exists ∅. split; [|done].
  split; simpl; [done|by apply table_wf_remove| |].
  - intros k h' Hk. apply Hre in Hk. set_solver.
  - intros k h' [? Hk]%lookup_delete_Some. apply Hpe in Hk. destruct r. set_solver.
Qed.

(** A waiter that has been answered has no entry any more. *)
Lemma answered_unbound {K V} `{Countable K} (t : Table K (OneShot V)) k h o x :
  waiting_wf t → cells t !! h = Some o → oneshot_poll_wait o = Some x → entries t !! k ≠ Some h.
Proof.
  intros Hwf Ho Hx Hk. destruct (wf_bound _ _ _ Hwf _ _ Hk) as (o' & Ho' & Hu).
  unfold unset in Hu. congruence.
Qed.

Lemma waiting_wf_taken {K V} `{Countable K} h o x (t : Table K (OneShot V)) :
  oneshot_poll_wait o = Some (x : V * OneShot V) → waiting_wf t → waiting_wf (table_update h (λ _, x.2) t).
Proof.
  destruct x as [v o']. intros ->%take_signal_resets. apply table_wf_update; [|done].
  intros. apply unset_new.
Qed.

(** Waiting for the answer: the entry is gone once it is there, and still owned when
    the timer fires. *)
Lemma owns_response_wait timeout id h :
  owns outstanding (with_timeout (TErr := TErr) timeout (response_wait h)) {[inl (id, h)]}
    (λ r O, O = match r with Ok _ => ∅ | Err _ => {[inl (id, h)]} end).
Proof.
  split; [done|]. intros s c b s' F Hp [Hr Hpi Hre Hpe]. unfold poll_select in Hp. simpl in Hp.
  destruct (cells (pending_responses s) !! h) as [o|] eqn:Ho;
    [destruct (oneshot_poll_wait o) as [[v o']|] eqn:Hv|].
  - injection Hp as <- <-. exists ∅. split; [|done].
    split; simpl; [by apply (waiting_wf_taken h o (v, o'))|done| |].
    + intros k h' Hk. pose proof (answered_unbound _ k _ _ _ Hr Ho Hv). apply Hre in Hk as Hin. set_solver.
    + intros k h' Hk. apply Hpe in Hk. set_solver.
  - destruct c; try discriminate Hp. injection Hp as <- <-. by exists {[inl (id, h)]}.
  - destruct c; try discriminate Hp. injection Hp as <- <-. by exists {[inl (id, h)]}.
Qed.

Lemma owns_pong_wait timeout r :
  owns outstanding (with_timeout (E := E) (TErr := TErr) timeout (pong_wait r.2)) {[inr r]}
    (λ x O, O = match x with Ok _ => ∅ | Err _ => {[inr r]} end).
Proof.
  split; [done|]. intros s c b s' F Hp [Hr Hpi Hre Hpe]. unfold poll_select in Hp. simpl in Hp.
  destruct (cells (pongs s) !! r.2) as [o|] eqn:Ho;
    [destruct (oneshot_poll_wait o) as [[v o']|] eqn:Hv|].
  - injection Hp as <- <-. exists ∅. split; [|done].
    split; simpl; [done|by apply (waiting_wf_taken r.2 o (v, o'))| |].
    + intros k h' Hk. apply Hre in Hk. set_solver.
    + intros k h' Hk. pose proof (answered_unbound _ k _ _ _ Hpi Ho Hv). apply Hpe in Hk as Hin.
      destruct r. set_solver.
  - destruct c; try discriminate Hp. injection Hp as <- <-. by exists {[inr r]}.
  - destruct c; try discriminate Hp. injection Hp as <- <-. by exists {[inr r]}.
Qed.

(** ** Operations *)

Definition clean A (p : program A) : Prop := owns outstanding p ∅ (λ _ O, O = ∅).

Lemma clean_bind A B (p : program A) (k : A → program B) :
  clean A p → (∀ a, clean B (k a)) → clean B (bind p k).
Proof. intros Hp Hk. eapply owns_bind; [exact Hp|]. intros a O ->. apply Hk. Qed.

Lemma clean_ret {A} (a : A) : clean A (Ret a).
Proof. done. Qed.

Lemma clean_is_closed : clean _ is_closed.
Proof. by apply owns_steps. Qed.

Lemma clean_sink op : clean _ (sink_call op).
Proof. apply owns_sink. Qed.

Lemma clean_modify f : (∀ s, adds_none s (f s)) → clean _ (modify f).
Proof. intros Hf. apply owns_steps. intros s. by split. Qed.
Create HintDb clean.
#[local] Hint Resolve clean_ret clean_is_closed clean_sink clean_bind clean_modify : clean.

Lemma clean_call timeout A request : clean _ (call timeout A request).
Proof.
  apply clean_bind; [apply clean_is_closed|]. intros c. destruct c; [done|].
  apply clean_bind.
  { apply owns_steps. intros s c b s' _ Hp. split; [exact (ext_adds _ _ _ _ _ Hp)|done]. }
  intros id. destruct (ser_request A request) as [payload|]; [|done].
  cbv beta iota zeta. destruct (to_string _) as [frame|]; [|done].
  eapply owns_bind; [apply owns_insert_pending|]. intros h O ->.
  eapply owns_bind; [apply owns_sink|]. intros [[]|err] O ->.
  - eapply owns_bind; [apply owns_response_wait|].
    intros [[v|e]|[]] O ->; [done|done|].
    eapply owns_bind; [apply owns_forget_pending|]. by intros ? O ->.
  - eapply owns_bind; [apply owns_forget_pending|]. by intros ? O ->.
Qed.

Lemma clean_send_ping timeout : clean _ (send_ping_with_timeout timeout).
Proof.
  apply clean_bind; [apply clean_is_closed|]. intros c. destruct c; [done|].
  eapply owns_bind; [apply owns_insert_ping|]. intros r O ->.
  eapply owns_bind; [apply owns_sink|]. intros [[]|err] O ->.
  - eapply owns_bind; [apply owns_pong_wait|]. intros [?|[]] O ->; [done|].
    eapply owns_bind; [apply owns_forget_ping|]. by intros ? O ->.
  - eapply owns_bind; [apply owns_forget_ping|]. by intros ? O ->.
Qed.

Lemma clean_respond {R} to_value (r : result R E) id : clean _ (do_send_response to_value r id).
Proof. unfold do_send_response. destruct (response_frame _ _ _); eauto with clean. Qed.

Lemma recv_adds h c (s s' : St) b :
  poll (request_recv (TErr := TErr) h) c s = Some (b, s') → adds_none s s'.
Proof.
  simpl. destruct (cells (request_senders s) !! h) as [ch|]; [|done].
  destruct (chan_check ch) as [[v c']|]; [|done]. by intros [= <- <-].
Qed.

Lemma clean_handler_loop fuel A callback h :
  (∀ r, clean _ (callback r)) → clean _ (handler_loop fuel A callback h).
Proof.
  intros Hcb. induction fuel as [|fuel IH]; cbn [handler_loop]; [done|]. apply clean_bind.
  { apply owns_steps. intros s c b s' _ Hp. split; [by eapply recv_adds|done]. }
  intros [[id payload]|]; [|done]. apply clean_bind; [|done]. unfold handle_call.
  destruct (de_request A payload); eauto using clean_respond with clean.
Qed.

Lemma clean_wait_for timeout A callback :
  (∀ r, clean _ (callback r)) → clean _ (wait_for timeout A callback).
Proof.
  intros Hcb. apply clean_bind.
  { apply owns_steps. intros s. split; [|done]. simpl. by destruct (register_chan _ _). }
  intros h. apply clean_bind.
  { apply owns_steps. intros s c b s' _ Hp. split; [|by destruct b]. unfold poll_select in Hp.
    destruct (poll (request_recv h) c s) as [[v s1]|] eqn:Hr;
      [injection Hp as <- <-; by eapply recv_adds|].
    destruct (poll (FExt (Delay timeout)) c s) as [[v s1]|] eqn:Hd; [|done]. injection Hp as <- <-. exact (ext_adds _ _ _ _ _ Hd). }
  intros r. apply clean_bind.
  - destruct r as [[[id payload]|]|[]]; [|done..]. destruct (de_request A payload); [|done].
    eauto using clean_respond with clean.
  - intros o. apply clean_bind; [|done]. apply clean_modify. intros s.
    destruct (entries (request_senders s) !! NAME A); [by case_decide|by split].
Qed.

Lemma clean_handle_event event : clean _ (handle_event event).
Proof.
  destruct event as [frame|payload|payload]; cbn [handle_event].
  - unfold handle_frame. destruct (from_str frame) as [[| | | |[|[] ?]|]|]; try done.
    destruct (as_u64_opt n) as [t|]; [|done].
    destruct (t =? MESSAGE_TYPE_CALL)%Z;
      [|destruct (t =? MESSAGE_TYPE_RESULT)%Z;
        [|destruct (t =? MESSAGE_TYPE_ERROR)%Z; [|destruct (t =? MESSAGE_TYPE_SEND)%Z; [|done]]]].
    + unfold handle_CALL. destruct (from_str_as _ frame); [|done]. apply clean_bind; [by apply owns_steps|].
      intros [h|]; [unfold request_send; apply clean_bind; intros; by apply clean_modify|].
      destruct (to_string _); eauto with clean.
    + unfold handle_RESULT. destruct (from_str_as _ frame); [|done].
      destruct (uuid_parse_str _); [|done]. apply clean_modify. intros s. apply settle_pending_adds.
    + unfold handle_ERROR. destruct (from_str_as _ frame); [|done].
      destruct (uuid_parse_str _); [|done]. apply clean_modify. intros s. apply settle_pending_adds.
    + unfold handle_SEND. destruct (from_str_as _ frame); [|done]. apply clean_bind; [by apply owns_steps|].
      intros [h|]; [|done]. unfold notification_send. apply clean_bind; intros; by apply clean_modify.
  - apply clean_bind; [by apply clean_modify|]. intros _. eauto with clean.
  - apply clean_modify. intros s. apply settle_pong_adds.
Qed.

Lemma clean_read_connection fuel honor stream attempt :
  clean _ (read_connection fuel honor stream attempt).
Proof.
  revert attempt. induction fuel as [|fuel IH]; intros attempt; cbn [read_connection]; [done|].
  apply clean_bind.
  { apply owns_steps. intros s c b s' _ Hp. split; [|by destruct b]. unfold poll_select in Hp.
    destruct (poll (FExt (Recv stream)) c s) as [[v s1]|] eqn:Hr;
      [injection Hp as <- <-; exact (ext_adds _ _ _ _ _ Hr)|].
    simpl in Hp. destruct (notify_poll_wait _) as [[]|]; [|done]. by injection Hp as <- <-. }
  intros [[[event|]|]|[]]; [|done..|].
  - apply clean_bind; [apply clean_handle_event|done].
  - apply clean_bind; [apply clean_is_closed|]. intros c. destruct c; [done|]. by destruct honor.
Qed.

Lemma clean_spawn A (p : program unit) (k : program A) : clean _ p → clean A k → clean A (Spawn p k).
Proof. intros Hp Hk. by apply owns_spawn. Qed.

Lemma clean_logic : client_logic (λ _, True) any_handler adds_none clean.
Proof.
  split; [split|..]; eauto using clean_bind, clean_spawn, clean_call, clean_send_ping, clean_wait_for; try (intros; by split).
  - intros A p. apply owns_steps.
  - intros s. split; [reflexivity|apply shrinks_clear].
  - intros fuel A callback _ Hcb. apply (on_by_loop (λ _, True) adds_none); auto using clean_bind, clean_spawn.
    + intros name s. by split.
    + intros B p. apply owns_steps.
    + intros h. by apply clean_handler_loop.
Qed.

(** ** The client at rest *)

(** C10: nothing stays pending.  Under every interleaving of the client's tasks and any
    users: whenever every task is at rest (it has ended, or a handler waits for its next
    request, a subscriber for its next event, the keepalive task for its interval, the
    read loop for the transport or its backoff), the tables of pending requests and
    outstanding pings are empty.  However requests and pings ended, by an answer, a
    timeout, a failed write or a reconnection, none of them left anything behind. *)
Theorem client_at_rest_has_nothing_pending fuel conn config (users : list (program unit)) schedule ts s :
  Forall (api unit) users →
  run_pool schedule ((from_transport_with_config fuel conn config).2 ++ users)
    (from_transport_with_config (E := E) (TErr := TErr) fuel conn config).1 = Some (ts, s) →
  forallb parked ts = true →
  pending_request_count s = 0 ∧ pending_ping_count s = 0.
Proof.
  intros Hu Hrun Hp.
  assert (Ho : pool_owns outstanding ts s).
  { eapply pool_owns_run; [|exact Hrun]. apply pool_owns_start.
    - apply (logic_tasks _ _ _ _ clean_logic clean_read_connection fuel conn config users Hu).
    - split; [apply table_wf_empty..| |]; intros k h; simpl; by rewrite lookup_empty. }
  apply pool_parked in Ho as [_ _ Hr Hpi]; [|done|done].
  unfold pending_request_count, pending_ping_count.
  rewrite !map_size_empty_iff. split; apply map_eq; intros k; rewrite lookup_empty.
  - destruct (entries _ !! k) as [h|] eqn:Hk; [|done]. by apply Hr in Hk.
  - destruct (entries _ !! k) as [h|] eqn:Hk; [|done]. by apply Hpi in Hk.
Qed.

End Quiescence.

(** ** Witness *)

(** One user calls and is answered, another pings and times out. *)
Definition rest_users : list (demo_program unit) :=
  [bind (call (from_secs 30) demo_action VNull) (λ _, Ret tt);
   bind (send_ping (from_secs 30)) (λ _, Ret tt)].

Lemma rest_users_api : Forall (api unit) rest_users.
Proof.
  apply Forall_cons. split; [|apply Forall_singleton].
  - apply (api_bind _ _ _ (call _ _ _)); [apply api_call|intros; apply api_ret].
  - apply (api_bind _ _ _ (send_ping _)); [apply api_send_ping|intros; apply api_ret].
Defined.

Definition rest_schedule : list (nat * demo_choice) :=
  [(1, CTimer); (1, CTimer); (2, CTimer); (2, CUuid 7%N); (2, CTimer); (3, CTimer); (3, CTimer);
   (2, CSink (Ok tt)); (3, CSink (Ok tt)); (0, CRecv (Ok (Some (Frame demo_response)))); (0, CTimer);
   (2, CTimer); (3, CTimer); (3, CTimer)].

Lemma client_at_rest_has_nothing_pending_witness :
  match run_pool rest_schedule (demo_client.2 ++ rest_users) demo_client.1 with
  | Some x => pending_request_count x.2 = 0 ∧ pending_ping_count x.2 = 0
  | None => False
  end.
Proof.
  apply (ran_to_elim (λ x, pending_request_count x.2 = 0 ∧ pending_ping_count x.2 = 0)
           (λ x, forallb parked x.1)); [vm_compute; reflexivity|]. intros [ts s] Hrun Hp.
  exact (client_at_rest_has_nothing_pending 3 0 demo_config rest_users rest_schedule ts s rest_users_api Hrun Hp).
Defined.
