(* ===== verification/ClientAnswers.v ===== *)
(** * At most one answer to each CALL

    The peer's requests are counted: a received CALL is a token, which moves from the
    read loop into the queue of a handler's channel, from there to the handler's task,
    and is spent when a CALLRESULT or CALLERROR with its identifier is handed to the
    transport.  Tokens are owned ([Resources.owns]) and never copied, so under every
    interleaving there are at most as many answers as CALLs for every identifier.  On
    the way, every text the client sends is shown to be one of the four envelopes. *)

From S2P Require Import Prelude Time Sync Envelope Platform ProtocolErrors Reconnect Keepalive Engine Resources Client ClientInv ClientLogic ClientDemo.
From stdpp Require Import base gmap gmultiset strings list.

Section Answers.
Context {SM : SignalModel} {UM : UuidModel} {SJ : SerdeJson} {E : Type} {PE : ProtocolError E} {TErr : Type}.

Abbreviation St := (Client (E := E)).
Abbreviation program A := (prog (St := St) (Ext := Ext (TErr := TErr)) A).

(** ** What the log says *)

(** The identifier of a frame the client treats as a CALL. *)
Definition called_id (frame : string) : option string :=
  match from_str_as de_RawCall frame with
  | Some call => if (call_type call =? MESSAGE_TYPE_CALL)%Z then Some (call_id call) else None
  | None => None
  end.

(** The identifier of a frame a peer reads as an answer. *)
Definition answered_id (frame : string) : option string :=
  match from_str frame with
  | Ok (VArray (VNumber (PosInt t) :: VString id :: _)) =>
      if (t =? MESSAGE_TYPE_RESULT)%Z || (t =? MESSAGE_TYPE_ERROR)%Z then Some id else None
  | _ => None
  end.

Definition call_in (e : LogEntry) : option string :=
  match e with LRecv (Frame frame) => called_id frame | _ => None end.
Definition answer_in (e : LogEntry) : option string :=
  match e with LSink _ (SinkSend frame) _ => answered_id frame | _ => None end.

(** The CALLs received and the answers handed to the transport, each as often as it
    happened. *)
Definition calls (l : list LogEntry) : gmultiset string := list_to_set_disj (omap call_in l).
Definition answers (l : list LogEntry) : gmultiset string := list_to_set_disj (omap answer_in l).

(** The CALLs waiting in the channels of handlers. *)
Definition chan_ids (c : Chan (string * Value)) : gmultiset string := list_to_set_disj (queue c).*1.
Definition queued (t : Table string (Chan (string * Value))) : gmultiset string :=
  gsum (chan_ids <$> cells t).

(** One of the four envelopes, with its message type. *)
Inductive envelope : Value → Prop :=
| envelope_call id action payload :
    envelope (ser_RawCall (mkRawCall MESSAGE_TYPE_CALL id action payload))
| envelope_result id payload : envelope (ser_RawResult (mkRawResult MESSAGE_TYPE_RESULT id payload))
| envelope_error id c d x : envelope (ser_RawError (mkRawError MESSAGE_TYPE_ERROR id c d x))
| envelope_send id action payload :
    envelope (ser_RawSend (mkRawSend MESSAGE_TYPE_SEND id action payload)).

Definition typed (e : LogEntry) : Prop :=
  match e with
  | LSink _ (SinkSend frame) _ => ∃ v, envelope v ∧ to_string v = Ok frame
  | _ => True
  end.

Record answers_inv (s : St) (m : gmultiset string) : Prop := {
  inv_owed : m ⊎ queued (request_senders s) ⊎ answers (log s) ⊆ calls (log s);
  inv_typed : Forall typed (log s);
}.

Definition owing : discipline (St := St) (M := gmultiset string) :=
  mkDiscipline answers_inv (λ _, True).

(** ** Lemmas on the counts *)

Lemma calls_snoc l e :
  calls (l ++ [e]) = calls l ⊎ match call_in e with Some id => {[+ id +]} | None => ∅ end.
Proof.
  unfold calls. rewrite omap_app, list_to_set_disj_app. simpl.
  destruct (call_in e); simpl; multiset_solver.
Qed.

Lemma answers_snoc l e :
  answers (l ++ [e]) = answers l ⊎ match answer_in e with Some id => {[+ id +]} | None => ∅ end.
Proof.
  unfold answers. rewrite omap_app, list_to_set_disj_app. simpl.
  destruct (answer_in e); simpl; multiset_solver.
Qed.

(** One channel, and the others. *)
Lemma queued_lookup t h c :
  cells t !! h = Some c →
  ∃ F, queued t = chan_ids c ⊎ F ∧ ∀ f, queued (table_update h f t) = chan_ids (f c) ⊎ F.
Proof.
  intros Hc. destruct (gsum_lookup (chan_ids <$> cells t) h (chan_ids c)) as (F & HF & HF').
  { by rewrite list_lookup_fmap, Hc. }
  exists F. split; [exact HF|]. intros f. unfold queued, table_update, update_at. simpl.
  rewrite Hc, list_fmap_insert. apply HF'.
Qed.

Lemma queued_same t h f :
  (∀ c, queue (f c) = queue c) → queued (table_update h f t) = queued t.
Proof.
  intros Hf. destruct (cells t !! h) as [c|] eqn:Hc.
  - destruct (queued_lookup t h c Hc) as (F & -> & ->). unfold chan_ids. by rewrite Hf.
  - unfold queued, table_update, update_at. simpl. by rewrite Hc.
Qed.

Lemma queued_insert name t : queued (table_insert name chan_new t).2 = queued t.
Proof.
  unfold queued. simpl. rewrite fmap_app, gsum_app. simpl. unfold chan_ids at 2. simpl. multiset_solver.
Qed.

Lemma queued_register name t : queued (register_chan name t).2 = queued t.
Proof.
  unfold register_chan. pose proof (queued_insert name t) as Hi. simpl in *.
  destruct (entries t !! name); [|done]. simpl. rewrite queued_same; done.
Qed.

Lemma queued_push t h item : queued (table_update h (chan_push item) t) ⊆ {[+ item.1 +]} ⊎ queued t.
Proof.
  destruct (cells t !! h) as [c|] eqn:Hc.
  - destruct (queued_lookup t h c Hc) as (F & -> & ->). unfold chan_ids. simpl.
    rewrite fmap_app, list_to_set_disj_app. simpl. multiset_solver.
  - unfold queued, table_update, update_at. simpl. rewrite Hc. multiset_solver.
Qed.

Lemma queued_take t h c v c' :
  cells t !! h = Some c → chan_check c = Some (v, c') →
  queued t = match v with Some item => {[+ item.1 +]} | None => ∅ end ⊎ queued (table_update h (λ _, c') t).
Proof.
  intros Hc Hk. destruct (queued_lookup t h c Hc) as (F & -> & ->). destruct v as [item|].
  - apply chan_check_value in Hk as [Hq _]. unfold chan_ids. rewrite Hq. simpl. multiset_solver.
  - apply chan_check_end in Hk as [-> _]. multiset_solver.
Qed.

(** The text of an envelope is read as an answer only if it is one, and then with its
    own identifier. *)
Lemma answered_id_text t id rest text id' :
  (0 ≤ t ≤ u64_max)%Z → to_string (VArray (VNumber (PosInt t) :: VString id :: rest)) = Ok text →
  answered_id text = Some id' → (t = MESSAGE_TYPE_RESULT ∨ t = MESSAGE_TYPE_ERROR) ∧ id' = id.
Proof.
  intros Ht Htext. unfold answered_id. destruct (from_str text) as [v|] eqn:Hv; [|done].
  destruct (envelope_read _ _ _ _ _ Ht Htext Hv) as (rest' & -> & _).
  destruct (Z.eqb_spec t MESSAGE_TYPE_RESULT), (Z.eqb_spec t MESSAGE_TYPE_ERROR); simpl; naive_solver.
Qed.

(** ** Steps that spend nothing *)

Definition spends_none (s s' : St) : Prop :=
  queued (request_senders s') ⊎ answers (log s') ⊆ queued (request_senders s) ⊎ answers (log s) ∧
  calls (log s) ⊆ calls (log s') ∧ (Forall typed (log s) → Forall typed (log s')).

Lemma spends_none_inv s s' m : spends_none s s' → answers_inv s m → answers_inv s' m.
Proof. intros (Hq & Hc & Ht) [Ho Hty]. split; [|auto]. multiset_solver. Qed.

Lemma spends_refl s : spends_none s s.
Proof. done. Qed.

Lemma spends_same s s' :
  log s' = log s → queued (request_senders s') = queued (request_senders s) → spends_none s s'.
Proof. intros Hl Hq. unfold spends_none. by rewrite Hl, Hq. Qed.

Lemma spends_log e s : answer_in e = None → typed e → spends_none s (add_log e s).
Proof.
  intros Ha Ht. unfold spends_none. simpl. rewrite answers_snoc, calls_snoc, Ha.
  split; [multiset_solver|]. split; [multiset_solver|]. intros ?.
  apply Forall_app. split; [done|]. by apply Forall_singleton.
Qed.

Lemma spends_harmless e s : harmless e → spends_none s (add_log e s).
Proof.
  intros He. apply spends_log.
  - destruct e as [conn [frame| | |] ok| | | |]; try done. simpl in *. destruct He as (id & a & p & Ht).
    destruct (answered_id frame) as [id'|] eqn:Hid; [|done].
    by destruct (answered_id_text MESSAGE_TYPE_SEND id _ _ _ ltac:(by split) Ht Hid) as [[] _].
  - destruct e as [conn [frame| | |] ok| | | |]; try done. simpl in *. destruct He as (id & a & p & Ht).
    eexists. split; [apply envelope_send|exact Ht].
Qed.

Lemma ext_spends {B} (e : Ext (TErr := TErr) B) c (s s' : St) b :
  match e with Sink (SinkSend _) | Recv _ => False | _ => True end →
  poll_ext e c s = Some (b, s') → spends_none s s'.
Proof.
  intros He. destruct e as [|[]| | |], c; simpl; intros Hp; try done; injection Hp as <- <-;
    try apply spends_refl; by apply spends_log.
Qed.

(** ** Owning CALLs *)

Definition honest A (p : program A) : Prop := ∀ m, owns owing p m (λ _ _, True).

Lemma honest_steps {A} (p : program A) :
  steps_in (λ _ : Choice (TErr := TErr), True) spends_none p → honest A p.
Proof.
  intros Hp m. eapply owns_mono; [|apply (owns_steps_in owing spends_none); [|done..]];
    [done|apply spends_none_inv].
Qed.

Lemma honest_bind A B (p : program A) (k : A → program B) :
  honest A p → (∀ a, honest B (k a)) → honest B (bind p k).
Proof. intros Hp Hk m. eapply owns_bind; [apply Hp|]. intros a m' _. apply Hk. Qed.

Lemma honest_ret {A} (a : A) : honest A (Ret a).
Proof. done. Qed.

(** A program keeps what it does not use. *)
Lemma honest_keeps {A} (p : program A) m :
  honest A p → owns owing p m (λ _ m', ∃ m0, m' = m0 ⊎ m).
Proof.
  intros Hp. pose proof (owns_frame owing p gempty m _ (λ _, I) (Hp gempty)) as Hf.
  rewrite (left_id gempty gcomp) in Hf. eapply owns_mono; [|exact Hf].
  intros a m' (m0 & -> & _). by exists m0.
Qed.

(** Dropping tokens is always possible. *)
Lemma inv_drop s m m' : m' ⊆ m → answers_inv s m → answers_inv s m'.
Proof. intros Hm [Ho Ht]. split; [|done]. multiset_solver. Qed.

(** Sending the text of an envelope: an answer spends the token of its identifier. *)
Lemma owns_send t id rest text m :
  envelope (VArray (VNumber (PosInt t) :: VString id :: rest)) → (0 ≤ t ≤ u64_max)%Z →
  to_string (VArray (VNumber (PosInt t) :: VString id :: rest)) = Ok text →
  (t = MESSAGE_TYPE_RESULT ∨ t = MESSAGE_TYPE_ERROR → id ∈ m) →
  owns owing (sink_call (E := E) (TErr := TErr) (SinkSend text)) m (λ _ _, True).
Proof.
  intros Henv Ht Htext Hid. split; [done|]. intros s c b s' F Hp [Ho Hty].
  destruct c; try discriminate Hp. injection Hp as <- <-.
  set (spent := match answered_id text with Some id => {[+ id +]} | None => ∅ end : gmultiset string).
  assert (Hs : spent ⊆ m).
  { unfold spent. destruct (answered_id text) as [id'|] eqn:Ha; [|multiset_solver].
    destruct (answered_id_text _ _ _ _ _ Ht Htext Ha) as [? ->].
    apply gmultiset_singleton_subseteq_l. auto. }
  exists (m ∖ spent). split; [|done]. split; simpl.
  - rewrite answers_snoc, calls_snoc. simpl. fold spent. multiset_solver.
  - apply Forall_app. split; [done|]. apply Forall_singleton. simpl. eauto.
Qed.

Lemma owns_respond {R} to_value (r : result R E) id m :
  id ∈ m → owns owing (do_send_response (TErr := TErr) to_value r id) m (λ _ _, True).
Proof.
  intros Hid. unfold do_send_response, response_frame. destruct r as [r|e].
  - destruct (to_value r) as [v|]; [|done]. destruct (to_string _) as [text|] eqn:Ht; [|done].
    eapply owns_bind; [|done]. by eapply (owns_send _ id); [apply envelope_result|split|exact Ht|].
  - destruct (to_string _) as [text|] eqn:Ht; [|done].
    eapply owns_bind; [|done]. by eapply (owns_send _ id); [apply envelope_error|split|exact Ht|].
Qed.

(** Taking a CALL out of a channel. *)
Lemma recv_gains h c s b s' m :
  poll (request_recv (E := E) (TErr := TErr) h) c s = Some (b, s') → answers_inv s m →
  answers_inv s' (match b with Some item => {[+ item.1 +]} | None => gempty end ⋅ m).
Proof.
  simpl. destruct (cells (request_senders s) !! h) as [ch|] eqn:Hc; [|done].
  destruct (chan_check ch) as [[v c']|] eqn:Hk; [|done]. intros [= <- <-] [Ho Hty].
  split; [|done]. simpl. rewrite (queued_take _ _ _ _ _ Hc Hk) in Ho. multiset_solver.
Qed.

(** ** Operations *)

Lemma honest_modify f : (∀ s, spends_none s (f s)) → honest _ (modify f).
Proof. intros Hf. apply honest_steps. intros s. by split. Qed.

Lemma honest_atomic {B} (f : St → B * St) : (∀ s, spends_none s (f s).2) → honest _ (atomic f).
Proof. intros Hf. apply honest_steps. intros s. by split. Qed.

Lemma honest_is_closed : honest _ is_closed.
Proof. apply honest_atomic. intros s. apply spends_refl. Qed.

Lemma honest_ext {B} (e : Ext B) :
  match e with Sink (SinkSend _) | Recv _ => False | _ => True end → honest _ (await (FExt e)).
Proof. intros He. apply honest_steps. intros s c b s' _ Hp. split; [by eapply ext_spends|done]. Qed.

Lemma honest_call timeout A request : honest _ (call timeout A request).
Proof.
  apply honest_steps, call_steps.
  - apply spends_refl.
  - intros t s. by apply spends_same.
  - intros d s. by apply spends_log.
  - intros conn id action payload frame written s Hf. apply spends_log; simpl; [|eauto using envelope_call].
    destruct (answered_id frame) as [id'|] eqn:Ha; [|done].
    by destruct (answered_id_text MESSAGE_TYPE_CALL id _ _ _ ltac:(by split) Hf Ha) as [[] _].
Qed.

Lemma honest_send_ping timeout : honest _ (send_ping_with_timeout timeout).
Proof.
  apply honest_steps, ping_steps.
  - apply spends_refl.
  - intros p s. by apply spends_same.
  - intros d s. by apply spends_log.
  - intros conn payload written s. by apply spends_log.
Qed.

(** The user's callback runs while its CALL is owed an answer. *)
Lemma owns_callback {R} (callback : program (result R E)) to_value id m :
  honest _ callback →
  owns owing (bind callback (λ response, do_send_response to_value response id)) ({[+ id +]} ⋅ m)
    (λ _ _, True).
Proof.
  intros Hcb. eapply owns_bind; [by apply honest_keeps|]. intros response m' (m0 & ->).
  apply owns_respond. simpl. multiset_solver.
Qed.

Lemma honest_handler_loop fuel A callback h :
  (∀ r, honest _ (callback r)) → honest _ (handler_loop fuel A callback h).
Proof.
  intros Hcb. induction fuel as [|fuel IH]; cbn [handler_loop]; [done|]. intros m.
  split; [done|]. intros s c b s' F Hp Hi. apply (recv_gains _ _ _ _ _ _ Hp) in Hi.
  destruct b as [[id payload]|]; [|by exists m; rewrite (left_id gempty gcomp) in Hi].
  exists ({[+ id +]} ⋅ m). split; [by rewrite <-(assoc gcomp)|]. cbn [bind]. unfold handle_call.
  destruct (de_request A payload) as [request|].
  - eapply owns_bind; [by apply owns_callback|]. intros _ m' _. apply IH.
  - eapply owns_bind; [apply owns_respond; simpl; multiset_solver|]. intros _ m' _. apply IH.
Qed.

Lemma register_spends name (s : St) :
  spends_none s (set_requests (register_chan name (request_senders s)).2 s).
Proof. apply spends_same; [done|]. apply queued_register. Qed.

(** [wait_for] after a CALL has arrived. *)
Lemma owns_wait_outcome (A : Action) (callback : Request A → program (result (Response A) E)) id payload m :
  (∀ r, honest _ (callback r)) →
  owns owing
    (match de_request A payload with
     | Ok for_callback =>
         bind (callback for_callback) (λ response,
           bind (do_send_response (ser_response A) response id) (λ _,
             Ret (map_err Decode (de_request A payload))))
     | Err err => Ret (Err (Decode err : ClientError E JsonError TErr))
     end) ({[+ id +]} ⋅ m) (λ _ _, True).
Proof.
  intros Hcb. destruct (de_request A payload); [|done].
  eapply owns_bind; [by apply honest_keeps|]. intros response m' (m0 & ->).
  eapply owns_bind; [apply owns_respond; simpl; multiset_solver|done].
Qed.

Lemma honest_wait_for timeout A callback :
  (∀ r, honest _ (callback r)) → honest _ (wait_for timeout A callback).
Proof.
  intros Hcb. apply honest_bind.
  { apply honest_atomic. intros s. pose proof (register_spends (NAME A) s). by destruct (register_chan _ _). }
  intros h m. split; [done|]. intros s c b s' F Hp Hi.
  assert (Hend : ∀ o, honest _ (bind (deregister_own (NAME A) h) (λ _, Ret (o : result (Request A) (ClientError E JsonError TErr))))).
  { intros o. apply honest_bind; [|done]. apply honest_modify. intros s1.
    destruct (entries (request_senders s1) !! NAME A); [case_decide|]; by apply spends_same. }
  unfold poll_select in Hp. destruct (poll (request_recv h) c s) as [[v s1]|] eqn:Hr.
  - injection Hp as <- <-. apply (recv_gains _ _ _ _ _ _ Hr) in Hi. cbn [bind].
    destruct v as [[id payload]|].
    + exists ({[+ id +]} ⋅ m). split; [by rewrite <-(assoc gcomp)|].
      eapply owns_bind; [by apply owns_wait_outcome|]. intros o m' _. apply Hend.
    + exists m. split; [by rewrite (left_id gempty gcomp) in Hi|]. apply Hend.
  - destruct (poll (FExt (Delay timeout)) c s) as [[v s1]|] eqn:Hd; [|done]. injection Hp as <- <-.
    exists m. split; [|apply Hend]. eapply spends_none_inv; [|exact Hi]. by eapply (ext_spends (Delay timeout)).
Qed.

(** The read loop hands a CALL to its handler, or refuses it. *)
Lemma owns_handle_CALL frame m :
  (∀ id, called_id frame = Some id → id ∈ m) →
  (∀ call, from_str_as de_RawCall frame = Some call → call_type call = MESSAGE_TYPE_CALL) →
  owns owing (handle_CALL (E := E) (TErr := TErr) frame) m (λ _ _, True).
Proof.
  intros Hid Hty. unfold handle_CALL. unfold called_id in Hid.
  destruct (from_str_as de_RawCall frame) as [rc|]; [|done].
  specialize (Hid (call_id rc)). rewrite (Hty rc eq_refl) in Hid. specialize (Hid eq_refl).
  intros s F Hi. exists m. split; [exact Hi|]. cbn [fst snd bind].
  destruct (entries (request_senders s) !! call_action rc) as [h|].
  - intros s1 F1 [Ho Hty1]. exists (m ∖ {[+ call_id rc +]}). split.
    + split; [|done]. simpl in *. pose proof (queued_push (request_senders s1) h (call_id rc, call_payload rc)).
      assert ({[+ call_id rc +]} ⊆ m) by by apply gmultiset_singleton_subseteq_l. simpl in *. multiset_solver.
    + apply honest_modify. intros s2. apply spends_same; [done|]. by apply queued_same.
  - destruct (to_string _) as [text|] eqn:Ht; [|done]. eapply owns_bind; [|done].
    by eapply (owns_send _ (call_id rc)); [apply envelope_error|split|exact Ht|].
Qed.

Lemma owns_handle_event event m :
  (∀ id, call_in (LRecv event) = Some id → id ∈ m) →
  owns owing (handle_event (E := E) (TErr := TErr) event) m (λ _ _, True).
Proof.
  destruct event as [frame|payload|payload]; cbn [handle_event call_in]; intros Hid.
  - unfold handle_frame. destruct (from_str frame) as [[| | | |[|[] items]|]|] eqn:Hf; try done.
    destruct (as_u64_opt n) as [t|] eqn:Hn; [|done].
    assert (n = PosInt t) as -> by (destruct n; simpl in Hn; congruence).
    destruct (Z.eqb_spec t MESSAGE_TYPE_CALL) as [->|];
      [|destruct (t =? MESSAGE_TYPE_RESULT)%Z;
        [|destruct (t =? MESSAGE_TYPE_ERROR)%Z; [|destruct (t =? MESSAGE_TYPE_SEND)%Z; [|done]]]].
    + apply owns_handle_CALL; [done|]. intros rc (v & Hv & ->%de_RawCall_inv)%from_str_as_inv.
      rewrite Hv in Hf. by injection Hf as ? ?.
    + unfold handle_RESULT. destruct (from_str_as _ frame); [|done].
      destruct (uuid_parse_str _) as [id|]; [|done]. apply honest_modify. intros s.
      unfold settle_pending. destruct (entries _ !! id); [by apply spends_same|done].
    + unfold handle_ERROR. destruct (from_str_as _ frame); [|done].
      destruct (uuid_parse_str _) as [id|]; [|done]. apply honest_modify. intros s.
      unfold settle_pending. destruct (entries _ !! id); [by apply spends_same|done].
    + unfold handle_SEND. destruct (from_str_as _ frame); [|done].
      apply honest_bind; [by apply honest_atomic|]. intros [h|]; [|done].
      unfold notification_send. apply honest_bind; intros; by apply honest_modify.
  - apply honest_bind; [by apply honest_modify|]. intros _.
    apply honest_bind; [by apply honest_ext|done].
  - apply honest_modify. intros s. unfold settle_pong. destruct (token_of payload); [|done].
    destruct (entries _ !! _); [by apply spends_same|done].
Qed.

Lemma honest_read_connection fuel honor stream attempt :
  honest _ (read_connection fuel honor stream attempt).
Proof.
  revert attempt. induction fuel as [|fuel IH]; intros attempt; cbn [read_connection]; [done|].
  intros m. split; [done|]. intros s c b s' F Hp Hi. unfold poll_select in Hp.
  destruct (poll (FExt (Recv stream)) c s) as [[v s1]|] eqn:Hr.
  - injection Hp as <- <-. destruct c as [| |r| |]; try discriminate Hr. injection Hr as <- <-.
    destruct r as [[event|]|err]; cbn [bind]; [|by exists m..].
    exists (match call_in (LRecv event) with Some id => {[+ id +]} | None => ∅ end ⋅ m). split.
    + destruct Hi as [Ho Hty]. split; simpl in *.
      * rewrite answers_snoc, calls_snoc. simpl. multiset_solver.
      * apply Forall_app. split; [done|]. by apply Forall_singleton.
    + eapply owns_bind; [apply owns_handle_event|intros _ m' _; apply IH].
      intros id ->. simpl. multiset_solver.
  - simpl in Hp. destruct (notify_poll_wait _) as [[]|]; [|done]. injection Hp as <- <-. exists m.
    split; [by eapply spends_none_inv; [|exact Hi]; apply spends_same|]. cbn [bind].
    apply honest_bind; [apply honest_is_closed|]. intros c'. destruct c'; [done|].
    destruct honor; [done|apply IH].
Qed.

Lemma honest_spawn A (p : program unit) (k : program A) : honest _ p → honest A k → honest A (Spawn p k).
Proof. intros Hp Hk m. apply owns_spawn; [apply Hp|apply Hk]. Qed.

Lemma honest_logic : client_logic (λ _, True) any_handler spends_none honest.
Proof.
  split; [split|..]; eauto using honest_bind, honest_spawn, honest_call, honest_send_ping, honest_wait_for,
    spends_harmless; try (intros; by apply spends_same).
  - intros A p. apply honest_steps.
  - intros fuel A callback _ Hcb. apply (on_by_loop (λ _, True) spends_none);
      auto using honest_bind, honest_spawn, register_spends, honest_handler_loop.
    intros B p. apply honest_steps.
  - intros s. apply (spends_log LClosed (set_closed true s)); done.
Qed.

(** Every reachable state keeps the books. *)
Lemma answers_inv_reachable fuel conn config (users : list (program unit)) schedule ts s :
  Forall (api unit) users →
  run_pool schedule ((from_transport_with_config fuel conn config).2 ++ users)
    (from_transport_with_config (E := E) (TErr := TErr) fuel conn config).1 = Some (ts, s) →
  ∃ m, answers_inv s m.
Proof.
  intros Hu Hrun.
  assert (Ho : pool_owns owing ts s) by (eapply pool_owns_run; [|exact Hrun]; apply pool_owns_start;
    [eapply Forall_impl; [by apply (logic_tasks _ _ _ _ honest_logic honest_read_connection fuel conn config users)|]; intros t Ht;
     apply Ht|by split]).
  destruct Ho as (ms & _ & Hi). by exists (gsum ms).
Qed.

Lemma answers_at_most_calls s m id :
  answers_inv s m →
  multiplicity id (answers (log s)) + multiplicity id (queued (request_senders s))
    ≤ multiplicity id (calls (log s)).
Proof. intros [Ho _]. specialize (Ho id). rewrite !multiplicity_disj_union in Ho. lia. Qed.

(** C9: no CALL is answered twice, and none is answered that was not received.  Under
    every interleaving of the client's tasks, its handlers and any users, however
    handlers are replaced and connections change: for every message identifier, the
    CALLRESULT and CALLERROR frames handed to the transport, together with the CALLs
    still queued for a handler, are at most as many as the CALL frames received with
    that identifier. *)
Theorem calls_are_answered_at_most_once fuel conn config (users : list (program unit)) schedule ts s id :
  Forall (api unit) users →
  run_pool schedule ((from_transport_with_config fuel conn config).2 ++ users)
    (from_transport_with_config (E := E) (TErr := TErr) fuel conn config).1 = Some (ts, s) →
  multiplicity id (answers (log s)) + multiplicity id (queued (request_senders s))
    ≤ multiplicity id (calls (log s)).
Proof.
  intros Hu Hrun. destruct (answers_inv_reachable _ _ _ _ _ _ _ Hu Hrun) as [m Hm].
  by eapply answers_at_most_calls.
Qed.

(** C15: everything the client sends is a well-formed envelope.  Under every
    interleaving, each text handed to the transport, whether by a call, a notification,
    a handler's answer or a refusal, is the JSON text of a CALL, CALLRESULT, CALLERROR
    or SEND array with its message type and the fields in their places. *)
Theorem every_frame_sent_is_an_envelope fuel conn config (users : list (program unit)) schedule ts s c frame ok :
  Forall (api unit) users →
  run_pool schedule ((from_transport_with_config fuel conn config).2 ++ users)
    (from_transport_with_config (E := E) (TErr := TErr) fuel conn config).1 = Some (ts, s) →
  LSink c (SinkSend frame) ok ∈ log s → ∃ v, envelope v ∧ to_string v = Ok frame.
Proof.
  intros Hu Hrun Hin. destruct (answers_inv_reachable _ _ _ _ _ _ _ Hu Hrun) as [m [_ Ht]].
  by apply (proj1 (Forall_forall _ _) Ht) in Hin.
Qed.

End Answers.

(** ** Witnesses *)

(** A handler is registered, a CALL arrives, is queued, and is answered. *)
Definition answer_users : list (demo_program unit) := [on 2 demo_action (λ r, Ret (Ok r))].

Lemma answer_users_api : Forall (api unit) answer_users.
Proof. apply Forall_singleton. apply api_on; [exact I|]. intros r. apply api_ret. Defined.

Definition answer_request : string :=
  demo_text (ser_RawCall (mkRawCall MESSAGE_TYPE_CALL "12" "Heartbeat" VNull)).

Definition answer_reply : string :=
  demo_text (ser_RawResult (mkRawResult MESSAGE_TYPE_RESULT "12" VNull)).

Definition answer_schedule : list (nat * demo_choice) :=
  [(2, CTimer); (2, CTimer); (0, CRecv (Ok (Some (Frame answer_request)))); (0, CTimer);
   (0, CTimer); (0, CTimer); (3, CTimer); (3, CSink (Ok tt))].

Abbreviation answer_run := (run_pool answer_schedule (demo_client.2 ++ answer_users) demo_client.1).

Lemma calls_are_answered_at_most_once_witness :
  match answer_run with
  | Some x => multiplicity "12" (answers (log x.2)) = 1 ∧
              multiplicity "12" (answers (log x.2)) + multiplicity "12" (queued (request_senders x.2))
                ≤ multiplicity "12" (calls (log x.2))
  | None => False
  end.
Proof.
  apply (ran_to_elim (λ x, multiplicity "12" (answers (log x.2)) = 1 ∧
              multiplicity "12" (answers (log x.2)) + multiplicity "12" (queued (request_senders x.2))
                ≤ multiplicity "12" (calls (log x.2)))
           (λ x, bool_decide (multiplicity "12" (answers (log x.2)) = 1)));
    [vm_compute; reflexivity|].
  intros [ts s] Hrun Hone. split; [exact (bool_decide_eq_true_1 _ Hone)|].
  exact (calls_are_answered_at_most_once 3 0 demo_config answer_users answer_schedule ts s "12"
           answer_users_api Hrun).
Defined.

Lemma every_frame_sent_is_an_envelope_witness :
  match answer_run with
  | Some x => ∃ v, envelope v ∧ to_string v = Ok answer_reply
  | None => False
  end.
Proof.
  apply (ran_to_elim (λ x, ∃ v, envelope v ∧ to_string v = Ok answer_reply)
           (λ x, match log x.2 with [_; LSink 0 (SinkSend f) true] => String.eqb f answer_reply | _ => false end));
    [vm_compute; reflexivity|].
  intros [ts s] Hrun Hlog. apply (every_frame_sent_is_an_envelope 3 0 demo_config answer_users answer_schedule
    ts s 0 answer_reply true answer_users_api Hrun).
  simpl in Hlog. destruct (log s) as [|e1 [|e2 [|]]]; try discriminate Hlog; destruct e2 as [c o k| | | |];
    try discriminate Hlog; destruct c, o, k; try discriminate Hlog.
  apply String.eqb_eq in Hlog. subst. right. left.
Defined.
