(* ===== verification/ClientReplies.v ===== *)
(** * Every answer is the one its handler computed

    A CALL frame that was received is a fact that stays true; the queues of the handlers
    hold only such CALLs, each in the channel of its own action, so that whatever is
    answered was computed, by a handler of that action, from the payload that the peer
    sent with that identifier.  The same judgement shows that a task which never draws
    an identifier never sends a CALL with it. *)

From S2P Require Import Prelude Time Sync Envelope Platform ProtocolErrors Reconnect Keepalive Engine Client ClientInv ClientLogic ClientDemo ClientAnswers.
From stdpp Require Import base gmap strings list.

Section Replies.
Context {SM : SignalModel} {UM : UuidModel} {SJ : SerdeJson} {E : Type} {PE : ProtocolError E} {TErr : Type}.

Abbreviation St := (Client (E := E)).
Abbreviation Ch := (Choice (TErr := TErr)).
Abbreviation program A := (prog (St := St) (Ext := Ext (TErr := TErr)) A).

(** What a client's handlers promise: the actions they are registered for, and what
    they may answer to a request. *)
Record Contract := mkContract {
  handles : Action → Prop;
  yielding : ∀ A : Action, Request A → result (Response A) E → Prop;
}.

Context (Spec : Contract).

(** A handler that answers accordingly. *)
Definition serves (A : Action) (callback : Request A → program (result (Response A) E)) : Prop :=
  handles Spec A ∧ ∀ request, yields (callback request) (yielding Spec A request).

(** ** What the log says *)

Definition received (l : list LogEntry) (name id : string) (payload : Value) : Prop :=
  ∃ frame, LRecv (Frame frame) ∈ l ∧
    from_str frame = Ok (ser_RawCall (mkRawCall MESSAGE_TYPE_CALL id name payload)).

(** The answer to a CALL: what a handler made of the request, that the request could not
    be decoded, or that there was no handler. *)
Inductive reply_for (name : string) (payload : Value) (id frame : string) : Prop :=
| reply_handled A request outcome :
    handles Spec A → NAME A = name → de_request A payload = Ok request → yielding Spec A request outcome →
    response_frame (ser_response A) outcome id = Some frame → reply_for name payload id frame
| reply_undecodable A error :
    handles Spec A → NAME A = name → de_request A payload = Err error →
    response_frame (ser_response A) (Err (not_implemented ("Failed to parse payload for " +:+ name) : E)) id
      = Some frame → reply_for name payload id frame
| reply_unhandled :
    (let error : E := not_implemented ("Action '" +:+ name +:+ "' is not implemented") in
     to_string (ser_RawError (mkRawError MESSAGE_TYPE_ERROR id (code error) (description error) (details error)))
       = Ok frame) → reply_for name payload id frame.

Definition justified (l : list LogEntry) (id frame : string) : Prop :=
  ∃ name payload, received l name id payload ∧ reply_for name payload id frame.

(** An answer is justified by what was received before it, and so is a pong. *)
Definition entry_ok (l : list LogEntry) (e : LogEntry) : Prop :=
  match e with
  | LSink _ (SinkSend frame) _ =>
      ∀ t id, frame_head frame = Some (t, id) →
        t = MESSAGE_TYPE_RESULT ∨ t = MESSAGE_TYPE_ERROR → justified l id frame
  | LSink _ (SinkPong payload) _ => LRecv (Ping payload) ∈ l
  | _ => True
  end.

Record replies_inv (s : St) : Prop := {
  inv_log : ∀ i e, log s !! i = Some e → entry_ok (take i (log s)) e;
  inv_queues : table_wf (λ _ _, True)
    (λ name c, Forall (λ item, received (log s) name item.1 item.2) (queue c)) (request_senders s);
}.

Lemma received_app l l' name id payload : received l name id payload → received (l ++ l') name id payload.
Proof. intros (frame & ? & ?). exists frame. set_solver. Qed.

Lemma justified_app l l' id frame : justified l id frame → justified (l ++ l') id frame.
Proof. intros (name & payload & ? & ?). exists name, payload. eauto using received_app. Qed.

(** ** What tasks do to each other *)

(** Identifiers the tasks of the judgement never draw, and the events the peer may
    have sent. *)
Context (mine : Uuid → Prop) (offered : TransportEvent → Prop).

Definition call_uuid (frame : string) : option Uuid :=
  match frame_head frame with
  | Some (t, id) => if (t =? MESSAGE_TYPE_CALL)%Z then uuid_parse_str id else None
  | None => None
  end.

(** What the tasks add to the log: no CALL with an identifier in [mine], and only
    events that were offered. *)
Definition foreign (e : LogEntry) : Prop :=
  match e with
  | LSink _ (SinkSend frame) _ => ∀ u, call_uuid frame = Some u → ¬ mine u
  | LRecv event => offered event
  | _ => True
  end.

Definition link_choice (c : Ch) : Prop :=
  not_mine mine c ∧ ∀ event, c = CRecv (Ok (Some event)) → offered event.

Record moves (s s' : St) : Prop := {
  moves_log : log s `prefix_of` log s';
  moves_keys : keys (request_senders s) `prefix_of` keys (request_senders s');
  moves_inv : replies_inv s → replies_inv s';
}.

#[export] Instance moves_preorder : PreOrder moves.
Proof.
  split; [by split|]. intros s1 s2 s3 [? ? ?] [? ? ?]. split; [by etrans|by etrans|auto].
Qed.

Definition replies_guar (s s' : St) : Prop :=
  moves s s' ∧ ∃ l, log s' = log s ++ l ∧ Forall foreign l.

Definition replies_spec : spec (St := St) (Choice := Ch) := mkSpec link_choice moves replies_guar.

Lemma guar_moves s s' : replies_guar s s' → moves s s'.
Proof. by intros []. Qed.

Lemma moves_received s s' name id payload :
  moves s s' → received (log s) name id payload → received (log s') name id payload.
Proof. intros [[l Hl] _ _]. rewrite Hl. apply received_app. Qed.

Lemma moves_logged s s' e : moves s s' → e ∈ log s → e ∈ log s'.
Proof. intros [[l Hl] _ _]. rewrite Hl. set_solver. Qed.

(** The table of handlers, when the log grows. *)
Lemma queues_log e (s : St) :
  table_wf (λ _ _, True) (λ name c, Forall (λ item, received (log s) name item.1 item.2) (queue c))
    (request_senders s) →
  table_wf (λ _ _, True)
    (λ name c, Forall (λ item, received (log s ++ [e]) name item.1 item.2) (queue c)) (request_senders s).
Proof.
  apply table_wf_impl. intros name c Hq. eapply Forall_impl; [exact Hq|].
  intros item. apply received_app.
Qed.

Lemma guar_logs e (s s' : St) :
  log s' = log s ++ [e] → request_senders s' = request_senders s → entry_ok (log s) e → foreign e →
  replies_guar s s'.
Proof.
  intros Hl Hr He Hm. split; [|exists [e]; by auto].
  split; rewrite ?Hl, ?Hr; [by apply prefix_app_r|done|].
  intros [Hlog Hq]. split; rewrite Hl, ?Hr; [|by apply queues_log].
  intros i x. rewrite lookup_snoc_Some_iff. intros [Hi|[-> ->]].
  - pose proof (lookup_lt_Some _ _ _ Hi). rewrite take_app_le by lia. auto.
  - by rewrite take_app_le, take_ge by lia.
Qed.

Lemma replies_guar_log e (s : St) :
  entry_ok (log s) e → foreign e → replies_guar s (add_log e s).
Proof. by apply guar_logs. Qed.

Lemma guar_same (s s' : St) :
  log s' = log s → request_senders s' = request_senders s → replies_guar s s'.
Proof.
  intros Hl Hr. split; [|exists []; by rewrite Hl, app_nil_r].
  split; rewrite ?Hl, ?Hr; [done..|]. intros [? ?]. split; by rewrite Hl, ?Hr.
Qed.

Lemma guar_handlers_table t (s : St) :
  keys (request_senders s) `prefix_of` keys t →
  (replies_inv s → table_wf (λ _ _, True)
     (λ name c, Forall (λ item, received (log s) name item.1 item.2) (queue c)) t) →
  replies_guar s (set_requests t s).
Proof.
  intros Hk Ht. split; [|exists []; by rewrite app_nil_r].
  split; simpl; [done..|]. intros Hi. split; [apply Hi|by apply Ht].
Qed.

Lemma guar_harmless e (s : St) : harmless e → replies_guar s (add_log e s).
Proof.
  intros He. apply replies_guar_log; destruct e as [conn [frame| | |] ok| | | |]; simpl in *; try done;
    destruct He as (id & a & p & Ht).
  - intros t id' Hh. destruct (frame_head_text MESSAGE_TYPE_SEND id _ _ _ _ ltac:(by split) Ht Hh) as [-> _]. by intros [].
  - intros u. unfold call_uuid. destruct (frame_head frame) as [[t id']|] eqn:Hh; [|done].
    by destruct (frame_head_text MESSAGE_TYPE_SEND id _ _ _ _ ltac:(by split) Ht Hh) as [-> _].
Qed.

(** ** The judgement *)

Definition replies A (p : program A) : Prop :=
  ∀ s, replies_inv s → safe replies_spec p (λ _ _, True) s.

Lemma safe_reaches {A : Type} (p : program A) s :
  safe replies_spec p (λ _ _, True) s → safe replies_spec p (λ _, moves s) s.
Proof.
  apply safe_invariant; simpl; [|intros s1 s2 Hg%guar_moves|done]; intros; by etrans.
Qed.

Lemma replies_then {A B : Type} (p : program A) (k : A → program B) (Q : B → St → Prop) s :
  safe replies_spec p (λ _ _, True) s → (∀ a s', moves s s' → safe replies_spec (k a) Q s') →
  safe replies_spec (bind p k) Q s.
Proof. intros Hp Hk. apply safe_then; [apply moves_preorder|apply guar_moves|done|done]. Qed.

Lemma replies_bind A B (p : program A) (k : A → program B) :
  replies A p → (∀ a, replies B (k a)) → replies B (bind p k).
Proof.
  intros Hp Hk s Hi. apply replies_then; [by apply Hp|]. intros a s' Hm. by apply Hk, Hm.
Qed.

Lemma replies_steps A (p : program A) : steps_in link_choice replies_guar p → replies A p.
Proof. intros Hp s _. by eapply steps_in_safe. Qed.

Lemma replies_spawn A (p : program unit) (k : program A) : replies _ p → replies A k → replies A (Spawn p k).
Proof. intros Hp Hk s Hi s1 Hm. split; [apply Hp|apply Hk]; by apply Hm. Qed.

(** A program that sends one frame. *)
Lemma replies_send frame s :
  (∀ s', moves s s' → ∀ conn ok, entry_ok (log s') (LSink conn (SinkSend frame) ok)) →
  (∀ u, call_uuid frame = Some u → ¬ mine u) →
  safe replies_spec (sink_call (E := E) (TErr := TErr) (SinkSend frame)) (λ _ _, True) s.
Proof.
  intros He Hu s1 c b s2 Hm _ Hp. destruct c; simpl in Hp; try discriminate Hp. injection Hp as _ <-.
  split; [|done]. apply replies_guar_log; [by apply He|done].
Qed.

Lemma replies_answer t id rest frame s :
  t = MESSAGE_TYPE_RESULT ∨ t = MESSAGE_TYPE_ERROR →
  to_string (VArray (VNumber (PosInt t) :: VString id :: rest)) = Ok frame →
  justified (log s) id frame →
  safe replies_spec (sink_call (E := E) (TErr := TErr) (SinkSend frame)) (λ _ _, True) s.
Proof.
  intros Ht Hf Hj. assert (0 ≤ t ≤ u64_max)%Z as Hr by (by destruct Ht as [-> | ->]).
  apply replies_send.
  - intros s' [[l Hl] _ _] conn ok t' id' Hh _.
    destruct (frame_head_text _ _ _ _ _ _ Hr Hf Hh) as [_ ->]. rewrite Hl. by apply justified_app.
  - intros u. unfold call_uuid. destruct (frame_head frame) as [[t' id']|] eqn:Hh; [|done].
    destruct (frame_head_text _ _ _ _ _ _ Hr Hf Hh) as [-> ->]. by destruct Ht as [-> | ->].
Qed.

Lemma replies_respond A (outcome : result (Response A) E) payload id s :
  received (log s) (NAME A) id payload →
  (∀ frame, response_frame (ser_response A) outcome id = Some frame → reply_for (NAME A) payload id frame) →
  safe replies_spec (do_send_response (TErr := TErr) (ser_response A) outcome id) (λ _ _, True) s.
Proof.
  intros Hr Hf. unfold do_send_response.
  destruct (response_frame _ _ _) as [frame|] eqn:Hrf; [|done].
  assert (justified (log s) id frame) as Hj by (exists (NAME A), payload; auto).
  apply replies_then; [|done]. unfold response_frame in Hrf. destruct outcome as [r|e].
  - destruct (ser_response A r) as [v|]; [|done]. destruct (to_string _) as [f|] eqn:Ht; [|done].
    injection Hrf as ->. by eapply (replies_answer MESSAGE_TYPE_RESULT); [left| |].
  - destruct (to_string _) as [f|] eqn:Ht; [|done].
    injection Hrf as ->. by eapply (replies_answer MESSAGE_TYPE_ERROR); [right| |].
Qed.

(** ** The operations *)

Lemma replies_new_v4 {A} (k : Uuid → program A) :
  (∀ u, ¬ mine u → replies _ (k u)) → replies _ (bind new_v4 k).
Proof.
  intros Hk s Hi s1 c b s2 Hm [Hc _] Hp. destruct c; simpl in Hp; try discriminate Hp. injection Hp as <- <-.
  split; [by apply guar_same|]. apply Hk; [done|]. by apply Hm.
Qed.

Lemma replies_modify f :
  (∀ s, log (f s) = log s ∧ request_senders (f s) = request_senders s) → replies _ (modify (E := E) (TErr := TErr) f).
Proof.
  intros Hf. apply replies_steps. intros s. split; [|done]. destruct (Hf s). by apply guar_same.
Qed.

Lemma replies_atomic {B} (f : St → B * St) :
  (∀ s, log (f s).2 = log s ∧ request_senders (f s).2 = request_senders s) → replies _ (atomic (TErr := TErr) f).
Proof.
  intros Hf. apply replies_steps. intros s. split; [|done]. destruct (Hf s). by apply guar_same.
Qed.

Lemma replies_with_timeout {B} d (f : fut B) :
  (∀ s c b s', poll f c s = Some (b, s') → replies_guar s s') → replies _ (with_timeout (E := E) (TErr := TErr) d f).
Proof.
  intros Hf. apply replies_steps. intros s c b s' _ Hp. split; [|by destruct b]. unfold poll_select in Hp.
  destruct (poll f c s) as [[x s1]|] eqn:Hpf; [injection Hp as _ <-; by eapply Hf|].
  destruct c; simpl in Hp; try discriminate Hp. injection Hp as _ <-. by apply guar_harmless.
Qed.

Lemma replies_call timeout A request : replies _ (call (TErr := TErr) timeout A request).
Proof.
  apply replies_bind; [by apply replies_atomic|]. intros c. destruct c; [done|].
  apply replies_new_v4. intros u Hu.
  destruct (ser_request A request) as [payload|]; [|done]. cbv beta iota zeta.
  destruct (to_string _) as [frame|] eqn:Hf; [|done].
  apply replies_bind; [by apply replies_atomic|]. intros h.
  apply replies_bind; [|intros [[]|err]].
  - intros s _. assert (∀ t id, frame_head frame = Some (t, id) → t = MESSAGE_TYPE_CALL ∧ id = uuid_to_string u) as Hh.
    { intros t id. by eapply frame_head_text; [|exact Hf]. }
    apply replies_send.
    + intros s' _ conn ok t id Ht. destruct (Hh _ _ Ht) as [-> _]. by intros [].
    + intros u'. unfold call_uuid. destruct (frame_head frame) as [[t id]|]; [|done].
      destruct (Hh t id eq_refl) as [-> ->]. simpl. rewrite uuid_parse_to_string. by intros [= <-].
  - apply replies_bind; [|intros [[v|e]|[]]; [done..|]].
    + apply replies_with_timeout. intros s c b s'. simpl.
      destruct (cells (pending_responses s) !! h); [|done].
      destruct (oneshot_poll_wait _) as [[]|]; [|done]. intros [= <- <-]. by apply guar_same.
    + apply replies_bind; [by apply replies_modify|done].
  - apply replies_bind; [by apply replies_modify|done].
Qed.

Lemma replies_send_ping timeout : replies _ (send_ping_with_timeout (E := E) (TErr := TErr) timeout).
Proof.
  apply replies_bind; [by apply replies_atomic|]. intros c. destruct c; [done|].
  apply replies_bind; [by apply replies_atomic|]. intros r.
  apply replies_bind; [|intros [[]|err]].
  - apply replies_steps. intros s c b s' _ Hp. split; [|done]. destruct c; simpl in Hp; try discriminate Hp.
    injection Hp as _ <-. by apply guar_harmless.
  - apply replies_bind; [|intros [?|[]]; [done|]].
    + apply replies_with_timeout. intros s c b s'. simpl.
      destruct (cells (waiters (pong_waiters s)) !! _); [|done].
      destruct (oneshot_poll_wait _) as [[]|]; [|done]. intros [= <- <-]. by apply guar_same.
    + apply replies_bind; [by apply replies_modify|done].
  - apply replies_bind; [by apply replies_modify|done].
Qed.

(** ** Handlers *)

(** The channel [h] is one of the action [name]. *)
Definition channel_of (s : St) (h : nat) (name : string) : Prop :=
  keys (request_senders s) !! h = Some name.

Lemma moves_channel s s' h name : moves s s' → channel_of s h name → channel_of s' h name.
Proof. intros [_ Hk _] Hc. by eapply prefix_lookup_Some. Qed.

Lemma register_keeps name (s : St) :
  replies_guar s (set_requests (register_chan name (request_senders s)).2 s).
Proof.
  apply guar_handlers_table; unfold register_chan; simpl.
  - destruct (entries _ !! name); simpl; by apply prefix_app_r.
  - intros [_ Hq]. pose proof (table_wf_insert _ _ name chan_new _ Hq I (Forall_nil_2 _)) as Hins.
    destruct (entries _ !! name); simpl; [|done]. by apply table_wf_update.
Qed.

Lemma register_channel name (s : St) :
  replies_inv s →
  channel_of (set_requests (register_chan name (request_senders s)).2 s) (register_chan name (request_senders s)).1 name.
Proof.
  intros [_ Hq]. unfold channel_of, register_chan. simpl. rewrite <-(wf_length _ _ _ Hq).
  destruct (entries _ !! name); simpl; apply list_lookup_middle; done.
Qed.

Lemma safe_register {A} name (k : nat → program A) s :
  replies_inv s → (∀ h s', replies_inv s' → channel_of s' h name → safe replies_spec (k h) (λ _ _, True) s') →
  safe replies_spec (bind (register_request name) k) (λ _ _, True) s.
Proof.
  intros Hi Hk s1 Hm. pose proof (register_keeps name s1) as Hg.
  assert (replies_inv s1) as Hi1 by by apply Hm. pose proof (register_channel name s1 Hi1) as Hc.
  cbn [fst snd]. destruct (register_chan name (request_senders s1)) as [h t]. split; [done|].
  apply Hk; [|done]. by apply Hg.
Qed.

(** Taking from a channel of an action gives a CALL of that action that was received. *)
Lemma request_recv_received h name c (s : St) b s' :
  replies_inv s → channel_of s h name → poll (Ext := Ext (TErr := TErr)) (request_recv h) c s = Some (b, s') →
  replies_guar s s' ∧ ∀ item, b = Some item → received (log s') name item.1 item.2.
Proof.
  intros Hi Hc. simpl. destruct (cells (request_senders s) !! h) as [ch|] eqn:Hh; [|done].
  destruct (chan_check ch) as [[v c']|] eqn:Hk; [|done]. intros [= <- <-].
  assert (∀ item, v = Some item → queue ch = item :: queue c') as Hv.
  { intros item ->. by apply chan_check_value in Hk as [? _]. }
  assert (v = None → c' = ch) as He by (intros ->; by apply chan_check_end in Hk as [? _]).
  split.
  - apply guar_handlers_table; [done|]. intros [_ Hq]. apply table_wf_update; [done| |done].
    intros k c1 _ Hc1 Hf. assert (c1 = ch) as -> by congruence. destruct v as [item|]; [|by rewrite He].
    rewrite (Hv item eq_refl) in Hf. by apply Forall_cons in Hf as [_ ?].
  - intros item ->. pose proof (wf_cells _ _ _ (inv_queues _ Hi) _ _ _ Hc Hh) as Hf. simpl in Hf.
    rewrite (Hv item eq_refl) in Hf. by apply Forall_cons in Hf as [? _].
Qed.

(** The user's callback yields an answer to its request. *)
Lemma safe_callback (A : Action) (callback : Request A → program (result (Response A) E)) request payload id s :
  serves A callback → (∀ r, replies _ (callback r)) → de_request A payload = Ok request → replies_inv s →
  safe replies_spec (callback request) (λ outcome s', moves s s' ∧
    ∀ frame, response_frame (ser_response A) outcome id = Some frame → reply_for (NAME A) payload id frame) s.
Proof.
  intros [Hh Hs] Hcb Hd Hi.
  eapply safe_mono; [|apply safe_yields; [apply Hs|apply safe_reaches, Hcb, Hi]].
  cbv beta. intros outcome s' [Hm Hy]. split; [done|]. intros frame Hf. by eapply reply_handled.
Qed.

Lemma replies_handler_loop fuel A callback h s :
  serves A callback → (∀ r, replies _ (callback r)) → replies_inv s → channel_of s h (NAME A) →
  safe replies_spec (handler_loop fuel A callback h) (λ _ _, True) s.
Proof.
  intros Hs Hcb. revert s. induction fuel as [|fuel IH]; intros s Hi Hc; cbn [handler_loop]; [done|].
  intros s1 c b s2 Hm _ Hp.
  destruct (request_recv_received _ _ _ _ _ _ (moves_inv _ _ Hm Hi) (moves_channel _ _ _ _ Hm Hc) Hp) as [Hg Hb].
  split; [done|]. assert (moves s s2) as Hm2 by (etrans; [done|by apply guar_moves]).
  destruct b as [[id payload]|]; [|done]. specialize (Hb _ eq_refl). simpl in Hb. cbn [bind].
  assert (Hi2 : replies_inv s2) by by apply Hm2.
  apply replies_then; [|intros _ s3 Hm3; apply IH; [by apply Hm3|by eapply moves_channel, moves_channel]].
  unfold handle_call. destruct (de_request A payload) as [request|] eqn:Hd.
  - eapply safe_bind; [intros ?; reflexivity|by apply (safe_callback A callback request payload id)|].
    cbv beta. intros response s' [Hm' Hf]. by eapply replies_respond; [eapply moves_received|].
  - eapply replies_respond; [done|]. intros frame Hf. by eapply reply_undecodable; [apply Hs|..].
Qed.

Lemma replies_on fuel A callback :
  serves A callback → (∀ r, replies _ (callback r)) → replies _ (on fuel A callback).
Proof.
  intros Hs Hcb s Hi. apply safe_register; [done|]. intros h s' Hi' Hc s1 Hm. split; [|done].
  apply replies_handler_loop; [done|done|by apply Hm|by eapply moves_channel].
Qed.

(** [wait_for] after a CALL has arrived. *)
Lemma replies_wait_outcome (A : Action) (callback : Request A → program (result (Response A) E)) id payload s :
  serves A callback → (∀ r, replies _ (callback r)) → replies_inv s → received (log s) (NAME A) id payload →
  safe replies_spec
    (match de_request A payload with
     | Ok for_callback =>
         bind (callback for_callback) (λ response,
           bind (do_send_response (ser_response A) response id) (λ _,
             Ret (map_err Decode (de_request A payload))))
     | Err err => Ret (Err (Decode err : ClientError E JsonError TErr))
     end) (λ _ _, True) s.
Proof.
  intros Hs Hcb Hi Hr. destruct (de_request A payload) as [request|] eqn:Hd; [|done].
  eapply safe_bind; [intros ?; reflexivity|by apply (safe_callback A callback request payload id)|].
  cbv beta. intros response s' [Hm Hf].
  apply replies_then; [by eapply replies_respond; [eapply moves_received|]|done].
Qed.

Lemma replies_deregister name h : replies _ (deregister_own (E := E) (TErr := TErr) name h).
Proof.
  apply replies_steps. intros s. split; [|done]. simpl.
  destruct (entries (request_senders s) !! name); [case_decide|]; try by apply guar_same.
  apply guar_handlers_table; [done|]. intros [_ Hq]. by apply table_wf_remove.
Qed.

Lemma replies_wait_for timeout A callback :
  serves A callback → (∀ r, replies _ (callback r)) → replies _ (wait_for timeout A callback).
Proof.
  intros Hs Hcb s Hi. apply safe_register; [done|]. intros h s0 Hi0 Hc s1 c b s2 Hm _ Hp.
  assert (Hend : ∀ o, replies _ (bind (deregister_own (NAME A) h) (λ _, Ret (o : result (Request A) (ClientError E JsonError TErr))))).
  { intros o. apply replies_bind; [apply replies_deregister|done]. }
  assert (Hi1 : replies_inv s1) by by apply Hm.
  unfold poll_select in Hp. destruct (poll (request_recv h) c s1) as [[v s']|] eqn:Hr.
  - injection Hp as <- <-.
    destruct (request_recv_received _ _ _ _ _ _ Hi1 (moves_channel _ _ _ _ Hm Hc) Hr) as [Hg Hb].
    split; [done|]. assert (Hi2 : replies_inv s') by by apply Hg. cbn [bind].
    apply replies_then; [|intros o s3 Hm3; apply Hend; by apply Hm3].
    destruct v as [[id payload]|]; [|done]. by apply replies_wait_outcome; [..|apply (Hb _ eq_refl)].
  - destruct c; simpl in Hp; try discriminate Hp. injection Hp as <- <-.
    pose proof (guar_harmless (LDelay timeout) s1 I) as Hg. split; [done|]. cbn [bind]. apply Hend. by apply Hg.
Qed.

(** ** The read loop *)

Lemma replies_handle_CALL frame s :
  (∀ rc, from_str_as de_RawCall frame = Some rc → received (log s) (call_action rc) (call_id rc) (call_payload rc)) →
  replies_inv s → safe replies_spec (handle_CALL (E := E) (TErr := TErr) frame) (λ _ _, True) s.
Proof.
  intros Hrc Hi. unfold handle_CALL. destruct (from_str_as de_RawCall frame) as [rc|]; [|done].
  specialize (Hrc rc eq_refl). intros s1 Hm. split; [by apply guar_same|]. cbn [fst snd bind].
  assert (Hr1 : received (log s1) (call_action rc) (call_id rc) (call_payload rc)) by by eapply moves_received.
  destruct (entries (request_senders s1) !! call_action rc) as [h|] eqn:Hh.
  - assert (Hc : channel_of s1 h (call_action rc)) by (eapply wf_keys; [by apply inv_queues, Hm|done]).
    intros s2 Hm2. cbn [fst snd]. split.
    + apply guar_handlers_table; [done|]. intros [_ Hq]. apply table_wf_update; [done| |done].
      intros k ch Hk Hch Hf. pose proof (moves_channel _ _ _ _ Hm2 Hc) as Hc2. unfold channel_of in Hc2.
      assert (k = call_action rc) as -> by congruence. apply Forall_app. split; [done|].
      apply Forall_singleton. by eapply moves_received.
    + intros s3 _. split; [|done]. apply guar_handlers_table; [done|]. intros [_ Hq]. by apply table_wf_update.
  - destruct (to_string _) as [text|] eqn:Ht; [|done]. apply replies_then; [|done].
    eapply (replies_answer MESSAGE_TYPE_ERROR); [by right|exact Ht|].
    eexists _, _. split; [done|]. by apply reply_unhandled.
Qed.

Lemma handle_CALL_received frame (s : St) :
  LRecv (Frame frame) ∈ log s →
  (∃ items, from_str frame = Ok (VArray (VNumber (PosInt MESSAGE_TYPE_CALL) :: items))) →
  ∀ rc, from_str_as de_RawCall frame = Some rc → received (log s) (call_action rc) (call_id rc) (call_payload rc).
Proof.
  intros Hin (items & Hf) rc (v & Hv & ->%de_RawCall_inv)%from_str_as_inv. exists frame. split; [done|].
  rewrite Hv. rewrite Hv in Hf. destruct rc as [t i a p]. injection Hf as -> _. done.
Qed.

Lemma replies_handle_frame frame s :
  LRecv (Frame frame) ∈ log s → replies_inv s →
  safe replies_spec (handle_frame (E := E) (TErr := TErr) frame) (λ _ _, True) s.
Proof.
  intros Hin Hi. unfold handle_frame.
  destruct (from_str frame) as [[| | | |[|[] items]|]|] eqn:Hf; try done.
  destruct (as_u64_opt n) as [t|] eqn:Hn; [|done].
  assert (n = PosInt t) as -> by (destruct n; simpl in Hn; congruence).
  destruct (Z.eqb_spec t MESSAGE_TYPE_CALL) as [->|];
    [|destruct (t =? MESSAGE_TYPE_RESULT)%Z;
      [|destruct (t =? MESSAGE_TYPE_ERROR)%Z; [|destruct (t =? MESSAGE_TYPE_SEND)%Z; [|done]]]].
  - apply replies_handle_CALL; [|done]. apply handle_CALL_received; eauto.
  - unfold handle_RESULT. destruct (from_str_as _ frame); [|done].
    destruct (uuid_parse_str _) as [id|]; [|done]. apply replies_modify; [|done]. intros s1.
    unfold settle_pending. by destruct (entries _ !! id).
  - unfold handle_ERROR. destruct (from_str_as _ frame); [|done].
    destruct (uuid_parse_str _) as [id|]; [|done]. apply replies_modify; [|done]. intros s1.
    unfold settle_pending. by destruct (entries _ !! id).
  - unfold handle_SEND. destruct (from_str_as _ frame); [|done].
    apply replies_bind; [by apply replies_atomic| |done]. intros [h|]; [|done].
    unfold notification_send. apply replies_bind; intros; by apply replies_modify.
Qed.

Lemma replies_handle_event event s :
  LRecv event ∈ log s → replies_inv s →
  safe replies_spec (handle_event (E := E) (TErr := TErr) event) (λ _ _, True) s.
Proof.
  intros Hin Hi. destruct event as [frame|payload|payload]; cbn [handle_event].
  - by apply replies_handle_frame.
  - apply replies_then; [by apply replies_modify|]. intros _ s1 Hm1. apply replies_then; [|done].
    intros s2 c b s3 Hm2 _ Hp. destruct c; simpl in Hp; try discriminate Hp. injection Hp as _ <-.
    split; [|done]. apply replies_guar_log; [|done]. simpl. by do 2 (eapply moves_logged; [done|]).
  - apply replies_modify; [|done]. intros s1. unfold settle_pong. destruct (token_of payload); [|done].
    by destruct (entries _ !! _).
Qed.

Lemma replies_read_connection fuel honor stream attempt :
  replies _ (read_connection (E := E) (TErr := TErr) fuel honor stream attempt).
Proof.
  revert attempt. induction fuel as [|fuel IH]; intros attempt; cbn [read_connection]; [done|].
  intros s Hi s1 c b s2 Hm [_ Hc] Hp. assert (Hi1 : replies_inv s1) by by apply Hm. unfold poll_select in Hp.
  destruct (poll (FExt (Recv stream)) c s1) as [[v s']|] eqn:Hr.
  - injection Hp as <- <-. destruct c as [| |r| |]; try discriminate Hr. injection Hr as <- <-.
    destruct r as [[event|]|err]; cbn [bind]; [|by split; [apply guar_same|]..].
    assert (Hg : replies_guar s1 (add_log (LRecv event) s1)) by (apply replies_guar_log; [done|by apply Hc]).
    split; [done|]. apply replies_then; [|intros _ s3 Hm3; apply IH; by apply Hm3, Hg].
    apply replies_handle_event; [simpl; set_solver|by apply Hg].
  - simpl in Hp. destruct (notify_poll_wait _) as [[]|]; [|done]. injection Hp as <- <-.
    assert (Hg : ∀ n, replies_guar s1 (set_force n s1)) by (intros; by apply guar_same).
    split; [apply Hg|]. cbn [bind]. apply replies_bind; [by apply replies_atomic| |by apply Hg].
    intros c'. destruct c'; [done|]. destruct honor; [done|apply IH].
Qed.

Lemma replies_logic : client_logic link_choice serves replies_guar replies.
Proof.
  split; [split|..]; eauto using replies_steps, replies_bind, replies_spawn, replies_call, replies_send_ping, replies_on,
    replies_wait_for, guar_harmless; try (intros; by apply guar_same).
  intros s. by apply (guar_logs LClosed).
Qed.

Lemma replies_inv_start keepalive conn : replies_inv (client_new keepalive conn).
Proof. split; [done|apply table_wf_empty]. Qed.

(** The tasks of a client and its users, from any state that satisfies the invariant. *)
Lemma replies_tasks fuel conn config (users : list (program unit)) s :
  replies_inv s → Forall (api_with serves unit) users →
  pool_safe replies_spec ((from_transport_with_config fuel conn config).2 ++ users) s.
Proof.
  intros Hi Hu. eapply Forall_impl; [by apply (logic_tasks _ _ _ _ replies_logic replies_read_connection fuel conn config users)|].
  intros t Ht. by apply Ht.
Qed.

End Replies.

Section Theorems.
Context {SM : SignalModel} {UM : UuidModel} {SJ : SerdeJson} {E : Type} {PE : ProtocolError E} {TErr : Type}.
Context (Spec : Contract (E := E)).

(** Every reachable state satisfies the invariant. *)
Lemma replies_inv_reachable fuel conn config users schedule ts s :
  Forall (api_with (serves (TErr := TErr) Spec) unit) users →
  run_pool schedule ((from_transport_with_config fuel conn config).2 ++ users)
    (from_transport_with_config (E := E) (TErr := TErr) fuel conn config).1 = Some (ts, s) →
  replies_inv Spec s.
Proof.
  intros Hu Hrun.
  destruct (run_pool_safe (replies_spec (TErr := TErr) Spec (λ _, False) (λ _, True)) schedule
    ((from_transport_with_config fuel conn config).2 ++ users)
    (from_transport_with_config (E := E) (TErr := TErr) fuel conn config).1 ts s) as [_ Hsteps]; try done.
  - apply moves_preorder.
  - apply guar_moves.
  - apply replies_tasks; [apply replies_inv_start|done].
  - apply Forall_forall. intros [i []] _; (split; [|done]); simpl; by try intros ?.
  - revert Hsteps. apply rtc_invariant; [|apply replies_inv_start]. intros s1 s2 Hg Hi. by apply Hg.
Qed.

(** C4: every answer is the one its handler computed.  Let every handler that is ever
    registered be one of an action that [Spec] handles, and answer a request only as
    [Spec] allows.  Then under every interleaving,
    however handlers are replaced and whatever the peer sends: each CALLRESULT or
    CALLERROR handed to the transport answers a CALL that had been received before it,
    with that CALL's identifier, and is the encoding of what a handler of exactly that
    CALL's action yielded for the request its payload decodes to, or the refusal of a
    payload that does not decode, or the refusal of an action without a handler. *)
Theorem answers_are_what_handlers_computed fuel conn config users schedule ts s i c frame ok t id :
  Forall (api_with (serves (TErr := TErr) Spec) unit) users →
  run_pool schedule ((from_transport_with_config fuel conn config).2 ++ users)
    (from_transport_with_config (E := E) (TErr := TErr) fuel conn config).1 = Some (ts, s) →
  log s !! i = Some (LSink c (SinkSend frame) ok) →
  frame_head frame = Some (t, id) → t = MESSAGE_TYPE_RESULT ∨ t = MESSAGE_TYPE_ERROR →
  ∃ name payload, received (take i (log s)) name id payload ∧ reply_for Spec name payload id frame.
Proof.
  intros Hu Hrun Hlog. by apply (inv_log _ _ (replies_inv_reachable _ _ _ _ _ _ _ Hu Hrun) _ _ Hlog).
Qed.

End Theorems.

(** ** Witness *)

(** Handlers of Heartbeat answer with the payload they were given. *)
Definition echoes : Contract (E := V1_6.OCPP1_6Error) :=
  mkContract (λ A, NAME A = "Heartbeat"%string)
    (λ A request outcome, ∃ value, outcome = Ok value ∧ ser_response A value = ser_request A request).

Lemma answer_users_serve : Forall (api_with (serves (TErr := unit) echoes) unit) answer_users.
Proof.
  apply Forall_singleton. apply api_on; [|intros r; apply api_ret].
  split; [reflexivity|]. intros request. by exists request.
Defined.

Lemma answers_are_what_handlers_computed_witness :
  match answer_run with
  | Some x => ∃ name payload, received (take 1 (log x.2)) name "12" payload ∧
                reply_for echoes name payload "12" answer_reply
  | None => False
  end.
Proof.
  apply (ran_to_elim (λ x, ∃ name payload, received (take 1 (log x.2)) name "12" payload ∧
                reply_for echoes name payload "12" answer_reply)
           (λ x, match log x.2 with [_; LSink 0 (SinkSend f) true] => String.eqb f answer_reply | _ => false end));
    [vm_compute; reflexivity|].
  intros [ts s] Hrun Hlog. simpl in Hlog.
  apply (answers_are_what_handlers_computed echoes 3 0 demo_config answer_users answer_schedule
    ts s 1 0 answer_reply true MESSAGE_TYPE_RESULT "12" answer_users_serve Hrun);
    [|vm_compute; reflexivity|left; reflexivity].
  simpl. destruct (log s) as [|e1 [|e2 [|]]]; try discriminate Hlog; destruct e2 as [c o k| | | |];
    try discriminate Hlog; destruct c, o, k; try discriminate Hlog.
  apply String.eqb_eq in Hlog. subst. reflexivity.
Defined.
