(* ===== verification/Ordering.v ===== *)
(** * Answers follow the order of the CALLs

    The read loop queues CALLs one after another, a channel is a queue, and a handler's
    task answers one CALL before it takes the next.  Together: the answers to the CALLs
    of an action leave in the order in which the CALLs arrived.  The argument follows one
    action [name]: what was answered, what its handler holds, what waits in its channel
    and what the read loop is about to queue is, in this order, part of what was received.
    The handler's task and the read loop each own their part of that state exclusively
    ([Resources.excl]); everybody shares the knowledge which channels and which CALLs
    belong to other actions. *)

From S2P Require Import Prelude Time Sync Envelope Platform ProtocolErrors Reconnect Keepalive Engine Resources Client ClientInv ClientLogic ClientDemo ClientAnswers.
From stdpp Require Import base gmap strings list.

Section Ordering.
Context {SM : SignalModel} {UM : UuidModel} {SJ : SerdeJson} {E : Type} {PE : ProtocolError E} {TErr : Type}.

Abbreviation St := (Client (E := E)).
Abbreviation program A := (prog (St := St) (Ext := Ext (TErr := TErr)) A).
Implicit Types (s : St) (l : list LogEntry) (id : string).

(** ** What the log says *)

(** The CALL in a received frame. *)
Definition call_at (e : LogEntry) : option RawCall :=
  match e with
  | LRecv (Frame frame) =>
      match from_str_as de_RawCall frame with
      | Some rc => if (call_type rc =? MESSAGE_TYPE_CALL)%Z then Some rc else None
      | None => None
      end
  | _ => None
  end.

(** The CALLs received and the identifiers answered, in order. *)
Definition called l : list RawCall := omap call_at l.
Definition answered_ids l : list string := omap answer_in l.

Context (name : string).

Definition calls_of l : list string := call_id <$> filter (λ rc, call_action rc = name) (called l).
Definition calls_of_others l : list string := call_id <$> filter (λ rc, call_action rc ≠ name) (called l).
Definition answers_of l : list string := filter (λ id, id ∈ calls_of l) (answered_ids l).

(** The peer uses every identifier once. *)
Definition fresh_ids l : Prop := NoDup (call_id <$> called l).

(** ** Who owns what *)

(** The task that serves [name]: its channel, and the CALLs it has taken and not
    answered. *)
Inductive handler_state :=
| Unregistered
| Serving (chan : nat) (held : list string).

(** The read loop: with a CALL of [name] in its hands, or not. *)
Inductive reader_state :=
| Reading
| Received (id : string)
| Refusing (id : string)
| Delivering (id : string) (chan : nat).

(** Channels and CALLs of other actions. *)
Abbreviation known := (gset (nat + string)).
Abbreviation ghost := (excl handler_state * excl reader_state * known)%type.

Definition held_by (hs : handler_state) : list string :=
  match hs with Serving _ held => held | Unregistered => [] end.
Definition queued_for (hs : handler_state) s : list string :=
  match hs with
  | Serving h _ => match cells (request_senders s) !! h with Some c => (queue c).*1 | None => [] end
  | Unregistered => []
  end.
Definition coming (rs : reader_state) : list string :=
  match rs with Reading => [] | Received id | Refusing id | Delivering id _ => [id] end.

(** The CALLs in the channels of other actions are of other actions. *)
Abbreviation others_wf l := (table_wf (λ (_ : string) _, True)
  (λ n (c : Chan (string * Value)), n ≠ name → Forall (λ item, item.1 ∈ calls_of_others l) (queue c))).

Record order_ok (hs : handler_state) (rs : reader_state) (K : known) s : Prop := {
  ok_chans : ∀ h, inl h ∈ K → ∃ n, keys (request_senders s) !! h = Some n ∧ n ≠ name;
  ok_calls : ∀ id, inr id ∈ K → id ∈ calls_of_others (log s);
  ok_table : others_wf (log s) (request_senders s);
  ok_answered : ∀ id, id ∈ answered_ids (log s) → id ∈ call_id <$> called (log s);
  ok_handler : entries (request_senders s) !! name =
    match hs with Serving h _ => Some h | Unregistered => None end;
  ok_reader : match rs with
              | Refusing _ => held_by hs = [] ∧ queued_for hs s = []
              | Delivering _ h => ∃ held, hs = Serving h held
              | _ => True
              end;
  ok_order : (answers_of (log s) ++ held_by hs) ++ (queued_for hs s ++ coming rs) `sublist_of` calls_of (log s);
}.

Definition ordering : discipline (St := St) (M := ghost) :=
  mkDiscipline (λ s m, fresh_ids (log s) → ∃ hs rs K, m = (Own hs, Own rs, K) ∧ order_ok hs rs K s)
    (λ _, True).

(** ** The log grows *)

Lemma called_snoc l e : called (l ++ [e]) = called l ++ option_list (call_at e).
Proof. unfold called. rewrite omap_app. simpl. by destruct (call_at e). Qed.

Lemma answered_snoc l e : answered_ids (l ++ [e]) = answered_ids l ++ option_list (answer_in e).
Proof. unfold answered_ids. rewrite omap_app. simpl. by destruct (answer_in e). Qed.

Lemma fresh_snoc l e : fresh_ids (l ++ [e]) → fresh_ids l.
Proof. unfold fresh_ids. rewrite called_snoc, fmap_app. by intros [? _]%NoDup_app. Qed.

(** What does not change the books. *)
Record quiet s s' : Prop := {
  quiet_called : called (log s') = called (log s);
  quiet_answered : answered_ids (log s') = answered_ids (log s);
  quiet_requests : request_senders s' = request_senders s;
}.

Lemma quiet_fresh s s' : quiet s s' → fresh_ids (log s') → fresh_ids (log s).
Proof. intros [Hc _ _]. unfold fresh_ids. by rewrite Hc. Qed.

(** A change of the table of handlers that the books survive. *)
Lemma order_ok_table hs rs K t s s' :
  called (log s') = called (log s) → answered_ids (log s') = answered_ids (log s) →
  request_senders s' = t →
  keys (request_senders s) `prefix_of` keys t → others_wf (log s) t →
  entries t !! name = entries (request_senders s) !! name → queued_for hs s' = queued_for hs s →
  order_ok hs rs K s → order_ok hs rs K s'.
Proof.
  intros Hc Ha Ht [more Hk] Hwf He Hq [H1 H2 H3 H4 H5 H6 H7].
  unfold answers_of, calls_of, calls_of_others in *.
  split; unfold answers_of, calls_of, calls_of_others; rewrite ?Hq, ?Hc, ?Ha, ?Ht, ?He; try done.
  intros h Hh. destruct (H1 h Hh) as (n & Hn & ?). exists n. split; [|done].
  rewrite Hk. by apply lookup_app_l_Some.
Qed.

Lemma order_ok_quiet hs rs K s s' : quiet s s' → order_ok hs rs K s → order_ok hs rs K s'.
Proof.
  intros [Hc Ha Hr] Ho. apply (order_ok_table _ _ _ (request_senders s) s); try done.
  - apply Ho.
  - unfold queued_for. by rewrite Hr.
Qed.

Lemma queued_for_update hs h f s :
  (∀ c, cells (request_senders s) !! h = Some c → queue (f c) = queue c) →
  queued_for hs (set_requests (table_update h f (request_senders s)) s) = queued_for hs s.
Proof.
  intros Hf. destruct hs as [|h' held]; [done|]. simpl. destruct (decide (h = h')) as [->|Hne].
  - rewrite lookup_update_at_eq. destruct (cells _ !! h') as [c|]; simpl; by rewrite ?(Hf c).
  - by rewrite lookup_update_at_ne.
Qed.

(** Signalling or closing a channel. *)
Lemma order_ok_signal hs rs K h f s :
  (∀ c, cells (request_senders s) !! h = Some c → queue (f c) = queue c) → order_ok hs rs K s →
  order_ok hs rs K (set_requests (table_update h f (request_senders s)) s).
Proof.
  intros Hf Ho. apply (order_ok_table _ _ _ (table_update h f (request_senders s)) s); try done;
    [|by apply queued_for_update].
  apply table_wf_update; [done| |apply Ho]. intros n c _ Hc Hq Hn. rewrite Hf by done. by apply Hq.
Qed.

(** What is in the hands of a task may be forgotten. *)
Definition empty_handed (hs : handler_state) : handler_state :=
  match hs with Serving h _ => Serving h [] | Unregistered => Unregistered end.

Lemma order_ok_put_down hs rs K s : order_ok hs rs K s → order_ok (empty_handed hs) rs K s.
Proof.
  intros [H1 H2 H3 H4 H5 H6 H7].
  assert (Hq : queued_for (empty_handed hs) s = queued_for hs s) by by destruct hs.
  assert (Hh : held_by (empty_handed hs) = []) by by destruct hs.
  split; try done.
  - by destruct hs.
  - rewrite Hq, Hh. destruct rs; naive_solver.
  - rewrite Hq, Hh. etrans; [|exact H7]. apply sublist_app; [|done]. apply sublist_app; [done|apply sublist_nil_l].
Qed.

Lemma order_ok_reading hs rs K s : order_ok hs rs K s → order_ok hs Reading K s.
Proof.
  intros [H1 H2 H3 H4 H5 H6 H7]. split; try done.
  etrans; [|exact H7]. apply sublist_app; [done|]. apply sublist_app; [done|apply sublist_nil_l].
Qed.

(** ** An answer, or a CALL, is logged *)

Lemma in_calls_of l id : id ∈ calls_of l ↔ ∃ rc, rc ∈ called l ∧ call_action rc = name ∧ id = call_id rc.
Proof. unfold calls_of. rewrite list_elem_of_fmap. setoid_rewrite list_elem_of_filter. naive_solver. Qed.

Lemma in_calls_of_others l id :
  id ∈ calls_of_others l ↔ ∃ rc, rc ∈ called l ∧ call_action rc ≠ name ∧ id = call_id rc.
Proof. unfold calls_of_others. rewrite list_elem_of_fmap. setoid_rewrite list_elem_of_filter. naive_solver. Qed.

Lemma fresh_apart l id : fresh_ids l → id ∈ calls_of l → id ∉ calls_of_others l.
Proof.
  rewrite in_calls_of, in_calls_of_others. intros Hf (rc & Hrc & Hn & ->) (rc' & Hrc' & Hn' & Heq).
  apply list_elem_of_lookup in Hrc as [i Hi], Hrc' as [j Hj].
  assert (i = j) as <-; [|congruence].
  apply (NoDup_lookup (call_id <$> called l) i j (call_id rc)); [done|by rewrite list_lookup_fmap, Hi|].
  rewrite list_lookup_fmap, Hj. simpl. by f_equal.
Qed.

Lemma answers_of_answer l e id :
  call_at e = None → answer_in e = Some id →
  answers_of (l ++ [e]) = answers_of l ++ (if decide (id ∈ calls_of l) then [id] else []).
Proof.
  intros Hc Ha. unfold answers_of, calls_of. rewrite called_snoc, Hc, answered_snoc, Ha. simpl.
  by rewrite app_nil_r, filter_app.
Qed.

(** The books after an answer, but for the order. *)
Lemma order_ok_answer hs hs' rs rs' K s e id :
  call_at e = None → answer_in e = Some id → id ∈ call_id <$> called (log s) →
  order_ok hs rs K s →
  match hs' with Serving h _ => Some h | Unregistered => None end
    = match hs with Serving h _ => Some h | Unregistered => None end →
  match rs' with
  | Refusing _ => held_by hs' = [] ∧ queued_for hs' s = []
  | Delivering _ h => ∃ held, hs' = Serving h held
  | _ => True
  end →
  (answers_of (log s ++ [e]) ++ held_by hs') ++ (queued_for hs' s ++ coming rs') `sublist_of` calls_of (log s) →
  order_ok hs' rs' K (add_log e s).
Proof.
  intros Hc Ha Hid [H1 H2 H3 H4 H5 H6 H7] Hh Hr Ho.
  assert (Hl : called (log s ++ [e]) = called (log s)) by by rewrite called_snoc, Hc, app_nil_r.
  unfold calls_of, calls_of_others in *. split; simpl; unfold calls_of, calls_of_others; rewrite ?Hl; try done.
  - intros id'. rewrite answered_snoc, Ha. simpl. rewrite elem_of_app, list_elem_of_singleton.
    intros [?| ->]; auto.
  - by rewrite Hh.
Qed.

Lemma calls_of_called l id : id ∈ calls_of l → id ∈ call_id <$> called l.
Proof. rewrite in_calls_of. intros (rc & ? & _ & ->). by apply list_elem_of_fmap_2. Qed.

Lemma calls_of_others_called l id : id ∈ calls_of_others l → id ∈ call_id <$> called l.
Proof. rewrite in_calls_of_others. intros (rc & ? & _ & ->). by apply list_elem_of_fmap_2. Qed.

(** Of another action. *)
Lemma order_ok_foreign hs rs K s e id :
  fresh_ids (log s) → call_at e = None → answer_in e = Some id → id ∈ calls_of_others (log s) →
  order_ok hs rs K s → order_ok hs rs K (add_log e s).
Proof.
  intros Hf Hc Ha Hid Ho. eapply (order_ok_answer hs _ rs); try done; [by apply calls_of_others_called|apply Ho|].
  rewrite (answers_of_answer _ _ id), decide_False, app_nil_r by (try done; by intros ?%fresh_apart).
  apply Ho.
Qed.

(** By the handler. *)
Lemma order_ok_handled h rs K s e id :
  call_at e = None → answer_in e = Some id → order_ok (Serving h [id]) rs K s →
  order_ok (Serving h []) rs K (add_log e s).
Proof.
  intros Hc Ha Ho. assert (Hid : id ∈ calls_of (log s)).
  { eapply elem_of_submseteq; [|apply sublist_submseteq, Ho]. simpl. set_solver. }
  eapply (order_ok_answer (Serving h [id]) _ rs); try done; [by apply calls_of_called|..].
  - destruct Ho as [_ _ _ _ _ Hr _]. destruct rs; try done; [by destruct Hr|].
    destruct Hr as (held & Heq). simplify_eq. eauto.
  - rewrite (answers_of_answer _ _ id), decide_True by done. simpl. rewrite app_nil_r. apply Ho.
Qed.

(** By the read loop. *)
Lemma order_ok_refused hs K s e id :
  call_at e = None → answer_in e = Some id → order_ok hs (Refusing id) K s →
  order_ok hs Reading K (add_log e s).
Proof.
  intros Hc Ha Ho. assert (Hid : id ∈ calls_of (log s)).
  { eapply elem_of_submseteq; [|apply sublist_submseteq, Ho]. simpl. set_solver. }
  eapply (order_ok_answer hs _ (Refusing id)); try done; [by apply calls_of_called|].
  destruct (ok_reader _ _ _ _ Ho) as [Hh Hq]. pose proof (ok_order _ _ _ _ Ho) as Hsub.
  rewrite Hh, Hq in *. rewrite (answers_of_answer _ _ id), decide_True by done. simpl in *.
  by rewrite !app_nil_r in *.
Qed.

(** A new CALL has not been answered yet. *)
Lemma answers_of_call l e rc :
  call_at e = Some rc → fresh_ids (l ++ [e]) → (∀ id, id ∈ answered_ids l → id ∈ call_id <$> called l) →
  answers_of (l ++ [e]) = answers_of l.
Proof.
  intros Hc Hf Ha. assert (Hn : answer_in e = None) by (by destruct e as [|[]| | |]).
  unfold answers_of. rewrite answered_snoc, Hn. simpl. rewrite app_nil_r.
  apply filter_agree. intros id Hid%Ha. unfold fresh_ids in Hf.
  rewrite called_snoc, Hc, fmap_app in Hf. apply NoDup_app in Hf as (_ & Hf & _).
  unfold calls_of. rewrite called_snoc, Hc, filter_app, fmap_app, elem_of_app. simpl.
  specialize (Hf id Hid). rewrite filter_cons. case_decide; simpl in *; set_solver.
Qed.

(** The order with the new CALL in the hands of the read loop, if it is for [name]. *)
Lemma order_ok_call hs K s e rc :
  call_at e = Some rc → fresh_ids (log s ++ [e]) → order_ok hs Reading K s →
  order_ok hs (if decide (call_action rc = name) then Received (call_id rc) else Reading)
    (if decide (call_action rc = name) then K else {[inr (call_id rc)]} ∪ K) (add_log e s).
Proof.
  intros Hc Hf [H1 H2 H3 H4 H5 H6 H7].
  assert (Hmono : calls_of_others (log s) ⊆ calls_of_others (log s ++ [e])).
  { unfold calls_of_others. rewrite called_snoc, filter_app, fmap_app. set_solver. }
  split; simpl.
  - intros h Hh. apply H1. case_decide; set_solver.
  - intros id Hid. case_decide as Hn; [set_solver|].
    apply elem_of_union in Hid as [[= ->]%elem_of_singleton|Hid]; [|set_solver].
    apply in_calls_of_others. exists rc. rewrite called_snoc, Hc. set_solver.
  - eapply table_wf_impl; [|exact H3]. intros n c Hq Hn. eapply Forall_impl; [by apply Hq|]. set_solver.
  - intros id. rewrite answered_snoc, called_snoc, fmap_app. intros Hid.
    assert (answer_in e = None) as Hn by (by destruct e as [|[]| | |]). rewrite Hn in Hid. set_solver.
  - done.
  - by case_decide.
  - rewrite (answers_of_call _ _ rc) by done. unfold calls_of. rewrite called_snoc, Hc, filter_app, fmap_app.
    replace (queued_for hs (add_log e s)) with (queued_for hs s) by done. simpl in H7. rewrite app_nil_r in H7.
    fold (calls_of (log s)). simpl. rewrite filter_cons. case_decide; simpl.
    + rewrite (assoc app). by apply sublist_app.
    + by rewrite !app_nil_r.
Qed.

(** ** Operations on the table of handlers *)

(** The channel of [name] is not one of another action. *)
Lemma queued_for_foreign hs rs K h n f s :
  order_ok hs rs K s → keys (request_senders s) !! h = Some n → n ≠ name →
  queued_for hs (set_requests (table_update h f (request_senders s)) s) = queued_for hs s.
Proof.
  intros Ho Hk Hn. destruct hs as [|h' held]; [done|]. simpl.
  rewrite lookup_update_at_ne; [done|]. intros <-.
  pose proof (wf_keys _ _ _ (ok_table _ _ _ _ Ho) name h (ok_handler _ _ _ _ Ho)). congruence.
Qed.

Lemma order_ok_foreign_chan hs rs K h n f s :
  order_ok hs rs K s → keys (request_senders s) !! h = Some n → n ≠ name →
  (∀ c, cells (request_senders s) !! h = Some c → Forall (λ item, item.1 ∈ calls_of_others (log s)) (queue c) →
     Forall (λ item, item.1 ∈ calls_of_others (log s)) (queue (f c))) →
  order_ok hs rs K (set_requests (table_update h f (request_senders s)) s).
Proof.
  intros Ho Hk Hn Hf. apply (order_ok_table _ _ _ (table_update h f (request_senders s)) s); try done;
    [|by eapply queued_for_foreign].
  apply table_wf_update; [done| |apply Ho]. intros n' c _ Hc Hq Hn'. auto.
Qed.

(** More is known. *)
Lemma order_ok_know_call hs rs K id s :
  id ∈ calls_of_others (log s) → order_ok hs rs K s → order_ok hs rs ({[inr id]} ∪ K) s.
Proof.
  intros Hid [H1 H2 H3 H4 H5 H6 H7]. split; try done; [set_solver|].
  intros id' [[= ->]%elem_of_singleton|?]%elem_of_union; auto.
Qed.

Lemma order_ok_know_chan hs rs K h n s :
  keys (request_senders s) !! h = Some n → n ≠ name → order_ok hs rs K s → order_ok hs rs ({[inl h]} ∪ K) s.
Proof.
  intros Hh Hn [H1 H2 H3 H4 H5 H6 H7]. split; try done; [|set_solver].
  intros h' [[= ->]%elem_of_singleton|?]%elem_of_union; eauto.
Qed.

(** The handler takes a CALL. *)
Lemma order_ok_take h rs K c item c' s :
  cells (request_senders s) !! h = Some c → chan_check c = Some (Some item, c') →
  order_ok (Serving h []) rs K s →
  order_ok (Serving h [item.1]) rs K (set_requests (table_update h (λ _, c') (request_senders s)) s).
Proof.
  intros Hc Hk [H1 H2 H3 H4 H5 H6 H7]. apply chan_check_value in Hk as [Hq _].
  assert (Hnew : cells (table_update h (λ _, c') (request_senders s)) !! h = Some c').
  { simpl. by rewrite lookup_update_at_eq, Hc. }
  assert (Hlen : (queued_for (Serving h []) s) = item.1 :: (queue c').*1) by (simpl; by rewrite Hc, Hq).
  split; try done.
  - apply table_wf_update; [done| |done]. intros n c0 Hkey _ _ Hn.
    pose proof (wf_keys _ _ _ H3 name h H5). congruence.
  - destruct rs; try done; [destruct H6; congruence|]. destruct H6 as (held & [= ->]). eauto.
  - simpl in H7 |- *. rewrite Hc, Hq in H7. simpl in Hnew. rewrite Hnew. simpl in H7.
    by rewrite app_nil_r, <-(assoc app) in *.
Qed.

(** The read loop queues one. *)
Lemma order_ok_deliver hs K id payload h s :
  order_ok hs (Delivering id h) K s →
  order_ok hs Reading K
    (set_requests (table_update h (chan_push (id, payload)) (request_senders s)) s).
Proof.
  intros [H1 H2 H3 H4 H5 (held & ->) H7].
  assert (Hkey := wf_keys _ _ _ H3 name h H5).
  destruct (wf_bound _ _ _ H3 name h H5) as (c & Hc & _).
  split; try done.
  - apply table_wf_update; [done| |done]. intros n c0 Hkey' _ _ Hn. congruence.
  - simpl in *. rewrite lookup_update_at_eq, Hc in *. simpl. rewrite fmap_app.
    by rewrite app_nil_r.
Qed.

(** Closing the channel that a registration replaces. *)
Lemma order_ok_close hs rs K o s :
  order_ok hs rs K s →
  order_ok hs rs K
    (match o with
     | Some h => set_requests (table_update h chan_close (request_senders s)) s
     | None => s
     end).
Proof. destruct o; [by apply order_ok_signal|done]. Qed.

(** Another action gets a handler. *)
Lemma order_ok_insert hs rs K n s :
  n ≠ name → order_ok hs rs K s →
  order_ok hs rs K (set_requests (table_insert n chan_new (request_senders s)).2 s).
Proof.
  intros Hn Ho. apply (order_ok_table _ _ _ (table_insert n chan_new (request_senders s)).2 s); try done.
  - by apply prefix_app_r.
  - apply table_wf_insert; [apply Ho|done|done].
  - simpl. by rewrite lookup_insert_ne.
  - pose proof (ok_handler _ _ _ _ Ho) as He. destruct hs as [|h held]; [done|]. simpl in *.
    destruct (wf_bound _ _ _ (ok_table _ _ _ _ Ho) _ _ He) as (c & Hc & _).
    by rewrite lookup_app_l by by eapply lookup_lt_Some.
Qed.

Definition register_state (n : string) s : nat * St :=
  let '(h, t) := register_chan n (request_senders s) in (h, set_requests t s).

Lemma register_state_eq n s :
  register_state n s =
    (length (cells (request_senders s)),
     let s' := set_requests (table_insert n chan_new (request_senders s)).2 s in
     match entries (request_senders s) !! n with
     | Some p => set_requests (table_update p chan_close (request_senders s')) s'
     | None => s'
     end).
Proof. unfold register_state, register_chan. simpl. by destruct (entries (request_senders s) !! n). Qed.

Lemma order_ok_register_foreign hs rs K n s :
  n ≠ name → order_ok hs rs K s →
  order_ok hs rs ({[inl (register_state n s).1]} ∪ K) (register_state n s).2.
Proof.
  intros Hn Ho. rewrite register_state_eq. simpl.
  assert (Ho' := order_ok_close _ _ _ (entries (request_senders s) !! n) _ (order_ok_insert _ _ _ n _ Hn Ho)).
  apply (order_ok_know_chan _ _ _ _ n); [|done|done].
  assert (keys (table_insert n chan_new (request_senders s)).2 !! length (cells (request_senders s)) = Some n).
  { simpl. rewrite <-(wf_length _ _ _ (ok_table _ _ _ _ Ho)). by apply lookup_snoc_new. }
  by destruct (entries (request_senders s) !! n).
Qed.

(** [name] gets its handler. *)
Lemma order_ok_register rs K s :
  order_ok Unregistered rs K s →
  order_ok (Serving (register_state name s).1 []) rs K (register_state name s).2.
Proof.
  intros [H1 H2 H3 H4 H5 H6 H7]. rewrite register_state_eq, H5. simpl. split; try done.
  - intros h Hh. destruct (H1 h Hh) as (n & Hk & ?). exists n. split; [|done]. simpl. by apply lookup_app_l_Some.
  - by apply table_wf_insert.
  - simpl. by rewrite lookup_insert_eq.
  - destruct rs; try done; [|by destruct H6]. split; [done|]. simpl. by rewrite lookup_snoc_new.
  - simpl in *. by rewrite lookup_snoc_new.
Qed.

(** Another action loses its handler. *)
Lemma order_ok_remove hs rs K n s :
  n ≠ name → order_ok hs rs K s → order_ok hs rs K (set_requests (table_remove n (request_senders s)) s).
Proof.
  intros Hn Ho. apply (order_ok_table _ _ _ (table_remove n (request_senders s)) s); try done.
  - by apply table_wf_remove, Ho.
  - simpl. by rewrite lookup_delete_ne.
Qed.

(** ** Steps of the tasks *)

Implicit Types (m F : ghost) (K : known).

(** A step that leaves both roles as they are, whoever has them. *)
Lemma plain_update s s' m F K1 :
  (fresh_ids (log s') → fresh_ids (log s)) →
  (∀ hs rs K, m.2 ⊆ K → fresh_ids (log s') → order_ok hs rs K s → order_ok hs rs (K1 ∪ K) s') →
  inv ordering s (m ⋅ F) → inv ordering s' ((m.1, K1 ∪ m.2) ⋅ F).
Proof.
  intros Hf Ho Hi Hs. destruct (Hi (Hf Hs)) as (hs & rs & K & Heq & Hok).
  exists hs, rs, (K1 ∪ K). destruct m as [[x y] K0], F as [[x' y'] K0']. simpl in *.
  injection Heq as -> -> <-. split; [by rewrite (assoc_L (∪))|]. apply Ho; [set_solver|done..].
Qed.

(** A step of the read loop. *)
Lemma reader_update s s' r r' K0 F K1 :
  (fresh_ids (log s') → fresh_ids (log s)) →
  (∀ hs K, K0 ⊆ K → fresh_ids (log s') → order_ok hs r K s → order_ok hs r' (K1 ∪ K) s') →
  inv ordering s ((Free, Own r, K0) ⋅ F) → inv ordering s' ((Free, Own r', K1 ∪ K0) ⋅ F).
Proof.
  intros Hf Ho Hi Hs. destruct (Hi (Hf Hs)) as (hs & rs & K & Heq & Hok).
  exists hs, r', (K1 ∪ K). destruct F as [[x' []] K0']; simpl in *; try discriminate Heq.
  injection Heq as -> -> <-. split; [by rewrite (assoc_L (∪))|]. apply Ho; [set_solver|done..].
Qed.

(** A step of the handler's task. *)
Lemma handler_update s s' hs hs' K0 F K1 :
  (fresh_ids (log s') → fresh_ids (log s)) →
  (∀ rs K, K0 ⊆ K → fresh_ids (log s') → order_ok hs rs K s → order_ok hs' rs (K1 ∪ K) s') →
  inv ordering s ((Own hs, Free, K0) ⋅ F) → inv ordering s' ((Own hs', Free, K1 ∪ K0) ⋅ F).
Proof.
  intros Hf Ho Hi Hs. destruct (Hi (Hf Hs)) as (hs0 & rs & K & Heq & Hok).
  exists hs', rs, (K1 ∪ K). destruct F as [[[] y'] K0']; simpl in *; try discriminate Heq.
  injection Heq as -> -> <-. split; [by rewrite (assoc_L (∪))|]. apply Ho; [set_solver|done..].
Qed.

(** A program that leaves the roles of its task alone. *)
Definition orderly A (p : program A) : Prop :=
  ∀ m, owns ordering p m (λ _ m', m'.1 = m.1 ∧ m.2 ⊆ m'.2).

Lemma quiet_inv s s' m : quiet s s' → inv ordering s m → inv ordering s' m.
Proof.
  intros Hq Hi Hs. destruct (Hi (quiet_fresh _ _ Hq Hs)) as (hs & rs & K & -> & Ho).
  exists hs, rs, K. split; [done|]. by eapply order_ok_quiet.
Qed.

Lemma orderly_steps A (p : program A) :
  steps_in (λ _ : Choice (TErr := TErr), True) quiet p → orderly A p.
Proof.
  intros Hp m. eapply owns_mono; [|apply (owns_steps_in ordering quiet); [|done..]];
    [by intros ? ? ->|apply quiet_inv].
Qed.

Lemma orderly_bind A B (p : program A) (k : A → program B) :
  orderly A p → (∀ a, orderly B (k a)) → orderly B (bind p k).
Proof.
  intros Hp Hk m. eapply owns_bind; [apply Hp|]. intros a m' [Hm HK].
  eapply owns_mono; [|apply Hk]. intros b m'' [Hm' HK']. split; [congruence|set_solver].
Qed.

Lemma orderly_spawn A (p : program unit) (k : program A) : orderly _ p → orderly A k → orderly A (Spawn p k).
Proof. intros Hp Hk m. apply owns_spawn; [|apply Hk]. by eapply owns_mono; [|apply Hp]. Qed.

Lemma quiet_refl s : quiet s s.
Proof. done. Qed.

Lemma quiet_log e s : call_at e = None → answer_in e = None → quiet s (add_log e s).
Proof. intros Hc Ha. split; simpl; [|..|done]; by rewrite ?called_snoc, ?answered_snoc, ?Hc, ?Ha, app_nil_r. Qed.

Lemma quiet_harmless e s : harmless e → quiet s (add_log e s).
Proof.
  intros He. apply quiet_log; destruct e as [conn [frame| | |] ok| | | |]; try done.
  simpl in *. destruct He as (id & x & p & Ht). destruct (answered_id frame) as [id'|] eqn:Hid; [|done].
  by destruct (answered_id_text MESSAGE_TYPE_SEND id _ _ _ ltac:(by split) Ht Hid) as [[] _].
Qed.

Lemma ext_quiet {B} (e : Ext (TErr := TErr) B) c s s' b :
  match e with Sink (SinkSend _) | Recv _ => False | _ => True end →
  poll_ext e c s = Some (b, s') → quiet s s'.
Proof.
  intros He. destruct e as [|[]| | |], c; simpl; intros Hp; try done; injection Hp as <- <-;
    try done; by apply quiet_log.
Qed.

(** ** Operations *)

Lemma orderly_modify f : (∀ s, quiet s (f s)) → orderly _ (modify f).
Proof. intros Hf. apply orderly_steps. intros s. by split. Qed.

Lemma orderly_atomic {B} (f : St → B * St) : (∀ s, quiet s (f s).2) → orderly _ (atomic f).
Proof. intros Hf. apply orderly_steps. intros s. by split. Qed.

Lemma orderly_ext {B} (e : Ext B) :
  match e with Sink (SinkSend _) | Recv _ => False | _ => True end → orderly _ (await (FExt e)).
Proof. intros He. apply orderly_steps. intros s c b s' _ Hp. split; [by eapply ext_quiet|done]. Qed.

Lemma orderly_call timeout A request : orderly _ (call timeout A request).
Proof.
  apply orderly_steps, call_steps; try done.
  - intros d s. by apply quiet_log.
  - intros conn id action payload frame written s Hf. apply quiet_log; [done|]. simpl.
    destruct (answered_id frame) as [id'|] eqn:Ha; [|done].
    by destruct (answered_id_text MESSAGE_TYPE_CALL id _ _ _ ltac:(by split) Hf Ha) as [[] _].
Qed.

Lemma orderly_send_ping timeout : orderly _ (send_ping_with_timeout timeout).
Proof.
  apply orderly_steps, ping_steps; try done.
  - intros d s. by apply quiet_log.
  - intros conn payload written s. by apply quiet_log.
Qed.

(** *** Answers *)

(** The text of an answer names the CALL it answers. *)
Lemma response_answers {R} to_value (r : result R E) id text id' :
  response_frame to_value r id = Some text → answered_id text = Some id' → id' = id.
Proof.
  unfold response_frame. destruct r as [r|e].
  - destruct (to_value r) as [v|]; [|done]. destruct (to_string _) as [f|] eqn:Ht; [|done]. intros [= ->] Ha.
    by apply (answered_id_text MESSAGE_TYPE_RESULT id _ _ _ ltac:(by split) Ht) in Ha as [_ ->].
  - destruct (to_string _) as [f|] eqn:Ht; [|done]. intros [= ->] Ha.
    by apply (answered_id_text MESSAGE_TYPE_ERROR id _ _ _ ltac:(by split) Ht) in Ha as [_ ->].
Qed.

(** An answer to a CALL of another action. *)
Lemma send_foreign text id m :
  (∀ id', answered_id text = Some id' → id' = id) → inr id ∈ m.2 →
  owns ordering (sink_call (E := E) (TErr := TErr) (SinkSend text)) m (λ _ m', m'.1 = m.1 ∧ m.2 ⊆ m'.2).
Proof.
  intros Hid HK. split; [done|]. intros s c b s' F Hp Hi. destruct c; try discriminate Hp. injection Hp as <- <-.
  exists (m.1, ∅ ∪ m.2). split; [|by split; [|set_solver]]. apply (plain_update s); [by intros ?%fresh_snoc| |done].
  intros hs rs K HK' Hs Ho. rewrite (left_id_L ∅ (∪)).
  destruct (answered_id text) as [id'|] eqn:Ha; [|eapply order_ok_quiet; [by apply quiet_log|done]].
  rewrite (Hid id' eq_refl) in Ha. eapply (order_ok_foreign _ _ _ _ _ id); try done; [by apply fresh_snoc in Hs|].
  apply (ok_calls _ _ _ _ Ho). set_solver.
Qed.

Lemma respond_foreign {R} to_value (r : result R E) id m :
  inr id ∈ m.2 →
  owns ordering (do_send_response (TErr := TErr) to_value r id) m (λ _ m', m'.1 = m.1 ∧ m.2 ⊆ m'.2).
Proof.
  intros HK. unfold do_send_response. destruct (response_frame to_value r id) as [text|] eqn:Hf; [|done].
  eapply owns_bind; [apply (send_foreign _ id); [intros id'; by eapply response_answers|done]|done].
Qed.

(** The answer to the CALL the handler holds; nothing is sent if it cannot be encoded. *)
Lemma respond_held {R} to_value (r : result R E) h id K :
  owns ordering (do_send_response (TErr := TErr) to_value r id) (Own (Serving h [id]), Free, K)
    (λ _ m', ∃ held K', m' = (Own (Serving h held), Free, K')).
Proof.
  unfold do_send_response. destruct (response_frame to_value r id) as [text|] eqn:Hf; [|by exists [id], K].
  eapply (owns_bind _ _ _ _ (λ _ m', ∃ held K', m' = (Own (Serving h held), Free, K'))); [|done].
  split; [done|]. intros s c b s' F Hp Hi. destruct c; try discriminate Hp. injection Hp as <- <-.
  exists (Own (Serving h []), Free, ∅ ∪ K). split; [|by eexists _, _].
  apply (handler_update s _ (Serving h [id])); [by intros ?%fresh_snoc| |done].
  intros rs K' HK' Hs Ho. rewrite (left_id_L ∅ (∪)).
  destruct (answered_id text) as [id'|] eqn:Ha.
  - rewrite (response_answers _ _ _ _ _ Hf Ha) in Ha. by eapply (order_ok_handled _ _ _ _ _ id).
  - eapply order_ok_quiet; [by apply quiet_log|]. by apply (order_ok_put_down (Serving h [id])).
Qed.

(** *** Handlers of other actions *)

(** Taking from a channel of another action. *)
Lemma recv_foreign h c s b s' m F :
  inl h ∈ m.2 → poll (request_recv (E := E) (TErr := TErr) h) c s = Some (b, s') →
  inv ordering s (m ⋅ F) →
  inv ordering s' ((m.1, match b with Some item => {[inr item.1]} | None => ∅ end ∪ m.2) ⋅ F).
Proof.
  intros Hh Hp. simpl in Hp. destruct (cells (request_senders s) !! h) as [ch|] eqn:Hc; [|done].
  destruct (chan_check ch) as [[v c']|] eqn:Hk; [|done]. injection Hp as <- <-.
  apply plain_update; [done|]. intros hs rs K HK _ Ho.
  destruct (ok_chans _ _ _ _ Ho h ltac:(set_solver)) as (n & Hkey & Hn).
  pose proof (wf_cells _ _ _ (ok_table _ _ _ _ Ho) n h ch Hkey Hc Hn) as Hq.
  assert (order_ok hs rs K (set_requests (table_update h (λ _, c') (request_senders s)) s)) as Ho'.
  { eapply order_ok_foreign_chan; [done..|]. intros c1 Hc1 _. assert (c1 = ch) as -> by congruence. destruct v as [item|].
    - apply chan_check_value in Hk as [Hv _]. rewrite Hv in Hq. by apply Forall_cons in Hq as [_ Hq].
    - by apply chan_check_end in Hk as [-> _]. }
  destruct v as [item|]; [|by rewrite (left_id_L ∅ (∪))].
  apply order_ok_know_call; [|done]. simpl.
  apply chan_check_value in Hk as [Hv _]. rewrite Hv in Hq. by apply Forall_cons in Hq as [Hq _].
Qed.

Abbreviation keeping m := (λ _ m', m'.1 = m.1 ∧ m.2 ⊆ m'.2).

(** Sequencing programs that keep the roles. *)
Lemma keeping_bind {A B : Type} (p : program A) (k : A → program B) m :
  owns ordering p m (keeping m) → (∀ a m', m'.1 = m.1 → m.2 ⊆ m'.2 → owns ordering (k a) m' (keeping m')) →
  owns ordering (bind p k) m (keeping m).
Proof.
  intros Hp Hk. eapply owns_bind; [exact Hp|]. intros a m' [Hm HK].
  eapply owns_mono; [|by apply Hk]. intros b m'' [Hm' HK']. split; [congruence|set_solver].
Qed.

Lemma orderly_handler_loop fuel A callback h m :
  (∀ r, orderly _ (callback r)) → inl h ∈ m.2 → owns ordering (handler_loop fuel A callback h) m (keeping m).
Proof.
  intros Hcb. revert m. induction fuel as [|fuel IH]; intros m Hh; cbn [handler_loop]; [done|].
  split; [done|]. intros s c b s' F Hp Hi. pose proof (recv_foreign _ _ _ _ _ _ _ Hh Hp Hi) as Hi'.
  eexists. split; [exact Hi'|]. destruct b as [[id payload]|]; [|split; [done|set_solver]].
  cbn [bind fst]. eapply owns_mono; [|apply keeping_bind].
  - intros ? m' [Hm HK]. split; [done|]. set_solver.
  - unfold handle_call. destruct (de_request A payload) as [request|].
    + apply keeping_bind; [apply Hcb|]. intros response m' Hm HK. apply respond_foreign. set_solver.
    + apply respond_foreign. set_solver.
  - intros _ m' Hm HK. apply IH. set_solver.
Qed.

(** A registration of another action: its channel is known. *)
Lemma register_foreign n m :
  n ≠ name → owns ordering (register_request (E := E) (TErr := TErr) n) m
    (λ h m', m'.1 = m.1 ∧ m.2 ⊆ m'.2 ∧ inl h ∈ m'.2).
Proof.
  intros Hn s F Hi. exists (m.1, {[inl (register_state n s).1]} ∪ m.2). split.
  - apply (plain_update s (register_state n s).2); [..|done].
    + rewrite register_state_eq. by destruct (entries (request_senders s) !! n).
    + intros hs rs K _ _. by apply order_ok_register_foreign.
  - simpl. split; [done|]. unfold register_state. destruct (register_chan n (request_senders s)) as [h t].
    set_solver.
Qed.

(** What is known of an action other than [name]. *)
Definition other_action (A : Action) (_ : Request A → program (result (Response A) E)) : Prop := NAME A ≠ name.

Lemma orderly_on fuel A callback :
  other_action A callback → (∀ r, orderly _ (callback r)) → orderly _ (on fuel A callback).
Proof.
  intros Hn Hcb m. eapply owns_bind; [by apply register_foreign|]. intros h m' (Hm & HK & Hh).
  exists (Free, Free, {[inl h]}), m'. split.
  - destruct m' as [[x y] K']. simpl in *. f_equal. set_solver.
  - split; [|by split]. eapply owns_mono; [|by apply orderly_handler_loop; [|set_solver]]. done.
Qed.

Lemma orderly_deregister n h : n ≠ name → orderly _ (deregister_own (E := E) (TErr := TErr) n h).
Proof.
  intros Hn m s F Hi. exists (m.1, ∅ ∪ m.2). split; [|by split; [|set_solver]].
  apply (plain_update s); [..|done].
  - simpl. destruct (entries (request_senders s) !! n); [case_decide|]; done.
  - intros hs rs K _ _ Ho. rewrite (left_id_L ∅ (∪)). simpl.
    destruct (entries (request_senders s) !! n); [case_decide|]; try done. by apply order_ok_remove.
Qed.

(** Waiting for a CALL of another action. *)
Lemma wait_recv_foreign timeout h m :
  inl h ∈ m.2 → owns ordering (with_timeout (E := E) (TErr := TErr) timeout (request_recv h)) m
    (λ r m', m'.1 = m.1 ∧ m.2 ⊆ m'.2 ∧ ∀ item, r = Ok (Some item) → inr item.1 ∈ m'.2).
Proof.
  intros Hh. split; [done|]. intros s c b s' F Hp Hi. unfold poll_select in Hp.
  destruct (poll (request_recv h) c s) as [[v s1]|] eqn:Hr.
  - injection Hp as <- <-. eexists. split; [by eapply recv_foreign|]. simpl.
    split; [done|]. split; [set_solver|]. intros item [= ->]. set_solver.
  - destruct (poll (FExt (Delay timeout)) c s) as [[v s1]|] eqn:Hd; [|done]. injection Hp as <- <-.
    exists m. split; [|by split]. eapply quiet_inv; [|exact Hi]. by eapply (ext_quiet (Delay timeout)).
Qed.

Lemma wait_outcome_foreign (A : Action) (callback : Request A → program (result (Response A) E)) id payload m :
  (∀ r, orderly _ (callback r)) → inr id ∈ m.2 →
  owns ordering
    (match de_request A payload with
     | Ok for_callback =>
         bind (callback for_callback) (λ response,
           bind (do_send_response (ser_response A) response id) (λ _,
             Ret (map_err Decode (de_request A payload))))
     | Err err => Ret (Err (Decode err : ClientError E JsonError TErr))
     end) m (keeping m).
Proof.
  intros Hcb Hid. destruct (de_request A payload) as [request|]; [|done].
  apply keeping_bind; [apply Hcb|]. intros response m' Hm HK.
  apply keeping_bind; [|done]. apply respond_foreign. set_solver.
Qed.

Lemma orderly_wait_for timeout A callback :
  other_action A callback → (∀ r, orderly _ (callback r)) → orderly _ (wait_for timeout A callback).
Proof.
  intros Hn Hcb m. eapply owns_bind; [by apply register_foreign|]. intros h m1 (Hm1 & HK1 & Hh).
  eapply owns_bind; [by apply wait_recv_foreign|]. intros r m2 (Hm2 & HK2 & Hid).
  eapply owns_mono; [|apply keeping_bind].
  { intros ? m' [Hm HK]. split; [congruence|set_solver]. }
  - destruct r as [[[id payload]|]|[]]; [|done..].
    apply wait_outcome_foreign; [done|]. apply (Hid _ eq_refl).
  - intros o m3 _ _. apply orderly_bind; [by apply orderly_deregister|done].
Qed.

(** Everything but the reading of a connection. *)
Lemma orderly_logic : client_logic (λ _, True) other_action quiet orderly.
Proof.
  split; [split|..]; eauto using orderly_steps, orderly_bind, orderly_spawn, orderly_call, orderly_send_ping, orderly_on,
    orderly_wait_for, quiet_harmless; try done.
  intros s. by destruct (quiet_log LClosed (set_closed true s)).
Qed.

(** *** The handler *)

Lemma owns_register K :
  owns ordering (register_request (E := E) (TErr := TErr) name) (Own Unregistered, Free, K)
    (λ h m', ∃ K', m' = (Own (Serving h []), Free, K')).
Proof.
  intros s F Hi. exists (Own (Serving (register_state name s).1 []), Free, ∅ ∪ K). split.
  - apply (handler_update s (register_state name s).2 Unregistered); [..|done].
    + rewrite register_state_eq. by destruct (entries (request_senders s) !! name).
    + intros rs K' _ _. rewrite (left_id_L ∅ (∪)). apply order_ok_register.
  - unfold register_state. destruct (register_chan name (request_senders s)) as [h t]. simpl. eauto.
Qed.

Lemma owns_take h held c s b s' K F :
  poll (request_recv (E := E) (TErr := TErr) h) c s = Some (b, s') →
  inv ordering s ((Own (Serving h held), Free, K) ⋅ F) →
  inv ordering s' ((Own (Serving h (match b with Some item => [item.1] | None => [] end)), Free, ∅ ∪ K) ⋅ F).
Proof.
  intros Hp. simpl in Hp. destruct (cells (request_senders s) !! h) as [ch|] eqn:Hc; [|done].
  destruct (chan_check ch) as [[v c']|] eqn:Hk; [|done]. injection Hp as <- <-.
  apply (handler_update s _ (Serving h held)); [done|]. intros rs K' _ _ Ho%order_ok_put_down. simpl in Ho.
  rewrite (left_id_L ∅ (∪)). destruct v as [item|]; [by eapply order_ok_take|].
  apply order_ok_signal; [|done]. intros c1 Hc1. assert (c1 = ch) as -> by congruence.
  by apply chan_check_end in Hk as [-> _].
Qed.

Lemma owns_handler_loop fuel (A : Action) callback h held K :
  (∀ r, orderly _ (callback r)) →
  owns ordering (handler_loop fuel A callback h) (Own (Serving h held), Free, K) (λ _ _, True).
Proof.
  intros Hcb. revert held K. induction fuel as [|fuel IH]; intros held K; cbn [handler_loop]; [done|].
  split; [done|]. intros s c b s' F Hp Hi. eexists. split; [by eapply owns_take|].
  destruct b as [[id payload]|]; [|done]. cbn [bind fst].
  eapply (owns_bind _ _ _ _ (λ _ m', ∃ held K', m' = (Own (Serving h held), Free, K'))).
  - unfold handle_call. destruct (de_request A payload) as [request|]; [|apply respond_held].
    eapply owns_bind; [apply Hcb|]. intros response [m' K'] [Hm _]. simpl in Hm. subst m'. apply respond_held.
  - intros _ m' (held' & K' & ->). apply IH.
Qed.

Lemma owns_on fuel (A : Action) callback K :
  NAME A = name → (∀ r, orderly _ (callback r)) →
  owns ordering (on fuel A callback) (Own Unregistered, Free, K) (λ _ _, True).
Proof.
  intros Hn Hcb. unfold on. rewrite Hn. eapply owns_bind; [apply owns_register|]. intros h m' (K' & ->).
  exists (Own (Serving h []), Free, K'), gempty. split; [simpl; f_equal; set_solver|].
  split; [by apply owns_handler_loop|done].
Qed.

(** *** The read loop *)

Abbreviation reads := (λ _ m', ∃ rs K', m' = (Free, Own rs, K')).

Lemma reads_orderly {A} (p : program A) rs K :
  orderly A p → owns ordering p (Free, Own rs, K) reads.
Proof. intros Hp. eapply owns_mono; [|apply Hp]. intros a [m' K'] [Hm _]. simpl in Hm. subst. eauto. Qed.

Lemma reads_bind {A B} (p : program A) (k : A → program B) rs K :
  owns ordering p (Free, Own rs, K) reads → (∀ a rs K, owns ordering (k a) (Free, Own rs, K) reads) →
  owns ordering (bind p k) (Free, Own rs, K) reads.
Proof. intros Hp Hk. eapply owns_bind; [exact Hp|]. intros a m' (rs' & K' & ->). apply Hk. Qed.

(** Waking a handler. *)
Lemma reads_wake h rs K :
  owns ordering (modify (E := E) (TErr := TErr) (λ s, set_requests (table_update h chan_wake (request_senders s)) s))
    (Free, Own rs, K) reads.
Proof.
  intros s F Hi. exists (Free, Own rs, ∅ ∪ K). split; [|simpl; eauto].
  apply (reader_update s _ rs); [done| |done]. intros hs K' _ _ Ho.
  rewrite (left_id_L ∅ (∪)). by apply order_ok_signal.
Qed.

Lemma reads_deliver id payload h K :
  owns ordering (request_send (E := E) (TErr := TErr) h (id, payload)) (Free, Own (Delivering id h), K) reads.
Proof.
  intros s F Hi. exists (Free, Own Reading, ∅ ∪ K). split; [|apply reads_wake].
  apply (reader_update s _ (Delivering id h)); [done| |done]. intros hs K' _ _ Ho.
  rewrite (left_id_L ∅ (∪)). by apply order_ok_deliver.
Qed.

Lemma reads_deliver_foreign id payload h rs K :
  inl h ∈ K → inr id ∈ K →
  owns ordering (request_send (E := E) (TErr := TErr) h (id, payload)) (Free, Own rs, K) reads.
Proof.
  intros Hh Hid s F Hi. exists (Free, Own rs, ∅ ∪ K). split; [|apply reads_wake].
  apply (reader_update s _ rs); [done| |done]. intros hs K' HK _ Ho.
  rewrite (left_id_L ∅ (∪)). destruct (ok_chans _ _ _ _ Ho h ltac:(set_solver)) as (n & Hkey & Hn).
  eapply order_ok_foreign_chan; [done..|]. intros c _ Hq. simpl. apply Forall_app. split; [done|].
  apply Forall_singleton. simpl. apply (ok_calls _ _ _ _ Ho). set_solver.
Qed.

Lemma reads_refuse id rest text K :
  to_string (VArray (VNumber (PosInt MESSAGE_TYPE_ERROR) :: VString id :: rest)) = Ok text →
  owns ordering (sink_call (E := E) (TErr := TErr) (SinkSend text)) (Free, Own (Refusing id), K) reads.
Proof.
  intros Ht. split; [done|]. intros s c b s' F Hp Hi. destruct c; try discriminate Hp. injection Hp as <- <-.
  exists (Free, Own Reading, ∅ ∪ K). split; [|simpl; eauto].
  apply (reader_update s _ (Refusing id)); [by intros ?%fresh_snoc| |done]. intros hs K' _ Hs Ho.
  rewrite (left_id_L ∅ (∪)). destruct (answered_id text) as [id'|] eqn:Ha.
  - destruct (answered_id_text MESSAGE_TYPE_ERROR id _ _ _ ltac:(by split) Ht Ha) as [_ ->].
    by eapply order_ok_refused.
  - eapply order_ok_quiet; [by apply quiet_log|]. by eapply order_ok_reading.
Qed.

(** Looking a handler up. *)
Lemma reads_handle_CALL frame rc K :
  from_str_as de_RawCall frame = Some rc → (call_action rc ≠ name → inr (call_id rc) ∈ K) →
  owns ordering (handle_CALL (E := E) (TErr := TErr) frame)
    (Free, Own (if decide (call_action rc = name) then Received (call_id rc) else Reading), K) reads.
Proof.
  intros Hrc Hid. unfold handle_CALL. rewrite Hrc. intros s F Hi. cbn [fst snd bind].
  destruct (decide (call_action rc = name)) as [Hn|Hn].
  - rewrite Hn. destruct (entries (request_senders s) !! name) as [h|] eqn:Hh.
    + exists (Free, Own (Delivering (call_id rc) h), ∅ ∪ K). split; [|apply reads_deliver].
      apply (reader_update s _ (Received (call_id rc))); [done| |done]. intros hs K' _ _ Ho.
      rewrite (left_id_L ∅ (∪)). pose proof (ok_handler _ _ _ _ Ho) as He. rewrite Hh in He.
      destruct Ho, hs as [|h' held]; simplify_eq. split; eauto.
    + exists (Free, Own (Refusing (call_id rc)), ∅ ∪ K). split.
      * apply (reader_update s _ (Received (call_id rc))); [done| |done]. intros hs K' _ _ Ho.
        rewrite (left_id_L ∅ (∪)). pose proof (ok_handler _ _ _ _ Ho) as He. rewrite Hh in He.
        destruct Ho, hs as [|h' held]; simplify_eq. by split.
      * destruct (to_string _) as [text|] eqn:Ht; [|simpl; eauto].
        apply reads_bind; [by eapply reads_refuse|]. simpl. eauto.
  - specialize (Hid Hn). destruct (entries (request_senders s) !! call_action rc) as [h|] eqn:Hh.
    + exists (Free, Own Reading, {[inl h]} ∪ K). split; [|apply reads_deliver_foreign; set_solver].
      apply (reader_update s _ Reading); [done| |done]. intros hs K' _ _ Ho.
      apply (order_ok_know_chan _ _ _ _ (call_action rc)); [|done..].
      by apply (wf_keys _ _ _ (ok_table _ _ _ _ Ho)).
    + exists (Free, Own Reading, K). split; [done|].
      destruct (to_string _) as [text|] eqn:Ht; [|simpl; eauto].
      apply reads_bind; [|simpl; eauto]. eapply owns_mono; [|eapply (send_foreign _ (call_id rc)); [|done]].
      * intros a [m' K'] [Hm _]. simpl in Hm. subst. eauto.
      * intros id' Ha. by destruct (answered_id_text MESSAGE_TYPE_ERROR _ _ _ _ ltac:(by split) Ht Ha) as [_ ->].
Qed.

(** What the read loop owns after an event. *)
Definition after_event (event : TransportEvent) : reader_state :=
  match call_at (LRecv event) with
  | Some rc => if decide (call_action rc = name) then Received (call_id rc) else Reading
  | None => Reading
  end.
Definition known_after (event : TransportEvent) : known :=
  match call_at (LRecv event) with
  | Some rc => if decide (call_action rc = name) then ∅ else {[inr (call_id rc)]}
  | None => ∅
  end.

Lemma order_ok_event hs rs K s event :
  fresh_ids (log s ++ [LRecv event]) → order_ok hs rs K s →
  order_ok hs (after_event event) (known_after event ∪ K) (add_log (LRecv event) s).
Proof.
  intros Hf Ho%order_ok_reading. unfold after_event, known_after.
  destruct (call_at (LRecv event)) as [rc|] eqn:Hc.
  - pose proof (order_ok_call hs K s (LRecv event) rc Hc Hf Ho) as Ho'. case_decide; [|done].
    by rewrite (left_id_L ∅ (∪)).
  - rewrite (left_id_L ∅ (∪)). eapply order_ok_quiet; [|done]. by apply quiet_log; [|destruct event].
Qed.

Lemma reads_handle_frame frame K :
  known_after (Frame frame) ⊆ K →
  owns ordering (handle_frame (E := E) (TErr := TErr) frame) (Free, Own (after_event (Frame frame)), K) reads.
Proof.
  intros HK. unfold handle_frame.
  destruct (from_str frame) as [[| | | |[|[] items]|]|] eqn:Hf; try by simpl; eauto.
  destruct (as_u64_opt n) as [t|] eqn:Hn; [|simpl; eauto].
  assert (n = PosInt t) as -> by (destruct n; simpl in Hn; congruence).
  destruct (Z.eqb_spec t MESSAGE_TYPE_CALL) as [->|];
    [|destruct (t =? MESSAGE_TYPE_RESULT)%Z;
      [|destruct (t =? MESSAGE_TYPE_ERROR)%Z; [|destruct (t =? MESSAGE_TYPE_SEND)%Z; [|simpl; eauto]]]].
  - destruct (from_str_as de_RawCall frame) as [rc|] eqn:Hrc; [|unfold handle_CALL; rewrite Hrc; simpl; eauto].
    assert (call_type rc = MESSAGE_TYPE_CALL) as Ht.
    { destruct (from_str_as_inv _ _ _ Hrc) as (v & Hv & ->%de_RawCall_inv). rewrite Hv in Hf. by injection Hf. }
    unfold after_event, known_after in *. simpl in *. rewrite Hrc, Ht in *. simpl in *.
    apply reads_handle_CALL; [done|]. intros Hne. case_decide; set_solver.
  - apply reads_orderly. unfold handle_RESULT. destruct (from_str_as _ frame); [|done].
    destruct (uuid_parse_str _) as [id|]; [|done]. apply orderly_modify. intros s.
    unfold settle_pending. by destruct (entries _ !! id).
  - apply reads_orderly. unfold handle_ERROR. destruct (from_str_as _ frame); [|done].
    destruct (uuid_parse_str _) as [id|]; [|done]. apply orderly_modify. intros s.
    unfold settle_pending. by destruct (entries _ !! id).
  - apply reads_orderly. unfold handle_SEND. destruct (from_str_as _ frame); [|done].
    apply orderly_bind; [by apply orderly_atomic|]. intros [h|]; [|done].
    apply orderly_bind; intros; by apply orderly_modify.
Qed.

Lemma reads_handle_event event K :
  known_after event ⊆ K →
  owns ordering (handle_event (E := E) (TErr := TErr) event) (Free, Own (after_event event), K) reads.
Proof.
  intros HK. destruct event as [frame|payload|payload]; [by apply reads_handle_frame| |]; apply reads_orderly.
  - apply orderly_bind; [by apply orderly_modify|]. intros _. apply orderly_bind; [by apply orderly_ext|done].
  - apply orderly_modify. intros s. unfold settle_pong. destruct (token_of payload); [|done].
    by destruct (entries _ !! _).
Qed.

Lemma reads_connection fuel honor stream attempt rs K :
  owns ordering (read_connection (E := E) (TErr := TErr) fuel honor stream attempt) (Free, Own rs, K) reads.
Proof.
  revert attempt rs K. induction fuel as [|fuel IH]; intros attempt rs K; cbn [read_connection]; [done|].
  split; [done|]. intros s c b s' F Hp Hi. unfold poll_select in Hp.
  destruct (poll (FExt (Recv stream)) c s) as [[v s1]|] eqn:Hr.
  - injection Hp as <- <-. destruct c as [| |r| |]; try discriminate Hr. injection Hr as <- <-.
    destruct r as [[event|]|err]; cbn [bind]; [|exists (Free, Own rs, K); simpl; by eauto..].
    exists (Free, Own (after_event event), known_after event ∪ K). split.
    + apply (reader_update s _ rs); [by intros ?%fresh_snoc| |done]. intros hs K' _. apply order_ok_event.
    + apply reads_bind; [|intros _; apply IH]. apply reads_handle_event. set_solver.
  - simpl in Hp. destruct (notify_poll_wait _) as [[]|]; [|done]. injection Hp as <- <-.
    exists (Free, Own rs, K). split; [by eapply quiet_inv; [|exact Hi]|]. cbn [bind].
    apply reads_bind; [by apply reads_orderly, orderly_atomic|]. intros c' rs' K'.
    destruct c'; [simpl; by eauto|]. destruct honor; [simpl; by eauto|apply IH].
Qed.

Lemma reads_loop fuel timeout reconnector p stream attempt rs K :
  owns ordering (read_loop (E := E) (TErr := TErr) fuel timeout reconnector p stream attempt)
    (Free, Own rs, K) reads.
Proof.
  revert stream attempt rs K. induction fuel as [|fuel IH]; intros stream attempt rs K; cbn [read_loop]; [done|].
  apply reads_bind; [|intros [[stream' attempt']|] rs' K'; [apply IH|simpl; by eauto]].
  destruct (logic_connection_end _ _ _ _ orderly_logic fuel timeout reconnector p stream attempt) as (k & -> & Hk).
  apply reads_bind; [apply reads_connection|]. intros exit rs' K'. by apply reads_orderly.
Qed.

End Ordering.

Section Theorems.
Context {SM : SignalModel} {UM : UuidModel} {SJ : SerdeJson} {E : Type} {PE : ProtocolError E} {TErr : Type}.
Abbreviation program A := (prog (St := Client (E := E)) (Ext := Ext (TErr := TErr)) A).

Lemma order_ok_start name k conn : order_ok name Unregistered Reading ∅ (client_new (E := E) k conn).
Proof. by split. Qed.

(** C8: the CALLs of an action are answered in the order in which they arrived.  Let one
    handler of an action be registered, at any moment, and let the client's other users
    do anything except registering or awaiting that same action; let the peer use every
    message id once.  Then under every interleaving, with CALLs of other actions, with
    other handlers, disconnections and redials in between: the answers to the CALLs of
    the action, whether the handler's, the refusals of payloads that do not decode, or
    the refusals sent before the handler existed, are handed to the transport in the
    order in which the CALLs were received, and each at most once. *)
Theorem answers_follow_the_order_of_calls fuel conn config handler_fuel A
    (callback : Request A → program (result (Response A) E)) users schedule ts s :
  (∀ r, api_with (other_action (NAME A)) _ (callback r)) →
  Forall (api_with (other_action (NAME A)) unit) users →
  run_pool schedule
    ((from_transport_with_config fuel conn config).2 ++ on handler_fuel A callback :: users)
    (from_transport_with_config (E := E) (TErr := TErr) fuel conn config).1 = Some (ts, s) →
  fresh_ids (log s) → answers_of (NAME A) (log s) `sublist_of` calls_of (NAME A) (log s).
Proof.
  intros Hcb Hu Hrun Hfresh.
  assert (Hpool : pool_owns (ordering (NAME A)) ts s).
  { eapply pool_owns_run; [|exact Hrun].
    exists ((Free, Own Reading, ∅) :: gempty :: (Own Unregistered, Free, ∅) :: ((λ _, gempty) <$> users)).
    split; [constructor; [|constructor; [|constructor]]|].
    - by eapply owns_mono; [|apply reads_loop].
    - by eapply owns_mono; [|apply (logic_keepalive_loop _ _ _ _ (orderly_logic (NAME A)))].
    - apply owns_on; [done|]. intros r. by apply (logic_api _ _ _ _ (orderly_logic (NAME A))).
    - apply Forall2_fmap_r, Forall_Forall2_diag. eapply Forall_impl; [exact Hu|]. intros p Hp.
      eapply owns_mono; [|by apply (logic_api _ _ _ _ (orderly_logic (NAME A)))]. done.
    - intros _. exists Unregistered, Reading, ∅. split; [|apply order_ok_start].
      change (gsum _) with (((Free, Own Reading, ∅) : excl handler_state * excl reader_state * gset (nat + string)) ⋅
        (gempty ⋅ ((Own Unregistered, Free, ∅) ⋅ gsum ((λ _, gempty) <$> users)))).
      by rewrite (gsum_empties users). }
  destruct Hpool as (ms & _ & Hi). destruct (Hi Hfresh) as (hs & rs & K & _ & Ho).
  etrans; [|apply Ho]. rewrite <-(assoc app). by apply sublist_inserts_r.
Qed.

End Theorems.

(** ** Witness *)

(** Two CALLs of an action with a handler, and one of an action without between them. *)
Definition second_request : string :=
  demo_text (ser_RawCall (mkRawCall MESSAGE_TYPE_CALL "13" "Heartbeat" VNull)).
Definition other_request : string :=
  demo_text (ser_RawCall (mkRawCall MESSAGE_TYPE_CALL "14" "Reset" VNull)).

Definition order_schedule : list (nat * demo_choice) :=
  [(2, CTimer); (2, CTimer);
   (0, CRecv (Ok (Some (Frame answer_request)))); (0, CTimer); (0, CTimer); (0, CTimer);
   (0, CRecv (Ok (Some (Frame other_request)))); (0, CTimer); (3, CTimer); (0, CSink (Ok tt));
   (0, CRecv (Ok (Some (Frame second_request)))); (0, CTimer); (0, CTimer); (0, CTimer);
   (3, CSink (Ok tt)); (3, CTimer); (3, CSink (Ok tt))].

Abbreviation order_client :=
  (from_transport_with_config (E := V1_6.OCPP1_6Error) (TErr := unit) 5 0 demo_config).

Abbreviation order_run :=
  (run_pool order_schedule (order_client.2 ++ on 3 demo_action (λ r, Ret (Ok r)) :: []) order_client.1).

Lemma answers_follow_the_order_of_calls_witness :
  match order_run with
  | Some x => answered_ids (log x.2) = ["14"; "12"; "13"]%string ∧
      answers_of "Heartbeat" (log x.2) `sublist_of` calls_of "Heartbeat" (log x.2)
  | None => False
  end.
Proof.
  apply (ran_to_elim (λ x, answered_ids (log x.2) = ["14"; "12"; "13"]%string ∧
      answers_of "Heartbeat" (log x.2) `sublist_of` calls_of "Heartbeat" (log x.2))
    (λ x, bool_decide (answered_ids (log x.2) = ["14"; "12"; "13"]%string) && bool_decide (fresh_ids (log x.2))));
    [vm_compute; reflexivity|].
  intros [ts s] Hrun [Hids Hfresh]%andb_prop. split; [exact (bool_decide_eq_true_1 _ Hids)|].
  apply (answers_follow_the_order_of_calls 5 0 demo_config 3 demo_action (λ r, Ret (Ok r)) [] order_schedule ts s);
    [intros r; apply api_ret|constructor|exact Hrun|exact (bool_decide_eq_true_1 _ Hfresh)].
Defined.
