(* ===== verification/Termination.v ===== *)
(** * Operations that end

    [ends_in n p]: whatever the other tasks do, [p] returns after at most [n] steps of
    its own, and wherever it stands some answer of the outside lets it take the next
    one.  It is a judgement on the program alone: a request races its response against
    the timer, so that it can always go on.  The operations of a client are shown to
    satisfy it with concrete bounds, and with them everything a user composes from them
    without a loop, the handling of an event by the read loop, and the handling of a
    CALL by its handler. *)

From S2P Require Import Prelude Time Sync Envelope Platform ProtocolErrors Reconnect Keepalive Engine Client ClientInv ClientDemo.
From stdpp Require Import base gmap strings list.

Section Ending.
Context {St Choice : Type} {Ext : Type → Type} `{Externals St Choice Ext}.

(** A future that some choice completes, whatever the state. *)
Definition ready {B : Type} (f : fut (St := St) (Ext := Ext) B) : Prop := ∀ s, ∃ c r, poll f c s = Some r.

Fixpoint ends_in {A : Type} (n : nat) (p : prog (St := St) (Ext := Ext) A) {struct p} : Prop :=
  match p with
  | Ret _ => True
  | Atomic _ k => match n with O => False | S n => ∀ b, ends_in n (k b) end
  | Await f k => match n with O => False | S n => ready f ∧ ∀ b, ends_in n (k b) end
  | Select f g k => match n with O => False | S n => (ready f ∨ ready g) ∧ ∀ b, ends_in n (k b) end
  | Spawn _ k => match n with O => False | S n => ends_in n k end
  | OutOfFuel => False
  end.

Lemma ends_in_mono {A : Type} n m (p : prog A) : n ≤ m → ends_in n p → ends_in m p.
Proof.
  revert n m. induction p as [A a|A B f k IH|A B f k IH|A B C f g k IH|A p _ k IH|A];
    intros [|n] [|m] Hle; simpl; try done; try lia.
  - intros Hk b. eapply IH; [|apply Hk]. lia.
  - intros [? Hk]. split; [done|]. intros b. eapply IH; [|apply Hk]. lia.
  - intros [? Hk]. split; [done|]. intros b. eapply IH; [|apply Hk]. lia.
  - apply IH. lia.
Qed.

Lemma ends_in_bind {A B : Type} n m (p : prog A) (k : A → prog B) :
  ends_in n p → (∀ a, ends_in m (k a)) → ends_in (n + m) (bind p k).
Proof.
  intros Hp Hk. revert n Hp. induction p as [A a|A C f k' IH|A C f k' IH|A C D f g k' IH|A p _ k' IH|A];
    intros n; simpl; try done.
  - intros _. eapply ends_in_mono; [|apply Hk]. lia.
  - destruct n as [|n]; [done|]. simpl. eauto.
  - destruct n as [|n]; [done|]. simpl. intros [? Hp]. eauto.
  - destruct n as [|n]; [done|]. simpl. intros [? Hp]. eauto.
  - destruct n as [|n]; [done|]. simpl. eauto.
Qed.

(** A step uses one up. *)
Lemma step_ends {A : Type} n c (p p' : prog A) s s' new :
  ends_in n p → step c p s = Some (p', s', new) → ∃ m, n = S m ∧ ends_in m p'.
Proof.
  destruct p as [a|B f k|B f k|B C f g k|p k|]; simpl; try done; (destruct n as [|n]; [done|]).
  - intros Hk. destruct (f s). intros [= <- <- <-]. eauto.
  - intros [_ Hk]. destruct (poll f c s) as [[]|]; [|done]. intros [= <- <- <-]. eauto.
  - intros [_ Hk]. destruct (poll_select f g c s) as [[]|]; [|done]. intros [= <- <- <-]. eauto.
  - intros Hk [= <- <- <-]. eauto.
Qed.

(** One that has not returned can step, from every state. *)
Lemma ends_steps {A : Type} n (p : prog A) s `{Inhabited Choice} :
  ends_in n p → (∃ a, p = Ret a) ∨ 0 < n ∧ ∃ c x, step c p s = Some x.
Proof.
  destruct p as [a|B f k|B f k|B C f g k|p k|]; simpl; [by eauto| | | | |done];
    (destruct n as [|n]; [done|]); intros Hp; right; (split; [lia|]).
  - exists inhabitant. destruct (f s). eauto.
  - destruct Hp as [Hf _]. destruct (Hf s) as (c & [b s'] & Hc). exists c. rewrite Hc. eauto.
  - destruct Hp as [[Hf|Hg] _]; unfold poll_select.
    + destruct (Hf s) as (c & [b s'] & Hc). exists c. rewrite Hc. eauto.
    + destruct (Hg s) as (c & [b s'] & Hc). exists c. rewrite Hc. destruct (poll f c s) as [[]|]; eauto.
  - exists inhabitant. eauto.
Qed.

(** How often a schedule runs task [i]. *)
Definition turns (i : nat) (schedule : list (nat * Choice)) : nat :=
  length (filter (λ x, x.1 = i) schedule).

(** In a pool, whatever the others do. *)
Lemma run_pool_ends i n p schedule ts s ts' s' :
  ts !! i = Some p → ends_in n p → run_pool schedule ts s = Some (ts', s') →
  ∃ m p', n = turns i schedule + m ∧ ts' !! i = Some p' ∧ ends_in m p'.
Proof.
  unfold turns. revert n p ts s. induction schedule as [|[j c] rest IH]; intros n p ts s Hi Hp; simpl.
  { intros [= <- <-]. eauto. }
  unfold pool_step. destruct (ts !! j) as [q|] eqn:Hj; [|done].
  destruct (step c q s) as [[[q' s1] new]|] eqn:Hs; [|done]. intros Hrun.
  assert (Hlt : i < length ts) by by eapply lookup_lt_Some.
  rewrite filter_cons. simpl. destruct (decide (j = i)) as [->|Hne].
  - assert (q = p) as -> by congruence. destruct (step_ends _ _ _ _ _ _ _ Hp Hs) as (m & -> & Hq').
    eapply (IH m q') in Hrun as (m' & p' & -> & ? & ?); [|..|done].
    + exists m', p'. simpl. split; [lia|done].
    + rewrite lookup_app_l by by rewrite length_insert. by apply list_lookup_insert_eq.
  - eapply (IH n p) in Hrun as (m' & p' & -> & ? & ?); [|..|done].
    + eauto.
    + rewrite lookup_app_l by by rewrite length_insert. by rewrite list_lookup_insert_ne.
Qed.

(** *** Programs that do not stop

    [lasts n p]: for [n] steps of its own, [p] neither panics nor is out of fuel.
    [goes_on n p]: nor does it return, and some answer of the outside always lets it take
    the next step. *)

Fixpoint lasts {A : Type} (n : nat) (p : prog (St := St) (Ext := Ext) A) {struct p} : Prop :=
  match p with
  | Ret _ => True
  | Atomic _ k => match n with O => True | S n => ∀ b, lasts n (k b) end
  | Await _ k => match n with O => True | S n => ∀ b, lasts n (k b) end
  | Select _ _ k => match n with O => True | S n => ∀ b, lasts n (k b) end
  | Spawn _ k => match n with O => True | S n => lasts n k end
  | OutOfFuel => False
  end.

Fixpoint goes_on {A : Type} (n : nat) (p : prog (St := St) (Ext := Ext) A) {struct p} : Prop :=
  match p with
  | Ret _ => False
  | Atomic _ k => match n with O => True | S n => ∀ b, goes_on n (k b) end
  | Await f k => ready f ∧ match n with O => True | S n => ∀ b, goes_on n (k b) end
  | Select f g k => (ready f ∨ ready g) ∧ match n with O => True | S n => ∀ b, goes_on n (k b) end
  | Spawn _ k => match n with O => True | S n => goes_on n k end
  | OutOfFuel => False
  end.

Lemma lasts_mono {A : Type} n m (p : prog A) : m ≤ n → lasts n p → lasts m p.
Proof.
  revert n m. induction p as [A a|A B f k IH|A B f k IH|A B C f g k IH|A p _ k IH|A];
    intros [|n] [|m] Hle; simpl; try done; try lia; intros Hk; try intros b; (eapply IH; [|apply Hk]); lia.
Qed.

Lemma lasts_bind {A B : Type} n (p : prog A) (k : A → prog B) :
  lasts n p → (∀ a m, m ≤ n → lasts m (k a)) → lasts n (bind p k).
Proof.
  revert n. induction p as [A a|A C f k' IH|A C f k' IH|A C D f g k' IH|A p _ k' IH|A];
    intros n Hp Hk; simpl in *; try done; try (by apply Hk); destruct n as [|n]; try done;
    try intros b; apply IH; try done; intros a m Hm; apply Hk; lia.
Qed.

(** The part after a first step only has to last for the rest. *)
Definition steps_first {A : Type} (p : prog (St := St) (Ext := Ext) A) : bool :=
  match p with Ret _ | OutOfFuel => false | _ => true end.

Lemma lasts_bind_after {A B : Type} n (p : prog A) (k : A → prog B) :
  steps_first p = true → lasts n p → (∀ a m, m < n → lasts m (k a)) → lasts n (bind p k).
Proof.
  intros Hf Hp Hk. destruct p as [a|C f k'|C f k'|C D f g k'|p k'|]; simpl in *; try done;
    destruct n as [|n]; try done; try intros b; apply lasts_bind; try done; intros a m Hm; apply Hk; lia.
Qed.

Lemma step_lasts {A : Type} n c (p p' : prog A) s s' new :
  lasts (S n) p → step c p s = Some (p', s', new) → lasts n p'.
Proof.
  destruct p as [a|B f k|B f k|B C f g k|p k|]; simpl; try done; intros Hp.
  - destruct (f s). by intros [= <- _ _].
  - destruct (poll f c s) as [[]|]; [|done]. by intros [= <- _ _].
  - destruct (poll_select f g c s) as [[]|]; [|done]. by intros [= <- _ _].
  - by intros [= <- _ _].
Qed.

Lemma goes_on_mono {A : Type} n m (p : prog A) : m ≤ n → goes_on n p → goes_on m p.
Proof.
  revert n m. induction p as [A a|A B f k IH|A B f k IH|A B C f g k IH|A p _ k IH|A];
    intros [|n] [|m] Hle; simpl; try done; try lia; try (by intros []).
  - intros Hk b. eapply IH; [|apply Hk]. lia.
  - intros [? Hk]. split; [done|]. intros b. eapply IH; [|apply Hk]. lia.
  - intros [? Hk]. split; [done|]. intros b. eapply IH; [|apply Hk]. lia.
  - apply IH. lia.
Qed.

(** What goes on after something that ends. *)
Lemma goes_on_bind {A B : Type} j n (p : prog A) (k : A → prog B) :
  ends_in j p → (∀ a m, m ≤ n → goes_on m (k a)) → goes_on n (bind p k).
Proof.
  revert j n. induction p as [A a|A C f k' IH|A C f k' IH|A C D f g k' IH|A p _ k' IH|A];
    intros j n Hp Hk; simpl in *; try done; try (by apply Hk); destruct j as [|j]; try done.
  - destruct n as [|n]; [done|]. intros b. eapply IH; [apply Hp|]. intros a m Hm. apply Hk. lia.
  - destruct Hp as [? Hp]. split; [done|]. destruct n as [|n]; [done|]. intros b. eapply IH; [apply Hp|]. intros a m Hm. apply Hk. lia.
  - destruct Hp as [? Hp]. split; [done|]. destruct n as [|n]; [done|]. intros b. eapply IH; [apply Hp|]. intros a m Hm. apply Hk. lia.
  - destruct n as [|n]; [done|]. eapply IH; [apply Hp|]. intros a m Hm. apply Hk. lia.
Qed.

Lemma goes_on_bind_after {A B : Type} j n (p : prog A) (k : A → prog B) :
  steps_first p = true → ends_in j p → (∀ a m, m < n → goes_on m (k a)) → goes_on n (bind p k).
Proof.
  intros Hf Hp Hk. destruct p as [a|C f k'|C f k'|C D f g k'|p k'|]; simpl in *; try done; destruct j as [|j]; try done.
  - destruct n as [|n]; [done|]. intros b. eapply goes_on_bind; [apply Hp|]. intros a m Hm. apply Hk. lia.
  - destruct Hp as [? Hp]. split; [done|]. destruct n as [|n]; [done|]. intros b. eapply goes_on_bind; [apply Hp|]. intros a m Hm. apply Hk. lia.
  - destruct Hp as [? Hp]. split; [done|]. destruct n as [|n]; [done|]. intros b. eapply goes_on_bind; [apply Hp|]. intros a m Hm. apply Hk. lia.
  - destruct n as [|n]; [done|]. eapply goes_on_bind; [apply Hp|]. intros a m Hm. apply Hk. lia.
Qed.

Lemma step_goes_on {A : Type} n c (p p' : prog A) s s' new :
  goes_on (S n) p → step c p s = Some (p', s', new) → goes_on n p'.
Proof.
  destruct p as [a|B f k|B f k|B C f g k|p k|]; simpl; try done.
  - intros Hp. destruct (f s). by intros [= <- _ _].
  - intros [_ Hp]. destruct (poll f c s) as [[]|]; [|done]. by intros [= <- _ _].
  - intros [_ Hp]. destruct (poll_select f g c s) as [[]|]; [|done]. by intros [= <- _ _].
  - intros Hp. by intros [= <- _ _].
Qed.

Lemma goes_on_steps {A : Type} n (p : prog A) s `{Inhabited Choice} :
  goes_on n p → ∃ c x, step c p s = Some x.
Proof.
  destruct p as [a|B f k|B f k|B C f g k|p k|]; simpl; try done; intros Hp.
  - exists inhabitant. destruct (f s). eauto.
  - destruct Hp as [Hf _]. destruct (Hf s) as (c & [b s'] & Hc). exists c. rewrite Hc. eauto.
  - destruct Hp as [[Hf|Hg] _]; unfold poll_select.
    + destruct (Hf s) as (c & [b s'] & Hc). exists c. rewrite Hc. eauto.
    + destruct (Hg s) as (c & [b s'] & Hc). exists c. rewrite Hc. destruct (poll f c s) as [[]|]; eauto.
  - exists inhabitant. eauto.
Qed.

(** In a pool, whatever the others do. *)
Lemma run_pool_goes_on i n p schedule ts s ts' s' :
  ts !! i = Some p → goes_on (turns i schedule + n) p → run_pool schedule ts s = Some (ts', s') →
  ∃ p', ts' !! i = Some p' ∧ goes_on n p'.
Proof.
  unfold turns. revert p ts s. induction schedule as [|[j c] rest IH]; intros p ts s Hi Hp; simpl in *.
  { intros [= <- <-]. eauto. }
  unfold pool_step. destruct (ts !! j) as [q|] eqn:Hj; [|done].
  destruct (step c q s) as [[[q' s1] new]|] eqn:Hs; [|done]. intros Hrun.
  assert (Hlt : i < length ts) by by eapply lookup_lt_Some.
  rewrite filter_cons in Hp. simpl in Hp. destruct (decide (j = i)) as [->|Hne].
  - assert (q = p) as -> by congruence. eapply (IH q'); [|by eapply step_goes_on|done].
    rewrite lookup_app_l by by rewrite length_insert. by apply list_lookup_insert_eq.
  - eapply (IH p); [|done|done].
    rewrite lookup_app_l by by rewrite length_insert. by rewrite list_lookup_insert_ne.
Qed.

End Ending.

Section Operations.
Context {SM : SignalModel} {UM : UuidModel} {SJ : SerdeJson} {E : Type} {PE : ProtocolError E} {TErr : Type}.
Context `{Inhabited Uuid}.

Abbreviation St := (Client (E := E)).
Abbreviation Ch := (Choice (TErr := TErr)).
Abbreviation program A := (prog (St := St) (Ext := Ext (TErr := TErr)) A).
Abbreviation future A := (fut (St := St) (Ext := Ext (TErr := TErr)) A).

#[global] Instance choice_inhabited : Inhabited Ch := populate CTimer.

(** ** Futures that some answer completes *)

Lemma ready_new_v4 : ready (FExt NewV4 : future Uuid).
Proof. intros s. exists (CUuid inhabitant). by eexists. Qed.
Lemma ready_sink op : ready (FExt (Sink op) : future _).
Proof. intros s. exists (CSink (Ok tt)). by eexists. Qed.
Lemma ready_delay d : ready (FExt (Delay d) : future unit).
Proof. intros s. exists CTimer. by eexists. Qed.

(** ** The operations and what is composed of them *)

(** [operation n p]: [p] is built from the client's methods without a loop, and takes at
    most [n] steps.  A user's callback runs in steps of its caller only in [wait_for]
    and in a handler's task. *)
Inductive operation : ∀ A : Type, nat → program A → Prop :=
| op_ret A (a : A) : operation A 0 (Ret a)
| op_bind A B n m (p : program A) (k : A → program B) :
    operation A n p → (∀ a, operation B m (k a)) → operation B (n + m) (bind p k)
| op_spawn A n (p : program unit) (k : program A) : operation A n k → operation A (S n) (Spawn p k)
| op_delay d : operation _ 1 (await (FExt (Delay d)))
| op_call timeout A request : operation _ 6 (call timeout A request)
| op_send_notification A payload : operation _ 3 (send_notification A payload)
| op_send_ping timeout : operation _ 5 (send_ping timeout)
| op_wait_for timeout A callback n :
    (∀ r, operation _ n (callback r)) → operation _ (4 + n) (wait_for timeout A callback)
| op_on fuel A callback : operation _ 2 (on fuel A callback)
| op_on_notification fuel A callback : operation _ 2 (on_notification fuel A callback)
| op_on_ping fuel callback : operation _ 2 (on_ping fuel callback)
| op_on_reconnect fuel callback : operation _ 2 (on_reconnect fuel callback)
| op_ping_interval : operation _ 1 ping_interval
| op_set_ping_interval i : operation _ 1 (set_ping_interval i)
| op_force_reconnect : operation _ 2 force_reconnect
| op_is_closed : operation _ 1 is_closed
| op_disconnect : operation _ 4 disconnect
(** What the read loop does with an event, and a handler with a CALL. *)
| op_handle_event event : operation _ 3 (handle_event event)
| op_handle_call A callback id payload n :
    (∀ r, operation _ n (callback r)) → operation _ (n + 1) (handle_call A callback id payload).

Lemma ends_modify f : ends_in (A := unit) 1 (modify f : program unit).
Proof. done. Qed.

Lemma ends_respond {R} to_value (r : result R E) id :
  ends_in 1 (do_send_response (TErr := TErr) to_value r id).
Proof.
  unfold do_send_response. destruct (response_frame to_value r id); simpl; [|done].
  split; [apply ready_sink|done].
Qed.

Lemma ends_call timeout A request : ends_in 6 (call timeout A request : program _).
Proof.
  intros []; simpl; [done|]. split; [apply ready_new_v4|]. intros id.
  destruct (ser_request A request) as [payload|]; [|done].
  destruct (to_string _) as [frame|]; [|done]. intros h. split; [apply ready_sink|].
  intros [[]|err]; simpl; [|done]. split; [right; apply ready_delay|].
  intros [[v|e]|[]]; simpl; done.
Qed.

Lemma ends_send_notification A payload : ends_in 3 (send_notification A payload : program _).
Proof.
  intros []; simpl; [done|]. split; [apply ready_new_v4|]. intros id.
  destruct (ser_payload A payload) as [v|]; [|done].
  destruct (to_string _) as [frame|]; [|done]. split; [apply ready_sink|done].
Qed.

Lemma ends_send_ping timeout : ends_in 5 (send_ping timeout : program _).
Proof.
  intros []; simpl; [done|]. intros [token h]. split; [apply ready_sink|].
  intros [[]|err]; simpl; [|done]. split; [right; apply ready_delay|]. by intros [[]|[]].
Qed.

Lemma ends_with_timeout {B} d (f : future B) : ends_in 1 (with_timeout d f).
Proof. split; [right; apply ready_delay|by intros []]. Qed.

Lemma ends_wait_for timeout A (callback : Request A → program _) n :
  (∀ r, ends_in n (callback r)) → ends_in (4 + n) (wait_for timeout A callback).
Proof.
  intros Hcb. apply (ends_in_bind 1 (3 + n)); [by intros h|]. intros h.
  apply (ends_in_bind 1 (2 + n)); [apply ends_with_timeout|]. intros r.
  eapply (ends_in_mono ((n + 1) + 1)); [lia|]. apply ends_in_bind; [|by intros o b].
  destruct r as [[[id payload]|]|[]]; [|done..].
  destruct (de_request A payload) as [request|]; [|done].
  apply ends_in_bind; [apply Hcb|]. intros response. apply (ends_in_bind 1 0); [apply ends_respond|done].
Qed.

Lemma ends_handle_event event : ends_in 3 (handle_event event : program _).
Proof.
  destruct event as [frame|payload|payload]; [|intros ?; split; [apply ready_sink|done]|by intros ?].
  cbn [handle_event]. unfold handle_frame.
  destruct (from_str frame) as [[| | | |[|[] items]|]|]; try done. destruct (as_u64_opt n) as [t|]; [|done].
  destruct (t =? MESSAGE_TYPE_CALL)%Z; [|destruct (t =? MESSAGE_TYPE_RESULT)%Z;
    [|destruct (t =? MESSAGE_TYPE_ERROR)%Z; [|destruct (t =? MESSAGE_TYPE_SEND)%Z; [|done]]]].
  - unfold handle_CALL. destruct (from_str_as _ frame) as [rc|]; [|done]. intros [h|]; [by intros ? ?|].
    cbv zeta. destruct (to_string _); [|done]. split; [apply ready_sink|done].
  - unfold handle_RESULT. destruct (from_str_as _ frame); [|done]. by destruct (uuid_parse_str _).
  - unfold handle_ERROR. destruct (from_str_as _ frame); [|done]. by destruct (uuid_parse_str _).
  - unfold handle_SEND. destruct (from_str_as _ frame); [|done]. intros [h|]; [by intros ? ?|done].
Qed.

Lemma ends_handle_call A (callback : Request A → program _) id payload n :
  (∀ r, ends_in n (callback r)) → ends_in (n + 1) (handle_call A callback id payload).
Proof.
  intros Hcb. unfold handle_call. destruct (de_request A payload) as [request|].
  - apply ends_in_bind; [apply Hcb|]. intros response. apply ends_respond.
  - eapply (ends_in_mono 1); [lia|]. apply ends_respond.
Qed.

Lemma ends_disconnect : ends_in 4 (disconnect : program _).
Proof. intros []; [done|]. intros ? ?. split; [apply ready_sink|done]. Qed.

Lemma operation_ends A n (p : program A) : operation A n p → ends_in n p.
Proof.
  induction 1; eauto using ends_in_bind, ends_call, ends_send_notification, ends_send_ping, ends_wait_for,
    ends_handle_event, ends_handle_call, ends_disconnect; try done.
  - split; [apply ready_delay|done].
  - by intros [].
Qed.

(** C7: every operation of a client ends.  Take any program that is composed of the
    client's methods without a loop, or what the read loop does with an event, or what a
    handler does with a CALL, running as a task beside any other tasks, in any state.
    Under every schedule it takes at most the number of steps given for it (six for a
    [call]); once it has taken them it has returned, and until then there is at every
    moment an answer, of the transport, of the timer or of the identifier generator, with
    which it takes the next one: no operation waits for the peer alone. *)
Theorem operations_return n (op : program unit) i schedule ts s ts' s' :
  operation unit n op → ts !! i = Some op → run_pool schedule ts s = Some (ts', s') →
  turns i schedule ≤ n ∧
  (ts' !! i = Some (Ret tt) ∨ turns i schedule < n ∧ ∃ c x, pool_step i c ts' s' = Some x).
Proof.
  intros Hop Hi Hrun.
  destruct (run_pool_ends _ _ _ _ _ _ _ _ Hi (operation_ends _ _ _ Hop) Hrun) as (m & p & -> & Hp & He).
  split; [lia|]. destruct (ends_steps m p s' He) as [[[] ->]|(Hm & c & [[p' s1] new] & Hc)]; [by left|right].
  split; [lia|]. exists c. unfold pool_step. rewrite Hp, Hc. eauto.
Qed.

End Operations.

(** ** Witness *)

#[export] Instance number_inhabited : Inhabited (@Uuid number_uuid) := populate 0%N.

(** A call whose answer never comes, in the middle of the client's own tasks. *)
Definition waiting_user : demo_program unit :=
  bind (call (TErr := unit) (from_secs 30) demo_action VNull) (λ _, Ret tt).

Definition waiting_schedule : list (nat * demo_choice) :=
  [(2, CTimer); (1, CTimer); (2, CUuid 7%N); (2, CTimer); (0, CRecv (Ok None)); (2, CSink (Ok tt)); (0, CTimer)].

Lemma operations_return_witness :
  match run_pool waiting_schedule (demo_client.2 ++ [waiting_user]) demo_client.1 with
  | Some x => turns 2 waiting_schedule ≤ 6 ∧
      (x.1 !! 2 = Some (Ret tt) ∨ turns 2 waiting_schedule < 6 ∧ ∃ c y, pool_step 2 c x.1 x.2 = Some y)
  | None => False
  end.
Proof.
  apply (ran_elim (λ x, turns 2 waiting_schedule ≤ 6 ∧
      (x.1 !! 2 = Some (Ret tt) ∨ turns 2 waiting_schedule < 6 ∧ ∃ c y, pool_step 2 c x.1 x.2 = Some y)));
    [vm_compute; reflexivity|].
  intros [ts s] Hrun.
  apply (operations_return 6 waiting_user 2 waiting_schedule (demo_client.2 ++ [waiting_user]) demo_client.1);
    [|reflexivity|exact Hrun].
  apply (op_bind _ _ 6 0); [apply op_call|intros r; apply op_ret].
Defined.
