(* ===== verification/Cancellation.v ===== *)
(** * Abandoned futures

    An async program need not be run to its end: [tokio::select!], [tokio::time::timeout]
    or a plain [drop] abandon a future at whichever await it has reached.  Nothing of it
    runs afterwards, and this crate has no destructor that acts on the shared state, so an
    abandoned task is one that never steps again.  The client's tables stay well formed,
    but a [call] abandoned while it waits leaves its entry behind. *)

From S2P Require Import Prelude Time Sync Envelope Platform ProtocolErrors Reconnect Keepalive Engine Client ClientInv ClientDemo ClientSafety ClientAnswers.
From stdpp Require Import base gmap gmultiset strings list relations.

Section Dropping.
Context {St Ch : Type} {Ext : Type → Type} `{Externals St Ch Ext}.
Abbreviation task := (prog (St := St) (Ext := Ext) unit).

(** Task [i] is dropped where it stands. *)
Definition drop_task (i : nat) (ts : list task) : list task := <[i := OutOfFuel]> ts.

(** A schedule of steps and drops. *)
Fixpoint run_dropping (schedule : list (nat * option Ch)) (ts : list task) (s : St) : option (list task * St) :=
  match schedule with
  | [] => Some (ts, s)
  | (i, None) :: rest => run_dropping rest (drop_task i ts) s
  | (i, Some c) :: rest =>
      match pool_step i c ts s with
      | Some (ts', s') => run_dropping rest ts' s'
      | None => None
      end
  end.

Definition steps_of (schedule : list (nat * option Ch)) : list (nat * Ch) :=
  omap (λ x, match x.2 with Some c => Some (x.1, c) | None => None end) schedule.

(** [ts] is [ts'] with some tasks dropped. *)
Definition dropped : list task → list task → Prop := Forall2 (λ t t', t = t' ∨ t = OutOfFuel).

Lemma dropped_refl ts : dropped ts ts.
Proof. apply Forall_Forall2_diag, Forall_true. by left. Qed.

Lemma dropped_drop i ts ts' : dropped ts ts' → dropped (drop_task i ts) ts'.
Proof.
  intros Hd. unfold drop_task. apply Forall2_same_length_lookup_2.
  - rewrite length_insert. by eapply Forall2_length.
  - intros j t t' Ht Ht'. apply list_lookup_insert_Some in Ht as [(_ & <- & _)|[_ Ht]]; [by right|].
    by eapply Forall2_lookup_lr in Hd; [|done..].
Qed.

(** The same steps without the drops lead to the same state, so that what is proved of the
    states of all runs holds of runs with drops too. *)
Lemma run_dropping_steps schedule ts1 ts2 s ts1' s' :
  dropped ts1 ts2 → run_dropping schedule ts1 s = Some (ts1', s') →
  ∃ ts2', run_pool (steps_of schedule) ts2 s = Some (ts2', s') ∧ dropped ts1' ts2'.
Proof.
  revert ts1 ts2 s. induction schedule as [|[i [c|]] rest IH]; intros ts1 ts2 s Hd; simpl.
  - intros [= <- <-]. by exists ts2.
  - unfold pool_step. destruct (ts1 !! i) as [t1|] eqn:H1; [|done].
    destruct (Forall2_lookup_l _ _ _ _ _ Hd H1) as (t2 & H2 & [->| ->]); [|done]. rewrite H2.
    destruct (step c t2 s) as [[[t s1] new]|]; [|done]. intros Hrun. eapply IH; [|exact Hrun].
    apply Forall2_app; [|apply dropped_refl]. apply Forall2_insert; [done|by left].
  - intros Hrun. eapply IH; [|exact Hrun]. by apply dropped_drop.
Qed.

End Dropping.

Section Abandoned.
Context {SM : SignalModel} {UM : UuidModel} {SJ : SerdeJson} {E : Type} {PE : ProtocolError E} {TErr : Type}.

Abbreviation program A := (prog (St := Client (E := E)) (Ext := Ext (TErr := TErr)) A).

(** The entry of a request nobody is working on. *)
Lemma entry_abandoned id h schedule (ts ts' : list (program unit)) (s s' : Client (E := E)) :
  pool_safe (task_spec (λ u, u = id) True) ts s →
  entries (pending_responses s) !! id = Some h →
  Forall (λ x, not_mine (TErr := TErr) (λ u, u = id) x.2) schedule → run_pool schedule ts s = Some (ts', s') →
  entries (pending_responses s') !! id = Some h ∨ ∃ outcome, answered (log s') id outcome.
Proof.
  intros Hts Hh Hall Hrun.
  destruct (run_pool_safe (task_spec (λ u, u = id) True) schedule ts s ts' s') as [_ Hsteps]; try done.
  - apply grows_preorder.
  - apply guar_grows.
  - apply rtc_preorder in Hsteps; [|apply client_guar_preorder].
    destruct (guar_spares _ _ _ _ Hsteps id eq_refl) as [->|[_ ?]]; auto.
Qed.

(** C17: a [call] that is dropped while it waits is not given up.  Whenever a [call] has
    an entry in the table of pending requests and its future is dropped, the entry stays
    for ever: whatever the client's tasks and its other users do afterwards, whether
    connections end or the client is shut down, it is removed only if an answer with its
    identifier still arrives.  The timeout, which was part of the dropped future, does
    not remove it. *)
Theorem abandoned_call_stays_pending fuel conn config users id timeout A request schedule p ts s h later ts' s' :
  Forall (api unit) users → Forall (draws_only id) schedule →
  run_among schedule (call timeout A request)
    ((from_transport_with_config fuel conn config).2 ++ users)
    (from_transport_with_config (E := E) (TErr := TErr) fuel conn config).1 = Some (p, ts, s) →
  entries (pending_responses s) !! id = Some h →
  Forall (λ x, not_mine (TErr := TErr) (λ u, u = id) x.2) later → run_pool later ts s = Some (ts', s') →
  0 < pending_request_count s' ∨ ∃ outcome, answered (log s') id outcome.
Proof.
  intros Hu Hsched Hrun Hh Hlater Hrun'.
  destruct (entry_abandoned id h later ts ts' s s') as [He|?]; [..|left|by right]; try done.
  - by apply (call_among _ _ _ _ _ _ _ _ _ _ _ _ Hu Hsched Hrun).
  - unfold pending_request_count. destruct (size _) eqn:Hs; [|lia].
    apply map_size_empty_iff in Hs. by rewrite Hs, lookup_empty in He.
Qed.

End Abandoned.

(** ** Witnesses *)

(** A call goes out and is dropped; the connection ends, and a user disconnects. *)
Definition sending_schedule : list (option nat * demo_choice) :=
  [(None, CTimer); (None, CUuid 7%N); (None, CTimer); (None, CSink (Ok tt))].

Definition later_schedule : list (nat * demo_choice) :=
  [(2, CTimer); (2, CTimer); (2, CTimer); (2, CSink (Ok tt)); (0, CRecv (Ok None)); (0, CTimer); (0, CTimer);
   (1, CTimer)].

Abbreviation dropped_call_run :=
  (match run_among sending_schedule (call (TErr := unit) (from_secs 30) demo_action VNull)
           (demo_client.2 ++ demo_users) demo_client.1 with
   | Some (_, ts, s) => match run_pool later_schedule ts s with Some (ts', s') => Some (s, ts', s') | None => None end
   | None => None
   end).

Lemma abandoned_call_stays_pending_witness :
  match dropped_call_run with
  | Some x => closed x.2 = true ∧ (0 < pending_request_count x.2 ∨ ∃ outcome, answered (UM := number_uuid) (E := V1_6.OCPP1_6Error) (log x.2) 7%N outcome)
  | None => False
  end.
Proof.
  apply (ran_to_elim (λ x, closed x.2 = true ∧ (0 < pending_request_count x.2 ∨ ∃ outcome, answered (UM := number_uuid) (E := V1_6.OCPP1_6Error) (log x.2) 7%N outcome))
           (λ x, closed x.2 && bool_decide (entries (pending_responses x.1.1) !! 7%N = Some 0)));
    [vm_compute; reflexivity|].
  intros [[s ts'] s'] Hrun [Hcl He]%andb_prop. split; [exact Hcl|]. apply bool_decide_eq_true in He.
  destruct (run_among _ _ _ _) as [[[p ts] s1]|] eqn:H1; [|discriminate Hrun].
  destruct (run_pool later_schedule ts s1) as [[ts2 s2]|] eqn:H2; [|discriminate Hrun].
  injection Hrun as -> -> ->.
  apply (abandoned_call_stays_pending (UM := number_uuid) 3 0 demo_config demo_users 7%N (from_secs 30) demo_action VNull
    sending_schedule p ts s 0 later_schedule ts' s' demo_users_api ltac:(repeat constructor) H1 He
    ltac:(repeat constructor) H2).
Defined.
