(* ===== verification/ClientExec.v ===== *)
(** * What each operation does, branch by branch

    Deterministic runs of single operations: the result, the state, the log and the
    tasks spawned, for each way the transport, the timer and the peer may answer. *)

From S2P Require Import Prelude Time Sync Envelope Platform ProtocolErrors Reconnect Keepalive Engine Client ClientInv ClientDemo.
From stdpp Require Import base gmap strings list.

Section Exec.
Context {SM : SignalModel} {UM : UuidModel} {SJ : SerdeJson} {E : Type} {PE : ProtocolError E} {TErr : Type}.

Abbreviation St := (Client (E := E)).
Abbreviation Ch := (Choice (TErr := TErr)).
Abbreviation program A := (prog (St := St) (Ext := Ext (TErr := TErr)) A).

(** ** Requests *)

(** The table of pending requests back as it was, apart from cells nothing points to. *)
Definition same_pending (s s' : St) : Prop :=
  entries (pending_responses s') = entries (pending_responses s) ∧
  log s `prefix_of` log s' ∧ request_senders s' = request_senders s ∧
  notification_senders s' = notification_senders s ∧ pong_waiters s' = pong_waiters s ∧
  closed s' = closed s ∧ sink s' = sink s.

#[local] Ltac same :=
  split; simpl; [by apply delete_insert_id|rewrite <-?app_assoc; auto 9 using prefix_app_r].

(** A request on an open client always ends.  With an encodable request and a fresh
    identifier, a failed write gives the transport's error at once, and a timer that
    fires first gives [Timeout]; in both cases exactly one frame was handed to the
    transport and the table of pending requests is as before. *)
Lemma call_failure_branches timeout A request id payload frame (s : St) :
  closed s = false → entries (pending_responses s) !! id = None →
  ser_request A request = Ok payload →
  to_string (ser_RawCall (mkRawCall MESSAGE_TYPE_CALL (uuid_to_string id) (NAME A) payload)) = Ok frame →
  (∀ err, ∃ s', run (call timeout A request) [CUuid id; CSink (Err err)] s
           = Some (Err (Transport err : ClientError E JsonError TErr), s', [], []) ∧
         same_pending s s' ∧ log s' = log s ++ [LSink (sink s) (SinkSend frame) false]) ∧
  (∃ s', run (call timeout A request) [CUuid id; CSink (Ok tt); CTimer] s
           = Some (Err (Timeout : ClientError E JsonError TErr), s', [], []) ∧
         same_pending s s' ∧
         log s' = log s ++ [LSink (sink s) (SinkSend frame) true; LDelay timeout]).
Proof.
  intros Hc Hid Hv Hf. unfold call, do_send_request. split; [intros err|]; eexists; simpl;
    rewrite Hc; simpl; rewrite Hv; simpl; rewrite Hf; simpl.
  - split; [reflexivity|]. split; [same|done].
  - unfold poll_select. simpl. rewrite lookup_snoc_new. unfold oneshot_poll_wait, oneshot_new.
    rewrite take_signal_new. simpl. split; [reflexivity|].
    split; [same|]. simpl. by rewrite <-app_assoc.
Qed.
(** ** Frames *)

(** What [handle_frame] does with each kind of envelope. *)

Lemma run_handle_CALL frame id action payload h choices (s : St) :
  from_str frame = Ok (ser_RawCall (mkRawCall MESSAGE_TYPE_CALL id action payload)) →
  entries (request_senders s) !! action = Some h →
  run (handle_frame (TErr := TErr) frame) choices s
    = Some (tt, set_requests (table_update h (chan_send (id, payload)) (request_senders s)) s, [], choices).
Proof.
  intros Hf Hh. unfold handle_frame, handle_CALL, from_str_as. rewrite Hf. simpl. rewrite Hh. simpl.
  unfold set_requests, table_update, update_at, chan_send. simpl. repeat f_equal.
  destruct (cells (request_senders s) !! h) as [c|] eqn:Hc; [|by rewrite Hc].
  by rewrite list_lookup_insert_eq, list_insert_insert_eq by (by eapply lookup_lt_Some).
Qed.

Lemma run_handle_CALL_unregistered frame id action payload reply r choices (s : St) :
  from_str frame = Ok (ser_RawCall (mkRawCall MESSAGE_TYPE_CALL id action payload)) →
  entries (request_senders s) !! action = None →
  (let error : E := not_implemented ("Action '" +:+ action +:+ "' is not implemented") in
   to_string (ser_RawError (mkRawError MESSAGE_TYPE_ERROR id (code error) (description error) (details error)))
     = Ok reply) →
  run (handle_frame (TErr := TErr) frame) (CSink r :: choices) s
    = Some (tt, add_log (LSink (sink s) (SinkSend reply) (is_ok r)) s, [], choices).
Proof.
  intros Hf Hh Hr. unfold handle_frame, handle_CALL, from_str_as. rewrite Hf. simpl. rewrite Hh. simpl.
  cbv zeta in Hr. by rewrite Hr.
Qed.

Lemma run_handle_RESULT frame text id payload choices (s : St) :
  from_str frame = Ok (ser_RawResult (mkRawResult MESSAGE_TYPE_RESULT text payload)) →
  uuid_parse_str text = Some id →
  run (handle_frame (TErr := TErr) frame) choices s = Some (tt, settle_pending id (Ok payload) s, [], choices).
Proof.
  intros Hf Hid. unfold handle_frame, handle_RESULT, from_str_as. rewrite Hf. simpl. by rewrite Hid.
Qed.

Lemma run_handle_ERROR frame text id c d x choices (s : St) :
  from_str frame = Ok (ser_RawError (mkRawError MESSAGE_TYPE_ERROR text c d x)) →
  uuid_parse_str text = Some id →
  run (handle_frame (TErr := TErr) frame) choices s
    = Some (tt, settle_pending id (Err (from_wire c d x)) s, [], choices).
Proof.
  intros Hf Hid. unfold handle_frame, handle_ERROR, from_str_as. rewrite Hf. simpl. by rewrite Hid.
Qed.

Lemma run_handle_SEND frame id action payload h choices (s : St) :
  from_str frame = Ok (ser_RawSend (mkRawSend MESSAGE_TYPE_SEND id action payload)) →
  entries (notification_senders s) !! action = Some h →
  run (handle_frame (TErr := TErr) frame) choices s
    = Some (tt, set_notifications (table_update h (chan_send payload) (notification_senders s)) s, [], choices).
Proof.
  intros Hf Hh. unfold handle_frame, handle_SEND, from_str_as. rewrite Hf. simpl. rewrite Hh. simpl.
  unfold set_notifications, table_update, update_at, chan_send. simpl. repeat f_equal.
  destruct (cells (notification_senders s) !! h) as [c|] eqn:Hc; [|by rewrite Hc].
  by rewrite list_lookup_insert_eq, list_insert_insert_eq by (by eapply lookup_lt_Some).
Qed.

(** A payload an envelope carries through text unchanged: exact, and one level of
    nesting below the parser's limit. *)
Definition wire_payload (v : Value) : Prop :=
  wire_exact v = true ∧ value_depth v < RECURSION_LIMIT.

Lemma envelope_parses items payload text :
  wire_payload payload → forallb wire_exact items = true → Forall (λ v, value_depth v = 0) items →
  to_string (VArray (items ++ [payload])) = Ok text → from_str text = Ok (VArray (items ++ [payload])).
Proof.
  intros [He Hd] Hi Hz Ht. eapply from_str_to_string; [..|exact Ht].
  - simpl. rewrite forallb_app, Hi. simpl. by rewrite He.
  - simpl. clear Ht Hi. induction Hz as [|v items Hv _ IH]; simpl; lia.
Qed.

(** The value an outcome travels as. *)
Definition outcome_value (A : Action) (o : result (Response A) E) : result (result Value E) JsonError :=
  match o with
  | Ok r => result_map Ok (ser_response A r)
  | Err e => Ok (Err e)
  end.

Definition outcome_exact (v : result Value E) : Prop :=
  match v with Ok v => wire_payload v | Err e => wire_payload (details e) end.

Lemma reply_settles `{!ProtocolErrorLaws E} A (o : result (Response A) E) v id reply choices (s : St) :
  outcome_value A o = Ok v → outcome_exact v →
  response_frame (ser_response A) o (uuid_to_string id) = Some reply →
  run (handle_frame (TErr := TErr) reply) choices s = Some (tt, settle_pending id v s, [], choices).
Proof.
  destruct o as [r|e]; simpl.
  - destruct (ser_response A r) as [x|]; simpl; [|done]. intros [= <-] Hx.
    destruct (to_string _) as [text|] eqn:Ht; [|done]. intros [= <-].
    eapply run_handle_RESULT; [|apply uuid_parse_to_string].
    by apply (envelope_parses [VNumber (PosInt _); VString _] x); [|simpl|repeat constructor|].
  - intros [= <-] Hx. destruct (to_string _) as [text|] eqn:Ht; [|done]. intros [= <-].
    rewrite <-(from_wire_code e) at 1. eapply run_handle_ERROR; [|apply uuid_parse_to_string].
    by apply (envelope_parses [VNumber (PosInt _); VString _; VString _; VString _] (details e));
      [|simpl|repeat constructor|].
Qed.

(** An exchange is faithful end to end.  The frame [call] sends reaches the handler
    registered for its action on the other side with the same message identifier and
    payload, and nothing is sent for it; and whatever the handler answers, its response
    or its error, the frame that carries the answer resolves, on the calling side,
    exactly the request with that identifier, with exactly that response payload or
    that error. *)
Lemma exchange_roundtrip `{!ProtocolErrorLaws E} A request payload id frame h ch (t : St) :
  ser_request A request = Ok payload → wire_payload payload →
  to_string (ser_RawCall (mkRawCall MESSAGE_TYPE_CALL (uuid_to_string id) (NAME A) payload)) = Ok frame →
  entries (request_senders t) !! NAME A = Some h → cells (request_senders t) !! h = Some ch →
  (∃ t', run (handle_frame (TErr := TErr) frame) [] t = Some (tt, t', [], []) ∧
     cells (request_senders t') !! h = Some (chan_send (uuid_to_string id, payload) ch) ∧
     log t' = log t) ∧
  (∀ (o : result (Response A) E) v reply (s : St),
     outcome_value A o = Ok v → outcome_exact v →
     response_frame (ser_response A) o (uuid_to_string id) = Some reply →
     run (handle_frame (TErr := TErr) reply) [] s = Some (tt, settle_pending id v s, [], [])).
Proof.
  intros Hreq Hp Hf Hh Hch. split.
  - eexists. split; [|split].
    + apply (run_handle_CALL frame (uuid_to_string id) (NAME A) payload h); [|exact Hh].
      by apply (envelope_parses [VNumber (PosInt _); VString _; VString _] payload);
        [|simpl|repeat constructor|].
    + simpl. by rewrite lookup_update_at_eq, Hch.
    + done.
  - intros o v reply s. apply reply_settles.
Qed.

(** A notification arrives.  [send_notification] writes one frame and returns once
    the transport has taken it, without waiting for an answer and without a pending
    entry; on the other side that frame puts exactly its payload into the channel of
    the handler registered for its action, sends nothing, and the handler's task, if it
    had nothing else to do, calls the user's callback with the payload decoded. *)
Lemma notification_roundtrip A x payload y id frame h ch (s t : St) :
  closed s = false → ser_payload A x = Ok payload → wire_payload payload →
  de_payload A payload = Ok y →
  to_string (ser_RawSend (mkRawSend MESSAGE_TYPE_SEND (uuid_to_string id) (SEND_NAME A) payload)) = Ok frame →
  entries (notification_senders t) !! SEND_NAME A = Some h →
  cells (notification_senders t) !! h = Some ch → queue ch = [] →
  run (send_notification A x) [CUuid id; CSink (Ok tt)] s
    = Some (Ok tt : result unit (ClientError E JsonError TErr),
            add_log (LSink (sink s) (SinkSend frame) true) s, [], []) ∧
  ∃ t1 t2,
    run (handle_frame (TErr := TErr) frame) [] t = Some (tt, t1, [], []) ∧ log t1 = log t ∧
    cells (notification_senders t1) !! h = Some (chan_send payload ch) ∧ log t2 = log t ∧
    ∀ fuel callback c choices,
      run (notification_loop (TErr := TErr) (S fuel) A callback h) (c :: choices) t1
        = run (bind (callback y) (λ _, notification_loop fuel A callback h)) choices t2.
Proof.
  intros Hc Hx Hp Hy Hf Hh Hch Hq. split.
  { unfold send_notification. simpl. rewrite Hc. simpl. rewrite Hx. simpl. by rewrite Hf. }
  set (t1 := set_notifications (table_update h (chan_send payload) (notification_senders t)) t).
  assert (Hcell : cells (notification_senders t1) !! h = Some (chan_send payload ch))
    by (simpl; by rewrite lookup_update_at_eq, Hch).
  set (drained := mkChan ([] : list Value) (signal (chan_send payload ch)) (chan_closed ch)).
  exists t1, (set_notifications (table_update h (λ _, drained) (notification_senders t1)) t1).
  split_and!; [|done|exact Hcell|done|].
  - apply (run_handle_SEND frame (uuid_to_string id) (SEND_NAME A) payload h); [|exact Hh].
    by apply (envelope_parses [VNumber (PosInt _); VString _; VString _] payload);
      [|simpl|repeat constructor|].
  - intros fuel callback c choices. cbn [notification_loop bind await run notification_recv chan_fut poll].
    rewrite Hcell. unfold chan_check. simpl. rewrite Hq. simpl. by rewrite Hy.
Qed.

(** C22: a CALL nobody handles is answered, once.  For an action without a registered
    handler the only effect is one write: a CALLERROR with the CALL's own identifier and
    the code NotImplemented.  Its description is the sentence the error type builds
    around a text that is itself that sentence. *)
Theorem unhandled_call_is_refused `{!ProtocolErrorLaws E} frame id action payload r (s : St) :
  from_str frame = Ok (ser_RawCall (mkRawCall MESSAGE_TYPE_CALL id action payload)) →
  entries (request_senders s) !! action = None →
  ∃ reply x,
    to_string (ser_RawError (mkRawError MESSAGE_TYPE_ERROR id "NotImplemented"
      ("Action 'Action '" +:+ action +:+ "' is not implemented' is not implemented") x)) = Ok reply ∧
    run (handle_frame (TErr := TErr) frame) [CSink r] s
      = Some (tt, add_log (LSink (sink s) (SinkSend reply) (is_ok r)) s, [], []).
Proof.
  intros Hf Hh.
  set (error := not_implemented (E := E) ("Action '" +:+ action +:+ "' is not implemented")).
  destruct (to_string_total (ser_RawError (mkRawError MESSAGE_TYPE_ERROR id (code error)
    (description error) (details error)))) as [reply Hreply].
  exists reply, (details error). split; [|by eapply run_handle_CALL_unregistered].
  rewrite <-Hreply. unfold error. rewrite code_not_implemented, description_not_implemented.
  by rewrite <-!string_app_assoc.
Qed.

Lemma settle_pending_frame id outcome (s : St) :
  let s' := settle_pending id outcome s in
  log s' = log s ∧ sink s' = sink s ∧ closed s' = closed s ∧
  entries (pending_responses s') ⊆ entries (pending_responses s) ∧
  entries (request_senders s') = entries (request_senders s) ∧
  entries (notification_senders s') = entries (notification_senders s).
Proof.
  unfold settle_pending. destruct (entries (pending_responses s) !! id); simpl; [|done].
  split_and!; try done. apply delete_subseteq.
Qed.

(** Nothing else the peer sends is answered.  Every other frame, well formed or not,
    is handled to the end without a write, without waiting for anything, and without
    adding a pending request or touching the connection. *)
Lemma other_frames_are_not_answered frame choices (s : St) :
  (∀ id action payload,
     from_str frame = Ok (ser_RawCall (mkRawCall MESSAGE_TYPE_CALL id action payload)) →
     is_Some (entries (request_senders s) !! action)) →
  ∃ s', run (handle_frame (TErr := TErr) frame) choices s = Some (tt, s', [], choices) ∧
    log s' = log s ∧ sink s' = sink s ∧ closed s' = closed s ∧
    entries (pending_responses s') ⊆ entries (pending_responses s) ∧
    entries (request_senders s') = entries (request_senders s) ∧
    entries (notification_senders s') = entries (notification_senders s).
Proof.
  intros Hreg. unfold handle_frame.
  destruct (from_str frame) as [v|e] eqn:Hv; [|by exists s].
  destruct v as [| | | |[|[| |[t| |]| | |] items]|]; try by exists s. simpl.
  destruct (Z.eqb_spec t MESSAGE_TYPE_CALL) as [->|]; [|destruct (Z.eqb_spec t MESSAGE_TYPE_RESULT);
    [|destruct (Z.eqb_spec t MESSAGE_TYPE_ERROR); [|destruct (Z.eqb_spec t MESSAGE_TYPE_SEND)]]];
    [..|by exists s].
  - unfold handle_CALL. destruct (from_str_as _ _) as [c|] eqn:Hc; [|by exists s].
    apply from_str_as_inv in Hc as (v & Hv' & ->%de_RawCall_inv). rewrite Hv in Hv'.
    simplify_eq/=. destruct (Hreg (call_id c) (call_action c) (call_payload c)) as [h Hh]; [done|].
    rewrite Hh. simpl. eexists. by split.
  - unfold handle_RESULT. destruct (from_str_as _ _) as [r|]; [|by exists s].
    destruct (uuid_parse_str _) as [id|]; [|by exists s]. eexists. split; [done|].
    apply settle_pending_frame.
  - unfold handle_ERROR. destruct (from_str_as _ _) as [r|]; [|by exists s].
    destruct (uuid_parse_str _) as [id|]; [|by exists s]. eexists. split; [done|].
    apply settle_pending_frame.
  - unfold handle_SEND. destruct (from_str_as _ _) as [c|]; [|by exists s]. simpl.
    destruct (entries (notification_senders s) !! _) as [h|]; [|by exists s]. simpl.
    eexists. by split.
Qed.

(** ** Handlers *)

Section Handler.
Context (A : Action) (f : Request A → result (Response A) E).

(** The frame the handler answers one dispatched CALL with. *)
Definition reply_to (item : string * Value) : option string :=
  response_frame (ser_response A)
    (match de_request A item.2 with
     | Ok request => f request
     | Err _ => Err (not_implemented ("Failed to parse payload for " +:+ NAME A))
     end) item.1.

(** What is written while the handler drains its queue, and the answers the transport
    gives meanwhile. *)
Definition replies (conn : nat) (items : list (string * Value)) : list LogEntry :=
  (λ frame, LSink conn (SinkSend frame) true) <$> omap reply_to items.

Definition drain_choices (items : list (string * Value)) : list Ch :=
  concat ((λ item, CTimer :: match reply_to item with Some _ => [CSink (Ok tt)] | None => [] end) <$> items).

Lemma run_handle_call item rest (s : St) :
  run (handle_call A (λ r, Ret (f r)) item.1 item.2)
      (match reply_to item with Some _ => [CSink (Ok tt : result unit TErr)] | None => [] end ++ rest) s
    = Some (tt, match reply_to item with
                | Some frame => add_log (LSink (sink s) (SinkSend frame) true) s
                | None => s
                end, [], rest).
Proof.
  unfold handle_call, reply_to. destruct (de_request A item.2); cbn [bind]; unfold do_send_response;
    by destruct (response_frame _ _ _).
Qed.

(** One turn of the handler's loop, on a channel with a queued CALL. *)
Lemma run_handler_turn fuel h item items sg cl rest (s : St) :
  cells (request_senders s) !! h = Some (mkChan (item :: items) sg cl) →
  let s1 := set_requests (table_update h (λ _, mkChan items sg cl) (request_senders s)) s in
  run (handler_loop (S fuel) A (λ r, Ret (f r)) h)
      ((CTimer : Ch) :: match reply_to item with Some _ => [CSink (Ok tt)] | None => [] end ++ rest) s
    = run (handler_loop fuel A (λ r, Ret (f r)) h) rest
        (match reply_to item with
         | Some frame => add_log (LSink (sink s) (SinkSend frame) true) s1
         | None => s1
         end).
Proof.
  intros Hch s1. cbn [handler_loop]. rewrite run_bind. simpl. rewrite Hch. simpl.
  destruct item as [id payload]. rewrite run_bind, (run_handle_call (id, payload)).
  by destruct (run _ _ _) as [[[[]]]|].
Qed.

Lemma run_handler_drains items h sg (s : St) :
  cells (request_senders s) !! h = Some (mkChan items sg true) →
  ∃ s', run (handler_loop (S (length items)) A (λ r, Ret (f r)) h)
            (drain_choices items ++ [CTimer]) s = Some (tt, s', [], []) ∧
    log s' = log s ++ replies (sink s) items ∧
    cells (request_senders s') !! h = Some (mkChan [] sg true) ∧
    entries (request_senders s') = entries (request_senders s).
Proof.
  revert s. induction items as [|item items IH]; intros s Hch.
  - eexists. simpl. rewrite Hch. split; [reflexivity|]. simpl. rewrite app_nil_r.
    by rewrite lookup_update_at_eq, Hch.
  - set (s1 := set_requests (table_update h (λ _, mkChan items sg true) (request_senders s)) s).
    set (s2 := match reply_to item with
               | Some frame => add_log (LSink (sink s) (SinkSend frame) true) s1 | None => s1 end).
    assert (Hch2 : cells (request_senders s2) !! h = Some (mkChan items sg true)).
    { unfold s2, s1. destruct (reply_to item); simpl; by rewrite lookup_update_at_eq, Hch. }
    destruct (IH s2 Hch2) as (s' & Hrun & Hlog & Hcell & Hent). exists s'.
    unfold drain_choices. cbn [length fmap list_fmap concat]. rewrite <-app_assoc. cbn [app].
    rewrite (run_handler_turn _ h item items sg true) by done. split; [exact Hrun|].
    split; [|split; [exact Hcell|]].
    + rewrite Hlog. unfold s2, s1, replies. simpl. destruct (reply_to item); simpl; [|done].
      by rewrite <-app_assoc.
    + rewrite Hent. unfold s2, s1. by destruct (reply_to item).
Qed.

End Handler.

Lemma register_chan_replaces {T} name h (t : Table string (Chan T)) :
  entries t !! name = Some h →
  register_chan name t = (length (cells t), table_update h chan_close (table_insert name chan_new t).2).
Proof. intros Hh. unfold register_chan. simpl. by rewrite Hh. Qed.

(** C23: replacing a handler loses no call.  Registering a handler for an action that
    already has one installs a new, open, empty channel and closes the old one; the old
    handler's task then answers every CALL that was already dispatched to it, in the
    order they arrived and one reply each, and ends. *)
Theorem replaced_handler_drains_and_ends fuel (A : Action)
    (f : Request A → result (Response A) E) (callback : Request A → program (result (Response A) E))
    items sg h (s : St) :
  entries (request_senders s) !! NAME A = Some h →
  cells (request_senders s) !! h = Some (mkChan items sg false) →
  ∃ h' s1 s2,
    run (on fuel A callback) [] s = Some (tt, s1, [handler_loop fuel A callback h'], []) ∧
    entries (request_senders s1) !! NAME A = Some h' ∧ h' ≠ h ∧
    cells (request_senders s1) !! h' = Some chan_new ∧
    run (handler_loop (S (length items)) A (λ r, Ret (f r)) h)
      (drain_choices A f items ++ [CTimer]) s1 = Some (tt, s2, [], []) ∧
    log s2 = log s ++ replies A f (sink s) items.
Proof.
  intros Hh Hch. pose proof (lookup_lt_Some _ _ _ Hch) as Hlt.
  pose proof (register_chan_replaces (NAME A) h (request_senders s) Hh) as Hreg.
  set (t := table_update h chan_close (table_insert (NAME A) chan_new (request_senders s)).2) in Hreg.
  assert (Hold : cells t !! h = Some (mkChan items (signal_signal () sg) true)).
  { simpl. by rewrite lookup_update_at_eq, lookup_snoc_old, Hch. }
  destruct (run_handler_drains A f items h _ (set_requests t s) Hold) as (s2 & Hrun & Hlog & _).
  exists (length (cells (request_senders s))), (set_requests t s), s2. split_and!; try done.
  - unfold on, register_request, register_chan in *. simpl in *. by rewrite Hreg.
  - apply lookup_insert_eq.
  - lia.
  - simpl. rewrite lookup_update_at_ne by lia. apply lookup_snoc_new.
Qed.

End Exec.

(** ** Witnesses *)

#[local] Existing Instances slot_signal number_uuid tree_json.

Definition demo_message_id : string := uuid_to_string 7%N.

Definition demo_request_frame : string :=
  demo_text (ser_RawCall (mkRawCall MESSAGE_TYPE_CALL demo_message_id "Heartbeat" VNull)).

(** A client with a handler for the action, and one CALL waiting in its queue. *)
Definition demo_handler_state : DemoSt :=
  set_requests (mkTable {["Heartbeat"%string := 0]} [mkChan [("1"%string, VNull)] signal_new false]
    ["Heartbeat"%string]) demo_client.1.

Lemma unhandled_call_is_refused_witness :
  ∃ reply x,
    to_string (ser_RawError (mkRawError MESSAGE_TYPE_ERROR demo_message_id "NotImplemented"
      "Action 'Action 'Heartbeat' is not implemented' is not implemented" x)) = Ok reply ∧
    run (handle_frame (TErr := unit) demo_request_frame) [CSink (Ok tt)] demo_client.1
      = Some (tt, add_log (LSink 0 (SinkSend reply) true) demo_client.1, [], []).
Proof.
  apply (unhandled_call_is_refused (UM := number_uuid) (E := V1_6.OCPP1_6Error) (TErr := unit) demo_request_frame
           demo_message_id "Heartbeat" VNull (Ok tt) demo_client.1); vm_compute; reflexivity.
Defined.

Lemma replaced_handler_drains_and_ends_witness :
  ∃ h' (s1 s2 : DemoSt),
    run (on 1 demo_action (λ r, Ret (Ok r))) [] demo_handler_state
      = Some (tt, s1, [handler_loop (TErr := unit) 1 demo_action (λ r, Ret (Ok r)) h'], []) ∧
    log s2 = replies demo_action Ok 0 [("1"%string, VNull)].
Proof.
  destruct (replaced_handler_drains_and_ends (TErr := unit) 1 demo_action Ok (λ r, Ret (Ok r))
    [("1"%string, VNull)] signal_new 0 demo_handler_state) as (h' & s1 & s2 & Hon & _ & _ & _ & _ & Hlog);
    [reflexivity|reflexivity|].
  exists h', s1, s2. split; [exact Hon|exact Hlog].
Defined.


(** A client with a handler for a notification that has nothing to do. *)
Definition demo_send_action : SendAction := {|
  SEND_NAME := "NotifyPeriodicEventStream"%string; Payload := Value; ser_payload := Ok; de_payload := Ok |}.

Definition demo_notified : DemoSt :=
  set_notifications (mkTable {["NotifyPeriodicEventStream"%string := 0]} [mkChan [] signal_new false]
    ["NotifyPeriodicEventStream"%string]) demo_client.1.

Definition demo_send_frame : string :=
  demo_text (ser_RawSend (mkRawSend MESSAGE_TYPE_SEND (uuid_to_string 7%N) "NotifyPeriodicEventStream" VNull)).

Lemma notification_roundtrip_witness :
  run (send_notification demo_send_action VNull) [CUuid 7%N; CSink (Ok tt)] demo_client.1
    = Some (Ok tt : result unit (ClientError V1_6.OCPP1_6Error JsonError unit),
            add_log (LSink 0 (SinkSend demo_send_frame) true) demo_client.1, [], []).
Proof.
  destruct (notification_roundtrip (UM := number_uuid) (E := V1_6.OCPP1_6Error) (TErr := unit)
    demo_send_action VNull VNull VNull 7%N demo_send_frame 0 (mkChan [] signal_new false)
    demo_client.1 demo_notified) as [Hsend _];
    [reflexivity|reflexivity|split; [reflexivity|simpl; unfold RECURSION_LIMIT; lia]|reflexivity..|].
  exact Hsend.
Defined.
