(* ===== verification/Lifecycle.v ===== *)
(** * Shutdown, reconnection, keepalive

    What [disconnect] does and what a closed client refuses, how the read loop ends and
    redials, and when the keepalive task gives a connection up. *)

From S2P Require Import Prelude Time Sync Envelope Platform ProtocolErrors Reconnect Keepalive Engine Client ClientInv ClientDemo ClientExec.
From stdpp Require Import base gmap strings list.

Section Lifecycle.
Context {SM : SignalModel} {UM : UuidModel} {SJ : SerdeJson} {E : Type} {PE : ProtocolError E} {TErr : Type}.

Abbreviation St := (Client (E := E)).
Abbreviation Ch := (Choice (TErr := TErr)).
Abbreviation program A := (prog (St := St) (Ext := Ext (TErr := TErr)) A).

(** ** Shutdown *)

(** The state [disconnect] leaves behind: closed, both loops told to wake up. *)
Definition shut_down (s : St) : St :=
  set_keepalive (notify_changed (keepalive s))
    (set_force (notify_notify (force_reconnect_signal s)) (add_log LClosed (set_closed true s))).

(** [disconnect] closes once and for all.  On an open client it sets the closed
    flag, wakes the read loop and the keepalive task, closes the transport exactly once
    and reports how that went; on a closed client it does nothing and succeeds. *)
Lemma disconnect_effect r choices (s : St) :
  (closed s = false →
   run disconnect (CSink r :: choices) s
     = Some (map_err Transport r, add_log (LSink (sink s) SinkClose (is_ok r)) (shut_down s), [], choices)) ∧
  (closed s = true →
   run disconnect choices s = Some (Ok tt : result unit (ClientError E JsonError TErr), s, [], choices)).
Proof. split; intros Hc; unfold disconnect; simpl; by rewrite Hc. Qed.

(** A closed client refuses at once.  After a shutdown every [call],
    [send_notification] and [send_ping] returns [Closed] without drawing an identifier,
    writing, waiting, or changing anything, and [force_reconnect] does nothing. *)
Lemma closed_client_refuses timeout A request A' payload choices (s : St) :
  closed s = true →
  run (call timeout A request) choices s = Some (Err (Closed : ClientError E JsonError TErr), s, [], choices) ∧
  run (send_notification A' payload) choices s = Some (Err (Closed : ClientError E JsonError TErr), s, [], choices) ∧
  run (send_ping timeout) choices s = Some (Err (Closed : ClientError E JsonError TErr), s, [], choices) ∧
  run (force_reconnect (TErr := TErr)) choices s = Some (tt, s, [], choices).
Proof.
  intros Hc. unfold call, do_send_request, send_notification, send_ping, send_ping_with_timeout,
    force_reconnect. simpl. by rewrite Hc.
Qed.

(** ** Pings *)

(** A ping never stays behind.  On an open client whose next token is not in use, a
    ping whose write fails, and one whose pong does not come in time, both return the
    corresponding error, having written exactly that ping, with the table of outstanding
    pings as before and the next token taken from a counter that wraps at 64 bits. *)
Lemma ping_failure_branches timeout (s : St) :
  let p := pong_waiters s in
  closed s = false → entries (waiters p) !! next_token p = None →
  (∀ err, ∃ s', run (send_ping timeout) [CSink (Err err)] s
           = Some (Err (Transport err : ClientError E JsonError TErr), s', [], []) ∧
         entries (waiters (pong_waiters s')) = entries (waiters p) ∧
         entries (pending_responses s') = entries (pending_responses s) ∧
         next_token (pong_waiters s') = u64_wrapping_add (next_token p) 1 ∧
         log s' = log s ++ [LSink (sink s) (SinkPing (token_bytes (next_token p))) false]) ∧
  (∃ s', run (send_ping timeout) [CSink (Ok tt); CTimer] s
           = Some (Err (Timeout : ClientError E JsonError TErr), s', [], []) ∧
         entries (waiters (pong_waiters s')) = entries (waiters p) ∧
         entries (pending_responses s') = entries (pending_responses s) ∧
         next_token (pong_waiters s') = u64_wrapping_add (next_token p) 1 ∧
         log s' = log s ++ [LSink (sink s) (SinkPing (token_bytes (next_token p))) true; LDelay timeout]).
Proof.
  intros p Hc Ht. unfold send_ping, send_ping_with_timeout.
  split; [intros err|]; eexists; simpl; rewrite Hc; simpl.
  - split; [reflexivity|]. simpl. by rewrite delete_insert_id.
  - unfold poll_select. simpl. rewrite lookup_snoc_new. unfold oneshot_poll_wait, oneshot_new.
    rewrite take_signal_new. simpl. split; [reflexivity|]. simpl. rewrite delete_insert_id by done.
    by rewrite <-app_assoc.
Qed.

(** [p], answered so, fails with [e]: nothing is spawned, what is outstanding is as
    before, and the transport and the timer have seen exactly [seen]. *)
Definition fails_with {R} (p : program (result R (ClientError E JsonError TErr))) (choices : list Ch)
    (e : ClientError E JsonError TErr) (seen : list LogEntry) (s : St) : Prop :=
  ∃ s', run p choices s = Some (Err e, s', [], []) ∧
    entries (pending_responses s') = entries (pending_responses s) ∧
    entries (waiters (pong_waiters s')) = entries (waiters (pong_waiters s)) ∧
    log s' = log s ++ seen.

(** C29: operations fail cleanly.  On a closed client every request, notification and
    ping returns [Closed] at once, and nothing at all happens.  On an open one, a request
    and a ping whose write is refused return the transport's error, and those nobody
    answers in time return [Timeout] when the timer fires: exactly one frame or ping has
    been handed to the transport, and the tables of outstanding requests and pings are
    as they were before. *)
Theorem operations_fail_cleanly timeout A request A' payload' choices id payload frame (s : St) :
  (closed s = true →
   run (call timeout A request) choices s = Some (Err (Closed : ClientError E JsonError TErr), s, [], choices) ∧
   run (send_notification A' payload') choices s = Some (Err (Closed : ClientError E JsonError TErr), s, [], choices) ∧
   run (send_ping timeout) choices s = Some (Err (Closed : ClientError E JsonError TErr), s, [], choices) ∧
   run (force_reconnect (TErr := TErr)) choices s = Some (tt, s, [], choices)) ∧
  (closed s = false → entries (pending_responses s) !! id = None → ser_request A request = Ok payload →
   to_string (ser_RawCall (mkRawCall MESSAGE_TYPE_CALL (uuid_to_string id) (NAME A) payload)) = Ok frame →
   (∀ err, fails_with (call timeout A request) [CUuid id; CSink (Err err)] (Transport err)
             [LSink (sink s) (SinkSend frame) false] s) ∧
   fails_with (call timeout A request) [CUuid id; CSink (Ok tt); CTimer] Timeout
     [LSink (sink s) (SinkSend frame) true; LDelay timeout] s) ∧
  (let ping := SinkPing (token_bytes (next_token (pong_waiters s))) in
   closed s = false → entries (waiters (pong_waiters s)) !! next_token (pong_waiters s) = None →
   (∀ err, fails_with (send_ping timeout) [CSink (Err err)] (Transport err) [LSink (sink s) ping false] s) ∧
   fails_with (send_ping timeout) [CSink (Ok tt); CTimer] Timeout
     [LSink (sink s) ping true; LDelay timeout] s).
Proof.
  split; [apply closed_client_refuses|]. unfold fails_with. split.
  - intros Hc Hid Hv Hf. destruct (call_failure_branches (TErr := TErr) timeout A request id payload frame s Hc Hid Hv Hf)
      as [Hwrite (s2 & Hrun2 & (Hp2 & _ & _ & _ & Hw2 & _) & Hlog2)]. split.
    + intros err. destruct (Hwrite err) as (s1 & Hrun & (Hp & _ & _ & _ & Hw & _) & Hlog).
      exists s1. by rewrite Hw.
    + exists s2. by rewrite Hw2.
  - intros Hc Ht. destruct (ping_failure_branches timeout s Hc Ht) as [Hwrite (s2 & Hrun2 & Hw2 & Hp2 & _ & Hlog2)].
    split.
    + intros err. destruct (Hwrite err) as (s1 & Hrun & Hw & Hp & _ & Hlog). by exists s1.
    + by exists s2.
Qed.

Lemma token_of_token_bytes token : is_u64 token → token_of (token_bytes token) = Some token.
Proof.
  intros Ht. unfold token_of, token_bytes. rewrite decide_True by apply length_be_bytes.
  rewrite be_value_be_bytes, Z.mod_small; [done|]. revert Ht. unfold is_u64, u64_max. lia.
Qed.

Lemma token_of_range payload token : token_of payload = Some token → length payload = 8 ∧ is_u64 token.
Proof.
  unfold token_of. case_decide as Hl; [|done]. intros [= <-]. split; [done|].
  pose proof (be_value_range payload) as Hr. rewrite Hl in Hr. unfold is_u64, u64_max. lia.
Qed.

(** Pongs are matched by their token, not by their order.  The payload of the ping
    with a given token is answered only by that payload: it removes and completes that
    ping and no other, whichever other pings are outstanding; and a pong that is not
    eight bytes long, or carries a token nobody waits for, changes nothing at all. *)
Lemma pong_matches_its_ping token payload h (s : St) :
  is_u64 token →
  (entries (waiters (pong_waiters s)) !! token = Some h →
   settle_pong (token_bytes token) s =
     set_pongs (mkPongState (next_token (pong_waiters s))
       (table_update h (oneshot_send tt) (table_remove token (waiters (pong_waiters s))))) s) ∧
  (length payload ≠ 8 ∨
   (∀ token', is_u64 token' → payload = token_bytes token' →
      entries (waiters (pong_waiters s)) !! token' = None) →
   settle_pong payload s = s).
Proof.
  intros Ht. split.
  - intros Hh. unfold settle_pong. by rewrite token_of_token_bytes, Hh.
  - intros Hno. unfold settle_pong. destruct (token_of payload) as [t|] eqn:Hp; [|done].
    pose proof (token_of_range _ _ Hp) as [Hl Hr]. apply token_of_bytes in Hp.
    destruct Hno as [Hno|Hno]; [lia|]. by rewrite (Hno t).
Qed.

(** ** Redialling *)

Section Redial.
Context (p : ReconnectPolicy) (e : TErr).

(** The delay before an attempt, given the identifier drawn for its jitter. *)
Definition delay_at (attempt : Z) (u : Uuid) : Duration :=
  default (from_secs 0) (jittered_delay_for p attempt (if jitter p then uuid_as_u128 u else 0%Z)).

Definition draw (u : Uuid) : list Ch := if jitter p then [CUuid u] else [].

(** A sequence of attempts, one identifier each, all of which fail but the last: what
    is logged, and what the timer and the reconnector answer. *)
Fixpoint redial_log (attempt : Z) (us : list Uuid) : list LogEntry :=
  match us with
  | [] => []
  | u :: us =>
      LDelay (delay_at attempt u) :: LDial (match us with [] => true | _ => false end)
        :: redial_log (u32_saturating_add attempt 1) us
  end.

Fixpoint redial_choices (conn : nat) (us : list Uuid) : list Ch :=
  match us with
  | [] => []
  | u :: us =>
      draw u ++ CTimer :: CDial (match us with [] => Ok conn | _ => Err e end) :: redial_choices conn us
  end.

Fixpoint attempts_after (attempt : Z) (n : nat) : Z :=
  match n with O => attempt | S n => attempts_after (u32_saturating_add attempt 1) n end.

Lemma run_next_delay attempt u rest (s : St) :
  valid_policy p →
  run (next_delay (TErr := TErr) p attempt) (draw u ++ rest) s = Some (delay_at attempt u, s, [], rest).
Proof.
  intros Hp. unfold next_delay, delay_at, draw.
  destruct (jittered_delay_range p attempt (if jitter p then uuid_as_u128 u else 0%Z) Hp)
    as [_ (d & Hd & _)].
  rewrite Hd. destruct (jitter p); simpl; by rewrite Hd.
Qed.

(** One attempt: its delay elapses, the client is open, the dial answers. *)
Lemma run_redial_attempt fuel attempt u r rest (s : St) :
  valid_policy p → closed s = false →
  let s1 := add_log (LDial (is_ok r)) (add_log (LDelay (delay_at attempt u)) s) in
  run (redial_loop (S fuel) p attempt) (draw u ++ CTimer :: CDial r :: rest) s =
    match r with
    | Ok conn => Some (Some (conn, u32_saturating_add attempt 1),
                       set_reconnect_registry (notify_all (reconnect_registry s)) (set_sink conn s1), [], rest)
    | Err _ => run (redial_loop fuel p (u32_saturating_add attempt 1)) rest s1
    end.
Proof.
  intros Hp Hc s1. cbn [redial_loop]. rewrite run_bind, run_next_delay by done. simpl.
  unfold poll_select. simpl. rewrite Hc. simpl. destruct r; simpl; [done|].
  by destruct (run _ _ _) as [[[[]]]|].
Qed.

End Redial.

(** C25: redialling backs off and ends with the first dial that succeeds.  However many
    attempts fail first, each one waits for the (jittered) delay the policy gives for
    its number, counted on from the attempts already made and saturating at 32 bits,
    and then dials once; the connection of the first success is installed, and the
    subscribers are told exactly once. *)
Theorem redial_backs_off p e conn u us attempt (s : St) :
  valid_policy p → closed s = false →
  ∃ s', run (redial_loop (S (length us)) p attempt) (redial_choices p e conn (u :: us)) s
          = Some (Some (conn, attempts_after attempt (S (length us))), s', [], []) ∧
    log s' = log s ++ redial_log p attempt (u :: us) ∧ sink s' = conn ∧
    reconnect_registry s' = notify_all (reconnect_registry s).
Proof.
  intros Hp. revert attempt u s. induction us as [|u' us IH]; intros attempt u s Hc.
  - eexists. cbn [redial_choices length]. rewrite run_redial_attempt by done. split; [done|].
    simpl. by rewrite <-app_assoc.
  - set (s1 := add_log (LDial false) (add_log (LDelay (delay_at p attempt u)) s)).
    destruct (IH (u32_saturating_add attempt 1) u' s1 Hc) as (s' & Hrun & Hlog & Hsink & Hreg).
    exists s'. cbn [redial_choices length]. rewrite run_redial_attempt by done.
    split; [exact Hrun|]. split; [|done]. rewrite Hlog. simpl. by rewrite <-!app_assoc.
Qed.

(** ** Connections that end *)

Definition pongs_cleared (s : St) : St :=
  set_pongs (mkPongState (next_token (pong_waiters s)) (table_clear (waiters (pong_waiters s)))) s.

(** A connection that reached its end is redialled with the counter it left. *)
Lemma run_turn_redials fuel timeout p stream attempt a choices more s1 (s : St) :
  run (read_connection (TErr := TErr) fuel true stream attempt) choices s = Some ((Eof, a), s1, [], more) →
  closed s1 = false →
  run (connection_turn fuel timeout true p stream attempt) choices s
    = run (redial_loop fuel p a) more (pongs_cleared s1).
Proof.
  intros Hr Hc. unfold connection_turn. rewrite run_bind, Hr. simpl. rewrite Hc. simpl.
  fold (pongs_cleared s1). by destruct (run (redial_loop fuel p a) more _) as [[[[]]]|].
Qed.

Lemma run_read_eof fuel stream attempt more (s : St) :
  run (read_connection (TErr := TErr) (S fuel) true stream attempt) (CRecv (Ok None) :: more) s
    = Some ((Eof, attempt), s, [], more).
Proof. done. Qed.

Lemma run_read_event fuel stream attempt event choices s1 more (s : St) :
  run (handle_event (TErr := TErr) event) choices (add_log (LRecv event) s) = Some (tt, s1, [], []) →
  run (read_connection (S fuel) true stream attempt) (CRecv (Ok (Some event)) :: choices ++ more) s
    = run (read_connection fuel true stream 0) more s1.
Proof.
  intros Hev. cbn [read_connection]. rewrite run_bind. simpl.
  rewrite run_bind, (run_more _ _ more _ _ _ _ _ Hev). simpl.
  by destruct (run (read_connection fuel true stream 0) more s1) as [[[[]]]|].
Qed.

(** A successful dial is no proof of a working connection.  When the peer accepts a
    connection and closes it before anything arrives, the backoff goes on from where it
    was: the next delay is that of the next attempt number, and outstanding pings are
    forgotten.  Only an event received resets it: the delay after such a connection is
    the first one again. *)
Lemma backoff_resets_only_on_traffic fuel timeout p stream attempt u conn e (s : St) :
  valid_policy p → closed s = false →
  (∃ s', run (connection_turn (S fuel) timeout true p stream attempt)
             (CRecv (Ok None) :: redial_choices p e conn [u]) s
           = Some (Some (conn, u32_saturating_add attempt 1), s', [], []) ∧
     log s' = log s ++ [LDelay (delay_at p attempt u); LDial true] ∧
     entries (waiters (pong_waiters s')) = ∅) ∧
  (∀ event choices s1,
     run (handle_event event) choices (add_log (LRecv event) s) = Some (tt, s1, [], []) →
     closed s1 = false →
     ∃ s', run (connection_turn (S (S fuel)) timeout true p stream attempt)
             (CRecv (Ok (Some event)) :: choices ++ CRecv (Ok None) :: redial_choices p e conn [u]) s
           = Some (Some (conn, 1%Z), s', [], []) ∧
     log s' = log s1 ++ [LDelay (delay_at p 0 u); LDial true]).
Proof.
  intros Hp Hc. split.
  - eexists. rewrite (run_turn_redials _ _ _ _ _ _ _ _ _ _ (run_read_eof _ _ _ _ _) Hc). cbn [redial_choices].
    rewrite run_redial_attempt by done. split; [done|]. simpl. by rewrite <-app_assoc.
  - intros event choices s1 Hev Hc1. eexists.
    rewrite (run_turn_redials (S (S fuel)) _ _ _ _ 0 _ (redial_choices p e conn [u]) s1);
      [|by erewrite run_read_event|done].
    cbn [redial_choices]. rewrite run_redial_attempt by done. split; [done|].
    simpl. by rewrite <-app_assoc.
Qed.

(** What a loop that is parked does once the client is closed and it has been woken: in
    [recv] at the wake-up, at the end of the stream or on a read error, and while backing
    off when the wake-up comes first and when the delay does, it stops without dialling.
    Shutdown.v has the general statement. *)
Lemma parked_loop_ends_on_shutdown fuel timeout reconnector p stream attempt err u (s : St) n :
  valid_policy p → closed s = true → notify_poll_wait (force_reconnect_signal s) = Some (tt, n) →
  (∃ s', run (read_loop (S (S fuel)) timeout reconnector p stream attempt) [CTimer : Ch] s
           = Some (tt, s', [], []) ∧ log s' = log s) ∧
  (∃ s', run (read_loop (S (S fuel)) timeout reconnector p stream attempt) [CRecv (Ok None) : Ch] s
           = Some (tt, s', [], []) ∧ log s' = log s) ∧
  (∃ s', run (read_loop (S (S fuel)) timeout reconnector p stream attempt) [CRecv (Err err) : Ch] s
           = Some (tt, s', [], []) ∧ log s' = log s) ∧
  (∃ s', run (redial_loop (S fuel) p attempt) (draw p u ++ [CRecv (Ok None) : Ch]) s
           = Some (None, s', [], []) ∧ log s' = log s) ∧
  (∃ s', run (redial_loop (S fuel) p attempt) (draw p u ++ [CTimer : Ch]) s
           = Some (None, s', [], []) ∧ log s' = log s ++ [LDelay (delay_at p attempt u)]).
Proof.
  intros Hp Hc Hn. split_and!.
  1-3: eexists; cbn [read_loop]; unfold connection_turn; cbn [read_connection]; simpl;
    unfold poll_select; simpl; rewrite ?Hn; simpl; rewrite ?Hc; simpl; by split.
  all: cbn [redial_loop]; rewrite run_bind, run_next_delay by done; simpl;
    unfold poll_select; simpl; rewrite ?Hn; simpl; rewrite ?Hc; simpl; by eexists.
Qed.

(** Without a reconnector a forced reconnect does not make the client deaf.  The
    read loop of such a client consumes the wake-up and goes on reading the same
    connection with the same backoff counter, writing and dialling nothing. *)
Lemma force_reconnect_without_reconnector fuel stream attempt choices (s : St) n :
  closed s = false → notify_poll_wait (force_reconnect_signal s) = Some (tt, n) →
  run (read_connection (S fuel) false stream attempt) ((CTimer : Ch) :: choices) s
    = run (read_connection fuel false stream attempt) choices (set_force n s).
Proof.
  intros Hc Hn. cbn [read_connection]. rewrite run_bind. simpl. unfold poll_select. simpl.
  rewrite Hn. simpl. rewrite Hc. by destruct (run _ _ _) as [[[[]]]|].
Qed.

(** ** Keepalive *)

(** [n] turns of the keepalive loop. *)
Fixpoint keepalive_turns (n : nat) (allowed : Z) (timeout : Duration) (missed : Z) : program (option Z) :=
  match n with
  | O => Ret (Some missed)
  | S n =>
      bind (keepalive_turn allowed timeout missed) (λ next,
        match next with None => Ret None | Some missed => keepalive_turns n allowed timeout missed end)
  end.

(** A turn in which the interval elapses, the ping goes out, and no pong comes. *)
Definition missed_turn : list Ch := [CTimer; CSink (Ok tt); CTimer].

(** A client with keepalive on, about to wait: open, an interval, no reconfiguration
    pending, and no ping outstanding. *)
Definition pinging (interval : Duration) (s : St) : Prop :=
  closed s = false ∧ Keepalive.interval (keepalive s) = Some interval ∧
  notify_poll_wait (changed (keepalive s)) = None ∧ entries (waiters (pong_waiters s)) = ∅.

Lemma run_missed_turn allowed timeout missed interval more (s : St) :
  pinging interval s →
  ∃ s', run (keepalive_turn allowed timeout missed) (missed_turn ++ more) s
          = Some (Some (if bool_decide (allowed ≤ u32_saturating_add missed 1)%Z then 0%Z
                        else u32_saturating_add missed 1), s', [], more) ∧
    pinging interval s' ∧
    force_reconnect_signal s' =
      (if bool_decide (allowed ≤ u32_saturating_add missed 1)%Z
       then notify_notify (force_reconnect_signal s) else force_reconnect_signal s).
Proof.
  intros (Hc & Hi & Hn & Hw). unfold keepalive_turn. simpl. rewrite Hc. simpl. rewrite Hi. simpl.
  unfold poll_select. simpl. rewrite Hn. simpl. rewrite Hc. simpl. rewrite Hi. simpl. rewrite Hc. simpl.
  unfold poll_select. simpl. rewrite lookup_snoc_new. unfold oneshot_poll_wait, oneshot_new. rewrite take_signal_new. simpl.
  case_bool_decide; simpl; rewrite ?Hc; simpl; (eexists; split; [reflexivity|]); simpl;
    (split; [|done]); unfold pinging; simpl; rewrite Hw; by rewrite delete_insert_id.
Qed.

Lemma run_turns_cons n allowed timeout missed choices missed' s1 rest (s : St) :
  run (keepalive_turn allowed timeout missed) choices s = Some (Some missed', s1, [], rest) →
  run (keepalive_turns (S n) allowed timeout missed) choices s
    = run (keepalive_turns n allowed timeout missed') rest s1.
Proof.
  intros Hrun. cbn [keepalive_turns]. rewrite run_bind, Hrun.
  by destruct (run (keepalive_turns n allowed timeout missed') rest s1) as [[[[]]]|].
Qed.

(** Consecutive misses: below the limit they are counted, the one that reaches it
    escalates. *)
Lemma run_missed_turns n allowed timeout missed interval more (s : St) :
  is_u32 missed → is_u32 allowed → pinging interval s →
  (missed + Z.of_nat n < allowed)%Z ∨ 0 < n ∧ (missed + Z.of_nat n = allowed)%Z →
  ∃ s', run (keepalive_turns n allowed timeout missed) (concat (replicate n missed_turn) ++ more) s
          = Some (Some (if bool_decide (missed + Z.of_nat n < allowed)%Z
                        then (missed + Z.of_nat n)%Z else 0%Z), s', [], more) ∧
    force_reconnect_signal s' =
      (if bool_decide (missed + Z.of_nat n < allowed)%Z then force_reconnect_signal s
       else notify_notify (force_reconnect_signal s)).
Proof.
  intros Hm Ha. revert missed s Hm. induction n as [|n IH]; intros missed s Hm Hs Hn.
  { exists s. simpl. rewrite Z.add_0_r, bool_decide_true by lia. done. }
  destruct (run_missed_turn allowed timeout missed interval
              (concat (replicate n missed_turn) ++ more) s Hs) as (s1 & Hrun & Hs1 & Hf).
  assert (Hsat : u32_saturating_add missed 1 = (missed + 1)%Z) by (clear - Hm Ha Hn; width_lia).
  rewrite Hsat in Hrun, Hf.
  change (concat (replicate (S n) missed_turn)) with (missed_turn ++ concat (replicate n missed_turn)).
  rewrite <-app_assoc, (run_turns_cons _ _ _ _ _ _ _ _ _ Hrun).
  destruct (decide (n = 0)) as [->|Hn0].
  - exists s1. rewrite Hf. simpl. repeat case_bool_decide; try lia; split; try done.
  - rewrite bool_decide_false in Hf by lia. rewrite bool_decide_false by lia.
    destruct (IH (missed + 1)%Z s1) as (s2 & Hrun2 & Hf2);
      [clear - Hm Ha Hn Hn0; width_lia|done|lia|].
    exists s2. replace (missed + Z.of_nat (S n))%Z with (missed + 1 + Z.of_nat n)%Z by lia.
    rewrite <-Hf. by split.
Qed.

(** C26: keepalive gives a connection up after exactly the allowed number of unanswered
    pings.  Starting from zero misses, after any smaller number of consecutive
    unanswered pings the counter holds that number and no reconnect has been forced;
    the ping that makes it [misses_allowed] (at least one, whatever the policy says)
    forces exactly one reconnect and starts counting again from zero. *)
Theorem keepalive_escalates policy timeout interval n (s : St) :
  is_u32 (max_missed policy) → pinging interval s →
  ((Z.of_nat n < misses_allowed policy)%Z →
   ∃ s', run (keepalive_turns n (misses_allowed policy) timeout 0) (concat (replicate n missed_turn)) s
           = Some (Some (Z.of_nat n), s', [], []) ∧
     force_reconnect_signal s' = force_reconnect_signal s) ∧
  (Z.of_nat n = misses_allowed policy →
   ∃ s', run (keepalive_turns n (misses_allowed policy) timeout 0) (concat (replicate n missed_turn)) s
           = Some (Some 0%Z, s', [], []) ∧
     force_reconnect_signal s' = notify_notify (force_reconnect_signal s)).
Proof.
  intros Hm Hs. assert (Ha : is_u32 (misses_allowed policy)) by (revert Hm; unfold misses_allowed; width_lia).
  split; intros Hn.
  all: destruct (run_missed_turns n (misses_allowed policy) timeout 0 interval [] s)
    as (s' & Hrun & Hf); [done|done|done|unfold misses_allowed in *; lia|];
    rewrite app_nil_r in Hrun; exists s'.
  - by rewrite bool_decide_true in Hrun, Hf by lia.
  - by rewrite bool_decide_false in Hrun, Hf by lia.
Qed.

End Lifecycle.

(** ** Witnesses *)

#[local] Existing Instances slot_signal number_uuid tree_json.

Lemma default_policy_valid : valid_policy ReconnectPolicy_default.
Proof. repeat split; vm_compute; congruence. Qed.

(** A client that pings every minute. *)
Definition demo_pinging : DemoSt :=
  client_new (E := V1_6.OCPP1_6Error) (KeepaliveEnabled KeepalivePolicy_default) 0.

Lemma operations_fail_cleanly_witness :
  fails_with (E := V1_6.OCPP1_6Error) (TErr := unit) (call (from_secs 30) demo_action VNull)
    [CUuid 7%N; CSink (Ok tt); CTimer] Timeout
    [LSink 0 (SinkSend demo_request_frame) true; LDelay (from_secs 30)] demo_client.1.
Proof.
  destruct (operations_fail_cleanly (UM := number_uuid) (E := V1_6.OCPP1_6Error) (TErr := unit) (from_secs 30)
    demo_action VNull (mkSendAction "X" Value Ok Ok) VNull [] 7%N VNull demo_request_frame demo_client.1)
    as (_ & Hcall & _).
  apply Hcall; reflexivity.
Defined.

Lemma redial_backs_off_witness :
  ∃ s', run (redial_loop (E := V1_6.OCPP1_6Error) (TErr := unit) 2 ReconnectPolicy_default 0)
          (redial_choices ReconnectPolicy_default tt 1 [5%N; 6%N]) demo_client.1
          = Some (Some (1, 2%Z), s', [], []) ∧ sink s' = 1.
Proof.
  destruct (redial_backs_off (UM := number_uuid) (E := V1_6.OCPP1_6Error) ReconnectPolicy_default tt 1 5%N [6%N] 0 demo_client.1)
    as (s' & Hrun & _ & Hsink & _); [apply default_policy_valid|reflexivity|].
  exists s'. split; [exact Hrun|exact Hsink].
Defined.

Lemma backoff_resets_only_on_traffic_witness :
  ∃ s', run (connection_turn (E := V1_6.OCPP1_6Error) (TErr := unit) 1 (from_secs 30) true ReconnectPolicy_default 0 3)
          (CRecv (Ok None) :: redial_choices ReconnectPolicy_default tt 1 [5%N]) demo_client.1
          = Some (Some (1, 4%Z), s', [], []).
Proof.
  destruct (backoff_resets_only_on_traffic (UM := number_uuid) (E := V1_6.OCPP1_6Error) 0 (from_secs 30) ReconnectPolicy_default
    0 3 5%N 1 tt demo_client.1) as [(s' & Hrun & _) _]; [apply default_policy_valid|reflexivity|].
  exists s'. exact Hrun.
Defined.

Lemma keepalive_escalates_witness :
  ∃ s', run (keepalive_turns (E := V1_6.OCPP1_6Error) (TErr := unit) 2 2 (from_secs 5) 0) (concat (replicate 2 (missed_turn (TErr := unit)))) demo_pinging
          = Some (Some 0%Z, s', [], []) ∧
    force_reconnect_signal s' = notify_notify (force_reconnect_signal demo_pinging).
Proof.
  destruct (keepalive_escalates (E := V1_6.OCPP1_6Error) (TErr := unit) KeepalivePolicy_default (from_secs 5) (from_secs 60) 2
    demo_pinging) as [_ Hesc].
  - split; vm_compute; congruence.
  - repeat split; reflexivity.
  - apply Hesc. reflexivity.
Defined.
