(* ===== verification/Shutdown.v ===== *)
(** * How the read loop ends once the client is shut down

    The task that [from_transport_with_config] of [src/src/client.rs] spawns to read the
    connection ([read_loop]).  Wherever the loop is when [disconnect] has
    set the closed flag and raised the wake-up (in [recv], handling an event, closing a
    connection it gives up, backing off, dialling, installing the new connection), it ends
    within a fixed number of its own steps, not counting those for events the transport
    still delivers, beside any other tasks and without needing the peer. *)

From S2P Require Import Prelude Time Sync Envelope Platform ProtocolErrors Reconnect Keepalive Engine Client ClientInv ClientLogic ClientDemo Termination ClientExec Lifecycle.
From stdpp Require Import base gmap strings list.

Section Shutdown.
Context {SM : SignalModel} {UM : UuidModel} {SJ : SerdeJson} {E : Type} {PE : ProtocolError E} {TErr : Type}.
Context `{Inhabited Uuid}.

Abbreviation St := (Client (E := E)).
Abbreviation Ch := (Choice (TErr := TErr)).
Abbreviation program A := (prog (St := St) (Ext := Ext (TErr := TErr)) A).
Abbreviation future A := (fut (St := St) (Ext := Ext (TErr := TErr)) A).

(** ** A client that was shut down

    The closed flag is set; the wake-up is there, or the read loop has taken it. *)
Definition woken (s : St) : bool := signalled (force_reconnect_signal s).

Definition ending (w : bool) (s : St) : Prop := closed s = true ∧ (w = true → woken s = true).

(** Nobody but the read loop takes the wake-up, and nobody reopens the client. *)
Definition spares_ending (s s' : St) : Prop := ∀ w, ending w s → ending w s'.

Lemma spares_flags s s' :
  closed s' = closed s → force_reconnect_signal s' = force_reconnect_signal s → spares_ending s s'.
Proof. intros Hc Hf w [? ?]. unfold ending, woken. by rewrite Hc, Hf. Qed.

Abbreviation stays p := (steps_in (λ _ : Ch, True) spares_ending p).

Lemma woken_notified s : woken (set_force (notify_notify (force_reconnect_signal s)) s) = true.
Proof. unfold woken, signalled. simpl. unfold notify_notify. by rewrite take_signal_signal. Qed.

Lemma others_spare (k : KeepalivePolicy) fuel timeout (users : list (program unit)) :
  Forall (api unit) users → Forall (λ t, stays t) (keepalive_task fuel timeout k :: users).
Proof.
  pose proof (flags_logic (TErr := TErr) spares_ending spares_flags) as K.
  assert (Hwake : ∀ s : St, spares_ending s (set_force (notify_notify (force_reconnect_signal s)) s)).
  { intros s w [? ?]. split; [done|]. intros _. apply woken_notified. }
  intros Hu. constructor; [by apply (core_keepalive_loop _ _ _ _ K)|].
  eapply Forall_impl; [exact Hu|]. intros t Ht. eapply (core_api _ _ _ _ K); [done| |exact Ht].
  intros s w [_ ?]. by split.
Qed.

(** ** Winding down *)

(** An event the transport delivers. *)
Definition is_event (c : Ch) : bool := match c with CRecv (Ok (Some _)) => true | _ => false end.

(** [winds w n p Q]: while the client stays shut down, [p] takes at most [n] steps of its
    own, and [GRACE] more after each event; with no event at all it can always take the
    next one; and what it returns, with what is then left, satisfies [Q]. *)
Definition GRACE : nat := 6.

Fixpoint winds {A : Type} (w : bool) (n : nat) (p : program A) (Q : bool → nat → A → Prop) {struct p} : Prop :=
  match p with
  | Ret a => Q w n a
  | Atomic f k =>
      match n with
      | O => False
      | S n => ∀ s, ending w s → ending w (f s).2 ∧ winds w n (k (f s).1) Q
      end
  | Await f k =>
      match n with
      | O => False
      | S n => ∀ s, ending w s →
          (∃ c x, is_event c = false ∧ poll f c s = Some x) ∧
          ∀ c b s', poll f c s = Some (b, s') → ending w s' ∧ winds w n (k b) Q
      end
  | Select f g k =>
      match n with
      | O => False
      | S n => ∀ s, ending w s →
          (∃ c x, is_event c = false ∧ poll_select f g c s = Some x) ∧
          ∀ c b s', poll_select f g c s = Some (b, s') →
            ∃ w', ending w' s' ∧ winds w' (if is_event c then GRACE else n) (k b) Q
      end
  | Spawn _ k => match n with O => False | S n => winds w n k Q end
  | OutOfFuel => True
  end.

Lemma winds_bind {A B} w n (p : program A) (k : A → program B) P Q :
  winds w n p P → (∀ w n a, P w n a → winds w n (k a) Q) → winds w n (bind p k) Q.
Proof.
  intros Hp Hk. revert w n Hp. induction p as [A a|A C f k' IH|A C f k' IH|A C D f g k' IH|A p _ k' IH|A];
    intros w n; simpl; try done; [by apply Hk|..]; (destruct n as [|n]; [done|]); intros Hp; try intros s Hs; eauto.
  - destruct (Hp s Hs). eauto.
  - destruct (Hp s Hs) as [? Hn]. split; [done|]. intros c b s' Hc. destruct (Hn c b s' Hc). eauto.
  - destruct (Hp s Hs) as [? Hn]. split; [done|]. intros c b s' Hc. destruct (Hn c b s' Hc) as (w' & ? & ?). eauto.
Qed.

(** From every point [p] can reach in any state, should the client be shut down there. *)
Fixpoint always_winds {A : Type} (p : program A) (Q : bool → nat → A → Prop) {struct p} : Prop :=
  match p with
  | Ret _ | OutOfFuel => True
  | Atomic f k => winds true GRACE (Atomic f k) Q ∧ ∀ s, always_winds (k (f s).1) Q
  | Await f k => winds true GRACE (Await f k) Q ∧ ∀ s c b s', poll f c s = Some (b, s') → always_winds (k b) Q
  | Select f g k =>
      winds true GRACE (Select f g k) Q ∧ ∀ s c b s', poll_select f g c s = Some (b, s') → always_winds (k b) Q
  | Spawn p k => winds true GRACE (Spawn p k) Q ∧ always_winds k Q
  end.

Lemma always_bind {A B} (p : program A) (k : A → program B) P Q :
  always_winds p P → (∀ w n a, P w n a → winds w n (k a) Q) → (∀ a, always_winds (k a) Q) →
  always_winds (bind p k) Q.
Proof.
  intros Hp Hk Ha. induction p as [A a|A C f k' IH|A C f k' IH|A C D f g k' IH|A p _ k' IH|A];
    cbn [always_winds bind] in *; try done;
    destruct Hp as [Hw Hp]; (split; [exact (winds_bind _ _ _ k _ _ Hw Hk)|]); eauto.
Qed.

(** ** One future at a time *)

(** Nothing depends on an event: where one is taken, the end of the stream would do. *)
Lemma not_for_an_event {B} (f : future B) c s x :
  poll f c s = Some x → ∃ c' x', is_event c' = false ∧ poll f c' s = Some x'.
Proof.
  destruct (is_event c) eqn:Hc; [|by eauto]. destruct c as [|r| | |]; try done. destruct f as [kind take|e]; simpl.
  - intros Hx. by exists CTimer, x.
  - destruct e; try done. intros _. exists (CRecv (Ok None)). by eexists.
Qed.

Lemma ready_without_event {B} (f : future B) s : ready f → ∃ c x, is_event c = false ∧ poll f c s = Some x.
Proof. intros Hf. destruct (Hf s) as (c & x & Hx). by eapply not_for_an_event. Qed.

Lemma select_without_event {B C} (f : future B) (g : future C) s :
  (∃ c x, is_event c = false ∧ poll g c s = Some x) → ∃ c x, is_event c = false ∧ poll_select f g c s = Some x.
Proof.
  intros (c & [x s'] & Hc & Hx). exists c. unfold poll_select. rewrite Hx.
  destruct (poll f c s) as [[]|]; by eexists.
Qed.

(** ** The pieces of the loop *)

(** What ends within [j] steps and leaves the flags alone. *)
Lemma winds_ends {A} w j m n (p : program A) :
  ends_in j p → stays p → j + m ≤ n → j + m ≤ GRACE → winds w n p (λ w' i _, w' = w ∧ m ≤ i).
Proof.
  revert j n. induction p as [A a|A C f k IH|A C f k IH|A C D f g k IH|A p _ k IH|A];
    intros j n; simpl; try done; try (destruct j as [|j]; [done|]; destruct n as [|n]; [lia|]).
  - intros. split; [done|lia].
  - intros He Hs Hn Hg s Hw. destruct (Hs s). split; [auto|]. eapply IH; [apply He|done|lia..].
  - intros [Hf He] Hs Hn Hg s Hw. split; [by apply ready_without_event|]. intros c b s' Hp.
    destruct (Hs s c b s' I Hp). split; [auto|]. eapply IH; [apply He|done|lia..].
  - intros [Hr He] Hs Hn Hg s Hw. split.
    + destruct Hr as [Hf|Hr]; [|by apply select_without_event, ready_without_event].
      destruct (ready_without_event f s Hf) as (c & [x s'] & Hc & Hx). exists c. unfold poll_select. rewrite Hx. by eexists.
    + intros c b s' Hp. destruct (Hs s c b s' I Hp). exists w. split; [auto|].
      destruct (is_event c); (eapply IH; [apply He|done|lia..]).
  - intros He [_ Hs] Hn Hg. eapply IH; [apply He|done|lia..].
Qed.

Lemma always_ends {A} j m (p : program A) :
  ends_in j p → stays p → j + m ≤ GRACE → always_winds p (λ w i _, w = true ∧ m ≤ i).
Proof.
  intros He Hs Hg. assert (Hw := winds_ends true j m GRACE p He Hs Hg Hg). revert j He Hs Hg Hw.
  induction p as [A a|A C f k IH|A C f k IH|A C D f g k IH|A p _ k IH|A]; intros j; cbn [always_winds]; try done;
    intros He Hs Hg Hw; (split; [exact Hw|]); simpl in He, Hs; (destruct j as [|j]; [done|]).
  - intros s. destruct (Hs s). eapply (IH _ j); [apply He|done|lia|eapply winds_ends; [apply He|done|lia..]].
  - intros s c b s' Hp. destruct (Hs s c b s' I Hp).
    eapply (IH _ j); [apply He|done|lia|eapply winds_ends; [apply He|done|lia..]].
  - intros s c b s' Hp. destruct (Hs s c b s' I Hp).
    eapply (IH _ j); [apply He|done|lia|eapply winds_ends; [apply He|done|lia..]].
  - destruct Hs as [_ Hs]. eapply (IH j); [apply He|done|lia|eapply winds_ends; [apply He|done|lia..]].
Qed.

Lemma ends_flags_modify f : ends_in 1 (modify f : program unit).
Proof. done. Qed.

(** Reading the flag tells that the client is shut down. *)
Lemma winds_is_closed {A} w n (k : bool → program A) Q : winds w n (k true) Q → winds w (S n) (bind is_closed k) Q.
Proof. intros HQ s Hs. split; [done|]. cbn [fst]. by rewrite (proj1 Hs). Qed.

Lemma always_is_closed {A} (k : bool → program A) Q :
  winds true 5 (k true) Q → (∀ b, always_winds (k b) Q) → always_winds (bind is_closed k) Q.
Proof. intros HQ Hk. split; [by apply (winds_is_closed true 5)|]. intros s. apply Hk. Qed.

(** A race against the wake-up. *)
Lemma force_wait_takes c s : woken s = true → ∃ n, poll (force_wait (TErr := TErr)) c s = Some (tt, set_force n s).
Proof.
  unfold woken, signalled. simpl. unfold notify_poll_wait.
  destruct (signal_try_take _) as [[[] n]|]; [|done]. eauto.
Qed.

Lemma clear_pongs_spares : ends_in 1 (clear_pongs : program unit) ∧ stays (clear_pongs : program unit).
Proof. split; [done|]. by apply (flags_modify _ spares_flags). Qed.

(** *** Reading a connection *)

(** What is left after it: nothing but to end, or to look at the flag first. *)
Definition read_over (w : bool) (n : nat) (exit : LoopExit * Z) : Prop :=
  match exit.1 with Shutdown => 1 ≤ n | _ => 2 ≤ n end.

Lemma always_handle_event event :
  always_winds (handle_event event : program unit) (λ w n _, w = true ∧ 3 ≤ n).
Proof.
  apply (always_ends 3); [apply (operation_ends _ _ _ (op_handle_event event))| |done].
  apply (flags_handle_event _ spares_flags).
Qed.

Lemma winds_handle_event event :
  winds true GRACE (handle_event event : program unit) (λ w n _, w = true ∧ 3 ≤ n).
Proof.
  apply (winds_ends true 3 3); [apply (operation_ends _ _ _ (op_handle_event event))| |done..].
  apply (flags_handle_event _ spares_flags).
Qed.

Lemma winds_read_connection n fuel honor stream attempt :
  3 ≤ n → winds true n (read_connection fuel honor stream attempt : program _) read_over.
Proof.
  revert n attempt. induction fuel as [|fuel IH]; intros n attempt Hn; [done|]. cbn [read_connection].
  destruct n as [|n]; [lia|]. intros s Hs. split.
  { apply select_without_event. destruct (force_wait_takes CTimer s (proj2 Hs eq_refl)) as [x Hx]. by exists CTimer, (tt, set_force x s). }
  intros c b s' Hp. unfold poll_select in Hp.
  destruct (poll (FExt (Recv stream)) c s) as [[v s1]|] eqn:Hr.
  - injection Hp as <- <-. destruct c; try discriminate Hr. injection Hr as <- <-. exists true.
    split; [by destruct r as [[event|]|]|]. destruct r as [[event|]|]; cbn [bind is_event].
    + eapply winds_bind; [apply winds_handle_event|]. intros w m _ [-> Hm]. by apply IH.
    + unfold read_over. simpl. lia.
    + unfold read_over. simpl. lia.
  - destruct (force_wait_takes c s (proj2 Hs eq_refl)) as [x Hx]. rewrite Hx in Hp. injection Hp as <- <-.
    exists false. split; [by split; [apply Hs|]|]. cbn [bind].
    destruct n as [|n]; [lia|].
    destruct (is_event c); [apply (winds_is_closed false 5)|apply winds_is_closed]; unfold read_over; simpl; lia.
Qed.

Lemma always_read_connection fuel honor stream attempt :
  always_winds (read_connection fuel honor stream attempt : program _) read_over.
Proof.
  revert attempt. induction fuel as [|fuel IH]; intros attempt; [done|].
  split; [apply (winds_read_connection 6 (S fuel)); lia|]. intros s c b s' _.
  destruct b as [[[event|]|]|]; cbn [bind]; try done.
  - eapply always_bind; [apply always_handle_event| |intros; apply IH].
    intros w m _ [-> Hm]. by apply winds_read_connection.
  - apply always_is_closed; [unfold read_over; simpl; lia|]. intros [|]; [done|]. destruct honor; [done|apply IH].
Qed.

(** *** Redialling *)

(** The client was found closed, or there is a new connection to read. *)
Definition redialled (w : bool) (n : nat) (next : option (nat * Z)) : Prop :=
  match next with None => True | Some _ => w = true ∧ 3 ≤ n end.

(** An attempt after its delay: the check, the dial, the new connection. *)
Definition attempt_dial (fuel : nat) (p : ReconnectPolicy) (attempt : Z) (abandoned : bool) : program (option (nat * Z)) :=
  (if abandoned then Ret None
   else
     let! c := is_closed in
     if c then Ret None
     else
       let! d := await (FExt Dial) in
       match d with
       | Ok conn =>
           do! modify (set_sink conn) in
           do! modify (λ s, set_reconnect_registry (notify_all (reconnect_registry s)) s) in
           Ret (Some (conn, attempt))
       | Err _ => redial_loop fuel p attempt
       end)%prog.

Definition backoff (fuel : nat) (p : ReconnectPolicy) (attempt : Z) (delay : Duration) : program (option (nat * Z)) :=
  (let! r := with_cancel (FExt (Delay delay)) force_wait in
   let! abandoned := match r with Err Cancelled => is_closed | Ok _ => Ret false end in
   attempt_dial fuel p attempt abandoned)%prog.

Lemma redial_loop_backoff fuel p attempt :
  redial_loop (S fuel) p attempt = bind (next_delay p attempt) (backoff fuel p (u32_saturating_add attempt 1)).
Proof. done. Qed.

Lemma winds_next_delay {A} n p attempt (k : Duration → program A) Q :
  (∀ d m, n ≤ m → winds true m (k d) Q) → winds true (S n) (bind (next_delay p attempt) k) Q.
Proof.
  intros Hk. unfold next_delay. destruct (jitter p); cbn [bind].
  - intros s Hs. split; [apply ready_without_event, ready_new_v4|]. intros c u s' Hu.
    destruct c; simpl in Hu; try discriminate Hu. injection Hu as <- <-. split; [done|].
    cbn [bind]. destruct (jittered_delay_for _ _ _); cbn [bind]; [by apply Hk|done].
  - destruct (jittered_delay_for _ _ _); cbn [bind]; [apply Hk; lia|done].
Qed.

Lemma always_next_delay {A} p attempt (k : Duration → program A) Q :
  (∀ d m, 5 ≤ m → winds true m (k d) Q) → (∀ d, always_winds (k d) Q) →
  always_winds (bind (next_delay p attempt) k) Q.
Proof.
  intros Hw Hk. pose proof (winds_next_delay 5 p attempt k Q Hw) as Hn. revert Hn. unfold next_delay.
  destruct (jitter p); cbn [bind].
  - intros Hn. split; [exact Hn|]. intros s c u s' _. cbn [bind]. destruct (jittered_delay_for _ _ _); cbn [bind]; [apply Hk|done].
  - intros _. destruct (jittered_delay_for _ _ _); cbn [bind]; [apply Hk|done].
Qed.

Lemma winds_backoff n fuel p attempt delay :
  2 ≤ n → winds true n (backoff fuel p attempt delay) redialled.
Proof.
  intros Hn. destruct n as [|n]; [lia|]. unfold backoff, with_cancel. cbn [bind]. intros s Hs.
  split; [apply select_without_event; destruct (force_wait_takes CTimer s (proj2 Hs eq_refl)) as [x Hx];
    by exists CTimer, (tt, set_force x s)|].
  intros c b s' Hp. unfold poll_select in Hp.
  destruct (poll (FExt (Delay delay)) c s) as [[v s1]|] eqn:Hr.
  - injection Hp as <- <-. destruct c; try discriminate Hr. injection Hr as <- <-. exists true. split; [by apply (spares_flags s)|].
    cbn [bind is_event]. destruct n as [|n]; [lia|]. by apply winds_is_closed.
  - destruct (force_wait_takes c s (proj2 Hs eq_refl)) as [x Hx]. rewrite Hx in Hp. injection Hp as <- <-.
    exists false. split; [by split; [apply Hs|]|]. cbn [bind]. destruct n as [|n]; [lia|].
    destruct (is_event c); [by apply (winds_is_closed false 5)|by apply winds_is_closed].
Qed.

Lemma winds_redial_loop n fuel p attempt : 3 ≤ n → winds true n (redial_loop fuel p attempt) redialled.
Proof.
  intros Hn. destruct fuel as [|fuel]; [done|]. rewrite redial_loop_backoff. destruct n as [|n]; [lia|].
  apply winds_next_delay. intros d m Hm. apply winds_backoff. lia.
Qed.

(** A change that leaves the flags alone. *)
Lemma winds_modify {A} w n f (k : unit → program A) Q :
  (∀ s, closed (f s) = closed s ∧ force_reconnect_signal (f s) = force_reconnect_signal s) →
  winds w n (k tt) Q → winds w (S n) (bind (modify f) k) Q.
Proof. intros Hf Hk s Hs. split; [|done]. destruct (Hf s). by apply (spares_flags s). Qed.

Lemma always_modify {A} f (k : unit → program A) Q :
  (∀ s, closed (f s) = closed s ∧ force_reconnect_signal (f s) = force_reconnect_signal s) →
  winds true 5 (k tt) Q → always_winds (k tt) Q → always_winds (bind (modify f) k) Q.
Proof. intros Hf Hw Hk. split; [by apply (winds_modify true 5)|done]. Qed.

(** The dial that was under way when the client was shut down. *)
Lemma always_dial {A} (k : result nat TErr → program A) Q :
  (∀ r, winds true 5 (k r) Q) → (∀ r, always_winds (k r) Q) → always_winds (bind (await (FExt Dial)) k) Q.
Proof.
  intros Hw Hk. split; [|intros s c b s' _; apply Hk].
  intros s Hs. split; [exists (CDial (Ok 0)); by eexists|]. intros c r s' Hc. destruct c; simpl in Hc; try discriminate Hc.
  injection Hc as <- <-. split; [by apply (spares_flags s)|apply Hw].
Qed.

Lemma always_redial_loop fuel p attempt : always_winds (redial_loop fuel p attempt) redialled.
Proof.
  revert attempt. induction fuel as [|fuel IH]; intros attempt; [done|]. rewrite redial_loop_backoff.
  apply always_next_delay; [intros d m Hm; apply winds_backoff; lia|]. intros d.
  split; [apply (winds_backoff 6); lia|]. intros s c b s' _.
  assert (Hrest : ∀ abandoned, always_winds (attempt_dial fuel p (u32_saturating_add attempt 1) abandoned) redialled).
  { intros []; [done|]. apply always_is_closed; [done|]. intros []; [done|].
    apply always_dial; intros [conn|err]; [|by apply winds_redial_loop; lia| |apply IH].
    - apply (winds_modify true 4); [done|]. apply (winds_modify true 3); [done|]. split; [done|lia].
    - apply always_modify; [done| |].
      + apply (winds_modify true 4); [done|]. split; [done|lia].
      + apply always_modify; [done|split; [done|lia]|done]. }
  destruct b as [v|v]; cbn [bind]; [exact (Hrest false)|]. apply always_is_closed; [done|exact Hrest].
Qed.

(** *** The loop *)

Lemma always_turn fuel timeout reconnector p stream attempt :
  always_winds (connection_turn fuel timeout reconnector p stream attempt) redialled.
Proof.
  unfold connection_turn. eapply always_bind; [apply always_read_connection|..].
  - intros w n [[] a] Hn; unfold read_over in Hn; cbn [fst snd bind] in *; (destruct n as [|n]; [lia|]).
    + apply winds_is_closed. destruct n as [|n]; [lia|]. by apply winds_modify.
    + apply winds_is_closed. destruct n as [|n]; [lia|]. by apply winds_modify.
    + by apply winds_modify.
  - intros [reason a]. cbn [fst snd].
    assert (Hrest : ∀ stop : bool, always_winds (if stop then do! clear_pongs in Ret None
       else if negb reconnector then Ret None
       else do! match reason with Forced => do! with_timeout timeout (FExt (Sink SinkClose)) in Ret tt | _ => Ret tt end in
            do! clear_pongs in redial_loop fuel p a)%prog redialled).
    { intros []; [by apply always_modify|]. destruct reconnector; [|done]. cbn [negb].
      assert (Hr : always_winds (do! clear_pongs in redial_loop fuel p a)%prog redialled).
      { apply always_modify; [done|by apply winds_redial_loop; lia|apply always_redial_loop]. }
      destruct reason; cbn [bind]; try exact Hr.
      split; [|by intros s c b s' _; destruct b]. intros s Hs. split.
      - apply select_without_event, ready_without_event, ready_delay.
      - intros c b s' Hc. exists true.
        assert (ending true s' ∧ is_event c = false) as [Hs' ->].
        { unfold poll_select in Hc. destruct c; simpl in Hc; try discriminate Hc; injection Hc as <- <-;
            (split; [by apply (spares_flags s)|done]). }
        split; [done|]. destruct b; apply (winds_modify true 4); try done; apply winds_redial_loop; lia. }
    destruct reason; cbn [bind]; [apply always_is_closed|apply always_is_closed|]; try exact Hrest; try by apply (winds_modify true 4).
    exact (Hrest true).
Qed.

Lemma winds_turn n fuel timeout reconnector p stream attempt :
  3 ≤ n → winds true n (connection_turn fuel timeout reconnector p stream attempt) (λ _ _ next, next = None).
Proof.
  intros Hn. unfold connection_turn. eapply winds_bind; [by apply winds_read_connection|].
  intros w m [[] a] Hm; unfold read_over in Hm; cbn [fst snd bind] in *; (destruct m as [|m]; [lia|]).
  - apply winds_is_closed. destruct m as [|m]; [lia|]. by apply winds_modify.
  - apply winds_is_closed. destruct m as [|m]; [lia|]. by apply winds_modify.
  - by apply winds_modify.
Qed.

Lemma always_read_loop fuel timeout reconnector p stream attempt :
  always_winds (read_loop fuel timeout reconnector p stream attempt) (λ _ _ _, True).
Proof.
  revert stream attempt. induction fuel as [|fuel IH]; intros stream attempt; [done|]. cbn [read_loop].
  eapply always_bind; [apply always_turn| |intros [[stream' attempt']|]; [apply IH|done]].
  intros w n [[stream' attempt']|]; [|done]. intros [-> Hn]. destruct fuel as [|fuel]; [done|]. cbn [read_loop].
  eapply winds_bind; [by apply winds_turn|]. by intros ? ? ? ->.
Qed.

(** *** Fuel

    With more fuel than steps, the loop neither stops for want of it nor panics. *)

Lemma ends_lasts {A} j n (p : program A) : ends_in j p → lasts n p.
Proof.
  revert j n. induction p as [A a|A C f k IH|A C f k IH|A C D f g k IH|A p _ k IH|A]; intros j n; simpl; try done;
    (destruct j as [|j]; [done|]); destruct n as [|n]; try done.
  - intros He b. by eapply IH.
  - intros [_ He] b. by eapply IH.
  - intros [_ He] b. by eapply IH.
  - by apply IH.
Qed.

Lemma lasts_read_connection n fuel honor stream attempt :
  n < fuel → lasts n (read_connection fuel honor stream attempt : program _).
Proof.
  revert n attempt. induction fuel as [|fuel IH]; intros n attempt Hn; [lia|]. cbn [read_connection].
  destruct n as [|n]; [done|]. intros [[[event|]|]|]; cbn [bind]; try done.
  - apply lasts_bind; [by eapply ends_lasts, (operation_ends _ _ _ (op_handle_event event))|].
    intros _ m Hm. apply IH. lia.
  - destruct n as [|n]; [done|]. intros []; [done|]. destruct honor; [done|]. apply IH. lia.
Qed.

Lemma lasts_redial_loop n fuel p attempt : valid_policy p → n < fuel → lasts n (redial_loop fuel p attempt : program _).
Proof.
  intros Hp. revert n attempt. induction fuel as [|fuel IH]; intros n attempt Hn; [lia|]. rewrite redial_loop_backoff.
  apply lasts_bind.
  - unfold next_delay.
    assert (Hd : ∀ random m, lasts m (match jittered_delay_for p attempt random with Some d => Ret d | None => panic end : program _)).
    { intros random m. destruct (jittered_delay_range p attempt random Hp) as [_ (d & -> & _)]. done. }
    destruct (jitter p); cbn [bind]; [|apply Hd]. destruct n as [|n]; [done|]. intros u. apply Hd.
  - intros delay m Hm. destruct m as [|m]; [done|].
    assert (Hrest : ∀ i abandoned, i ≤ m → lasts i (attempt_dial fuel p (u32_saturating_add attempt 1) abandoned : program _)).
    { intros i [] Hi; [done|]. destruct i as [|i]; [done|]. intros []; [done|]. destruct i as [|i]; [done|].
      intros [conn'|err]; [|apply IH; lia]. destruct i as [|[|i]]; done. }
    intros [|]; cbn [bind]; [by apply (Hrest m false)|]. destruct m as [|m]; [done|]. intros c. apply Hrest. lia.
Qed.

Lemma lasts_turn n fuel timeout reconnector p stream attempt :
  valid_policy p → n < fuel → lasts n (connection_turn fuel timeout reconnector p stream attempt : program _).
Proof.
  intros Hp Hn. unfold connection_turn. apply lasts_bind; [by apply lasts_read_connection|].
  intros [reason a] m Hm. cbn [fst snd]. apply lasts_bind; [by destruct reason, m|]. intros stop i Hi.
  destruct stop; [by destruct i|]. destruct reconnector; [|done]. cbn [negb].
  apply lasts_bind; [destruct reason, i; try done; by intros []|]. intros _ j Hj.
  apply lasts_bind; [by destruct j|]. intros _ l Hl. apply lasts_redial_loop; [done|lia].
Qed.

Lemma lasts_read_loop n fuel timeout reconnector p stream attempt :
  valid_policy p → S n < fuel → lasts n (read_loop fuel timeout reconnector p stream attempt : program _).
Proof.
  intros Hp. revert n stream attempt. induction fuel as [|fuel IH]; intros n stream attempt Hn; [lia|]. cbn [read_loop].
  apply lasts_bind_after.
  - destruct fuel; [lia|done].
  - apply lasts_turn; [done|lia].
  - intros [[stream' attempt']|] m Hm; [apply IH; lia|done].
Qed.

(** ** Runs *)

Definition own_steps (schedule : list (option nat * Ch)) : nat := length (List.filter (λ x, bool_decide (x.1 = None)) schedule).

Definition own_events (schedule : list (option nat * Ch)) : nat :=
  length (List.filter (λ x, bool_decide (x.1 = None) && is_event x.2) schedule).

Lemma own_events_cons c rest : own_events ((None, c) :: rest) = (if is_event c then 1 else 0) + own_events rest.
Proof. unfold own_events. simpl. by destruct (is_event c). Qed.

Definition others : spec (St := St) (Choice := Ch) := mkSpec (λ _, True) (λ _ _, True) spares_ending.

Lemma others_preorder : PreOrder (rely others).
Proof. by split. Qed.

Lemma step_always {A} c (p p' : program A) Q s s' new :
  always_winds p Q → step c p s = Some (p', s', new) → always_winds p' Q.
Proof.
  destruct p as [a|C f k|C f k|C D f g k|p k|]; cbn [always_winds step]; try done.
  - intros [_ Hk]. specialize (Hk s). destruct (f s). by intros [= <- _ _].
  - intros [_ Hk]. destruct (poll f c s) as [[]|] eqn:Hp; [|done]. intros [= <- _ _]. by eapply Hk.
  - intros [_ Hk]. destruct (poll_select f g c s) as [[]|] eqn:Hp; [|done]. intros [= <- _ _]. by eapply Hk.
  - intros [_ Hk]. by intros [= <- _ _].
Qed.

Lemma step_winds {A} w n c (p p' : program A) Q s s' new :
  winds w n p Q → ending w s → step c p s = Some (p', s', new) →
  ∃ w' n', ending w' s' ∧ winds w' n' p' Q ∧ S n' ≤ n + if is_event c then GRACE else 0.
Proof.
  destruct p as [a|C f k|C f k|C D f g k|p k|]; cbn [winds step]; try done; (destruct n as [|n]; [done|]); intros Hw Hs.
  - destruct (Hw s Hs). destruct (f s). intros [= <- <- _]. exists w, n. split_and!; try done. lia.
  - destruct (Hw s Hs) as [_ Hn]. destruct (poll f c s) as [[b s1]|] eqn:Hp; [|done]. intros [= <- <- _].
    destruct (Hn c b s1 Hp). exists w, n. split_and!; try done. lia.
  - destruct (Hw s Hs) as [_ Hn]. destruct (poll_select f g c s) as [[b s1]|] eqn:Hp; [|done]. intros [= <- <- _].
    destruct (Hn c b s1 Hp) as (w' & ? & ?). exists w', (if is_event c then GRACE else n). split_and!; try done.
    destruct (is_event c); lia.
  - intros [= <- <- _]. exists w, n. split_and!; try done. lia.
Qed.

Lemma winds_steps {A} w n (p : program A) Q s :
  winds w n p Q → ending w s → lasts 0 p → (∃ a, p = Ret a) ∨ 0 < n ∧ ∃ c x, is_event c = false ∧ step c p s = Some x.
Proof.
  destruct p as [a|C f k|C f k|C D f g k|p k|]; cbn [winds step lasts]; [by eauto| | | | |done];
    (destruct n as [|n]; [done|]); intros Hw Hs _; right; (split; [lia|]).
  - exists CTimer. destruct (f s). by eexists.
  - destruct (proj1 (Hw s Hs)) as (c & [b s'] & Hc & Hp). exists c. rewrite Hp. by eexists.
  - destruct (proj1 (Hw s Hs)) as (c & [b s'] & Hc & Hp). exists c. rewrite Hp. by eexists.
  - exists CTimer. by eexists.
Qed.

Lemma always_now {A} (p : program A) : always_winds p (λ _ _ _, True) → winds true GRACE p (λ _ _ _, True).
Proof. destruct p; cbn [always_winds]; try done; by intros []. Qed.

(** Up to the shutdown. *)
Lemma run_among_always {A} m schedule (p p' : program A) Q ts ts' s s' :
  always_winds p Q → lasts (own_steps schedule + m) p → pool_safe others ts s →
  run_among schedule p ts s = Some (p', ts', s') → always_winds p' Q ∧ lasts m p' ∧ pool_safe others ts' s'.
Proof.
  revert p ts s. induction schedule as [|[[i|] c] rest IH]; intros p ts s Hp Hl Hts; cbn [run_among].
  - by intros [= <- <- <-].
  - destruct (pool_step i c ts s) as [[ts1 s1]|] eqn:Hs; [|done]. apply IH; [done..|].
    by eapply (pool_step_safe others); [apply others_preorder|..].
  - destruct (step c p s) as [[[p1 s1] []]|] eqn:Hs; try done. apply IH; [by eapply step_always|by eapply step_lasts|].
    by eapply (pool_safe_stable others).
Qed.

(** And from there on. *)
Lemma run_among_winds {A} m w n schedule (p p' : program A) Q ts ts' s s' :
  winds w n p Q → ending w s → lasts (own_steps schedule + m) p → pool_safe others ts s →
  run_among schedule p ts s = Some (p', ts', s') →
  ∃ w' n', winds w' n' p' Q ∧ ending w' s' ∧ lasts m p' ∧
    own_steps schedule + n' ≤ n + GRACE * own_events schedule.
Proof.
  revert w n p ts s. induction schedule as [|[[i|] c] rest IH]; intros w n p ts s Hp He Hl Hts; cbn [run_among].
  - intros [= <- <- <-]. exists w, n. split_and!; try done. simpl. lia.
  - destruct (pool_step i c ts s) as [[ts1 s1]|] eqn:Hs; [|done].
    destruct (pool_step_safe others i c ts s ts1 s1) as [Hts1 Hg]; try done.
    apply (IH w n); [done| |done..]. destruct Hg as [Hg| <-]; [by apply Hg|done].
  - destruct (step c p s) as [[[p1 s1] []]|] eqn:Hs; try done. intros Hrun.
    destruct (step_winds _ _ _ _ _ _ _ _ _ Hp He Hs) as (w1 & n1 & He1 & Hp1 & Hn1).
    destruct (IH w1 n1 p1 ts s1) as (w' & n' & ? & ? & ? & Hle); try done; [by eapply step_lasts|by eapply (pool_safe_stable others)|].
    exists w', n'. split_and!; try done. change (own_steps ((None, c) :: rest)) with (S (own_steps rest)).
    rewrite own_events_cons. destruct (is_event c); lia.
Qed.

(** C24: a shutdown ends the read loop wherever it is.  Take any run of a client and its
    users up to a moment at which the closed flag is set and the read loop's wake-up is
    there, as [disconnect] leaves them; the loop may be anywhere, in [recv], handling an
    event, closing a connection it gives up, backing off, dialling or installing the new
    connection.  However the run goes on, beside the other tasks, the loop takes at most
    six more steps of its own, and six more for each event the transport still delivers;
    then it has ended; and until it has, it can take the next step without any event. *)
Theorem shutdown_ends_read_loop fuel conn config (users : list (program unit)) loop rest before later p ts s p' ts' s' :
  (from_transport_with_config (E := E) (TErr := TErr) fuel conn config).2 = loop :: rest →
  valid_policy (config_reconnect_policy config) → Forall (api unit) users →
  run_among before loop (rest ++ users)
    (from_transport_with_config (E := E) (TErr := TErr) fuel conn config).1 = Some (p, ts, s) →
  closed s = true → woken s = true →
  run_among later p ts s = Some (p', ts', s') → S (own_steps before + own_steps later) < fuel →
  own_steps later ≤ 6 + 6 * own_events later ∧
  (p' = Ret tt ∨
   own_steps later < 6 + 6 * own_events later ∧ ∃ c x, is_event c = false ∧ step c p' s' = Some x).
Proof.
  intros [= <- <-] Hpol Hu Hbefore Hc Hw Hlater Hfuel.
  eapply (run_among_always (own_steps later) _ _ _ (λ _ _ _, True)) in Hbefore as (Hp & Hl & Hts);
    [|apply always_read_loop|by apply lasts_read_loop|].
  - destruct (run_among_winds 0 true GRACE later p p' (λ _ _ _, True) ts ts' s s') as (w & n & Hp' & He & Hl' & Hn); try done.
    + by apply always_now.
    + by rewrite Nat.add_0_r.
    + unfold GRACE in *. split; [lia|].
      destruct (winds_steps _ _ _ _ _ Hp' He Hl') as [[[] ->]|(Hpos & Hstep)]; [by left|right]. split; [lia|done].
  - pose proof (others_spare (policy_of (config_keepalive config)) fuel (config_timeout config) users Hu) as Ht.
    eapply Forall_impl; [exact Ht|]. intros t Hst. by eapply (steps_in_safe others (λ _, True) spares_ending).
Qed.

End Shutdown.

(** ** Witness

    The connection ends and the loop dials; a user disconnects meanwhile; the dial
    succeeds, the new connection still delivers a ping, which is answered, and the loop
    ends. *)
Abbreviation dialling_client :=
  (from_transport_with_config (E := V1_6.OCPP1_6Error) (TErr := unit) 20 0 demo_config).

Definition until_shutdown : list (option nat * demo_choice) :=
  [(None, CRecv (Ok None)); (None, CTimer); (None, CTimer); (None, CUuid 5%N); (None, CTimer); (None, CTimer);
   (Some 1, CTimer); (Some 1, CTimer); (Some 1, CTimer)].

Definition from_shutdown : list (option nat * demo_choice) :=
  [(None, CDial (Ok 1)); (None, CTimer); (None, CTimer); (None, CRecv (Ok (Some (Ping [])))); (None, CTimer);
   (Some 1, CSink (Ok tt)); (None, CSink (Ok tt)); (None, CTimer); (None, CTimer); (None, CTimer)].

Abbreviation dialling_loop := (read_loop (E := V1_6.OCPP1_6Error) (TErr := unit) 20 (from_secs 30) true ReconnectPolicy_default 0 0).
Abbreviation dialling_rest := [keepalive_task (E := V1_6.OCPP1_6Error) (TErr := unit) 20 (from_secs 30) (policy_of KeepaliveDisabled)].

Abbreviation shutdown_run :=
  (match run_among until_shutdown dialling_loop (dialling_rest ++ demo_users) dialling_client.1 with
   | Some (p, ts, s) =>
       match run_among from_shutdown p ts s with
       | Some (p', ts', s') => Some (p, ts, s, (p', ts', s'))
       | None => None
       end
   | None => None
   end).

Lemma shutdown_ends_read_loop_witness :
  match shutdown_run with
  | Some (_, _, _, (p', _, s')) => own_steps from_shutdown ≤ 12 ∧ p' = Ret tt ∧ sink s' = 1
  | None => False
  end.
Proof.
  apply (ran_to_elim (λ x, match x with (_, _, _, (p', _, s')) => own_steps from_shutdown ≤ 12 ∧ p' = Ret tt ∧ sink s' = 1 end)
    (λ x, match x with (_, _, s, (Ret _, _, s')) => closed s && woken s && Nat.eqb (sink s') 1 | _ => false end));
    [vm_compute; reflexivity|].
  intros [[[p ts] s] [[p' ts'] s']] Hrun Hx.
  destruct (run_among until_shutdown _ _ _) as [[[p1 ts1] s1]|] eqn:H1; [|discriminate Hrun].
  destruct (run_among from_shutdown p1 ts1 s1) as [[[p2 ts2] s2]|] eqn:H2; [|discriminate Hrun].
  injection Hrun as -> -> -> -> -> ->.
  destruct p' as [[]| | | | |]; try discriminate Hx. apply andb_prop in Hx as [[Hc Hw]%andb_prop Hs].
  destruct (shutdown_ends_read_loop (UM := number_uuid) 20 0 demo_config demo_users dialling_loop dialling_rest
    until_shutdown from_shutdown p ts s (Ret tt) ts' s' eq_refl default_policy_valid demo_users_api H1 Hc Hw H2)
    as [Hle _].
  - apply Nat.ltb_lt. reflexivity.
  - split; [exact Hle|]. split; [reflexivity|]. apply Nat.eqb_eq. exact Hs.
Defined.
