(* ===== verification/Escalation.v ===== *)
(** * What keepalive has seen before it gives a connection up

    Lifecycle.v runs the keepalive loop alone; here it runs beside the read loop and any
    users, and is shown with [follows] to raise the wake-up only on a history that ends in
    the misses the policy allows. *)

From S2P Require Import Prelude Time Sync Envelope Platform ProtocolErrors Reconnect Keepalive Engine Client ClientInv ClientDemo History ClientSafety.
From stdpp Require Import base gmap strings list.

(** ** The keepalive loop *)

Section Escalation.
Context {SM : SignalModel} {UM : UuidModel} {SJ : SerdeJson} {E : Type} {PE : ProtocolError E} {TErr : Type}.

Abbreviation St := (Client (E := E)).
Abbreviation program A := (prog (St := St) (Ext := Ext (TErr := TErr)) A).
Abbreviation deeds := (list (deed (Entry := LogEntry))).

(** A wait that the timer ended. *)
Definition pause (d : Duration) : deeds := [Won false; Did (LDelay d)].

(** A ping nobody answered: refused by the transport, or written and timed out. *)
Inductive unanswered (timeout : Duration) : deeds → Prop :=
| ping_refused conn token : unanswered timeout [Did (LSink conn (SinkPing token) false)]
| ping_timed_out conn token : unanswered timeout (Did (LSink conn (SinkPing token) true) :: pause timeout).

(** A round of the loop that ends in one: the interval, and before it any number of
    intervals at whose end pinging was found switched off for a moment. *)
Inductive missed_round (timeout : Duration) : deeds → Prop :=
| round_missed skipped interval l : unanswered timeout l →
    missed_round timeout (concat (pause <$> skipped) ++ pause interval ++ l).

(** The history ends in [n] such rounds, with no answered ping, reconfiguration or
    forced redial among them. *)
Definition misses (timeout : Duration) (n : Z) (h : deeds) : Prop :=
  ∃ before rounds, h = before ++ concat rounds ∧ Z.of_nat (length rounds) = n ∧ Forall (missed_round timeout) rounds.

(** The same between two turns of the loop. *)
Definition misses_so_far timeout n h : Prop :=
  ∃ h' skipped, misses timeout n h' ∧ h = h' ++ concat (pause <$> skipped).

Context (allowed : Z) (timeout : Duration) (Hallowed : (1 ≤ allowed ≤ u32_max)%Z).

Definition closes (s s' : St) : Prop := closed s = true → closed s' = true.

#[local] Instance closes_preorder : PreOrder closes.
Proof. unfold closes. split; [by intros s|]. intros s1 s2 s3; auto. Qed.

Definition wakes_after_misses (h : deeds) (s s' : St) : Prop :=
  force_reconnect_signal s' = force_reconnect_signal s ∨ misses timeout allowed h.

Abbreviation tracks p Q h s :=
  (follows (Ext := Ext (TErr := TErr)) logged closes wakes_after_misses p Q h s).

Lemma misses_zero h : misses timeout 0 h.
Proof. exists h, []. by rewrite app_nil_r. Qed.

Lemma misses_so_far_none n h : misses timeout n h → misses_so_far timeout n h.
Proof. intros Hm. exists h, []. by rewrite app_nil_r. Qed.

Lemma misses_skip n h d : misses_so_far timeout n h → misses_so_far timeout n (h ++ pause d).
Proof.
  intros (h' & skipped & Hm & ->). exists h', (skipped ++ [d]). split; [done|].
  by rewrite fmap_app, concat_app, <-(assoc app).
Qed.

Lemma misses_more n h interval l :
  misses_so_far timeout n h → unanswered timeout l → misses timeout (n + 1) (h ++ pause interval ++ l).
Proof.
  intros (h' & skipped & (before & rounds & -> & <- & Hr) & ->) Hl.
  exists before, (rounds ++ [concat (pause <$> skipped) ++ pause interval ++ l]).
  split; [|split; [rewrite length_app; simpl; lia|]].
  - rewrite concat_app. simpl. by rewrite app_nil_r, <-!(assoc app).
  - apply Forall_app. split; [done|]. apply Forall_singleton. by constructor.
Qed.

Lemma tracks_read {A B} (f : St → B) (k : B → program A) Q h s :
  (∀ s', closes s s' → tracks (k (f s')) Q h s') → tracks (Atomic (λ s, (f s, s)) k) Q h s.
Proof. intros Hk s1 Hr. split; [by left|]. simpl. rewrite logged_same by done. rewrite app_nil_r. by apply Hk. Qed.

Lemma tracks_atomic {A B} (f : St → B * St) (k : B → program A) Q h s :
  (∀ s', log (f s').2 = log s' ∧ force_reconnect_signal (f s').2 = force_reconnect_signal s' ∧ closed (f s').2 = closed s') →
  (∀ b s', closes s s' → tracks (k b) Q h s') → tracks (Atomic f k) Q h s.
Proof.
  intros Hf Hk s1 Hr. destruct (Hf s1) as (Hl & Hw & Hc). split; [by left|].
  rewrite (logged_same _ _ Hl), app_nil_r. apply Hk. unfold closes in *. rewrite Hc. auto.
Qed.

(** What a ping leaves behind: a failure that was not a refusal of the closed client is
    an unanswered ping. *)
Definition pinged (h : deeds) (r : result unit (ClientError E JsonError TErr)) (h' : deeds) (s : St) : Prop :=
  match r with
  | Ok _ => True
  | Err _ => closed s = true ∨ ∃ l, unanswered timeout l ∧ h' = h ++ l
  end.

Lemma tracks_ping h s : tracks (send_ping_with_timeout timeout) (pinged h) h s.
Proof.
  apply tracks_read. intros s1 _. destruct (closed s1) eqn:Hc; [intros s2 Hr; left; by apply Hr|].
  apply tracks_atomic; [by intros s2; unfold insert_ping_state; destruct (table_insert _ _ _)|].
  intros [token waiter] s2 _. intros s3 c r s4 _ Hk. destruct c; simpl in Hk; try discriminate Hk.
  injection Hk as <- <-. split; [by left|]. rewrite logged_add. destruct r0 as [[]|err].
  - intros s5 c b s6 _ Hw. unfold poll_select in Hw.
    destruct (poll (pong_wait _) c s5) as [[[] s']|] eqn:Ho.
    + injection Hw as <- <-. simpl in Ho.
      destruct (cells (waiters (pong_waiters s5)) !! waiter); [|discriminate Ho].
      destruct (oneshot_poll_wait _) as [[]|]; [|discriminate Ho]. injection Ho as _ <-.
      split; [by left|]. by intros s7 _.
    + destruct c; simpl in Hw; try discriminate Hw. injection Hw as <- <-. split; [by left|].
      rewrite logged_add. apply tracks_atomic; [done|]. intros [] s7 _ s8 _. right.
      eexists. split; [apply ping_timed_out|]. by rewrite <-(assoc app).
  - apply tracks_atomic; [done|]. intros [] s7 _ s8 _. right. eexists. split; [apply ping_refused|done].
Qed.

(** At the head of the loop: a client that is shut down, or the misses counted. *)
Definition at_head (missed : Z) (h : deeds) (s : St) : Prop :=
  closed s = true ∨ misses_so_far timeout missed h ∧ (0 ≤ missed < allowed)%Z.

Definition turned (next : option Z) (h : deeds) (s : St) : Prop :=
  match next with Some missed => at_head missed h s | None => True end.

Lemma at_head_zero h s : at_head 0 h s.
Proof. right. split; [apply misses_so_far_none, misses_zero|lia]. Qed.

Lemma at_head_stable missed h s s' : closes s s' → at_head missed h s → at_head missed h s'.
Proof. intros Hr [Hc|]; [left; auto|by right]. Qed.

(** The end of a turn: the miss is counted, and the wake-up raised if it was the last
    one allowed. *)
Lemma tracks_force h s :
  closed s = true ∨ misses timeout allowed h → tracks force_reconnect (λ _ _ _, True) h s.
Proof.
  intros Hh. apply tracks_read. intros s1 Hr. destruct (closed s1) eqn:Hc; [done|].
  intros s2 _. split; [|done]. right. destruct Hh as [Hh|Hh]; [|done]. apply Hr in Hh. congruence.
Qed.

Lemma tracks_changed {A} (k : unit → program A) Q h s :
  (∀ h s', tracks (k tt) Q h s') → tracks (Await changed_wait k) Q h s.
Proof.
  intros Hk s1 c [] s2 _ Ho. simpl in Ho. destruct (notify_poll_wait _) as [[]|]; [|discriminate Ho].
  injection Ho as _ <-. split; [by left|apply Hk].
Qed.

Lemma tracks_turn missed h s : at_head missed h s → tracks (keepalive_turn allowed timeout missed) turned h s.
Proof.
  intros Hh. apply tracks_read. intros s1 Hr1. apply (at_head_stable _ _ _ _ Hr1) in Hh. clear s Hr1.
  destruct (closed s1) eqn:Hc1; [by intros s2 _|]. destruct Hh as [Hh|[Hh Hm]]; [congruence|].
  apply tracks_read. intros s2 _. destruct (interval (keepalive s2)) as [d|];
    [|apply tracks_changed; intros h' s3 s4 _; apply at_head_zero].
  intros s3 c b s4 _ Hw. unfold poll_select in Hw.
  destruct (poll changed_wait c s3) as [[[] s']|] eqn:Ho.
  { injection Hw as <- <-. simpl in Ho. destruct (notify_poll_wait _) as [[]|]; [|discriminate Ho].
    injection Ho as _ <-. split; [by left|]. intros s5 _. apply at_head_zero. }
  destruct c; simpl in Hw; try discriminate Hw. injection Hw as <- <-. split; [by left|].
  rewrite logged_add. apply tracks_read. intros s5 _. destruct (closed s5); [by intros s6 _|].
  apply tracks_read. intros s6 _. destruct (interval (keepalive s6)) as [d'|];
    [|intros s7 _; right; split; [by apply misses_skip|done]].
  eapply (follows_bind _ _ _ _ _ _ _ _ _ closes_preorder.(PreOrder_Reflexive)); [apply tracks_ping|].
  clear s1 Hc1 s2 s3 Ho s5 s6. intros [[]|err] h' s Hp; [intros s1 _; apply at_head_zero|].
  assert (Hn : u32_saturating_add missed 1 = (missed + 1)%Z) by width_lia.
  assert (Hq : closed s = true ∨ misses timeout (missed + 1) h').
  { destruct Hp as [Hp|(l & Hl & ->)]; [by left|right]. rewrite <-(assoc app). by apply misses_more. }
  cbv zeta. rewrite Hn. case_bool_decide as Ha.
  - replace (missed + 1)%Z with allowed in Hq by lia.
    eapply (follows_bind _ _ _ _ _ _ _ _ _ closes_preorder.(PreOrder_Reflexive)); [by apply tracks_force|].
    intros _ h'' s1 _ s2 _. apply at_head_zero.
  - intros s1 Hr. destruct Hq as [Hq|Hq]; [left; auto|right]. split; [by apply misses_so_far_none|lia].
Qed.

Lemma tracks_loop fuel missed h s :
  at_head missed h s → tracks (keepalive_loop fuel allowed timeout missed) (λ _ _ _, True) h s.
Proof.
  revert missed h s. induction fuel as [|fuel IH]; intros missed h s Hh; [done|].
  eapply (follows_bind _ _ _ _ _ _ _ _ _ closes_preorder.(PreOrder_Reflexive)); [by apply tracks_turn|].
  intros [next|] h' s' Hn; [by apply IH|done].
Qed.

End Escalation.

Section Client.
Context {SM : SignalModel} {UM : UuidModel} {SJ : SerdeJson} {E : Type} {PE : ProtocolError E} {TErr : Type}.

Abbreviation St := (Client (E := E)).
Abbreviation program A := (prog (St := St) (Ext := Ext (TErr := TErr)) A).

Lemma misses_allowed_range k : is_u32 (max_missed k) → (1 ≤ misses_allowed k ≤ u32_max)%Z.
Proof. unfold misses_allowed. width_lia. Qed.

(** The deadline of a keepalive ping. *)
Definition ping_deadline (config : ClientConfig) : Duration :=
  default (config_timeout config) (ka_timeout (policy_of (config_keepalive config))).

(** C14: keepalive never gives up a connection that answers.  Beside the read loop and
    arbitrary users, under every interleaving: if a step of the keepalive task raises
    the wake-up that makes the read loop redial, then what that task has itself done up
    to there ends in [misses_allowed] rounds, one right after the other, each an interval
    that the timer ended and a ping that the transport refused or that was written and
    timed out; no answered ping, change of the interval or earlier wake-up lies between
    them, and pings that a closed client refuses count for nothing. *)
Theorem redial_forced_only_after_misses fuel conn config (users : list (program unit)) schedule ts s c ts' s' :
  Forall (api unit) users → is_u32 (max_missed (policy_of (config_keepalive config))) →
  run_pool schedule ((from_transport_with_config fuel conn config).2 ++ users)
    (from_transport_with_config (E := E) (TErr := TErr) fuel conn config).1 = Some (ts, s) →
  pool_step 1 c ts s = Some (ts', s') → force_reconnect_signal s' ≠ force_reconnect_signal s →
  misses (ping_deadline config) (misses_allowed (policy_of (config_keepalive config)))
    (history logged 1 schedule ((from_transport_with_config fuel conn config).2 ++ users)
       (from_transport_with_config (E := E) (TErr := TErr) fuel conn config).1).
Proof.
  intros Hu Hk Hrun Hstep Hforced. pose proof (misses_allowed_range _ Hk) as Ha.
  assert (Hpre : PreOrder (closes (E := E))) by (unfold closes; split; [by intros ?|intros ???; auto]).
  destruct (run_pool_follows logged closes (wakes_after_misses (misses_allowed (policy_of (config_keepalive config))) (ping_deadline config))
    (task_spec (λ _, False) True) (λ _ _ _, True) 1
    (keepalive_loop fuel (misses_allowed (policy_of (config_keepalive config))) (ping_deadline config) 0) [] schedule
    ((from_transport_with_config fuel conn config).2 ++ users)
    (from_transport_with_config (E := E) (TErr := TErr) fuel conn config).1 ts s)
    as (p & Hp & Hf); try done.
  - apply grows_preorder.
  - apply guar_grows.
  - intros s1 s2 [_ [Hc _ _] _ _ _]. exact Hc.
  - by apply client_tasks_safe.
  - apply all_allowed.
  - by apply tracks_loop, at_head_zero.
  - unfold pool_step in Hstep. rewrite Hp in Hstep.
    destruct (step c p s) as [[[p' s1] new]|] eqn:Hs; [|done]. injection Hstep as _ <-.
    by destruct (step_follows _ _ _ _ _ _ _ _ _ _ _ Hpre.(PreOrder_Reflexive) Hf Hs) as ([Hg|Hg] & _).
Qed.

End Client.

(** ** Witness

    Two pings go unanswered, the second one because the transport refuses it, while a
    user reads the interval: the next step of the keepalive task raises the wake-up. *)
Definition pinging_config : ClientConfig :=
  with_keepalive (KeepaliveEnabled KeepalivePolicy_default) demo_config.

Abbreviation pinging_client :=
  (from_transport_with_config (E := V1_6.OCPP1_6Error) (TErr := unit) 4 0 pinging_config).

Definition reading_users : list (demo_program unit) := [bind ping_interval (λ _, Ret tt)].

Lemma reading_users_api : Forall (api unit) reading_users.
Proof. constructor; [|constructor]. apply (api_bind _ _ _ ping_interval); [apply api_ping_interval|intros; apply api_ret]. Defined.

Definition two_misses : list (nat * demo_choice) :=
  [(1, CTimer); (1, CTimer); (1, CTimer); (1, CTimer); (1, CTimer);
   (1, CTimer); (1, CTimer); (1, CSink (Ok tt)); (2, CTimer); (1, CTimer); (1, CTimer);
   (1, CTimer); (1, CTimer); (1, CTimer); (1, CTimer); (1, CTimer);
   (1, CTimer); (1, CTimer); (1, CSink (Err tt)); (1, CTimer); (1, CTimer)].

Definition is_raised (s : DemoSt) : bool := signalled (force_reconnect_signal s).

(** The next step of the keepalive task raises the wake-up, on a history of two misses. *)
Definition escalates (x : list (demo_program unit) * DemoSt) : Prop :=
  ∃ y, pool_step 1 (CTimer : demo_choice) x.1 x.2 = Some y ∧
    force_reconnect_signal y.2 ≠ force_reconnect_signal x.2 ∧
    misses (ping_deadline pinging_config) 2
      (history logged 1 two_misses (pinging_client.2 ++ reading_users) pinging_client.1).

Definition is_escalating (x : list (demo_program unit) * DemoSt) : bool :=
  match pool_step 1 (CTimer : demo_choice) x.1 x.2 with
  | Some y => is_raised y.2 && negb (is_raised x.2)
  | None => false
  end.

Lemma redial_forced_only_after_misses_witness :
  match run_pool two_misses (pinging_client.2 ++ reading_users) pinging_client.1 with
  | Some x => escalates x
  | None => False
  end.
Proof.
  apply (ran_to_elim escalates is_escalating); [vm_compute; reflexivity|].
  intros [ts s] Hrun Hx. unfold is_escalating in Hx. unfold escalates.
  destruct (pool_step 1 CTimer _ _) as [[ts' s']|] eqn:Hs; [|discriminate Hx].
  apply andb_prop in Hx as [Hx Hy].
  assert (Hf : force_reconnect_signal s' ≠ force_reconnect_signal s).
  { intros Heq. unfold is_raised in *. cbn [fst snd] in Hx, Hy. rewrite Heq in Hx. rewrite Hx in Hy. discriminate Hy. }
  exists (ts', s'). split; [reflexivity|]. split; [exact Hf|].
  apply (redial_forced_only_after_misses 4 0 pinging_config reading_users two_misses ts s CTimer ts' s' reading_users_api);
    [split; vm_compute; congruence|exact Hrun|exact Hs|exact Hf].
Defined.
