(* ===== verification/Races.v ===== *)
(** * Two interleavings worth knowing

    Concrete schedules in which the client does less than its documentation says. *)

From S2P Require Import Prelude Time Sync Envelope Platform ProtocolErrors Reconnect Keepalive Engine Client ClientInv ClientDemo.
From stdpp Require Import base gmap strings list.

Local Open Scope string_scope.

Definition ended (ts : list (demo_program unit)) (i : nat) : bool :=
  match ts !! i with Some (Ret _) => true | _ => false end.

(** A subscriber registers; the connection ends and the reconnector dials; meanwhile a
    user disconnects, which closes the old transport; then the dial succeeds. *)
Definition disconnect_while_dialling : list (nat * demo_choice) :=
  [(3, CTimer); (0, CRecv (Ok None)); (0, CTimer); (0, CTimer); (0, CUuid 5%N); (0, CTimer); (0, CTimer);
   (2, CTimer); (2, CTimer); (2, CTimer); (2, CSink (Ok tt));
   (0, CDial (Ok 1)); (0, CTimer); (0, CTimer); (0, CTimer); (0, CTimer); (0, CTimer)].

(** A dial that is under way when the client is shut down leaves an open connection
    behind.  In this schedule [disconnect] has returned and the read loop has ended; a
    dial succeeded after the shutdown, the subscribers of [on_reconnect] were notified
    of it, and the transport now installed is the new one, which nothing closed. *)
Lemma disconnect_while_dialling_leaves_a_connection :
  match run_pool disconnect_while_dialling
          (demo_client.2 ++ demo_users ++ [on_reconnect 2 (Ret tt)]) demo_client.1 with
  | Some (ts, s) =>
      ended ts 0 = true ∧ ended ts 2 = true ∧ closed s = true ∧ sink s = 1 ∧
      signalled <$> reconnect_registry s = [true] ∧
      log s = [LDelay (from_millis 500); LClosed; LSink 0 SinkClose true; LDial true]
  | None => False
  end.
Proof. vm_compute. by split_and!. Qed.

(** A CALL is dispatched to the handler of its action; between looking the handler up
    and queueing the CALL for it, the handler is replaced and its task ends. *)
Definition demo_call_frame : string :=
  demo_text (ser_RawCall (mkRawCall MESSAGE_TYPE_CALL "42" "Heartbeat" VNull)).

Definition echo : Request demo_action → demo_program (result (Response demo_action) V1_6.OCPP1_6Error) :=
  λ request, Ret (Ok request).

Definition replaced_while_dispatching : list (nat * demo_choice) :=
  [(2, CTimer); (2, CTimer); (0, CRecv (Ok (Some (Frame demo_call_frame)))); (0, CTimer);
   (3, CTimer); (3, CTimer); (4, CTimer); (0, CTimer); (0, CTimer)].

(** A CALL dispatched while its handler is being replaced can stay unanswered.  In
    this schedule the action has a handler at every moment, yet the CALL ends up in the
    queue of the retired handler after that handler's task has ended: nothing was
    written in reply, and the new handler's queue is empty. *)
Lemma call_lost_while_replacing_its_handler :
  match run_pool replaced_while_dispatching
          (demo_client.2 ++ [on 2 demo_action echo; on 2 demo_action echo]) demo_client.1 with
  | Some (ts, s) =>
      ended ts 4 = true ∧ queue <$> cells (request_senders s) = [[("42", VNull)]; []] ∧
      entries (request_senders s) !! "Heartbeat" = Some 1 ∧
      log s = [LRecv (Frame demo_call_frame)]
  | None => False
  end.
Proof. vm_compute. by split_and!. Qed.
