(* ===== verification/Transport.v ===== *)
(** * What a transport carries, and the contract of its read half

    [src/src/transport.rs]: the engine races [TransportStream::recv] against a wake-up
    and drops it when the wake-up wins, so the trait demands that a dropped [recv] lose
    nothing; and it calls the write half while [recv] waits, so that a call there must not
    disturb what is read.  The contract is stated once, as classes, and each adapter
    discharges it. *)

From S2P Require Import Prelude Client.
From stdpp Require Import base list.

(** What the other end reads of a call on the write half. *)
Definition carried (op : SinkOp) : option TransportEvent :=
  match op with
  | SinkSend frame => Some (Frame frame)
  | SinkPing payload => Some (Ping payload)
  | SinkPong payload => Some (Pong payload)
  | SinkClose => None
  end.

Section Contract.
Context {S I TErr : Type}.

(** [recv] polled from a state of the read half while the given inputs are available
    from below: its result, or [None] while it waits; the state it leaves in [self]; the
    inputs it did not take. *)
Class ReadHalf := stream_recv : S → list I → option (result (option TransportEvent) TErr) * S * list I.

(** A call that waits has taken everything there was, and dropping it is harmless: the
    next call on what it left in [self] returns what it would have returned. *)
Class CancelSafe `{ReadHalf} : Prop := {
  pending_takes_all s inputs s' rest :
    stream_recv s inputs = (None, s', rest) → rest = [];
  dropped_resumes s early later s' rest :
    stream_recv s early = (None, s', rest) → stream_recv s' later = stream_recv s (early ++ later);
}.

(** A call that completed is not affected by what arrives after it. *)
Class Prompt `{ReadHalf} : Prop :=
  completed_ignores_later s early later r s' rest :
    stream_recv s early = (Some r, s', rest) →
    stream_recv s (early ++ later) = (Some r, s', rest ++ later).

(** What starting a call on the write half does to the state it shares with the read
    half. *)
Class WriteHalf := touched : SinkOp → S → S.

(** States that read alike: their calls of [recv] have the same results and leave states
    that read alike.  Calls on the write half lead from a state to one that reads like
    it. *)
Class Undisturbed `{ReadHalf} `{WriteHalf} := {
  alike : relation S;
  #[global] alike_equivalence :: Equivalence alike;
  touched_alike op s : alike (touched op s) s;
  #[global] recv_alike :: Proper (alike ==> eq ==> prod_relation (prod_relation eq alike) eq) stream_recv;
}.

(** Calls dropped while waiting, each with the inputs that arrived during it, until one
    completes. *)
Fixpoint recv_dropping `{ReadHalf} (s : S) (batches : list (list I)) :
    option (result (option TransportEvent) TErr) * S :=
  match batches with
  | [] => (None, s)
  | batch :: batches =>
      match stream_recv s batch with
      | (None, s', _) => recv_dropping s' batches
      | (Some r, s', _) => (Some r, s')
      end
  end.

(** However often it is dropped, the call that completes returns what a single
    uninterrupted call would have returned, and leaves the same state. *)
Lemma recv_dropping_uninterrupted `{Hrh : ReadHalf} `{!CancelSafe} `{!Prompt} s batches :
  recv_dropping s batches = (stream_recv s (concat batches)).1 ∨ batches = [].
Proof.
  revert s. induction batches as [|batch batches IH]; intros s; [by right|left]. simpl.
  destruct (stream_recv s batch) as [[[r|] s1] rest] eqn:He.
  - by rewrite (completed_ignores_later _ _ _ _ _ _ He).
  - destruct (IH s1) as [->| ->].
    + by rewrite (dropped_resumes _ _ _ _ _ He).
    + simpl. by rewrite app_nil_r, He.
Qed.

End Contract.
Arguments ReadHalf : clear implicits.
Arguments WriteHalf : clear implicits.
Arguments CancelSafe {S I TErr} _.
Arguments Prompt {S I TErr} _.
Arguments Undisturbed {S I TErr} _ _.

(** Halves that share no state. *)
#[global] Instance no_shared_state : WriteHalf unit := λ _ s, s.

#[global] Instance no_shared_state_undisturbed {I TErr} (Hrh : ReadHalf unit I TErr) : Undisturbed Hrh no_shared_state.
Proof. refine {| alike := eq; touched_alike _ _ := eq_refl |}. Defined.
