(* ===== verification/System.v ===== *)
(** * Two clients over one connection

    A caller and a peer, each a client with its background tasks and any users, exchange
    events over a link which may lose, delay, repeat and reorder what is handed to it, but
    does not make anything up.  A [call] at one end then behaves like a call of the
    handler at the other end: whatever it returns to its caller is what a handler of that
    action yielded for that very request. *)

From S2P Require Import Prelude Time Sync Envelope Platform ProtocolErrors Reconnect Keepalive Engine Client ClientInv ClientLogic ClientDemo History ClientSafety ClientReplies Transport.
From stdpp Require Import base gmap strings list relations.

#[export] Instance byte_eq_dec : EqDecision byte.
Proof. exact Byte.byte_eq_dec. Defined.

#[export] Instance TransportEvent_eq_dec : EqDecision TransportEvent.
Proof. solve_decision. Defined.

(** The events one end has handed to the link, whether or not the transport then
    reported success. *)
Definition handed (l : list LogEntry) : list TransportEvent :=
  omap (λ e, match e with LSink _ op _ => carried op | _ => None end) l.

Section System.
Context {SM : SignalModel} {UM : UuidModel} {SJ : SerdeJson} {E : Type} {PE : ProtocolError E} {TErr : Type}.

Abbreviation St := (Client (E := E)).
Abbreviation Ch := (Choice (TErr := TErr)).
Abbreviation program A := (prog (St := St) (Ext := Ext (TErr := TErr)) A).

(** The observed program at the caller's end, the other tasks of both ends, and the
    state of both clients. *)
Record System (A : Type) := mkSystem {
  observed : program A;
  near_tasks : list (program unit);
  near : St;
  far_tasks : list (program unit);
  far : St;
}.
Arguments mkSystem {A} _ _ _ _ _.
Arguments observed {A} _.
Arguments near_tasks {A} _.
Arguments near {A} _.
Arguments far_tasks {A} _.
Arguments far {A} _.

(** One task at one end steps; what its transport reads was handed over by the other. *)
Inductive move := Near (i : option nat) (c : Ch) | Far (i : nat) (c : Ch).

Definition delivers (c : Ch) (l : list LogEntry) : bool :=
  match c with CRecv (Ok (Some event)) => bool_decide (event ∈ handed l) | _ => true end.

Definition system_step {A} (m : move) (x : System A) : option (System A) :=
  match m with
  | Near i c =>
      if delivers c (log (far x)) then
        match run_among [(i, c)] (observed x) (near_tasks x) (near x) with
        | Some (p, ts, s) => Some (mkSystem p ts s (far_tasks x) (far x))
        | None => None
        end
      else None
  | Far i c =>
      if delivers c (log (near x)) then
        match run_pool [(i, c)] (far_tasks x) (far x) with
        | Some (ts, s) => Some (mkSystem (observed x) (near_tasks x) (near x) ts s)
        | None => None
        end
      else None
  end.

Fixpoint run_system {A} (moves : list move) (x : System A) : option (System A) :=
  match moves with
  | [] => Some x
  | m :: rest => match system_step m x with Some x' => run_system rest x' | None => None end
  end.

Lemma run_system_app {B} moves more (x x' : System B) :
  run_system moves x = Some x' → run_system (moves ++ more) x = run_system more x'.
Proof.
  revert x. induction moves as [|m moves IH]; intros x; simpl; [by intros [= ->]|].
  destruct (system_step m x) as [x1|]; [apply IH|done].
Qed.

Definition near_schedule (moves : list move) : list (option nat * Ch) :=
  omap (λ m, match m with Near i c => Some (i, c) | Far _ _ => None end) moves.
Definition far_schedule (moves : list move) : list (nat * Ch) :=
  omap (λ m, match m with Far i c => Some (i, c) | Near _ _ => None end) moves.

(** Each end runs as it would alone. *)
Lemma run_system_projects {A} moves (x x' : System A) :
  run_system moves x = Some x' →
  run_among (near_schedule moves) (observed x) (near_tasks x) (near x)
    = Some (observed x', near_tasks x', near x') ∧
  run_pool (far_schedule moves) (far_tasks x) (far x) = Some (far_tasks x', far x').
Proof.
  revert x. induction moves as [|[i c|i c] rest IH]; intros x; cbn [run_system system_step].
  - by intros [= ->].
  - destruct (delivers c _); [|done].
    change (near_schedule (Near i c :: rest)) with ((i, c) :: near_schedule rest). rewrite (run_among_cons _ (near_schedule rest)).
    destruct (run_among [_] _ _ _) as [[[p ts] s]|]; [|done]. intros Hrun. exact (IH _ Hrun).
  - destruct (delivers c _); [|done].
    change (far_schedule (Far i c :: rest)) with ([(i, c)] ++ far_schedule rest). rewrite (run_pool_app _ (far_schedule rest)).
    destruct (run_pool [_] _ _) as [[ts s]|]; [|done]. intros Hrun. exact (IH _ Hrun).
Qed.

(** The events a schedule lets its tasks read. *)
Definition reads {I} (offered : TransportEvent → Prop) (x : I * Ch) : Prop :=
  ∀ event, x.2 = CRecv (Ok (Some event)) → offered event.

(** ** The caller's end

    The observed program, which draws identifiers in [drawn] and sends no text but CALLs
    [sent] says, beside other tasks which never draw an identifier in [mine]. *)

(** Handlers that do what they like. *)
Definition any_contract : Contract (E := E) := mkContract (λ _, True) (λ _ _ _, True).

Lemma users_serve (users : list (program unit)) :
  Forall (api unit) users → Forall (api_with (serves any_contract) unit) users.
Proof.
  intros Hu. eapply Forall_impl; [exact Hu|]. intros t. apply api_with_impl.
  intros A callback _. split; [done|]. intros r. apply yields_true.
Qed.

Section Caller.
Context (drawn mine : Uuid → Prop) (sent : string → Prop) (offered : TransportEvent → Prop).

Definition own (e : LogEntry) : Prop :=
  match e with
  | LSink _ (SinkSend frame) _ =>
      sent frame ∧ ∀ t i, frame_head frame = Some (t, i) → t = MESSAGE_TYPE_CALL
  | LSink _ (SinkPong _) _ | LRecv _ => False
  | _ => True
  end.

(** What the caller's log then says: every CALL with such an identifier is one of the
    program's, and only what was offered has been received. *)
Definition near_entry (e : LogEntry) : Prop :=
  match e with
  | LSink _ (SinkSend frame) _ => ∀ u, call_uuid frame = Some u → mine u → sent frame
  | LRecv event => offered event
  | _ => True
  end.

Abbreviation caller_moves := (moves any_contract).

Definition own_guar (s s' : St) : Prop :=
  caller_moves s s' ∧ ∃ l, log s' = log s ++ l ∧ Forall own l.

Definition own_choice (c : Ch) : Prop := match c with CUuid u => drawn u | _ => True end.

Definition own_spec : spec (St := St) (Choice := Ch) := mkSpec own_choice caller_moves own_guar.

Abbreviation others_spec := (replies_spec (TErr := TErr) any_contract mine offered).

Lemma own_same (s s' : St) :
  log s' = log s → request_senders s' = request_senders s → own_guar s s'.
Proof.
  intros Hl Hr. split; [by apply (guar_same _ (λ _, False) (λ _, True))|].
  exists []. by rewrite Hl, app_nil_r.
Qed.

Lemma own_logs e (s : St) : own e → own_guar s (add_log e s).
Proof.
  intros He. split; [|exists [e]; by auto]. apply (guar_moves _ (λ _, False) (λ _, True)).
  apply replies_guar_log; destruct e as [conn [frame| | |] ok| | | |]; try done.
  - intros t i Hh. destruct He as [_ He]. rewrite (He _ _ Hh). by intros [].
  - intros u _. by intros ?.
Qed.

Lemma own_with_timeout {B C} d (f : fut B) (k : result B Elapsed_t → program C) :
  (∀ s c b s', poll f c s = Some (b, s') → own_guar s s') → (∀ r, steps_in own_choice own_guar (k r)) →
  steps_in own_choice own_guar (bind (with_timeout d f) k).
Proof.
  intros Hf Hk. apply steps_in_bind; [|exact Hk]. intros s c b s' _ Hp. unfold poll_select in Hp.
  split; [|by destruct b]. destruct (poll f c s) as [[v s1]|] eqn:Hw; [injection Hp as _ <-; by eapply Hf|].
  destruct c; simpl in Hp; try discriminate Hp. injection Hp as _ <-. by apply own_logs.
Qed.

Definition near_good {B} (p : program B) (ts : list (program unit)) (s : St) : Prop :=
  safe own_spec p (λ _ _, True) s ∧ pool_safe others_spec ts s.

Lemma near_start {B} (p : program B) fuel conn config users s :
  steps_in own_choice own_guar p → replies_inv any_contract s → Forall (api unit) users →
  near_good p ((from_transport_with_config fuel conn config).2 ++ users) s.
Proof.
  intros Hp Hi Hu. split; [by eapply steps_in_safe|].
  by apply replies_tasks, users_serve.
Qed.

(** The observed program draws its own identifiers, and nobody else does. *)
Definition draws (x : option nat * Ch) : Prop :=
  match x with
  | (None, CUuid u) => drawn u
  | (Some _, CUuid u) => ¬ mine u
  | _ => True
  end.

Lemma near_steps {B} schedule (p p' : program B) ts ts' s s' :
  near_good p ts s → Forall draws schedule → Forall (reads offered) schedule →
  run_among schedule p ts s = Some (p', ts', s') →
  near_good p' ts' s' ∧
  rtc (λ s s', own_guar s s' ∨ replies_guar any_contract mine offered s s') s s'.
Proof.
  intros [Hp Ht] Hd Ho Hrun.
  assert (Hall : Forall (λ x, match x.1 with None => allow own_spec x.2 | Some _ => allow others_spec x.2 end) schedule).
  { apply Forall_forall. intros [i c] Hin. pose proof (proj1 (Forall_forall _ _) Hd _ Hin) as Hx.
    pose proof (proj1 (Forall_forall _ _) Ho _ Hin) as Hy. destruct i, c; simpl in *; try done; split; done. }
  split; [eapply (run_among_both own_spec others_spec)|eapply (run_among_steps own_spec others_spec)];
    try done; try apply moves_preorder; try apply guar_moves; by intros ? ? [].
Qed.

Lemma near_log {B} schedule (p p' : program B) ts ts' s s' :
  near_good p ts s → Forall draws schedule → Forall (reads offered) schedule →
  run_among schedule p ts s = Some (p', ts', s') →
  log s `prefix_of` log s' ∧ (Forall near_entry (log s) → Forall near_entry (log s')).
Proof.
  intros Hg Hd Ho Hrun. destruct (near_steps _ _ _ _ _ _ _ Hg Hd Ho Hrun) as [_ Hsteps].
  clear Hg Hrun. induction Hsteps as [s|s s1 s2 Hstep _ [Hpre IH]]; [done|]. split.
  - etrans; [|exact Hpre]. destruct Hstep as [[Hm _]|[Hm _]]; apply Hm.
  - intros Hl. apply IH. destruct Hstep as [(_ & l & -> & Hnew)|(_ & l & -> & Hnew)]; apply Forall_app;
      (split; [done|]); (eapply Forall_impl; [exact Hnew|]); intros [conn' [frame| | |] ok| | | |]; simpl; try done.
    + by intros [? _].
    + intros Hf u Hu Hm. by destruct (Hf u Hu).
Qed.

End Caller.

(** ** The peer's end *)

Section Peer.
Context (Spec : Contract (E := E)) (offered : TransportEvent → Prop).

Abbreviation far_spec := (replies_spec (TErr := TErr) Spec (λ _, False) offered).

Lemma far_steps schedule (ts ts' : list (program unit)) s s' :
  pool_safe far_spec ts s → Forall (reads offered) schedule → run_pool schedule ts s = Some (ts', s') →
  pool_safe far_spec ts' s' ∧ log s `prefix_of` log s' ∧ (replies_inv Spec s → replies_inv Spec s') ∧
  (Forall (foreign (λ _, False) offered) (log s) → Forall (foreign (λ _, False) offered) (log s')).
Proof.
  intros Ht Ho Hrun.
  destruct (run_pool_safe far_spec schedule ts s ts' s') as [Hts Hsteps]; try done.
  - apply moves_preorder.
  - apply guar_moves.
  - eapply Forall_impl; [exact Ho|]. intros [i c] Hc. split; [|done]. destruct c; try done. by intros ?.
  - split; [done|]. clear Ht Hrun Hts.
    induction Hsteps as [s|s s1 s2 (Hm & l & Hl & Hnew) _ (Hpre & IH & IHf)]; [done|].
    split; [etrans; [apply Hm|done]|]. split; [intros ?; by apply IH, Hm|]. intros ?. apply IHf.
    rewrite Hl. by apply Forall_app.
Qed.

End Peer.

(** ** The link *)

Definition draws_near (drawn mine : Uuid → Prop) (m : move) : Prop :=
  match m with Near i c => draws drawn mine (i, c) | Far _ _ => True end.

Lemma near_draws drawn mine moves : Forall (draws_near drawn mine) moves → Forall (draws drawn mine) (near_schedule moves).
Proof.
  induction 1 as [|[i c|i c] rest Hm _ IH]; [by constructor|constructor; done|done].
Qed.

Lemma handed_prefix l l' event : l `prefix_of` l' → event ∈ handed l → event ∈ handed l'.
Proof. intros [k ->]. unfold handed. rewrite omap_app, elem_of_app. auto. Qed.

Lemma reads_handed {I} (i : I) (c : Ch) l l' :
  delivers c l = true → l `prefix_of` l' → reads (λ event, event ∈ handed l') (i, c).
Proof.
  intros Hd Hp event Hc. simpl in Hc. subst c. eapply handed_prefix; [exact Hp|].
  by apply bool_decide_eq_true in Hd.
Qed.

(** Whatever an end reads has been handed over by the other. *)
Lemma run_system_reads {B} drawn mine sent Spec moves (x x' : System B) :
  near_good drawn mine sent (λ _, True) (observed x) (near_tasks x) (near x) →
  pool_safe (replies_spec Spec (λ _, False) (λ _, True)) (far_tasks x) (far x) →
  Forall (draws_near drawn mine) moves → run_system moves x = Some x' →
  Forall (reads (λ event, event ∈ handed (log (far x')))) (near_schedule moves) ∧
  Forall (reads (λ event, event ∈ handed (log (near x')))) (far_schedule moves) ∧
  log (near x) `prefix_of` log (near x') ∧ log (far x) `prefix_of` log (far x').
Proof.
  revert x. induction moves as [|[i c|i c] rest IH]; intros x Hn Hf Hd; cbn [run_system system_step].
  - intros [= ->]. by repeat constructor.
  - apply Forall_cons in Hd as [Hd Hrest]. destruct (delivers c _) eqn:Hdel; [|done].
    destruct (run_among [(i, c)] _ _ _) as [[[p ts] s]|] eqn:Hstep; [|done].
    assert (Ho : Forall (reads (λ _, True)) [(i, c)]) by by repeat constructor.
    assert (Hdo : Forall (draws drawn mine) [(i, c)]) by by repeat constructor.
    destruct (near_steps _ _ _ _ _ _ _ _ _ _ _ Hn Hdo Ho Hstep) as [Hn1 _].
    destruct (near_log _ _ _ _ _ _ _ _ _ _ _ Hn Hdo Ho Hstep) as [Hpre _].
    intros Hrun. destruct (IH (mkSystem p ts s (far_tasks x) (far x)) Hn1 Hf Hrest Hrun) as (Hr1 & Hr2 & Hl1 & Hl2).
    split; [constructor; [by eapply reads_handed|done]|]. split; [done|]. split; [by etrans|done].
  - apply Forall_cons in Hd as [_ Hrest]. destruct (delivers c _) eqn:Hdel; [|done].
    destruct (run_pool [(i, c)] _ _) as [[ts s]|] eqn:Hstep; [|done].
    assert (Ho : Forall (reads (λ _, True)) [(i, c)]) by by repeat constructor.
    destruct (far_steps _ _ _ _ _ _ _ Hf Ho Hstep) as (Hf1 & Hpre & _).
    intros Hrun. destruct (IH (mkSystem (observed x) (near_tasks x) (near x) ts s) Hn Hf1 Hrest Hrun) as (Hr1 & Hr2 & Hl1 & Hl2).
    split; [done|]. split; [constructor; [by eapply reads_handed|done]|]. split; [done|by etrans].
Qed.

(** The state both ends are in: each has read only what the other handed over, and the
    peer has kept its contract. *)
Record connected mine sent Spec (s t : St) : Prop := {
  near_entries : Forall (near_entry mine sent (λ event, event ∈ handed (log t))) (log s);
  far_entries : Forall (foreign (λ _, False) (λ event, event ∈ handed (log s))) (log t);
  far_replies : replies_inv Spec t;
}.

(** Two fresh clients with their users, and a program about to run at the near end. *)
Definition system_start {B} (fuel : nat) (p : program B) (near_conn far_conn : nat)
    (near_config far_config : ClientConfig) (near_users far_users : list (program unit)) : System B :=
  let n := from_transport_with_config fuel near_conn near_config in
  let f := from_transport_with_config fuel far_conn far_config in
  mkSystem p (n.2 ++ near_users) n.1 (f.2 ++ far_users) f.1.

(** At every moment both ends are connected. *)
Lemma run_system_connected {B} drawn mine sent Spec (p : program B) fuel nc fc ncfg fcfg near_users far_users moves x :
  steps_in (own_choice drawn) (own_guar sent) p →
  Forall (api unit) near_users → Forall (api_with (serves Spec) unit) far_users →
  Forall (draws_near drawn mine) moves →
  run_system moves (system_start fuel p nc fc ncfg fcfg near_users far_users) = Some x →
  connected mine sent Spec (near x) (far x).
Proof.
  intros Hp Hu Hf Hd Hrun. destruct (run_system_projects _ _ _ Hrun) as [Hnear Hfar].
  pose proof (near_draws _ _ _ Hd) as Hnd.
  set (start := system_start _ _ _ _ _ _ _ _) in *.
  destruct (run_system_reads drawn mine sent Spec moves start x) as (Hr1 & Hr2 & _); [..|done|done|].
  - apply near_start; [done|apply replies_inv_start|done].
  - apply replies_tasks; [apply replies_inv_start|done].
  - assert (Hgood : near_good drawn mine sent (λ event, event ∈ handed (log (far x)))
      (observed start) (near_tasks start) (near start)) by (apply near_start; [done|apply replies_inv_start|done]).
    assert (Hpool : pool_safe (replies_spec Spec (λ _, False) (λ event, event ∈ handed (log (near x))))
      (far_tasks start) (far start)) by (apply replies_tasks; [apply replies_inv_start|done]).
    destruct (near_log _ _ _ _ _ _ _ _ _ _ _ Hgood Hnd Hr1 Hnear) as [_ Hn].
    destruct (far_steps _ _ _ _ _ _ _ Hpool Hr2 Hfar) as (_ & _ & Hi & He).
    split; [by apply Hn|by apply He|by apply Hi, replies_inv_start].
Qed.

Lemma handed_event l event : event ∈ handed l → ∃ c op ok, carried op = Some event ∧ LSink c op ok ∈ l.
Proof.
  unfold handed. rewrite list_elem_of_omap. intros ([c op ok| | | |] & Hin & He); simplify_eq/=. eauto 6.
Qed.

Lemma handed_frame l frame : Frame frame ∈ handed l → ∃ c ok, LSink c (SinkSend frame) ok ∈ l.
Proof. intros (c & [] & ok & He & Hin)%handed_event; simplify_eq/=. eauto. Qed.

Lemma handed_pong l payload : Pong payload ∈ handed l → ∃ c ok, LSink c (SinkPong payload) ok ∈ l.
Proof. intros (c & [] & ok & He & Hin)%handed_event; simplify_eq/=. eauto. Qed.

(** ** Pings *)

Lemma own_send_ping timeout :
  steps_in (own_choice (λ _, True)) (own_guar (λ _, False)) (send_ping (TErr := TErr) timeout).
Proof.
  intros s. split; [by apply own_same|]. cbn [fst snd bind]. destruct (closed s); [done|].
  intros s1. split; [by apply own_same|]. cbn [fst snd bind].
  intros s2 c b s2' _ Hp. destruct c as [|r| | |]; simpl in Hp; try discriminate Hp. injection Hp as <- <-.
  split; [by apply own_logs|]. cbn [bind]. destruct r as [[]|err]; [|by intros s4; split; [apply own_same|]].
  apply own_with_timeout; [|intros [?|[]]; [done|by intros s4; split; [apply own_same|]]].
  intros s3 c b s3'. simpl. destruct (cells (waiters (pong_waiters s3)) !! _); [|done].
  destruct (oneshot_poll_wait _) as [[]|]; [|done]. intros [= <- <-]. by apply own_same.
Qed.

(** ** What the call returns *)

(** The call's own frame. *)
Definition own_frame (A : Action) (request : Request A) (id : Uuid) (frame : string) : Prop :=
  ∃ payload, ser_request A request = Ok payload ∧
    to_string (ser_RawCall (mkRawCall MESSAGE_TYPE_CALL (uuid_to_string id) (NAME A) payload)) = Ok frame.

Lemma own_head A request id frame t i :
  own_frame A request id frame → frame_head frame = Some (t, i) → t = MESSAGE_TYPE_CALL ∧ i = uuid_to_string id.
Proof. intros (payload & _ & Hf). by eapply frame_head_text; [|exact Hf]. Qed.

Lemma own_call timeout A request id :
  steps_in (own_choice (λ u, u = id)) (own_guar (own_frame A request id)) (call (TErr := TErr) timeout A request).
Proof.
  intros s. split; [by apply own_same|]. cbn [fst snd bind]. destruct (closed s); [done|].
  intros s1 c b s1' Hc Hp. destruct c; simpl in Hp; try discriminate Hp. injection Hp as <- <-.
  split; [by apply own_same|]. simpl in Hc. subst u. cbn [bind].
  destruct (ser_request A request) as [payload|] eqn:Hpay; [|done]. cbv beta iota zeta.
  destruct (to_string _) as [frame|] eqn:Hf; [|done].
  assert (Hown : own_frame A request id frame) by by exists payload.
  intros s2. split; [by apply own_same|]. cbn [fst snd bind].
  intros s3 c b s3' _ Hp. destruct c as [|r| | |]; simpl in Hp; try discriminate Hp. injection Hp as <- <-.
  split; [apply own_logs; split; [done|]; intros t i Hh; by eapply own_head|]. cbn [bind].
  destruct r as [[]|err]; cbn [bind]; [|by intros s4; split; [apply own_same|]].
  apply own_with_timeout.
  - intros s4 c b s4'. simpl. destruct (cells (pending_responses s4) !! _); [|done].
    destruct (oneshot_poll_wait _) as [[]|]; [|done]. intros [= <- <-]. by apply own_same.
  - intros [[v|e]|[]]; cbn [bind]; try done. intros s5. by split; [apply own_same|].
Qed.

(** The peer's handlers of the action of that name are handlers of [A], and yield what
    [S] says; those of other actions do what they like. *)
Inductive yields_as (A : Action) (S : Request A → result (Response A) E → Prop) :
    ∀ A' : Action, Request A' → result (Response A') E → Prop :=
| yields_same request outcome : S request outcome → yields_as A S A request outcome
| yields_other A' request outcome : NAME A' ≠ NAME A → yields_as A S A' request outcome.

Definition handler_of (A : Action) (S : Request A → result (Response A) E → Prop) : Contract :=
  mkContract (λ A', NAME A' = NAME A → A' = A) (yields_as A S).

(** How an error of the peer's looks after the trip: [from_wire] of its fields, the
    details as the wire carries them. *)
Definition error_received (e0 e : E) : Prop :=
  ∃ d, e = from_wire (code e0) (description e0) d ∧ (wire_exact (details e0) = true → d = details e0).

Definition unhandled (A : Action) : E := not_implemented ("Action '" +:+ NAME A +:+ "' is not implemented").

(** The request and the responses of the handlers survive encoding and decoding. *)
Record transportable (A : Action) (S : Request A → result (Response A) E → Prop) (request : Request A) : Prop := {
  request_survives v : ser_request A request = Ok v → wire_exact v = true ∧ de_request A v = Ok request;
  response_survives r v : S request (Ok r) → ser_response A r = Ok v → wire_exact v = true ∧ de_response A v = Ok r;
}.

(** [call] as a call of the handler. *)
Definition as_if_called (A : Action) (S : Request A → result (Response A) E → Prop) (request : Request A)
    (id : Uuid) (r : result (Response A) (ClientError E JsonError TErr)) : Prop :=
  match r with
  | Ok x => S request (Ok x)
  | Err (Protocol e) => ∃ e0, error_received e0 e ∧ (S request (Err e0) ∨ e0 = unhandled A)
  | Err (Decode _) => ∀ frame, ¬ own_frame A request id frame
  | Err _ => True
  end.

(** The answer to the call's own frame, as the peer wrote it. *)
Lemma reply_to_own A S request id frame payload reply :
  transportable A S request → own_frame A request id frame →
  from_str frame = Ok (ser_RawCall (mkRawCall MESSAGE_TYPE_CALL (uuid_to_string id) (NAME A) payload)) →
  reply_for (handler_of A S) (NAME A) payload (uuid_to_string id) reply →
  (∃ r v, S request (Ok r) ∧ ser_response A r = Ok v ∧
     to_string (ser_RawResult (mkRawResult MESSAGE_TYPE_RESULT (uuid_to_string id) v)) = Ok reply) ∨
  (∃ e0, (S request (Err e0) ∨ e0 = unhandled A) ∧
     to_string (ser_RawError (mkRawError MESSAGE_TYPE_ERROR (uuid_to_string id) (code e0) (description e0) (details e0)))
       = Ok reply).
Proof.
  intros [Hreq _] (v & Hv & Hf) Hread Hreply. destruct (Hreq _ Hv) as [Hexact Hde].
  assert (payload = v) as ->.
  { destruct (envelope_read MESSAGE_TYPE_CALL (uuid_to_string id) _ _ _ ltac:(by split) Hf Hread) as (rest & Heq & HF).
    cbn in Heq. injection Heq as <-. apply Forall2_cons in HF as [_ HF]. apply Forall2_cons in HF as [Hp _]. auto. }
  destruct Hreply as [A' request' outcome Hh Hname Hd Hs Hr|A' error Hh Hname Hd Hr|Hr].
  - destruct Hs as [request' outcome Hs|]; [|done]. assert (request' = request) as -> by congruence.
    unfold response_frame in Hr. destruct outcome as [r|e0]; [left|right].
    + destruct (ser_response A r) as [w|] eqn:Hw; [|done]. destruct (to_string (ser_RawResult _)) as [text|] eqn:Ht; [|done].
      injection Hr as ->. by exists r, w.
    + destruct (to_string (ser_RawError _)) as [text|] eqn:Ht; [|done]. injection Hr as ->. exists e0. auto.
  - specialize (Hh Hname) as ->. congruence.
  - right. exists (unhandled A). auto.
Qed.

Abbreviation connected_call A S request id :=
  (connected (λ u, u = id) (own_frame A request id) (handler_of A S)).

(** An answer the caller has received is the peer's answer to this very call. *)
Lemma answer_traced A S request id (s t : St) reply text ty :
  transportable A S request → connected_call A S request id s t →
  LRecv (Frame reply) ∈ log s → frame_head reply = Some (ty, text) →
  ty = MESSAGE_TYPE_RESULT ∨ ty = MESSAGE_TYPE_ERROR → uuid_parse_str text = Some id →
  (∃ r v, S request (Ok r) ∧ ser_response A r = Ok v ∧
     to_string (ser_RawResult (mkRawResult MESSAGE_TYPE_RESULT (uuid_to_string id) v)) = Ok reply) ∨
  (∃ e0, (S request (Err e0) ∨ e0 = unhandled A) ∧
     to_string (ser_RawError (mkRawError MESSAGE_TYPE_ERROR (uuid_to_string id) (code e0) (description e0) (details e0)))
       = Ok reply).
Proof.
  intros Htr [Hnear Hfar [Hlog _]] Hin Hhead Hty Hid.
  pose proof (proj1 (Forall_forall _ _) Hnear _ Hin) as (c & ok & Hsent)%handed_frame.
  apply list_elem_of_lookup in Hsent as [i Hi].
  destruct (Hlog _ _ Hi _ _ Hhead Hty) as (name & payload & (frame & Hrecv & Hread) & Hreply).
  assert (Hrecv' : LRecv (Frame frame) ∈ log t) by (eapply elem_of_subseteq; [apply subseteq_take|exact Hrecv]).
  pose proof (proj1 (Forall_forall _ _) Hfar _ Hrecv') as (c2 & ok2 & Hcall)%handed_frame.
  pose proof (proj1 (Forall_forall _ _) Hnear _ Hcall) as Hown. cbn [near_entry] in Hown.
  assert (call_uuid frame = Some id) as Hu by (unfold call_uuid, frame_head; rewrite Hread; exact Hid).
  specialize (Hown id Hu eq_refl). destruct Hown as (v & Hv & Hf).
  destruct (envelope_read MESSAGE_TYPE_CALL (uuid_to_string id) _ _ _ ltac:(by split) Hf Hread) as (rest & Heq & HF).
  cbn in Heq. injection Heq as -> <-. apply Forall2_cons in HF as [Hname _].
  specialize (Hname eq_refl). injection Hname as ->.
  eapply reply_to_own; [done|by exists v|exact Hread|exact Hreply].
Qed.

Lemma result_read id v reply t text p :
  to_string (ser_RawResult (mkRawResult MESSAGE_TYPE_RESULT id v)) = Ok reply →
  from_str reply = Ok (VArray [VNumber (PosInt t); VString text; p]) →
  t = MESSAGE_TYPE_RESULT ∧ (wire_exact v = true → p = v).
Proof.
  intros Ht Hr. destruct (envelope_read MESSAGE_TYPE_RESULT id _ _ _ ltac:(by split) Ht Hr) as (rest & Heq & HF).
  injection Heq as -> -> <-. by apply Forall2_cons in HF as [? _].
Qed.

Lemma error_read id c d x reply t text c' d' x' :
  to_string (ser_RawError (mkRawError MESSAGE_TYPE_ERROR id c d x)) = Ok reply →
  from_str reply = Ok (VArray [VNumber (PosInt t); VString text; VString c'; VString d'; x']) →
  t = MESSAGE_TYPE_ERROR ∧ c' = c ∧ d' = d ∧ (wire_exact x = true → x' = x).
Proof.
  intros Ht Hr. destruct (envelope_read MESSAGE_TYPE_ERROR id _ _ _ ltac:(by split) Ht Hr) as (rest & Heq & HF).
  injection Heq as -> -> <-. apply Forall2_cons in HF as [Hc HF]. apply Forall2_cons in HF as [Hd HF].
  apply Forall2_cons in HF as [Hx _]. specialize (Hc eq_refl). specialize (Hd eq_refl). naive_solver.
Qed.

Lemma head_of frame t id rest :
  from_str frame = Ok (VArray (VNumber (PosInt t) :: VString id :: rest)) → frame_head frame = Some (t, id).
Proof. unfold frame_head. by intros ->. Qed.

(** The CALLRESULT or CALLERROR that settled the call, read back. *)
Lemma answered_as_if A S request id (s t : St) outcome :
  transportable A S request → connected_call A S request id s t → answered (log s) id outcome →
  match outcome with
  | Ok payload => ∃ r, S request (Ok r) ∧ de_response A payload = Ok r
  | Err e => ∃ e0, error_received e0 e ∧ (S request (Err e0) ∨ e0 = unhandled A)
  end.
Proof.
  intros Htr Hc (reply & Hin & Ha). destruct Ha as [text payload Hr Hid|text c d x Hr Hid].
  - destruct (answer_traced A S request id s t reply text MESSAGE_TYPE_RESULT Htr Hc Hin (head_of _ _ _ _ Hr) (or_introl eq_refl) Hid)
      as [(r & v & HS & Hv & Ht)|(e0 & _ & Ht)].
    + destruct (result_read _ _ _ _ _ _ Ht Hr) as [_ Hp].
      destruct (response_survives _ _ _ Htr _ _ HS Hv) as [Hexact Hde]. exists r. by rewrite (Hp Hexact).
    + destruct (envelope_read MESSAGE_TYPE_ERROR (uuid_to_string id) _ _ _ ltac:(by split) Ht Hr) as (rest & Heq & _).
      by injection Heq.
  - destruct (answer_traced A S request id s t reply text MESSAGE_TYPE_ERROR Htr Hc Hin (head_of _ _ _ _ Hr) (or_intror eq_refl) Hid)
      as [(r & v & HS & Hv & Ht)|(e0 & HS & Ht)].
    + destruct (envelope_read MESSAGE_TYPE_RESULT (uuid_to_string id) _ _ _ ltac:(by split) Ht Hr) as (rest & Heq & _).
      by injection Heq.
    + destruct (error_read _ _ _ _ _ _ _ _ _ _ Ht Hr) as (_ & -> & -> & Hx). exists e0. split; [|done]. by exists x.
Qed.

(** C1: a [call] is a call of the peer's handler.  Two clients run over a link that may
    lose, delay, repeat and reorder but not invent, each beside any users, with any
    interleaving of both ends; every handler the peer registers under the name of
    action [A] is a handler of [A] that yields only what [S] allows, and the request
    and such responses survive their own encoding.  If [call] returns [Ok x] then [S]
    allows exactly the outcome [Ok x] for this request; a protocol error is the
    [from_wire] of an error that [S] allows for this request, or of the refusal of an
    action without handler; a decoding error means that the request has no encoding. *)
Theorem call_is_a_call_of_the_handler fuel nc fc ncfg fcfg near_users far_users timeout A S request id moves r x :
  Forall (api unit) near_users → Forall (api_with (serves (handler_of A S)) unit) far_users →
  Forall (draws_near (λ u, u = id) (λ u, u = id)) moves → transportable A S request →
  run_system moves (system_start fuel (call timeout A request) nc fc ncfg fcfg near_users far_users) = Some x →
  observed x = Ret r → as_if_called A S request id r.
Proof.
  intros Hu Hf Hd Htr Hrun Hret.
  pose proof (run_system_connected _ _ _ (handler_of A S) _ _ _ _ _ _ _ _ _ _ (own_call timeout A request id) Hu Hf Hd Hrun) as Hc.
  destruct (run_system_projects _ _ _ Hrun) as [Hnear _]. rewrite Hret in Hnear.
  destruct (call_settled _ _ _ _ _ _ _ _ _ _ _ _ Hu (near_draws _ _ _ Hd) Hnear) as [_ He].
  destruct r as [y|[e| |e|err|]]; simpl in *; try done.
  - destruct He as (_ & payload & Ha & Hy).
    destruct (answered_as_if _ _ _ _ _ _ _ Htr Hc Ha) as (r' & HS & Hr'). by assert (r' = y) as -> by congruence.
  - destruct He as (_ & Ha). by apply (answered_as_if _ _ _ _ _ _ _ Htr Hc Ha).
  - intros frame (v & Hv & Hf'). destruct He as [He|[(payload & Hp & He)|(_ & payload & Ha & Hy)]]; [congruence..|].
    destruct (answered_as_if _ _ _ _ _ _ _ Htr Hc Ha) as (r' & HS & Hr'). congruence.
Qed.

(** What the observed program has itself done. *)
Definition observed_history {B} (moves : list move) (x : System B) : list (deed (Entry := LogEntry)) :=
  among_history logged (near_schedule moves) (observed x) (near_tasks x) (near x).

(** C16: a successful ping has been to the peer and back.  Over the same link, beside any
    users and tasks of both ends, their own pings included: if [send_ping] succeeds, then
    the one ping it has itself written carries a token such that the far end received a
    ping with that token and only afterwards sent the pong with the same payload, and the
    near end received that pong.  Neither another ping that reached the peer nor its pong
    is enough, so a keepalive ping that succeeds shows that the peer's read loop was
    running, not just that a socket was open. *)
Theorem ping_reaches_the_peer fuel nc fc ncfg fcfg near_users far_users timeout moves r x :
  Forall (api unit) near_users → Forall (api unit) far_users →
  run_system moves (system_start fuel (send_ping timeout) nc fc ncfg fcfg near_users far_users) = Some x →
  observed x = Ret r → is_ok r = true →
  ∃ token c i c' ok, is_u64 token ∧
    observed_history moves (system_start fuel (send_ping (TErr := TErr) timeout) nc fc ncfg fcfg near_users far_users)
      = [Did (LSink c (SinkPing (token_bytes token)) true); Won true] ∧
    log (far x) !! i = Some (LSink c' (SinkPong (token_bytes token)) ok) ∧
    LRecv (Ping (token_bytes token)) ∈ take i (log (far x)) ∧
    LRecv (Pong (token_bytes token)) ∈ log (near x).
Proof.
  intros Hu Hf Hrun Hret Hok.
  assert (Hc : connected (λ _, False) (λ _, False) any_contract (near x) (far x)).
  { eapply run_system_connected; [apply own_send_ping|exact Hu|by apply users_serve| |exact Hrun].
    apply Forall_forall. intros [[i|] []|i c] _; simpl; auto. }
  destruct (run_system_projects _ _ _ Hrun) as [Hnear _]. rewrite Hret in Hnear.
  pose proof (ping_among _ _ _ _ _ _ _ _ _ Hu Hnear) as He. destruct r as [[]|]; [|done].
  destruct He as (c & token & Ht & Hown & Hping & Hpong).
  pose proof (proj1 (Forall_forall _ _) (near_entries _ _ _ _ _ Hc) _ Hpong) as (c' & ok & Hsent)%handed_pong.
  apply list_elem_of_lookup in Hsent as [i Hi]. exists token, c, i, c', ok. split; [done|]. split; [exact Hown|].
  split; [done|]. split; [|done]. apply (inv_log _ _ (far_replies _ _ _ _ _ Hc) _ _ Hi).
Qed.

End System.

Arguments mkSystem {_ _ _ _ A} _ _ _ _ _.
Arguments near_tasks {_ _ _ _ A} _.
Arguments far_tasks {_ _ _ _ A} _.
Arguments observed {_ _ _ _ A} _.
Arguments near {_ _ _ _ A} _.
Arguments far {_ _ _ _ A} _.

(** ** Witness *)

(** A Heartbeat call, its handler at the other end, and its answer. *)
Definition call_request : string :=
  demo_text (ser_RawCall (mkRawCall MESSAGE_TYPE_CALL (uuid_to_string 7%N) "Heartbeat" VNull)).

Definition call_moves : list (move (TErr := unit)) :=
  [Far 2 CTimer; Far 2 CTimer;
   Near None CTimer; Near None (CUuid 7%N); Near None CTimer; Near None (CSink (Ok tt));
   Far 0 (CRecv (Ok (Some (Frame call_request)))); Far 0 CTimer; Far 0 CTimer; Far 0 CTimer;
   Far 3 CTimer; Far 3 (CSink (Ok tt));
   Near (Some 0) (CRecv (Ok (Some (Frame demo_response)))); Near (Some 0) CTimer;
   Near None CTimer].

Definition echo_users : list (demo_program unit) := [on 2 demo_action (λ r, Ret (Ok r))].

Definition echoed (request : Value) (outcome : result Value V1_6.OCPP1_6Error) : Prop := outcome = Ok request.

Lemma echo_users_serve :
  Forall (api_with (serves (TErr := unit) (handler_of demo_action echoed)) unit) echo_users.
Proof.
  apply Forall_singleton. apply api_on; [|intros r; apply api_ret].
  split; [intros _; reflexivity|]. intros request. apply (yields_same demo_action echoed). reflexivity.
Defined.

Lemma echo_transportable : transportable demo_action echoed VNull.
Proof. split; [intros v [= <-]|intros r v [= ->] [= <-]]; split; reflexivity. Defined.

Lemma call_moves_draw : Forall (draws_near (UM := number_uuid) (λ u, u = 7%N) (λ u, u = 7%N)) call_moves.
Proof. repeat constructor. Defined.

Abbreviation echo_system :=
  (system_start 3 (call (TErr := unit) (E := V1_6.OCPP1_6Error) (from_secs 30) demo_action VNull) 0 0
     demo_config demo_config [] echo_users).

Lemma call_is_a_call_of_the_handler_witness :
  match run_system call_moves echo_system with
  | Some x => match observed x with Ret r => r = Ok VNull ∧ as_if_called (UM := number_uuid) (TErr := unit) demo_action echoed VNull 7%N r | _ => False end
  | None => False
  end.
Proof.
  apply (ran_to_elim (λ x, match observed x with
                           | Ret r => r = Ok VNull ∧ as_if_called (UM := number_uuid) (TErr := unit) demo_action echoed VNull 7%N r
                           | _ => False
                           end)
           (λ x, match observed x with Ret (Ok VNull) => true | _ => false end)); [vm_compute; reflexivity|].
  intros x Hrun Hx. destruct (observed x) as [r| | | | |] eqn:Ho; try discriminate Hx.
  destruct r as [[]|]; try discriminate Hx. split; [reflexivity|].
  exact (call_is_a_call_of_the_handler (UM := number_uuid) 3 0 0 demo_config demo_config [] echo_users (from_secs 30) demo_action
    echoed VNull 7%N call_moves _ x (Forall_nil_2 _) echo_users_serve call_moves_draw echo_transportable Hrun Ho).
Defined.

(** A user's ping with token 0 is written first, and never reaches the peer; the observed
    one does, and comes back. *)
Definition ping_moves : list (move (TErr := unit)) :=
  [Near (Some 2) CTimer; Near (Some 2) CTimer; Near (Some 2) (CSink (Ok tt));
   Near None CTimer; Near None CTimer; Near None (CSink (Ok tt));
   Far 0 (CRecv (Ok (Some (Ping (token_bytes 1))))); Far 0 CTimer; Far 0 (CSink (Ok tt));
   Near (Some 0) (CRecv (Ok (Some (Pong (token_bytes 1))))); Near (Some 0) CTimer; Near None CTimer].

Abbreviation ping_system :=
  (system_start 3 (send_ping (TErr := unit) (E := V1_6.OCPP1_6Error) (from_secs 30)) 0 0
     demo_config demo_config pinging_users []).

(** The payload of the ping a history starts with. *)
Definition first_ping (h : list (deed (Entry := LogEntry))) : list byte :=
  match h with Did (LSink _ (SinkPing payload) _) :: _ => payload | _ => [] end.

Lemma ping_reaches_the_peer_witness :
  match run_system ping_moves ping_system with
  | Some x => ∃ i, LRecv (Ping (token_bytes 1)) ∈ take i (log (far x))
  | None => False
  end.
Proof.
  apply (ran_to_elim (λ x, ∃ i, LRecv (Ping (token_bytes 1)) ∈ take i (log (far x)))
           (λ x, match observed x with Ret (Ok _) => true | _ => false end)); [vm_compute; reflexivity|].
  intros x Hrun Hx. destruct (observed x) as [r| | | | |] eqn:Ho; try discriminate Hx.
  destruct r as [u|e]; [|discriminate Hx].
  destruct (ping_reaches_the_peer (UM := number_uuid) 3 0 0 demo_config demo_config pinging_users [] (from_secs 30)
    ping_moves (Ok u) x pinging_users_api (Forall_nil_2 _) Hrun Ho eq_refl) as (token & c & i & c' & ok & _ & Hown & _ & Hr & _).
  assert (Ht : observed_history ping_moves ping_system
            = [Did (LSink 0 (SinkPing (token_bytes 1)) true); Won true]) by (vm_compute; reflexivity).
  assert (Hb : token_bytes token = token_bytes 1) by exact (f_equal first_ping (eq_trans (eq_sym Hown) Ht)).
  exists i. rewrite <-Hb. exact Hr.
Defined.
