(* ===== verification/Delivery.v ===== *)
(** * A call can complete

    System.v says what a call that returns has returned.  Here is the run in which it
    returns: between two fresh clients, for every action, every request and every
    handler that computes its answer, the exchange completes, and the caller gets the
    handler's outcome. *)

From S2P Require Import Prelude Time Sync Envelope Platform ProtocolErrors Reconnect Keepalive Engine Client ClientInv ClientDemo ClientSafety ClientReplies ClientExec Transport System.
From stdpp Require Import base gmap strings list.

Section Delivery.
Context {SM : SignalModel} {UM : UuidModel} {SJ : SerdeJson} {E : Type} {PE : ProtocolError E} {TErr : Type}.
Context `{!ProtocolErrorLaws E}.

Abbreviation St := (Client (E := E)).
Abbreviation Ch := (Choice (TErr := TErr)).
Abbreviation program A := (prog (St := St) (Ext := Ext (TErr := TErr)) A).
Abbreviation Sys A := (System (E := E) (TErr := TErr) A).

(** ** Runs of the system, end by end *)

Definition no_delivery (c : Ch) : Prop := match c with CRecv (Ok (Some _)) => False | _ => True end.

Lemma no_delivery_delivers c l : no_delivery c → delivers c l = true.
Proof. by destruct c as [| |[[]|]| |]. Qed.

(** One end moves, reading nothing new. *)
Lemma far_moves {B} schedule (p : program B) nts n ts s ts' s' :
  Forall (λ x, no_delivery x.2) schedule → run_pool schedule ts s = Some (ts', s') →
  run_system ((λ x, Far x.1 x.2) <$> schedule) (mkSystem p nts n ts s) = Some (mkSystem p nts n ts' s').
Proof.
  intros Hall. revert ts s. induction Hall as [|[i c] rest Hc Hall IH]; intros ts s; [by intros [= <- <-]|].
  cbn [fmap list_fmap run_system system_step near far far_tasks]. simpl in Hc.
  rewrite (no_delivery_delivers _ _ Hc). cbn [run_pool fst snd].
  destruct (pool_step i c ts s) as [[ts1 s1]|]; [|done]. apply IH.
Qed.

Lemma near_moves {B} schedule (p : program B) ts s fts f ts' s' :
  Forall (λ x, no_delivery x.2) schedule → run_pool schedule ts s = Some (ts', s') →
  run_system ((λ x, Near (Some x.1) x.2) <$> schedule) (mkSystem p ts s fts f) = Some (mkSystem p ts' s' fts f).
Proof.
  intros Hall. revert ts s. induction Hall as [|[i c] rest Hc Hall IH]; intros ts s; [by intros [= <- <-]|].
  cbn [fmap list_fmap run_system system_step near far near_tasks observed run_among]. simpl in Hc.
  rewrite (no_delivery_delivers _ _ Hc). cbn [run_pool fst snd].
  destruct (pool_step i c ts s) as [[ts1 s1]|]; [|done]. apply IH.
Qed.

(** A move that draws no identifier. *)
Definition quiet (m : move (TErr := TErr)) : Prop :=
  match m with Near _ (CUuid _) => False | _ => True end.

Lemma quiet_draws drawn mine m : quiet m → draws_near drawn mine m.
Proof. by destruct m as [[i|] []|]. Qed.

(** A part of a task runs. *)
Lemma idle_choices i schedule :
  follows CTimer [] i schedule → Forall (λ x : nat * Ch, x.2 = CTimer) schedule.
Proof.
  intros Hf. eapply Forall_impl; [exact Hf|]. intros [j c] [_ [Hc|Hc]]; [done|by apply not_elem_of_nil in Hc].
Qed.

Lemma idle_no_delivery schedule :
  Forall (λ x : nat * Ch, x.2 = CTimer) schedule → Forall (λ x : nat * Ch, no_delivery x.2) schedule.
Proof. intros Hf. eapply Forall_impl; [exact Hf|]. by intros [j c] [= ->]. Qed.

Lemma far_part {A B} (K : program A → program unit) q i (p : program B) nts n ts s a s' :
  context K → run q [] s = Some (a, s', [], []) → ts !! i = Some (K q) →
  ∃ moves, Forall quiet moves ∧
    run_system moves (mkSystem p nts n ts s) = Some (mkSystem p nts n (<[i := K (Ret a)]> ts) s').
Proof.
  intros HK Hrun Hi. destruct (run_to_pool CTimer K q [] s a s' [] i ts HK Hrun Hi) as (schedule & Hf & Hs).
  rewrite app_nil_r in Hs. apply idle_choices in Hf. exists ((λ x, Far x.1 x.2) <$> schedule).
  split; [by apply Forall_fmap, Forall_true|by apply far_moves; [apply idle_no_delivery|]].
Qed.

Lemma near_part {A B} (K : program A → program unit) q i (p : program B) ts s fts f a s' :
  context K → run q [] s = Some (a, s', [], []) → ts !! i = Some (K q) →
  ∃ moves, Forall quiet moves ∧
    run_system moves (mkSystem p ts s fts f) = Some (mkSystem p (<[i := K (Ret a)]> ts) s' fts f).
Proof.
  intros HK Hrun Hi. destruct (run_to_pool CTimer K q [] s a s' [] i ts HK Hrun Hi) as (schedule & Hf & Hs).
  rewrite app_nil_r in Hs. apply idle_choices in Hf. exists ((λ x, Near (Some x.1) x.2) <$> schedule).
  split; [|by apply near_moves; [apply idle_no_delivery|]].
  apply Forall_fmap. eapply Forall_impl; [exact Hf|]. by intros [j c] [= ->].
Qed.

(** ** The read loop takes one event *)

Lemma read_connection_takes fuel honor stream attempt event rest (s : St)
    {X} (k : LoopExit * Z → program X) (k' : X → program unit) :
  ∃ K : program unit → program unit, context K ∧
    run_pool [(0, CRecv (Ok (Some event)))]
      (bind (bind (read_connection (TErr := TErr) (S fuel) honor stream attempt) k) k' :: rest) s
      = Some (K (handle_event event) :: rest, add_log (LRecv event) s).
Proof.
  exists (λ q, bind (bind (bind q (λ _, read_connection fuel honor stream 0)) k) k'). split.
  - repeat apply context_bind. apply context_id.
  - unfold run_pool, pool_step. simpl. by rewrite app_nil_r.
Qed.

Lemma read_loop_takes fuel timeout reconnector policy stream attempt event rest (s : St) :
  ∃ K : program unit → program unit, context K ∧
    run_pool [(0, CRecv (Ok (Some event)))]
      (read_loop (TErr := TErr) (S (S fuel)) timeout reconnector policy stream attempt :: rest) s
      = Some (K (handle_event event) :: rest, add_log (LRecv event) s).
Proof. cbn [read_loop]. unfold connection_turn. apply read_connection_takes. Qed.

Lemma delivered event l : event ∈ handed l → delivers (TErr := TErr) (CRecv (Ok (Some event))) l = true.
Proof. intros Hin. by apply bool_decide_eq_true. Qed.

(** What the far end reads and handles. *)
Lemma far_reads {B} fuel timeout reconnector policy stream attempt event rest (p : program B) nts n (f f' : St) :
  event ∈ handed (log n) →
  run (handle_event (TErr := TErr) event) [] (add_log (LRecv event) f) = Some (tt, f', [], []) →
  ∃ moves task, Forall quiet moves ∧
    run_system moves (mkSystem p nts n (read_loop (S (S fuel)) timeout reconnector policy stream attempt :: rest) f)
      = Some (mkSystem p nts n (task :: rest) f').
Proof.
  intros Hin Hrun.
  destruct (read_loop_takes fuel timeout reconnector policy stream attempt event rest f) as (K & HK & Hpool).
  destruct (far_part K (handle_event event) 0 p nts n (K (handle_event event) :: rest) _ tt f' HK Hrun eq_refl)
    as (moves & Hq & Hsys).
  exists (Far 0 (CRecv (Ok (Some event))) :: moves), (K (Ret tt)). split; [by constructor|].
  cbn [run_system system_step near far far_tasks]. by rewrite delivered, Hpool.
Qed.

Lemma near_reads {B} fuel timeout reconnector policy stream attempt event rest (p : program B) (s s' : St) fts f :
  event ∈ handed (log f) →
  run (handle_event (TErr := TErr) event) [] (add_log (LRecv event) s) = Some (tt, s', [], []) →
  ∃ moves task, Forall quiet moves ∧
    run_system moves (mkSystem p (read_loop (S (S fuel)) timeout reconnector policy stream attempt :: rest) s fts f)
      = Some (mkSystem p (task :: rest) s' fts f).
Proof.
  intros Hin Hrun.
  destruct (read_loop_takes fuel timeout reconnector policy stream attempt event rest s) as (K & HK & Hpool).
  destruct (near_part K (handle_event event) 0 p (K (handle_event event) :: rest) _ fts f tt s' HK Hrun eq_refl)
    as (moves & Hq & Hsys).
  exists (Near (Some 0) (CRecv (Ok (Some event))) :: moves), (K (Ret tt)). split; [by constructor|].
  cbn [run_system system_step near far near_tasks observed run_among]. rewrite delivered by done.
  cbn [run_pool] in Hpool. by destruct (pool_step 0 _ _ _) as [[ts1 s1]|]; simplify_eq/=.
Qed.

(** ** The exchange *)

Section Exchange.
Context (timeout : Duration) (A : Action) (request : Request A) (h : Request A → result (Response A) E).
Context (id : Uuid) (payload : Value) (frame reply : string) (v : result Value E).

Hypothesis encodes : ser_request A request = Ok payload.
Hypothesis exact : wire_payload payload.
Hypothesis decodes : de_request A payload = Ok request.
Hypothesis sends : to_string (ser_RawCall (mkRawCall MESSAGE_TYPE_CALL (uuid_to_string id) (NAME A) payload)) = Ok frame.
Hypothesis answers : outcome_value A (h request) = Ok v.
Hypothesis answer_exact : outcome_exact v.
Hypothesis replies_with : response_frame (ser_response A) (h request) (uuid_to_string id) = Some reply.

(** What [call] does with the answer. *)
Definition returned_by_call : result (Response A) (ClientError E JsonError TErr) :=
  match v with Ok value => map_err Decode (de_response A value) | Err e => Err (Protocol e) end.

Definition after_response (r : result (result Value E) Elapsed_t) :
    program (result (Response A) (ClientError E JsonError TErr)) :=
  match r with
  | Err Elapsed => bind (forget_pending id) (λ _, Ret (Err Timeout))
  | Ok (Ok value) => Ret (map_err Decode (de_response A value))
  | Ok (Err e) => Ret (Err (Protocol e))
  end.

(** The call goes out and waits. *)
Lemma near_sends nts (s : St) fts f :
  closed s = false →
  run_system [Near None CTimer; Near None (CUuid id); Near None CTimer; Near None (CSink (Ok tt))]
    (mkSystem (call timeout A request) nts s fts f)
  = Some (mkSystem (bind (with_timeout timeout (response_wait (length (cells (pending_responses s))))) after_response) nts
            (add_log (LSink (sink s) (SinkSend frame) true)
               (set_pending (table_insert id oneshot_new (pending_responses s)).2 s)) fts f).
Proof. intros Hc. simpl. rewrite Hc. simpl. rewrite encodes. simpl. rewrite sends. reflexivity. Qed.

(** It returns once its waiter holds the answer. *)
Lemma near_returns waiter nts (s : St) fts f :
  cells (pending_responses s) !! waiter = Some (oneshot_send v oneshot_new) →
  ∃ s', run_system [Near None CTimer]
          (mkSystem (bind (with_timeout timeout (response_wait waiter)) after_response) nts s fts f)
        = Some (mkSystem (Ret returned_by_call) nts s' fts f).
Proof.
  intros Hw. unfold run_system, system_step, run_among. simpl. unfold poll_select. simpl. rewrite Hw.
  unfold oneshot_poll_wait, oneshot_send. rewrite take_signal_signal. unfold returned_by_call.
  destruct v; eexists; reflexivity.
Qed.

(** The handler: registered, and answering. *)
Abbreviation handler g := (handler_loop (TErr := TErr) g A (λ r, Ret (h r)) 0).

Lemma far_registers {B} g (p : program B) nts n r k (f : St) :
  request_senders f = table_empty →
  run_system [Far 2 CTimer; Far 2 CTimer] (mkSystem p nts n [r; k; on g A (λ r, Ret (h r))] f)
  = Some (mkSystem p nts n [r; k; Ret tt; handler g]
            (set_requests (mkTable {[NAME A := 0]} [chan_new] [NAME A]) f)).
Proof.
  intros He. unfold run_system, system_step, run_pool, pool_step. simpl. unfold register_chan. rewrite He. simpl.
  rewrite lookup_empty. reflexivity.
Qed.

Lemma far_answers {B} g (p : program B) nts n t k u (f : St) :
  cells (request_senders f) !! 0 = Some (chan_send (uuid_to_string id, payload) chan_new) →
  ∃ f', run_system [Far 3 CTimer; Far 3 (CSink (Ok tt))] (mkSystem p nts n [t; k; u; handler (S g)] f)
        = Some (mkSystem p nts n [t; k; u; handler g] f') ∧
    Frame reply ∈ handed (log f').
Proof.
  intros Hc. unfold run_system, system_step, run_pool, pool_step. simpl. rewrite Hc. simpl.
  unfold handle_call. rewrite decodes. simpl. unfold do_send_response. rewrite replies_with. simpl.
  eexists. split; [reflexivity|]. simpl. unfold handed. rewrite omap_app, elem_of_app. right. left.
Qed.

Lemma frame_parses : from_str frame = Ok (ser_RawCall (mkRawCall MESSAGE_TYPE_CALL (uuid_to_string id) (NAME A) payload)).
Proof. by apply (envelope_parses [VNumber (PosInt _); VString _; VString _] payload); [|simpl|repeat constructor|]. Qed.

(** The peer's half: register, receive, answer. *)
Lemma far_half {B} fuel g t rc pol stream attempt k (p : program B) nts n (f : St) :
  request_senders f = table_empty → Frame frame ∈ handed (log n) →
  ∃ moves tasks f', Forall quiet moves ∧
    run_system moves (mkSystem p nts n
        [read_loop (S (S fuel)) t rc pol stream attempt; k; on (S g) A (λ r, Ret (h r))] f)
      = Some (mkSystem p nts n tasks f') ∧ Frame reply ∈ handed (log f').
Proof.
  intros He Hin. pose proof (far_registers (S g) p nts n (read_loop (S (S fuel)) t rc pol stream attempt) k f He) as Hreg.
  set (f1 := set_requests _ f) in Hreg.
  assert (Hrun : run (handle_event (TErr := TErr) (Frame frame)) [] (add_log (LRecv (Frame frame)) f1)
    = Some (tt, set_requests (table_update 0 (chan_send (uuid_to_string id, payload)) (request_senders f1))
                  (add_log (LRecv (Frame frame)) f1), [], [])).
  { apply (run_handle_CALL frame (uuid_to_string id) (NAME A) payload 0 [] (add_log (LRecv (Frame frame)) f1));
      [apply frame_parses|apply lookup_singleton_eq]. }
  destruct (far_reads fuel t rc pol stream attempt (Frame frame) [k; Ret tt; handler (S g)] p nts n f1 _ Hin Hrun)
    as (moves & task & Hq & Hsys).
  match type of Hsys with _ = Some (mkSystem _ _ _ _ ?f2) =>
    destruct (far_answers g p nts n task k (Ret tt) f2 eq_refl) as (f' & Hans & Hreply) end.
  exists ([Far 2 CTimer; Far 2 CTimer] ++ moves ++ [Far 3 CTimer; Far 3 (CSink (Ok tt))]), [task; k; Ret tt; handler g], f'.
  split; [repeat (apply Forall_app; split); [by repeat constructor|done|by repeat constructor]|].
  split; [|done]. by rewrite (run_system_app _ _ _ _ Hreg), (run_system_app _ _ _ _ Hsys).
Qed.

(** The caller's half: receive the answer, return. *)
Lemma near_half fuel t rc pol stream attempt rest waiter (s : St) fts f :
  entries (pending_responses s) !! id = Some waiter →
  cells (pending_responses s) !! waiter = Some oneshot_new → Frame reply ∈ handed (log f) →
  ∃ moves x, Forall quiet moves ∧
    run_system moves (mkSystem (bind (with_timeout timeout (response_wait waiter)) after_response)
        (read_loop (S (S fuel)) t rc pol stream attempt :: rest) s fts f) = Some x ∧
    observed x = Ret returned_by_call.
Proof.
  intros He Hw Hin.
  assert (Hrun : run (handle_event (TErr := TErr) (Frame reply)) [] (add_log (LRecv (Frame reply)) s)
    = Some (tt, settle_pending id v (add_log (LRecv (Frame reply)) s), [], [])) by by eapply reply_settles.
  destruct (near_reads fuel t rc pol stream attempt (Frame reply) rest
    (bind (with_timeout timeout (response_wait waiter)) after_response) s _ fts f Hin Hrun) as (moves & task & Hq & Hsys).
  destruct (near_returns waiter (task :: rest) (settle_pending id v (add_log (LRecv (Frame reply)) s)) fts f) as (s' & Hret).
  { unfold settle_pending. simpl. rewrite He. simpl. by rewrite lookup_update_at_eq, Hw. }
  exists (moves ++ [Near None CTimer]), (mkSystem (Ret returned_by_call) (task :: rest) s' fts f).
  split; [apply Forall_app; split; [done|by repeat constructor]|]. split; [|done].
  by rewrite (run_system_app _ _ _ _ Hsys).
Qed.

(** C2: a call to a handler completes.  For every action, request and handler that
    computes its outcome [h], over transports that work: between two fresh clients,
    whatever else the caller's users are about to do, there is a run of both ends in
    which the call returns, and it returns exactly the handler's outcome, a response as
    its value decodes and an error unchanged.  Only texts that the JSON library carries
    exactly are asked for, and that handler and caller convert what they are given. *)
Theorem call_completes fuel g nc fc ncfg fcfg near_users :
  ∃ moves x, Forall (draws_near (λ u, u = id) (λ u, u = id)) moves ∧
    run_system moves (system_start (S (S fuel)) (call timeout A request) nc fc ncfg fcfg near_users
                        [on (S g) A (λ r, Ret (h r))]) = Some x ∧
    observed x = Ret returned_by_call.
Proof.
  set (s := client_new (E := E) (config_keepalive ncfg) nc).
  set (near_tasks := (from_transport_with_config (TErr := TErr) (S (S fuel)) nc ncfg).2 ++ near_users).
  set (s1 := add_log (LSink nc (SinkSend frame) true) (set_pending (table_insert id oneshot_new table_empty).2 s)).
  destruct (far_half fuel g (config_timeout fcfg) (config_reconnector fcfg) (config_reconnect_policy fcfg) fc 0%Z
    (keepalive_task (S (S fuel)) (config_timeout fcfg) (Keepalive.policy_of (config_keepalive fcfg)))
    (bind (with_timeout timeout (response_wait 0)) after_response) near_tasks s1 (client_new (config_keepalive fcfg) fc))
    as (far_moves & tasks & f' & Hq1 & Hfar & Hreply); [done|by left|].
  destruct (near_half fuel (config_timeout ncfg) (config_reconnector ncfg) (config_reconnect_policy ncfg) nc 0%Z
    (keepalive_task (S (S fuel)) (config_timeout ncfg) (Keepalive.policy_of (config_keepalive ncfg)) :: near_users)
    0 s1 tasks f') as (near_moves & x & Hq2 & Hnear & Hret); [apply lookup_insert_eq|done|done|].
  exists ([Near None CTimer; Near None (CUuid id); Near None CTimer; Near None (CSink (Ok tt))] ++ far_moves ++ near_moves), x.
  split; [|split; [|exact Hret]].
  - apply Forall_app. split; [by repeat constructor|].
    apply Forall_app. split; (eapply Forall_impl; [eassumption|]); intros m; apply quiet_draws.
  - unfold system_start. erewrite run_system_app; [|by apply (near_sends near_tasks s)].
    erewrite run_system_app; [exact Hnear|exact Hfar].
Qed.

End Exchange.

End Delivery.

(** ** Witness *)

Lemma call_completes_witness :
  ∃ moves x, Forall (draws_near (UM := number_uuid) (TErr := unit) (λ u, u = 7%N) (λ u, u = 7%N)) moves ∧
    run_system moves (system_start 2 (call (TErr := unit) (E := V1_6.OCPP1_6Error) (from_secs 30) demo_action VNull) 0 0
      demo_config demo_config [] [on 1 demo_action (λ r, Ret (Ok r))]) = Some x ∧
    observed x = Ret (Ok VNull).
Proof.
  apply (call_completes (UM := number_uuid) (E := V1_6.OCPP1_6Error) (TErr := unit) (from_secs 30) demo_action VNull Ok
    7%N VNull call_request demo_response (Ok VNull)); try (vm_compute; reflexivity).
  - split; [reflexivity|unfold RECURSION_LIMIT; simpl; lia].
  - split; [reflexivity|unfold RECURSION_LIMIT; simpl; lia].
Defined.
