(* ===== verification/Websocket.v ===== *)
(** * The WebSocket adapter

    [src/src/transport/websocket.rs]: what the halves of a WebSocket hand to and take
    from the engine.  The stream below is [tokio-tungstenite]'s: it yields messages,
    errors, or its end, as they become available. *)

From S2P Require Import Prelude Client Transport.
From stdpp Require Import base list strings.

(** [tungstenite::Message]. *)
Inductive Message :=
| Text (text : string)
| Binary (payload : list byte)
| MPing (payload : list byte)
| MPong (payload : list byte)
| MClose (frame : option (Z * string))
| MFrame (raw : list byte).

Section Adapter.
Context {TErr : Type}.

(** One answer of [self.0.next().await]: a message, an error, or the end. *)
Abbreviation item := (option (result Message TErr)).

(** The body of the loop of [recv] on one item: [None] stands for [continue]. *)
Definition recv_item (i : item) : option (result (option TransportEvent) TErr) :=
  match i with
  | None => Some (Ok None)
  | Some (Err err) => Some (Err err)
  | Some (Ok (Text text)) => Some (Ok (Some (Frame text)))
  | Some (Ok (MPing payload)) => Some (Ok (Some (Ping payload)))
  | Some (Ok (MPong payload)) => Some (Ok (Some (Pong payload)))
  | Some (Ok (MClose _)) => Some (Ok None)
  | Some (Ok (Binary _)) | Some (Ok (MFrame _)) => None
  end.

(** [recv] polled while [available] items are there: its result, or [None] if it is
    still waiting, and the items it has not consumed. *)
Fixpoint recv (available : list item) : option (result (option TransportEvent) TErr) * list item :=
  match available with
  | [] => (None, [])
  | i :: rest =>
      match recv_item i with
      | Some r => (Some r, rest)
      | None => recv rest
      end
  end.

(** The write half: one message per call, the payload untouched. *)
Definition sink_message (op : SinkOp) : option Message :=
  match op with
  | SinkSend frame => Some (Text frame)
  | SinkPing payload => Some (MPing payload)
  | SinkPong payload => Some (MPong payload)
  | SinkClose => None
  end.

(** ** Properties *)

(** What an item says that OCPP-J has a meaning for. *)
Definition relevant (i : item) : bool :=
  match recv_item i with Some _ => true | None => false end.

Lemma recv_skips skipped i rest :
  Forall (λ j, relevant j = false) skipped → relevant i = true →
  recv (skipped ++ i :: rest) = (recv_item i, rest).
Proof.
  intros Hs Hi. induction Hs as [|j skipped Hj _ IH]; simpl; unfold relevant in *.
  - by destruct (recv_item i).
  - by destruct (recv_item j).
Qed.

Lemma recv_pending available : (recv available).1 = None ↔ Forall (λ j, relevant j = false) available.
Proof.
  induction available as [|i rest IH]; simpl; [done|]. rewrite Forall_cons. unfold relevant at 1.
  destruct (recv_item i); naive_solver.
Qed.

Lemma recv_rest available : match recv available with (None, rest) => rest = [] | _ => True end.
Proof.
  induction available as [|i rest IH]; simpl; [done|]. by destruct (recv_item i).
Qed.

Lemma recv_first_relevant available :
  match recv available with
  | (Some r, rest) =>
      ∃ skipped i, available = skipped ++ i :: rest ∧ Forall (λ j, relevant j = false) skipped ∧
        recv_item i = Some r
  | (None, rest) => rest = [] ∧ Forall (λ j, relevant j = false) available
  end.
Proof.
  induction available as [|i rest IH]; simpl; [by split|].
  destruct (recv_item i) as [r|] eqn:Hi; [by exists [], i|].
  assert (relevant i = false) by (unfold relevant; by rewrite Hi).
  destruct (recv rest) as [[r|] rest'].
  - destruct IH as (skipped & j & -> & Hs & Hj). exists (i :: skipped), j. auto.
  - destruct IH as [-> Hs]. auto.
Qed.

Lemma recv_app_pending early later : (recv early).1 = None → recv (early ++ later) = recv later.
Proof.
  rewrite recv_pending. intros He. induction He as [|i early Hi _ IH]; simpl; [done|].
  unfold relevant in Hi. by destruct (recv_item i).
Qed.

Lemma recv_app_done early later r rest :
  recv early = (Some r, rest) → recv (early ++ later) = (Some r, rest ++ later).
Proof.
  induction early as [|i early IH]; simpl; [done|]. destruct (recv_item i); [|done].
  by intros [= <- <-].
Qed.

(** The adapter keeps no state of its own between calls. *)
#[global] Instance websocket_read_half : ReadHalf unit item TErr :=
  λ _ available, let '(r, rest) := recv available in (r, tt, rest).

#[global] Instance websocket_cancel_safe : CancelSafe websocket_read_half.
Proof.
  split; unfold stream_recv, websocket_read_half.
  - intros [] inputs s' rest. pose proof (recv_rest inputs) as Hr.
    destruct (recv inputs) as [[r|] rest']; [done|]. by intros [= <- <-].
  - intros [] early later [] rest. destruct (recv early) as [r rest'] eqn:He. intros [= -> <-].
    by rewrite (recv_app_pending early later) by (by rewrite He).
Qed.

#[global] Instance websocket_prompt : Prompt websocket_read_half.
Proof.
  intros [] early later r [] rest. unfold stream_recv, websocket_read_half.
  destruct (recv early) as [r' rest'] eqn:He. intros [= -> <-].
  by rewrite (recv_app_done _ _ _ _ He).
Qed.

(** [recv] yields the first thing the peer said that OCPP-J has a meaning for.
    Binary and raw frames are skipped and nothing else is, a close frame and the end of
    the stream both end the connection, ping and pong payloads come through verbatim;
    the items after it are left for the next call.  It is cancel-safe: however often the
    engine drops it while it waits, whatever arrived in the meantime, the call that
    completes returns what one uninterrupted call over the same messages would have
    returned. *)
Lemma recv_yields_first_relevant available batch (batches : list (list item)) :
  match recv available with
  | (Some r, rest) =>
      ∃ skipped i, available = skipped ++ i :: rest ∧ Forall (λ j, relevant j = false) skipped ∧
        recv_item i = Some r
  | (None, rest) => rest = [] ∧ Forall (λ j, relevant j = false) available
  end ∧
  recv_dropping tt (batch :: batches) = (stream_recv tt (concat (batch :: batches))).1.
Proof.
  split; [apply recv_first_relevant|]. by destruct (recv_dropping_uninterrupted tt (batch :: batches)).
Qed.

(** What one side writes the other side's engine reads: exactly the event [carried]
    says, so that this transport is a link as System.v assumes one. *)
Lemma sink_message_received op message rest :
  sink_message op = Some message →
  ∃ event, carried op = Some event ∧ recv (Some (Ok message) :: rest) = (Some (Ok (Some event)), rest).
Proof. destruct op; intros [= <-]; by eexists. Qed.

Lemma close_carries_nothing op : sink_message op = None ↔ carried op = None.
Proof. by destruct op. Qed.

End Adapter.
