(* ===== verification/Connect.v ===== *)
(** * Connecting

    [src/src/connect.rs]: the options, the handshake request, the negotiation of a
    version, and the configuration of the client, its redialler included.  URLs, name
    resolution, sockets, HTTP headers, base64 and the WebSocket handshake are those of
    the [url], [tokio], [http], [base64] and [tokio-tungstenite] crates: parameters. *)

From S2P Require Import Prelude Time Reconnect Keepalive Sync Envelope Platform ProtocolErrors Engine Client.
From Stdlib Require Import Strings.Byte.
From stdpp Require Import base gmap list strings.

Local Open Scope string_scope.

(** ** Third-party parameters *)

Class NetStack := {
  Url : Type;
  Addrs : Type;
  Tcp : Type;
  WsStream : Type;
  TlsConfig : Type;
  NetError : Type;
  of_text : string → NetError;
  url_parse : string → result Url NetError;
  url_to_string : Url → string;
  socket_addrs : Url → result Addrs NetError;
  (** [into_client_request]: the headers of a fresh handshake request. *)
  into_client_request : string → result (gmap string string) NetError;
  (** Parsing a header value keeps its text. *)
  parse_header : string → result string NetError;
  parse_header_text s v : parse_header s = Ok v → v = s;
  base64_encode : list byte → string;
  base64_decode : string → option (list byte);
  base64_decode_encode bs : base64_decode (base64_encode bs) = Some bs;
}.

(** What the network answers to one dial: the TCP connection, then the handshake, with
    the [Sec-WebSocket-Protocol] header of its response as text if it has one. *)
Record Network `{NetStack} := mkNetwork {
  tcp_connect : Addrs → result Tcp NetError;
  handshake : gmap string string → Tcp → option TlsConfig →
    result (WsStream * option (result string NetError)) NetError;
}.

Definition AUTHORIZATION : string := "authorization".
Definition SEC_WEBSOCKET_PROTOCOL : string := "sec-websocket-protocol".

Section Connect.
Context `{NetStack} {Custom : Type}.

(** ** Options *)

Record ConnectOptions := mkConnectOptions {
  username : option string;
  password : option (list byte);
  timeout : option Duration;
  reconnect : ReconnectBehavior;
  tls_config : option TlsConfig;
  reconnector : option Custom;
  keepalive : KeepaliveBehavior;
}.

Definition DEFAULT_TIMEOUT : Duration := from_secs 5.

Definition ConnectOptions_default : ConnectOptions :=
  {| username := None; password := None; timeout := None;
     reconnect := ReconnectBehavior_default; tls_config := None; reconnector := None;
     keepalive := KeepaliveEnabled KeepalivePolicy_default |}.

(** What [Debug] writes of the options, field by field: each is written from one of
    these values. *)
Inductive DebugValue :=
| DText (s : string)
| DOption (o : option string)
| DTimeout (o : option Duration)
| DReconnect (b : ReconnectBehavior)
| DKeepalive (k : KeepaliveBehavior).

Definition debug_fields (o : ConnectOptions) : list (string * DebugValue) :=
  [("username", DOption (username o));
   ("password", DText (match password o with Some _ => "<redacted>" | None => "None" end));
   ("timeout", DTimeout (timeout o));
   ("reconnect", DReconnect (reconnect o));
   ("tls_config", DOption (match tls_config o with Some _ => Some "<set>" | None => None end));
   ("reconnector", DOption (match reconnector o with Some _ => Some "<custom>" | None => None end));
   ("keepalive", DKeepalive (keepalive o))].

(** The same options with another password. *)
Definition with_password (p : list byte) (o : ConnectOptions) : ConnectOptions :=
  mkConnectOptions (username o) (Some p) (timeout o) (reconnect o) (tls_config o) (reconnector o) (keepalive o).

(** ** [setup_socket] *)

(** [format!("{username}:").into_bytes()] followed by the password's bytes. *)
Definition credentials (user : string) (pass : option (list byte)) : list byte :=
  (String.list_byte_of_string (user ++ ":") ++ default [] pass)%list.

(** The headers [setup_socket] adds, and the TLS configuration it uses. *)
Definition prepare_request (headers : gmap string string) (protocols : string)
    (options : option ConnectOptions) : result (gmap string string * option TlsConfig) NetError :=
  result_bind (parse_header protocols) (λ value,
  let headers := <[SEC_WEBSOCKET_PROTOCOL := value]> headers in
  match options with
  | None => Ok (headers, None)
  | Some o =>
      match username o with
      | None => Ok (headers, tls_config o)
      | Some user =>
          result_bind (parse_header ("Basic " ++ base64_encode (credentials user (password o)))) (λ value,
          Ok (<[AUTHORIZATION := value]> headers, tls_config o))
      end
  end).

Definition setup_socket (net : Network) (address protocols : string) (options : option ConnectOptions) :
    result (WsStream * string) NetError :=
  result_bind (url_parse address) (λ url,
  result_bind (socket_addrs url) (λ addrs,
  result_bind (tcp_connect net addrs) (λ tcp,
  result_bind (into_client_request (url_to_string url)) (λ headers,
  result_bind (prepare_request headers protocols options) (λ prepared,
  result_bind (handshake net prepared.1 tcp prepared.2) (λ answer,
  match answer.2 with
  | None => Err (of_text "No OCPP protocol negotiated")
  | Some (Err e) => Err e
  | Some (Ok protocol) => Ok (answer.1, protocol)
  end)))))).

(** ** Versions *)

Inductive OcppVersion := V1_6 | V2_0_1 | V2_1.

#[global] Instance OcppVersion_eq_dec : EqDecision OcppVersion.
Proof. solve_decision. Defined.

(** The Cargo features of the build. *)
Context (compiled_in : OcppVersion → bool).

Definition protocol (v : OcppVersion) : string :=
  match v with V1_6 => "ocpp1.6" | V2_0_1 => "ocpp2.0.1" | V2_1 => "ocpp2.1" end.

Definition all_compiled_in : list OcppVersion :=
  (if compiled_in V2_1 then [V2_1] else []) ++ (if compiled_in V2_0_1 then [V2_0_1] else [])
    ++ (if compiled_in V1_6 then [V1_6] else []).

(** ** Redialling *)

Inductive Reconnector :=
| SharedReconnector (custom : Custom)
| WebSocketReconnector (address : string) (protocol : string) (username : option string)
    (password : option (list byte)) (tls_config : option TlsConfig).

(** [WebSocketReconnector::connect]; a shared one forwards to the caller's. *)
Definition reconnector_connect (dial_custom : Custom → result WsStream NetError) (net : Network)
    (r : Reconnector) : result WsStream NetError :=
  match r with
  | SharedReconnector custom => dial_custom custom
  | WebSocketReconnector address protocol username password tls_config =>
      let options := mkConnectOptions username password None ReconnectDisabled tls_config None
                       KeepaliveDisabled in
      result_map fst (setup_socket net address protocol (Some options))
  end.

(** [prepare]: the client's configuration, and the redialler it carries. *)
Definition prepare (address protocol : string) (options : option ConnectOptions) :
    ClientConfig * option Reconnector :=
  let defaults := ConnectOptions_default in
  let timeout := default DEFAULT_TIMEOUT (options ≫= timeout) in
  let keepalive := default (keepalive defaults) (keepalive <$> options) in
  let reconnect := default ReconnectBehavior_default (reconnect <$> options) in
  let username := options ≫= username in
  let password := options ≫= password in
  let tls_config := options ≫= tls_config in
  let custom := options ≫= reconnector in
  let config := with_keepalive keepalive (ClientConfig_new timeout) in
  match reconnect with
  | ReconnectDisabled => (config, None)
  | ReconnectEnabled policy =>
      match custom with
      | Some custom => (with_reconnect policy config, Some (SharedReconnector custom))
      | None =>
          (with_reconnect policy config,
           Some (WebSocketReconnector address protocol username password tls_config))
      end
  end.

(** ** [websocket_transport], [connect_*], [connect] *)

Definition websocket_transport (net : Network) (address : string) (version : OcppVersion)
    (options : option ConnectOptions) : result WsStream NetError :=
  result_map fst (setup_socket net address (protocol version) options).

(** The client a [connect*] function builds: its version, its transport, its
    configuration. *)
Record Connected := mkConnected {
  version : OcppVersion;
  transport : WsStream;
  config : ClientConfig * option Reconnector;
}.

Definition connect_version (v : OcppVersion) (net : Network) (address : string)
    (options : option ConnectOptions) : result Connected NetError :=
  let config := prepare address (protocol v) options in
  result_bind (setup_socket net address (protocol v) options) (λ r, Ok (mkConnected v r.1 config)).

Definition connect_1_6 := connect_version V1_6.
Definition connect_2_0_1 := connect_version V2_0_1.
Definition connect_2_1 := connect_version V2_1.

(** [.join(", ")]. *)
Fixpoint join (separator : string) (parts : list string) : string :=
  match parts with
  | [] => ""
  | [part] => part
  | part :: rest => part ++ separator ++ join separator rest
  end.

(** The final match of [connect]; [None] is its [unreachable!]. *)
Definition negotiated_version (protocol : string) : option OcppVersion :=
  if compiled_in V1_6 && String.eqb protocol "ocpp1.6" then Some V1_6
  else if compiled_in V2_0_1 && String.eqb protocol "ocpp2.0.1" then Some V2_0_1
  else if compiled_in V2_1 && String.eqb protocol "ocpp2.1" then Some V2_1
  else None.

(** [connect]; a panic is [None]. *)
Definition connect (net : Network) (address : string) (versions : option (list OcppVersion))
    (options : option ConnectOptions) : option (result Connected NetError) :=
  let versions := default all_compiled_in versions in
  let offered := join ", " (protocol <$> versions) in
  match setup_socket net address offered options with
  | Err e => Some (Err e)
  | Ok (stream, negotiated) =>
      match List.find (λ v, String.eqb (protocol v) negotiated) versions with
      | None => Some (Err (of_text ("Server negotiated unsupported protocol: " ++ negotiated)))
      | Some v =>
          let config := prepare address (protocol v) options in
          match negotiated_version (protocol v) with
          | Some v => Some (Ok (mkConnected v stream config))
          | None => None
          end
      end
  end.

(** ** Lemmas *)

Lemma protocol_inj v w : protocol v = protocol w → v = w.
Proof. by destruct v, w. Qed.

(** A version of this build is recognised by the final match. *)
Lemma negotiated_version_protocol v :
  compiled_in v = true → negotiated_version (protocol v) = Some v.
Proof. intros Hc. unfold negotiated_version. destruct v; simpl; rewrite Hc; by rewrite ?andb_false_r. Qed.

Lemma all_compiled_in_spec v : v ∈ all_compiled_in ↔ compiled_in v = true.
Proof.
  unfold all_compiled_in. rewrite !elem_of_app.
  destruct v, (compiled_in V1_6), (compiled_in V2_0_1), (compiled_in V2_1); set_solver.
Qed.

(** The versions a caller can name are those of the build. *)
Definition nameable (versions : option (list OcppVersion)) : Prop :=
  match versions with Some vs => Forall (λ v, compiled_in v = true) vs | None => True end.

Lemma offered_compiled versions v :
  nameable versions → v ∈ default all_compiled_in versions → compiled_in v = true.
Proof.
  destruct versions as [vs|]; simpl; [|by rewrite all_compiled_in_spec].
  rewrite Forall_forall. auto.
Qed.

(** ** Properties *)

(** C32: [connect] settles on a version both sides named.  It never reaches its
    [unreachable!]; when it succeeds, the request offered exactly the given versions
    (all of the build's if none were given) in their order, the server's answer was the
    protocol name of one of them, and that is the version of the client returned; an
    answer that is none of them is an error. *)
Theorem connect_negotiates_offered_version net address versions options :
  nameable versions →
  let offered := default all_compiled_in versions in
  match connect net address versions options with
  | None => False
  | Some (Ok c) =>
      version c ∈ offered ∧ compiled_in (version c) = true ∧
      setup_socket net address (join ", " (protocol <$> offered)) options
        = Ok (transport c, protocol (version c)) ∧
      config c = prepare address (protocol (version c)) options
  | Some (Err _) =>
      ∀ stream negotiated,
        setup_socket net address (join ", " (protocol <$> offered)) options = Ok (stream, negotiated) →
        ∀ v, v ∈ offered → protocol v ≠ negotiated
  end.
Proof.
  intros Hn offered. unfold connect. fold offered.
  destruct (setup_socket net address _ options) as [[stream negotiated]|e]; [|naive_solver].
  destruct (List.find _ offered) as [v|] eqn:Hf.
  - apply List.find_some in Hf as [Hin Heq%String.eqb_eq]. apply list_elem_of_In in Hin.
    pose proof (offered_compiled versions v Hn Hin) as Hc.
    rewrite negotiated_version_protocol by done. simpl. by rewrite Heq.
  - intros stream' negotiated' [= <- <-] v Hin Heq.
    apply list_elem_of_In in Hin. apply (List.find_none _ _ Hf v), String.eqb_neq in Hin. done.
Qed.

(** A redial is the connection it replaces.  Whatever the options, unless the
    caller asked not to reconnect or brought a redialler of their own, the redialler
    [prepare] installs answers exactly as connecting again to the same address with the
    same protocol, credentials and TLS configuration would; a custom redialler is used
    as it is; and asking not to reconnect wins over bringing one. *)
Lemma redial_repeats_the_connection dial_custom net address protocol options :
  match (prepare address protocol options).2 with
  | None => reconnect <$> options = Some ReconnectDisabled
  | Some (SharedReconnector custom) =>
      (options ≫= reconnector = Some custom) ∧
      reconnector_connect dial_custom net (SharedReconnector custom) = dial_custom custom
  | Some r =>
      reconnector_connect dial_custom net r = result_map fst (setup_socket net address protocol options)
  end.
Proof.
  unfold prepare. destruct options as [o|]; simpl; [|done].
  destruct (reconnect o) as [policy|]; [|done]. by destruct (reconnector o).
Qed.

(** Absent options are the default options: reconnecting and pinging are on, in
    [prepare] and in the handshake alike. *)
Lemma no_options_are_default_options net address protocol :
  prepare address protocol None = prepare address protocol (Some ConnectOptions_default) ∧
  setup_socket net address protocol None = setup_socket net address protocol (Some ConnectOptions_default) ∧
  config_reconnector (prepare address protocol None).1 = true ∧
  initial_interval (config_keepalive (prepare address protocol None).1) = Some (from_secs 60).
Proof. done. Qed.

Lemma credentials_verbatim headers protocols o headers' tls :
  prepare_request headers protocols (Some o) = Ok (headers', tls) →
  tls = tls_config o ∧ headers' !! SEC_WEBSOCKET_PROTOCOL = Some protocols ∧
  match username o with
  | Some user =>
      ∃ encoded, headers' !! AUTHORIZATION = Some ("Basic " ++ encoded) ∧
        base64_decode encoded =
          Some (String.list_byte_of_string (user ++ ":") ++ default [] (password o))%list
  | None => headers' !! AUTHORIZATION = headers !! AUTHORIZATION
  end.
Proof.
  unfold prepare_request. destruct (parse_header protocols) as [v|] eqn:Hv; simpl; [|done].
  apply parse_header_text in Hv as ->. destruct (username o) as [user|]; simpl.
  - destruct (parse_header ("Basic " ++ _)) as [w|] eqn:Hw; simpl; [|done].
    apply parse_header_text in Hw as ->. intros [= <- <-]. split; [done|].
    split; [by rewrite lookup_insert_ne, lookup_insert_eq by done|].
    eexists. split; [apply lookup_insert_eq|]. apply base64_decode_encode.
  - intros [= <- <-]. split; [done|]. split; [apply lookup_insert_eq|].
    by rewrite lookup_insert_ne by done.
Qed.

(** C33: credentials go to the server and not into logs.  With a user name, the request
    carries one Authorization header whose base64 part decodes to the user name, a colon,
    and the password's bytes, whatever bytes those are; without one it carries no
    Authorization header but what was there before, even if a password was given.  What
    [Debug] writes of the options does not depend on the password. *)
Theorem credentials_are_sent_verbatim headers protocols o headers' tls :
  (∀ p q, debug_fields (with_password p o) = debug_fields (with_password q o)) ∧
  (prepare_request headers protocols (Some o) = Ok (headers', tls) →
  tls = tls_config o ∧ headers' !! SEC_WEBSOCKET_PROTOCOL = Some protocols ∧
  match username o with
  | Some user =>
      ∃ encoded, headers' !! AUTHORIZATION = Some ("Basic " ++ encoded) ∧
        base64_decode encoded =
          Some (String.list_byte_of_string (user ++ ":") ++ default [] (password o))%list
  | None => headers' !! AUTHORIZATION = headers !! AUTHORIZATION
  end).
Proof. split; [done|apply credentials_verbatim]. Qed.

End Connect.

(** ** A concrete stack *)

Definition plain_stack : NetStack.
Proof.
  refine {| Url := string; Addrs := string; Tcp := unit; WsStream := unit; TlsConfig := unit;
            NetError := string; of_text s := s; url_parse s := Ok s; url_to_string s := s;
            socket_addrs s := Ok s; into_client_request _ := Ok ∅; parse_header s := Ok s;
            base64_encode := String.string_of_list_byte;
            base64_decode s := Some (String.list_byte_of_string s) |}.
  - by intros s v [= ->].
  - intros bs. by rewrite String.list_byte_of_string_of_list_byte.
Defined.

#[local] Existing Instance plain_stack.

Definition plain_network : Network :=
  {| tcp_connect _ := Ok tt; handshake _ _ _ := Ok (tt, Some (Ok "ocpp2.0.1")) |}.

Lemma connect_negotiates_offered_version_witness :
  match connect (Custom := unit) (λ _, true) plain_network "ws://csms/CP1" (Some [V2_1; V2_0_1]) None with
  | Some (Ok c) => version c ∈ [V2_1; V2_0_1]
  | _ => False
  end.
Proof.
  apply (connect_negotiates_offered_version (Custom := unit) (λ _, true) plain_network "ws://csms/CP1"
           (Some [V2_1; V2_0_1]) None).
  repeat constructor.
Defined.

Lemma credentials_are_sent_verbatim_witness :
  ∃ encoded,
    base64_decode encoded = Some (String.list_byte_of_string "CP1:" ++ [x00; xff])%list.
Proof.
  edestruct (credentials_are_sent_verbatim (Custom := unit) ∅ "ocpp1.6"
    (mkConnectOptions (Some "CP1") (Some [x00; xff]) None ReconnectDisabled None None KeepaliveDisabled))
    as [_ Hsent]. edestruct Hsent as (_ & _ & encoded & _ & He); [unfold prepare_request; simpl; reflexivity|].
  exists encoded. exact He.
Defined.
