(* ===== verification/Embassy.v ===== *)
(** * The embassy-net transport: its two halves and the handshake's response

    [src/crates/ocpp-transport-embassy-net/src/transport.rs].  The
    WebSocket codec is the [embedded-websocket] crate's and the socket is
    [embassy-net]'s: parameters.  A socket read answers with the bytes it delivered, none
    at the end of the stream; a socket write answers with how many bytes it took. *)

From S2P Require Import Prelude Time Sync Envelope Platform ProtocolErrors Client Transport.
From stdpp Require Import base list strings.

(** ** UTF-8

    [String::from_utf8] accepts exactly the well-formed sequences. *)

Definition continuation (b : Z) : bool := (128 <=? b)%Z && (b <=? 191)%Z.

Definition between (lo hi b : Z) : bool := (lo <=? b)%Z && (b <=? hi)%Z.

Fixpoint utf8_valid (bs : list Z) : bool :=
  match bs with
  | [] => true
  | b0 :: r =>
      if (b0 <? 128)%Z then utf8_valid r
      else if between 194 223 b0 then
        match r with b1 :: r => continuation b1 && utf8_valid r | _ => false end
      else if between 224 239 b0 then
        match r with
        | b1 :: b2 :: r =>
            (if (b0 =? 224)%Z then between 160 191 b1
             else if (b0 =? 237)%Z then between 128 159 b1 else continuation b1)
            && continuation b2 && utf8_valid r
        | _ => false
        end
      else if between 240 244 b0 then
        match r with
        | b1 :: b2 :: b3 :: r =>
            (if (b0 =? 240)%Z then between 144 191 b1
             else if (b0 =? 244)%Z then between 128 143 b1 else continuation b1)
            && continuation b2 && continuation b3 && utf8_valid r
        | _ => false
        end
      else false
  end.

Definition from_utf8 (bs : list byte) : option string :=
  if utf8_valid (byte_to_Z <$> bs) then Some (String.string_of_list_byte bs) else None.

(** ** The codec *)

Inductive ReceiveType := RText | RBinary | RPing | RPong | RCloseMustReply | RCloseCompleted.
Inductive SendType := SText | SPing | SPong.

(** What one call of the decoder reports: how many bytes it consumed, what it wrote to
    the frame buffer, what kind of message that belongs to, and whether it ends it. *)
Record ReadResult := mkReadResult {
  len_from : nat;
  decoded : list byte;
  message_type : ReceiveType;
  end_of_message : bool;
}.

(** What the opening request is built from. *)
Record WebSocketOptions := mkOptions {
  opt_path : string;
  opt_host : string;
  opt_origin : string;
  opt_sub_protocols : option (list string);
  opt_additional_headers : option (list string);
}.

Class FrameCodec := {
  WsState : Type;
  WsError : Type;
  WsRng : Type;
  WsKey : Type;
  new_client : WsRng → WsState;
  (** The opening request, as long as it fits the buffer, and the key its response is
      checked with. *)
  client_connect : WsState → WebSocketOptions → nat → result (list byte * WsKey) WsError * WsState;
  ws_read : WsState → list byte → nat → result ReadResult WsError * WsState;
  ws_write : WsState → SendType → list byte → nat → result (list byte) WsError * WsState;
  ws_close : WsState → nat → result (list byte) WsError * WsState;
  (** [client_accept] on the response received so far: how many bytes the response
      takes, or that it is incomplete, or an error. *)
  client_accept : WsState → WsKey → list byte → option (result nat WsError) * WsState;
  (** A successful decoding step consumes something of what it was given. *)
  ws_read_progress w bytes size r w' :
    bytes ≠ [] → ws_read w bytes size = (Ok r, w') → 0 < len_from r ≤ length bytes;
  (** An accepted response is part of what was received. *)
  client_accept_bound w key response consumed w' :
    client_accept w key response = (Some (Ok consumed), w') → consumed ≤ length response;
}.

(** A piece as far as [recv] looks at it: it treats the two close frames alike. *)
Definition forget_close (r : ReadResult) : ReadResult :=
  match message_type r with
  | RCloseMustReply => mkReadResult (len_from r) (decoded r) RCloseCompleted (end_of_message r)
  | _ => r
  end.

(** One [WebSocketClient] encodes and decodes, and keeps state for both.  Encoding
    advances the random generator, and a close frame that was sent changes which of the
    two close frames a later one is reported as; what is decoded is otherwise a function
    of the bytes received. *)
Class SharedCodec {FC : FrameCodec} := {
  reads_like : relation WsState;
  #[global] reads_like_equivalence :: Equivalence reads_like;
  ws_write_reads_like w kind payload size : reads_like (ws_write w kind payload size).2 w;
  ws_close_reads_like w size : reads_like (ws_close w size).2 w;
  ws_read_like w v bytes size :
    reads_like w v →
    match ws_read w bytes size, ws_read v bytes size with
    | (Ok r, w'), (Ok q, v') => forget_close r = forget_close q ∧ reads_like w' v'
    | (Err e, w'), (Err d, v') => e = d ∧ reads_like w' v'
    | _, _ => False
    end;
}.

Section Embassy.
Context {FC : FrameCodec} {NetErr : Type}.

(** The errors of the module, all boxed the same way. *)
Inductive EmbassyError :=
| FromNet (e : NetErr)
| FromWs (e : WsError)
| InvalidUtf8
| ClosedDuringHandshake
| HandshakeTooLarge.

(** One answer of [reader.read]. *)
Abbreviation chunk := (result (list byte) NetErr).

(** ** [EmbassyWsStream] and [EmbassyWsSink]

    The state of the two halves of a connection: the codec they share, which each locks
    for one call of it ([SharedWebSocket]), and what the read half keeps between calls.
    The buffers that are overwritten by every call are not part of it. *)

Record EmbassyWs := mkWs {
  ws : WsState;
  pending : list byte;
  accumulated : list byte;
}.

Context (frame_buffer_size : nat).

(** One turn of [recv]'s loop once there are pending bytes: a result, or [None] to go
    round again. *)
Definition decode_step (s : EmbassyWs) :
    option (result (option TransportEvent) EmbassyError) * EmbassyWs :=
  match ws_read (ws s) (pending s) frame_buffer_size with
  | (Err e, w) => (Some (Err (FromWs e)), mkWs w (pending s) (accumulated s))
  | (Ok r, w) =>
      let pending := drop (len_from r) (pending s) in
      match message_type r with
      | RText =>
          let accumulated := accumulated s ++ decoded r in
          if end_of_message r then
            match from_utf8 accumulated with
            | Some text => (Some (Ok (Some (Frame text))), mkWs w pending [])
            | None => (Some (Err InvalidUtf8), mkWs w pending [])
            end
          else (None, mkWs w pending accumulated)
      | RBinary => (None, mkWs w pending [])
      | RPing => (Some (Ok (Some (Ping (decoded r)))), mkWs w pending (accumulated s))
      | RPong => (Some (Ok (Some (Pong (decoded r)))), mkWs w pending (accumulated s))
      | RCloseMustReply | RCloseCompleted => (Some (Ok None), mkWs w pending (accumulated s))
      end
  end.

(** Turns of the loop as long as there are pending bytes. *)
Fixpoint decode (fuel : nat) (s : EmbassyWs) :
    option (result (option TransportEvent) EmbassyError) * EmbassyWs :=
  match pending s, fuel with
  | [], _ | _, O => (None, s)
  | _, S fuel =>
      match decode_step s with
      | (Some r, s') => (Some r, s')
      | (None, s') => decode fuel s'
      end
  end.

(** [recv]: decode what is pending, then read from the socket, and so on. *)
Fixpoint embassy_recv (s : EmbassyWs) (chunks : list chunk) :
    option (result (option TransportEvent) EmbassyError) * EmbassyWs * list chunk :=
  match decode (length (pending s)) s with
  | (Some r, s') => (Some r, s', chunks)
  | (None, s') =>
      match chunks with
      | [] => (None, s', [])
      | Err e :: rest => (Some (Err (FromNet e)), s', rest)
      | Ok [] :: rest => (Some (Ok None), s', rest)
      | Ok bytes :: rest => embassy_recv (mkWs (ws s') (pending s' ++ bytes) (accumulated s')) rest
      end
  end.

(** ** The methods of [EmbassyWsSink]

    Each method encodes into the scratch buffer, then writes it and flushes; the count
    the write answers with is not looked at. *)

Definition encode (w : WsState) (op : SinkOp) : result (list byte) WsError * WsState :=
  match op with
  | SinkSend frame => ws_write w SText (String.list_byte_of_string frame) frame_buffer_size
  | SinkPing payload => ws_write w SPing payload frame_buffer_size
  | SinkPong payload => ws_write w SPong payload frame_buffer_size
  | SinkClose => ws_close w frame_buffer_size
  end.

(** What reaches the socket, and what the method returns.  [write] answers how many of
    the bytes it took. *)
Definition embassy_sink (w : WsState) (op : SinkOp) (write : list byte → result nat NetErr)
    (flush : result unit NetErr) : list byte * result unit EmbassyError * WsState :=
  match encode w op with
  | (Err e, w) => ([], Err (FromWs e), w)
  | (Ok bytes, w) =>
      match write bytes with
      | Err e => ([], Err (FromNet e), w)
      | Ok n => (take n bytes, map_err FromNet flush, w)
      end
  end.

(** The call on the state of the two halves. *)
Definition sink_method (s : EmbassyWs) (op : SinkOp) (write : list byte → result nat NetErr)
    (flush : result unit NetErr) : list byte * result unit EmbassyError * EmbassyWs :=
  let '(sent, r, w) := embassy_sink (ws s) op write flush in
  (sent, r, mkWs w (pending s) (accumulated s)).

(** ** The opening handshake *)

(** [reader.read] into a buffer with [room] bytes left: at most that many of the next
    chunk, the rest of which stays in the socket. *)
Definition read_into (room : nat) (chunks : list chunk) : option (chunk * list chunk) :=
  match chunks with
  | [] => None
  | Err e :: rest => Some (Err e, rest)
  | Ok bytes :: rest =>
      Some (Ok (take room bytes),
            if bool_decide (length bytes ≤ room) then rest else Ok (drop room bytes) :: rest)
  end.

(** The loop that reads the response: the bytes after it are those of the stream. *)
Fixpoint read_response (fuel : nat) (handshake_buffer_size : nat) (key : WsKey) (w : WsState)
    (response : list byte) (chunks : list chunk) :
    option (result (list byte * WsState) EmbassyError * list chunk) :=
  match fuel with
  | O => None
  | S fuel =>
      match read_into (handshake_buffer_size - length response) chunks with
      | None => None
      | Some (Err e, rest) => Some (Err (FromNet e), rest)
      | Some (Ok [], rest) => Some (Err ClosedDuringHandshake, rest)
      | Some (Ok bytes, rest) =>
          let response := response ++ bytes in
          match client_accept w key response with
          | (Some (Ok consumed), w) => Some (Ok (drop consumed response, w), rest)
          | (None, w) =>
              if bool_decide (length response = handshake_buffer_size)
              then Some (Err HandshakeTooLarge, rest)
              else read_response fuel handshake_buffer_size key w response rest
          | (Some (Err e), _) => Some (Err (FromWs e), rest)
          end
      end
  end.

(** The halves [connect] builds from it. *)
Definition stream_after_handshake (leftover : list byte) (w : WsState) : EmbassyWs :=
  mkWs w leftover [].

(** ** Lemmas on the read half *)

Lemma decode_step_shrinks s s' :
  pending s ≠ [] → decode_step s = (None, s') → length (pending s') < length (pending s).
Proof.
  intros Hp. unfold decode_step.
  destruct (ws_read (ws s) (pending s) frame_buffer_size) as [[r|e] w] eqn:Hr; [|done].
  pose proof (ws_read_progress _ _ _ _ _ Hp Hr).
  destruct (message_type r); [|..]; try done.
  - destruct (end_of_message r); [by destruct (from_utf8 _)|]. intros [= <-]. simpl.
    rewrite length_drop. lia.
  - intros [= <-]. simpl. rewrite length_drop. lia.
Qed.

(** The loop stops for want of bytes only when there are none, and more fuel than there
    are bytes changes nothing. *)
Lemma decode_drains fuel s s' :
  length (pending s) ≤ fuel → decode fuel s = (None, s') → pending s' = [].
Proof.
  revert s. induction fuel as [|fuel IH]; intros s Hle; cbn [decode].
  - destruct (pending s) as [|b bs] eqn:Hp; simpl in *; [|lia]. by intros [= <-].
  - destruct (pending s) as [|b bs] eqn:Hp; [by intros [= <-]|].
    destruct (decode_step s) as [[r|] s1] eqn:Hs; [done|]. apply IH.
    apply decode_step_shrinks in Hs; [|by rewrite Hp]. rewrite Hp in Hs. simpl in *. lia.
Qed.

Lemma decode_fuel fuel fuel' s :
  length (pending s) ≤ fuel → length (pending s) ≤ fuel' → decode fuel s = decode fuel' s.
Proof.
  revert fuel' s. induction fuel as [|fuel IH]; intros fuel' s Hle Hle'.
  - destruct (pending s) as [|b bs] eqn:Hp; simpl in *; [|lia].
    by destruct fuel'; cbn [decode]; rewrite Hp.
  - destruct (pending s) as [|b bs] eqn:Hp; [by destruct fuel'; cbn [decode]; rewrite Hp|].
    destruct fuel' as [|fuel']; [simpl in *; lia|]. cbn [decode]. rewrite Hp.
    destruct (decode_step s) as [[r|] s1] eqn:Hs; [done|].
    apply decode_step_shrinks in Hs; [|by rewrite Hp]. rewrite Hp in Hs. simpl in *.
    apply IH; lia.
Qed.

Lemma decode_nothing fuel s : pending s = [] → decode fuel s = (None, s).
Proof. intros Hp. by destruct fuel; cbn [decode]; rewrite Hp. Qed.

(** [recv] by what it does first. *)
Lemma embassy_recv_unfold s chunks :
  embassy_recv s chunks =
    match decode (length (pending s)) s with
    | (Some r, s') => (Some r, s', chunks)
    | (None, s') =>
        match chunks with
        | [] => (None, s', [])
        | Err e :: rest => (Some (Err (FromNet e)), s', rest)
        | Ok [] :: rest => (Some (Ok None), s', rest)
        | Ok bytes :: rest => embassy_recv (mkWs (ws s') (pending s' ++ bytes) (accumulated s')) rest
        end
    end.
Proof. by destruct chunks. Qed.

Lemma embassy_recv_resumes s early later s' rest :
  embassy_recv s early = (None, s', rest) →
  rest = [] ∧ pending s' = [] ∧ embassy_recv s' later = embassy_recv s (early ++ later).
Proof.
  revert s. induction early as [|c early IH]; intros s; rewrite embassy_recv_unfold;
    (destruct (decode (length (pending s)) s) as [[r|] s1] eqn:Hd; [done|]);
    pose proof (decode_drains _ _ _ (le_n _) Hd) as Hp.
  - intros [= <- <-]. split; [done|]. split; [done|]. simpl.
    by rewrite (embassy_recv_unfold s later), (embassy_recv_unfold s1 later), Hd, decode_nothing.
  - destruct c as [[|b bytes]|e]; [done| |done]. intros Hrec.
    destruct (IH _ Hrec) as (-> & ? & Heq). split; [done|]. split; [done|].
    rewrite Heq. simpl. by rewrite Hd.
Qed.

Lemma embassy_recv_prompt s early later r s' rest :
  embassy_recv s early = (Some r, s', rest) →
  embassy_recv s (early ++ later) = (Some r, s', rest ++ later).
Proof.
  revert s. induction early as [|c early IH]; intros s; rewrite embassy_recv_unfold;
    (destruct (decode (length (pending s)) s) as [[r'|] s1] eqn:Hd).
  - intros [= <- <- <-]. by rewrite embassy_recv_unfold, Hd.
  - done.
  - intros [= <- <- <-]. simpl. by rewrite Hd.
  - simpl. rewrite Hd. destruct c as [[|b bytes]|e]; [by intros [= <- <- <-]|apply IH|by intros [= <- <- <-]].
Qed.

#[global] Instance embassy_read_half : ReadHalf EmbassyWs chunk EmbassyError := embassy_recv.

#[global] Instance embassy_cancel_safe : CancelSafe embassy_read_half.
Proof.
  split; unfold stream_recv, embassy_read_half.
  - intros s inputs s' rest Hr. by apply (embassy_recv_resumes s inputs []) in Hr as [-> _].
  - intros s early later s' rest Hr. by apply (embassy_recv_resumes s early later) in Hr as (_ & _ & ?).
Qed.

#[global] Instance embassy_prompt : Prompt embassy_read_half.
Proof. intros s early later r s' rest. apply embassy_recv_prompt. Qed.

(** ** Writing does not disturb reading *)

(** A call of the write half encodes before it waits for anything, and encoding is all it
    does to the codec. *)
#[global] Instance embassy_write_half : WriteHalf EmbassyWs :=
  λ op s, mkWs (encode (ws s) op).2 (pending s) (accumulated s).

Lemma sink_method_touches s op write flush : (sink_method s op write flush).2 = touched op s.
Proof.
  unfold sink_method, embassy_sink, touched, embassy_write_half.
  destruct (encode (ws s) op) as [[bytes|e] w]; [destruct (write bytes)|]; done.
Qed.

Section Undisturbed.
Context {SC : SharedCodec}.

Definition halves_alike (s t : EmbassyWs) : Prop :=
  reads_like (ws s) (ws t) ∧ pending s = pending t ∧ accumulated s = accumulated t.

#[local] Instance halves_alike_equivalence : Equivalence halves_alike.
Proof.
  split.
  - by intros s.
  - intros s t (? & ? & ?). by split_and!.
  - intros s t u (? & ? & ?) (? & ? & ?). split_and!; [by etransitivity|congruence..].
Qed.

#[local] Instance decode_step_alike : Proper (halves_alike ==> prod_relation eq halves_alike) decode_step.
Proof.
  intros [w bytes text] [v bytes' text'] (Hw & Hb & Ht). simpl in *. subst bytes' text'. unfold decode_step. simpl.
  pose proof (ws_read_like w v bytes frame_buffer_size Hw) as Hr.
  destruct (ws_read w bytes frame_buffer_size) as [[r|e] w'], (ws_read v bytes frame_buffer_size) as [[q|d] v']; try done.
  - destruct Hr as [Hrq Hw'], r as [n ds [] ?], q as [m ds' [] ?]; simplify_eq/=; repeat case_match; by split.
  - destruct Hr as [-> Hw']. by split.
Qed.

#[local] Instance decode_alike fuel : Proper (halves_alike ==> prod_relation eq halves_alike) (decode fuel).
Proof.
  induction fuel as [|fuel IH]; intros s t Hst; pose proof Hst as (_ & Hp & _); cbn [decode]; rewrite Hp;
    destruct (pending t) as [|b bytes]; try by split.
  destruct (decode_step_alike s t Hst) as [Ho Hst'].
  destruct (decode_step s) as [[r|] s'], (decode_step t) as [[q|] t']; simplify_eq/=; [by split|by apply IH].
Qed.

#[local] Instance embassy_recv_alike :
  Proper (halves_alike ==> eq ==> prod_relation (prod_relation eq halves_alike) eq) embassy_recv.
Proof.
  intros s t Hst chunks _ <-. revert s t Hst. induction chunks as [|c chunks IH]; intros s t Hst;
    rewrite !embassy_recv_unfold; pose proof Hst as (_ & -> & _);
    destruct (decode_alike (length (pending t)) s t Hst) as [Ho Hst'];
    destruct (decode _ s) as [[r|] s'], (decode _ t) as [[q|] t']; simplify_eq/=; try done.
  destruct c as [[|b bytes]|e]; [done| |done]. apply IH. destruct Hst' as (? & -> & ->). by split.
Qed.

#[global] Instance embassy_undisturbed : Undisturbed embassy_read_half embassy_write_half.
Proof.
  refine {| alike := halves_alike |}. intros op s. split; [|done].
  destruct op; [apply ws_write_reads_like..|apply ws_close_reads_like].
Defined.

End Undisturbed.

(** ** Properties of the transport *)

(** The embassy adapter's [recv] is cancel-safe.  It keeps undecoded bytes and the
    fragments of an unfinished message in [self], so that however often the engine drops
    it while it waits for the socket, the call that completes returns what one
    uninterrupted call over the same bytes would have returned, and leaves the same
    state; and a call waits only once every byte read has been decoded. *)
Lemma embassy_recv_cancel_safe s batch (batches : list (list chunk)) :
  recv_dropping s (batch :: batches) = (stream_recv s (concat (batch :: batches))).1 ∧
  (∀ s' rest, embassy_recv s batch = (None, s', rest) → rest = [] ∧ pending s' = []).
Proof.
  split; [by destruct (recv_dropping_uninterrupted s (batch :: batches))|].
  intros s' rest Hr. by destruct (embassy_recv_resumes s batch [] s' rest Hr) as (? & ? & _).
Qed.

(** A write that takes [n] bytes takes all of them exactly if there are no more. *)
Lemma take_whole n (bytes : list byte) : take n bytes = bytes ↔ length bytes ≤ n.
Proof.
  split; [|apply take_ge]. intros Ht. apply (f_equal length) in Ht. rewrite length_take in Ht. lia.
Qed.

(** C35: a frame the socket does not take whole is cut off, and reported as sent.  The
    bytes that reach the socket are the first ones of the encoded frame, as many as the
    write took; they are the frame exactly if that was all of it; and the method
    succeeds in either case. *)
Theorem embassy_sink_reports_partial_writes_as_sent w op bytes w' n :
  encode w op = (Ok bytes, w') →
  ∃ sent, embassy_sink w op (λ _, Ok n) (Ok tt) = (sent, Ok tt, w') ∧
    sent `prefix_of` bytes ∧ (sent = bytes ↔ length bytes ≤ n).
Proof.
  intros He. exists (take n bytes). unfold embassy_sink. rewrite He. split; [done|].
  split; [apply prefix_take|apply take_whole].
Qed.

(** The bytes of a sequence of reads. *)
Fixpoint bytes_of (chunks : list chunk) : list byte :=
  match chunks with
  | [] => []
  | Ok bytes :: rest => bytes ++ bytes_of rest
  | Err _ :: rest => bytes_of rest
  end.

Lemma read_into_bytes room chunks bytes rest :
  read_into room chunks = Some (Ok bytes, rest) →
  length bytes ≤ room ∧ bytes_of chunks = bytes ++ bytes_of rest.
Proof.
  destruct chunks as [|[bs|e] chunks]; simpl; try done. intros [= <- <-].
  split; [rewrite length_take; lia|]. case_bool_decide; simpl.
  - by rewrite take_ge.
  - by rewrite app_assoc, take_drop.
Qed.

(** The codec after it has found the response incomplete after each of these reads. *)
Fixpoint incomplete (key : WsKey) (w : WsState) (response : list byte) (reads : list (list byte)) : option WsState :=
  match reads with
  | [] => Some w
  | bytes :: reads =>
      match client_accept w key (response ++ bytes) with
      | (None, w') => incomplete key w' (response ++ bytes) reads
      | _ => None
      end
  end.

(** When the response is accepted, it was so at the first read that made it complete;
    the stream half starts with exactly the bytes received beyond those of the response,
    and the rest is still in the socket.  And with room in the buffer and a turn per free
    byte, the loop is without a result only while the peer has not yet sent enough to
    fill it. *)
Lemma handshake_keeps_leftover fuel size key w response chunks :
  (∀ leftover w' rest,
     read_response fuel size key w response chunks = Some (Ok (leftover, w'), rest) →
     ∃ early last w0 consumed,
       incomplete key w response early = Some w0 ∧
       client_accept w0 key (response ++ concat early ++ last) = (Some (Ok consumed), w') ∧
       leftover = drop consumed (response ++ concat early ++ last) ∧
       bytes_of chunks = concat early ++ last ++ bytes_of rest) ∧
  (length response < size → size - length response ≤ fuel →
   read_response fuel size key w response chunks = None →
   length response + length (bytes_of chunks) < size).
Proof.
  revert w response chunks. induction fuel as [|fuel IH]; intros w response chunks; [split; [done|lia]|].
  cbn [read_response].
  destruct (read_into _ chunks) as [[[bytes|e] rest]|] eqn:Hr; [|done|].
  - apply read_into_bytes in Hr as [Hl Hb].
    destruct bytes as [|b bytes]; [done|]. set (bs := b :: bytes) in *.
    destruct (client_accept w key (response ++ bs)) as [[[consumed|e]|] w1] eqn:Ha; [|done|].
    + split; [|done]. intros leftover w' rest' [= <- <- <-].
      by exists [], bs, w, consumed.
    + case_bool_decide as Hfull; [done|]. destruct (IH w1 (response ++ bs) rest) as [IH1 IH2]. split.
      * intros leftover w' rest' Hrec.
        destruct (IH1 _ _ _ Hrec) as (early & last & w0 & consumed & Hi & Hacc & -> & Hbr).
        exists (bs :: early), last, w0, consumed. cbn [incomplete concat]. rewrite Ha, Hb, Hbr, <-!app_assoc in *. done.
      * intros Hlt Hf Hn.
        assert (length (response ++ bs) = length response + S (length bytes))
          by (rewrite length_app; done).
        rewrite Hb, length_app. assert (Hgoal := IH2 ltac:(simpl in *; lia) ltac:(simpl in *; lia) Hn).
        rewrite length_app in Hgoal. lia.
  - split; [done|]. intros Hlt _ _. destruct chunks as [|[|]]; [simpl; lia|done..].
Qed.

End Embassy.

(** ** A concrete codec

    Every byte is a text message of its own, and the opening response is two bytes. *)

Definition byte_codec : FrameCodec.
Proof.
  refine {| WsState := unit; WsError := unit; WsRng := unit; WsKey := unit; new_client _ := tt;
            client_connect w options size :=
              (let request := String.list_byte_of_string (opt_path options) in
               if bool_decide (length request ≤ size) then Ok (request, tt) else Err tt, w);
            ws_read w bytes _ := (Ok (mkReadResult 1 (take 1 bytes) RText true), w);
            ws_write w _ payload _ := (Ok payload, w); ws_close w _ := (Ok [], w);
            client_accept w _ response :=
              (if bool_decide (2 ≤ length response) then Some (Ok 2) else None, w) |}.
  - intros w bytes size r w' Hb [= <- <-]. simpl. destruct bytes; [done|]. simpl. lia.
  - intros w key response consumed w'. case_bool_decide; [by intros [= <- _]|done].
Defined.

#[local] Existing Instance byte_codec.

Definition abc : list byte := [Z_to_byte 97; Z_to_byte 98; Z_to_byte 99].

Lemma embassy_sink_reports_partial_writes_as_sent_witness :
  ∃ sent, embassy_sink (FC := byte_codec) (NetErr := unit) 4096 tt (SinkPing abc) (λ _, Ok 2) (Ok tt) = (sent, Ok tt, tt) ∧
    sent `prefix_of` abc.
Proof.
  destruct (embassy_sink_reports_partial_writes_as_sent (FC := byte_codec) (NetErr := unit) 4096 tt (SinkPing abc) abc tt 2)
    as (sent & Hs & Hp & _); [reflexivity|].
  exists sent. split; [exact Hs|exact Hp].
Defined.
