(* ===== verification/Reassembly.v ===== *)
(** * Reassembling messages in the embassy transport

    [EmbassyWsStream::recv] of [src/crates/ocpp-transport-embassy-net/src/transport.rs]
    against a reference: its answers as a function of what the decoder and the socket
    report one after the other (decoded pieces, undecodable bytes, read errors, the end),
    whichever socket reads and buffers the bytes came in. *)

From S2P Require Import Prelude Time Sync Envelope Platform ProtocolErrors Client Transport Embassy.
From stdpp Require Import base list strings.

Section Reassembly.
Context {FC : FrameCodec} {NetErr : Type} (frame_buffer_size : nat).

Abbreviation chunk := (result (list byte) NetErr).
Abbreviation Stream := (EmbassyWs (FC := FC)).
Abbreviation Received := (result (option TransportEvent) (EmbassyError (NetErr := NetErr))).

(** What the decoder and the socket report: a piece, bytes that cannot be decoded, a read
    that fails, the end of the stream. *)
Inductive report :=
| Piece (r : ReadResult)
| Undecodable (e : WsError)
| ReadFails (e : NetErr)
| EndOfStream.

(** On these undecoded bytes, and on the chunks the socket delivers when they are used
    up, these reports come one after the other.  Bytes that cannot be decoded are still
    there afterwards. *)
Inductive delivers : WsState → list byte → list chunk → list report → Prop :=
| delivers_nothing w bytes chunks : delivers w bytes chunks []
| delivers_chunk w b bytes chunks reports :
    delivers w (b :: bytes) chunks reports → delivers w [] (Ok (b :: bytes) :: chunks) reports
| delivers_piece w bytes chunks r w' reports :
    bytes ≠ [] → ws_read w bytes frame_buffer_size = (Ok r, w') →
    delivers w' (drop (len_from r) bytes) chunks reports → delivers w bytes chunks (Piece r :: reports)
| delivers_undecodable w bytes chunks e w' reports :
    bytes ≠ [] → ws_read w bytes frame_buffer_size = (Err e, w') →
    delivers w' bytes chunks reports → delivers w bytes chunks (Undecodable e :: reports)
| delivers_failure w e chunks reports :
    delivers w [] chunks reports → delivers w [] (Err e :: chunks) (ReadFails e :: reports)
| delivers_end w chunks reports :
    delivers w [] chunks reports → delivers w [] (Ok [] :: chunks) (EndOfStream :: reports).

(** ** The reference

    Text is collected until a piece ends the message; control frames, which may come
    between the pieces of a message, are events at once and leave the text alone; a
    binary piece is dropped, with the text collected so far; errors and the end are
    answers, and leave the text alone. *)
Fixpoint assemble (text : list byte) (reports : list report) : list Received :=
  match reports with
  | [] => []
  | Undecodable e :: reports => Err (FromWs e) :: assemble text reports
  | ReadFails e :: reports => Err (FromNet e) :: assemble text reports
  | EndOfStream :: reports => Ok None :: assemble text reports
  | Piece r :: reports =>
      match message_type r with
      | RText =>
          if end_of_message r then
            match from_utf8 (text ++ decoded r) with
            | Some frame => Ok (Some (Frame frame)) :: assemble [] reports
            | None => Err InvalidUtf8 :: assemble [] reports
            end
          else assemble (text ++ decoded r) reports
      | RBinary => assemble [] reports
      | RPing => Ok (Some (Ping (decoded r))) :: assemble text reports
      | RPong => Ok (Some (Pong (decoded r))) :: assemble text reports
      | RCloseMustReply | RCloseCompleted => Ok None :: assemble text reports
      end
  end.

(** The results of so many calls of [recv]. *)
Fixpoint recv_many (n : nat) (s : Stream) (chunks : list chunk) : list Received :=
  match n with
  | O => []
  | S n =>
      match embassy_recv frame_buffer_size s chunks with
      | (Some r, s', rest) => r :: recv_many n s' rest
      | (None, _, _) => []
      end
  end.

(** ** [recv] piece by piece *)

Lemma recv_result s chunks r s' :
  pending s ≠ [] → decode_step frame_buffer_size s = (Some r, s') →
  embassy_recv (NetErr := NetErr) frame_buffer_size s chunks = (Some r, s', chunks).
Proof.
  intros Hp Hs. rewrite embassy_recv_unfold. destruct (pending s) as [|b bs] eqn:Hb; [done|].
  cbn [length decode]. by rewrite Hb, Hs.
Qed.

Lemma recv_goes_on s chunks s' :
  pending s ≠ [] → decode_step (NetErr := NetErr) frame_buffer_size s = (None, s') →
  embassy_recv (NetErr := NetErr) frame_buffer_size s chunks = embassy_recv frame_buffer_size s' chunks.
Proof.
  intros Hp Hs. rewrite !(embassy_recv_unfold _ _ chunks).
  pose proof (decode_step_shrinks _ s s' Hp Hs) as Hlt.
  destruct (pending s) as [|b bs] eqn:Hb; [done|]. cbn [length decode] in *. rewrite Hb, Hs.
  by rewrite (decode_fuel _ (length bs) (length (pending s')) s') by lia.
Qed.

Lemma recv_reads w text b bytes chunks :
  embassy_recv (NetErr := NetErr) frame_buffer_size (mkWs w [] text) (Ok (b :: bytes) :: chunks)
    = embassy_recv frame_buffer_size (mkWs w (b :: bytes) text) chunks.
Proof. rewrite embassy_recv_unfold, decode_nothing by done. done. Qed.

(** A piece that completes an event, and one that does not. *)
Lemma recv_many_result n s chunks r s' :
  pending s ≠ [] → decode_step frame_buffer_size s = (Some r, s') →
  recv_many (S n) s chunks = r :: recv_many n s' chunks.
Proof. intros Hp Hs. cbn [recv_many]. by rewrite (recv_result s chunks r s'). Qed.

Lemma recv_many_goes_on n s chunks s' :
  pending s ≠ [] → decode_step (NetErr := NetErr) frame_buffer_size s = (None, s') →
  recv_many n s chunks = recv_many n s' chunks.
Proof. intros Hp Hs. destruct n; [done|]. cbn [recv_many]. by rewrite (recv_goes_on s chunks s'). Qed.

(** An answer of the socket that completes the call. *)
Lemma recv_many_reads n w text c chunks r :
  (∀ more, embassy_recv frame_buffer_size (mkWs w [] text) (c :: more) = (Some r, mkWs w [] text, more)) →
  recv_many (S n) (mkWs w [] text) (c :: chunks) = r :: recv_many n (mkWs w [] text) chunks.
Proof. intros Hr. cbn [recv_many]. by rewrite Hr. Qed.

Lemma recv_many_assembles w bytes chunks reports text :
  delivers w bytes chunks reports →
  recv_many (length (assemble text reports)) (mkWs w bytes text) chunks = assemble text reports.
Proof.
  intros Hd. revert text.
  induction Hd as [w bytes chunks|w b bytes chunks reports _ IH|w bytes chunks r w' reports Hne Hr _ IH
    |w bytes chunks e w' reports Hne Hr _ IH|w e chunks reports _ IH|w chunks reports _ IH];
    intros text; [done| | | |cbn [assemble length]..].
  - rewrite <-(IH text) at 2. destruct (length _); [done|]. cbn [recv_many]. by rewrite recv_reads.
  - assert (Hs : pending (mkWs w bytes text) ≠ []) by done.
    destruct (decode_step (NetErr := NetErr) frame_buffer_size (mkWs w bytes text)) as [o s'] eqn:Hstep.
    pose proof Hstep as Heq. unfold decode_step in Heq. cbn [ws pending accumulated] in Heq. rewrite Hr in Heq.
    cbn [assemble]. destruct (message_type r);
      repeat match type of Heq with
        | context [if ?b then _ else _] => destruct b
        | context [match from_utf8 ?t with _ => _ end] => destruct (from_utf8 t)
        end; injection Heq as <- <-; cbn [length];
      first [rewrite (recv_many_result _ _ chunks _ _ Hs Hstep) | rewrite (recv_many_goes_on _ _ chunks _ Hs Hstep)];
      by rewrite IH.
  - cbn [assemble length]. rewrite (recv_many_result _ (mkWs w bytes text) chunks (Err (FromWs e)) (mkWs w' bytes text)).
    + by rewrite IH.
    + done.
    + unfold decode_step. cbn [ws pending accumulated]. by rewrite Hr.
  - by rewrite (recv_many_reads _ w text (Err e) chunks (Err (FromNet e))), IH.
  - by rewrite (recv_many_reads _ w text (Ok []) chunks (Ok None)), IH.
Qed.

(** ** A message in pieces *)

(** A piece of a text message that does not end it, or a ping or pong between two. *)
Definition inside (r : ReadResult) : bool :=
  match message_type r with
  | RText => negb (end_of_message r)
  | RPing | RPong => true
  | _ => false
  end.

Definition piece_text (r : ReadResult) : list byte :=
  match message_type r with RText => decoded r | _ => [] end.

Definition piece_events (r : ReadResult) : list Received :=
  match message_type r with
  | RPing => [Ok (Some (Ping (decoded r)))]
  | RPong => [Ok (Some (Pong (decoded r)))]
  | _ => []
  end.

Lemma assemble_inside text pieces more :
  Forall (λ r, inside r = true) pieces →
  assemble text ((Piece <$> pieces) ++ more)
    = concat (piece_events <$> pieces) ++ assemble (text ++ concat (piece_text <$> pieces)) more.
Proof.
  intros Hp. revert text. induction Hp as [|r pieces Hr _ IH]; intros text; [by rewrite app_nil_r|].
  unfold inside in Hr. cbn [app assemble fmap list_fmap concat]. unfold piece_events at 1, piece_text at 1.
  destruct (message_type r); try done.
  - destruct (end_of_message r); [done|]. simpl. by rewrite IH, app_assoc.
  - by rewrite IH.
  - by rewrite IH.
Qed.

(** [recv] reassembles messages.  Successive calls return exactly the answers of the
    reference to what the decoder and the socket report.  In particular a text message in
    any number of pieces, with pings and pongs anywhere between them, gives the control
    events in order and then one frame, whose text is all of the pieces of the message,
    and the next message starts empty. *)
Lemma recv_reassembles s chunks reports :
  delivers (ws s) (pending s) chunks reports →
  recv_many (length (assemble (accumulated s) reports)) s chunks = assemble (accumulated s) reports ∧
  ∀ first last more frame,
    reports = (Piece <$> first) ++ Piece last :: more → Forall (λ r, inside r = true) first →
    message_type last = RText → end_of_message last = true →
    from_utf8 (accumulated s ++ concat (piece_text <$> first) ++ decoded last) = Some frame →
    assemble (accumulated s) reports
      = concat (piece_events <$> first) ++ Ok (Some (Frame frame)) :: assemble [] more.
Proof.
  intros Hd. split; [destruct s; by apply recv_many_assembles|].
  intros first last more frame -> Hf Ht He Hu. rewrite assemble_inside by done. cbn [assemble].
  by rewrite Ht, He, <-app_assoc, Hu.
Qed.

End Reassembly.

(** ** Witness

    A codec of one-byte pieces: [p] is a ping, [a] an unfinished piece of text, [x] cannot
    be decoded, [c] is a close frame, anything else a piece that ends the message.  Its
    state, which every write changes, counts what was encoded and says whether that
    included a close frame. *)
Definition piece_codec : FrameCodec.
Proof.
  refine {| WsState := nat * bool; WsError := unit; WsRng := unit; WsKey := unit; new_client _ := (0, false);
            client_connect w options size := (Err tt, w);
            ws_read w bytes _ :=
              (let piece := take 1 bytes in
               match byte_to_Z <$> piece with
               | [120%Z] => Err tt
               | [112%Z] => Ok (mkReadResult 1 piece RPing true)
               | [97%Z] => Ok (mkReadResult 1 piece RText false)
               | [99%Z] => Ok (mkReadResult 1 [] (if w.2 then RCloseCompleted else RCloseMustReply) true)
               | _ => Ok (mkReadResult 1 piece RText true)
               end, w);
            ws_write w _ payload _ := (Ok payload, (S w.1, w.2)); ws_close w _ := (Ok [], (S w.1, true));
            client_accept w _ response := (None, w) |}.
  - intros w bytes size r w' Hb. destruct bytes as [|b bytes]; [done|]. intros [= Hr _]. simpl in Hr.
    assert (len_from r = 1) as ->; [|simpl; lia]. revert Hr. by repeat case_match; intros [= <-].
  - done.
Defined.

(** Whatever was written, the same pieces are read, but for the kind of a close frame. *)
Definition piece_codec_shared : SharedCodec (FC := piece_codec).
Proof.
  refine {| reads_like := λ _ _ : WsState (FrameCodec := piece_codec), True |}; [by split|done|done|].
  intros [n c] [m d] [|b bytes] size _; [done|]. simpl. repeat case_match; simplify_eq; done.
Defined.

Definition letter (z : Z) : byte := Z_to_byte z.

Lemma recv_reassembles_witness :
  recv_many (FC := piece_codec) (NetErr := unit) 4096 4 (mkWs (FC := piece_codec) (0, false) [letter 97] [])
      [Ok [letter 112]; Ok [letter 98]; Err tt; Ok [letter 120]]
    = [Ok (Some (Ping [letter 112])); Ok (Some (Frame "ab")); Err (FromNet tt); Err (FromWs (FC := piece_codec) tt)].
Proof.
  destruct (recv_reassembles (FC := piece_codec) (NetErr := unit) 4096 (mkWs (FC := piece_codec) (0, false) [letter 97] [])
    [Ok [letter 112]; Ok [letter 98]; Err tt; Ok [letter 120]]
    [Piece (mkReadResult 1 [letter 97] RText false); Piece (mkReadResult 1 [letter 112] RPing true);
     Piece (mkReadResult 1 [letter 98] RText true); ReadFails tt; Undecodable (FC := piece_codec) tt]) as [Hmany Hevents].
  - eapply (delivers_piece (FC := piece_codec)); [done|reflexivity|].
    apply (delivers_chunk (FC := piece_codec)).
    eapply (delivers_piece (FC := piece_codec)); [done|reflexivity|].
    apply (delivers_chunk (FC := piece_codec)).
    eapply (delivers_piece (FC := piece_codec)); [done|reflexivity|].
    apply (delivers_failure (FC := piece_codec)), (delivers_chunk (FC := piece_codec)).
    eapply (delivers_undecodable (FC := piece_codec)); [done|reflexivity|].
    apply (delivers_nothing (FC := piece_codec)).
  - exact Hmany.
Defined.
