(* ===== verification/Wire.v ===== *)
(** * The engine on top of a transport's read half

    The engine's theorems let a transport answer [recv] with anything.  Here its answers
    are those of a read half that keeps its own state and takes its inputs (messages, or
    chunks of bytes) as they arrive: the read loop polls [recv], a [recv] that waits has
    taken what there was, one that loses its race against a wake-up is dropped, and calls
    on the write half, which may share state with the read half, come in between.  What
    the engine receives is then what one uninterrupted reader of the same inputs, over a
    connection nobody writes to, would have received; and every run is a run of the
    engine. *)

From S2P Require Import Prelude Time Sync Envelope Platform ProtocolErrors Reconnect Keepalive Engine Client ClientInv ClientLogic ClientDemo Transport Websocket Embassy Reassembly.
From stdpp Require Import base gmap strings list.

Section Wire.
Context {SM : SignalModel} {UM : UuidModel} {SJ : SerdeJson} {E : Type} {PE : ProtocolError E} {TErr : Type}.
Context {Half Input : Type} `{Hrh : ReadHalf Half Input TErr} `{Hwh : WriteHalf Half}.

Abbreviation St := (Client (E := E)).
Abbreviation Ch := (Choice (TErr := TErr)).
Abbreviation program A := (prog (St := St) (Ext := Ext (TErr := TErr)) A).
Abbreviation answer := (result (option TransportEvent) TErr).

(** ** The system

    The client's tasks, of which the first is the read loop; the read half and the
    inputs it has not taken; and what its [recv] has answered so far. *)
Record Wired := mkWired {
  tasks : list (program unit);
  engine : St;
  half : Half;
  available : list Input;
  answered_with : list answer;
}.

(** The read loop races [recv] against a wake-up. *)
Definition reading (p : program unit) : bool :=
  match p with
  | Select (FExt e) _ _ => match e with Recv _ => true | _ => false end
  | _ => false
  end.

Definition read_loop_reads (ts : list (program unit)) : bool :=
  match ts !! 0 with Some p => reading p | None => false end.

Definition is_recv (c : Ch) : bool := match c with CRecv _ => true | _ => false end.

(** An input arrives; a call on the write half starts; the read loop polls [recv]; or a
    task takes any other step, the completion of such a call among them.  A call may start
    at any moment before it completes, and may be dropped after it has started: the two
    are not tied to each other, so that every order of them is a run. *)
Inductive wire_move :=
| Arrive (i : Input)
| Starts (op : SinkOp)
| Poll
| Task (i : nat) (c : Ch).

Definition wire_step (m : wire_move) (x : Wired) : option Wired :=
  match m with
  | Arrive i =>
      Some (mkWired (tasks x) (engine x) (half x) (available x ++ [i]) (answered_with x))
  | Starts op =>
      Some (mkWired (tasks x) (engine x) (touched op (half x)) (available x) (answered_with x))
  | Poll =>
      if read_loop_reads (tasks x) then
        match stream_recv (half x) (available x) with
        | (Some r, h, rest) =>
            match pool_step 0 (CRecv r) (tasks x) (engine x) with
            | Some (ts, s) => Some (mkWired ts s h rest (answered_with x ++ [r]))
            | None => None
            end
        | (None, h, rest) => Some (mkWired (tasks x) (engine x) h rest (answered_with x))
        end
      else None
  | Task i c =>
      if is_recv c then None
      else if bool_decide (i = 0) && read_loop_reads (tasks x) then
        match stream_recv (half x) (available x) with
        | (None, h, rest) =>
            match pool_step i c (tasks x) (engine x) with
            | Some (ts, s) => Some (mkWired ts s h rest (answered_with x))
            | None => None
            end
        | (Some _, _, _) => None
        end
      else
        match pool_step i c (tasks x) (engine x) with
        | Some (ts, s) => Some (mkWired ts s (half x) (available x) (answered_with x))
        | None => None
        end
  end.

Fixpoint run_wire (moves : list wire_move) (x : Wired) : option Wired :=
  match moves with
  | [] => Some x
  | m :: moves => match wire_step m x with Some x' => run_wire moves x' | None => None end
  end.

Definition arrived (moves : list wire_move) : list Input :=
  omap (λ m, match m with Arrive i => Some i | _ => None end) moves.

(** The answers of so many calls of [recv], none of them dropped. *)
Fixpoint recv_all (n : nat) (h : Half) (inputs : list Input) : list answer :=
  match n with
  | O => []
  | S n =>
      match stream_recv h inputs with
      | (Some r, h', rest) => r :: recv_all n h' rest
      | (None, _, _) => []
      end
  end.

#[global] Instance recv_all_alike `{!Undisturbed Hrh Hwh} n : Proper (alike ==> eq ==> eq) (recv_all n).
Proof.
  induction n as [|n IH]; intros s t Hst inputs _ <-; [done|]. cbn [recv_all].
  destruct (recv_alike s t Hst inputs inputs eq_refl) as [[Hr Ha] Hi].
  destruct (stream_recv s inputs) as [[[r|] s'] rest], (stream_recv t inputs) as [[[q|] t'] rest'];
    simplify_eq/=; [|done]. f_equal. by apply IH.
Qed.

Definition event_of (r : answer) : option TransportEvent := match r with Ok e => e | Err _ => None end.

(** The events in the log. *)
Definition events (l : list LogEntry) : list TransportEvent :=
  omap (λ e, match e with LRecv event => Some event | _ => None end) l.

Lemma events_snoc l e : events (l ++ [e]) = events l ++ match e with LRecv event => [event] | _ => [] end.
Proof. unfold events. rewrite omap_app. by destruct e. Qed.

(** ** Only [recv] brings events *)

Definition unheard (s s' : St) : Prop := events (log s') = events (log s).

(** Every step of [p] that is not an answer of [recv] brings no event, and an answer of
    [recv] is only awaited by a read loop. *)
Fixpoint silent {A : Type} (p : program A) : Prop :=
  match p with
  | Ret _ => True
  | Atomic f k => ∀ s, unheard s (f s).2 ∧ silent (k (f s).1)
  | Await f k => ∀ s c b s', poll f c s = Some (b, s') → (is_recv c = false → unheard s s') ∧ silent (k b)
  | Select f g k =>
      ∀ s c b s', poll_select f g c s = Some (b, s') → (is_recv c = false → unheard s s') ∧ silent (k b)
  | Spawn p k => silent p ∧ silent k
  | OutOfFuel => True
  end.

Lemma silent_steps A (p : program A) : steps_in (λ _, True) unheard p → silent p.
Proof.
  induction p as [A a|A B f k IH|A B f k IH|A B C f g k IH|A p IHp k IH|A]; simpl; intros Hp; try done.
  - intros s. destruct (Hp s). auto.
  - intros s c b s' Hpo. destruct (Hp s c b s' I Hpo). auto.
  - intros s c b s' Hpo. destruct (Hp s c b s' I Hpo). auto.
  - destruct Hp. auto.
Qed.

Lemma silent_bind A B (p : program A) (k : A → program B) : silent p → (∀ a, silent (k a)) → silent (bind p k).
Proof.
  revert k. induction p as [A a|A C f k' IH|A C f k' IH|A C D f g k' IH|A p _ k' IH|A];
    simpl; intros k Hp Hk; auto.
  - intros s. destruct (Hp s). auto.
  - intros s c b s' Hpo. destruct (Hp s c b s' Hpo). auto.
  - intros s c b s' Hpo. destruct (Hp s c b s' Hpo). auto.
  - destruct Hp. auto.
Qed.

Lemma silent_spawn A (p : program unit) (k : program A) : silent p → silent k → silent (Spawn p k).
Proof. done. Qed.

Lemma unheard_log e s : match e with LRecv _ => False | _ => True end → unheard s (add_log e s).
Proof. intros He. unfold unheard. simpl. rewrite events_snoc. destruct e; by rewrite ?app_nil_r. Qed.

Lemma silent_modify f : (∀ s, log (f s) = log s) → silent (modify f : program unit).
Proof. intros Hf s. split; [|done]. unfold unheard. simpl. by rewrite Hf. Qed.

Lemma silent_sink op : silent (sink_call op : program (result unit TErr)).
Proof.
  intros s c b s' Hp. split; [|done]. intros _. destruct c; simpl in Hp; try discriminate Hp.
  injection Hp as _ <-. by apply unheard_log.
Qed.

Lemma silent_respond {R} to_value (r : result R E) id : silent (do_send_response (TErr := TErr) to_value r id).
Proof.
  unfold do_send_response. destruct (response_frame to_value r id); [|done].
  apply silent_bind; [apply silent_sink|done].
Qed.

Lemma recv_unheard h s c b s' : poll (request_recv (E := E) (TErr := TErr) h) c s = Some (b, s') → unheard s s'.
Proof.
  simpl. destruct (cells (request_senders s) !! h) as [ch|]; [|done].
  destruct (chan_check ch) as [[v c']|]; [|done]. by intros [= <- <-].
Qed.

Lemma silent_handler_loop fuel A (callback : Request A → program (result (Response A) E)) h :
  (∀ r, silent (callback r)) → silent (handler_loop fuel A callback h).
Proof.
  intros Hcb. induction fuel as [|fuel IH]; cbn [handler_loop]; [done|].
  intros s c b s' Hp. split; [intros _; by eapply recv_unheard|]. destruct b as [[id payload]|]; [|done].
  cbn [bind]. apply silent_bind; [|done]. unfold handle_call.
  destruct (de_request A payload); [|apply silent_respond].
  apply silent_bind; [apply Hcb|]. intros. apply silent_respond.
Qed.

Lemma silent_wait_for timeout A (callback : Request A → program (result (Response A) E)) :
  (∀ r, silent (callback r)) → silent (wait_for timeout A callback).
Proof.
  intros Hcb. apply silent_bind; [intros s; split; [by destruct (register_chan _ _)|done]|]. intros h.
  apply silent_bind; [|intros r; apply silent_bind].
  - intros s c b s' Hp. split; [|by destruct b]. intros _. unfold poll_select in Hp.
    destruct (poll (request_recv h) c s) as [[v s1]|] eqn:Hr; [injection Hp as <- <-; by eapply recv_unheard|].
    destruct c; simpl in Hp; try discriminate Hp. injection Hp as <- <-. by apply unheard_log.
  - destruct r as [[[id payload]|]|[]]; [|done..]. destruct (de_request A payload); [|done].
    apply silent_bind; [apply Hcb|]. intros. apply silent_bind; [apply silent_respond|done].
  - intros o. apply silent_bind; [|done]. apply silent_modify. intros s.
    destruct (entries _ !! _); [by case_decide|done].
Qed.

Lemma silent_handle_event event : silent (handle_event event : program unit).
Proof.
  destruct event as [frame|payload|payload]; cbn [handle_event].
  - unfold handle_frame. destruct (from_str frame) as [[| | | |[|[] items]|]|]; try done.
    destruct (as_u64_opt n) as [t|]; [|done].
    destruct (t =? MESSAGE_TYPE_CALL)%Z; [|destruct (t =? MESSAGE_TYPE_RESULT)%Z;
      [|destruct (t =? MESSAGE_TYPE_ERROR)%Z; [|destruct (t =? MESSAGE_TYPE_SEND)%Z; [|done]]]].
    + unfold handle_CALL. destruct (from_str_as _ frame) as [rc|]; [|done].
      intros s. split; [done|]. cbn [fst bind]. destruct (entries _ !! _) as [h|].
      * apply silent_bind; intros; by apply silent_modify.
      * destruct (to_string _); [|done]. apply silent_bind; [apply silent_sink|done].
    + unfold handle_RESULT. destruct (from_str_as _ frame); [|done]. destruct (uuid_parse_str _); [|done].
      apply silent_modify. intros s. unfold settle_pending. by destruct (entries _ !! _).
    + unfold handle_ERROR. destruct (from_str_as _ frame); [|done]. destruct (uuid_parse_str _); [|done].
      apply silent_modify. intros s. unfold settle_pending. by destruct (entries _ !! _).
    + unfold handle_SEND. destruct (from_str_as _ frame); [|done]. intros s. split; [done|]. cbn [fst bind].
      destruct (entries _ !! _); [|done]. apply silent_bind; intros; by apply silent_modify.
  - apply silent_bind; [by apply silent_modify|]. intros _. apply silent_bind; [apply silent_sink|done].
  - apply silent_modify. intros s. unfold settle_pong. destruct (token_of payload); [|done].
    by destruct (entries _ !! _).
Qed.

Lemma silent_read_connection fuel honor stream attempt :
  silent (read_connection fuel honor stream attempt : program _).
Proof.
  revert attempt. induction fuel as [|fuel IH]; intros attempt; cbn [read_connection]; [done|].
  intros s c b s' Hp. unfold poll_select in Hp.
  destruct (poll (FExt (Recv stream)) c s) as [[v s1]|] eqn:Hr.
  - injection Hp as <- <-. destruct c; try discriminate Hr. injection Hr as <- <-. split; [done|].
    destruct r as [[event|]|]; cbn [bind]; [|done..]. apply silent_bind; [apply silent_handle_event|]. intros; apply IH.
  - simpl in Hp. destruct (notify_poll_wait _) as [[]|]; [|done]. injection Hp as <- <-. split; [done|].
    cbn [bind]. intros s2. split; [done|]. cbn [fst bind]. destruct (closed s2); [done|]. by destruct honor.
Qed.

Lemma silent_logic : client_logic (λ _, True) any_handler unheard (λ _ p, silent p).
Proof.
  split; [split|..]; eauto using silent_steps, silent_bind, silent_wait_for; try done.
  - intros e s He. apply unheard_log. by destruct e as [? []| | | |].
  - intros timeout A request. apply silent_steps, call_steps; try done; intros; by apply unheard_log.
  - intros timeout. apply silent_steps, ping_steps; try done; intros; by apply unheard_log.
  - intros fuel A callback _ Hcb. apply (on_by_loop (λ _, True) unheard); auto using silent_steps, silent_bind, silent_handler_loop; done.
  - intros s. by apply (unheard_log LClosed (set_closed true s)).
Qed.

(** ** Steps *)

Lemma silent_step c (p : program unit) s p' s' new :
  is_recv c = false → silent p → step c p s = Some (p', s', new) →
  unheard s s' ∧ silent p' ∧ Forall silent new.
Proof.
  intros Hc Hp Hs. destruct p as [a|B f k|B f k|B C f g k|p k|]; simpl in *; try done.
  - destruct (Hp s). destruct (f s). by simplify_eq/=.
  - destruct (poll f c s) as [[b s1]|] eqn:Hpo; simplify_eq/=. destruct (Hp _ _ _ _ Hpo). auto.
  - destruct (poll_select f g c s) as [[b s1]|] eqn:Hpo; simplify_eq/=. destruct (Hp _ _ _ _ Hpo). auto.
  - destruct Hp. simplify_eq/=. by repeat constructor.
Qed.

Lemma silent_pool_step i c ts s ts' s' :
  is_recv c = false → Forall silent ts → pool_step i c ts s = Some (ts', s') →
  unheard s s' ∧ Forall silent ts'.
Proof.
  intros Hc Hts. unfold pool_step. destruct (ts !! i) as [p|] eqn:Hi; [|done].
  destruct (step c p s) as [[[p' s1] new]|] eqn:Hs; [|done]. intros [= <- <-].
  destruct (silent_step _ _ _ _ _ _ Hc (proj1 (Forall_lookup _ _) Hts i p Hi) Hs) as (Hu & Hp' & Hnew).
  split; [done|]. apply Forall_app. split; [by apply Forall_insert|done].
Qed.

(** A read loop that reads takes the answer of [recv], and with it the event. *)
Lemma reading_step r (p : program unit) s :
  reading p = true → silent p →
  ∃ p' s', step (CRecv r) p s = Some (p', s', []) ∧ silent p' ∧
    events (log s') = events (log s) ++ option_list (event_of r).
Proof.
  destruct p as [| | |B C f g k| |]; try done. destruct f as [|e]; [done|]. destruct e; try done.
  intros _ Hp. simpl. do 2 eexists. split; [done|]. split; [by eapply (Hp s (CRecv r))|].
  destruct r as [[event|]|]; simpl; rewrite ?events_snoc, ?app_nil_r; done.
Qed.

Lemma reading_pool_step r ts s :
  read_loop_reads ts = true → Forall silent ts →
  ∃ ts' s', pool_step 0 (CRecv r) ts s = Some (ts', s') ∧ Forall silent ts' ∧
    events (log s') = events (log s) ++ option_list (event_of r).
Proof.
  unfold read_loop_reads. intros Hr Hts. destruct (ts !! 0) as [p|] eqn:Hp; [|done].
  destruct (reading_step r p s Hr (proj1 (Forall_lookup _ _) Hts 0 p Hp)) as (p' & s' & Hs & Hp' & He).
  exists (<[0 := p']> ts ++ []), s'. unfold pool_step. rewrite Hp, Hs. split; [done|].
  rewrite app_nil_r. by split; [apply Forall_insert|].
Qed.

(** ** The invariant *)

Section Runs.
Context `{!CancelSafe Hrh, !Prompt Hrh, !Undisturbed Hrh Hwh}.
Context (ts0 : list (program unit)) (s0 : St) (h0 : Half).

Record wired_ok (inputs : list Input) (x : Wired) : Prop := {
  wired_engine : ∃ schedule, run_pool schedule ts0 s0 = Some (tasks x, engine x);
  wired_silent : Forall silent (tasks x);
  wired_events : events (log (engine x)) = events (log s0) ++ omap event_of (answered_with x);
  (** What the read half answers from here on is what it would have answered had it
      never been dropped and nothing been written. *)
  wired_half : ∀ n later,
    answered_with x ++ recv_all n (half x) (available x ++ later)
      = recv_all (length (answered_with x) + n) h0 (inputs ++ later);
}.

(** Writing changes no answer. *)
Lemma recv_all_touched n op h inputs : recv_all n (touched op h) inputs = recv_all n h inputs.
Proof. apply recv_all_alike; [apply touched_alike|done]. Qed.

(** A [recv] that waits has taken what there was. *)
Lemma recv_waits n h inputs h' rest later :
  stream_recv h inputs = (None, h', rest) →
  rest = [] ∧ recv_all n h' (rest ++ later) = recv_all n h (inputs ++ later).
Proof.
  intros Hw. assert (rest = []) as -> by by eapply pending_takes_all. split; [done|].
  destruct n as [|n]; [done|]. simpl. by rewrite (dropped_resumes _ _ later _ _ Hw).
Qed.

Lemma engine_steps inputs x i c ts s :
  wired_ok inputs x → pool_step i c (tasks x) (engine x) = Some (ts, s) →
  ∃ schedule, run_pool schedule ts0 s0 = Some (ts, s).
Proof.
  intros [[schedule Hrun] _ _ _] Hs. exists (schedule ++ [(i, c)]).
  rewrite run_pool_app, Hrun. simpl. by rewrite Hs.
Qed.

Lemma wired_ok_step m inputs x x' :
  wired_ok inputs x → wire_step m x = Some x' → wired_ok (inputs ++ arrived [m]) x'.
Proof.
  intros Hok Hm. pose proof Hok as [He Hsil Hev Hh]. destruct m as [i|op| |i c]; simpl in *; rewrite ?app_nil_r.
  - simplify_eq. split; try done. intros n later. simpl. by rewrite <-!(assoc app).
  - simplify_eq. split; try done. intros n later. simpl. by rewrite recv_all_touched.
  - destruct (read_loop_reads (tasks x)) eqn:Hr; [|done].
    destruct (stream_recv (half x) (available x)) as [[[r|] h] rest] eqn:Hrecv.
    + destruct (reading_pool_step r _ (engine x) Hr Hsil) as (ts & s & Hs & Hts & Hevs).
      rewrite Hs in Hm. injection Hm as <-. split; simpl; [by eapply engine_steps|done|..].
      * rewrite Hevs, Hev, omap_app, <-(assoc app). simpl. by destruct (event_of r).
      * intros n later. specialize (Hh (S n) later). simpl in Hh.
        rewrite (completed_ignores_later _ _ later _ _ _ Hrecv) in Hh.
        rewrite length_app, <-(assoc app). simpl. rewrite Hh. f_equal. lia.
    + simplify_eq. split; simpl; try done. intros n later.
      destruct (recv_waits n _ _ _ _ later Hrecv) as [_ ->]. apply Hh.
  - destruct (is_recv c) eqn:Hc; [done|].
    destruct (bool_decide (i = 0) && read_loop_reads (tasks x)).
    + destruct (stream_recv (half x) (available x)) as [[[r|] h] rest] eqn:Hrecv; [done|].
      destruct (pool_step i c (tasks x) (engine x)) as [[ts s]|] eqn:Hs; [|done]. injection Hm as <-.
      destruct (silent_pool_step _ _ _ _ _ _ Hc Hsil Hs) as [Hu Hts].
      split; simpl; [by eapply engine_steps|done|by rewrite Hu|]. intros n later.
      destruct (recv_waits n _ _ _ _ later Hrecv) as [_ ->]. apply Hh.
    + destruct (pool_step i c (tasks x) (engine x)) as [[ts s]|] eqn:Hs; [|done]. injection Hm as <-.
      destruct (silent_pool_step _ _ _ _ _ _ Hc Hsil Hs) as [Hu Hts].
      split; simpl; [by eapply engine_steps|done|by rewrite Hu|done].
Qed.

Lemma wired_ok_run moves inputs x x' :
  wired_ok inputs x → run_wire moves x = Some x' → wired_ok (inputs ++ arrived moves) x'.
Proof.
  revert inputs x. induction moves as [|m moves IH]; intros inputs x Hok; simpl.
  - intros [= <-]. by rewrite app_nil_r.
  - destruct (wire_step m x) as [x1|] eqn:Hm; [|done]. intros Hrun.
    pose proof (IH _ _ (wired_ok_step _ _ _ _ Hok Hm) Hrun) as Hok'.
    rewrite <-(assoc app) in Hok'. revert Hok'. by destruct m.
Qed.

Lemma wired_ok_start : Forall silent ts0 → wired_ok [] (mkWired ts0 s0 h0 [] []).
Proof. intros Hts. split; simpl; [by exists []|done|by rewrite app_nil_r|done]. Qed.

End Runs.

End Wire.

Section Theorems.
Context {SM : SignalModel} {UM : UuidModel} {SJ : SerdeJson} {E : Type} {PE : ProtocolError E} {TErr : Type}.
Context {Half Input : Type} `{Hrh : ReadHalf Half Input TErr} `{Hwh : WriteHalf Half}.
Context `{!CancelSafe Hrh, !Prompt Hrh, !Undisturbed Hrh Hwh}.

Abbreviation program A := (prog (St := Client (E := E)) (Ext := Ext (TErr := TErr)) A).

(** A client over one connection, which it reads to its end. *)
Definition wired_client (fuel conn : nat) (timeout : Duration) (users : list (program unit)) (h : Half) :
    Wired (E := E) (TErr := TErr) (Half := Half) (Input := Input) :=
  mkWired ((from_transport fuel conn timeout).2 ++ users) (from_transport (E := E) (TErr := TErr) fuel conn timeout).1
    h [] [].

Lemma wired_client_ok fuel conn timeout users h moves x :
  Forall (api unit) users → run_wire moves (wired_client fuel conn timeout users h) = Some x →
  wired_ok ((from_transport fuel conn timeout).2 ++ users) (from_transport (E := E) (TErr := TErr) fuel conn timeout).1
    h (arrived moves) x.
Proof.
  intros Hu. apply (wired_ok_run _ _ h moves []). apply wired_ok_start.
  apply (logic_tasks _ _ _ _ silent_logic silent_read_connection fuel conn (ClientConfig_new timeout) users Hu).
Qed.

Lemma recv_all_prefix n m h (inputs : list Input) : n ≤ m → recv_all n h inputs `prefix_of` recv_all m h inputs.
Proof.
  revert m h inputs. induction n as [|n IH]; intros m h inputs Hle; [apply prefix_nil|].
  destruct m as [|m]; [lia|]. simpl. destruct (stream_recv h inputs) as [[[r|] h'] rest]; [|done].
  apply prefix_cons, IH. lia.
Qed.

(** What the engine received, against one reader of everything that arrived: so many of
    its answers; and all of them, once the read half waits. *)
Lemma engine_receives fuel conn timeout users h moves x :
  Forall (api unit) users → run_wire moves (wired_client fuel conn timeout users h) = Some x →
  (∃ schedule, run_pool schedule ((from_transport fuel conn timeout).2 ++ users)
     (from_transport (E := E) (TErr := TErr) fuel conn timeout).1 = Some (tasks x, engine x)) ∧
  events (log (engine x)) = omap event_of (answered_with x) ∧
  answered_with x = recv_all (length (answered_with x)) h (arrived moves) ∧
  (∀ h' rest, stream_recv (half x) (available x) = (None, h', rest) →
     ∀ n, recv_all n h (arrived moves) `prefix_of` answered_with x).
Proof.
  intros Hu Hrun. destruct (wired_client_ok _ _ _ _ _ _ _ Hu Hrun) as [He _ Hev Hh].
  split; [done|]. split; [exact Hev|].
  assert (Hall : ∀ n, answered_with x ++ recv_all n (half x) (available x) =
            recv_all (length (answered_with x) + n) h (arrived moves)).
  { intros n. specialize (Hh n []). by rewrite !app_nil_r in Hh. }
  split.
  - rewrite <-(Nat.add_0_r (length _)), <-Hall at 1. by rewrite app_nil_r.
  - intros h' rest Hw n. transitivity (recv_all (length (answered_with x) + n) h (arrived moves)).
    + apply recv_all_prefix. lia.
    + rewrite <-Hall. destruct n as [|n]; simpl; [by rewrite app_nil_r|]. by rewrite Hw, app_nil_r.
Qed.

End Theorems.

(** ** The embassy transport *)

Section Embassy.
Context {SM : SignalModel} {UM : UuidModel} {SJ : SerdeJson} {E : Type} {PE : ProtocolError E}.
Context {FC : FrameCodec} {SC : SharedCodec} {NetErr : Type} (frame_buffer_size : nat).

Abbreviation NetError := (EmbassyError (NetErr := NetErr)).
Abbreviation program A := (prog (St := Client (E := E)) (Ext := Ext (TErr := NetError)) A).
Abbreviation embassy := (embassy_read_half (NetErr := NetErr) frame_buffer_size).

Lemma recv_all_many n s chunks : recv_all (Hrh := embassy) n s chunks = recv_many frame_buffer_size n s chunks.
Proof.
  revert s chunks. induction n as [|n IH]; intros s chunks; simpl; [done|].
  unfold stream_recv, embassy_read_half. destruct (embassy_recv _ _ _) as [[[r|] s'] rest]; [|done]. by rewrite IH.
Qed.

(** C11: from bytes to the engine over the embassy transport.  The socket delivers chunks
    of bytes, cut anywhere, fails, or ends, at any time; the read loop polls [recv] and
    drops it whenever a wake-up wins the race; calls of the write half, which encode with
    the codec that [recv] decodes with, start at any moment; handlers, users and the
    keepalive task run in between.  Every such run is a run of the engine, so that
    everything proved of all interleavings holds of it.  Let the decoder, had nothing ever
    been written, report pieces, undecodable bytes, failures and ends on what arrived; then
    the engine is given the answers of the reference assembly of these reports, in order,
    none lost, repeated or torn: what [recv] has answered and the reference are prefixes of
    one another, once [recv] waits for more bytes it has answered the whole of the
    reference, and the events the engine received are those of the answers. *)
Theorem bytes_reach_the_engine fuel conn timeout users s moves x reports :
  Forall (api unit) users → run_wire (Hrh := embassy) (Hwh := embassy_write_half frame_buffer_size) moves (wired_client fuel conn timeout users s) = Some x →
  delivers frame_buffer_size (ws s) (pending s) (arrived moves) reports →
  (∃ schedule, run_pool schedule ((from_transport fuel conn timeout).2 ++ users)
     (from_transport (E := E) (TErr := NetError) fuel conn timeout).1 = Some (tasks x, engine x)) ∧
  events (log (engine x)) = omap event_of (answered_with x) ∧
  (answered_with x `prefix_of` assemble (accumulated s) reports ∨
   assemble (accumulated s) reports `prefix_of` answered_with x) ∧
  (∀ s' rest, embassy_recv frame_buffer_size (half x) (available x) = (None, s', rest) →
     assemble (accumulated s) reports `prefix_of` answered_with x).
Proof.
  intros Hu Hrun Hd.
  destruct (engine_receives (Hrh := embassy) (Hwh := embassy_write_half frame_buffer_size) _ _ _ _ _ _ _ Hu Hrun) as (He & Hev & Ha & Hw).
  destruct (recv_reassembles frame_buffer_size s (arrived moves) reports Hd) as [Hmany _].
  rewrite <-recv_all_many in Hmany. split; [done|]. split; [done|]. split.
  - rewrite Ha, <-Hmany.
    destruct (decide (length (answered_with x) ≤ length (assemble (NetErr := NetErr) (accumulated s) reports)));
      [left|right]; apply recv_all_prefix; lia.
  - intros s' rest Hp. rewrite <-Hmany. by eapply Hw.
Qed.

End Embassy.

(** ** The WebSocket transport *)

Section WebSocket.
Context {SM : SignalModel} {UM : UuidModel} {SJ : SerdeJson} {E : Type} {PE : ProtocolError E} {TErr : Type}.

Abbreviation program A := (prog (St := Client (E := E)) (Ext := Ext (TErr := TErr)) A).
Abbreviation item := (option (result Message TErr)).

Lemma recv_all_items n (items : list item) :
  recv_all (Hrh := websocket_read_half) n tt items = take n (omap recv_item items).
Proof.
  revert items. induction n as [|n IH]; intros items; [done|]. simpl.
  unfold stream_recv, websocket_read_half. induction items as [|i items IHi]; [done|]. simpl.
  destruct (recv_item i) as [r|]; simpl; [by rewrite IH|exact IHi].
Qed.

(** What the other end's calls of [TransportSink] become, if the socket carries its
    messages in order. *)
Definition written (ops : list SinkOp) : list item := (λ m, Some (Ok m)) <$> omap sink_message ops.

Lemma written_events ops : omap event_of (omap recv_item (written ops)) = omap carried ops.
Proof. induction ops as [|[] ops IH]; [done|by apply (f_equal (cons _))..|done]. Qed.

(** C12: from the peer's write half to the engine over the WebSocket transport.  The
    socket yields messages, errors and its end at any time, the read loop polls [recv]
    and drops it whenever a wake-up wins the race, and everything else runs in between.
    Every such run is a run of the engine; the answers of [recv] are those of the
    relevant items that arrived, in order, none lost or repeated, and all of them once it
    waits; and where what arrived is what the peer's write half wrote, the events the
    engine received are, from the first on, what its calls carry. *)
Theorem messages_reach_the_engine fuel conn timeout users moves x :
  Forall (api unit) users →
  run_wire (Hrh := websocket_read_half) moves (wired_client (E := E) fuel conn timeout users tt) = Some x →
  (∃ schedule, run_pool schedule ((from_transport fuel conn timeout).2 ++ users)
     (from_transport (E := E) (TErr := TErr) fuel conn timeout).1 = Some (tasks x, engine x)) ∧
  answered_with x `prefix_of` omap recv_item (arrived moves) ∧
  ((recv (available x)).1 = None → answered_with x = omap recv_item (arrived moves)) ∧
  ∀ ops, arrived moves = written ops → events (log (engine x)) `prefix_of` omap carried ops.
Proof.
  intros Hu Hrun.
  destruct (engine_receives (Hrh := websocket_read_half) _ _ _ _ _ _ _ Hu Hrun) as (He & Hev & Ha & Hw).
  rewrite recv_all_items in Ha.
  assert (Hp : answered_with x `prefix_of` omap recv_item (arrived moves)) by (rewrite Ha; apply prefix_take).
  split; [done|]. split; [done|]. split.
  - intros Hn. apply (anti_symm prefix); [done|].
    destruct (half x) eqn:Hh. destruct (recv (available x)) as [r rest] eqn:Hr. simpl in Hn. subst r.
    specialize (Hw tt rest). unfold stream_recv, websocket_read_half in Hw. rewrite Hr in Hw.
    specialize (Hw eq_refl (length (omap recv_item (arrived moves)))). rewrite recv_all_items in Hw.
    by rewrite take_ge in Hw.
  - intros ops Hops. rewrite Hev, <-written_events, <-Hops. destruct Hp as [more ->].
    rewrite omap_app. by apply prefix_app_r.
Qed.

End WebSocket.

(** ** Witnesses

    A message in two pieces with a ping between them; a wake-up that drops the [recv]
    which has already taken the first piece; the pong that answers the ping, and a close,
    encoded while [recv] is in the middle of the message; then a read that fails. *)
Section WireWitness.
#[local] Existing Instance piece_codec.
#[local] Existing Instance piece_codec_shared.

Definition waking_users {TErr : Type} : list (prog (St := DemoSt) (Ext := Ext (TErr := TErr)) unit) :=
  [force_reconnect].

Lemma waking_users_api {TErr : Type} : Forall (api unit) (waking_users (TErr := TErr)).
Proof. apply Forall_singleton, api_force_reconnect. Defined.

Definition torn_moves : list (wire_move (TErr := EmbassyError (NetErr := unit)) (Input := result (list byte) unit)) :=
  [Arrive (Ok [letter 97]); Poll; Task 2 CTimer; Task 2 CTimer; Task 0 CTimer; Task 0 CTimer; Starts SinkClose;
   Arrive (Ok [letter 112; letter 98]); Poll; Task 1 CTimer; Task 0 CTimer; Starts (SinkPong [letter 112]);
   Task 0 (CSink (Ok tt)); Poll; Arrive (Err tt)].

Abbreviation torn_start := (mkWs (FC := piece_codec) (0, false) [] []).

Lemma torn_delivers :
  delivers (NetErr := unit) 4096 (0, false) [] (arrived torn_moves)
    [Piece (mkReadResult 1 [letter 97] RText false); Piece (mkReadResult 1 [letter 112] RPing true);
     Piece (mkReadResult 1 [letter 98] RText true); ReadFails tt].
Proof.
  simpl. apply delivers_chunk. eapply delivers_piece; [done|reflexivity|]. apply delivers_chunk.
  eapply delivers_piece; [done|reflexivity|]. eapply delivers_piece; [done|reflexivity|].
  apply delivers_failure, delivers_nothing.
Defined.

Lemma bytes_reach_the_engine_witness :
  match run_wire (Hrh := embassy_read_half 4096) (Hwh := embassy_write_half 4096) torn_moves
          (wired_client (E := V1_6.OCPP1_6Error) 6 0 (from_secs 30) waking_users torn_start) with
  | Some x => events (log (engine x)) = [Ping [letter 112]; Frame "ab"] ∧
      events (log (engine x)) = omap event_of (answered_with x)
  | None => False
  end.
Proof.
  apply (ran_to_elim (λ x, events (log (engine x)) = [Ping [letter 112]; Frame "ab"] ∧
      events (log (engine x)) = omap event_of (answered_with x))
    (λ x, match events (log (engine x)) with [Ping [b]; Frame t] => Byte.eqb b (letter 112) && String.eqb t "ab" | _ => false end));
    [vm_compute; reflexivity|].
  intros x Hrun Hev.
  destruct (bytes_reach_the_engine 4096 6 0 (from_secs 30) waking_users torn_start torn_moves x _
    waking_users_api Hrun torn_delivers) as (_ & Heq & _).
  split; [|exact Heq].
  destruct (events (log (engine x))) as [|[|[|b []]|] [|[t| |] []]]; try discriminate Hev.
  apply andb_prop in Hev as [Hb Ht]. apply Byte.byte_dec_bl in Hb. apply String.eqb_eq in Ht. by subst.
Defined.

(** The peer pings and sends a message; the engine has read the ping. *)
Definition peer_ops : list SinkOp := [SinkPing [letter 1]; SinkSend "x"].

Definition peer_moves : list (wire_move (TErr := unit) (Input := option (result Message unit))) :=
  [Arrive (Some (Ok (MPing [letter 1]))); Task 2 CTimer; Task 2 CTimer; Poll; Arrive (Some (Ok (Text "x")))].

Lemma messages_reach_the_engine_witness :
  match run_wire (Hrh := websocket_read_half) peer_moves
          (wired_client (E := V1_6.OCPP1_6Error) 6 0 (from_secs 30) waking_users tt) with
  | Some x => events (log (engine x)) `prefix_of` omap carried peer_ops
  | None => False
  end.
Proof.
  apply (ran_elim (λ x, events (log (engine x)) `prefix_of` omap carried peer_ops)); [vm_compute; reflexivity|].
  intros x Hrun.
  destruct (messages_reach_the_engine 6 0 (from_secs 30) waking_users peer_moves x waking_users_api Hrun)
    as (_ & _ & _ & Hops).
  apply (Hops peer_ops). reflexivity.
Defined.

End WireWitness.
