(* ===== verification/Endpoints.v ===== *)
(** * Two clients over WebSockets

    System.v assumes a link that invents nothing.  Here the link is built from the
    WebSocket adapter: each call on a write half writes the message of [sink_message], a
    socket yields the messages written at the other end in order, and anything else a peer
    may send (binary and raw frames, close frames, errors, the end) at will, and each
    end's read loop polls the adapter's [recv] on what its socket has yielded.  Every run
    of these two ends is a run of System.v's, so that its theorems hold of it; and what an
    engine receives is what the other handed over, in order, nothing lost or repeated. *)

From S2P Require Import Prelude Time Sync Envelope Platform ProtocolErrors Reconnect Keepalive Engine Client ClientInv ClientLogic ClientDemo ClientReplies Transport System Websocket Wire.
From stdpp Require Import base gmap strings list.

#[export] Instance Message_eq_dec : EqDecision Message.
Proof. solve_decision. Defined.

Section Endpoints.
Context {SM : SignalModel} {UM : UuidModel} {SJ : SerdeJson} {E : Type} {PE : ProtocolError E} {TErr : Type}.

Abbreviation St := (Client (E := E)).
Abbreviation Ch := (Choice (TErr := TErr)).
Abbreviation program A := (prog (St := St) (Ext := Ext (TErr := TErr)) A).
Abbreviation item := (option (result Message TErr)).
Abbreviation Sys A := (System (E := E) (TErr := TErr) A).

(** ** Sockets *)

(** The messages an adapter has written, and whether the write succeeded; one that is
    reported as failed may have reached the other end or not. *)
Definition writes (l : list LogEntry) : list (Message * bool) :=
  omap (λ e, match e with LSink _ op ok => (λ m, (m, ok)) <$> sink_message op | _ => None end) l.

(** [out] is what came out of a reliable channel so far: the given ones in order, each
    once, of which only failed ones are left out. *)
Fixpoint relayed {A} `{EqDecision A} (given : list (A * bool)) (out : list A) : bool :=
  match out, given with
  | [], _ => true
  | _, [] => false
  | b :: out', (a, ok) :: given =>
      (bool_decide (a = b) && relayed given out') || (negb ok && relayed given out)
  end.

(** The messages that only an adapter's write half sends. *)
Definition speech (i : item) : option Message :=
  match i with
  | Some (Ok (Text text)) => Some (Text text)
  | Some (Ok (MPing payload)) => Some (MPing payload)
  | Some (Ok (MPong payload)) => Some (MPong payload)
  | _ => None
  end.

(** Everything a socket has yielded, and what [recv] has not yet taken of it. *)
Record Socket := mkSocket { yielded : list item; waiting : list item }.

(** What the socket may yield next, given the log of the other end. *)
Definition yields (l : list LogEntry) (i : item) (k : Socket) : option Socket :=
  let k' := mkSocket (yielded k ++ [i]) (waiting k ++ [i]) in
  match speech i with
  | Some _ => if relayed (writes l) (omap speech (yielded k')) then Some k' else None
  | None => Some k'
  end.

Definition taken (k : Socket) (rest : list item) : Socket := mkSocket (yielded k) rest.

(** The two clients and their sockets. *)
Record Ends (A : Type) := mkEnds {
  clients : Sys A;
  near_socket : Socket;
  far_socket : Socket;
}.
Arguments mkEnds {A} _ _ _.
Arguments clients {A} _.
Arguments near_socket {A} _.
Arguments far_socket {A} _.

Inductive end_move :=
| NearYields (i : item)
| FarYields (i : item)
| NearPoll
| FarPoll
| NearTask (i : option nat) (c : Ch)
| FarTask (i : nat) (c : Ch).

(** The step a poll of [recv] allows: the choice its answer is, or none while it waits. *)
Definition polled (items : list item) : option Ch * list item :=
  match recv items with
  | (Some r, rest) => (Some (CRecv r), rest)
  | (None, rest) => (None, rest)
  end.

(** A step of the read loop other than an answer of [recv] finds [recv] waiting. *)
Definition held_up (reads : bool) (items : list item) : option (list item) :=
  if reads then
    match recv items with (None, rest) => Some rest | (Some _, _) => None end
  else Some items.

Definition near_step {A} (i : option nat) (c : Ch) (items : list item) (x : Ends A) : option (Ends A) :=
  match run_among [(i, c)] (observed (clients x)) (near_tasks (clients x)) (near (clients x)) with
  | Some (p, ts, s) =>
      Some (mkEnds (mkSystem p ts s (far_tasks (clients x)) (far (clients x)))
              (taken (near_socket x) items) (far_socket x))
  | None => None
  end.

Definition far_step {A} (i : nat) (c : Ch) (items : list item) (x : Ends A) : option (Ends A) :=
  match run_pool [(i, c)] (far_tasks (clients x)) (far (clients x)) with
  | Some (ts, s) =>
      Some (mkEnds (mkSystem (observed (clients x)) (near_tasks (clients x)) (near (clients x)) ts s)
              (near_socket x) (taken (far_socket x) items))
  | None => None
  end.

Definition end_step {A} (m : end_move) (x : Ends A) : option (Ends A) :=
  match m with
  | NearYields i =>
      match yields (log (far (clients x))) i (near_socket x) with
      | Some k => Some (mkEnds (clients x) k (far_socket x))
      | None => None
      end
  | FarYields i =>
      match yields (log (near (clients x))) i (far_socket x) with
      | Some k => Some (mkEnds (clients x) (near_socket x) k)
      | None => None
      end
  | NearPoll =>
      if read_loop_reads (near_tasks (clients x)) then
        match polled (waiting (near_socket x)) with
        | (Some c, rest) => near_step (Some 0) c rest x
        | (None, rest) => Some (mkEnds (clients x) (taken (near_socket x) rest) (far_socket x))
        end
      else None
  | FarPoll =>
      if read_loop_reads (far_tasks (clients x)) then
        match polled (waiting (far_socket x)) with
        | (Some c, rest) => far_step 0 c rest x
        | (None, rest) => Some (mkEnds (clients x) (near_socket x) (taken (far_socket x) rest))
        end
      else None
  | NearTask i c =>
      if is_recv c then None
      else match held_up (bool_decide (i = Some 0) && read_loop_reads (near_tasks (clients x)))
                   (waiting (near_socket x)) with
           | Some rest => near_step i c rest x
           | None => None
           end
  | FarTask i c =>
      if is_recv c then None
      else match held_up (bool_decide (i = 0) && read_loop_reads (far_tasks (clients x)))
                   (waiting (far_socket x)) with
           | Some rest => far_step i c rest x
           | None => None
           end
  end.

Fixpoint run_ends {A} (moves : list end_move) (x : Ends A) : option (Ends A) :=
  match moves with
  | [] => Some x
  | m :: moves => match end_step m x with Some x' => run_ends moves x' | None => None end
  end.

(** Who draws which identifiers, as in System.v. *)
Definition draws_end (drawn mine : Uuid → Prop) (m : end_move) : Prop :=
  match m with NearTask i c => draws drawn mine (i, c) | _ => True end.

(** ** What a channel relays *)

(** The events one end's engine has handed to its adapter, and whether the write
    succeeded. *)
Definition sends (l : list LogEntry) : list (TransportEvent * bool) :=
  omap (λ e, match e with LSink _ op ok => (λ e, (e, ok)) <$> carried op | _ => None end) l.

Definition meaning (m : Message) : option TransportEvent :=
  match m with
  | Text text => Some (Frame text)
  | MPing payload => Some (Ping payload)
  | MPong payload => Some (Pong payload)
  | _ => None
  end.

(** What an item says to an engine. *)
Definition said (i : item) : option TransportEvent := speech i ≫= meaning.

Lemma omap_cons {A B} (f : A → option B) x l : omap f (x :: l) = option_list (f x) ++ omap f l.
Proof. simpl. by destruct (f x). Qed.

Lemma said_meaning (items : list item) : omap meaning (omap speech items) = omap said items.
Proof.
  induction items as [|i items IH]; [done|]. rewrite !omap_cons, omap_app, IH. f_equal.
  unfold said. by destruct (speech i).
Qed.

Section Relayed.
Context {A : Type} `{EqDecision A}.
Implicit Types (given : list (A * bool)) (out : list A).

Lemma relayed_nil given : relayed given [] = true.
Proof. by destruct given as [|[]]. Qed.

Lemma relayed_prefix given out more : relayed given (out ++ more) = true → relayed given out = true.
Proof.
  revert out. induction given as [|[a ok] given IH]; intros [|b out]; simpl; try done.
  rewrite !orb_true_iff, !andb_true_iff. intros [[? ?%IH]|[? Hr]]; [by left|]. right. split; [done|]. by apply (IH (b :: out)).
Qed.

Lemma relayed_grows given more out : relayed given out = true → relayed (given ++ more) out = true.
Proof.
  revert out. induction given as [|[a ok] given IH]; intros [|b out]; simpl; try done; [by destruct more as [|[]]|].
  rewrite !orb_true_iff, !andb_true_iff. intros [[? ?%IH]|[? ?%IH]]; auto.
Qed.

Lemma relayed_given given out a : relayed given out = true → a ∈ out → a ∈ given.*1.
Proof.
  revert out. induction given as [|[b ok] given IH]; intros [|c out]; simpl; try done; [by intros _ Hin%elem_of_nil|].
  rewrite !orb_true_iff, !andb_true_iff, bool_decide_eq_true. intros [[-> Hr]|[_ Hr]].
  - rewrite !elem_of_cons. intros [|?]; [by left|right; eauto].
  - intros Hin. apply elem_of_cons. right. by apply (IH (c :: out)).
Qed.

End Relayed.

Lemma writes_app l k : writes (l ++ k) = writes l ++ writes k.
Proof. apply omap_app. Qed.

Lemma sends_app l k : sends (l ++ k) = sends l ++ sends k.
Proof. apply omap_app. Qed.

Lemma sends_handed l : (sends l).*1 = handed l.
Proof. induction l as [|[c op ok| | | |] l IH]; [done| |exact IH..]. destruct op; [by apply (f_equal (cons _))..|exact IH]. Qed.

(** The messages on the wire mean the events that were handed over. *)
Lemma sends_relayed l out : relayed (writes l) out = true → relayed (sends l) (omap meaning out) = true.
Proof.
  revert out. induction l as [|e l IH]; intros [|m out]; [done|done|intros; apply relayed_nil|]. intros Hr.
  assert (Hstep : ∀ event message ok, meaning message = Some event →
    relayed ((message, ok) :: writes l) (m :: out) = true → relayed ((event, ok) :: sends l) (omap meaning (m :: out)) = true).
  { intros event message ok Hm.
    pose proof (IH (m :: out)) as IHm. rewrite omap_cons in *. revert IHm. generalize (IH out). generalize (omap meaning out).
    intros events IHo IHm. cbn [relayed]. rewrite !orb_true_iff, !andb_true_iff, bool_decide_eq_true.
    intros [[-> Ho%IHo]|[Hok Ho%IHm]].
    - rewrite Hm. simpl. by rewrite bool_decide_eq_true_2, Ho.
    - destruct (option_list (meaning m) ++ events); [done|]. cbn [relayed]. by rewrite Hok, Ho, !orb_true_r. }
  destruct e as [c [frame|payload|payload|] ok| | | |];
    [exact (Hstep (Frame frame) (Text frame) ok eq_refl Hr)|exact (Hstep (Ping payload) (MPing payload) ok eq_refl Hr)
    |exact (Hstep (Pong payload) (MPong payload) ok eq_refl Hr)|exact (IH (m :: out) Hr)..].
Qed.

(** ** What [recv] makes of the items *)

Lemma recv_item_said (i : item) :
  match recv_item i with Some r => event_of r | None => None end = said i.
Proof. by destruct i as [[[]|]|]. Qed.

Lemma recv_said (items : list item) :
  match recv items with
  | (Some r, rest) => omap said items = option_list (event_of r) ++ omap said rest
  | (None, rest) => rest = [] ∧ omap said items = []
  end.
Proof.
  induction items as [|i items IH]; [done|]. cbn [recv]. pose proof (recv_item_said i) as Hi.
  destruct (recv_item i) as [r|]; [|destruct (recv items) as [[r|] rest]]; simpl; rewrite <-Hi; try done.
  by destruct (event_of r).
Qed.

(** ** Every run is a run of the system *)

(** Between the log of one end and the log and socket of the other. *)
Record socket_ok (other own : list LogEntry) (k : Socket) : Prop := {
  socket_relays : relayed (writes other) (omap speech (yielded k)) = true;
  socket_read : omap said (yielded k) = events own ++ omap said (waiting k);
}.

Lemma socket_said other own k : socket_ok other own k → relayed (sends other) (omap said (yielded k)) = true.
Proof.
  intros [Hr _]. apply sends_relayed in Hr. by rewrite said_meaning in Hr.
Qed.

Lemma socket_yields other own i k k' : socket_ok other own k → yields other i k = Some k' → socket_ok other own k'.
Proof.
  intros [Hr Hk]. unfold yields. cbv zeta. cbn [yielded].
  assert (Hread : omap said (yielded k ++ [i]) = events own ++ omap said (waiting k ++ [i]))
    by by rewrite !omap_app, Hk, (assoc app).
  destruct (speech i) as [m|] eqn:Hm.
  - destruct (relayed (writes other) (omap speech (yielded k ++ [i]))) eqn:Hr'; [|done]. intros [= <-]. by split.
  - intros [= <-]. split; [|done]. cbn [yielded]. by rewrite omap_app, omap_cons, Hm, app_nil_r.
Qed.

(** The other end writes, this end takes. *)
Lemma socket_grows other other' own own' k rest read :
  socket_ok other own k → other `prefix_of` other' → events own' = events own ++ read →
  omap said (waiting k) = read ++ omap said rest → socket_ok other' own' (taken k rest).
Proof.
  intros [Hr Hk] [l ->] He Hw. split; simpl; [rewrite writes_app; by apply relayed_grows|].
  by rewrite Hk, He, Hw, (assoc app).
Qed.

Lemma socket_same other other' own own' k :
  socket_ok other own k → other `prefix_of` other' → events own' = events own → socket_ok other' own' k.
Proof.
  intros Hk Hl He. destruct k as [items rest]. apply (socket_grows other other' own own' (mkSocket items rest) rest []); try done.
  by rewrite app_nil_r.
Qed.

Lemma not_recv_delivers c l : is_recv c = false → delivers (TErr := TErr) c l = true.
Proof. by destruct c. Qed.

(** What [recv] answers was handed over. *)
Lemma socket_delivers other own k r rest :
  socket_ok other own k → recv (waiting k) = (Some r, rest) → delivers (TErr := TErr) (CRecv r) other = true.
Proof.
  intros Hk Hr. pose proof (recv_said (waiting k)) as Hs. rewrite Hr in Hs.
  destruct r as [[event|]|]; try done. simpl. apply bool_decide_eq_true. rewrite <-sends_handed.
  eapply relayed_given; [by eapply socket_said|]. destruct Hk as [_ ->].
  rewrite Hs, !elem_of_app. right. left. by apply list_elem_of_here.
Qed.

Section Simulation.
Context (drawn mine : Uuid → Prop) (sent : string → Prop) (Spec : Contract (E := E)).

Record ends_ok {A} (x : Ends A) : Prop := {
  near_ok : near_good drawn mine sent (λ _, True) (observed (clients x)) (near_tasks (clients x)) (near (clients x));
  far_ok : pool_safe (replies_spec Spec (λ _, False) (λ _, True)) (far_tasks (clients x)) (far (clients x));
  near_silent : Forall silent (near_tasks (clients x));
  far_silent : Forall silent (far_tasks (clients x));
  near_reads : socket_ok (log (far (clients x))) (log (near (clients x))) (near_socket x);
  far_reads : socket_ok (log (near (clients x))) (log (far (clients x))) (far_socket x);
}.

Abbreviation simulated m x x' := (run_system m (clients x) = Some (clients x') ∧ Forall (draws_near drawn mine) m ∧ ends_ok x').

(** A step of the observed program brings no event. *)
Lemma own_unheard {A} c (p p' : program A) ts ts' s s' :
  near_good drawn mine sent (λ _, True) p ts s → draws drawn mine (None, c) →
  run_among [(None, c)] p ts s = Some (p', ts', s') → ts' = ts ∧ unheard s s'.
Proof.
  intros [Hp _] Hd. simpl. destruct (step c p s) as [[[p1 s1] []]|] eqn:Hs; try done. intros [= <- <- <-].
  split; [done|].
  destruct (step_safe (own_spec drawn sent) p (λ _ _, True) c s p1 s1 []) as ([[_ (l & Hl & Ho)]| ->] & _); try done;
    try apply moves_preorder.
  unfold unheard, events. rewrite Hl, omap_app. replace (omap _ l) with (@nil TransportEvent); [apply app_nil_r|].
  clear Hl. induction Ho as [|e l He _ IH]; [done|]. by destruct e.
Qed.

(** What a step takes from a socket is what it adds to the events. *)
Definition takes (l l' : list LogEntry) (k : Socket) (rest : list item) : Prop :=
  ∃ read, events l' = events l ++ read ∧ omap said (waiting k) = read ++ omap said rest.

Lemma near_step_simulated {A} i c rest (x x' : Ends A) :
  ends_ok x → near_step i c rest x = Some x' → draws drawn mine (i, c) → delivers c (log (far (clients x))) = true →
  takes (log (near (clients x))) (log (near (clients x'))) (near_socket x) rest →
  Forall silent (near_tasks (clients x')) → simulated [Near i c] x x'.
Proof.
  intros [Hn Hf Hns Hfs Hnr Hfr] Hs Hd Hdel Ht Hsil. unfold near_step in Hs.
  destruct (run_among [(i, c)] _ _ _) as [[[p ts] s]|] eqn:Hrun; [|done]. injection Hs as <-.
  destruct Ht as (read & He & Hw).
  assert (Ho : Forall (reads (λ _, True)) [(i, c)]) by by repeat constructor.
  assert (Hdo : Forall (draws drawn mine) [(i, c)]) by by repeat constructor.
  destruct (near_steps _ _ _ _ _ _ _ _ _ _ _ Hn Hdo Ho Hrun) as [Hn' _].
  destruct (near_log _ _ _ _ _ _ _ _ _ _ _ Hn Hdo Ho Hrun) as [Hpre _].
  split; [by cbn [run_system system_step]; rewrite Hdel, Hrun|]. split; [by repeat constructor|].
  split; try done; [by eapply socket_grows|by eapply socket_same].
Qed.

Lemma far_step_simulated {A} i c rest (x x' : Ends A) :
  ends_ok x → far_step i c rest x = Some x' → delivers c (log (near (clients x))) = true →
  takes (log (far (clients x))) (log (far (clients x'))) (far_socket x) rest →
  Forall silent (far_tasks (clients x')) → simulated [Far i c] x x'.
Proof.
  intros [Hn Hf Hns Hfs Hnr Hfr] Hs Hdel Ht Hsil. unfold far_step in Hs.
  destruct (run_pool [(i, c)] _ _) as [[ts s]|] eqn:Hrun; [|done]. injection Hs as <-.
  destruct Ht as (read & He & Hw).
  assert (Ho : Forall (reads (λ _, True)) [(i, c)]) by by repeat constructor.
  destruct (far_steps _ _ _ _ _ _ _ Hf Ho Hrun) as (Hf' & Hpre & _).
  split; [by cbn [run_system system_step]; rewrite Hdel, Hrun|]. split; [by repeat constructor|].
  split; try done; [by eapply socket_same|by eapply socket_grows].
Qed.

(** A poll of [recv] that completes. *)
Lemma poll_takes ts (s : St) k r rest :
  read_loop_reads ts = true → Forall silent ts → recv (waiting k) = (Some r, rest) →
  ∃ ts' s', pool_step 0 (CRecv r) ts s = Some (ts', s') ∧ Forall silent ts' ∧ takes (log s) (log s') k rest.
Proof.
  intros Hrd Hts Hr. destruct (reading_pool_step r ts s Hrd Hts) as (ts' & s' & Hs & Hts' & He).
  exists ts', s'. split; [done|]. split; [done|]. exists (option_list (event_of r)). split; [done|].
  pose proof (recv_said (waiting k)) as Hw. by rewrite Hr in Hw.
Qed.

(** One that waits, or is not made. *)
Lemma held_up_takes reads l l' k rest :
  held_up reads (waiting k) = Some rest → events l' = events l → takes l l' k rest.
Proof.
  intros Hh He. exists []. rewrite app_nil_r. split; [done|]. unfold held_up in Hh.
  destruct reads; [|by injection Hh as ->]. pose proof (recv_said (waiting k)) as Hw.
  destruct (recv (waiting k)) as [[r|] rest']; [done|]. injection Hh as <-. destruct Hw as [-> Hw]. by rewrite Hw.
Qed.

Lemma polled_waits k other own : socket_ok other own k → ∀ rest, recv (waiting k) = (None, rest) → socket_ok other own (taken k rest).
Proof.
  intros Hk rest Hr. pose proof (recv_said (waiting k)) as Hw. rewrite Hr in Hw. destruct Hw as [-> Hw].
  apply (socket_grows other other own own k [] []); [done|done|by rewrite app_nil_r|by rewrite Hw].
Qed.

Lemma end_step_simulated {A} m (x x' : Ends A) :
  ends_ok x → end_step m x = Some x' → draws_end drawn mine m → ∃ moves, simulated moves x x'.
Proof.
  intros Hok Hs Hd. pose proof Hok as [Hn Hf Hns Hfs Hnr Hfr]. destruct m as [i|i| | |i c|i c]; simpl in Hs.
  - destruct (yields _ _ _) as [k|] eqn:Hy; [|done]. injection Hs as <-. exists [].
    split; [done|]. split; [done|]. split; try done. by eapply socket_yields.
  - destruct (yields _ _ _) as [k|] eqn:Hy; [|done]. injection Hs as <-. exists [].
    split; [done|]. split; [done|]. split; try done. by eapply socket_yields.
  - destruct (read_loop_reads _) eqn:Hrd; [|done]. unfold polled in Hs.
    destruct (recv _) as [[r|] rest] eqn:Hr.
    + destruct (poll_takes _ (near (clients x)) _ _ _ Hrd Hns Hr) as (ts & s & Hp & Hts & Ht).
      eexists. eapply near_step_simulated; try done; [by eapply socket_delivers|..];
        unfold near_step in Hs; simpl in Hs; rewrite Hp in Hs; by injection Hs as <-.
    + injection Hs as <-. exists []. split; [done|]. split; [done|]. split; try done. by apply polled_waits.
  - destruct (read_loop_reads _) eqn:Hrd; [|done]. unfold polled in Hs.
    destruct (recv _) as [[r|] rest] eqn:Hr.
    + destruct (poll_takes _ (far (clients x)) _ _ _ Hrd Hfs Hr) as (ts & s & Hp & Hts & Ht).
      eexists. eapply far_step_simulated; try done; [by eapply socket_delivers|..];
        unfold far_step in Hs; simpl in Hs; rewrite Hp in Hs; by injection Hs as <-.
    + injection Hs as <-. exists []. split; [done|]. split; [done|]. split; try done. by apply polled_waits.
  - destruct (is_recv c) eqn:Hc; [done|]. destruct (held_up _ _) as [rest|] eqn:Hh; [|done].
    assert (Forall silent (near_tasks (clients x')) ∧ events (log (near (clients x'))) = events (log (near (clients x)))) as [Hsil He].
    { unfold near_step in Hs. destruct (run_among _ _ _ _) as [[[p ts] s]|] eqn:Hrun; [|done]. injection Hs as <-. simpl.
      destruct i as [i|]; [|by destruct (own_unheard _ _ _ _ _ _ _ Hn Hd Hrun) as [-> ?]].
      simpl in Hrun. destruct (pool_step i c _ _) as [[ts1 s1]|] eqn:Hp; [|done]. injection Hrun as <- <- <-.
      by destruct (silent_pool_step _ _ _ _ _ _ Hc Hns Hp). }
    eexists. eapply near_step_simulated; try done; [by apply not_recv_delivers|by eapply held_up_takes].
  - destruct (is_recv c) eqn:Hc; [done|]. destruct (held_up _ _) as [rest|] eqn:Hh; [|done].
    assert (Forall silent (far_tasks (clients x')) ∧ events (log (far (clients x'))) = events (log (far (clients x)))) as [Hsil He].
    { unfold far_step in Hs. simpl in Hs. destruct (pool_step i c _ _) as [[ts s]|] eqn:Hp; [|done].
      injection Hs as <-. by destruct (silent_pool_step _ _ _ _ _ _ Hc Hfs Hp). }
    eexists. eapply far_step_simulated; try done; [by apply not_recv_delivers|by eapply held_up_takes].
Qed.

Lemma run_ends_simulated {A} moves (x x' : Ends A) :
  ends_ok x → Forall (draws_end drawn mine) moves → run_ends moves x = Some x' →
  ∃ moves', simulated moves' x x'.
Proof.
  intros Hok Hd. revert x Hok. induction Hd as [|m moves Hm _ IH]; intros x Hok; simpl.
  - intros [= <-]. exists []. by split.
  - destruct (end_step m x) as [x1|] eqn:Hs; [|done]. intros Hrun.
    destruct (end_step_simulated _ _ _ Hok Hs Hm) as (m1 & Hr1 & Hd1 & Hok1).
    destruct (IH x1 Hok1 Hrun) as (m2 & Hr2 & Hd2 & Hok2).
    exists (m1 ++ m2). split; [by rewrite (run_system_app _ _ _ _ Hr1)|]. split; [by apply Forall_app|done].
Qed.

End Simulation.

(** Two fresh clients, each over one connection which it reads to its end. *)
Definition ends_start {B} (fuel : nat) (p : program B) (near_conn far_conn : nat) (near_timeout far_timeout : Duration)
    (near_users far_users : list (program unit)) : Ends B :=
  mkEnds (system_start fuel p near_conn far_conn (ClientConfig_new near_timeout) (ClientConfig_new far_timeout)
            near_users far_users) (mkSocket [] []) (mkSocket [] []).

(** What a socket has relayed is received: the events in order, each once, of those handed
    over at the other end only ones whose write failed left out; and all that the socket
    has yielded, once [recv] waits. *)
Definition received_in_order (other own : list LogEntry) (k : Socket) : Prop :=
  relayed (sends other) (events own) = true ∧
  ((recv (waiting k)).1 = None → events own = omap said (yielded k)).

Lemma socket_received other own k : socket_ok other own k → received_in_order other own k.
Proof.
  intros Hk. pose proof (socket_said _ _ _ Hk) as Hr. destruct Hk as [_ Hread]. split.
  - rewrite Hread in Hr. by eapply relayed_prefix.
  - intros Hw. pose proof (recv_said (waiting k)) as Hs. destruct (recv (waiting k)) as [[r|] rest]; [done|].
    destruct Hs as [_ Hs]. by rewrite Hread, Hs, app_nil_r.
Qed.


End Endpoints.

Arguments clients {_ _ _ _ A} _.
Arguments near_socket {_ _ _ _ A} _.
Arguments far_socket {_ _ _ _ A} _.

(** ** Witness

    A call over two sockets: a wake-up drops the far end's [recv], a raw frame is
    skipped, the handler answers and the call returns. *)
Definition socket_users : list (demo_program unit) := [on 2 demo_action (λ r, Ret (Ok r)); force_reconnect].

Lemma socket_users_api : Forall (api unit) socket_users.
Proof.
  constructor; [|constructor; [apply api_force_reconnect|constructor]].
  apply api_on; [exact I|intros r; apply api_ret].
Defined.

Definition socket_moves : list (end_move (TErr := unit)) :=
  [FarTask 2 CTimer; FarTask 2 CTimer;
   NearTask None CTimer; NearTask None (CUuid 7%N); NearTask None CTimer; NearTask None (CSink (Ok tt));
   FarTask 3 CTimer; FarTask 3 CTimer; FarYields (Some (Ok (MFrame []))); FarPoll;
   FarTask 0 CTimer; FarTask 0 CTimer;
   FarYields (Some (Ok (Text call_request))); FarPoll; FarTask 0 CTimer; FarTask 0 CTimer; FarTask 0 CTimer;
   FarTask 4 CTimer; FarTask 4 (CSink (Ok tt));
   NearYields (Some (Ok (Text demo_response))); NearPoll; NearTask (Some 0) CTimer; NearTask None CTimer].

Lemma socket_moves_draw : Forall (draws_end (UM := number_uuid) (λ u, u = 7%N) (λ u, u = 7%N)) socket_moves.
Proof. repeat constructor. Defined.

Abbreviation socket_call := (call (TErr := unit) (E := V1_6.OCPP1_6Error) (from_secs 30) demo_action VNull).

