(* ===== verification/FakeTransport.v ===== *)
(** * The transport and the peers of the integration tests

    [src/tests/common/mod.rs]: an in-memory transport, whose write half pushes events
    into a queue that the other end's read half pops, and the scripted peer that answers
    pings.  The read half meets the same contract as the real ones, so that a client over
    it is one of Wire.v's.  Tests are programs that panic where an assertion fails; the
    timeouts they put around a call, which only bound a hang, are left out. *)

From S2P Require Import Prelude Time Sync Envelope Platform ProtocolErrors Reconnect Keepalive Engine Client ClientInv ClientDemo Transport System Wire.
From stdpp Require Import base gmap strings list.

(** ** The transport *)

(** One direction of a pair: the events sent and not yet read, and whether the other end
    still has its [FakeSource]. *)
Record FakeChannel := mkFakeChannel { sent_events : list TransportEvent; receiving : bool }.

Definition fake_transport_pair : FakeChannel * FakeChannel :=
  (mkFakeChannel [] true, mkFakeChannel [] true).

(** A call on [FakeSink]; an event that nobody can receive any more is the error. *)
Definition fake_send (op : SinkOp) (c : FakeChannel) : result unit TransportEvent * FakeChannel :=
  match carried op with
  | Some event =>
      if receiving c then (Ok tt, mkFakeChannel (sent_events c ++ [event]) true) else (Err event, c)
  | None => (Ok tt, c)
  end.

(** [FakeSource::recv]: the next event, or the end once every sender is gone ([None]
    among the inputs), which it then repeats. *)
#[global] Instance fake_source {TErr : Type} : ReadHalf unit (option TransportEvent) TErr :=
  λ _ available,
    match available with
    | [] => (None, tt, [])
    | Some event :: rest => (Some (Ok (Some event)), tt, rest)
    | None :: rest => (Some (Ok None), tt, None :: rest)
    end.

#[global] Instance fake_source_cancel_safe {TErr : Type} : CancelSafe (fake_source (TErr := TErr)).
Proof. split; [by intros [] [|[] ?] ? ? [=]|by intros [] [|[] ?] later [] rest [=]]. Qed.

#[global] Instance fake_source_prompt {TErr : Type} : Prompt (fake_source (TErr := TErr)).
Proof. intros [] [|[event|] early] later r [] rest; [done|by intros [= <- <-]..]. Qed.

(** ** The peer *)

Inductive PongBehavior := Echo | Silent | WrongPayload.

Definition peer_reply (behavior : PongBehavior) (payload : list byte) : option TransportEvent :=
  match behavior with
  | Echo => Some (Pong payload)
  | WrongPayload => Some (Pong [])
  | Silent => None
  end.

(** [spawn_peer]: the pings it reports and the events it sends; it ends at the first ping
    it cannot report because nobody is [watched] by. *)
Fixpoint spawn_peer (behavior : PongBehavior) (watched : bool) (events : list TransportEvent) :
    list (list byte) * list TransportEvent :=
  match events with
  | [] => ([], [])
  | Ping payload :: events =>
      if watched then
        let '(observed, replies) := spawn_peer behavior watched events in
        (payload :: observed, option_list (peer_reply behavior payload) ++ replies)
      else ([], [])
  | _ :: events => spawn_peer behavior watched events
  end.

Definition pings (events : list TransportEvent) : list (list byte) :=
  omap (λ e, match e with Ping payload => Some payload | _ => None end) events.

Lemma spawn_peer_replies behavior events :
  spawn_peer behavior true events = (pings events, omap (peer_reply behavior) (pings events)).
Proof.
  induction events as [|[] events IH]; simpl; [done|exact IH| |exact IH].
  rewrite IH. by destruct behavior.
Qed.

(** Only a peer that echoes sends a pong with a token in it. *)
Lemma deaf_peer_sends_no_token behavior watched events token :
  behavior ≠ Echo → Pong token ∈ (spawn_peer behavior watched events).2 → token = [].
Proof.
  intros Hb. induction events as [|[frame|payload|payload] events IH]; simpl; [by intros ?%not_elem_of_nil|exact IH| |exact IH].
  destruct watched; [|by intros ?%not_elem_of_nil]. destruct (spawn_peer _ _ events) as [observed replies].
  simpl in *. rewrite elem_of_app. intros [Hin|]; [|auto].
  destruct behavior; simpl in Hin; [done|by apply not_elem_of_nil in Hin|]. set_solver.
Qed.

(** ** Running a test

    The client's tasks, the test as one more task, and the peer, which reads what the
    client has handed to its write half since it last looked. *)
Section Runner.
Context {SM : SignalModel} {UM : UuidModel} {SJ : SerdeJson} {E : Type} {PE : ProtocolError E} {TErr : Type}.

Abbreviation wired := (Wired (E := E) (TErr := TErr) (Half := unit) (Input := option TransportEvent)).
Abbreviation move := (wire_move (TErr := TErr) (Input := option TransportEvent)).

(** The step of a task agrees with the transport about what can be sent. *)
Definition sink_agrees (peer_receives : bool) (m : move) : bool :=
  match m with Task _ (CSink r) => Bool.eqb (is_ok r) peer_receives | _ => true end.

(** [inl]: a step of the client or the test; [inr]: the peer's turn. *)
Fixpoint run_test (behavior : PongBehavior) (peer_receives : bool) (steps : list (move + unit)) (seen : nat) (x : wired) :
    option wired :=
  match steps with
  | [] => Some x
  | inl m :: steps =>
      if sink_agrees peer_receives m then
        match wire_step m x with Some x' => run_test behavior peer_receives steps seen x' | None => None end
      else None
  | inr _ :: steps =>
      let events := handed (log (engine x)) in
      let '(_, replies) := spawn_peer behavior true (drop seen events) in
      run_test behavior peer_receives steps (length events)
        (mkWired (tasks x) (engine x) (Wire.half x) (available x ++ (Some <$> replies)) (answered_with x))
  end.

Lemma run_wire_arrivals (inputs : list (option TransportEvent)) (x : wired) :
  run_wire (Arrive <$> inputs) x =
    Some (mkWired (tasks x) (engine x) (Wire.half x) (available x ++ inputs) (answered_with x)).
Proof.
  revert x. induction inputs as [|i inputs IH]; intros [ts s h a w]; simpl; [by rewrite app_nil_r|].
  rewrite IH. simpl. by rewrite <-(assoc app).
Qed.

Lemma run_wire_app moves more (x x' : wired) :
  run_wire moves x = Some x' → run_wire (moves ++ more) x = run_wire more x'.
Proof.
  revert x. induction moves as [|m moves IH]; intros x; simpl; [by intros [= ->]|].
  destruct (wire_step m x) as [x1|]; [apply IH|done].
Qed.

(** A test is a run of a client over its transport. *)
Lemma run_test_wired behavior receives steps seen (x x' : wired) :
  run_test behavior receives steps seen x = Some x' → ∃ moves, run_wire moves x = Some x'.
Proof.
  revert seen x. induction steps as [|[m|[]] steps IH]; intros seen x; cbn [run_test].
  - intros [= <-]. by exists [].
  - destruct (sink_agrees receives m); [|done]. destruct (wire_step m x) as [x1|] eqn:Hm; [|done].
    intros (moves & Hr)%IH. exists (m :: moves). simpl. by rewrite Hm.
  - destruct (spawn_peer _ _ _) as [observed replies]. intros (moves & Hr)%IH.
    exists ((Arrive <$> (Some <$> replies)) ++ moves). by rewrite (run_wire_app _ _ _ _ (run_wire_arrivals _ x)).
Qed.

End Runner.

(** ** Tests

    A test as a task beside the client's, with the client's configuration and its peer;
    it has passed once its task has returned. *)
Section Tests.
Context {SM : SignalModel} {UM : UuidModel} {SJ : SerdeJson} {E : Type} {PE : ProtocolError E} {TErr : Type}.

Abbreviation program A := (prog (St := Client (E := E)) (Ext := Ext (TErr := TErr)) A).
Abbreviation wired := (Wired (E := E) (TErr := TErr) (Half := unit) (Input := option TransportEvent)).
Abbreviation outcome A := (result A (ClientError E JsonError TErr)).

Definition assert (b : bool) : program unit := if b then Ret tt else panic.

Definition is_timeout {A} (r : outcome A) : bool := match r with Err Timeout => true | _ => false end.
Definition is_transport {A} (r : outcome A) : bool := match r with Err (Transport _) => true | _ => false end.
Definition is_closed_error {A} (r : outcome A) : bool := match r with Err Closed => true | _ => false end.

(** Reading a test-only counter takes its table's lock. *)
Definition read_state {A} (f : Client (E := E) → A) : program A := atomic (λ s, (f s, s)).

(** [client_with], [client_that_never_gets_answers]: a client over the fake transport,
    and the test that uses it. *)
Definition client_with (fuel : nat) (config : ClientConfig) (test : program unit) : wired :=
  mkWired ((from_transport_with_config fuel 0 config).2 ++ [test])
    (from_transport_with_config (E := E) (TErr := TErr) fuel 0 config).1 tt [] [].

Definition passed (x : option wired) : bool :=
  match x with
  | Some x => match tasks x !! 2 with Some (Ret _) => true | _ => false end
  | None => false
  end.

Definition send_ping_resolves (timeout : Duration) : program unit :=
  bind (send_ping timeout) (λ r, assert (is_ok r)).

Definition send_ping_times_out (timeout : Duration) : program unit :=
  bind (send_ping timeout) (λ r, assert (is_timeout r)).

Definition timed_out_ping_leaves_no_waiter (timeout : Duration) : program unit :=
  bind (send_ping timeout) (λ r,
  bind (assert (is_timeout r)) (λ _,
  bind (read_state pending_ping_count) (λ n, assert (n =? 0)))).

Definition timed_out_request_leaves_no_entry (timeout : Duration) (A : Action) (request : Request A) : program unit :=
  bind (read_state pending_request_count) (λ n,
  bind (assert (n =? 0)) (λ _,
  bind (call timeout A request) (λ r,
  bind (assert (is_timeout r)) (λ _,
  bind (read_state pending_request_count) (λ n, assert (n =? 0)))))).

Definition unsent_request_leaves_no_entry (timeout : Duration) (A : Action) (request : Request A) : program unit :=
  bind (call timeout A request) (λ r,
  bind (assert (is_transport r)) (λ _,
  bind (read_state pending_request_count) (λ n, assert (n =? 0)))).

Definition is_closed_reports_the_shutdown : program unit :=
  bind is_closed (λ c,
  bind (assert (negb c)) (λ _,
  bind disconnect (λ r,
  bind (assert (is_ok r)) (λ _,
  bind is_closed assert)))).

Definition requests_after_disconnect_fail (timeout : Duration) (A : Action) (request : Request A) : program unit :=
  bind disconnect (λ r,
  bind (assert (is_ok r)) (λ _,
  bind (call timeout A request) (λ r, assert (is_closed_error r)))).

Definition pings_after_disconnect_fail (timeout : Duration) : program unit :=
  bind disconnect (λ r,
  bind (assert (is_ok r)) (λ _,
  bind (send_ping timeout) (λ r, assert (is_closed_error r)))).

(** The wake-up comes first, then the ping. *)
Definition forced_reconnect_is_inert (timeout : Duration) : program unit :=
  bind force_reconnect (λ _,
  bind (await (FExt (Delay (from_millis 100)))) (λ _,
  bind (send_ping timeout) (λ r, assert (is_ok r)))).

End Tests.

(** Schedules in which they pass. *)
Section Passing.

Abbreviation demo_wired := (Wired (E := V1_6.OCPP1_6Error) (TErr := unit) (Half := unit) (Input := option TransportEvent)).
Abbreviation step_of_test := (wire_move (TErr := unit) (Input := option TransportEvent) + unit)%type.

Definition test_step (c : demo_choice) : step_of_test := inl (Task 2 c).
Definition loop_step : step_of_test := inl (Task 0 CTimer).
Definition peer_turn : step_of_test := inr tt.
Definition poll_turn : step_of_test := inl Poll.

Definition test_passes (behavior : PongBehavior) (peer_receives : bool) (config : ClientConfig)
    (test : demo_program unit) (steps : list step_of_test) : bool :=
  passed (run_test behavior peer_receives steps 0 (client_with 6 config test : demo_wired)).

Definition ping_written : list step_of_test := [test_step CTimer; test_step CTimer; test_step (CSink (Ok tt))].

Example send_ping_resolves_when_the_peer_echoes_the_pong :
  test_passes Echo true (ClientConfig_new (from_secs 1)) (send_ping_resolves (from_secs 1))
    (ping_written ++ [peer_turn; poll_turn; loop_step; test_step CTimer]) = true.
Proof. vm_compute. reflexivity. Qed.

Example send_ping_times_out_when_the_peer_never_answers :
  test_passes Silent true (ClientConfig_new (from_millis 100)) (send_ping_times_out (from_millis 100))
    (ping_written ++ [peer_turn; poll_turn; test_step CTimer; test_step CTimer]) = true.
Proof. vm_compute. reflexivity. Qed.

Example a_pong_echoing_the_wrong_payload_does_not_resolve_the_ping :
  test_passes WrongPayload true (ClientConfig_new (from_millis 300)) (send_ping_times_out (from_millis 300))
    (ping_written ++ [peer_turn; poll_turn; test_step CTimer; test_step CTimer]) = true.
Proof. vm_compute. reflexivity. Qed.

Example a_timed_out_ping_does_not_leak_its_waiter :
  test_passes Silent true (ClientConfig_new (from_millis 50)) (timed_out_ping_leaves_no_waiter (from_millis 50))
    (ping_written ++ [peer_turn; test_step CTimer; test_step CTimer; test_step CTimer]) = true.
Proof. vm_compute. reflexivity. Qed.

Example a_timed_out_request_does_not_leak_its_pending_entry :
  test_passes Echo true (ClientConfig_new (from_millis 50))
    (timed_out_request_leaves_no_entry (from_millis 50) demo_action VNull)
    [test_step CTimer; test_step CTimer; test_step (CUuid 7%N); test_step CTimer; test_step (CSink (Ok tt));
     peer_turn; test_step CTimer; test_step CTimer; test_step CTimer] = true.
Proof. vm_compute. reflexivity. Qed.

Example a_request_that_could_not_be_sent_does_not_leak_its_pending_entry :
  test_passes Echo false (ClientConfig_new (from_millis 50))
    (unsent_request_leaves_no_entry (from_millis 50) demo_action VNull)
    [test_step CTimer; test_step (CUuid 7%N); test_step CTimer; test_step (CSink (Err tt)); test_step CTimer;
     test_step CTimer] = true.
Proof. vm_compute. reflexivity. Qed.

Definition disconnected : list step_of_test :=
  [test_step CTimer; test_step CTimer; test_step CTimer; test_step (CSink (Ok tt))].

Example is_closed_reports_the_explicit_shutdown :
  test_passes Echo true demo_config is_closed_reports_the_shutdown
    (test_step CTimer :: disconnected ++ [test_step CTimer]) = true.
Proof. vm_compute. reflexivity. Qed.

Example requests_after_disconnect_fail_fast_as_closed :
  test_passes Echo true demo_config (requests_after_disconnect_fail (from_millis 200) demo_action VNull)
    (disconnected ++ [test_step CTimer]) = true.
Proof. vm_compute. reflexivity. Qed.

Example pings_after_disconnect_fail_fast_as_closed :
  test_passes Echo true demo_config (pings_after_disconnect_fail (from_millis 200)) (disconnected ++ [test_step CTimer]) = true.
Proof. vm_compute. reflexivity. Qed.

Example force_reconnect_is_inert_without_a_reconnector :
  test_passes Echo true (ClientConfig_new (from_secs 1)) (forced_reconnect_is_inert (from_secs 1))
    ([test_step CTimer; test_step CTimer; loop_step; loop_step; test_step CTimer] ++ ping_written ++
     [peer_turn; poll_turn; loop_step; test_step CTimer]) = true.
Proof. vm_compute. reflexivity. Qed.

End Passing.
