(* ===== verification/EmbassyConnect.v ===== *)
(** * Dialling with embassy-net

    [connect], [ConnectConfig] and [EmbassyNetReconnector] of
    [src/crates/ocpp-transport-embassy-net/src/transport.rs]: what an attempt allocates
    for good, the opening request, the response, and the halves it hands over.  What the
    network answers to one attempt is an input. *)

From S2P Require Import Prelude Time Sync Envelope Platform ProtocolErrors Client Transport Embassy.
From stdpp Require Import base list strings.

Local Open Scope string_scope.

(** [IpEndpoint]: the bytes of the address, and the port. *)
Definition IpEndpoint : Type := list Z * Z.

(** [ConnectConfig]; what the network stack and the RNG factory answer is part of the
    attempt. *)
Record ConnectConfig := mkConnectConfig {
  remote : IpEndpoint;
  host : string;
  path : string;
  sub_protocol : string;
  socket_rx_buffer_size : nat;
  socket_tx_buffer_size : nat;
  handshake_buffer_size : nat;
  frame_buffer_size : nat;
}.

Definition ConnectConfig_new (remote : IpEndpoint) (host path sub_protocol : string) : ConnectConfig :=
  mkConnectConfig remote host path sub_protocol 2048 2048 2048 4096.

(** What [Box::leak] has given away: buffer bytes and sockets. *)
Record Leaked := mkLeaked { leaked_bytes : nat; leaked_sockets : nat }.

Definition nothing_leaked : Leaked := mkLeaked 0 0.

Section Dial.
Context {FC : FrameCodec} {NetErr : Type}.

(** What the network and the RNG factory answer to one attempt: to the TCP connection to
    an endpoint, to the write of the request, to the flush, and to the reads. *)
Record Attempt := mkAttempt {
  net_connect : IpEndpoint → result unit NetErr;
  net_rng : WsRng;
  net_write : list byte → result nat NetErr;
  net_flush : result unit NetErr;
  net_reads : list (result (list byte) NetErr);
}.

Definition options_of (config : ConnectConfig) : WebSocketOptions :=
  mkOptions (path config) (host config) EmptyString (Some [sub_protocol config]) None.

(** The buffers and the socket are leaked before anything can fail. *)
Definition leak_socket (config : ConnectConfig) (l : Leaked) : Leaked :=
  mkLeaked (leaked_bytes l + socket_rx_buffer_size config + socket_tx_buffer_size config)
    (S (leaked_sockets l)).

(** One attempt: the state of the two halves and what the socket still holds, or an
    error, or [None] while the response is not complete; the bytes of the request the
    socket took; the leaks. *)
Definition connect (config : ConnectConfig) (a : Attempt) (l : Leaked) :
    option (result (EmbassyWs * list (result (list byte) NetErr)) (EmbassyError (NetErr := NetErr)))
    * list byte * Leaked :=
  let l := leak_socket config l in
  match net_connect a (remote config) with
  | Err e => (Some (Err (FromNet e)), [], l)
  | Ok _ =>
      let ws := new_client (net_rng a) in
      match client_connect ws (options_of config) (handshake_buffer_size config) with
      | (Err e, _) => (Some (Err (FromWs e)), [], l)
      | (Ok (request, ws_key), ws) =>
          match net_write a request with
          | Err e => (Some (Err (FromNet e)), [], l)
          | Ok n =>
              let sent := take n request in
              match net_flush a with
              | Err e => (Some (Err (FromNet e)), sent, l)
              | Ok _ =>
                  match read_response (S (handshake_buffer_size config)) (handshake_buffer_size config)
                          ws_key ws [] (net_reads a) with
                  | None => (None, sent, l)
                  | Some (Err e, _) => (Some (Err e), sent, l)
                  | Some (Ok (pending, ws), rest) =>
                      (Some (Ok (stream_after_handshake pending ws, rest)), sent, l)
                  end
              end
          end
      end
  end.

(** [EmbassyNetReconnector]: the configuration of the first connection, dialled again. *)
Record EmbassyNetReconnector := mkReconnector { reconnect_config : ConnectConfig }.

Definition reconnect_connect (r : EmbassyNetReconnector) (a : Attempt) (l : Leaked) :=
  connect (reconnect_config r) a l.

(** Attempts one after the other. *)
Fixpoint dial_all (config : ConnectConfig) (attempts : list Attempt) (l : Leaked) : Leaked :=
  match attempts with
  | [] => l
  | a :: attempts => dial_all config attempts (connect config a l).2
  end.

(** ** What an attempt does *)

(** Whatever happens, the buffers and the socket are gone. *)
Lemma connect_leaks config a l : (connect config a l).2 = leak_socket config l.
Proof. unfold connect. repeat case_match; done. Qed.

Lemma dial_all_leaks config attempts l :
  dial_all config attempts l =
    mkLeaked (leaked_bytes l + length attempts * (socket_rx_buffer_size config + socket_tx_buffer_size config))
      (leaked_sockets l + length attempts).
Proof.
  revert l. induction attempts as [|a attempts IH]; intros l; simpl.
  - destruct l. simpl. f_equal; lia.
  - rewrite connect_leaks, IH. simpl. f_equal; lia.
Qed.

(** C34: a successful dial hands over the stream where the handshake ended.  The TCP
    connection is to the configured endpoint.  The opening request asks for the configured
    path, host and single sub-protocol; what the socket took of it is all of it exactly if
    the write, which is not repeated, took so many bytes.  The codec found the bytes read
    incomplete after every read but the last one and accepted them after that, consuming
    some of them; the halves start with exactly the others and with the codec as it is
    then, the bytes after these are still in the socket, and nothing of an earlier message
    is left.  A dial that has not finished has not been sent enough to fill the handshake
    buffer. *)
Theorem connect_hands_over_the_stream config a l :
  (∀ stream rest sent l',
     connect config a l = (Some (Ok (stream, rest)), sent, l') →
     ∃ request key w n early last w0 consumed,
       net_connect a (remote config) = Ok tt ∧
       client_connect (new_client (net_rng a))
         (mkOptions (path config) (host config) "" (Some [sub_protocol config]) None)
         (handshake_buffer_size config) = (Ok (request, key), w) ∧
       net_write a request = Ok n ∧ net_flush a = Ok tt ∧
       sent = take n request ∧ (sent = request ↔ (length request ≤ n)%nat) ∧
       incomplete key w [] early = Some w0 ∧
       client_accept w0 key (concat early ++ last)%list = (Some (Ok consumed), ws stream) ∧
       (consumed ≤ length (concat early ++ last)%list)%nat ∧
       pending stream = drop consumed (concat early ++ last)%list ∧
       bytes_of (net_reads a) = (concat early ++ last ++ bytes_of rest)%list ∧
       accumulated stream = []) ∧
  (∀ sent l', connect config a l = (None, sent, l') → 0 < handshake_buffer_size config →
     length (bytes_of (net_reads a)) < handshake_buffer_size config).
Proof.
  unfold connect, options_of. destruct (net_connect a _) as [[]|e]; [|by split].
  destruct (client_connect _ _ _) as [[[request key]|e] w] eqn:Hreq; [|by split].
  destruct (net_write a request) as [n|e] eqn:Hw; [|by split].
  destruct (net_flush a) as [[]|e]; [|by split].
  pose proof (handshake_keeps_leftover (S (handshake_buffer_size config)) (handshake_buffer_size config)
                key w [] (net_reads a)) as [Hkeep Hwait].
  destruct (read_response _ _ _ _ _ _) as [[[[leftover w']|e] rest]|]; split; try done.
  - intros stream rest' sent l' [= <- <- <- <-].
    destruct (Hkeep _ _ _ eq_refl) as (early & last & w0 & consumed & Hi & Ha & -> & Hb).
    exists request, key, w, n, early, last, w0, consumed. split_and!; try done.
    + apply take_whole.
    + by eapply client_accept_bound.
  - intros sent l' _ Hpos. simpl in Hwait. apply Hwait; [done|lia|done].
Qed.

(** Every attempt leaks, not only successful ones.  After any sequence of attempts,
    through [connect] or the reconnector and whatever each of them ended with, the
    receive and transmit buffers of every one of them and its socket are leaked. *)
Lemma every_dial_leaks_its_socket config attempts :
  leaked_bytes (dial_all config attempts nothing_leaked)
    = length attempts * (socket_rx_buffer_size config + socket_tx_buffer_size config) ∧
  leaked_sockets (dial_all config attempts nothing_leaked) = length attempts ∧
  ∀ a l, (reconnect_connect (mkReconnector config) a l).2 = dial_all config [a] l.
Proof. rewrite dial_all_leaks. done. Qed.

End Dial.

(** ** Witness *)

(** The peer's response comes in two reads, the second of which has the first byte of a
    frame; a third one is still to be read. *)
Definition demo_endpoint : IpEndpoint := ([192; 168; 1; 10], 9000)%Z.

Definition demo_attempt : Attempt (FC := byte_codec) (NetErr := unit) :=
  mkAttempt (FC := byte_codec) (λ endpoint, if decide (endpoint = demo_endpoint) then Ok tt else Err tt) tt
    (λ bytes, Ok (length bytes)) (Ok tt) [Ok (take 1 abc); Ok (drop 1 abc); Ok abc].

Lemma connect_hands_over_the_stream_witness :
  ∃ stream rest sent l',
    connect (FC := byte_codec) (ConnectConfig_new demo_endpoint "csms" "/ocpp/CP001" "ocpp1.6") demo_attempt nothing_leaked
      = (Some (Ok (stream, rest)), sent, l') ∧
    sent = String.list_byte_of_string "/ocpp/CP001" ∧ pending stream = drop 2 abc ∧ rest = [Ok abc] ∧
    ∃ early last consumed,
      client_accept (FrameCodec := byte_codec) tt tt (concat early ++ last)%list = (Some (Ok consumed), tt) ∧
      pending stream = drop consumed (concat early ++ last)%list.
Proof.
  eexists _, _, _, _. split; [reflexivity|]. do 3 (split; [reflexivity|]).
  destruct (connect_hands_over_the_stream (FC := byte_codec) (ConnectConfig_new demo_endpoint "csms" "/ocpp/CP001" "ocpp1.6")
    demo_attempt nothing_leaked) as [Hok _].
  destruct (Hok _ _ _ _ eq_refl) as (request & [] & w & n & early & last & [] & consumed & _ & _ & _ & _ & _ & _ & _ & Ha & _ & Hp & _).
  exists early, last, consumed. split; [exact Ha|exact Hp].
Defined.
