(* ===== verification/Runtime.v ===== *)
(** * The runtimes a client is spawned on

    The [Executor] and [Timer] traits of [src/src/runtime.rs], with the two
    implementations of each: [src/src/runtime/tokio.rs] and
    [src/crates/ocpp-transport-embassy-net/src/runtime.rs].  The trait demands that a
    spawned future actually run; the demand is a class, which one executor satisfies
    and the other only while its pool has room. *)

From S2P Require Import Prelude Time Sync Envelope Platform ProtocolErrors Client.
From stdpp Require Import base list sets.

(** ** Executors

    A future is named by a number; an executor knows which ones it runs. *)

Class Executor (X : Type) := {
  idle_executor : X;
  running : X → list nat;
  spawn : nat → X → X;
  finish : nat → X → X;      (** a future that has completed *)
}.

(** "Implementations must actually run the future." *)
Class RunsEverything (X : Type) `{Executor X} : Prop := {
  spawn_runs x f : f ∈ running (spawn f x);
  spawn_keeps x f g : g ∈ running x → g ∈ running (spawn f x);
}.

Definition remove_future (f : nat) (fs : list nat) : list nat := filter (λ g, g ≠ f) fs.

(** [TokioExecutor]: [tokio::spawn] takes every future. *)
Record TokioExecutor := mkTokio { tokio_tasks : list nat }.

#[export] Instance tokio_executor : Executor TokioExecutor := {|
  idle_executor := mkTokio [];
  running := tokio_tasks;
  spawn f x := mkTokio (tokio_tasks x ++ [f]);
  finish f x := mkTokio (remove_future f (tokio_tasks x));
|}.

#[export] Instance tokio_runs_everything : RunsEverything TokioExecutor.
Proof. split; simpl; intros; set_solver. Qed.

(** [EmbassyExecutor]: a static pool of [POOL_SIZE] task slots. *)
Definition POOL_SIZE : nat := 8.

(** [spawn] on a pool with so many tasks running: the number afterwards, and whether the
    future was taken; otherwise it is dropped. *)
Definition pool_spawn (running : nat) : nat * bool :=
  if bool_decide (running < POOL_SIZE) then (S running, true) else (running, false).

Record EmbassyExecutor := mkEmbassy { embassy_tasks : list nat }.

#[export] Instance embassy_executor : Executor EmbassyExecutor := {|
  idle_executor := mkEmbassy [];
  running := embassy_tasks;
  spawn f x :=
    if (pool_spawn (length (embassy_tasks x))).2 then mkEmbassy (embassy_tasks x ++ [f]) else x;
  finish f x := mkEmbassy (remove_future f (embassy_tasks x));
|}.

Fixpoint spawn_all {X} `{Executor X} (fs : list nat) (x : X) : X :=
  match fs with
  | [] => x
  | f :: fs => spawn_all fs (spawn f x)
  end.

Lemma spawn_all_runs {X} `{RunsEverything X} fs x :
  Forall (λ f, f ∈ running (spawn_all fs x)) fs ∧ ∀ g, g ∈ running x → g ∈ running (spawn_all fs x).
Proof.
  revert x. induction fs as [|f fs IH]; intros x; simpl; [by split; [constructor|]|].
  destruct (IH (spawn f x)) as [Hfs Hx]. split; [|eauto using spawn_keeps].
  constructor; [|done]. apply Hx, spawn_runs.
Qed.

(** The pool takes futures in order until it is full. *)
Lemma embassy_spawn_all fs (x : EmbassyExecutor) :
  length (running x) ≤ POOL_SIZE →
  running (spawn_all fs x) = running x ++ take (POOL_SIZE - length (running x)) fs.
Proof.
  revert x. induction fs as [|f fs IH]; intros x Hx; simpl; [by rewrite take_nil, app_nil_r|].
  unfold pool_spawn. case_bool_decide as Hlt; simpl in *.
  - rewrite IH by (simpl; rewrite length_app; simpl; lia). simpl. rewrite length_app. simpl.
    replace (POOL_SIZE - length (embassy_tasks x)) with (S (POOL_SIZE - (length (embassy_tasks x) + 1))) by lia.
    by rewrite <-app_assoc.
  - rewrite IH by done. replace (POOL_SIZE - length (embassy_tasks x)) with 0 by lia. done.
Qed.

(** A future that completes gives its slot back. *)
Lemma embassy_slot_is_reused f g (x : EmbassyExecutor) :
  f ∈ running x → length (running x) ≤ POOL_SIZE → g ∈ running (spawn g (finish f x)).
Proof.
  intros Hf Hx. simpl in *. unfold pool_spawn. rewrite bool_decide_true; simpl; [set_solver|].
  eapply Nat.lt_le_trans; [|exact Hx]. apply length_filter_lt with f; [done|by intros []].
Qed.

(** ** Timers

    What a delay asks of the runtime's clock: a [Duration] of tokio's, whole
    microseconds as a [u64] of embassy's. *)

Definition tokio_delay (d : Duration) : Duration := d.

(** [duration.as_micros() as u64]. *)
Definition delay_micros (d : Duration) : Z := as_u64 (as_micros d).

Lemma as_micros_spec d : valid_duration d → as_micros d = (as_nanos d / 1000)%Z.
Proof.
  intros [Hs Hn]. unfold as_micros, as_nanos, NANOS_PER_SEC in *.
  replace (secs d * 1000000000 + nanos d)%Z with (nanos d + secs d * 1000000 * 1000)%Z by lia.
  rewrite Z.div_add by done. lia.
Qed.

(** ** Properties *)

(** C36: which clients a runtime can carry.  A client spawns its own tasks, then one per
    handler.  On tokio all of them run, however many handlers there are.  The embassy
    pool runs them all exactly if there are at most [POOL_SIZE - 2] handlers; beyond
    that it keeps the first ones and silently drops the rest, so with a pool sized to
    "one task plus the handlers" the last handler never runs.  A slot is free again once
    the future in it has completed. *)
Theorem executors_carry_a_client `{SignalModel, UuidModel, SerdeJson} {E TErr : Type} `{ProtocolError E}
    fuel conn config handlers :
  let own := length (from_transport_with_config (E := E) (TErr := TErr) fuel conn config).2 in
  let futures := seq 0 (own + handlers) in
  Forall (λ f, f ∈ running (spawn_all futures (idle_executor : TokioExecutor))) futures ∧
  running (spawn_all futures (idle_executor : EmbassyExecutor)) = take POOL_SIZE futures ∧
  (Forall (λ f, f ∈ running (spawn_all futures (idle_executor : EmbassyExecutor))) futures
     ↔ handlers ≤ POOL_SIZE - 2) ∧
  (∀ f g, let full : EmbassyExecutor := spawn_all futures idle_executor in
     f ∈ running full → g ∈ running (spawn g (finish f full))).
Proof.
  intros own futures. split; [apply spawn_all_runs|].
  assert (Hfull : running (spawn_all futures (idle_executor : EmbassyExecutor)) = take POOL_SIZE futures).
  { rewrite embassy_spawn_all by (simpl; lia). change (running idle_executor) with ([] : list nat).
    cbn [length app]. by rewrite Nat.sub_0_r. }
  split; [done|]. split; [|intros f g full Hf; apply embassy_slot_is_reused; [done|];
    unfold full; rewrite Hfull, length_take; lia].
  rewrite Hfull, Forall_forall. split.
  - intros Hall. destruct (decide (handlers ≤ POOL_SIZE - 2)) as [|Hn]; [done|]. exfalso.
    assert (Hin : POOL_SIZE ∈ take POOL_SIZE futures).
    { apply Hall. apply elem_of_seq. unfold own, POOL_SIZE in *. simpl. lia. }
    apply list_elem_of_lookup in Hin as [i Hi]. apply lookup_take_Some in Hi as [Hi Hlt].
    apply lookup_seq in Hi. lia.
  - intros Hle f Hf. rewrite take_ge; [done|]. unfold futures. rewrite length_seq. unfold own, POOL_SIZE in *. simpl. lia.
Qed.

(** How precise a delay is.  Tokio is asked for the delay itself.  Embassy's timer is
    asked for the whole microseconds of the delay, so it waits at most a microsecond less
    and never longer, for every delay below 2^64 microseconds; the cast wraps above that
    (some 584,000 years), where the delay can be arbitrarily short. *)
Lemma timer_precision d :
  valid_duration d →
  tokio_delay d = d ∧
  ((as_nanos d < (u64_max + 1) * 1000)%Z →
   (delay_micros d * 1000 ≤ as_nanos d < delay_micros d * 1000 + 1000)%Z) ∧
  delay_micros d = (as_nanos d / 1000 mod (u64_max + 1))%Z ∧
  delay_micros (from_secs 18446744073710) = 448384%Z.
Proof.
  intros Hd. split; [done|]. unfold delay_micros, as_u64. rewrite as_micros_spec by done.
  pose proof (as_nanos_range d Hd). split; [|done]. intros Hlt.
  pose proof (Z.div_mod (as_nanos d) 1000 ltac:(done)). pose proof (Z.mod_pos_bound (as_nanos d) 1000 ltac:(done)).
  rewrite Z.mod_small; [lia|]. split; [apply Z.div_pos; lia|]. apply Z.div_lt_upper_bound; lia.
Qed.

