(* ===== verification/ActionTables.v ===== *)
(** * The action declarations of the three versions

    One entry per macro invocation of [src/src/ocpp_1_6/actions.rs],
    [src/src/ocpp_2_0_1/actions.rs] and [src/src/ocpp_2_1/actions.rs], in their order:
    the marker type, the request and response types, the wire name, and the names of the
    generated methods. *)

From S2P Require Import Prelude.
From stdpp Require Import base list strings.

Local Open Scope string_scope.

(** The arguments of [ocpp_*_action!]. *)
Record ActionDecl := mkActionDecl {
  marker : string;
  request_type : string;
  response_type : string;
  action : string;
  send_method : string;
  on_method : string;
  wait_for_method : string;
}.

(** The arguments of [ocpp_2_1_send_action!]. *)
Record SendActionDecl := mkSendActionDecl {
  send_marker : string;
  payload_type : string;
  send_wire_name : string;
  send_send_method : string;
  send_on_method : string;
}.

Definition actions_1_6_part1 : list ActionDecl := [
  mkActionDecl "Authorize" "AuthorizeRequest" "AuthorizeResponse" "Authorize"
    "send_authorize" "on_authorize" "wait_for_authorize";
  mkActionDecl "BootNotification" "BootNotificationRequest" "BootNotificationResponse" "BootNotification"
    "send_boot_notification" "on_boot_notification" "wait_for_boot_notification";
  mkActionDecl "CancelReservation" "CancelReservationRequest" "CancelReservationResponse" "CancelReservation"
    "send_cancel_reservation" "on_cancel_reservation" "wait_for_cancel_reservation";
  mkActionDecl "CertificateSigned" "CertificateSignedRequest" "CertificateSignedResponse" "CertificateSigned"
    "send_certificate_signed" "on_certificate_signed" "wait_for_certificate_signed";
  mkActionDecl "ChangeAvailability" "ChangeAvailabilityRequest" "ChangeAvailabilityResponse" "ChangeAvailability"
    "send_change_availability" "on_change_availability" "wait_for_change_availability";
  mkActionDecl "ChangeConfiguration" "ChangeConfigurationRequest" "ChangeConfigurationResponse" "ChangeConfiguration"
    "send_change_configuration" "on_change_configuration" "wait_for_change_configuration";
  mkActionDecl "ClearCache" "ClearCacheRequest" "ClearCacheResponse" "ClearCache"
    "send_clear_cache" "on_clear_cache" "wait_for_clear_cache";
  mkActionDecl "ClearChargingProfile" "ClearChargingProfileRequest" "ClearChargingProfileResponse" "ClearChargingProfile"
    "send_clear_charging_profile" "on_clear_charging_profile" "wait_for_clear_charging_profile";
  mkActionDecl "DataTransfer" "DataTransferRequest" "DataTransferResponse" "DataTransfer"
    "send_data_transfer" "on_data_transfer" "wait_for_data_transfer";
  mkActionDecl "DeleteCertificate" "DeleteCertificateRequest" "DeleteCertificateResponse" "DeleteCertificate"
    "send_delete_certificate" "on_delete_certificate" "wait_for_delete_certificate";
  mkActionDecl "DiagnosticsStatusNotification" "DiagnosticsStatusNotificationRequest" "DiagnosticsStatusNotificationResponse" "DiagnosticsStatusNotification"
    "send_diagnostics_status_notification" "on_diagnostics_status_notification" "wait_for_diagnostics_status_notification";
  mkActionDecl "ExtendedTriggerMessage" "ExtendedTriggerMessageRequest" "ExtendedTriggerMessageResponse" "ExtendedTriggerMessage"
    "send_extended_trigger_message" "on_extended_trigger_message" "wait_for_extended_trigger_message";
  mkActionDecl "FirmwareStatusNotification" "FirmwareStatusNotificationRequest" "FirmwareStatusNotificationResponse" "FirmwareStatusNotification"
    "send_firmware_status_notification" "on_firmware_status_notification" "wait_for_firmware_status_notification";
  mkActionDecl "GetCompositeSchedule" "GetCompositeScheduleRequest" "GetCompositeScheduleResponse" "GetCompositeSchedule"
    "send_get_composite_schedule" "on_get_composite_schedule" "wait_for_get_composite_schedule";
  mkActionDecl "GetConfiguration" "GetConfigurationRequest" "GetConfigurationResponse" "GetConfiguration"
    "send_get_configuration" "on_get_configuration" "wait_for_get_configuration";
  mkActionDecl "GetDiagnostics" "GetDiagnosticsRequest" "GetDiagnosticsResponse" "GetDiagnostics"
    "send_get_diagnostics" "on_get_diagnostics" "wait_for_get_diagnostics"].

Definition actions_1_6_part2 : list ActionDecl := [
  mkActionDecl "GetInstalledCertificateIds" "GetInstalledCertificateIdsRequest" "GetInstalledCertificateIdsResponse" "GetInstalledCertificateIds"
    "send_get_installed_certificate_ids" "on_get_installed_certificate_ids" "wait_for_get_installed_certificate_ids";
  mkActionDecl "GetLocalListVersion" "GetLocalListVersionRequest" "GetLocalListVersionResponse" "GetLocalListVersion"
    "send_get_local_list_version" "on_get_local_list_version" "wait_for_get_local_list_version";
  mkActionDecl "GetLog" "GetLogRequest" "GetLogResponse" "GetLog"
    "send_get_log" "on_get_log" "wait_for_get_log";
  mkActionDecl "Heartbeat" "HeartbeatRequest" "HeartbeatResponse" "Heartbeat"
    "send_heartbeat" "on_heartbeat" "wait_for_heartbeat";
  mkActionDecl "InstallCertificate" "InstallCertificateRequest" "InstallCertificateResponse" "InstallCertificate"
    "send_install_certificate" "on_install_certificate" "wait_for_install_certificate";
  mkActionDecl "LogStatusNotification" "LogStatusNotificationRequest" "LogStatusNotificationResponse" "LogStatusNotification"
    "send_log_status_notification" "on_log_status_notification" "wait_for_log_status_notification";
  mkActionDecl "MeterValues" "MeterValuesRequest" "MeterValuesResponse" "MeterValues"
    "send_meter_values" "on_meter_values" "wait_for_meter_values";
  mkActionDecl "RemoteStartTransaction" "RemoteStartTransactionRequest" "RemoteStartTransactionResponse" "RemoteStartTransaction"
    "send_remote_start_transaction" "on_remote_start_transaction" "wait_for_remote_start_transaction";
  mkActionDecl "RemoteStopTransaction" "RemoteStopTransactionRequest" "RemoteStopTransactionResponse" "RemoteStopTransaction"
    "send_remote_stop_transaction" "on_remote_stop_transaction" "wait_for_remote_stop_transaction";
  mkActionDecl "ReserveNow" "ReserveNowRequest" "ReserveNowResponse" "ReserveNow"
    "send_reserve_now" "on_reserve_now" "wait_for_reserve_now";
  mkActionDecl "Reset" "ResetRequest" "ResetResponse" "Reset"
    "send_reset" "on_reset" "wait_for_reset";
  mkActionDecl "SecurityEventNotification" "SecurityEventNotificationRequest" "SecurityEventNotificationResponse" "SecurityEventNotification"
    "send_security_event_notification" "on_security_event_notification" "wait_for_security_event_notification";
  mkActionDecl "SendLocalList" "SendLocalListRequest" "SendLocalListResponse" "SendLocalList"
    "send_send_local_list" "on_send_local_list" "wait_for_send_local_list";
  mkActionDecl "SetChargingProfile" "SetChargingProfileRequest" "SetChargingProfileResponse" "SetChargingProfile"
    "send_set_charging_profile" "on_set_charging_profile" "wait_for_set_charging_profile";
  mkActionDecl "SignCertificate" "SignCertificateRequest" "SignCertificateResponse" "SignCertificate"
    "send_sign_certificate" "on_sign_certificate" "wait_for_sign_certificate";
  mkActionDecl "SignedFirmwareStatusNotification" "SignedFirmwareStatusNotificationRequest" "SignedFirmwareStatusNotificationResponse" "SignedFirmwareStatusNotification"
    "send_signed_firmware_status_notification" "on_signed_firmware_status_notification" "wait_for_signed_firmware_status_notification"].

Definition actions_1_6_part3 : list ActionDecl := [
  mkActionDecl "SignedUpdateFirmware" "SignedUpdateFirmwareRequest" "SignedUpdateFirmwareResponse" "SignedUpdateFirmware"
    "send_signed_update_firmware" "on_signed_update_firmware" "wait_for_signed_update_firmware";
  mkActionDecl "StartTransaction" "StartTransactionRequest" "StartTransactionResponse" "StartTransaction"
    "send_start_transaction" "on_start_transaction" "wait_for_start_transaction";
  mkActionDecl "StatusNotification" "StatusNotificationRequest" "StatusNotificationResponse" "StatusNotification"
    "send_status_notification" "on_status_notification" "wait_for_status_notification";
  mkActionDecl "StopTransaction" "StopTransactionRequest" "StopTransactionResponse" "StopTransaction"
    "send_stop_transaction" "on_stop_transaction" "wait_for_stop_transaction";
  mkActionDecl "TriggerMessage" "TriggerMessageRequest" "TriggerMessageResponse" "TriggerMessage"
    "send_trigger_message" "on_trigger_message" "wait_for_trigger_message";
  mkActionDecl "UnlockConnector" "UnlockConnectorRequest" "UnlockConnectorResponse" "UnlockConnector"
    "send_unlock_connector" "on_unlock_connector" "wait_for_unlock_connector";
  mkActionDecl "UpdateFirmware" "UpdateFirmwareRequest" "UpdateFirmwareResponse" "UpdateFirmware"
    "send_update_firmware" "on_update_firmware" "wait_for_update_firmware"].

Definition actions_1_6 : list ActionDecl :=
  actions_1_6_part1 ++ actions_1_6_part2 ++ actions_1_6_part3.

Definition actions_2_0_1_part1 : list ActionDecl := [
  mkActionDecl "Authorize" "AuthorizeRequest" "AuthorizeResponse" "Authorize"
    "send_authorize" "on_authorize" "wait_for_authorize";
  mkActionDecl "BootNotification" "BootNotificationRequest" "BootNotificationResponse" "BootNotification"
    "send_boot_notification" "on_boot_notification" "wait_for_boot_notification";
  mkActionDecl "CancelReservation" "CancelReservationRequest" "CancelReservationResponse" "CancelReservation"
    "send_cancel_reservation" "on_cancel_reservation" "wait_for_cancel_reservation";
  mkActionDecl "CertificateSigned" "CertificateSignedRequest" "CertificateSignedResponse" "CertificateSigned"
    "send_certificate_signed" "on_certificate_signed" "wait_for_certificate_signed";
  mkActionDecl "ChangeAvailability" "ChangeAvailabilityRequest" "ChangeAvailabilityResponse" "ChangeAvailability"
    "send_change_availability" "on_change_availability" "wait_for_change_availability";
  mkActionDecl "ClearCache" "ClearCacheRequest" "ClearCacheResponse" "ClearCache"
    "send_clear_cache" "on_clear_cache" "wait_for_clear_cache";
  mkActionDecl "ClearChargingProfile" "ClearChargingProfileRequest" "ClearChargingProfileResponse" "ClearChargingProfile"
    "send_clear_charging_profile" "on_clear_charging_profile" "wait_for_clear_charging_profile";
  mkActionDecl "ClearDisplayMessage" "ClearDisplayMessageRequest" "ClearDisplayMessageResponse" "ClearDisplayMessage"
    "send_clear_display_message" "on_clear_display_message" "wait_for_clear_display_message";
  mkActionDecl "ClearVariableMonitoring" "ClearVariableMonitoringRequest" "ClearVariableMonitoringResponse" "ClearVariableMonitoring"
    "send_clear_variable_monitoring" "on_clear_variable_monitoring" "wait_for_clear_variable_monitoring";
  mkActionDecl "ClearedChargingLimit" "ClearedChargingLimitRequest" "ClearedChargingLimitResponse" "ClearedChargingLimit"
    "send_cleared_charging_limit" "on_cleared_charging_limit" "wait_for_cleared_charging_limit";
  mkActionDecl "CostUpdated" "CostUpdatedRequest" "CostUpdatedResponse" "CostUpdated"
    "send_cost_updated" "on_cost_updated" "wait_for_cost_updated";
  mkActionDecl "CustomerInformation" "CustomerInformationRequest" "CustomerInformationResponse" "CustomerInformation"
    "send_customer_information" "on_customer_information" "wait_for_customer_information";
  mkActionDecl "DataTransfer" "DataTransferRequest" "DataTransferResponse" "DataTransfer"
    "send_data_transfer" "on_data_transfer" "wait_for_data_transfer";
  mkActionDecl "DeleteCertificate" "DeleteCertificateRequest" "DeleteCertificateResponse" "DeleteCertificate"
    "send_delete_certificate" "on_delete_certificate" "wait_for_delete_certificate";
  mkActionDecl "FirmwareStatusNotification" "FirmwareStatusNotificationRequest" "FirmwareStatusNotificationResponse" "FirmwareStatusNotification"
    "send_firmware_status_notification" "on_firmware_status_notification" "wait_for_firmware_status_notification";
  mkActionDecl "Get15118EVCertificate" "Get15118EVCertificateRequest" "Get15118EVCertificateResponse" "Get15118EVCertificate"
    "send_get_15118_ev_certificate" "on_get_15118_ev_certificate" "wait_for_get_15118_ev_certificate"].

Definition actions_2_0_1_part2 : list ActionDecl := [
  mkActionDecl "GetBaseReport" "GetBaseReportRequest" "GetBaseReportResponse" "GetBaseReport"
    "send_get_base_report" "on_get_base_report" "wait_for_get_base_report";
  mkActionDecl "GetCertificateStatus" "GetCertificateStatusRequest" "GetCertificateStatusResponse" "GetCertificateStatus"
    "send_get_certificate_status" "on_get_certificate_status" "wait_for_get_certificate_status";
  mkActionDecl "GetChargingProfiles" "GetChargingProfilesRequest" "GetChargingProfilesResponse" "GetChargingProfiles"
    "send_get_charging_profiles" "on_get_charging_profiles" "wait_for_get_charging_profiles";
  mkActionDecl "GetCompositeSchedule" "GetCompositeScheduleRequest" "GetCompositeScheduleResponse" "GetCompositeSchedule"
    "send_get_composite_schedule" "on_get_composite_schedule" "wait_for_get_composite_schedule";
  mkActionDecl "GetDisplayMessages" "GetDisplayMessagesRequest" "GetDisplayMessagesResponse" "GetDisplayMessages"
    "send_get_display_messages" "on_get_display_messages" "wait_for_get_display_messages";
  mkActionDecl "GetInstalledCertificateIds" "GetInstalledCertificateIdsRequest" "GetInstalledCertificateIdsResponse" "GetInstalledCertificateIds"
    "send_get_installed_certificate_ids" "on_get_installed_certificate_ids" "wait_for_get_installed_certificate_ids";
  mkActionDecl "GetLocalListVersion" "GetLocalListVersionRequest" "GetLocalListVersionResponse" "GetLocalListVersion"
    "send_get_local_list_version" "on_get_local_list_version" "wait_for_get_local_list_version";
  mkActionDecl "GetLog" "GetLogRequest" "GetLogResponse" "GetLog"
    "send_get_log" "on_get_log" "wait_for_get_log";
  mkActionDecl "GetMonitoringReport" "GetMonitoringReportRequest" "GetMonitoringReportResponse" "GetMonitoringReport"
    "send_get_monitoring_report" "on_get_monitoring_report" "wait_for_get_monitoring_report";
  mkActionDecl "GetReport" "GetReportRequest" "GetReportResponse" "GetReport"
    "send_get_report" "on_get_report" "wait_for_get_report";
  mkActionDecl "GetTransactionStatus" "GetTransactionStatusRequest" "GetTransactionStatusResponse" "GetTransactionStatus"
    "send_get_transaction_status" "on_get_transaction_status" "wait_for_get_transaction_status";
  mkActionDecl "GetVariables" "GetVariablesRequest" "GetVariablesResponse" "GetVariables"
    "send_get_variables" "on_get_variables" "wait_for_get_variables";
  mkActionDecl "Heartbeat" "HeartbeatRequest" "HeartbeatResponse" "Heartbeat"
    "send_heartbeat" "on_heartbeat" "wait_for_heartbeat";
  mkActionDecl "InstallCertificate" "InstallCertificateRequest" "InstallCertificateResponse" "InstallCertificate"
    "send_install_certificate" "on_install_certificate" "wait_for_install_certificate";
  mkActionDecl "LogStatusNotification" "LogStatusNotificationRequest" "LogStatusNotificationResponse" "LogStatusNotification"
    "send_log_status_notification" "on_log_status_notification" "wait_for_log_status_notification";
  mkActionDecl "MeterValues" "MeterValuesRequest" "MeterValuesResponse" "MeterValues"
    "send_meter_values" "on_meter_values" "wait_for_meter_values"].

Definition actions_2_0_1_part3 : list ActionDecl := [
  mkActionDecl "NotifyChargingLimit" "NotifyChargingLimitRequest" "NotifyChargingLimitResponse" "NotifyChargingLimit"
    "send_notify_charging_limit" "on_notify_charging_limit" "wait_for_notify_charging_limit";
  mkActionDecl "NotifyCustomerInformation" "NotifyCustomerInformationRequest" "NotifyCustomerInformationResponse" "NotifyCustomerInformation"
    "send_notify_customer_information" "on_notify_customer_information" "wait_for_notify_customer_information";
  mkActionDecl "NotifyDisplayMessages" "NotifyDisplayMessagesRequest" "NotifyDisplayMessagesResponse" "NotifyDisplayMessages"
    "send_notify_display_messages" "on_notify_display_messages" "wait_for_notify_display_messages";
  mkActionDecl "NotifyEVChargingNeeds" "NotifyEVChargingNeedsRequest" "NotifyEVChargingNeedsResponse" "NotifyEVChargingNeeds"
    "send_notify_ev_charging_needs" "on_notify_ev_charging_needs" "wait_for_notify_ev_charging_needs";
  mkActionDecl "NotifyEVChargingSchedule" "NotifyEVChargingScheduleRequest" "NotifyEVChargingScheduleResponse" "NotifyEVChargingSchedule"
    "send_notify_ev_charging_schedule" "on_notify_ev_charging_schedule" "wait_for_notify_ev_charging_schedule";
  mkActionDecl "NotifyEvent" "NotifyEventRequest" "NotifyEventResponse" "NotifyEvent"
    "send_notify_event" "on_notify_event" "wait_for_notify_event";
  mkActionDecl "NotifyMonitoringReport" "NotifyMonitoringReportRequest" "NotifyMonitoringReportResponse" "NotifyMonitoringReport"
    "send_notify_monitoring_report" "on_notify_monitoring_report" "wait_for_notify_monitoring_report";
  mkActionDecl "NotifyReport" "NotifyReportRequest" "NotifyReportResponse" "NotifyReport"
    "send_notify_report" "on_notify_report" "wait_for_notify_report";
  mkActionDecl "PublishFirmware" "PublishFirmwareRequest" "PublishFirmwareResponse" "PublishFirmware"
    "send_publish_firmware" "on_publish_firmware" "wait_for_publish_firmware";
  mkActionDecl "PublishFirmwareStatusNotification" "PublishFirmwareStatusNotificationRequest" "PublishFirmwareStatusNotificationResponse" "PublishFirmwareStatusNotification"
    "send_publish_firmware_status_notification" "on_publish_firmware_status_notification" "wait_for_publish_firmware_status_notification";
  mkActionDecl "ReportChargingProfiles" "ReportChargingProfilesRequest" "ReportChargingProfilesResponse" "ReportChargingProfiles"
    "send_report_charging_profiles" "on_report_charging_profiles" "wait_for_report_charging_profiles";
  mkActionDecl "RequestStartTransaction" "RequestStartTransactionRequest" "RequestStartTransactionResponse" "RequestStartTransaction"
    "send_request_start_transaction" "on_request_start_transaction" "wait_for_request_start_transaction";
  mkActionDecl "RequestStopTransaction" "RequestStopTransactionRequest" "RequestStopTransactionResponse" "RequestStopTransaction"
    "send_request_stop_transaction" "on_request_stop_transaction" "wait_for_request_stop_transaction";
  mkActionDecl "ReservationStatusUpdate" "ReservationStatusUpdateRequest" "ReservationStatusUpdateResponse" "ReservationStatusUpdate"
    "send_reservation_status_update" "on_reservation_status_update" "wait_for_reservation_status_update";
  mkActionDecl "ReserveNow" "ReserveNowRequest" "ReserveNowResponse" "ReserveNow"
    "send_reserve_now" "on_reserve_now" "wait_for_reserve_now";
  mkActionDecl "Reset" "ResetRequest" "ResetResponse" "Reset"
    "send_reset" "on_reset" "wait_for_reset"].

Definition actions_2_0_1_part4 : list ActionDecl := [
  mkActionDecl "SecurityEventNotification" "SecurityEventNotificationRequest" "SecurityEventNotificationResponse" "SecurityEventNotification"
    "send_security_event_notification" "on_security_event_notification" "wait_for_security_event_notification";
  mkActionDecl "SendLocalList" "SendLocalListRequest" "SendLocalListResponse" "SendLocalList"
    "send_send_local_list" "on_send_local_list" "wait_for_send_local_list";
  mkActionDecl "SetChargingProfile" "SetChargingProfileRequest" "SetChargingProfileResponse" "SetChargingProfile"
    "send_set_charging_profile" "on_set_charging_profile" "wait_for_set_charging_profile";
  mkActionDecl "SetDisplayMessage" "SetDisplayMessageRequest" "SetDisplayMessageResponse" "SetDisplayMessage"
    "send_set_display_message" "on_set_display_message" "wait_for_set_display_message";
  mkActionDecl "SetMonitoringBase" "SetMonitoringBaseRequest" "SetMonitoringBaseResponse" "SetMonitoringBase"
    "send_set_monitoring_base" "on_set_monitoring_base" "wait_for_set_monitoring_base";
  mkActionDecl "SetMonitoringLevel" "SetMonitoringLevelRequest" "SetMonitoringLevelResponse" "SetMonitoringLevel"
    "send_set_monitoring_level" "on_set_monitoring_level" "wait_for_set_monitoring_level";
  mkActionDecl "SetNetworkProfile" "SetNetworkProfileRequest" "SetNetworkProfileResponse" "SetNetworkProfile"
    "send_set_network_profile" "on_set_network_profile" "wait_for_set_network_profile";
  mkActionDecl "SetVariableMonitoring" "SetVariableMonitoringRequest" "SetVariableMonitoringResponse" "SetVariableMonitoring"
    "send_set_variable_monitoring" "on_set_variable_monitoring" "wait_for_set_variable_monitoring";
  mkActionDecl "SetVariables" "SetVariablesRequest" "SetVariablesResponse" "SetVariables"
    "send_set_variables" "on_set_variables" "wait_for_set_variables";
  mkActionDecl "SignCertificate" "SignCertificateRequest" "SignCertificateResponse" "SignCertificate"
    "send_sign_certificate" "on_sign_certificate" "wait_for_sign_certificate";
  mkActionDecl "StatusNotification" "StatusNotificationRequest" "StatusNotificationResponse" "StatusNotification"
    "send_status_notification" "on_status_notification" "wait_for_status_notification";
  mkActionDecl "TransactionEvent" "TransactionEventRequest" "TransactionEventResponse" "TransactionEvent"
    "send_transaction_event" "on_transaction_event" "wait_for_transaction_event";
  mkActionDecl "TriggerMessage" "TriggerMessageRequest" "TriggerMessageResponse" "TriggerMessage"
    "send_trigger_message" "on_trigger_message" "wait_for_trigger_message";
  mkActionDecl "UnlockConnector" "UnlockConnectorRequest" "UnlockConnectorResponse" "UnlockConnector"
    "send_unlock_connector" "on_unlock_connector" "wait_for_unlock_connector";
  mkActionDecl "UnpublishFirmware" "UnpublishFirmwareRequest" "UnpublishFirmwareResponse" "UnpublishFirmware"
    "send_unpublish_firmware" "on_unpublish_firmware" "wait_for_unpublish_firmware";
  mkActionDecl "UpdateFirmware" "UpdateFirmwareRequest" "UpdateFirmwareResponse" "UpdateFirmware"
    "send_update_firmware" "on_update_firmware" "wait_for_update_firmware"].

Definition actions_2_0_1 : list ActionDecl :=
  actions_2_0_1_part1 ++ actions_2_0_1_part2 ++ actions_2_0_1_part3 ++ actions_2_0_1_part4.

Definition actions_2_1_part1 : list ActionDecl := [
  mkActionDecl "AdjustPeriodicEventStream" "AdjustPeriodicEventStreamRequest" "AdjustPeriodicEventStreamResponse" "AdjustPeriodicEventStream"
    "send_adjust_periodic_event_stream" "on_adjust_periodic_event_stream" "wait_for_adjust_periodic_event_stream";
  mkActionDecl "AFRRSignal" "AFRRSignalRequest" "AFRRSignalResponse" "AFRRSignal"
    "send_afrr_signal" "on_afrr_signal" "wait_for_afrr_signal";
  mkActionDecl "Authorize" "AuthorizeRequest" "AuthorizeResponse" "Authorize"
    "send_authorize" "on_authorize" "wait_for_authorize";
  mkActionDecl "BatterySwap" "BatterySwapRequest" "BatterySwapResponse" "BatterySwap"
    "send_battery_swap" "on_battery_swap" "wait_for_battery_swap";
  mkActionDecl "BootNotification" "BootNotificationRequest" "BootNotificationResponse" "BootNotification"
    "send_boot_notification" "on_boot_notification" "wait_for_boot_notification";
  mkActionDecl "CancelReservation" "CancelReservationRequest" "CancelReservationResponse" "CancelReservation"
    "send_cancel_reservation" "on_cancel_reservation" "wait_for_cancel_reservation";
  mkActionDecl "CertificateSigned" "CertificateSignedRequest" "CertificateSignedResponse" "CertificateSigned"
    "send_certificate_signed" "on_certificate_signed" "wait_for_certificate_signed";
  mkActionDecl "ChangeAvailability" "ChangeAvailabilityRequest" "ChangeAvailabilityResponse" "ChangeAvailability"
    "send_change_availability" "on_change_availability" "wait_for_change_availability";
  mkActionDecl "ChangeTransactionTariff" "ChangeTransactionTariffRequest" "ChangeTransactionTariffResponse" "ChangeTransactionTariff"
    "send_change_transaction_tariff" "on_change_transaction_tariff" "wait_for_change_transaction_tariff";
  mkActionDecl "ClearCache" "ClearCacheRequest" "ClearCacheResponse" "ClearCache"
    "send_clear_cache" "on_clear_cache" "wait_for_clear_cache";
  mkActionDecl "ClearChargingProfile" "ClearChargingProfileRequest" "ClearChargingProfileResponse" "ClearChargingProfile"
    "send_clear_charging_profile" "on_clear_charging_profile" "wait_for_clear_charging_profile";
  mkActionDecl "ClearDERControl" "ClearDERControlRequest" "ClearDERControlResponse" "ClearDERControl"
    "send_clear_der_control" "on_clear_der_control" "wait_for_clear_der_control";
  mkActionDecl "ClearDisplayMessage" "ClearDisplayMessageRequest" "ClearDisplayMessageResponse" "ClearDisplayMessage"
    "send_clear_display_message" "on_clear_display_message" "wait_for_clear_display_message";
  mkActionDecl "ClearTariffs" "ClearTariffsRequest" "ClearTariffsResponse" "ClearTariffs"
    "send_clear_tariffs" "on_clear_tariffs" "wait_for_clear_tariffs";
  mkActionDecl "ClearVariableMonitoring" "ClearVariableMonitoringRequest" "ClearVariableMonitoringResponse" "ClearVariableMonitoring"
    "send_clear_variable_monitoring" "on_clear_variable_monitoring" "wait_for_clear_variable_monitoring";
  mkActionDecl "ClearedChargingLimit" "ClearedChargingLimitRequest" "ClearedChargingLimitResponse" "ClearedChargingLimit"
    "send_cleared_charging_limit" "on_cleared_charging_limit" "wait_for_cleared_charging_limit"].

Definition actions_2_1_part2 : list ActionDecl := [
  mkActionDecl "ClosePeriodicEventStream" "ClosePeriodicEventStreamRequest" "ClosePeriodicEventStreamResponse" "ClosePeriodicEventStream"
    "send_close_periodic_event_stream" "on_close_periodic_event_stream" "wait_for_close_periodic_event_stream";
  mkActionDecl "CostUpdated" "CostUpdatedRequest" "CostUpdatedResponse" "CostUpdated"
    "send_cost_updated" "on_cost_updated" "wait_for_cost_updated";
  mkActionDecl "CustomerInformation" "CustomerInformationRequest" "CustomerInformationResponse" "CustomerInformation"
    "send_customer_information" "on_customer_information" "wait_for_customer_information";
  mkActionDecl "DataTransfer" "DataTransferRequest" "DataTransferResponse" "DataTransfer"
    "send_data_transfer" "on_data_transfer" "wait_for_data_transfer";
  mkActionDecl "DeleteCertificate" "DeleteCertificateRequest" "DeleteCertificateResponse" "DeleteCertificate"
    "send_delete_certificate" "on_delete_certificate" "wait_for_delete_certificate";
  mkActionDecl "FirmwareStatusNotification" "FirmwareStatusNotificationRequest" "FirmwareStatusNotificationResponse" "FirmwareStatusNotification"
    "send_firmware_status_notification" "on_firmware_status_notification" "wait_for_firmware_status_notification";
  mkActionDecl "Get15118EVCertificate" "Get15118EVCertificateRequest" "Get15118EVCertificateResponse" "Get15118EVCertificate"
    "send_get_15118_ev_certificate" "on_get_15118_ev_certificate" "wait_for_get_15118_ev_certificate";
  mkActionDecl "GetBaseReport" "GetBaseReportRequest" "GetBaseReportResponse" "GetBaseReport"
    "send_get_base_report" "on_get_base_report" "wait_for_get_base_report";
  mkActionDecl "GetCertificateChainStatus" "GetCertificateChainStatusRequest" "GetCertificateChainStatusResponse" "GetCertificateChainStatus"
    "send_get_certificate_chain_status" "on_get_certificate_chain_status" "wait_for_get_certificate_chain_status";
  mkActionDecl "GetCertificateStatus" "GetCertificateStatusRequest" "GetCertificateStatusResponse" "GetCertificateStatus"
    "send_get_certificate_status" "on_get_certificate_status" "wait_for_get_certificate_status";
  mkActionDecl "GetChargingProfiles" "GetChargingProfilesRequest" "GetChargingProfilesResponse" "GetChargingProfiles"
    "send_get_charging_profiles" "on_get_charging_profiles" "wait_for_get_charging_profiles";
  mkActionDecl "GetCompositeSchedule" "GetCompositeScheduleRequest" "GetCompositeScheduleResponse" "GetCompositeSchedule"
    "send_get_composite_schedule" "on_get_composite_schedule" "wait_for_get_composite_schedule";
  mkActionDecl "GetDERControl" "GetDERControlRequest" "GetDERControlResponse" "GetDERControl"
    "send_get_der_control" "on_get_der_control" "wait_for_get_der_control";
  mkActionDecl "GetDisplayMessages" "GetDisplayMessagesRequest" "GetDisplayMessagesResponse" "GetDisplayMessages"
    "send_get_display_messages" "on_get_display_messages" "wait_for_get_display_messages";
  mkActionDecl "GetInstalledCertificateIds" "GetInstalledCertificateIdsRequest" "GetInstalledCertificateIdsResponse" "GetInstalledCertificateIds"
    "send_get_installed_certificate_ids" "on_get_installed_certificate_ids" "wait_for_get_installed_certificate_ids";
  mkActionDecl "GetLocalListVersion" "GetLocalListVersionRequest" "GetLocalListVersionResponse" "GetLocalListVersion"
    "send_get_local_list_version" "on_get_local_list_version" "wait_for_get_local_list_version"].

Definition actions_2_1_part3 : list ActionDecl := [
  mkActionDecl "GetLog" "GetLogRequest" "GetLogResponse" "GetLog"
    "send_get_log" "on_get_log" "wait_for_get_log";
  mkActionDecl "GetMonitoringReport" "GetMonitoringReportRequest" "GetMonitoringReportResponse" "GetMonitoringReport"
    "send_get_monitoring_report" "on_get_monitoring_report" "wait_for_get_monitoring_report";
  mkActionDecl "GetPeriodicEventStream" "GetPeriodicEventStreamRequest" "GetPeriodicEventStreamResponse" "GetPeriodicEventStream"
    "send_get_periodic_event_stream" "on_get_periodic_event_stream" "wait_for_get_periodic_event_stream";
  mkActionDecl "GetReport" "GetReportRequest" "GetReportResponse" "GetReport"
    "send_get_report" "on_get_report" "wait_for_get_report";
  mkActionDecl "GetTariffs" "GetTariffsRequest" "GetTariffsResponse" "GetTariffs"
    "send_get_tariffs" "on_get_tariffs" "wait_for_get_tariffs";
  mkActionDecl "GetTransactionStatus" "GetTransactionStatusRequest" "GetTransactionStatusResponse" "GetTransactionStatus"
    "send_get_transaction_status" "on_get_transaction_status" "wait_for_get_transaction_status";
  mkActionDecl "GetVariables" "GetVariablesRequest" "GetVariablesResponse" "GetVariables"
    "send_get_variables" "on_get_variables" "wait_for_get_variables";
  mkActionDecl "Heartbeat" "HeartbeatRequest" "HeartbeatResponse" "Heartbeat"
    "send_heartbeat" "on_heartbeat" "wait_for_heartbeat";
  mkActionDecl "InstallCertificate" "InstallCertificateRequest" "InstallCertificateResponse" "InstallCertificate"
    "send_install_certificate" "on_install_certificate" "wait_for_install_certificate";
  mkActionDecl "LogStatusNotification" "LogStatusNotificationRequest" "LogStatusNotificationResponse" "LogStatusNotification"
    "send_log_status_notification" "on_log_status_notification" "wait_for_log_status_notification";
  mkActionDecl "MeterValues" "MeterValuesRequest" "MeterValuesResponse" "MeterValues"
    "send_meter_values" "on_meter_values" "wait_for_meter_values";
  mkActionDecl "NotifyAllowedEnergyTransfer" "NotifyAllowedEnergyTransferRequest" "NotifyAllowedEnergyTransferResponse" "NotifyAllowedEnergyTransfer"
    "send_notify_allowed_energy_transfer" "on_notify_allowed_energy_transfer" "wait_for_notify_allowed_energy_transfer";
  mkActionDecl "NotifyChargingLimit" "NotifyChargingLimitRequest" "NotifyChargingLimitResponse" "NotifyChargingLimit"
    "send_notify_charging_limit" "on_notify_charging_limit" "wait_for_notify_charging_limit";
  mkActionDecl "NotifyCustomerInformation" "NotifyCustomerInformationRequest" "NotifyCustomerInformationResponse" "NotifyCustomerInformation"
    "send_notify_customer_information" "on_notify_customer_information" "wait_for_notify_customer_information";
  mkActionDecl "NotifyDERAlarm" "NotifyDERAlarmRequest" "NotifyDERAlarmResponse" "NotifyDERAlarm"
    "send_notify_der_alarm" "on_notify_der_alarm" "wait_for_notify_der_alarm";
  mkActionDecl "NotifyDERStartStop" "NotifyDERStartStopRequest" "NotifyDERStartStopResponse" "NotifyDERStartStop"
    "send_notify_der_start_stop" "on_notify_der_start_stop" "wait_for_notify_der_start_stop"].

Definition actions_2_1_part4 : list ActionDecl := [
  mkActionDecl "NotifyDisplayMessages" "NotifyDisplayMessagesRequest" "NotifyDisplayMessagesResponse" "NotifyDisplayMessages"
    "send_notify_display_messages" "on_notify_display_messages" "wait_for_notify_display_messages";
  mkActionDecl "NotifyEVChargingNeeds" "NotifyEVChargingNeedsRequest" "NotifyEVChargingNeedsResponse" "NotifyEVChargingNeeds"
    "send_notify_ev_charging_needs" "on_notify_ev_charging_needs" "wait_for_notify_ev_charging_needs";
  mkActionDecl "NotifyEVChargingSchedule" "NotifyEVChargingScheduleRequest" "NotifyEVChargingScheduleResponse" "NotifyEVChargingSchedule"
    "send_notify_ev_charging_schedule" "on_notify_ev_charging_schedule" "wait_for_notify_ev_charging_schedule";
  mkActionDecl "NotifyEvent" "NotifyEventRequest" "NotifyEventResponse" "NotifyEvent"
    "send_notify_event" "on_notify_event" "wait_for_notify_event";
  mkActionDecl "NotifyMonitoringReport" "NotifyMonitoringReportRequest" "NotifyMonitoringReportResponse" "NotifyMonitoringReport"
    "send_notify_monitoring_report" "on_notify_monitoring_report" "wait_for_notify_monitoring_report";
  mkActionDecl "NotifyReport" "NotifyReportRequest" "NotifyReportResponse" "NotifyReport"
    "send_notify_report" "on_notify_report" "wait_for_notify_report";
  mkActionDecl "NotifyPriorityCharging" "NotifyPriorityChargingRequest" "NotifyPriorityChargingResponse" "NotifyPriorityCharging"
    "send_notify_priority_charging" "on_notify_priority_charging" "wait_for_notify_priority_charging";
  mkActionDecl "NotifySettlement" "NotifySettlementRequest" "NotifySettlementResponse" "NotifySettlement"
    "send_notify_settlement" "on_notify_settlement" "wait_for_notify_settlement";
  mkActionDecl "NotifyWebPaymentStarted" "NotifyWebPaymentStartedRequest" "NotifyWebPaymentStartedResponse" "NotifyWebPaymentStarted"
    "send_notify_web_payment_started" "on_notify_web_payment_started" "wait_for_notify_web_payment_started";
  mkActionDecl "OpenPeriodicEventStream" "OpenPeriodicEventStreamRequest" "OpenPeriodicEventStreamResponse" "OpenPeriodicEventStream"
    "send_open_periodic_event_stream" "on_open_periodic_event_stream" "wait_for_open_periodic_event_stream";
  mkActionDecl "PublishFirmware" "PublishFirmwareRequest" "PublishFirmwareResponse" "PublishFirmware"
    "send_publish_firmware" "on_publish_firmware" "wait_for_publish_firmware";
  mkActionDecl "PublishFirmwareStatusNotification" "PublishFirmwareStatusNotificationRequest" "PublishFirmwareStatusNotificationResponse" "PublishFirmwareStatusNotification"
    "send_publish_firmware_status_notification" "on_publish_firmware_status_notification" "wait_for_publish_firmware_status_notification";
  mkActionDecl "PullDynamicScheduleUpdate" "PullDynamicScheduleUpdateRequest" "PullDynamicScheduleUpdateResponse" "PullDynamicScheduleUpdate"
    "send_pull_dynamic_schedule_update" "on_pull_dynamic_schedule_update" "wait_for_pull_dynamic_schedule_update";
  mkActionDecl "ReportChargingProfiles" "ReportChargingProfilesRequest" "ReportChargingProfilesResponse" "ReportChargingProfiles"
    "send_report_charging_profiles" "on_report_charging_profiles" "wait_for_report_charging_profiles";
  mkActionDecl "ReportDERControl" "ReportDERControlRequest" "ReportDERControlResponse" "ReportDERControl"
    "send_report_der_control" "on_report_der_control" "wait_for_report_der_control";
  mkActionDecl "RequestBatterySwap" "RequestBatterySwapRequest" "RequestBatterySwapResponse" "RequestBatterySwap"
    "send_request_battery_swap" "on_request_battery_swap" "wait_for_request_battery_swap"].

Definition actions_2_1_part5 : list ActionDecl := [
  mkActionDecl "RequestStartTransaction" "RequestStartTransactionRequest" "RequestStartTransactionResponse" "RequestStartTransaction"
    "send_request_start_transaction" "on_request_start_transaction" "wait_for_request_start_transaction";
  mkActionDecl "RequestStopTransaction" "RequestStopTransactionRequest" "RequestStopTransactionResponse" "RequestStopTransaction"
    "send_request_stop_transaction" "on_request_stop_transaction" "wait_for_request_stop_transaction";
  mkActionDecl "ReservationStatusUpdate" "ReservationStatusUpdateRequest" "ReservationStatusUpdateResponse" "ReservationStatusUpdate"
    "send_reservation_status_update" "on_reservation_status_update" "wait_for_reservation_status_update";
  mkActionDecl "ReserveNow" "ReserveNowRequest" "ReserveNowResponse" "ReserveNow"
    "send_reserve_now" "on_reserve_now" "wait_for_reserve_now";
  mkActionDecl "Reset" "ResetRequest" "ResetResponse" "Reset"
    "send_reset" "on_reset" "wait_for_reset";
  mkActionDecl "SecurityEventNotification" "SecurityEventNotificationRequest" "SecurityEventNotificationResponse" "SecurityEventNotification"
    "send_security_event_notification" "on_security_event_notification" "wait_for_security_event_notification";
  mkActionDecl "SendLocalList" "SendLocalListRequest" "SendLocalListResponse" "SendLocalList"
    "send_send_local_list" "on_send_local_list" "wait_for_send_local_list";
  mkActionDecl "SetChargingProfile" "SetChargingProfileRequest" "SetChargingProfileResponse" "SetChargingProfile"
    "send_set_charging_profile" "on_set_charging_profile" "wait_for_set_charging_profile";
  mkActionDecl "SetDefaultTariff" "SetDefaultTariffRequest" "SetDefaultTariffResponse" "SetDefaultTariff"
    "send_set_default_tariff" "on_set_default_tariff" "wait_for_set_default_tariff";
  mkActionDecl "SetDERControl" "SetDERControlRequest" "SetDERControlResponse" "SetDERControl"
    "send_set_der_control" "on_set_der_control" "wait_for_set_der_control";
  mkActionDecl "SetDisplayMessage" "SetDisplayMessageRequest" "SetDisplayMessageResponse" "SetDisplayMessage"
    "send_set_display_message" "on_set_display_message" "wait_for_set_display_message";
  mkActionDecl "SetMonitoringBase" "SetMonitoringBaseRequest" "SetMonitoringBaseResponse" "SetMonitoringBase"
    "send_set_monitoring_base" "on_set_monitoring_base" "wait_for_set_monitoring_base";
  mkActionDecl "SetMonitoringLevel" "SetMonitoringLevelRequest" "SetMonitoringLevelResponse" "SetMonitoringLevel"
    "send_set_monitoring_level" "on_set_monitoring_level" "wait_for_set_monitoring_level";
  mkActionDecl "SetNetworkProfile" "SetNetworkProfileRequest" "SetNetworkProfileResponse" "SetNetworkProfile"
    "send_set_network_profile" "on_set_network_profile" "wait_for_set_network_profile";
  mkActionDecl "SetVariableMonitoring" "SetVariableMonitoringRequest" "SetVariableMonitoringResponse" "SetVariableMonitoring"
    "send_set_variable_monitoring" "on_set_variable_monitoring" "wait_for_set_variable_monitoring";
  mkActionDecl "SetVariables" "SetVariablesRequest" "SetVariablesResponse" "SetVariables"
    "send_set_variables" "on_set_variables" "wait_for_set_variables"].

Definition actions_2_1_part6 : list ActionDecl := [
  mkActionDecl "SignCertificate" "SignCertificateRequest" "SignCertificateResponse" "SignCertificate"
    "send_sign_certificate" "on_sign_certificate" "wait_for_sign_certificate";
  mkActionDecl "StatusNotification" "StatusNotificationRequest" "StatusNotificationResponse" "StatusNotification"
    "send_status_notification" "on_status_notification" "wait_for_status_notification";
  mkActionDecl "TransactionEvent" "TransactionEventRequest" "TransactionEventResponse" "TransactionEvent"
    "send_transaction_event" "on_transaction_event" "wait_for_transaction_event";
  mkActionDecl "TriggerMessage" "TriggerMessageRequest" "TriggerMessageResponse" "TriggerMessage"
    "send_trigger_message" "on_trigger_message" "wait_for_trigger_message";
  mkActionDecl "UnlockConnector" "UnlockConnectorRequest" "UnlockConnectorResponse" "UnlockConnector"
    "send_unlock_connector" "on_unlock_connector" "wait_for_unlock_connector";
  mkActionDecl "UnpublishFirmware" "UnpublishFirmwareRequest" "UnpublishFirmwareResponse" "UnpublishFirmware"
    "send_unpublish_firmware" "on_unpublish_firmware" "wait_for_unpublish_firmware";
  mkActionDecl "UpdateDynamicSchedule" "UpdateDynamicScheduleRequest" "UpdateDynamicScheduleResponse" "UpdateDynamicSchedule"
    "send_update_dynamic_schedule" "on_update_dynamic_schedule" "wait_for_update_dynamic_schedule";
  mkActionDecl "UpdateFirmware" "UpdateFirmwareRequest" "UpdateFirmwareResponse" "UpdateFirmware"
    "send_update_firmware" "on_update_firmware" "wait_for_update_firmware";
  mkActionDecl "UsePriorityCharging" "UsePriorityChargingRequest" "UsePriorityChargingResponse" "UsePriorityCharging"
    "send_use_priority_charging" "on_use_priority_charging" "wait_for_use_priority_charging";
  mkActionDecl "VatNumberValidation" "VatNumberValidationRequest" "VatNumberValidationResponse" "VatNumberValidation"
    "send_vat_number_validation" "on_vat_number_validation" "wait_for_vat_number_validation"].

Definition actions_2_1 : list ActionDecl :=
  actions_2_1_part1 ++ actions_2_1_part2 ++ actions_2_1_part3 ++ actions_2_1_part4 ++ actions_2_1_part5 ++ actions_2_1_part6.

Definition send_actions_2_1 : list SendActionDecl := [
  mkSendActionDecl "NotifyPeriodicEventStreamAction" "NotifyPeriodicEventStream" "NotifyPeriodicEventStream" "send_notify_periodic_event_stream" "on_notify_periodic_event_stream"].
