(* ===== verification/Actions.v ===== *)
(** * The actions of the three versions

    What [ocpp_*_action!] generates from a declaration, and what holds of the
    declarations: the tables follow their naming convention, and no two actions of a
    version get in each other's way. *)

From S2P Require Import Prelude Time Sync Envelope Platform ProtocolErrors Engine Client ActionTables.
From Stdlib Require Import Ascii.
From stdpp Require Import base gmap list strings.

Local Open Scope string_scope.

(** ** What the macros generate *)

Section Generated.
Context {SM : SignalModel} {UM : UuidModel} {SJ : SerdeJson} {E : Type} {PE : ProtocolError E} {TErr : Type}.

(** The [serde] conversions of a pair of message types of [ocpp-types]. *)
Record Messages := mkMessages {
  Req : Type;
  Res : Type;
  ser_req : Req → result Value JsonError;
  de_req : Value → result Req JsonError;
  ser_res : Res → result Value JsonError;
  de_res : Value → result Res JsonError;
}.

(** [impl Action for $name]. *)
Definition action_of (d : ActionDecl) (m : Messages) : Action :=
  mkAction (action d) (Req m) (Res m) (ser_req m) (de_req m) (ser_res m) (de_res m).

Abbreviation program A := (prog (St := Client (E := E)) (Ext := Ext (TErr := TErr)) A).

(** ** OCPP 1.6: [ocpp_1_6_action!]

    The methods of [OCPP1_6Client]. *)
Definition method_send (timeout : Duration) (d : ActionDecl) (m : Messages) (request : Req m) :
    program (result (Res m) (ClientError E JsonError TErr)) :=
  call timeout (action_of d m) request.

Definition method_on (fuel : nat) (d : ActionDecl) (m : Messages)
    (callback : Req m → program (result (Res m) E)) : program unit :=
  on fuel (action_of d m) callback.

Definition method_wait_for (timeout : Duration) (d : ActionDecl) (m : Messages)
    (callback : Req m → program (result (Res m) E)) :
    program (result (Req m) (ClientError E JsonError TErr)) :=
  wait_for timeout (action_of d m) callback.

(** ** OCPP 2.0.1 and 2.1

    Every message carries a [customData] field, whose type is a parameter of the message
    types and of the marker; the generated methods fix it to the specification's. *)

(** A type with its [serde] conversions. *)
Record Serde := mkSerde {
  carrier : Type;
  to_value : carrier → result Value JsonError;
  from_value : Value → result carrier JsonError;
}.

Section CustomData.
Context (CustomData : Serde).

(** [impl<C> Action for $name<C>] of [ocpp_2_0_1_action!]. *)
Definition action_of_2_0_1 (d : ActionDecl) (m : Serde → Messages) (C : Serde) : Action :=
  mkAction (action d) (Req (m C)) (Res (m C)) (ser_req (m C)) (de_req (m C)) (ser_res (m C)) (de_res (m C)).

Definition method_send_2_0_1 (timeout : Duration) (d : ActionDecl) (m : Serde → Messages)
    (request : Req (m CustomData)) : program (result (Res (m CustomData)) (ClientError E JsonError TErr)) :=
  call timeout (action_of_2_0_1 d m CustomData) request.

Definition method_on_2_0_1 (fuel : nat) (d : ActionDecl) (m : Serde → Messages)
    (callback : Req (m CustomData) → program (result (Res (m CustomData)) E)) : program unit :=
  on fuel (action_of_2_0_1 d m CustomData) callback.

Definition method_wait_for_2_0_1 (timeout : Duration) (d : ActionDecl) (m : Serde → Messages)
    (callback : Req (m CustomData) → program (result (Res (m CustomData)) E)) :
    program (result (Req (m CustomData)) (ClientError E JsonError TErr)) :=
  wait_for timeout (action_of_2_0_1 d m CustomData) callback.

(** [impl<C> Action for $name<C>] of [ocpp_2_1_action!]. *)
Definition action_of_2_1 (d : ActionDecl) (m : Serde → Messages) (C : Serde) : Action :=
  mkAction (action d) (Req (m C)) (Res (m C)) (ser_req (m C)) (de_req (m C)) (ser_res (m C)) (de_res (m C)).

Definition method_send_2_1 (timeout : Duration) (d : ActionDecl) (m : Serde → Messages)
    (request : Req (m CustomData)) : program (result (Res (m CustomData)) (ClientError E JsonError TErr)) :=
  call timeout (action_of_2_1 d m CustomData) request.

Definition method_on_2_1 (fuel : nat) (d : ActionDecl) (m : Serde → Messages)
    (callback : Req (m CustomData) → program (result (Res (m CustomData)) E)) : program unit :=
  on fuel (action_of_2_1 d m CustomData) callback.

Definition method_wait_for_2_1 (timeout : Duration) (d : ActionDecl) (m : Serde → Messages)
    (callback : Req (m CustomData) → program (result (Res (m CustomData)) E)) :
    program (result (Req (m CustomData)) (ClientError E JsonError TErr)) :=
  wait_for timeout (action_of_2_1 d m CustomData) callback.

(** [impl<C> SendAction for $name<C>] of [ocpp_2_1_send_action!], and its methods. *)
Definition send_action_of (d : SendActionDecl) (payload : Serde → Serde) (C : Serde) : SendAction :=
  mkSendAction (send_wire_name d) (carrier (payload C)) (to_value (payload C)) (from_value (payload C)).

Definition method_send_notification (d : SendActionDecl) (payload : Serde → Serde)
    (x : carrier (payload CustomData)) : program (result unit (ClientError E JsonError TErr)) :=
  send_notification (send_action_of d payload CustomData) x.

Definition method_on_notification (fuel : nat) (d : SendActionDecl) (payload : Serde → Serde)
    (callback : carrier (payload CustomData) → program unit) : program unit :=
  on_notification fuel (send_action_of d payload CustomData) callback.

End CustomData.

(** ** Registering many handlers

    A handler for an action, of whatever version: its declaration, its messages and what
    it answers.  [method_on_2_0_1] and [method_on_2_1] at a fixed [customData] type are
    [method_on] at the messages of that type. *)
Definition handler : Type := ActionDecl * { m : Messages & Req m → program (result (Res m) E) }.

Lemma method_on_2_0_1_custom CustomData fuel d m callback :
  method_on_2_0_1 CustomData fuel d m callback = method_on fuel d (m CustomData) callback.
Proof. done. Qed.

Lemma method_on_2_1_custom CustomData fuel d m callback :
  method_on_2_1 CustomData fuel d m callback = method_on fuel d (m CustomData) callback.
Proof. done. Qed.

Fixpoint register_all (fuel : nat) (ds : list handler) : program unit :=
  match ds with
  | [] => Ret tt
  | (d, existT m callback) :: ds => bind (method_on fuel d m callback) (λ _, register_all fuel ds)
  end.

(** Registering handlers for actions with different names, on a client where those are
    free, gives each an open channel of its own. *)
Lemma run_register_all fuel (ds : list handler) (s : Client (E := E)) :
  NoDup ((λ x, action x.1) <$> ds) →
  (∀ x, x ∈ ds → entries (request_senders s) !! action x.1 = None) →
  ∃ s' new, run (register_all fuel ds) [] s = Some (tt, s', new, []) ∧
    length new = length ds ∧
    cells (request_senders s') = (cells (request_senders s) ++ replicate (length ds) chan_new)%list ∧
    (∀ name, name ∉ ((λ x, action x.1) <$> ds) →
       entries (request_senders s') !! name = entries (request_senders s) !! name) ∧
    (∀ i x, ds !! i = Some x →
       entries (request_senders s') !! action x.1 = Some (length (cells (request_senders s)) + i)) ∧
    notification_senders s' = notification_senders s.
Proof.
  revert s. induction ds as [|[d [m callback]] ds IH]; intros s Hnd Hfree.
  - exists s, []. simpl. rewrite app_nil_r. by split_and!.
  - apply NoDup_cons in Hnd as [Hd Hnd]. cbn [register_all fst].
    assert (Hname : entries (request_senders s) !! action d = None) by (apply (Hfree (d, existT m callback)); left).
    set (s1 := set_requests (table_insert (action d) chan_new (request_senders s)).2 s).
    assert (Hon : run (method_on fuel d m callback) [] s
      = Some (tt, s1, [handler_loop (TErr := TErr) fuel (action_of d m) callback
                         (length (cells (request_senders s)))], [])).
    { unfold method_on, on, register_request, register_chan. simpl. by rewrite Hname. }
    destruct (IH s1 Hnd) as (s' & new & Hrun & Hlen & Hcells & Hother & Hown & Hnot).
    { intros x Hx. simpl. rewrite lookup_insert_ne.
      - apply Hfree. by right.
      - intros Heq. apply Hd. simpl. rewrite Heq. by apply (list_elem_of_fmap_2 (λ x, action x.1)). }
    exists s', (handler_loop fuel (action_of d m) callback (length (cells (request_senders s))) :: new).
    split; [by rewrite run_bind, Hon, Hrun|]. split; [simpl; lia|].
    split; [rewrite Hcells; simpl; by rewrite <-app_assoc|]. split.
    { intros name Hn. rewrite Hother by set_solver. simpl. apply lookup_insert_ne. set_solver. }
    split; [|exact Hnot].
    intros [|i] x; simpl.
    + intros [= <-]. simpl. rewrite Hother by done. simpl. rewrite Nat.add_0_r. apply lookup_insert_eq.
    + intros Hx. rewrite (Hown i x Hx). simpl. rewrite length_app. simpl. f_equal. lia.
Qed.

(** A notification handler under a free name gets an open channel. *)
Lemma run_on_notification CustomData fuel d payload callback (s : Client (E := E)) :
  notification_senders s = table_empty →
  ∃ s' p, run (method_on_notification CustomData fuel d payload callback) [] s = Some (tt, s', [p], []) ∧
    request_senders s' = request_senders s ∧
    table_lookup (send_wire_name d) (notification_senders s') = Some chan_new.
Proof.
  intros Hs. unfold method_on_notification, on_notification, register_notification, register_chan.
  simpl. rewrite Hs. simpl. rewrite lookup_empty. eexists _, _. split; [done|]. split; [done|].
  unfold table_lookup. simpl. by rewrite lookup_insert_eq.
Qed.

End Generated.

(** The client of each version. *)
Definition OCPP1_6Client `{SignalModel, UuidModel} : Type := Client (E := V1_6.OCPP1_6Error).
Definition OCPP2_0_1Client `{SignalModel, UuidModel} : Type := Client (E := V2_0_1.OCPP2_0_1Error).
Definition OCPP2_1Client `{SignalModel, UuidModel} : Type := Client (E := V2_1.OCPP2_1Error).

(** ** The naming convention *)

Definition is_upper (c : ascii) : bool :=
  Nat.leb 65 (nat_of_ascii c) && Nat.leb (nat_of_ascii c) 90.
Definition is_lower (c : ascii) : bool :=
  Nat.leb 97 (nat_of_ascii c) && Nat.leb (nat_of_ascii c) 122.
Definition is_digit (c : ascii) : bool :=
  Nat.leb 48 (nat_of_ascii c) && Nat.leb (nat_of_ascii c) 57.
Definition to_lower (c : ascii) : ascii :=
  if is_upper c then ascii_of_nat (nat_of_ascii c + 32) else c.

(** A word starts at an upper-case letter after a lower-case letter or a digit, at the
    last letter of a run of upper-case ones that a lower-case letter follows, and at the
    first digit of a number. *)
Definition word_starts (previous c : ascii) (rest : string) : bool :=
  (is_upper c && (is_lower previous || is_digit previous)) ||
  (is_upper c && is_upper previous &&
     match rest with String n _ => is_lower n | EmptyString => false end) ||
  (is_digit c && negb (is_digit previous)).

Fixpoint snake_from (previous : option ascii) (s : string) : string :=
  match s with
  | EmptyString => EmptyString
  | String c rest =>
      let tail := String (to_lower c) (snake_from (Some c) rest) in
      match previous with
      | Some p => if word_starts p c rest then String "_" tail else tail
      | None => tail
      end
  end.

Definition snake_case : string → string := snake_from None.

Definition follows_convention (d : ActionDecl) : bool :=
  String.eqb (marker d) (action d) && String.eqb (request_type d) (action d ++ "Request") &&
  String.eqb (response_type d) (action d ++ "Response") &&
  String.eqb (send_method d) ("send_" ++ snake_case (action d)) &&
  String.eqb (on_method d) ("on_" ++ snake_case (action d)) &&
  String.eqb (wait_for_method d) ("wait_for_" ++ snake_case (action d)).

Definition tables : list (list ActionDecl) := [actions_1_6; actions_2_0_1; actions_2_1].

(** Every method a version's client gets from its actions, the SEND ones included. *)
Definition methods (ds : list ActionDecl) (ss : list SendActionDecl) : list string :=
  ((send_method <$> ds) ++ (on_method <$> ds) ++ (wait_for_method <$> ds) ++
   (send_send_method <$> ss) ++ (send_on_method <$> ss))%list.

(** The declarations are consistent.  In each version every action is declared once,
    its marker, its request and response types and its three methods are all named after
    its wire name, and no two generated methods of a client share a name, the one of the
    2.1 SEND message included; there are 39, 64 and 90 CALL actions. *)
Lemma action_tables_are_consistent :
  Forall (λ ds, Forall (λ d, follows_convention d = true) ds ∧ NoDup (action <$> ds)) tables ∧
  NoDup (methods actions_1_6 []) ∧ NoDup (methods actions_2_0_1 []) ∧
  NoDup (methods actions_2_1 send_actions_2_1) ∧
  length <$> tables = [39; 64; 90].
Proof.
  split_and!; [|apply (bool_decide_unpack _); vm_compute; exact I..|reflexivity].
  apply (bool_decide_unpack _). vm_compute. exact I.
Qed.

Lemma tables_nodup ds : ds ∈ tables → NoDup (action <$> ds).
Proof.
  unfold tables. rewrite !elem_of_cons, elem_of_nil.
  intros [-> |[-> |[-> |[]]]]; apply (bool_decide_unpack _); vm_compute; exact I.
Qed.

(** C39: all handlers of a version coexist.  Registering a handler for every action of a
    version on a new client, in the order of its declarations and whatever the handlers
    do, spawns one task each and leaves every action bound to an open channel of its own:
    none replaces another.  Registering the 2.1 SEND handler as well, whatever its
    [customData] type, spawns one more task, opens a channel of its own in the table of
    notifications, and leaves all of these as they are. *)
Theorem every_action_gets_its_own_handler {SM : SignalModel} {UM : UuidModel} {SJ : SerdeJson}
    {E : Type} {PE : ProtocolError E} {TErr : Type} fuel keepalive conn ds (hs : list (handler (E := E) (TErr := TErr))) :
  ds ∈ tables → hs.*1 = ds →
  ∃ s new, run (register_all fuel hs) [] (client_new keepalive conn) = Some (tt, s, new, []) ∧
    length new = length ds ∧
    (∀ i d, ds !! i = Some d →
      entries (request_senders s) !! action d = Some i ∧ cells (request_senders s) !! i = Some chan_new) ∧
    (∀ CustomData d payload callback, d ∈ send_actions_2_1 →
      ∃ s' p, run (method_on_notification (TErr := TErr) CustomData fuel d payload callback) [] s
                = Some (tt, s', [p], []) ∧
        request_senders s' = request_senders s ∧
        table_lookup (send_wire_name d) (notification_senders s') = Some chan_new).
Proof.
  intros Hds Hhs. destruct (run_register_all fuel hs (client_new keepalive conn))
    as (s & new & Hrun & Hlen & Hcells & _ & Hown & Hnot).
  - change (NoDup (action ∘ fst <$> hs)). rewrite list_fmap_compose, Hhs. by apply tables_nodup.
  - intros x _. simpl. apply lookup_empty.
  - exists s, new. split; [exact Hrun|]. subst ds. rewrite length_fmap. split; [exact Hlen|].
    split.
    + intros i d Hi. rewrite list_lookup_fmap in Hi. apply fmap_Some in Hi as (h & Hh & ->).
      split; [exact (Hown i h Hh)|]. rewrite Hcells. simpl. apply lookup_replicate.
      split; [done|]. by eapply lookup_lt_Some.
    + intros CustomData d payload callback _. apply run_on_notification. by rewrite Hnot.
Qed.

Definition json_messages : Messages (SJ := tree_json) :=
  mkMessages (SJ := tree_json) Value Value Ok Ok Ok Ok.

Definition echo_handlers : list (handler (SM := slot_signal) (UM := number_uuid) (SJ := tree_json)
    (E := V1_6.OCPP1_6Error) (TErr := unit)) :=
  (λ d, (d, existT json_messages (λ request, Ret (Ok request)))) <$> actions_1_6.

Lemma every_action_gets_its_own_handler_witness :
  ∃ s new, run (register_all 1 echo_handlers) [] (client_new Keepalive.KeepaliveDisabled 0) = Some (tt, s, new, []) ∧
    length new = 39.
Proof.
  destruct (every_action_gets_its_own_handler 1 Keepalive.KeepaliveDisabled 0 actions_1_6 echo_handlers)
    as (s & new & Hrun & Hlen & _); [left|reflexivity|].
  exists s, new. split; [exact Hrun|exact Hlen].
Defined.
