(* ===== verification/Board.v ===== *)
(** * The NUCLEO-H723ZG firmware

    [src/crates/ocpp-board-stm32h723-nucleo/src/main.rs]: the hardware random generator
    behind its two consumers, the clock tree, the boot sequence, the loop that dials
    until it is connected, and the loop that sends heartbeats.  The pins and the Ethernet
    driver are configuration of the hardware and have no behaviour here. *)

From S2P Require Import Prelude Time Sync Envelope Platform ProtocolErrors Reconnect Engine Client ClientInv ClientLogic ClientDemo History Termination Transport Embassy EmbassyConnect ActionTables Actions.
From stdpp Require Import base gmap list strings pretty.

Local Open Scope string_scope.
Local Open Scope nat_scope.

(** ** Constants *)

Definition CSMS_ADDR : list Z := [192; 168; 1; 10]%Z.
Definition CSMS_PORT : Z := 9000.
Definition MAC_ADDR : list Z := [0x02; 0x00; 0x11; 0x22; 0x33; 0x44]%Z.
Definition CSMS_HOST : string := "192.168.1.10".
Definition CHARGE_POINT_PATH : string := "/ocpp/CP001".
Definition HEAP_SIZE : nat := 64 * 1024.
(** [StackResources<4>]. *)
Definition SOCKETS : nat := 4.

(** The address in the handshake is the one that is dialled. *)
Example host_is_address : CSMS_HOST = String.concat "." (pretty <$> CSMS_ADDR).
Proof. reflexivity. Qed.

(** "Locally-administered placeholder MAC (bit 1 of the first byte set ...)", and the
    address of one interface. *)
Example mac_is_local_and_unicast :
  length MAC_ADDR = 6 ∧ Z.testbit (default 0%Z (MAC_ADDR !! 0)) 1 = true ∧
  Z.testbit (default 0%Z (MAC_ADDR !! 0)) 0 = false.
Proof. done. Qed.

(** ** The clock tree

    [config.rcc]: dividers and multipliers of the clocks, from the frequency of the
    internal oscillator. *)

Record Pll := mkPll { prediv : Z; mul : Z; divp : option Z; divq : option Z; divr : option Z }.

Record Rcc := mkRcc {
  hsi : option Z;
  csi : bool;
  hsi48 : bool;
  pll1 : option Pll;
  ahb_pre : Z;
  apb_pre : list Z;
}.

Definition rcc : Rcc :=
  (mkRcc (Some 1) true true (Some (mkPll 4 50 (Some 2) None None)) 2 [2; 2; 2; 2])%Z.

(** The clock selected by [Sysclk::PLL1_P], if it is running. *)
Definition sysclk (oscillator : Z) (c : Rcc) : option Z :=
  match hsi c, pll1 c with
  | Some div, Some p =>
      match divp p with Some d => Some (oscillator / div / prediv p * mul p / d)%Z | None => None end
  | _, _ => None
  end.

Definition ahb_clock (oscillator : Z) (c : Rcc) : option Z :=
  match sysclk oscillator c with Some f => Some (f / ahb_pre c)%Z | None => None end.

Definition apb_clocks (oscillator : Z) (c : Rcc) : option (list Z) :=
  match ahb_clock oscillator c with Some f => Some ((λ d, f / d)%Z <$> apb_pre c) | None => None end.

(** "HSI -> PLL1 -> 400 MHz sysclk, 200 MHz AHB, 100 MHz APB1-4", with the 64 MHz
    oscillator of this family, and the clock of the generator enabled. *)
Example clock_tree_as_documented :
  sysclk 64000000 rcc = Some 400000000%Z ∧ ahb_clock 64000000 rcc = Some 200000000%Z ∧
  apb_clocks 64000000 rcc = Some (replicate 4 100000000%Z) ∧ hsi48 rcc = true.
Proof. done. Qed.

(** ** The hardware random generator *)

(** The peripheral's driver. *)
Class HwRng := {
  Rng : Type;
  rng_next_u32 : Rng → Z * Rng;
  rng_next_u64 : Rng → Z * Rng;
  rng_fill : nat → Rng → list byte * Rng;
  rng_fill_length n r : length (rng_fill n r).1 = n;
}.

Section Random.
Context {HW : HwRng}.

(** [RNG_CELL]; reading it before [main] has set it panics in [SharedHwRng] and is an
    error of [getrandom]. *)
Definition RngCell : Type := option Rng.

Inductive Drawn (A : Type) : Type :=
| Drew (a : A)
| Panicked
| NotReady (code : Z).
Arguments Drew {A} _.
Arguments Panicked {A}.
Arguments NotReady {A} _.

Definition draw {A} (f : Rng → A * Rng) (uninitialised : Drawn A) (cell : RngCell) : Drawn A * RngCell :=
  match cell with
  | Some rng => let '(a, rng) := f rng in (Drew a, Some rng)
  | None => (uninitialised, None)
  end.

(** [SharedHwRng]. *)
Definition next_u32 : RngCell → Drawn Z * RngCell := draw rng_next_u32 Panicked.
Definition next_u64 : RngCell → Drawn Z * RngCell := draw rng_next_u64 Panicked.
Definition fill_bytes (n : nat) : RngCell → Drawn (list byte) * RngCell := draw (rng_fill n) Panicked.
Definition try_fill_bytes (n : nat) (cell : RngCell) : Drawn (list byte) * RngCell := fill_bytes n cell.

(** [__getrandom_v03_custom]. *)
Definition getrandom_v03_custom (n : nat) : RngCell → Drawn (list byte) * RngCell :=
  draw (rng_fill n) (NotReady 1).

(** [u64::from_le_bytes]. *)
Definition from_le_bytes (bs : list byte) : Z := foldr (λ b acc, byte_to_Z b + 256 * acc)%Z 0%Z bs.

(** [main] up to the seed of the network stack. *)
Definition boot_rng (peripheral : Rng) : Drawn Z * RngCell :=
  let cell := Some peripheral in
  match fill_bytes 8 cell with
  | (Drew seed_bytes, cell) => (Drew (from_le_bytes seed_bytes), cell)
  | (Panicked, cell) => (Panicked, cell)
  | (NotReady code, cell) => (NotReady code, cell)
  end.

(** What the rest of the firmware asks of the generator. *)
Inductive RngUse := UseU32 | UseU64 | UseFill (n : nat) | UseTryFill (n : nat) | UseGetrandom (n : nat).

(** Whether a use succeeded, with as many bytes as it asked for. *)
Definition use_rng (u : RngUse) (cell : RngCell) : bool * RngCell :=
  let ready {A} (full : A → bool) (r : Drawn A * RngCell) :=
    (match r.1 with Drew a => full a | _ => false end, r.2) in
  match u with
  | UseU32 => ready (λ _, true) (next_u32 cell)
  | UseU64 => ready (λ _, true) (next_u64 cell)
  | UseFill n => ready (λ bs, Nat.eqb (length bs) n) (fill_bytes n cell)
  | UseTryFill n => ready (λ bs, Nat.eqb (length bs) n) (try_fill_bytes n cell)
  | UseGetrandom n => ready (λ bs, Nat.eqb (length bs) n) (getrandom_v03_custom n cell)
  end.

Fixpoint use_all (us : list RngUse) (cell : RngCell) : list bool :=
  match us with
  | [] => []
  | u :: us => let '(ok, cell) := use_rng u cell in ok :: use_all us cell
  end.

Lemma from_le_bytes_range bs : (0 ≤ from_le_bytes bs < 256 ^ Z.of_nat (length bs))%Z.
Proof.
  induction bs as [|b bs IH]; [done|]. simpl length. rewrite Nat2Z.inj_succ, Z.pow_succ_r by lia.
  simpl. pose proof (byte_to_Z_range b). lia.
Qed.

Lemma use_rng_ready u rng : ∃ rng', use_rng u (Some rng) = (true, Some rng').
Proof.
  destruct u as [| |n|n|n]; simpl; unfold next_u32, next_u64, try_fill_bytes, fill_bytes, getrandom_v03_custom, draw;
    repeat match goal with |- context [let '(_, _) := ?e in _] => destruct e as [? ?] eqn:He end;
    simpl; [by eauto..| | |];
    pose proof (rng_fill_length n rng) as Hl; rewrite He in Hl; simpl in Hl;
    rewrite Hl, Nat.eqb_refl; eauto.
Qed.

Lemma use_all_ready us rng : Forall (λ ok, ok = true) (use_all us (Some rng)).
Proof.
  revert rng. induction us as [|u us IH]; intros rng; simpl; [constructor|].
  destruct (use_rng_ready u rng) as [rng' ->]. by constructor.
Qed.

(** The generator is ready whenever the firmware uses it.  Booting draws a 64-bit
    seed, and from then on every use, by the frame masking or by [getrandom], succeeds and
    delivers the bytes it asked for, in any order and number; before the peripheral is
    installed none would, [SharedHwRng] panicking and [getrandom] reporting its error 1. *)
Lemma rng_is_ready_when_used peripheral us n :
  (∃ seed cell, boot_rng peripheral = (Drew seed, cell) ∧ is_u64 seed ∧
     Forall (λ ok, ok = true) (use_all us cell)) ∧
  next_u32 None = (Panicked, None) ∧ next_u64 None = (Panicked, None) ∧
  fill_bytes n None = (Panicked, None) ∧ getrandom_v03_custom n None = (NotReady 1, None) ∧
  Forall (λ ok, ok = false) (use_all us None).
Proof.
  split_and!; [|done..|].
  - unfold boot_rng, fill_bytes, draw. pose proof (rng_fill_length 8 peripheral) as Hl.
    destruct (rng_fill 8 peripheral) as [bs rng]. eexists _, _. split; [done|].
    split; [|apply use_all_ready]. pose proof (from_le_bytes_range bs) as Hr. simpl in Hl.
    rewrite Hl in Hr. unfold is_u64, u64_max. lia.
  - induction us as [|[] us IH]; constructor; done.
Qed.

End Random.

Arguments Drew {A} _.
Arguments Panicked {A}.
Arguments NotReady {A} _.

(** ** Dialling until connected *)

(** What the board has room for: the network stack panics when a socket is added to a
    full set, and the allocator when its arena is used up. *)
Class BoardLimits := {
  fits : Leaked → bool;
  fits_sockets l : fits l = true → leaked_sockets l ≤ SOCKETS;
}.

Section Dialling.
Context {FC : FrameCodec} {NetErr : Type} {BL : BoardLimits}.

Definition board_config : ConnectConfig := ConnectConfig_new (CSMS_ADDR, CSMS_PORT) CSMS_HOST CHARGE_POINT_PATH "ocpp1.6".

Inductive BootEvent := Dialled | Waited (d : Duration).

Inductive BootEnd :=
| Online (stream : EmbassyWs) (rest : list (result (list byte) NetErr))
| Crashed
| Dialling.

(** The loop of [main] over what the network answers to each attempt; an attempt whose
    socket does not fit panics before it dials. *)
Fixpoint initial_connect (attempts : list (Attempt (NetErr := NetErr))) (l : Leaked) :
    list BootEvent * Leaked * BootEnd :=
  match attempts with
  | [] => ([], l, Dialling)
  | a :: attempts =>
      if fits (leak_socket board_config l) then
        match EmbassyConnect.connect board_config a l with
        | (Some (Ok (stream, rest)), _, l) => ([Dialled], l, Online stream rest)
        | (Some (Err _), _, l) =>
            let '(events, l, e) := initial_connect attempts l in
            (Dialled :: Waited (from_secs 5) :: events, l, e)
        | (None, _, l) => ([Dialled], l, Dialling)
        end
      else ([], l, Crashed)
  end.

(** Later dials, through the reconnector given to the client: how many are made before
    one does not fit. *)
Fixpoint redials (attempts : list (Attempt (NetErr := NetErr))) (l : Leaked) : nat * Leaked :=
  match attempts with
  | [] => (0, l)
  | a :: attempts =>
      if fits (leak_socket board_config l) then
        let '(n, l) := redials attempts (reconnect_connect (mkReconnector board_config) a l).2 in (S n, l)
      else (0, l)
  end.

Definition fails (a : Attempt (NetErr := NetErr)) : Prop :=
  ∀ l, ∃ e, (EmbassyConnect.connect board_config a l).1.1 = Some (Err e).

Definition is_dialled (e : BootEvent) : bool := match e with Dialled => true | Waited _ => false end.
Definition dials (events : list BootEvent) : nat := length (List.filter is_dialled events).

(** Each attempt takes a socket and its buffers for good. *)
Lemma initial_connect_dials attempts l events l' e :
  initial_connect attempts l = (events, l', e) → leaked_sockets l ≤ SOCKETS →
  leaked_sockets l' = leaked_sockets l + dials events ∧ leaked_sockets l' ≤ SOCKETS ∧
  leaked_bytes l' = leaked_bytes l + dials events * 4096.
Proof.
  revert l events. induction attempts as [|a attempts IH]; intros l events; simpl.
  { intros [= <- <- <-] Hl. unfold dials. simpl. lia. }
  destruct (fits _) eqn:Hf; [|intros [= <- <- <-]; unfold dials; simpl; lia].
  apply fits_sockets in Hf. pose proof (connect_leaks board_config a l) as Hc.
  destruct (EmbassyConnect.connect board_config a l) as [[[[[stream rest]|err]|] sent] l1]; simpl in Hc; subst l1;
    try (intros [= <- <- <-] Hl; unfold dials; cbn -[Nat.mul] in *; lia).
  destruct (initial_connect _ _) as [[ev l2] e2] eqn:Hi. intros [= <- <- <-] Hl.
  destruct (IH _ _ Hi Hf) as (-> & Hle & ->). unfold dials in *. cbn -[Nat.mul] in *. lia.
Qed.

(** Attempts that fail are each followed by a wait, until one does not fit. *)
Lemma initial_connect_fails attempts l :
  Forall fails attempts →
  ∃ n l', initial_connect attempts l
    = (concat (replicate n [Dialled; Waited (from_secs 5)]), l', if decide (n = length attempts) then Dialling else Crashed) ∧
    n ≤ length attempts.
Proof.
  intros Hf. revert l. induction Hf as [|a attempts Ha Hf IH]; intros l; simpl; [by exists 0, l; split; [|lia]|].
  destruct (fits _); [|by exists 0, l; split; [|lia]].
  destruct (Ha l) as [err He]. destruct (EmbassyConnect.connect board_config a l) as [[o sent] l1]. simpl in He. subst o.
  destruct (IH l1) as (n & l2 & -> & Hn). exists (S n), l2. split; [|lia]. simpl.
  destruct (decide (n = _)), (decide (S n = _)); done || lia.
Qed.

Lemma dials_replicate n d : dials (concat (replicate n [Dialled; Waited d])) = n.
Proof. unfold dials. induction n as [|n IH]; [done|]. simpl. by rewrite IH. Qed.

Lemma redials_bound attempts l :
  leaked_sockets l ≤ SOCKETS → leaked_sockets l + (redials attempts l).1 ≤ SOCKETS.
Proof.
  revert l. induction attempts as [|a attempts IH]; intros l Hl; simpl; [lia|].
  destruct (fits _) eqn:Hf; [|simpl; lia]. apply fits_sockets in Hf.
  unfold reconnect_connect. rewrite connect_leaks. specialize (IH _ Hf).
  destruct (redials _ _). simpl in *. lia.
Qed.

(** C38: the firmware cannot dial more than four times.  The loop that is to retry until
    the first connection succeeds waits five seconds after every failed attempt, but
    every attempt keeps its socket for good.  Whatever the network answers, the attempts
    of that loop and of the reconnector after it are at most [SOCKETS] together, long
    before the heap is used up; and if more than four attempts would fail, the firmware
    crashes instead of retrying. *)
Theorem firmware_dials_at_most_four_times attempts :
  (∀ events l e, initial_connect attempts nothing_leaked = (events, l, e) →
     ∀ later, dials events + (redials later l).1 ≤ SOCKETS ∧ 4 * leaked_bytes l ≤ HEAP_SIZE) ∧
  (SOCKETS < length attempts → Forall fails attempts →
   ∃ n l, n ≤ SOCKETS ∧ initial_connect attempts nothing_leaked
     = (concat (replicate n [Dialled; Waited (from_secs 5)]), l, Crashed)).
Proof.
  split.
  - intros events l e Hi. destruct (initial_connect_dials _ _ _ _ _ Hi) as (Hs & Hle & Hb); [simpl; lia|].
    intros later. pose proof (redials_bound later l Hle). cbn [leaked_sockets leaked_bytes nothing_leaked] in *.
    unfold SOCKETS, HEAP_SIZE in *. lia.
  - intros Hlen Hf. destruct (initial_connect_fails attempts nothing_leaked Hf) as (n & l & Hi & Hn).
    destruct (initial_connect_dials _ _ _ _ _ Hi) as (Hs & Hle & _); [simpl; lia|].
    rewrite dials_replicate in Hs. simpl in Hs. exists n, l. split; [lia|]. rewrite Hi.
    rewrite decide_False by lia. done.
Qed.

End Dialling.

(** A stack whose DHCP client uses one of the four sockets, and a network without a
    route. *)
Definition dhcp_limits : BoardLimits.
Proof.
  refine {| fits := λ l, Nat.leb (leaked_sockets l) 3 |}.
  intros l Hl. apply Nat.leb_le in Hl. unfold SOCKETS. lia.
Defined.

Definition no_route : Attempt (FC := byte_codec) (NetErr := unit) :=
  mkAttempt (FC := byte_codec) (λ _, Err tt) tt (λ _, Err tt) (Err tt) [].

Lemma firmware_dials_at_most_four_times_witness :
  ∃ n l, n ≤ 4 ∧ initial_connect (FC := byte_codec) (BL := dhcp_limits) (replicate 5 no_route) nothing_leaked
    = (concat (replicate n [Dialled; Waited (from_secs 5)]), l, Crashed).
Proof.
  apply (proj2 (firmware_dials_at_most_four_times (FC := byte_codec) (BL := dhcp_limits) (replicate 5 no_route))).
  - unfold SOCKETS. simpl. lia.
  - repeat constructor; intros l; eexists; reflexivity.
Defined.

(** ** Heartbeats *)

Section Heartbeats.
Context {SM : SignalModel} {UM : UuidModel} {SJ : SerdeJson} {E : Type} {PE : ProtocolError E} {TErr : Type}.
Context {BL : BoardLimits} `{Inhabited Uuid}.

Abbreviation St := (Client (E := E)).
Abbreviation program A := (prog (St := St) (Ext := Ext (TErr := TErr)) A).

Definition Heartbeat : ActionDecl :=
  mkActionDecl "Heartbeat" "HeartbeatRequest" "HeartbeatResponse" "Heartbeat"
    "send_heartbeat" "on_heartbeat" "wait_for_heartbeat".

Context (m : Messages) (HeartbeatRequest : Req m).

Definition TIMEOUT : Duration := from_secs 30.
Definition HEARTBEAT_INTERVAL : Duration := from_secs 30.

(** The last loop of [main]; the outcome of a heartbeat is only logged. *)
Fixpoint heartbeat_loop (fuel : nat) : program unit :=
  match fuel with
  | O => OutOfFuel
  | S fuel =>
      bind (method_send TIMEOUT Heartbeat m HeartbeatRequest) (λ _,
      bind (await (FExt (Delay HEARTBEAT_INTERVAL))) (λ _, heartbeat_loop fuel))
  end.

(** The client [main] builds over its first connection, with its tasks and [main]'s. *)
Definition firmware (fuel conn : nat) : St * list (program unit) :=
  let '(client, tasks) :=
    from_transport_with_reconnect fuel conn TIMEOUT true ReconnectPolicy_default in
  (client, tasks ++ [heartbeat_loop fuel])%list.

(** [main] uses the client only through its public methods, so that what is proved of
    every client holds of the firmware. *)
Lemma heartbeat_loop_api fuel : api unit (heartbeat_loop fuel).
Proof.
  induction fuel as [|fuel IH]; [apply api_fuel|]. cbn [heartbeat_loop].
  apply api_bind; [apply (api_call _ _ (action_of Heartbeat m))|]. intros _. apply api_bind; [apply api_delay|]. by intros _.
Qed.

(** ** The running board

    The client's tasks and [main]'s, and what has been leaked.  When the read loop comes
    to its dial, the reconnector starts an attempt; if its socket does not fit the whole
    board panics. *)
Inductive Board :=
| Runs (ts : list (program unit)) (client : St) (l : Leaked)
| Panics (l : Leaked).

Definition at_dial (p : program unit) : bool :=
  match p with
  | Await (FExt e) _ => match e with Dial => true | _ => false end
  | _ => false
  end.

Definition starts_dial (i : nat) (ts : list (program unit)) : bool :=
  match ts !! i with Some p => at_dial p | None => false end.

Definition board_step (i : nat) (c : Choice (TErr := TErr)) (b : Board) : option Board :=
  match b with
  | Runs ts s l =>
      match pool_step i c ts s with
      | Some (ts, s) =>
          if starts_dial i ts then
            if fits (leak_socket board_config l) then Some (Runs ts s (leak_socket board_config l)) else Some (Panics l)
          else Some (Runs ts s l)
      | None => None
      end
  | Panics _ => None
  end.

Fixpoint run_board (schedule : list (nat * Choice (TErr := TErr))) (b : Board) : option Board :=
  match schedule with
  | [] => Some b
  | (i, c) :: rest => match board_step i c b with Some b' => run_board rest b' | None => None end
  end.

(** The board once [initial_connect] has left [l] leaked and connection [conn]. *)
Definition board_start (fuel conn : nat) (l : Leaked) : Board :=
  Runs (firmware fuel conn).2 (firmware fuel conn).1 l.

(** Sockets and panics: what the client does is a run of its tasks, and the board stops
    only at a dial that does not fit. *)
Definition board_ok (schedule : list (nat * Choice)) (ts0 : list (program unit)) (s0 : St) (b : Board) : Prop :=
  ∃ ts s, run_pool schedule ts0 s0 = Some (ts, s) ∧
    match b with
    | Runs ts' s' l => ts' = ts ∧ s' = s ∧ leaked_sockets l ≤ SOCKETS
    | Panics l => (∃ i, starts_dial i ts = true) ∧ leaked_sockets l ≤ SOCKETS ∧ fits (leak_socket board_config l) = false
    end.

Lemma run_board_ok schedule ts s l b :
  leaked_sockets l ≤ SOCKETS → run_board schedule (Runs ts s l) = Some b → board_ok schedule ts s b.
Proof.
  revert ts s l. induction schedule as [|[i c] rest IH]; intros ts s l Hl; cbn [run_board board_step].
  { intros [= <-]. by exists ts, s. }
  unfold board_ok. cbn [run_pool]. destruct (pool_step i c ts s) as [[ts1 s1]|]; [|done].
  destruct (starts_dial i ts1) eqn:Hd; [|by apply IH].
  destruct (fits (leak_socket board_config l)) eqn:Hf; [apply IH; by apply fits_sockets in Hf|].
  destruct rest as [|[j d] rest]; [|done]. intros [= <-]. exists ts1, s1. eauto.
Qed.

(** ** What [main] does over and over *)

Local Open Scope list_scope.

Abbreviation deeds := (list (deed (Entry := LogEntry))).

Context (payload : Value) (frame : Uuid → string).
Hypothesis encodes : ser_req m HeartbeatRequest = Ok payload.
Hypothesis frames : ∀ id,
  to_string (ser_RawCall (mkRawCall MESSAGE_TYPE_CALL (uuid_to_string id) "Heartbeat" payload)) = Ok (frame id).

(** A turn of its loop: one CALL, which is refused, answered, or timed out, and then the
    interval. *)
Inductive beat : deeds → Prop :=
| beat_refused conn id :
    beat [Did (LSink conn (SinkSend (frame id)) false); Did (LDelay HEARTBEAT_INTERVAL)]
| beat_answered conn id :
    beat [Did (LSink conn (SinkSend (frame id)) true); Won true; Did (LDelay HEARTBEAT_INTERVAL)]
| beat_unanswered conn id :
    beat [Did (LSink conn (SinkSend (frame id)) true); Won false; Did (LDelay TIMEOUT); Did (LDelay HEARTBEAT_INTERVAL)].

(** Turns one after the other, the last of them perhaps not yet over. *)
Definition beats (h : deeds) : Prop := ∃ l, Forall beat l ∧ h `prefix_of` concat l.

Lemma beats_whole l : Forall beat l → beats (concat l).
Proof. by exists l. Qed.

Lemma beats_more l b h : Forall beat l → beat b → h `prefix_of` b → beats (concat l ++ h).
Proof.
  intros Hl Hb Hp. exists (l ++ [b]). split; [by apply Forall_app; split; [|apply Forall_singleton]|].
  rewrite concat_app. simpl. rewrite app_nil_r. by apply prefix_app.
Qed.

(** Nothing in the firmware closes the client. *)
Definition same_closed (s s' : St) : Prop := closed s' = closed s.

#[local] Instance same_closed_preorder : PreOrder same_closed.
Proof. unfold same_closed. split; [by intros s|]. intros s1 s2 s3; congruence. Qed.

Definition quiet_spec : spec (St := St) (Choice := Choice (TErr := TErr)) :=
  mkSpec (λ _, True) (λ _ _, True) same_closed.

Lemma firmware_keeps_open fuel conn s : pool_safe quiet_spec (firmware fuel conn).2 s.
Proof.
  pose proof (flags_logic (TErr := TErr) same_closed (λ s s' H _, H)) as K.
  assert (Hs : Forall (λ t, steps_in (λ _, True) same_closed t) (firmware fuel conn).2).
  { repeat constructor.
    - apply (core_read_loop _ _ _ _ K); [done|]. intros. by apply (flags_read_connection _ (λ s s' H _, H)).
    - by apply (core_keepalive_loop _ _ _ _ K).
    - induction fuel as [|fuel IH]; [done|]. cbn [heartbeat_loop].
      apply (logic_bind _ _ _ _ K); [apply (logic_call _ _ _ _ K TIMEOUT (action_of Heartbeat m) HeartbeatRequest)|]. intros _.
      apply (logic_bind _ _ _ _ K); [|done]. intros s1 c b s2 _ Hp. destruct c; simpl in Hp; try discriminate Hp.
      by injection Hp as <- <-. }
  eapply Forall_impl; [exact Hs|]. intros t Ht. by eapply (steps_in_safe quiet_spec (λ _, True) same_closed).
Qed.

Abbreviation tracks p Q h s :=
  (follows (Ext := Ext (TErr := TErr)) logged same_closed (λ past _ _, beats past) p Q h s).

(** The end of a turn. *)
Lemma tracks_interval fuel l h s :
  Forall beat l → beat (h ++ [Did (LDelay HEARTBEAT_INTERVAL)]) → closed s = false →
  (∀ l s, Forall beat l → closed s = false → tracks (heartbeat_loop fuel) (λ _ _ _, True) (concat l) s) →
  tracks (bind (await (FExt (Delay HEARTBEAT_INTERVAL))) (λ _, heartbeat_loop fuel)) (λ _ _ _, True) (concat l ++ h) s.
Proof.
  intros Hl Hb Hc IH s1 c [] s2 Hr Hp. destruct c; simpl in Hp; try discriminate Hp. injection Hp as <-.
  split; [by eapply beats_more; [| |apply prefix_app_r]|]. rewrite logged_add, <-(assoc app).
  replace (concat l ++ _) with (concat (l ++ [h ++ [Did (LDelay HEARTBEAT_INTERVAL)]]))
    by (rewrite concat_app; simpl; by rewrite app_nil_r).
  apply IH; [by apply Forall_app; split; [|apply Forall_singleton]|]. by rewrite <-Hc.
Qed.

Lemma tracks_heartbeats fuel l s :
  Forall beat l → closed s = false → tracks (heartbeat_loop fuel) (λ _ _ _, True) (concat l) s.
Proof.
  revert l s. induction fuel as [|fuel IH]; intros l s Hl Hc; [done|]. cbn [heartbeat_loop].
  pose proof (beats_whole l Hl) as Hwhole.
  intros s1 Hr1. split; [done|]. cbn [fst snd]. rewrite logged_same, app_nil_r by done.
  assert (Hc1 : closed s1 = false) by (rewrite <-Hc; exact Hr1). rewrite Hc1. cbn [bind]. clear s Hc Hr1.
  intros s2 c id s3 Hr2 Hp. destruct c; simpl in Hp; try discriminate Hp. injection Hp as -> <-.
  split; [done|]. rewrite logged_same, app_nil_r by done.
  change (ser_request (action_of Heartbeat m) HeartbeatRequest) with (ser_req m HeartbeatRequest). rewrite encodes.
  cbn [bind]. change (NAME (action_of Heartbeat m)) with "Heartbeat". rewrite frames. cbn [bind].
  intros s4 Hr3. split; [done|].
  rewrite logged_same, app_nil_r by (by destruct (table_insert id oneshot_new (pending_responses s4))).
  destruct (table_insert id oneshot_new (pending_responses s4)) as [waiter t]. cbn [fst snd bind].
  assert (Hc4 : closed (set_pending t s4) = false) by (unfold same_closed in *; simpl; congruence).
  clear s1 s2 Hr2 Hr3 Hc1. revert Hc4. generalize (set_pending t s4). clear s4. intros s Hc.
  intros s1 c r s2 Hr1 Hp. destruct c as [| |r'| |]; simpl in Hp; try discriminate Hp. injection Hp as -> <-.
  split; [done|]. rewrite logged_add. unfold same_closed in Hr1.
  destruct r as [[]|err]; cbn [bind is_ok].
  - intros s3 c b s4 Hr2 Hp. unfold same_closed in Hr2. simpl in Hr2.
    split; [by eapply beats_more; [|apply (beat_answered (sink s1) id)|by eexists]|].
    unfold poll_select in Hp. destruct (poll (response_wait waiter) c s3) as [[o s']|] eqn:Ho.
    + injection Hp as <- <-. simpl in Ho. destruct (cells (pending_responses s3) !! waiter); [|discriminate Ho].
      destruct (oneshot_poll_wait _) as [[answer cell]|]; [|discriminate Ho]. injection Ho as <- <-.
      rewrite logged_same, <-(assoc app) by done. cbn [bind].
      assert (Hend : ∀ s, closed s = false → tracks (bind (await (FExt (Delay HEARTBEAT_INTERVAL))) (λ _, heartbeat_loop fuel))
                (λ _ _ _, True) (concat l ++ [Did (LSink (sink s1) (SinkSend (frame id)) true); Won true]) s).
      { intros s5 Hc5. by apply tracks_interval; [|apply beat_answered| |]. }
      destruct answer; apply Hend; simpl; congruence.
    + destruct c; simpl in Hp; try discriminate Hp. injection Hp as <- <-. rewrite logged_add, <-(assoc app). cbn [bind].
      intros s5 Hr3. split; [by eapply beats_more; [|apply (beat_unanswered (sink s1) id)|by eexists]|].
      rewrite logged_same, app_nil_r by done. cbn [fst snd bind].
      apply tracks_interval; [done|apply beat_unanswered| |done]. unfold same_closed in Hr3. simpl in *. congruence.
  - intros s3 Hr2. split; [by eapply beats_more; [|apply (beat_refused (sink s1) id)|by eexists]|].
    rewrite logged_same, app_nil_r by done. cbn [fst snd bind].
    apply tracks_interval; [done|apply beat_refused| |done]. unfold same_closed in Hr2. simpl in *. congruence.
Qed.

Lemma heartbeats_last fuel n : n < fuel → goes_on n (heartbeat_loop fuel).
Proof.
  revert n. induction fuel as [|fuel IH]; intros n Hn; [lia|]. cbn [heartbeat_loop].
  eapply goes_on_bind_after; [done|apply (ends_call TIMEOUT (action_of Heartbeat m))|]. intros _ i Hi.
  apply (goes_on_bind 1); [split; [apply ready_delay|done]|]. intros [] j Hj. apply IH. lia.
Qed.

Context {FC : FrameCodec} {NetErr : Type}.

(** C37: the heartbeats go on until the board is out of sockets.  Let the boot loop have
    connected, and let the client's tasks and [main]'s then run in any order, with
    whatever the peer, the network and the timers do.  What the task of [main] has done is
    one heartbeat after the other, each of them one CALL that was refused, answered or
    timed out and then thirty seconds, the last one perhaps not finished.  Unless the
    board has panicked it can take its next step, and it never returns; and the board
    panics only when the read loop comes to a dial for whose socket there is no room. *)
Theorem heartbeats_go_on fuel conn attempts events l stream rest schedule b :
  initial_connect (NetErr := NetErr) attempts nothing_leaked = (events, l, Online stream rest) →
  run_board schedule (board_start fuel conn l) = Some b → turns 2 schedule < fuel →
  ∃ ts s, run_pool schedule (firmware fuel conn).2 (firmware fuel conn).1 = Some (ts, s) ∧
    beats (history logged 2 schedule (firmware fuel conn).2 (firmware fuel conn).1) ∧
    match b with
    | Runs ts' s' l' => ts' = ts ∧ s' = s ∧ leaked_sockets l' ≤ SOCKETS ∧ ∃ c b', board_step 2 c b = Some b'
    | Panics l' =>
        (∃ i, starts_dial i ts = true) ∧ leaked_sockets l' ≤ SOCKETS ∧ fits (leak_socket board_config l') = false
    end.
Proof.
  intros Hboot Hrun Hfuel. destruct (initial_connect_dials _ _ _ _ _ Hboot) as (_ & Hl & _); [simpl; lia|].
  destruct (run_board_ok _ _ _ _ _ Hl Hrun) as (ts & s & Hpool & Hb). exists ts, s. split; [done|].
  destruct (run_pool_goes_on 2 0 (heartbeat_loop fuel) schedule (firmware fuel conn).2 (firmware fuel conn).1 ts s)
    as (p & Hp & Hgo); [done|by apply heartbeats_last; rewrite Nat.add_0_r|done|].
  destruct (goes_on_steps 0 p s Hgo) as (c & [[p' s'] new] & Hstep).
  destruct (run_pool_follows logged same_closed (λ past _ _, beats past) quiet_spec (λ _ _ _, True) 2
    (heartbeat_loop fuel) [] schedule (firmware fuel conn).2 (firmware fuel conn).1 ts s) as (q & Hq & Hf); try done.
  - apply same_closed_preorder.
  - apply firmware_keeps_open.
  - apply Forall_true. done.
  - by apply (tracks_heartbeats fuel [] (firmware fuel conn).1).
  - assert (q = p) as -> by congruence.
    destruct (step_follows _ _ _ _ _ _ _ _ _ _ _ same_closed_preorder.(PreOrder_Reflexive) Hf Hstep) as (Hbeats & _ & _).
    split; [exact Hbeats|]. destruct b as [ts' s'' l'|l']; [|exact Hb]. destruct Hb as (-> & -> & Hl').
    split_and!; try done. exists c. cbn [board_step]. unfold pool_step. rewrite Hp, Hstep.
    destruct (starts_dial _ _); [|by eexists]. destruct (fits _); by eexists.
Qed.

End Heartbeats.

(** ** Witness

    The connection is made at once.  A heartbeat is refused; the connection ends and two
    redials fail, which takes the sockets the DHCP client has left; then a heartbeat is
    not answered, and the next redial panics. *)
Definition demo_heartbeat_frame (id : Uuid (UuidModel := number_uuid)) : string :=
  demo_text (ser_RawCall (mkRawCall MESSAGE_TYPE_CALL (uuid_to_string id) "Heartbeat" VNull)).

Definition redial (u : N) : list (nat * demo_choice) := [(0, CUuid u); (0, CTimer); (0, CTimer)].

Definition board_schedule : list (nat * demo_choice) :=
  ([(2, CTimer); (2, CUuid 7%N); (2, CTimer); (2, CSink (Err tt)); (2, CTimer); (0, CRecv (Ok None)); (0, CTimer); (0, CTimer)] ++
   redial 1%N ++ [(0, CDial (Err tt))] ++ redial 2%N ++ [(2, CTimer); (0, CDial (Err tt))] ++
   [(2, CTimer); (2, CUuid 8%N); (2, CTimer); (2, CSink (Ok tt)); (2, CTimer); (2, CTimer)] ++ redial 3%N)%list.

Definition has_panicked (b : Board (E := V1_6.OCPP1_6Error) (TErr := unit)) : bool :=
  match b with Panics _ => true | Runs _ _ _ => false end.

Lemma heartbeats_go_on_witness :
  match run_board (BL := dhcp_limits) board_schedule
          (board_start (E := V1_6.OCPP1_6Error) json_messages VNull 20 0 (mkLeaked 4096 1)) with
  | Some b => has_panicked b = true ∧
      beats (UM := number_uuid) demo_heartbeat_frame (history logged 2 board_schedule
        (firmware (E := V1_6.OCPP1_6Error) json_messages VNull 20 0).2
        (firmware (E := V1_6.OCPP1_6Error) (TErr := unit) json_messages VNull 20 0).1)
  | None => False
  end.
Proof.
  apply (ran_to_elim (λ b, has_panicked b = true ∧
      beats (UM := number_uuid) demo_heartbeat_frame (history logged 2 board_schedule
        (firmware (E := V1_6.OCPP1_6Error) json_messages VNull 20 0).2
        (firmware (E := V1_6.OCPP1_6Error) (TErr := unit) json_messages VNull 20 0).1)) has_panicked);
    [vm_compute; reflexivity|].
  intros b Hrun Hb. split; [exact Hb|].
  destruct (heartbeats_go_on (UM := number_uuid) (E := V1_6.OCPP1_6Error) (TErr := unit) (BL := dhcp_limits) (FC := byte_codec)
    (NetErr := unit) json_messages VNull VNull demo_heartbeat_frame eq_refl (λ _, eq_refl) 20 0 [demo_attempt] _ _ _ _
    board_schedule b eq_refl Hrun) as (ts & s & _ & Hbeats & _).
  - apply Nat.ltb_lt. reflexivity.
  - exact Hbeats.
Defined.
