(* ===== verification/Example.v ===== *)
(** * The example charge point

    [src/examples/connect.rs]: a charge point of OCPP 1.6 that connects, answers
    TriggerMessage and Reset, sends a Heartbeat on every tick of a 30-second ticker, and
    disconnects when it is interrupted.  The ticker and the signal are [tokio]'s: they
    are programs of which only is assumed that they do not touch the client other than
    through its public methods. *)

From S2P Require Import Prelude Time Sync Envelope Platform ProtocolErrors Reconnect Engine Client ClientInv ClientLogic ClientDemo ClientReplies Connect ActionTables Actions Board.
From stdpp Require Import base gmap list strings.

Local Open Scope string_scope.

(** [std::env::args().nth(1).unwrap_or_else(..)]. *)
Definition address (args : list string) : string := default "ws://127.0.0.1:9000/CP1" (args !! 1).

Definition TriggerMessage : ActionDecl :=
  mkActionDecl "TriggerMessage" "TriggerMessageRequest" "TriggerMessageResponse" "TriggerMessage"
    "send_trigger_message" "on_trigger_message" "wait_for_trigger_message".

Definition Reset : ActionDecl :=
  mkActionDecl "Reset" "ResetRequest" "ResetResponse" "Reset" "send_reset" "on_reset" "wait_for_reset".

(** The three actions are those of OCPP 1.6. *)
Lemma example_actions : Forall (λ d, d ∈ actions_1_6) [TriggerMessage; Reset; Heartbeat].
Proof. repeat constructor; apply (bool_decide_eq_true_1 _); vm_compute; reflexivity. Qed.

Section Example.
Context {SM : SignalModel} {UM : UuidModel} {SJ : SerdeJson} {E : Type} {PE : ProtocolError E} {TErr IoErr : Type}.
Context {NS : NetStack} {Custom : Type}.

Abbreviation program A := (prog (St := Client (E := E)) (Ext := Ext (TErr := TErr)) A).

(** What the [?]s of [main] return. *)
Inductive MainError :=
| ConnectFailed (e : NetError)
| SignalFailed (e : IoErr)
| DisconnectFailed (e : ClientError E JsonError TErr).

(** The message types, the [Accepted] responses and the empty request. *)
Context (trigger reset heartbeat : Messages).
Context (trigger_accepted : Res trigger) (reset_accepted : Res reset) (heartbeat_request : Req heartbeat).

(** [ticker.tick()] and [signal::ctrl_c()]. *)
Context (tick : program unit) (ctrl_c : program (result unit IoErr)).

Fixpoint heartbeat_task (fuel : nat) (timeout : Duration) : program unit :=
  match fuel with
  | O => OutOfFuel
  | S fuel =>
      bind tick (λ _,
      bind (method_send timeout Heartbeat heartbeat heartbeat_request) (λ _, heartbeat_task fuel timeout))
  end.

(** [main] from the moment it has a client. *)
Definition main_connected (fuel : nat) (timeout : Duration) : program (result unit MainError) :=
  bind (method_on fuel TriggerMessage trigger (λ _, Ret (Ok trigger_accepted))) (λ _,
  bind (method_on fuel Reset reset (λ _, Ret (Ok reset_accepted))) (λ _,
  Spawn (heartbeat_task fuel timeout)
    (bind ctrl_c (λ interrupted,
     match interrupted with
     | Err e => Ret (Err (SignalFailed e))
     | Ok _ => bind disconnect (λ r, Ret (map_err DisconnectFailed r))
     end)))).

Definition main_task (fuel : nat) (timeout : Duration) : program unit :=
  bind (main_connected fuel timeout) (λ _, Ret tt).

(** [main]: it fails where it cannot connect, and otherwise is a task beside the
    client's own. *)
Definition main (net : Network) (args : list string) (fuel conn : nat) :
    result (Client (E := E) * list (program unit)) MainError :=
  match connect_1_6 (Custom := Custom) net (address args) None with
  | Err e => Err (ConnectFailed e)
  | Ok c =>
      let '(client, tasks) := from_transport_with_config fuel conn (config c).1 in
      Ok (client, (tasks ++ [main_task fuel (config_timeout (config c).1)])%list)
  end.

(** What its handlers answer. *)
Inductive accepts : ∀ A : Action, Request A → result (Response A) E → Prop :=
| accepts_trigger request : accepts (action_of TriggerMessage trigger) request (Ok trigger_accepted)
| accepts_reset request : accepts (action_of Reset reset) request (Ok reset_accepted).

Definition accepting : Contract (E := E) :=
  mkContract (λ A, A = action_of TriggerMessage trigger ∨ A = action_of Reset reset) accepts.

Hypothesis tick_api : api_with (serves (TErr := TErr) accepting) unit tick.
Hypothesis ctrl_c_api : api_with (serves (TErr := TErr) accepting) _ ctrl_c.

Lemma heartbeat_task_api fuel timeout : api_with (serves accepting) unit (heartbeat_task fuel timeout).
Proof.
  induction fuel as [|fuel IH]; [apply api_fuel|]. cbn [heartbeat_task].
  apply api_bind; [done|]. intros _. apply api_bind; [|by intros _].
  apply (api_call _ _ (action_of Heartbeat heartbeat)).
Qed.

Lemma main_connected_api fuel timeout : api_with (serves accepting) _ (main_connected fuel timeout).
Proof.
  apply api_bind; [|intros _; apply api_bind; [|intros _; apply api_spawn]].
  - apply api_on; [|intros; apply api_ret]. split; [by left|]. intros r. apply accepts_trigger.
  - apply api_on; [|intros; apply api_ret]. split; [by right|]. intros r. apply accepts_reset.
  - apply heartbeat_task_api.
  - apply api_bind; [done|]. intros [u|e]; [|apply api_ret]. apply api_bind; [apply api_disconnect|].
    intros r. apply api_ret.
Qed.

(** The example accepts what it is asked, and nothing else.  Whatever the CSMS sends,
    and however the example's tasks are interleaved: each CALLRESULT it ever sends
    answers a TriggerMessage or a Reset that it received before, with that CALL's own
    identifier and a payload that decodes as that request, and is the encoding of
    [Accepted]. *)
Lemma example_only_accepts net args fuel conn client tasks schedule ts s i c frame ok id :
  main net args fuel conn = Ok (client, tasks) → run_pool schedule tasks client = Some (ts, s) →
  log s !! i = Some (LSink c (SinkSend frame) ok) → frame_head frame = Some (MESSAGE_TYPE_RESULT, id) →
  ∃ payload,
    (received (take i (log s)) "TriggerMessage" id payload ∧ is_ok (de_req trigger payload) = true ∧
     response_frame (E := E) (ser_res trigger) (Ok trigger_accepted) id = Some frame) ∨
    (received (take i (log s)) "Reset" id payload ∧ is_ok (de_req reset payload) = true ∧
     response_frame (E := E) (ser_res reset) (Ok reset_accepted) id = Some frame).
Proof.
  unfold main. destruct (connect_1_6 _ _ _) as [cn|]; [|done]. intros [= <- <-] Hrun Hi Hh.
  assert (Hinv : replies_inv accepting s).
  { apply (replies_inv_reachable accepting fuel conn (config cn).1
      [main_task fuel (config_timeout (config cn).1)] schedule ts s); [|exact Hrun].
    apply Forall_singleton. apply api_bind; [apply main_connected_api|]. intros. apply api_ret. }
  destruct (inv_log _ _ Hinv _ _ Hi _ _ Hh (or_introl eq_refl)) as (name & payload & Hrecv & Hreply).
  exists payload. destruct Hreply as [A request outcome _ Hname Hd Hs Hr|A error _ _ _ Hr|Hr].
  - destruct Hs; simpl in Hname, Hd; subst name; [left|right]; by rewrite Hd.
  - unfold response_frame in Hr. destruct (to_string _) as [text|] eqn:Ht; [|done]. injection Hr as ->.
    by destruct (frame_head_text MESSAGE_TYPE_ERROR _ _ _ _ _ ltac:(by split) Ht Hh).
  - by destruct (frame_head_text MESSAGE_TYPE_ERROR _ _ _ _ _ ltac:(by split) Hr Hh).
Qed.

End Example.

(** ** Witness *)

Definition accepted : Value := VObject [("status", VString "Accepted")].

Definition waiting : demo_program unit := await (FExt (Delay (from_secs 30))).

Definition agreeing : Network (H := plain_stack) :=
  mkNetwork plain_stack (λ _, Ok tt) (λ _ _ _, Ok (tt, Some (Ok "ocpp1.6"))).

Abbreviation example :=
  (main (IoErr := unit) (NS := plain_stack) (Custom := unit) json_messages json_messages json_messages
     accepted accepted VNull waiting (bind waiting (λ _, Ret (Ok tt))) agreeing [] 3 0).

Definition trigger_call : string :=
  demo_text (ser_RawCall (mkRawCall MESSAGE_TYPE_CALL "12" "TriggerMessage" VNull)).
Definition trigger_reply : string :=
  demo_text (ser_RawResult (mkRawResult MESSAGE_TYPE_RESULT "12" accepted)).

Definition example_schedule : list (nat * demo_choice) :=
  [(2, CTimer); (2, CTimer); (2, CTimer); (2, CTimer); (2, CTimer);
   (0, CRecv (Ok (Some (Frame trigger_call)))); (0, CTimer); (0, CTimer); (0, CTimer);
   (3, CTimer); (3, CSink (Ok tt))].

Abbreviation example_run :=
  (match example with
   | Ok (client, tasks) =>
       match run_pool example_schedule tasks client with Some (ts, s) => Some (client, tasks, ts, s) | None => None end
   | Err _ => None
   end).

Lemma example_only_accepts_witness :
  match example_run with
  | Some x => ∃ payload, received (take 1 (log x.2)) "TriggerMessage" "12" payload ∨
                         received (take 1 (log x.2)) "Reset" "12" payload
  | None => False
  end.
Proof.
  apply (ran_to_elim (λ x, ∃ payload, received (take 1 (log x.2)) "TriggerMessage" "12" payload ∨
                         received (take 1 (log x.2)) "Reset" "12" payload)
           (λ x, match log x.2 with [_; LSink 0 (SinkSend f) true] => String.eqb f trigger_reply | _ => false end));
    [vm_compute; reflexivity|].
  intros [[[client tasks] ts] s] Hrun Hlog. simpl in Hlog.
  destruct example as [[client' tasks']|] eqn:Hmain; [|discriminate Hrun].
  destruct (run_pool example_schedule tasks' client') as [[ts' s']|] eqn:Hpool; [|discriminate Hrun].
  injection Hrun as -> -> -> ->.
  destruct (example_only_accepts (NS := plain_stack) (Custom := unit) json_messages json_messages json_messages accepted accepted VNull waiting
    (bind waiting (λ _, Ret (Ok tt))) ltac:(apply api_delay)
    ltac:(apply api_bind; [apply api_delay|intros; apply api_ret])
    agreeing [] 3 0 client tasks example_schedule ts s 1 0 trigger_reply true "12" Hmain Hpool)
    as (payload & [[Hr _]|[Hr _]]); [|vm_compute; reflexivity|exists payload; left; exact Hr|exists payload; right; exact Hr].
  simpl. destruct (log s) as [|e1 [|e2 [|]]]; try discriminate Hlog; destruct e2 as [c o k| | | |];
    try discriminate Hlog; destruct c, o, k; try discriminate Hlog.
  apply String.eqb_eq in Hlog. subst. reflexivity.
Defined.
